(* ===== verification/_CoqProject ===== *)
-Q . S2P
Prelude.v
Tenant.v
ComputeMeter.v
Ledger.v
LedgerSpec.v
LedgerSafety.v
LedgerLifecycle.v
Journal.v
FileLedger.v
FileLedgerProofs.v
FileLedgerTheorems.v
LedgerInterface.v
Caps.v
Lifecycle.v
Billing.v
Scheduler.v
SchedulerProofs.v
Interference.v
GlobalGate.v
Decimal.v
Introspect.v
IntrospectProofs.v
Coalesce.v
Pg.v
PgProofs.v
PgExternal.v
PgExternalProofs.v
Suspension.v
SuspensionProofs.v
Text.v
Lease.v
Clw.v
Boxes.v
BoxLaws.v
BoxTheorems.v
PgQueue.v
Task.v
BillingExport.v
BillingExportProofs.v
Envelope.v
EnvelopeProofs.v
Attest.v
AttestProofs.v
Engine.v
EngineProofs.v
CloudEngine.v
CloudProofs.v
CloudBoxes.v
Worker.v
BillingPush.v
BillingPushProofs.v
Fence.v
FenceProofs.v
Workspace.v
WorkspaceProofs.v
Shard.v
State.v
Service.v
ServiceLogic.v
ServiceSpecs.v
ServiceProofs.v
Admission.v
AdmissionProofs.v
ServiceTheorems.v
ServiceRuns.v
CloudService.v
Webhook.v
WebhookProofs.v
WebhookRuns.v
Exec.v
ExecProofs.v
ExecRuns.v
Enforcement.v
Onboarding.v
CasCred.v
Mint.v
Shim.v
ShimProofs.v
Slots.v
SlotsProofs.v
