(* ===== verification/Prelude.v ===== *)
(** * CoreLink Runners: a verification library

    The program leases sandboxed boxes to tenants.  The fabric server
    ([crates/corelink-fabric-server]) authenticates a request, admits it against
    the tenant's caps, records a lease in a ledger ([crates/corelink-fabric]),
    asks a provider for a box ([crates/corelink-cloud-engine]), meters the slot
    and the compute, captures what the job's agent does, attests results and takes
    the box down again when the lease ends.  The runner crate
    ([crates/corelink-runner]) is what happens on a box: pinned images, container
    isolation, the file fence, workspaces, the capture envelope and teardown.

    Pure functions are functions here, a method on [&mut self] that can fail is a
    value of the state-and-error monad [M] of this file, a database transaction is
    one step on the tables, and an [async] handler or a thread is a [Task]: a
    program cut where it touches shared state, run under any schedule.  Machine
    integers are [Z] with the bounds and the saturation or wrap of the source.
    Third-party code (JSON text, hashes, signatures, YAML, HTTP, the providers,
    Postgres, the clock) is an argument, with what is relied on as the laws of a
    type class; the theorems that need such laws are applied to a concrete
    instance by their witnesses.

    ** The files

    Foundations.  [Prelude]: results, the monad, integers, maps.  [Text]: the
    string functions of the standard library.  [Task]: tasks, schedules, what a
    task saw of a run, how often something can be taken in a run, tasks over a part
    of the state, and a small logic of tokens for invariants that hold between any
    two accesses.

    The ledger.  [Tenant] is [tenant.rs] and [meter.rs], [ComputeMeter] is
    [compute_meter.rs].  [Ledger] is the data and the in-memory core of
    [ledger.rs] with [ledger/pending_cleanup.rs] and [ledger/provider_binding.rs];
    [LedgerSpec] is the abstract lease machine with the refinement of the core;
    [LedgerSafety] and [LedgerLifecycle] are its invariants.  [Journal],
    [FileLedger], [FileLedgerProofs] and [FileLedgerTheorems] are the file ledger
    with its journal, torn writes and restarts.  [LedgerInterface] is the
    [LeaseLedger] trait with its laws and the two synchronised handles.  [Pg] and
    [PgProofs] are [pg_ledger.rs] with [pending_cleanup_pg.rs] and
    [provider_binding.rs]; [PgExternal] and [PgExternalProofs] are
    [compute_budget.rs] and [pg_ledger/external_compute.rs]; [Suspension] and
    [SuspensionProofs] are [pg_ledger/suspension.rs] with the cache of [app.rs]
    and the dispatcher of [reaper.rs]; [PgQueue] is [pg_queue.rs].

    Policies.  [Caps] is [caps.rs], [plans.rs] and [downgrade_grace.rs];
    [Lifecycle] is [lifecycle.rs]; [Billing] is [billing.rs]; [Scheduler] and
    [SchedulerProofs] are [scheduler.rs]; [Interference] is [interference.rs];
    [GlobalGate] is [global_gate.rs]; [Decimal] is [decimal.rs].

    Billing.  [BillingExport] and [BillingExportProofs] are [billing_sink.rs] and
    [billing_export.rs]: the journal of slot events and its export to Postgres.
    [BillingPush] and [BillingPushProofs] are [corelink_billing.rs]: the buffer of
    usage and its delivery to the billing service.

    Authentication.  [Introspect] and [IntrospectProofs] are
    [introspect_breaker.rs], [introspect_cache.rs], [corelink_auth.rs],
    [corelink_plans.rs] and [auth.rs]; [Coalesce] is [introspect_coalesce.rs].

    Boxes.  [Lease] is [lease.rs] and [pin.rs] of the runner crate.  [Boxes] is
    [cloud_exec.rs] with [cloud_exec/provider_refs.rs] and [provider_binding.rs];
    [BoxLaws] is what a provisioner promises to the server, proved for the four
    provisioners from the laws of the provider engines; [BoxTheorems] is about
    restarts and failed spawns.  [CloudEngine] is the two provider clients,
    [http.rs], [cloudflare.rs], [cloudflare/control_auth.rs] and [northflank.rs];
    [CloudProofs] is what they send and conclude; [CloudBoxes] derives the engine
    laws of [BoxLaws] from what the routes of the spawn Worker and the job API do
    with a request.  [Worker] is the control routes of the spawn Worker
    ([deploy/cloudflare/src/index.ts] and [lib/control_auth.ts]) with the start of a
    container and its retries, the abandoned containers and the idle backstop, over
    the container platform as a parameter; it states what the platform is documented
    to do and shows that the Worker is what [CloudBoxes] asks for.

    On the box.  [Engine] and [EngineProofs] are [isolation.rs], [teardown.rs],
    [expiry], [recovery] and [concurrency]; [Fence] and [FenceProofs] are
    [enforce], [materialize] and [util.rs]; [Workspace] and [WorkspaceProofs] are
    [ws]; [Envelope] and [EnvelopeProofs] are [envelope]; [Attest] and
    [AttestProofs] are [attest] with [attestation.rs] and [exec.rs] of the server.

    The server.  [Shard] is [shard.rs]; [State] is the shared state of [app.rs]
    and its accesses; [Service] is the lease handlers, close, the turn feed and the
    sweeps ([handlers/leases.rs], [handlers/close.rs], [handlers/envelope.rs],
    [pending_cleanup.rs], [reaper.rs]); [Admission] is [admission.rs].
    [ServiceLogic] states the invariant of the server, [ServiceSpecs],
    [ServiceProofs] and [AdmissionProofs] prove that every handler keeps it,
    [ServiceTheorems] says what that means for a run of the server, [ServiceRuns]
    has runs, and [CloudService] puts the server on the two provider clients, the
    Cloudflare one over the Worker.

    The other handlers, each beside all requests of [Service] in any interleaving.
    [Webhook], [WebhookProofs] and [WebhookRuns] are [handlers/webhook.rs] and
    [ingest_token.rs], the autoscaler; [Exec], [ExecProofs] and [ExecRuns] are
    [handlers/exec_handler.rs] and [handlers/agent_exec.rs]; [Clw] is
    [clw_drive.rs]; [Enforcement] is [handlers/enforcement.rs], [Onboarding] is
    [handlers/admin.rs], [CasCred] is [cred_ticket.rs], [handlers/cas_cred.rs] and
    [handlers/test_mint.rs], and [Mint] is [runner_broker.rs] and
    [runner_cas_mint.rs].

    Beside the server, [Shim] and [ShimProofs] are [shim] of the runner crate, which
    reads workflow files.  [Slots] and [SlotsProofs] are the authorities of the spawn
    Worker ([deploy/cloudflare/src]): [lib/concurrency_authority.ts],
    [lib/admission_budget.ts], [lib/retry_epoch_authority.ts], [decideSlotAcquire] of
    [lib.ts], and [acquireConcurrencySlot] and [ConcurrencySlotsDO] of [index.ts].

    ** What is shown

    - The server as a whole, for any requests in any interleaving: the slot events
      balance with the held leases once all handlers are through, no box runs without
      an active lease, also with the boxes counted at the providers themselves, but
      for containers whose start the spawn Worker has given up; a lease that was given
      out is never taken back, a waiting request is admitted at most once.
    - The ledger: caps and the monthly compute ceiling are never exceeded, compute
      is charged once, records only move forward, cleanup is fenced; the in-memory,
      the file and the Postgres ledger refine one abstract machine; the file
      ledger recovers from a crash at any byte.
    - One budget for native and external compute, the suspension outbox and its
      delivery, the shared queue.
    - Boxes: the durable binding finds the box again after a restart; a credential
      goes only to the operation it is for; a remote check passes only on positive
      evidence, of the last poll of its own run; no container starts from an
      unverified image or without its isolation; a batch that reports itself clean
      has left no container.
    - The fence: only admitted files are written, byte for byte; a resumed
      workspace never sees more than before; a caller only gets its own workspace.
    - Capture and attestation: a close happens once, a complete capture is
      complete, signed messages determine their fields, a close verifies; a check
      is attested only if it ran in a box of a lease that was held.
    - The autoscaler: with signed deliveries a lease follows its job, and the books
      of the server stay balanced.
    - Billing: no slot event is lost on its way to Postgres, and no usage on its way
      to the billing service.
    - Credentials: a ticket is for one lease and is redeemed once, what is minted
      dies with its lease, and each token goes only where it belongs.
    - Workflows: the plain layout is understood exactly as written, and nothing runs
      past a secret that is refused.
    - The spawn Worker: slots stay within the caps of their key and of the fleet and
      admissions without a slot within five a minute, whichever calls fail; a slot
      stays while a preparation holds it; a retry is counted once.
    - Policies: exactness and fairness of the gates, the scheduler, the breaker.
    - Where the code falls short, the run that shows it: a capacity answer that is
      never given, a park cap that is exceeded, a job that is left at the provider,
      workspaces that lose a running container, messages of the signing key that
      are not told apart, a transition published although its append failed, a
      window of billing events too large to be exported, a lease that falls out of a
      full table, a step that outlives its lease, a suspended tenant that is served
      from the queue, a test lease that is never reclaimed, and workflow steps and
      jobs that are lost without a report.

    ** Bounds and fuel

    The tick loop of the scheduler takes as fuel its budget plus one, and
    [SchedulerProofs.tick_fuel_enough] shows that this is always enough.  The
    loops the source bounds itself have that bound as their count: the polls of a
    run, the retries of an introspection, of an image pull, of the mint of an id,
    of a flush, of the start of a container, and the drain of a poll.  The scan for secrets has the length of
    the text as its fuel, and [ShimProofs.extract_secret_refs_eq] shows that this
    is the loop itself.  The largest statement Postgres takes, and the sizes of
    the tables that drop their oldest entry, are those of the source.  The loop in
    which a workspace caller waits runs as long as it is woken; its theorems hold
    for every number of looks.  Recursion on text and JSON is structural.

    ** Not modelled

    HTTP routing, log texts and metrics, and the configuration of the process from
    the environment except that of the cloud engines, the billing client, the
    autoscaler and the minting clients.  The handlers that only read (status of the
    fleet, usage, occupancy, lists) format what the modelled parts return.  The check
    execution server and the command line client are processes around sockets and
    files; the boot scripts and the red-team battery are run against live
    containers; plan rows and audit rows are single SQL statements; compute grants
    are verified by third-party cryptography.
    Of the TypeScript workers the admission of a spawn and the control routes of
    the spawn Worker are modelled, but for its exec route; its webhook, credentials,
    attribution, outboxes and other cron tasks, and the other workers, are programs
    of their own.  Panics, poisoned locks other than the
    ledger's, lost connections to Postgres inside a transaction, and the texts of
    errors are left out; an error is its kind. *)
From stdpp Require Export base tactics option list gmap strings sorting.
From Stdlib Require Export ZArith Lia Ascii.

#[global] Open Scope Z_scope.

(** ** Results and the state-and-error monad

    [anyhow::Result<T>] and the other [Result]s of the code: the error type is
    a parameter, one inductive per component with a constructor per [bail!]. *)
Inductive result (E A : Type) : Type :=
| Ok (a : A)
| Err (e : E).
Arguments Ok {E A} a.
Arguments Err {E A} e.

Definition is_ok {E A} (r : result E A) : bool :=
  match r with Ok _ => true | Err _ => false end.

Definition result_map {E A B} (f : A → B) (r : result E A) : result E B :=
  match r with Ok a => Ok (f a) | Err e => Err e end.

#[export] Instance result_ret {E} : MRet (result E) := λ A a, Ok a.
#[export] Instance result_bind {E} : MBind (result E) := λ A B f r,
  match r with Ok a => f a | Err e => Err e end.

(** A method taking [&mut self] and returning a [Result]: the state after the
    call is there also when the call failed, since Rust does not roll back. *)
Definition M (S E A : Type) : Type := S → S * result E A.

#[export] Instance M_ret {S E} : MRet (M S E) := λ A a s, (s, Ok a).
#[export] Instance M_bind {S E} : MBind (M S E) := λ A B f m s,
  match m s with
  | (s', Ok a) => f a s'
  | (s', Err e) => (s', Err e)
  end.

Definition throw {S E A} (e : E) : M S E A := λ s, (s, Err e).
Definition get_state {S E} : M S E S := λ s, (s, Ok s).
Definition modify {S E} (f : S → S) : M S E unit := λ s, (f s, Ok ()).
Definition lift {S E A} (r : result E A) : M S E A := λ s, (s, r).
Definition bail_if {S E} (b : bool) (e : E) : M S E unit :=
  if b then throw e else mret ().

(** Runs a monadic program symbolically: unfold the combinators, reduce. *)
Ltac run_M :=
  unfold mbind, mret, M_bind, M_ret, result_bind, result_ret, throw,
    get_state, modify, lift, bail_if in *;
  cbn in *.

(** Case analysis on the first stuck test of a hypothesis or of the goal. *)
Ltac step_M := run_M; repeat (case_match; simplify_eq/=; try done; run_M).

(** ** Machine integers

    [u32] and [u64] are [Z] with the wrap or the saturation written out. *)
Definition U32_MAX : Z := 2 ^ 32 - 1.
Definition U64_MAX : Z := 2 ^ 64 - 1.
Definition I64_MAX : Z := 2 ^ 63 - 1.

Definition is_u32 (z : Z) : Prop := 0 ≤ z ≤ U32_MAX.
Definition is_u64 (z : Z) : Prop := 0 ≤ z ≤ U64_MAX.

(** [x as u32] of a non-negative value. *)
Definition as_u32 (z : Z) : Z := z mod 2 ^ 32.
(** [x as u64]. *)
Definition as_u64 (z : Z) : Z := z mod 2 ^ 64.

(** [u64 as i64]. *)
Definition as_i64 (z : Z) : Z := if z <=? I64_MAX then z else z - 2 ^ 64.

(** [u64::saturating_add], [saturating_sub] and [saturating_mul]. *)
Definition sat_add (x y : Z) : Z := Z.min U64_MAX (x + y).
Definition sat_sub (x y : Z) : Z := Z.max 0 (x - y).
Definition sat_mul (x y : Z) : Z := Z.min U64_MAX (x * y).

Declare Scope rust_scope.
Delimit Scope rust_scope with rust.
Infix "+sat" := sat_add (at level 50, left associativity) : rust_scope.
Infix "-sat" := sat_sub (at level 50, left associativity) : rust_scope.
Infix "*sat" := sat_mul (at level 40, left associativity) : rust_scope.
#[global] Open Scope rust_scope.

Create HintDb machine.
#[export] Hint Unfold is_u32 is_u64 sat_add sat_sub sat_mul as_u32 as_u64
  U32_MAX U64_MAX I64_MAX : machine.

(** Linear arithmetic over the machine operations. *)
Ltac mlia := autounfold with machine in *; lia.

Lemma as_u32_small z : 0 ≤ z ≤ U32_MAX → as_u32 z = z.
Proof. intros. unfold as_u32, U32_MAX in *. apply Z.mod_small. lia. Qed.

Lemma as_u32_range z : 0 ≤ as_u32 z ≤ U32_MAX.
Proof. unfold as_u32, U32_MAX. pose proof (Z.mod_pos_bound z (2 ^ 32)). lia. Qed.

(** A fold of saturating additions is the saturated sum, in any order. *)
Lemma foldl_sat_add l a :
  0 ≤ a → Forall (λ x, 0 ≤ x) l →
  foldl sat_add (Z.min U64_MAX a) l = Z.min U64_MAX (a + foldr Z.add 0 l).
Proof.
  revert a. induction l as [|x l IH]; intros a Ha Hl; [simpl; f_equal; lia|].
  apply Forall_cons in Hl as [Hx Hl]. simpl.
  replace (sat_add (Z.min U64_MAX a) x) with (Z.min U64_MAX (a + x)) by mlia.
  rewrite IH by (auto; lia). f_equal. lia.
Qed.

(** ** Sums over finite maps

    [HashMap::values()] visits the values in an unspecified order; the model
    takes the order of [map_to_list].  The quantities the code computes from
    the values are sums and counts, and these lemmas show how they change with
    one key, whatever the order. *)
Section map_sum.
Context {K V : Type} `{Countable K}.
Implicit Types (m : gmap K V) (f g : K → V → Z).

Definition map_values m : list V := (map_to_list m).*2.

Definition map_sum f m : Z :=
  foldr (λ kv acc, f kv.1 kv.2 + acc) 0 (map_to_list m).

(** The contribution of one key. *)
Definition at_key f (k : K) m : Z := from_option (f k) 0 (m !! k).

Lemma map_sum_perm f m l :
  map_to_list m ≡ₚ l → map_sum f m = foldr (λ kv acc, f kv.1 kv.2 + acc) 0 l.
Proof.
  unfold map_sum. induction 1; simpl; lia.
Qed.

Lemma map_sum_empty f : map_sum f ∅ = 0.
Proof. unfold map_sum. by rewrite map_to_list_empty. Qed.

Lemma map_sum_insert_fresh f k v m :
  m !! k = None → map_sum f (<[k:=v]> m) = f k v + map_sum f m.
Proof.
  intros Hk. by rewrite (map_sum_perm _ _ _ (map_to_list_insert m k v Hk)).
Qed.

Lemma map_sum_split f k m :
  map_sum f m = at_key f k m + map_sum f (delete k m).
Proof.
  unfold at_key. destruct (m !! k) as [v|] eqn:E; simpl.
  - rewrite <-(insert_delete_id m k v E) at 1.
    apply map_sum_insert_fresh, lookup_delete_eq.
  - rewrite delete_id by done. lia.
Qed.

Lemma map_sum_ext f g m :
  (∀ k v, m !! k = Some v → f k v = g k v) → map_sum f m = map_sum g m.
Proof.
  unfold map_sum. intros Hfg.
  assert (∀ kv, kv ∈ map_to_list m → f kv.1 kv.2 = g kv.1 kv.2) as Hl.
  { intros [k v]. rewrite elem_of_map_to_list. apply Hfg. }
  revert Hl. induction (map_to_list m) as [|kv l IH]; intros Hl; [done|].
  simpl. rewrite (Hl kv), IH; set_solver.
Qed.

(** A sum changes only by the contribution of the key that changed. *)
Lemma map_sum_change f g k m m' :
  delete k m = delete k m' →
  (∀ j v, j ≠ k → m !! j = Some v → f j v = g j v) →
  map_sum g m' = map_sum f m - at_key f k m + at_key g k m'.
Proof.
  intros Hdel Hfg. rewrite (map_sum_split f k m), (map_sum_split g k m'), <-Hdel.
  rewrite (map_sum_ext f g (delete k m)); [lia|].
  intros j v [? ?]%lookup_delete_Some. by apply Hfg.
Qed.

Lemma map_sum_insert f k v m :
  map_sum f (<[k:=v]> m) = map_sum f m - at_key f k m + f k v.
Proof.
  rewrite (map_sum_change f f k m (<[k:=v]> m)); [|by rewrite delete_insert_eq|done].
  unfold at_key at 2. by rewrite lookup_insert_eq.
Qed.

Lemma map_sum_delete f k m : map_sum f (delete k m) = map_sum f m - at_key f k m.
Proof. rewrite (map_sum_split f k m). lia. Qed.

Lemma map_sum_le f g m :
  (∀ k v, m !! k = Some v → f k v ≤ g k v) → map_sum f m ≤ map_sum g m.
Proof.
  induction m as [|k v m Hk IH] using map_ind; intros Hfg.
  - by rewrite !map_sum_empty.
  - rewrite !map_sum_insert_fresh by done.
    assert (map_sum f m ≤ map_sum g m).
    { apply IH. intros j w Hj. apply Hfg. rewrite lookup_insert_ne; congruence. }
    specialize (Hfg k v (lookup_insert_eq _ _ _)). lia.
Qed.

Lemma map_sum_const0 m : map_sum (λ _ _, 0) m = 0.
Proof. unfold map_sum. by induction (map_to_list m). Qed.

Lemma map_sum_nonneg f m :
  (∀ k v, m !! k = Some v → 0 ≤ f k v) → 0 ≤ map_sum f m.
Proof. intros Hf. rewrite <-(map_sum_const0 m). by apply map_sum_le. Qed.

Lemma map_sum_at_key_le f k m :
  (∀ k v, m !! k = Some v → 0 ≤ f k v) → at_key f k m ≤ map_sum f m.
Proof.
  intros Hf. rewrite (map_sum_split f k m).
  assert (0 ≤ map_sum f (delete k m)); [|lia].
  apply map_sum_nonneg. intros j v [_ Hj]%lookup_delete_Some. eauto.
Qed.

(** [values().filter(P).count()] as a sum. *)
Lemma count_values_map_sum (P : V → Prop) `{!∀ v, Decision (P v)} m :
  Z.of_nat (length (filter P (map_values m))) =
  map_sum (λ _ v, if decide (P v) then 1 else 0) m.
Proof.
  unfold map_values, map_sum.
  induction (map_to_list m) as [|[k v] l IH]; [done|].
  rewrite fmap_cons, filter_cons. cbn [foldr snd].
  case_decide; [rewrite length_cons|]; lia.
Qed.

Lemma elem_of_map_values v m : v ∈ map_values m ↔ ∃ k, m !! k = Some v.
Proof.
  unfold map_values. rewrite list_elem_of_fmap. split.
  - intros ([k w] & -> & Hk%elem_of_map_to_list). eauto.
  - intros [k Hk]. exists (k, v). by rewrite elem_of_map_to_list.
Qed.
End map_sum.

(** ** Sorting by a string key: [out.sort_by(|a, b| a.key.cmp(&b.key))] *)
Section sort_by_key.
Context {A : Type} (key : A → string).

Definition key_le (a b : A) : Prop := String.le (key a) (key b).

#[global] Instance key_le_dec : RelDecision key_le.
Proof. intros a b. unfold key_le. apply _. Defined.
#[global] Instance key_le_total : Total key_le.
Proof. intros a b. unfold key_le. apply (total String.le). Qed.
#[global] Instance key_le_trans : Transitive key_le.
Proof. intros a b c. unfold key_le. apply (transitivity (R := String.le)). Qed.

Definition sort_by_key (l : list A) : list A := merge_sort key_le l.

Lemma sort_by_key_perm l : sort_by_key l ≡ₚ l.
Proof. apply merge_sort_Permutation. Qed.

Lemma elem_of_sort_by_key x l : x ∈ sort_by_key l ↔ x ∈ l.
Proof. by rewrite sort_by_key_perm. Qed.

Lemma sort_by_key_sorted l : StronglySorted key_le (sort_by_key l).
Proof. apply StronglySorted_merge_sort; apply _. Qed.
End sort_by_key.

(** ** Strings *)

(** [str::strip_prefix]. *)
Fixpoint strip_prefix (p s : string) : option string :=
  match p, s with
  | EmptyString, _ => Some s
  | String a p, String b s => if decide (a = b) then strip_prefix p s else None
  | _, _ => None
  end.

Lemma strip_prefix_app p s : strip_prefix p (p +:+ s) = Some s.
Proof. induction p as [|a p IH]; [done|]. simpl. by rewrite decide_True. Qed.

Lemma strip_prefix_Some p s t : strip_prefix p s = Some t → s = p +:+ t.
Proof.
  revert s. induction p as [|a p IH]; intros s H; simpl in *; [by simplify_eq|].
  destruct s as [|b s]; [done|]. case_decide; [|done]. subst.
  by rewrite (IH _ H).
Qed.

Lemma string_app_cons c (a b : string) : String c a +:+ b = String c (a +:+ b).
Proof. done. Qed.

Lemma string_app_nil_l (b : string) : EmptyString +:+ b = b.
Proof. done. Qed.

Create Rewrite HintDb strings.
#[export] Hint Rewrite string_app_cons string_app_nil_l : strings.

Lemma string_app_assoc (a b c : string) : (a +:+ b) +:+ c = a +:+ (b +:+ c).
Proof. induction a as [|x a IH]; autorewrite with strings; [done|]. by rewrite IH. Qed.

Lemma string_app_nil_r (a : string) : a +:+ EmptyString = a.
Proof. induction a as [|x a IH]; autorewrite with strings; [done|]. by rewrite IH. Qed.

Lemma string_length_app (a b : string) :
  String.length (a +:+ b) = (String.length a + String.length b)%nat.
Proof. induction a as [|x a IH]; autorewrite with strings; [done|]. simpl. by rewrite IH. Qed.
