(* ===== verification/Tenant.v ===== *)
(** * Tenants, plans and meter events

    Models [crates/corelink-fabric/src/tenant.rs] (the validated tenant key and
    the plan caps) and the event schema of [meter.rs].  The tenant key is what
    every map of the control plane is keyed by, so its decidable equality,
    countability and order live here. *)
From S2P Require Import Prelude.

(** The error of a failed shape validation: empty, or the offending byte. *)
Inductive TenantError : Type :=
| TenantEmpty
| TenantIllegalChar (bad : ascii).

(** [pub struct TenantId(String)]. *)
Record TenantId : Type := mkTenantId { as_str : string }.

#[export] Instance TenantId_eq_dec : EqDecision TenantId.
Proof. solve_decision. Defined.
#[export] Instance TenantId_countable : Countable TenantId.
Proof. apply (inj_countable' as_str mkTenantId). by intros []. Defined.
#[export] Instance TenantId_inhabited : Inhabited TenantId := populate (mkTenantId "t").

(** [c.is_ascii_lowercase() || c.is_ascii_digit() || *c == '-'].  The source
    tests Unicode characters; a character outside ASCII fails every test, and
    so does each byte of its encoding. *)
Definition tenant_char_ok (c : ascii) : bool :=
  let n := Z.of_N (N_of_ascii c) in
  ((97 <=? n) && (n <=? 122)) || ((48 <=? n) && (n <=? 57)) || (n =? 45).

(** [raw.chars().find(|c| !ok(c))]. *)
Fixpoint find_illegal (s : string) : option ascii :=
  match s with
  | EmptyString => None
  | String c s => if tenant_char_ok c then find_illegal s else Some c
  end.

(** [TenantId::new], also what [FromStr] and deserialization run. *)
Definition tenant_new (raw : string) : result TenantError TenantId :=
  match raw with
  | EmptyString => Err TenantEmpty
  | _ => match find_illegal raw with
         | Some bad => Err (TenantIllegalChar bad)
         | None => Ok (mkTenantId raw)
         end
  end.

(** The derived [Ord] of the newtype: byte order of the key. *)
Definition tenant_le (a b : TenantId) : Prop := String.le (as_str a) (as_str b).
Definition tenant_lt (a b : TenantId) : Prop := tenant_le a b ∧ a ≠ b.

#[export] Instance tenant_le_dec : RelDecision tenant_le.
Proof. intros a b. unfold tenant_le. apply _. Defined.
#[export] Instance tenant_lt_dec : RelDecision tenant_lt.
Proof. intros a b. unfold tenant_lt. apply _. Defined.
#[export] Instance tenant_le_po : PartialOrder tenant_le.
Proof.
  split; [split|].
  - intros a. unfold tenant_le. reflexivity.
  - intros a b c. unfold tenant_le. apply (transitivity (R := String.le)).
  - intros [a] [b] ??. f_equal. by apply (anti_symm String.le).
Qed.
#[export] Instance tenant_le_total : Total tenant_le.
Proof. intros a b. apply (total String.le). Qed.

Lemma tenant_lt_trans a b c : tenant_lt a b → tenant_lt b c → tenant_lt a c.
Proof.
  intros [H1 N1] [H2 N2]. split; [by trans b|].
  intros <-. apply N1. by apply (anti_symm tenant_le).
Qed.

Lemma tenant_lt_irrefl a : ¬ tenant_lt a a.
Proof. by intros [_ ?]. Qed.

Lemma tenant_le_lt_or_eq a b : tenant_le a b → tenant_lt a b ∨ a = b.
Proof. intros H. destruct (decide (a = b)); [by right|]. by left. Qed.

Lemma tenant_not_lt a b : ¬ tenant_lt a b → tenant_le b a.
Proof.
  intros Hn. destruct (total tenant_le a b) as [[?| ->]%tenant_le_lt_or_eq|];
    [done|reflexivity|done].
Qed.

(** [pub struct TenantPlan]. *)
Record TenantPlan : Type := mkTenantPlan {
  plan_tenant : TenantId;
  max_concurrency : Z;
  rate_ceiling_per_min : Z;
  repo_allowlist : list string;
}.

(** ** The meter event schema ([meter.rs]) *)
Inductive SlotEventKind : Type := Acquired | SlotReleased | SlotExpired | SlotCrashed.

#[export] Instance SlotEventKind_eq_dec : EqDecision SlotEventKind.
Proof. solve_decision. Defined.

Record SlotOccupancyEvent : Type := mkSlotEvent {
  ev_tenant : TenantId;
  ev_lease_id : string;
  ev_kind : SlotEventKind;
  ev_at_ms : Z;
  ev_acquired_at_ms : option Z;
}.

(** ** What validation promises *)

(** A key is well shaped when [TenantId::new] would accept it. *)
Definition tenant_shape (s : string) : Prop := s ≠ "" ∧ find_illegal s = None.

#[export] Instance tenant_shape_dec s : Decision (tenant_shape s).
Proof. unfold tenant_shape. apply _. Defined.

Lemma tenant_new_ok raw t :
  tenant_new raw = Ok t ↔ t = mkTenantId raw ∧ tenant_shape raw.
Proof.
  unfold tenant_new, tenant_shape. destruct raw as [|c s].
  - split; [done|]. by intros [_ [? _]].
  - destruct (find_illegal (String c s)); split; [done| |intros [= <-]; done|].
    + by intros [_ [_ ?]].
    + by intros [-> _].
Qed.
