(* ===== verification/ComputeMeter.v ===== *)
(** * Compute metering arithmetic

    Models [crates/corelink-fabric/src/compute_meter.rs]: vCPU-millisecond
    amounts in [u64] with saturation, the signed [bigint] boundary, and the
    calendar-month period key.  The reference for the calendar is a day-by-day
    Gregorian calendar, [next_day], iterated from 1970-01-01. *)
From S2P Require Import Prelude.

Definition MS_PER_VCPU_HOUR : Z := 3600000.
Definition MAX_LEDGER_VCPU_MS : Z := I64_MAX.

#[export] Hint Unfold MS_PER_VCPU_HOUR MAX_LEDGER_VCPU_MS : machine.

Definition fits_ledger (v : Z) : bool := v <=? MAX_LEDGER_VCPU_MS.

Definition vcpu_ms (vcpu dur_ms : Z) : Z := vcpu *sat dur_ms.

(** The error carries the two numbers of the message. *)
Inductive CeilingError : Type := CeilingOverflows (max_vcpu_h ceiling : Z).

Definition ceiling_vcpu_ms (max_vcpu_h : Z) : result CeilingError Z :=
  let ceiling := max_vcpu_h *sat MS_PER_VCPU_HOUR in
  if negb (fits_ledger ceiling) then Err (CeilingOverflows max_vcpu_h ceiling)
  else Ok ceiling.

(** [civil_from_days] with the day of the month it computes and drops.  [/] on
    [i64] truncates towards zero: [Z.quot]. *)
Definition civil_ymd (z : Z) : Z * Z * Z :=
  let z := z + 719468 in
  let era := (if 0 <=? z then z else z - 146096) ÷ 146097 in
  let doe := z - era * 146097 in
  let yoe := (doe - doe ÷ 1460 + doe ÷ 36524 - doe ÷ 146096) ÷ 365 in
  let year := yoe + era * 400 in
  let doy := doe - (365 * yoe + yoe ÷ 4 - yoe ÷ 100) in
  let mp := (5 * doy + 2) ÷ 153 in
  let day := doy - (153 * mp + 2) ÷ 5 + 1 in
  let month := if mp <? 10 then mp + 3 else mp - 9 in
  let year := year + (if month <=? 2 then 1 else 0) in
  (year, month, day).

Definition civil_from_days (z : Z) : Z * Z :=
  let '(year, month, _) := civil_ymd z in (year, month).

(** [period_key]: [None] is the panic of the [assert!].  [(year as u32) * 100 +
    month] wraps in a release build. *)
Definition period_key (now_ms : Z) : option Z :=
  let days := now_ms ÷ 86400000 in
  let '(year, month) := civil_from_days days in
  if (1 <=? month) && (month <=? 12)
  then Some (as_u32 (as_u32 (as_u32 year * 100) + month))
  else None.

(** ** The reference calendar *)
Definition is_leap (y : Z) : bool :=
  (y mod 4 =? 0) && (negb (y mod 100 =? 0) || (y mod 400 =? 0)).

Definition days_in_month (y m : Z) : Z :=
  if m =? 2 then (if is_leap y then 29 else 28)
  else if (m =? 4) || (m =? 6) || (m =? 9) || (m =? 11) then 30 else 31.

Definition next_day (ymd : Z * Z * Z) : Z * Z * Z :=
  let '(y, m, d) := ymd in
  if d <? days_in_month y m then (y, m, d + 1)
  else if m <? 12 then (y, m + 1, 1)
  else (y + 1, 1, 1).

(** ** The civil-date algorithm is the calendar *)

Ltac div_lia := Z.div_mod_to_equations; lia.

Lemma vcpu_ms_nonneg v d : 0 ≤ v → 0 ≤ d → 0 ≤ vcpu_ms v d.
Proof. intros. unfold vcpu_ms, sat_mul, U64_MAX. nia. Qed.

(** First day of the March-based year [yoe] of its 400-year era. *)
Definition era_year_start (yoe : Z) : Z := 365 * yoe + yoe / 4 - yoe / 100.

Definition year_of_era (doe : Z) : Z :=
  (doe - doe / 1460 + doe / 36524 - doe / 146096) / 365.

(** Date of day [doy] of the March-based year [y]. *)
Definition ymd_of_doy (y doy : Z) : Z * Z * Z :=
  let mp := (5 * doy + 2) / 153 in
  let day := doy - (153 * mp + 2) / 5 + 1 in
  let month := if mp <? 10 then mp + 3 else mp - 9 in
  (y + (if month <=? 2 then 1 else 0), month, day).

Lemma year_of_era_spec doe :
  0 ≤ doe < 146097 →
  0 ≤ year_of_era doe ≤ 399 ∧ era_year_start (year_of_era doe) ≤ doe ∧
  (year_of_era doe < 399 → doe < era_year_start (year_of_era doe + 1)).
Proof.
  intros H. unfold year_of_era, era_year_start.
  assert (0 ≤ doe / 36524 ≤ 4) as Hc by div_lia.
  split_and!; [div_lia..|]. div_lia.
Qed.

Lemma era_year_start_mono a b : a ≤ b → era_year_start a ≤ era_year_start b.
Proof.
  intros H. unfold era_year_start.
  assert (a / 4 ≤ b / 4) by (apply Z.div_le_mono; lia).
  assert (b / 100 - a / 100 ≤ b - a) by div_lia. lia.
Qed.

(** The era years do not overlap, so the interval fixes the year. *)
Lemma year_of_era_unique doe y :
  0 ≤ doe < 146097 → 0 ≤ y ≤ 399 → era_year_start y ≤ doe →
  (y < 399 → doe < era_year_start (y + 1)) → year_of_era doe = y.
Proof.
  intros H Hy Hl Hu. destruct (year_of_era_spec doe H) as (Hr & Hl' & Hu').
  revert Hr Hl' Hu'. generalize (year_of_era doe) as z. intros z Hz Hl' Hu'.
  assert (z < y ∨ z = y ∨ y < z) as [?|[?|?]] by lia; [|done|].
  - pose proof (era_year_start_mono (z + 1) y). lia.
  - pose proof (era_year_start_mono (y + 1) z). lia.
Qed.

(** [civil_ymd] on a day on or after the epoch, in floor divisions. *)
Lemma civil_ymd_decompose z :
  0 ≤ z →
  let doe := (z + 719468) mod 146097 in
  let era := (z + 719468) / 146097 in
  civil_ymd z = ymd_of_doy (year_of_era doe + era * 400)
                           (doe - era_year_start (year_of_era doe)).
Proof.
  intros Hz doe era. unfold civil_ymd. cbv zeta.
  rewrite (proj2 (Z.leb_le 0 (z + 719468))) by lia.
  rewrite !(Z.quot_div_nonneg (z + 719468) 146097) by lia. fold era.
  replace (z + 719468 - era * 146097) with doe by (subst doe era; div_lia).
  assert (0 ≤ doe < 146097) as Hdoe by (subst doe; div_lia).
  clearbody doe era. clear Hz z.
  destruct (year_of_era_spec doe Hdoe) as (Hy & Hl & Hu).
  assert (0 ≤ doe - doe / 1460 + doe / 36524 - doe / 146096) by div_lia.
  rewrite !(Z.quot_div_nonneg doe) by lia.
  rewrite (Z.quot_div_nonneg (doe - _ + _ - _)) by lia.
  change ((doe - doe / 1460 + doe / 36524 - doe / 146096) / 365) with (year_of_era doe).
  generalize dependent (year_of_era doe). intros yoe Hy Hl Hu.
  rewrite !(Z.quot_div_nonneg yoe) by lia.
  fold (era_year_start yoe). unfold ymd_of_doy.
  set (doy := doe - era_year_start yoe). assert (0 ≤ doy) by (subst doy; lia).
  clearbody doy. rewrite (Z.quot_div_nonneg (5 * doy + 2)) by lia.
  set (mp := (5 * doy + 2) / 153). assert (0 ≤ mp) by (subst mp; div_lia).
  by rewrite (Z.quot_div_nonneg (153 * mp + 2)) by lia.
Qed.

Lemma is_leap_spec y :
  is_leap y = true ↔ y mod 4 = 0 ∧ (y mod 100 ≠ 0 ∨ y mod 400 = 0).
Proof.
  unfold is_leap. rewrite andb_true_iff, orb_true_iff, negb_true_iff.
  by rewrite !Z.eqb_eq, Z.eqb_neq.
Qed.

Lemma ymd_eq (y m d y' m' d' : Z) :
  y = y' → m = m' → d = d' → (y, m, d) = (y', m', d').
Proof. by intros -> -> ->. Qed.

(** Inside a March-based year the next day of the year is the next date; the
    29th of February is its last day exactly in the leap years. *)
Lemma ymd_of_doy_next y doy :
  0 ≤ doy < (if is_leap (y + 1) then 365 else 364) →
  next_day (ymd_of_doy y doy) = ymd_of_doy y (doy + 1).
Proof.
  intros Hd. unfold ymd_of_doy, next_day.
  assert (∃ mp, mp = (5 * doy + 2) / 153) as [mp Hmp] by eauto.
  assert (∃ mp', mp' = (5 * (doy + 1) + 2) / 153) as [mp' Hmp'] by eauto.
  rewrite <-Hmp, <-Hmp'.
  assert (doy < 365) by (destruct (is_leap (y + 1)); lia).
  assert (mp = 0 ∨ mp = 1 ∨ mp = 2 ∨ mp = 3 ∨ mp = 4 ∨ mp = 5 ∨ mp = 6 ∨ mp = 7 ∨
          mp = 8 ∨ mp = 9 ∨ mp = 10 ∨ mp = 11) as Hc by (subst mp; div_lia).
  assert (mp' = mp ∨ mp' = mp + 1) as Hc' by (subst mp mp'; div_lia).
  assert (153 * mp ≤ 5 * doy + 2 < 153 * mp + 153) as Hb by (subst mp; div_lia).
  assert (153 * mp' ≤ 5 * (doy + 1) + 2 < 153 * mp' + 153) as Hb' by (subst mp'; div_lia).
  clear Hmp Hmp'.
  destruct_or! Hc; destruct Hc' as [-> | ->]; subst mp; try lia; unfold days_in_month;
    repeat (case_match; try (lia || congruence)); apply ymd_eq; div_lia.
Qed.

Lemma ymd_of_doy_wrap y :
  next_day (ymd_of_doy y (if is_leap (y + 1) then 365 else 364)) = ymd_of_doy (y + 1) 0.
Proof.
  change (ymd_of_doy (y + 1) 0) with (y + 1 + 0, 3, 1). rewrite Z.add_0_r.
  destruct (is_leap (y + 1)) eqn:E.
  - change (ymd_of_doy y 365) with (y + 1, 2, 29).
    unfold next_day, days_in_month. by rewrite E.
  - change (ymd_of_doy y 364) with (y + 1, 2, 28).
    unfold next_day, days_in_month. by rewrite E.
Qed.

(** The last day of the March-based year is day 364, or 365 before a leap
    February; the era closes on day 146096, the end of a leap year. *)
Lemma era_year_length y era :
  0 ≤ y < 399 →
  era_year_start (y + 1) - era_year_start y =
  if is_leap (y + era * 400 + 1) then 366 else 365.
Proof.
  intros Hy. unfold era_year_start.
  destruct (is_leap (y + era * 400 + 1)) eqn:E.
  - apply is_leap_spec in E. div_lia.
  - assert (¬ ((y + era * 400 + 1) mod 4 = 0 ∧
               ((y + era * 400 + 1) mod 100 ≠ 0 ∨ (y + era * 400 + 1) mod 400 = 0)))
      as Hn by (rewrite <-is_leap_spec; congruence). clear E. div_lia.
Qed.

Lemma civil_ymd_next z : 0 ≤ z → civil_ymd (z + 1) = next_day (civil_ymd z).
Proof.
  intros Hz. rewrite !civil_ymd_decompose by lia.
  assert (∃ doe era, doe = (z + 719468) mod 146097 ∧ era = (z + 719468) / 146097)
    as (doe & era & Hdoe & Hera) by eauto.
  rewrite <-Hdoe, <-Hera.
  assert (0 ≤ doe < 146097) as Hr by (subst doe; div_lia).
  destruct (year_of_era_spec doe Hr) as (Hy & Hl & Hu).
  destruct (decide (doe = 146096)) as [Hlast|Hlast].
  - replace ((z + 1 + 719468) mod 146097) with 0 by div_lia.
    replace ((z + 1 + 719468) / 146097) with (era + 1) by div_lia.
    rewrite Hlast. change (year_of_era 146096) with 399. change (year_of_era 0) with 0.
    change (0 - era_year_start 0) with 0. change (146096 - era_year_start 399) with 365.
    assert (is_leap (399 + era * 400 + 1) = true) as Hleap.
    { apply is_leap_spec. div_lia. }
    pose proof (ymd_of_doy_wrap (399 + era * 400)) as Hw. rewrite Hleap in Hw.
    rewrite Hw. f_equal. lia.
  - replace ((z + 1 + 719468) mod 146097) with (doe + 1) by div_lia.
    replace ((z + 1 + 719468) / 146097) with era by div_lia.
    clear Hdoe Hera. revert Hy Hl Hu. remember (year_of_era doe) as yoe eqn:Hyoe. intros Hy Hl Hu.
    pose proof (era_year_length yoe era) as Hlen.
    destruct (decide (yoe < 399 ∧ doe + 1 = era_year_start (yoe + 1))) as [[Hlt Hend]|Hin].
    + assert (year_of_era (doe + 1) = yoe + 1) as ->.
      { apply year_of_era_unique; [lia..|].
        intros ?. pose proof (era_year_length (yoe + 1) era).
        destruct (is_leap (yoe + 1 + era * 400 + 1)); lia. }
      replace (doe + 1 - era_year_start (yoe + 1)) with 0 by lia.
      pose proof (ymd_of_doy_wrap (yoe + era * 400)) as Hw.
      replace (yoe + 1 + era * 400) with (yoe + era * 400 + 1) by lia. rewrite <-Hw.
      specialize (Hlen ltac:(lia)).
      f_equal. f_equal. destruct (is_leap _); lia.
    + assert (year_of_era (doe + 1) = yoe) as -> by (apply year_of_era_unique; lia).
      replace (doe + 1 - era_year_start yoe) with (doe - era_year_start yoe + 1) by lia.
      symmetry. apply ymd_of_doy_next.
      destruct (decide (yoe = 399)) as [->|]; [|specialize (Hlen ltac:(lia)); destruct (is_leap _); lia].
      assert (is_leap (399 + era * 400 + 1) = true) as -> by (apply is_leap_spec; div_lia).
      change (era_year_start 399) with 145731 in *. lia.
Qed.

Lemma civil_ymd_iter n : civil_ymd (Z.of_nat n) = Nat.iter n next_day (1970, 1, 1).
Proof.
  induction n as [|n IH]; [reflexivity|].
  rewrite Nat2Z.inj_succ, <-Z.add_1_r, civil_ymd_next by lia. by rewrite IH.
Qed.

Lemma ymd_of_doy_month y doy :
  0 ≤ doy < 366 →
  let '(y', m, _) := ymd_of_doy y doy in 1 ≤ m ≤ 12 ∧ y ≤ y' ≤ y + 1.
Proof.
  intros Hd. unfold ymd_of_doy.
  assert (0 ≤ (5 * doy + 2) / 153 ≤ 11) by div_lia.
  split; repeat case_match; lia.
Qed.

(** Month and year ranges of the algorithm, on or after the epoch. *)
Lemma civil_from_days_range z :
  0 ≤ z →
  let '(y, m) := civil_from_days z in
  1 ≤ m ≤ 12 ∧ 0 ≤ y ≤ (z + 719468) / 146097 * 400 + 400.
Proof.
  intros Hz. unfold civil_from_days. rewrite civil_ymd_decompose by lia.
  set (doe := (z + 719468) mod 146097). set (era := (z + 719468) / 146097).
  assert (0 ≤ doe < 146097) as Hdoe by (subst doe; div_lia).
  assert (0 ≤ era) by (subst era; div_lia).
  destruct (year_of_era_spec doe Hdoe) as (Hy & Hl & Hu). clearbody doe era.
  pose proof (ymd_of_doy_month (year_of_era doe + era * 400)
                (doe - era_year_start (year_of_era doe))) as Hm.
  destruct (ymd_of_doy _ _) as [[y m] d]. apply and_comm.
  assert (doe - era_year_start (year_of_era doe) < 366).
  { destruct (decide (year_of_era doe = 399)) as [E|].
    - rewrite E in *. change (era_year_start 399) with 145731. lia.
    - pose proof (era_year_length (year_of_era doe) 0).
      destruct (is_leap (_ + 0 * 400 + 1)); lia. }
  destruct Hm; [lia|]. split; [lia|done].
Qed.

(** the period key of an instant (before 2^60 ms after the epoch, where the
    packing cannot wrap) is the Gregorian year and month of its UTC day: the
    optimised civil-date routine agrees with counting days one by one from
    1970-01-01, and the month assertion never fires. *)
Theorem period_key_is_calendar_month (now_ms : Z) (Hnow : 0 ≤ now_ms < 2 ^ 60) :
  let '(y, m, _) := Nat.iter (Z.to_nat (now_ms / 86400000)) next_day (1970, 1, 1) in
  period_key now_ms = Some (y * 100 + m) ∧ 1 ≤ m ≤ 12.
Proof.
  unfold period_key. rewrite Z.quot_div_nonneg by lia.
  assert (0 ≤ now_ms / 86400000 ≤ 2 ^ 60 / 86400000) as Hz by div_lia.
  set (z := now_ms / 86400000) in *. clearbody z.
  rewrite <-civil_ymd_iter, Z2Nat.id by lia.
  pose proof (civil_from_days_range z (proj1 Hz)) as Hr. unfold civil_from_days in *.
  destruct (civil_ymd z) as [[y m] d]. destruct Hr as [Hm Hy].
  assert (y ≤ 42000000) by (change (2 ^ 60 / 86400000) with 13343998895 in Hz; div_lia).
  rewrite (proj2 (Z.leb_le _ _)), (proj2 (Z.leb_le _ _)) by lia. split; [|done].
  rewrite (as_u32_small y), (as_u32_small (y * 100)), as_u32_small by mlia. done.
Qed.

Lemma period_key_is_calendar_month_witness :
  0 ≤ 1709164800000 < 2 ^ 60 ∧
  Nat.iter (Z.to_nat (1709164800000 / 86400000)) next_day (1970, 1, 1) = (2024, 2, 29) ∧
  period_key 1709164800000 = Some 202402.
Proof.
  assert (0 ≤ 1709164800000 < 2 ^ 60) as H by lia.
  pose proof (period_key_is_calendar_month 1709164800000 H) as Hk.
  assert (Nat.iter (Z.to_nat (1709164800000 / 86400000)) next_day (1970, 1, 1)
          = (2024, 2, 29)) as Hi by (vm_compute; reflexivity).
  rewrite Hi in Hk. split_and!; [lia..|exact Hi|exact (proj1 Hk)].
Defined.

(** a plan's ceiling conversion is exact or refused: [ceiling_vcpu_ms]
    returns [h * 3_600_000] precisely when that product fits the signed ledger
    column, and an error otherwise; a saturated product is never accepted. *)
Theorem ceiling_vcpu_ms_exact (h : Z) (Hh : is_u64 h) :
  ceiling_vcpu_ms h =
  if decide (h * 3600000 ≤ I64_MAX) then Ok (h * 3600000)
  else Err (CeilingOverflows h (h *sat MS_PER_VCPU_HOUR)).
Proof.
  unfold ceiling_vcpu_ms, fits_ledger.
  destruct (Z.leb_spec (h *sat MS_PER_VCPU_HOUR) MAX_LEDGER_VCPU_MS); cbn; case_decide;
    try mlia; [f_equal; mlia|done].
Qed.

Lemma ceiling_vcpu_ms_exact_witness :
  is_u64 2400 ∧ ceiling_vcpu_ms 2400 = Ok 8640000000.
Proof.
  assert (is_u64 2400) as H by mlia. split; [exact H|].
  rewrite (ceiling_vcpu_ms_exact 2400 H). reflexivity.
Defined.
