(* ===== verification/Ledger.v ===== *)
(** * The lease ledger: data, transition matrix and the in-memory core

    Models [crates/corelink-fabric/src/ledger.rs] with its submodules
    [ledger/pending_cleanup.rs] and [ledger/provider_binding.rs]: the five-state
    lease record, the legal-transition matrix, and every operation of
    [InMemoryInner], the un-synchronised state that both the in-memory handle
    and the file ledger drive under their lock.  [Mem] is the module of the
    operations; the synchronised handle is in [LedgerInterface]. *)
From S2P Require Import Prelude Tenant ComputeMeter.

(** ** Data *)

(** The frozen wire states ([corelink-runners-contracts]). *)
Inductive RunnerState : Type := Held | Expired | Crashed | Released.

(** The ledger-level state: admission state or one of the wire states. *)
Inductive LeaseState : Type := Pending | Wire (w : RunnerState).

#[export] Instance RunnerState_eq_dec : EqDecision RunnerState.
Proof. solve_decision. Defined.
#[export] Instance LeaseState_eq_dec : EqDecision LeaseState.
Proof. solve_decision. Defined.

Definition is_held (st : LeaseState) : bool :=
  match st with Wire Held => true | _ => false end.

Record LeaseRecord : Type := mkLease {
  lease_id : string;
  tenant : TenantId;
  state : LeaseState;
  box_ref : string;
  created_at_ms : Z;
  updated_at_ms : Z;
  deadline_ms : option Z;
  billing_acquired_at_ms : option Z;
}.

#[export] Instance LeaseRecord_eq_dec : EqDecision LeaseRecord.
Proof. solve_decision. Defined.

(** The errors the operations [bail!] with. *)
Inductive LedgerError : Type :=
| IllegalTransition (id : string) (from : LeaseState) (to : RunnerState)
| UnknownLease (id : string)
| AlreadyExists (id : string)
| FencedByCleanup (id : string)
| NoLeaseToCheckpoint (id : string)
| HeldWithReservation (id : string)
| BadProviderRef
| NotPending (id : string)
| OtherProviderRef (id : string)
| Poisoned
| JournalIo
| CorruptJournal (line : nat)
| JournalNotUtf8.

#[export] Instance LedgerError_eq_dec : EqDecision LedgerError.
Proof. solve_decision. Defined.

(** [transition_is_legal]: the contract matrix, four cells. *)
Definition transition_is_legal (from : LeaseState) (to : RunnerState) : bool :=
  match from, to with
  | Pending, Held => true
  | Wire Held, (Released | Expired | Crashed) => true
  | _, _ => false
  end.

Definition set_state (r : LeaseRecord) (st : LeaseState) (now : Z) (stamp : option Z) : LeaseRecord :=
  {| lease_id := lease_id r; tenant := tenant r; state := st; box_ref := box_ref r;
     created_at_ms := created_at_ms r; updated_at_ms := now;
     deadline_ms := deadline_ms r; billing_acquired_at_ms := stamp |}.

Definition set_box_ref (r : LeaseRecord) (b : string) : LeaseRecord :=
  {| lease_id := lease_id r; tenant := tenant r; state := state r; box_ref := b;
     created_at_ms := created_at_ms r; updated_at_ms := updated_at_ms r;
     deadline_ms := deadline_ms r; billing_acquired_at_ms := billing_acquired_at_ms r |}.

(** [apply_transition]: the matrix guard, the state and timestamp, and the
    first-held billing stamp.  The record is mutated only past the guard. *)
Definition apply_transition (rec : LeaseRecord) (to : RunnerState) (now_ms : Z)
  : result LedgerError LeaseRecord :=
  if negb (transition_is_legal (state rec) to)
  then Err (IllegalTransition (lease_id rec) (state rec) to)
  else
    let stamp := match to, billing_acquired_at_ms rec with
                 | Held, None => Some now_ms
                 | _, b => b
                 end in
    Ok (set_state rec (Wire to) now_ms stamp).

(** [ComputeGate], [AdmitOutcome], [LeaseReservation], [AccrualEvent]. *)
Record ComputeGate : Type := mkGate {
  gate_period_key : Z;
  gate_ceiling_vcpu_ms : Z;
  gate_box_vcpu_count : Z;
  gate_new_reserved_vcpu_ms : Z;
}.

(** [LeaseAdmitted] is the variant [Admitted] of the source. *)
Inductive AdmitOutcome : Type := LeaseAdmitted | OverConcurrency | OverCompute.

#[export] Instance AdmitOutcome_eq_dec : EqDecision AdmitOutcome.
Proof. solve_decision. Defined.

Record LeaseReservation : Type := mkReservation {
  box_vcpu_count : Z;
  accrual_period_key : Z;
  reserved_vcpu_ms : Z;
  accrued_at_ms : option Z;
}.

#[export] Instance LeaseReservation_eq_dec : EqDecision LeaseReservation.
Proof. solve_decision. Defined.

Record AccrualEvent : Type := mkAccrual {
  acc_lease_id : string;
  acc_tenant : TenantId;
  acc_period_key : Z;
  acc_new_total : Z;
}.

(** [struct InMemoryInner]. *)
Record InMemoryInner : Type := mkInner {
  records : gmap string LeaseRecord;
  checkpoints : gmap string string;
  reservations : gmap string LeaseReservation;
  accruals : gmap (TenantId * Z) Z;
  pending_cleanup_claims : gset string;
}.

Definition with_records f s := mkInner (f (records s)) (checkpoints s) (reservations s)
  (accruals s) (pending_cleanup_claims s).
Definition with_checkpoints f s := mkInner (records s) (f (checkpoints s)) (reservations s)
  (accruals s) (pending_cleanup_claims s).
Definition with_reservations f s := mkInner (records s) (checkpoints s) (f (reservations s))
  (accruals s) (pending_cleanup_claims s).
Definition with_accruals f s := mkInner (records s) (checkpoints s) (reservations s)
  (f (accruals s)) (pending_cleanup_claims s).
Definition with_claims f s := mkInner (records s) (checkpoints s) (reservations s)
  (accruals s) (f (pending_cleanup_claims s)).

(** What serde_json answers about a provider reference's payload: whether it
    parses, and whether the value is an object and with how many members. *)
Inductive json_shape : Type := JsonObject (members : nat) | JsonOther.
Class SerdeJson : Type := parse_value : string → option json_shape.

Definition PROVIDER_PREFIX : string := "provider-ref:v1:".
Definition PROVIDER_MAX_BYTES : nat := 4096.

Section provider_ref.
Context {json : SerdeJson}.

(** [validate_provider_ref]. *)
Definition validate_provider_ref (provider_ref : string) : result LedgerError unit :=
  if Nat.ltb PROVIDER_MAX_BYTES (String.length provider_ref) then Err BadProviderRef
  else match strip_prefix PROVIDER_PREFIX provider_ref with
       | None => Err BadProviderRef
       | Some payload =>
         match parse_value payload with
         | Some (JsonObject (S _)) => Ok ()
         | _ => Err BadProviderRef
         end
       end.

(** [fn bind]. *)
Definition bind_ref (current : LeaseRecord) (provider_ref : string) : result LedgerError LeaseRecord :=
  if negb (bool_decide (state current = Pending)) then Err (NotPending (lease_id current))
  else if bool_decide (box_ref current = provider_ref) then Ok current
  else if negb (bool_decide (box_ref current = "box:" +:+ lease_id current))
  then Err (OtherProviderRef (lease_id current))
  else Ok (set_box_ref current provider_ref).
End provider_ref.

(** The operations of [InMemoryInner] run in the state-and-error monad. *)
Abbreviation MemM := (M InMemoryInner LedgerError).

(** The count the cap is compared with: [Pending] or [Held] leases of a tenant. *)
Definition is_active (r : LeaseRecord) : Prop := state r = Pending ∨ state r = Wire Held.
#[export] Instance is_active_dec r : Decision (is_active r).
Proof. unfold is_active. apply _. Defined.

Module Mem.

(** [InMemoryInner::new]. *)
Definition new : InMemoryInner := mkInner ∅ ∅ ∅ ∅ ∅.

Definition values (s : InMemoryInner) : list LeaseRecord := map_values (records s).

(** The filter shared by the two admit paths, and its count. *)
Definition active_of (t : TenantId) (r : LeaseRecord) : Prop := tenant r = t ∧ is_active r.
#[export] Instance active_of_dec t r : Decision (active_of t r).
Proof. unfold active_of. apply _. Defined.

Definition active_count (s : InMemoryInner) (t : TenantId) : Z :=
  Z.of_nat (length (filter (active_of t) (values s))).

(** [fn put]. *)
Definition put (rec : LeaseRecord) : MemM unit :=
  s ← get_state;
  bail_if (bool_decide (is_Some (records s !! lease_id rec))) (AlreadyExists (lease_id rec));;
  modify (with_records <[lease_id rec := rec]>).

(** [fn get]. *)
Definition get (s : InMemoryInner) (id : string) : option LeaseRecord := records s !! id.

(** [fn accrue_on_terminal]: folds the clamped actual usage of a terminal
    lease into the accrual of its tenant and period, once. *)
Definition accrue_on_terminal (id : string) (t : TenantId) (created : Z) (to : RunnerState)
    (now_ms : Z) : MemM (option AccrualEvent) :=
  if match to with Released | Expired | Crashed => false | Held => true end
  then mret None
  else
    s ← get_state;
    match reservations s !! id with
    | None => mret None
    | Some res =>
      match accrued_at_ms res with
      | Some _ => mret None
      | None =>
        let actual := Z.min (vcpu_ms (box_vcpu_count res) (now_ms -sat created))
                            (reserved_vcpu_ms res) in
        let period := accrual_period_key res in
        let latched := mkReservation (box_vcpu_count res) period (reserved_vcpu_ms res)
                                     (Some now_ms) in
        let entry := default 0 (accruals s !! (t, period)) in
        let total := Z.min (entry +sat actual) MAX_LEDGER_VCPU_MS in
        modify (with_reservations <[id := latched]>);;
        modify (with_accruals <[(t, period) := total]>);;
        mret (Some (mkAccrual id t period total))
      end
    end.

(** [fn transition_capturing]. *)
Definition transition_capturing (id : string) (to : RunnerState) (now_ms : Z)
  : MemM (LeaseRecord * option AccrualEvent) :=
  s ← get_state;
  rec ← lift (match records s !! id with Some r => Ok r | None => Err (UnknownLease id) end);
  updated ← lift (apply_transition rec to now_ms);
  modify (with_records <[id := updated]>);;
  event ← accrue_on_terminal id (tenant rec) (created_at_ms rec) to now_ms;
  mret (updated, event).

(** [fn transition]: fenced by a cleanup claim, else the capturing one. *)
Definition transition (id : string) (to : RunnerState) (now_ms : Z) : MemM LeaseRecord :=
  s ← get_state;
  bail_if (bool_decide (id ∈ pending_cleanup_claims s)) (FencedByCleanup id);;
  p ← transition_capturing id to now_ms;
  mret p.1.

(** The three enumerations, sorted by lease id. *)
Definition by_tenant (s : InMemoryInner) (t : TenantId) : list LeaseRecord :=
  sort_by_key lease_id (filter (λ r, tenant r = t) (values s)).

Definition held (s : InMemoryInner) : list LeaseRecord :=
  sort_by_key lease_id (filter (λ r, is_held (state r) = true) (values s)).

Definition pending_older_than (s : InMemoryInner) (now_ms max_age_ms : Z) : list LeaseRecord :=
  let cutoff := now_ms -sat max_age_ms in
  sort_by_key lease_id
    (filter (λ r, state r = Pending ∧ created_at_ms r < cutoff) (values s)).

(** [fn try_admit]: [(active as u32) < max_concurrency], then [put]. *)
Definition try_admit (rec : LeaseRecord) (max_concurrency : Z) : MemM bool :=
  s ← get_state;
  if bool_decide (as_u32 (active_count s (tenant rec)) < max_concurrency)
  then put rec;; mret true
  else mret false.

Definition concurrency_only_outcome (admitted : bool) : AdmitOutcome :=
  if admitted then LeaseAdmitted else OverConcurrency.

Definition concurrency_only_admit (rec : LeaseRecord) (max_concurrency : Z) : MemM AdmitOutcome :=
  b ← try_admit rec max_concurrency; mret (concurrency_only_outcome b).

(** The rolling sum of the live reservations of a tenant in a period, as the
    iterator chain computes it. *)
Definition sigma (s : InMemoryInner) (t : TenantId) (period : Z) : Z :=
  foldl sat_add 0
    (reserved_vcpu_ms <$>
      filter (λ res, accrual_period_key res = period)
        (omap (λ r, reservations s !! lease_id r) (filter (active_of t) (values s)))).

(** [fn compute_accrued]. *)
Definition compute_accrued (s : InMemoryInner) (t : TenantId) (period : Z) : Z :=
  default 0 (accruals s !! (t, period)).

(** [fn admit_decision]: the compute ceiling first, then the cap. *)
Definition admit_decision (s : InMemoryInner) (rec : LeaseRecord) (max_concurrency : Z)
    (gate : ComputeGate) : AdmitOutcome * option LeaseReservation :=
  let sig := sigma s (tenant rec) (gate_period_key gate) in
  let accrued := default 0 (accruals s !! (tenant rec, gate_period_key gate)) in
  let projected := accrued +sat sig +sat gate_new_reserved_vcpu_ms gate in
  if bool_decide (gate_ceiling_vcpu_ms gate < projected) then (OverCompute, None)
  else if bool_decide (max_concurrency ≤ as_u32 (active_count s (tenant rec)))
  then (OverConcurrency, None)
  else (LeaseAdmitted, Some (mkReservation (gate_box_vcpu_count gate) (gate_period_key gate)
                          (gate_new_reserved_vcpu_ms gate) None)).

(** [fn try_admit_with_compute]. *)
Definition try_admit_with_compute (rec : LeaseRecord) (max_concurrency : Z)
    (gate : option ComputeGate) : MemM AdmitOutcome :=
  match gate with
  | None => concurrency_only_admit rec max_concurrency
  | Some g =>
    if gate_ceiling_vcpu_ms g =? 0 then concurrency_only_admit rec max_concurrency
    else
      s ← get_state;
      match admit_decision s rec max_concurrency g with
      | (LeaseAdmitted, Some res) =>
        put rec;; modify (with_reservations <[lease_id rec := res]>);; mret LeaseAdmitted
      | (outcome, _) => mret outcome
      end
  end.

(** [fn set_envelope_checkpoint] and [fn get_envelope_checkpoint]. *)
Definition set_envelope_checkpoint (id json : string) : MemM unit :=
  s ← get_state;
  bail_if (negb (bool_decide (is_Some (records s !! id)))) (NoLeaseToCheckpoint id);;
  modify (with_checkpoints <[id := json]>).

Definition get_envelope_checkpoint (s : InMemoryInner) (id : string) : option string :=
  checkpoints s !! id.

(** The guard of [remove]: a held lease with a reservation is never dropped. *)
Definition held_with_reservation (s : InMemoryInner) (id : string) : bool :=
  match records s !! id with
  | Some r => is_held (state r) && bool_decide (is_Some (reservations s !! id))
  | None => false
  end.

(** [fn remove]. *)
Definition remove (id : string) : MemM bool :=
  s ← get_state;
  bail_if (bool_decide (id ∈ pending_cleanup_claims s)) (FencedByCleanup id);;
  bail_if (held_with_reservation s id) (HeldWithReservation id);;
  modify (with_checkpoints (delete id));;
  modify (with_reservations (delete id));;
  modify (with_records (delete id));;
  mret (bool_decide (is_Some (records s !! id))).

Definition is_pending_at (s : InMemoryInner) (id : string) : bool :=
  match records s !! id with
  | Some r => bool_decide (state r = Pending)
  | None => false
  end.

(** [fn remove_if_pending]. *)
Definition remove_if_pending (id : string) : MemM bool :=
  s ← get_state;
  if bool_decide (id ∈ pending_cleanup_claims s) then mret false
  else if is_pending_at s id then remove id else mret false.

(** [pending_cleanup.rs]: claims and their completion. *)
Definition is_stale_pending (r : LeaseRecord) (cutoff_ms : Z) : bool :=
  bool_decide (state r = Pending) && bool_decide (created_at_ms r < cutoff_ms).

Definition candidates (s : InMemoryInner) (now_ms max_age_ms : Z) : list LeaseRecord :=
  let cutoff := now_ms -sat max_age_ms in
  sort_by_key lease_id
    (filter (λ r, state r = Pending ∧
                  (is_stale_pending r cutoff = true ∨ lease_id r ∈ pending_cleanup_claims s))
            (values s)).

Definition claim_pending_cleanup (id : string) (now_ms : Z) : MemM (option LeaseRecord) :=
  s ← get_state;
  match records s !! id with
  | None => mret None
  | Some r =>
    if negb (bool_decide (state r = Pending)) then mret None
    else modify (with_claims (λ c, {[id]} ∪ c));; mret (Some r)
  end.

Definition claim_stale_pending_cleanup (now_ms max_age_ms : Z) : MemM (list LeaseRecord) :=
  s ← get_state;
  let rows := candidates s now_ms max_age_ms in
  modify (with_claims (λ c, foldl (λ c row, {[lease_id row]} ∪ c) c rows));;
  mret rows.

Definition finish_pending_cleanup (id : string) : MemM bool :=
  s ← get_state;
  if negb (bool_decide (id ∈ pending_cleanup_claims s)) || negb (is_pending_at s id)
  then mret false
  else
    modify (with_claims (λ c, c ∖ {[id]}));;
    modify (with_checkpoints (delete id));;
    modify (with_reservations (delete id));;
    modify (with_records (delete id));;
    mret (bool_decide (is_Some (records s !! id))).

Section bind.
Context {json : SerdeJson}.

(** [provider_binding.rs]: [InMemoryInner::bind_provider_ref]. *)
Definition bind_provider_ref (id provider_ref : string) : MemM LeaseRecord :=
  lift (validate_provider_ref provider_ref);;
  s ← get_state;
  bail_if (bool_decide (id ∈ pending_cleanup_claims s)) (FencedByCleanup id);;
  current ← lift (match records s !! id with Some r => Ok r | None => Err (UnknownLease id) end);
  updated ← lift (bind_ref current provider_ref);
  modify (with_records <[id := updated]>);;
  mret updated.
End bind.

End Mem.
