(* ===== verification/LedgerSpec.v ===== *)
(** * The abstract lease machine and the refinement of the in-memory core

    [step] is the specification of what one ledger may do to the leases: a
    labelled step relation with one rule per kind of change.  [op] is the
    interface's vocabulary of mutating calls.  The refinement says that every
    call of the executable core is a sequence of [step]s allowed for it, so the
    invariants are proved once, by rule induction on [step], and hold of every
    implementation that refines it. *)
From S2P Require Import Prelude Tenant ComputeMeter Ledger.

(** ** The abstract machine *)

Inductive event : Type :=
| EvInsert (rec : LeaseRecord)
| EvAdmit (rec : LeaseRecord) (cap : Z)
| EvAdmitReserved (rec : LeaseRecord) (cap : Z) (g : ComputeGate)
| EvHold (id : string) (now : Z)
| EvTerminal (id : string) (to : RunnerState) (now : Z)
| EvRemove (id : string)
| EvCheckpoint (id json : string)
| EvClaim (id : string)
| EvFinish (id : string)
| EvBind (id provider_ref : string).

Definition insert_lease (rec : LeaseRecord) : InMemoryInner → InMemoryInner :=
  with_records <[lease_id rec := rec]>.

Definition drop_lease (id : string) (s : InMemoryInner) : InMemoryInner :=
  with_records (delete id) (with_reservations (delete id) (with_checkpoints (delete id) s)).

(** The clamped usage a terminal lease is charged. *)
Definition charge (res : LeaseReservation) (created now : Z) : Z :=
  Z.min (vcpu_ms (box_vcpu_count res) (now -sat created)) (reserved_vcpu_ms res).

Definition latch (res : LeaseReservation) (now : Z) : LeaseReservation :=
  mkReservation (box_vcpu_count res) (accrual_period_key res) (reserved_vcpu_ms res) (Some now).

Definition add_accrual (t : TenantId) (p amount : Z) (s : InMemoryInner) : InMemoryInner :=
  with_accruals
    <[(t, p) := Z.min (default 0 (accruals s !! (t, p)) +sat amount) MAX_LEDGER_VCPU_MS]> s.

(** The accounting of a terminal transition: nothing without an open
    reservation, else the charge and the latch. *)
Definition settle (id : string) (r : LeaseRecord) (now : Z) (s : InMemoryInner) : InMemoryInner :=
  match reservations s !! id with
  | Some res =>
    match accrued_at_ms res with
    | None =>
      add_accrual (tenant r) (accrual_period_key res) (charge res (created_at_ms r) now)
        (with_reservations <[id := latch res now]> s)
    | Some _ => s
    end
  | None => s
  end.

Definition projected (s : InMemoryInner) (t : TenantId) (g : ComputeGate) : Z :=
  Mem.compute_accrued s t (gate_period_key g) +sat Mem.sigma s t (gate_period_key g)
    +sat gate_new_reserved_vcpu_ms g.

Definition reservation_of (g : ComputeGate) : LeaseReservation :=
  mkReservation (gate_box_vcpu_count g) (gate_period_key g) (gate_new_reserved_vcpu_ms g) None.

Definition held_stamp (r : LeaseRecord) (now : Z) : option Z :=
  match billing_acquired_at_ms r with None => Some now | b => b end.

Inductive step : event → InMemoryInner → InMemoryInner → Prop :=
| step_insert s rec :
    records s !! lease_id rec = None →
    step (EvInsert rec) s (insert_lease rec s)
| step_admit s rec cap :
    records s !! lease_id rec = None →
    as_u32 (Mem.active_count s (tenant rec)) < cap →
    step (EvAdmit rec cap) s (insert_lease rec s)
| step_admit_reserved s rec cap g :
    records s !! lease_id rec = None →
    as_u32 (Mem.active_count s (tenant rec)) < cap →
    projected s (tenant rec) g ≤ gate_ceiling_vcpu_ms g →
    step (EvAdmitReserved rec cap g) s
      (with_reservations <[lease_id rec := reservation_of g]> (insert_lease rec s))
| step_hold s id r now :
    records s !! id = Some r → state r = Pending →
    id ∉ pending_cleanup_claims s →
    step (EvHold id now) s
      (with_records <[id := set_state r (Wire Held) now (held_stamp r now)]> s)
| step_terminal s id r to now :
    records s !! id = Some r → state r = Wire Held → to ≠ Held →
    id ∉ pending_cleanup_claims s →
    step (EvTerminal id to now) s
      (settle id r now
        (with_records <[id := set_state r (Wire to) now (billing_acquired_at_ms r)]> s))
| step_remove s id :
    id ∉ pending_cleanup_claims s →
    Mem.held_with_reservation s id = false →
    step (EvRemove id) s (drop_lease id s)
| step_checkpoint s id json :
    is_Some (records s !! id) →
    step (EvCheckpoint id json) s (with_checkpoints <[id := json]> s)
| step_claim s id r :
    records s !! id = Some r → state r = Pending →
    step (EvClaim id) s (with_claims (λ c, {[id]} ∪ c) s)
| step_finish s id r :
    id ∈ pending_cleanup_claims s → records s !! id = Some r → state r = Pending →
    step (EvFinish id) s (drop_lease id (with_claims (λ c, c ∖ {[id]}) s))
| step_bind s id r provider_ref :
    records s !! id = Some r → state r = Pending →
    id ∉ pending_cleanup_claims s →
    step (EvBind id provider_ref) s (with_records <[id := set_box_ref r provider_ref]> s).

Inductive steps : list event → InMemoryInner → InMemoryInner → Prop :=
| steps_nil s : steps [] s s
| steps_cons ev evs s1 s2 s3 : step ev s1 s2 → steps evs s2 s3 → steps (ev :: evs) s1 s3.

Create HintDb ledger.
Create Rewrite HintDb ledger.
#[export] Hint Constructors step steps : ledger.

Lemma steps_one ev s s' : step ev s s' → steps [ev] s s'.
Proof. eauto with ledger. Qed.

Lemma steps_app evs1 evs2 s1 s2 s3 :
  steps evs1 s1 s2 → steps evs2 s2 s3 → steps (evs1 ++ evs2) s1 s3.
Proof. induction 1; simpl; eauto with ledger. Qed.

#[export] Hint Resolve steps_one : ledger.

(** Invariants of the step relation carry over to sequences of steps. *)
Lemma steps_invariant (Ok : event → Prop) (P : InMemoryInner → Prop) :
  (∀ ev s s', Ok ev → step ev s s' → P s → P s') →
  ∀ evs s s', Forall Ok evs → steps evs s s' → P s → P s'.
Proof.
  intros Hstep evs s s' Hok Hsteps. revert Hok.
  induction Hsteps; intros Hok; [done|]. apply Forall_cons in Hok as [??]. eauto.
Qed.

(** ** Well-formed ledger states *)
Record ledger_wf (s : InMemoryInner) : Prop := {
  wf_keys k r : records s !! k = Some r → lease_id r = k;
  wf_reservations k : is_Some (reservations s !! k) → is_Some (records s !! k);
  wf_checkpoints k : is_Some (checkpoints s !! k) → is_Some (records s !! k);
  wf_claims k : k ∈ pending_cleanup_claims s → Mem.is_pending_at s k = true;
}.

Lemma is_pending_at_Some s k :
  Mem.is_pending_at s k = true ↔ ∃ r, records s !! k = Some r ∧ state r = Pending.
Proof.
  unfold Mem.is_pending_at. destruct (records s !! k) as [r|]; [|naive_solver].
  rewrite bool_decide_eq_true. split; [eauto|]. by intros (? & [= <-] & ?).
Qed.

Lemma new_wf : ledger_wf Mem.new.
Proof.
  split; unfold Mem.new; cbn; intros k; by rewrite ?lookup_empty.
Qed.

Lemma settle_records id r now s : records (settle id r now s) = records s.
Proof. unfold settle. by repeat case_match. Qed.

Lemma settle_checkpoints id r now s : checkpoints (settle id r now s) = checkpoints s.
Proof. unfold settle. by repeat case_match. Qed.

Lemma settle_claims id r now s :
  pending_cleanup_claims (settle id r now s) = pending_cleanup_claims s.
Proof. unfold settle. by repeat case_match. Qed.

Lemma settle_reservations_dom id r now s k :
  is_Some (reservations (settle id r now s) !! k) ↔ is_Some (reservations s !! k).
Proof.
  unfold settle. repeat case_match; try done. cbn.
  destruct (decide (k = id)) as [->|]; by simplify_map_eq.
Qed.

#[export] Hint Rewrite settle_records settle_checkpoints settle_claims : ledger.

(** Updating the record of a lease that keeps its id, and stays [Pending] if it
    is claimed, keeps a state well formed. *)
Lemma wf_update_record s id r r' :
  ledger_wf s → records s !! id = Some r → lease_id r' = lease_id r →
  (id ∈ pending_cleanup_claims s → state r' = Pending) →
  ledger_wf (with_records <[id := r']> s).
Proof.
  intros [Hk Hr Hc Hcl] Hid Hlid Hst. split; cbn.
  - intros k r0. destruct (decide (k = id)) as [->|]; intros; simplify_map_eq; eauto.
    rewrite Hlid. eauto.
  - intros k Hs. destruct (decide (k = id)) as [->|]; simplify_map_eq; eauto.
  - intros k Hs. destruct (decide (k = id)) as [->|]; simplify_map_eq; eauto.
  - intros k Hin. apply is_pending_at_Some. cbn.
    destruct (decide (k = id)) as [->|]; simplify_map_eq; eauto.
    by apply is_pending_at_Some, Hcl.
Qed.

Lemma wf_insert_lease s rec :
  ledger_wf s → records s !! lease_id rec = None → ledger_wf (insert_lease rec s).
Proof.
  intros [Hk Hr Hc Hcl] Hid. split; cbn.
  - intros k r0. destruct (decide (k = lease_id rec)) as [->|]; intros; simplify_map_eq; eauto.
  - intros k Hs. destruct (decide (k = lease_id rec)) as [->|]; simplify_map_eq; eauto.
  - intros k Hs. destruct (decide (k = lease_id rec)) as [->|]; simplify_map_eq; eauto.
  - intros k Hin. apply is_pending_at_Some. cbn.
    destruct (proj1 (is_pending_at_Some _ _) (Hcl _ Hin)) as (r & Hr' & Hp).
    exists r. split; [|done]. rewrite lookup_insert_ne; [done|]. congruence.
Qed.

Lemma wf_drop_lease s id :
  ledger_wf s → id ∉ pending_cleanup_claims s → ledger_wf (drop_lease id s).
Proof.
  intros [Hk Hr Hc Hcl] Hid. split; cbn.
  - intros k r0 [_ ?]%lookup_delete_Some. eauto.
  - intros k. rewrite !lookup_delete_is_Some. naive_solver.
  - intros k. rewrite !lookup_delete_is_Some. naive_solver.
  - intros k Hin. apply is_pending_at_Some. cbn.
    rewrite lookup_delete_ne by set_solver. by apply is_pending_at_Some, Hcl.
Qed.

(** Every step keeps the state well formed. *)
Lemma step_wf ev s s' : step ev s s' → ledger_wf s → ledger_wf s'.
Proof.
  destruct 1 as [| |s rec cap g Hn _ _|s id r now Hr Hp Hc|s id r to now Hr Hp Ht Hc
    | |s id js Hr|s id r Hr Hp|s id r Hc Hr Hp|s id r pref Hr Hp Hc]; intros Hwf.
  - by apply wf_insert_lease.
  - by apply wf_insert_lease.
  - destruct (wf_insert_lease s rec Hwf Hn) as [Hk Hrs Hck Hcl].
    split; try done. cbn in *. intros k Hs.
    destruct (decide (k = lease_id rec)) as [->|]; simplify_map_eq; eauto.
    specialize (Hrs k). rewrite lookup_insert_ne in Hrs by done. eauto.
  - by eapply wf_update_record; eauto.
  - assert (ledger_wf (with_records <[id := set_state r (Wire to) now
      (billing_acquired_at_ms r)]> s)) as [Hk Hrs Hck Hcl].
    { by eapply wf_update_record; eauto. }
    split; autorewrite with ledger; try done.
    + intros k. rewrite settle_reservations_dom. apply Hrs.
    + intros k Hin%Hcl. unfold Mem.is_pending_at in *. by autorewrite with ledger.
  - by apply wf_drop_lease.
  - destruct Hwf as [Hk Hrs Hck Hcl]. split; cbn; try done.
    intros k Hs. destruct (decide (k = id)) as [->|]; [done|]. simplify_map_eq. eauto.
  - destruct Hwf as [Hk Hrs Hck Hcl]. split; cbn; try done.
    intros k [->%elem_of_singleton|?]%elem_of_union; [|by apply Hcl].
    apply is_pending_at_Some. cbn. eauto.
  - apply wf_drop_lease; [|cbn; set_solver].
    destruct Hwf as [Hk Hrs Hck Hcl]. split; cbn; try done.
    intros k [? _]%elem_of_difference. by apply Hcl.
  - by eapply wf_update_record; eauto.
Qed.

(** ** The mutating calls and what each may do *)

Inductive op : Type :=
| OpPut (rec : LeaseRecord)
| OpTransition (id : string) (to : RunnerState) (now : Z)
| OpTryAdmit (rec : LeaseRecord) (cap : Z)
| OpAdmit (rec : LeaseRecord) (cap : Z) (gate : option ComputeGate)
| OpCheckpoint (id json : string)
| OpRemove (id : string)
| OpRemoveIfPending (id : string)
| OpClaim (id : string) (now : Z)
| OpClaimStale (now max_age : Z)
| OpFinish (id : string)
| OpBind (id provider_ref : string).

(** The events a call may produce: its own, with its own arguments. *)
Definition op_allows (o : op) (ev : event) : Prop :=
  match o, ev with
  | OpPut rec, EvInsert rec' => rec' = rec
  | OpTransition id Held now, EvHold id' now' => id' = id ∧ now' = now
  | OpTransition id to now, EvTerminal id' to' now' => id' = id ∧ to' = to ∧ now' = now
  | OpTryAdmit rec cap, EvAdmit rec' cap' => rec' = rec ∧ cap' = cap
  | OpAdmit rec cap _, EvAdmit rec' cap' => rec' = rec ∧ cap' = cap
  | OpAdmit rec cap gate, EvAdmitReserved rec' cap' g =>
      rec' = rec ∧ cap' = cap ∧ gate = Some g ∧ gate_ceiling_vcpu_ms g ≠ 0
  | OpCheckpoint id json, EvCheckpoint id' json' => id' = id ∧ json' = json
  | (OpRemove id | OpRemoveIfPending id), EvRemove id' => id' = id
  | OpClaim id _, EvClaim id' => id' = id
  | OpClaimStale _ _, EvClaim _ => True
  | OpFinish id, EvFinish id' => id' = id
  | OpBind id pref, EvBind id' pref' => id' = id ∧ pref' = pref
  | _, _ => False
  end.

(** The results of the calls, in one type. *)
Inductive reply : Type :=
| RUnit
| RBool (b : bool)
| RRecord (r : LeaseRecord)
| ROutcome (o : AdmitOutcome)
| ROption (r : option LeaseRecord)
| RRows (rows : list LeaseRecord).

Definition fmap_M {S E A B} (f : A → B) (m : M S E A) : M S E B := a ← m; mret (f a).

Section run.
Context {json : SerdeJson}.

(** Dispatch of a call to the executable core. *)
Definition mem_call (o : op) : MemM reply :=
  match o with
  | OpPut rec => fmap_M (λ _, RUnit) (Mem.put rec)
  | OpTransition id to now => fmap_M RRecord (Mem.transition id to now)
  | OpTryAdmit rec cap => fmap_M RBool (Mem.try_admit rec cap)
  | OpAdmit rec cap gate => fmap_M ROutcome (Mem.try_admit_with_compute rec cap gate)
  | OpCheckpoint id json => fmap_M (λ _, RUnit) (Mem.set_envelope_checkpoint id json)
  | OpRemove id => fmap_M RBool (Mem.remove id)
  | OpRemoveIfPending id => fmap_M RBool (Mem.remove_if_pending id)
  | OpClaim id now => fmap_M ROption (Mem.claim_pending_cleanup id now)
  | OpClaimStale now age => fmap_M RRows (Mem.claim_stale_pending_cleanup now age)
  | OpFinish id => fmap_M RBool (Mem.finish_pending_cleanup id)
  | OpBind id pref => fmap_M RRecord (Mem.bind_provider_ref id pref)
  end.

(** The state after a call, and after a sequence of calls: a failed call
    leaves the state it had reached. *)
Definition mem_exec (o : op) (s : InMemoryInner) : InMemoryInner := (mem_call o s).1.

Definition mem_run (os : list op) (s : InMemoryInner) : InMemoryInner :=
  foldl (λ s o, mem_exec o s) s os.

(** What a call is allowed to do to the state. *)
Definition refines_step (o : op) (s s' : InMemoryInner) : Prop :=
  ∃ evs, Forall (op_allows o) evs ∧ steps evs s s'.

Lemma refines_none o s : refines_step o s s.
Proof. exists []. split; constructor. Qed.

Lemma refines_one o ev s s' : op_allows o ev → step ev s s' → refines_step o s s'.
Proof. exists [ev]. eauto with ledger. Qed.

Hint Resolve refines_none : ledger.

Lemma accrue_settle id r to now s :
  to ≠ Held →
  ∃ e, Mem.accrue_on_terminal id (tenant r) (created_at_ms r) to now s =
       (settle id r now s, Ok e).
Proof.
  intros Hto. unfold Mem.accrue_on_terminal, settle.
  destruct to; [done|..]; run_M; destruct (reservations s !! id) as [res|]; eauto;
    destruct (accrued_at_ms res) eqn:Ha; eauto; rewrite ?Ha; eauto.
Qed.

Lemma apply_transition_ok r to now r' :
  apply_transition r to now = Ok r' ↔
  transition_is_legal (state r) to = true ∧
  r' = set_state r (Wire to) now
         (if decide (to = Held) then held_stamp r now else billing_acquired_at_ms r).
Proof.
  unfold apply_transition, held_stamp.
  destruct (state r) as [|[]], to; cbn; naive_solver.
Qed.

Lemma transition_refines s id to now :
  refines_step (OpTransition id to now) s (mem_exec (OpTransition id to now) s).
Proof.
  unfold mem_exec, mem_call, fmap_M, Mem.transition, Mem.transition_capturing.
  run_M. case_bool_decide as Hc; cbn; [apply refines_none|].
  destruct (records s !! id) as [r|] eqn:Hr; cbn; [|apply refines_none].
  destruct (apply_transition r to now) as [r'|] eqn:Ha; cbn; [|apply refines_none].
  apply apply_transition_ok in Ha as [Hl ->]. destruct (decide (to = Held)) as [->|Hto].
  - destruct (state r) as [|[]] eqn:Hst; try done.
    apply (refines_one _ (EvHold id now)); [done|]. by apply step_hold.
  - destruct (accrue_settle id r to now
      (with_records <[id := set_state r (Wire to) now (billing_acquired_at_ms r)]> s) Hto)
      as [e ->]. cbn.
    apply (refines_one _ (EvTerminal id to now)); [by destruct to|].
    apply step_terminal; try done. by destruct (state r) as [|[]], to.
Qed.

Lemma put_cases rec s :
  (records s !! lease_id rec = None ∧ Mem.put rec s = (insert_lease rec s, Ok ())) ∨
  (is_Some (records s !! lease_id rec) ∧ Mem.put rec s = (s, Err (AlreadyExists (lease_id rec)))).
Proof.
  unfold Mem.put. run_M. case_bool_decide as Hs; cbn; [by right|left].
  by apply eq_None_not_Some in Hs.
Qed.

Lemma try_admit_cases rec cap s :
  (as_u32 (Mem.active_count s (tenant rec)) < cap ∧ records s !! lease_id rec = None ∧
   Mem.try_admit rec cap s = (insert_lease rec s, Ok true)) ∨
  (as_u32 (Mem.active_count s (tenant rec)) < cap ∧ is_Some (records s !! lease_id rec) ∧
   Mem.try_admit rec cap s = (s, Err (AlreadyExists (lease_id rec)))) ∨
  (cap ≤ as_u32 (Mem.active_count s (tenant rec)) ∧ Mem.try_admit rec cap s = (s, Ok false)).
Proof.
  unfold Mem.try_admit. run_M. case_bool_decide as Hlt.
  - destruct (put_cases rec s) as [[? ->]|[? ->]]; eauto 6.
  - right; right. split; [lia|done].
Qed.

Lemma try_admit_refines s rec cap :
  refines_step (OpTryAdmit rec cap) s (mem_exec (OpTryAdmit rec cap) s).
Proof.
  unfold mem_exec, mem_call, fmap_M. run_M.
  destruct (try_admit_cases rec cap s) as [(?&?&->)|[(?&?&->)|(?&->)]]; cbn;
    try apply refines_none.
  apply (refines_one _ (EvAdmit rec cap)); [done|]. by apply step_admit.
Qed.

Lemma concurrency_only_refines s rec cap gate :
  refines_step (OpAdmit rec cap gate) s
    (fmap_M ROutcome (Mem.concurrency_only_admit rec cap) s).1.
Proof.
  unfold Mem.concurrency_only_admit, fmap_M. run_M.
  destruct (try_admit_cases rec cap s) as [(?&?&->)|[(?&?&->)|(?&->)]]; cbn;
    try apply refines_none.
  apply (refines_one _ (EvAdmit rec cap)); [done|]. by apply step_admit.
Qed.

(** The gated admit, branch by branch. *)
Lemma gated_admit_cases rec cap g s :
  gate_ceiling_vcpu_ms g ≠ 0 →
  (gate_ceiling_vcpu_ms g < projected s (tenant rec) g ∧
   Mem.try_admit_with_compute rec cap (Some g) s = (s, Ok OverCompute)) ∨
  (projected s (tenant rec) g ≤ gate_ceiling_vcpu_ms g ∧
   cap ≤ as_u32 (Mem.active_count s (tenant rec)) ∧
   Mem.try_admit_with_compute rec cap (Some g) s = (s, Ok OverConcurrency)) ∨
  (projected s (tenant rec) g ≤ gate_ceiling_vcpu_ms g ∧
   as_u32 (Mem.active_count s (tenant rec)) < cap ∧
   is_Some (records s !! lease_id rec) ∧
   Mem.try_admit_with_compute rec cap (Some g) s = (s, Err (AlreadyExists (lease_id rec)))) ∨
  (projected s (tenant rec) g ≤ gate_ceiling_vcpu_ms g ∧
   as_u32 (Mem.active_count s (tenant rec)) < cap ∧
   records s !! lease_id rec = None ∧
   Mem.try_admit_with_compute rec cap (Some g) s =
     (with_reservations <[lease_id rec := reservation_of g]> (insert_lease rec s), Ok LeaseAdmitted)).
Proof.
  intros Hc%Z.eqb_neq. unfold Mem.try_admit_with_compute. rewrite Hc. run_M.
  unfold Mem.admit_decision. fold (Mem.compute_accrued s (tenant rec) (gate_period_key g)).
  fold (projected s (tenant rec) g).
  case_bool_decide as Hp; [by left|right]. case_bool_decide as Hcap; [left; split; [lia|done]|].
  right. destruct (put_cases rec s) as [[? ->]|[? ->]]; cbn; [right|left];
    (split; [lia|]; split; [lia|done]).
Qed.

Lemma admit_refines s rec cap gate :
  refines_step (OpAdmit rec cap gate) s (mem_exec (OpAdmit rec cap gate) s).
Proof.
  unfold mem_exec, mem_call. destruct gate as [g|]; [|apply concurrency_only_refines].
  destruct (decide (gate_ceiling_vcpu_ms g = 0)) as [Hz|Hz].
  - unfold Mem.try_admit_with_compute. apply Z.eqb_eq in Hz. rewrite Hz.
    apply concurrency_only_refines.
  - unfold fmap_M, mbind, M_bind.
    destruct (gated_admit_cases rec cap g s Hz) as [[? ->]|[(?&?&->)|[(?&?&?&->)|(?&?&?&->)]]];
      cbn; try apply refines_none.
    apply (refines_one _ (EvAdmitReserved rec cap g)); [done|]. by apply step_admit_reserved.
Qed.

Lemma remove_cases id s :
  (Mem.remove id s = (drop_lease id s, Ok (bool_decide (is_Some (records s !! id)))) ∧
   (id ∉ pending_cleanup_claims s) ∧ Mem.held_with_reservation s id = false) ∨
  (∃ e, Mem.remove id s = (s, Err e)).
Proof.
  unfold Mem.remove. run_M. case_bool_decide; cbn; [eauto|].
  destruct (Mem.held_with_reservation s id); cbn; [eauto|]. by left.
Qed.

Lemma remove_refines s id :
  refines_step (OpRemove id) s (mem_exec (OpRemove id) s) ∧
  refines_step (OpRemoveIfPending id) s (mem_exec (OpRemoveIfPending id) s).
Proof.
  unfold mem_exec, mem_call, fmap_M, Mem.remove_if_pending. run_M.
  assert (∀ o, op_allows o (EvRemove id) → refines_step o s (Mem.remove id s).1) as Hrm.
  { intros o Ho. destruct (remove_cases id s) as [(->&?&?)|[e ->]]; [|apply refines_none].
    apply (refines_one _ (EvRemove id)); [done|]. by apply step_remove. }
  split.
  - specialize (Hrm (OpRemove id)). destruct (Mem.remove id s) as [s' []]; by apply Hrm.
  - specialize (Hrm (OpRemoveIfPending id)).
    case_bool_decide; [apply refines_none|]. destruct (Mem.is_pending_at s id); [|apply refines_none].
    destruct (Mem.remove id s) as [s' []]; by apply Hrm.
Qed.

Lemma claim_rows_steps rows s :
  Forall (λ row, records s !! lease_id row = Some row ∧ state row = Pending) rows →
  steps ((λ row, EvClaim (lease_id row)) <$> rows) s
    (with_claims (λ c, foldl (λ c row, {[lease_id row]} ∪ c) c rows) s).
Proof.
  revert s. induction rows as [|row rows IH]; intros s Hrows.
  - destruct s. constructor.
  - apply Forall_cons in Hrows as [[Hr Hp] Hrows]. rewrite fmap_cons.
    eapply steps_cons; [by eapply step_claim|]. apply (IH (with_claims _ s)). done.
Qed.

Lemma candidates_pending s now age :
  ledger_wf s →
  Forall (λ row, records s !! lease_id row = Some row ∧ state row = Pending)
    (Mem.candidates s now age).
Proof.
  intros Hwf. apply Forall_forall. intros row Hin. unfold Mem.candidates in Hin.
  rewrite elem_of_sort_by_key, list_elem_of_filter in Hin.
  destruct Hin as [[Hp _] [k Hk]%elem_of_map_values].
  by rewrite (wf_keys _ Hwf k row Hk).
Qed.

Lemma claims_refine s :
  ledger_wf s →
  (∀ id now, refines_step (OpClaim id now) s (mem_exec (OpClaim id now) s)) ∧
  (∀ now age, refines_step (OpClaimStale now age) s (mem_exec (OpClaimStale now age) s)) ∧
  (∀ id, refines_step (OpFinish id) s (mem_exec (OpFinish id) s)).
Proof.
  intros Hwf. unfold mem_exec, mem_call, fmap_M, Mem.claim_pending_cleanup,
    Mem.claim_stale_pending_cleanup, Mem.finish_pending_cleanup. run_M.
  split_and!.
  - intros id now. destruct (records s !! id) as [r|] eqn:Hr; [|apply refines_none].
    case_bool_decide as Hp; cbn; [|apply refines_none].
    apply (refines_one _ (EvClaim id)); [done|]. by eapply step_claim.
  - intros now age. exists ((λ row, EvClaim (lease_id row)) <$> Mem.candidates s now age).
    split; [by apply Forall_fmap, Forall_true|]. by apply claim_rows_steps, candidates_pending.
  - intros id. case_bool_decide as Hc; cbn; [|apply refines_none].
    destruct (Mem.is_pending_at s id) eqn:Hp; cbn; [|apply refines_none].
    apply is_pending_at_Some in Hp as (r & Hr & Hp).
    apply (refines_one _ (EvFinish id)); [done|]. by eapply step_finish.
Qed.

Lemma set_box_ref_same r : set_box_ref r (box_ref r) = r.
Proof. by destruct r. Qed.

Lemma bind_ref_ok r pref r' :
  bind_ref r pref = Ok r' →
  state r = Pending ∧ r' = set_box_ref r pref ∧
  (box_ref r = pref ∨ box_ref r = "box:" +:+ lease_id r).
Proof.
  unfold bind_ref. repeat case_bool_decide; cbn; intros; simplify_eq;
    rewrite ?set_box_ref_same; eauto.
Qed.

Lemma bind_refines s id pref : refines_step (OpBind id pref) s (mem_exec (OpBind id pref) s).
Proof.
  unfold mem_exec, mem_call, fmap_M, Mem.bind_provider_ref. run_M.
  destruct (validate_provider_ref pref); [|apply refines_none].
  case_bool_decide as Hc; cbn; [apply refines_none|].
  destruct (records s !! id) as [r|] eqn:Hr; cbn; [|apply refines_none].
  destruct (bind_ref r pref) as [r'|] eqn:Hb; cbn; [|apply refines_none].
  apply bind_ref_ok in Hb as (Hp & -> & _).
  apply (refines_one _ (EvBind id pref)); [done|]. by apply step_bind.
Qed.

Lemma put_checkpoint_refine s :
  (∀ rec, refines_step (OpPut rec) s (mem_exec (OpPut rec) s)) ∧
  (∀ id js, refines_step (OpCheckpoint id js) s (mem_exec (OpCheckpoint id js) s)).
Proof.
  unfold mem_exec, mem_call, fmap_M, Mem.set_envelope_checkpoint. run_M. split.
  - intros rec. destruct (put_cases rec s) as [[? ->]|[? ->]]; cbn; [|apply refines_none].
    apply (refines_one _ (EvInsert rec)); [done|]. by apply step_insert.
  - intros id js. case_bool_decide; cbn; [|apply refines_none].
    apply (refines_one _ (EvCheckpoint id js)); [done|]. by apply step_checkpoint.
Qed.

(** Every call of the core, on a well-formed state, is a sequence of steps of
    the abstract machine allowed for that call. *)
Lemma mem_exec_refines o s : ledger_wf s → refines_step o s (mem_exec o s).
Proof.
  intros Hwf. destruct (put_checkpoint_refine s), (claims_refine s Hwf) as (?&?&?).
  destruct o; eauto using transition_refines, try_admit_refines, admit_refines, bind_refines;
    apply remove_refines.
Qed.

(** An invariant of the abstract machine is an invariant of the calls. *)
Lemma mem_exec_invariant (Ok : event → Prop) (P : InMemoryInner → Prop) o s :
  (∀ ev s s', Ok ev → ledger_wf s → step ev s s' → P s → P s') →
  (∀ ev, op_allows o ev → Ok ev) →
  ledger_wf s → P s → ledger_wf (mem_exec o s) ∧ P (mem_exec o s).
Proof.
  intros Hinv Hok Hwf HP. destruct (mem_exec_refines o s Hwf) as (evs & Hev & Hst).
  apply (steps_invariant Ok (λ s, ledger_wf s ∧ P s)) with evs s; [|by eauto using Forall_impl|done..].
  intros ev s1 s2 HOk Hs [? ?]. eauto using step_wf.
Qed.

Lemma mem_run_invariant (P : InMemoryInner → Prop) os s :
  (∀ o ev s s', o ∈ os → op_allows o ev → ledger_wf s → step ev s s' → P s → P s') →
  ledger_wf s → P s → ledger_wf (mem_run os s) ∧ P (mem_run os s).
Proof.
  unfold mem_run. revert s. induction os as [|o os IH]; intros s Hinv Hwf HP; [done|].
  cbn. destruct (mem_exec_invariant (op_allows o) P o s) as [Hwf' HP']; try done.
  { intros ev s1 s2 ? ? ?. eapply (Hinv o); eauto. set_solver. }
  apply IH; try done. intros o' ev s1 s2 ?. apply Hinv. set_solver.
Qed.
End run.
