(* ===== verification/LedgerSafety.v ===== *)
(** * Safety of the lease ledger

    The invariants of the abstract machine and the theorems they give for the
    executable core under any sequence of calls: the concurrency cap, the
    monthly compute ceiling, once-only billing, the lifecycle of a record and
    the cleanup fence. *)
From S2P Require Import Prelude Tenant ComputeMeter Ledger LedgerSpec.

(** ** Refinement *)

Definition active_ind (t : TenantId) (r : LeaseRecord) : Z :=
  if decide (Mem.active_of t r) then 1 else 0.

Lemma active_ind_bounds t r : 0 ≤ active_ind t r ≤ 1.
Proof. unfold active_ind. case_decide; lia. Qed.

Lemma active_count_sum s t : Mem.active_count s t = map_sum (λ _, active_ind t) (records s).
Proof. apply count_values_map_sum. Qed.

Lemma active_count_nonneg s t : 0 ≤ Mem.active_count s t.
Proof. unfold Mem.active_count. lia. Qed.

Lemma active_ind_same t r r' :
  tenant r' = tenant r → (is_active r' → is_active r) → active_ind t r' ≤ active_ind t r.
Proof.
  intros Ht Ha. unfold active_ind, Mem.active_of. rewrite Ht.
  repeat case_decide; lia || naive_solver.
Qed.

(** A state whose records differ from another's by one update that does not
    reactivate a lease, or by one deletion, has no more active leases. *)
Lemma active_count_update s s' id r r' t :
  records s' = <[id := r']> (records s) → records s !! id = Some r →
  tenant r' = tenant r → (is_active r' → is_active r) →
  Mem.active_count s' t ≤ Mem.active_count s t.
Proof.
  intros Hs' Hr Ht Ha. rewrite !active_count_sum, Hs', map_sum_insert.
  unfold at_key. rewrite Hr. cbn. pose proof (active_ind_same t r r' Ht Ha). lia.
Qed.

Lemma active_count_delete s s' id t :
  records s' = delete id (records s) → Mem.active_count s' t ≤ Mem.active_count s t.
Proof.
  intros Hs'. rewrite !active_count_sum, Hs', map_sum_delete. unfold at_key.
  destruct (records s !! id) as [r|]; cbn; [pose proof (active_ind_bounds t r)|]; lia.
Qed.

Lemma active_count_fresh s s' rec t :
  records s' = <[lease_id rec := rec]> (records s) → records s !! lease_id rec = None →
  Mem.active_count s' t = Mem.active_count s t + active_ind t rec.
Proof.
  intros Hs' Hr. rewrite !active_count_sum, Hs', map_sum_insert_fresh by done. lia.
Qed.

(** ** The concurrency cap *)

(** The calls of a deployment in which tenant [t] is never admitted with a cap
    above [K t]; [put] bypasses admission and is excluded. *)
Definition op_within_cap (K : TenantId → Z) (o : op) : Prop :=
  match o with
  | OpPut _ => False
  | OpTryAdmit rec cap | OpAdmit rec cap _ => cap ≤ K (tenant rec)
  | _ => True
  end.

Definition cap_respected (K : TenantId → Z) (s : InMemoryInner) : Prop :=
  ∀ t, Mem.active_count s t ≤ K t.

(** The cap a call admits a tenant with, if it does. *)
Definition cap_of (t : TenantId) (o : op) : Z :=
  match o with
  | OpTryAdmit rec cap | OpAdmit rec cap _ => if decide (tenant rec = t) then cap else 0
  | _ => 0
  end.
Definition is_put (o : op) : bool := match o with OpPut _ => true | _ => false end.

Lemma count_admit k s s' rec cap t :
  k ≤ U32_MAX → (tenant rec = t → cap ≤ k) →
  records s' = <[lease_id rec := rec]> (records s) → records s !! lease_id rec = None →
  as_u32 (Mem.active_count s (tenant rec)) < cap →
  Mem.active_count s t ≤ k → Mem.active_count s' t ≤ k.
Proof.
  intros Hk Hcap Hs' Hr Hlt Hs. rewrite (active_count_fresh s s' rec) by done.
  unfold active_ind, Mem.active_of. case_decide as Ha; [|lia]. destruct Ha as [Ht _]. specialize (Hcap Ht).
  rewrite Ht in Hlt. pose proof (active_count_nonneg s t). rewrite as_u32_small in Hlt by lia. lia.
Qed.

(** Apart from [put] no call brings a tenant above a bound on the cap it names. *)
Lemma count_step k t o ev s s' :
  k ≤ U32_MAX → is_put o = false → cap_of t o ≤ k → op_allows o ev →
  step ev s s' → Mem.active_count s t ≤ k → Mem.active_count s' t ≤ k.
Proof.
  intros Hk Hput Ho Hev Hstep Hs.
  assert (∀ rec cap, (if decide (tenant rec = t) then cap else 0) ≤ k → tenant rec = t → cap ≤ k) as Hcap
    by (intros rec cap; by case_decide).
  destruct Hstep as [s rec|s rec cap Hn Hlt|s rec cap g Hn Hlt|s id r now Hr Hp
    |s id r to now Hr Hp|s id|s id js|s id r|s id r|s id r pref Hr Hp].
  - by destruct o as [| ? [] | | | | | | | | |].
  - destruct o as [| ? [] | | | | | | | | |]; try done; destruct Hev as [-> ->];
      by eapply (count_admit k s); [exact Hk|by apply Hcap|reflexivity|..].
  - destruct o as [| ? [] | | | | | | | | |]; try done; destruct Hev as (-> & -> & _);
      by eapply (count_admit k s); [exact Hk|by apply Hcap|reflexivity|..].
  - etrans; [|exact Hs]. eapply active_count_update; [done|done|done|]. intros _. by left.
  - etrans; [|exact Hs].
    eapply active_count_update; [by rewrite settle_records|done|done|]. intros _. by right.
  - etrans; [|exact Hs]. by eapply active_count_delete.
  - exact Hs.
  - exact Hs.
  - etrans; [|exact Hs]. by eapply (active_count_delete s _ id).
  - etrans; [|exact Hs]. eapply active_count_update; [done|done|done|]. done.
Qed.

Lemma cap_respected_step K o ev s s' :
  (∀ t, K t ≤ U32_MAX) → op_within_cap K o → op_allows o ev →
  step ev s s' → cap_respected K s → cap_respected K s'.
Proof.
  intros HK Ho Hev Hst Hs t. specialize (Hs t). apply (count_step (K t) t o ev s); try done.
  - by destruct o.
  - pose proof (active_count_nonneg s t). destruct o; cbn in *; try lia; case_decide; subst; lia.
Qed.

(** The largest cap a tenant is admitted with, and the records put for it. *)
Definition largest_cap (t : TenantId) (os : list op) : Z := foldr Z.max 0 (cap_of t <$> os).
Definition puts (t : TenantId) (os : list op) : Z :=
  foldr Z.add 0 ((λ o, match o with OpPut rec => if decide (tenant rec = t) then 1 else 0 | _ => 0 end) <$> os).

(** ** The monthly compute ceiling *)

(** What a lease commits of a tenant's budget in a period while it is active. *)
Definition reserved_at (s : InMemoryInner) (t : TenantId) (p : Z) (k : string)
    (r : LeaseRecord) : Z :=
  if decide (Mem.active_of t r) then
    match reservations s !! k with
    | Some res => if decide (accrual_period_key res = p) then reserved_vcpu_ms res else 0
    | None => 0
    end
  else 0.

Definition reserved_sum (s : InMemoryInner) (t : TenantId) (p : Z) : Z :=
  map_sum (reserved_at s t p) (records s).

(** Spent plus promised: what the ceiling bounds. *)
Definition committed (s : InMemoryInner) (t : TenantId) (p : Z) : Z :=
  Mem.compute_accrued s t p + reserved_sum s t p.

(** Amounts are in the range of their machine types. *)
Record amounts_ok (s : InMemoryInner) : Prop := {
  amounts_reserved k res : reservations s !! k = Some res →
    0 ≤ reserved_vcpu_ms res ∧ 0 ≤ box_vcpu_count res;
  amounts_accrued t p : 0 ≤ Mem.compute_accrued s t p ≤ MAX_LEDGER_VCPU_MS;
}.

Lemma new_amounts : amounts_ok Mem.new.
Proof.
  split; [done|]. intros t p. unfold Mem.compute_accrued, Mem.new. cbn.
  rewrite lookup_empty. cbn. unfold MAX_LEDGER_VCPU_MS. mlia.
Qed.

Lemma reserved_at_nonneg s t p k r : amounts_ok s → 0 ≤ reserved_at s t p k r.
Proof.
  intros [Hres _]. unfold reserved_at. case_decide; [|done].
  destruct (reservations s !! k) as [res|] eqn:E; [|done]. case_decide; [|done].
  by apply (Hres k).
Qed.

Lemma reserved_sum_nonneg s t p : amounts_ok s → 0 ≤ reserved_sum s t p.
Proof. intros. apply map_sum_nonneg. intros. by apply reserved_at_nonneg. Qed.

(** The rolling sum the gate computes is the saturated [reserved_sum]. *)
Lemma sigma_reserved_sum s t p :
  ledger_wf s → amounts_ok s → Mem.sigma s t p = Z.min U64_MAX (reserved_sum s t p).
Proof.
  intros Hwf Hok. unfold Mem.sigma.
  set (l := omap _ _).
  assert (Forall (λ x, 0 ≤ x) (reserved_vcpu_ms <$> filter (λ res, accrual_period_key res = p) l)) as Hnn.
  { apply Forall_fmap, Forall_forall. intros res [_ Hin]%list_elem_of_filter.
    unfold l in Hin. apply list_elem_of_omap in Hin as (r & _ & Hr). cbn.
    by apply (amounts_reserved s Hok (lease_id r)). }
  transitivity (foldl sat_add (Z.min U64_MAX 0)
    (reserved_vcpu_ms <$> filter (λ res, accrual_period_key res = p) l)); [done|].
  rewrite foldl_sat_add by done. f_equal. rewrite Z.add_0_l.
  unfold l, Mem.values, map_values, reserved_sum, map_sum. clear l Hnn.
  assert (∀ kv, kv ∈ map_to_list (records s) → lease_id kv.2 = kv.1) as Hkeys.
  { intros [k r] Hkv%elem_of_map_to_list. by apply (wf_keys s Hwf). }
  induction (map_to_list (records s)) as [|[k r] kvs IH]; [done|].
  rewrite fmap_cons, filter_cons. cbn [foldr snd fst].
  rewrite <-IH by set_solver.
  specialize (Hkeys (k, r) ltac:(set_solver)). cbn in Hkeys. unfold reserved_at.
  case_decide as Ha; [rewrite decide_True by done|rewrite decide_False by done; lia].
  cbn [omap list_omap]. rewrite Hkeys.
  destruct (reservations s !! k) as [res|]; [|lia].
  rewrite filter_cons. case_decide; [|lia]. by rewrite fmap_cons.
Qed.

(** The gate's saturating projection is exact below the ledger bound. *)
Lemma projected_exact s t g :
  ledger_wf s → amounts_ok s → 0 ≤ gate_new_reserved_vcpu_ms g →
  projected s t g =
    Z.min U64_MAX (committed s t (gate_period_key g) + gate_new_reserved_vcpu_ms g).
Proof.
  intros Hwf Hok Hg. unfold projected, committed. rewrite sigma_reserved_sum by done.
  pose proof (reserved_sum_nonneg s t (gate_period_key g) Hok).
  pose proof (amounts_accrued s Hok t (gate_period_key g)). mlia.
Qed.

(** [committed] changes only through the one key a step touches. *)
Lemma reserved_sum_change s s' t p k :
  delete k (records s) = delete k (records s') →
  (∀ j, j ≠ k → reservations s' !! j = reservations s !! j) →
  reserved_sum s' t p =
    reserved_sum s t p - at_key (reserved_at s t p) k (records s)
      + at_key (reserved_at s' t p) k (records s').
Proof.
  intros Hd Hr. apply map_sum_change; [done|].
  intros j r Hj _. unfold reserved_at. by rewrite Hr.
Qed.

Definition op_within_ceiling (C : TenantId → Z → Z) (o : op) : Prop :=
  match o with
  | OpAdmit rec _ (Some g) =>
      0 ≤ gate_new_reserved_vcpu_ms g ∧ 0 ≤ gate_box_vcpu_count g ∧
      gate_ceiling_vcpu_ms g ≤ C (tenant rec) (gate_period_key g)
  | _ => True
  end.

(** Contributions of a single key. *)
Lemma at_key_reserved s t p k :
  at_key (reserved_at s t p) k (records s) =
  match records s !! k with Some r => reserved_at s t p k r | None => 0 end.
Proof. unfold at_key. by destruct (records s !! k). Qed.

Lemma reserved_at_inactive s t p k r : ¬ is_active r → reserved_at s t p k r = 0.
Proof. intros Hn. unfold reserved_at, Mem.active_of. rewrite decide_False; naive_solver. Qed.

Lemma reserved_at_none s t p k r : reservations s !! k = None → reserved_at s t p k r = 0.
Proof. intros Hn. unfold reserved_at. rewrite Hn. by case_decide. Qed.

Lemma reserved_at_same s s' t p k r r' :
  reservations s' !! k = reservations s !! k → tenant r' = tenant r →
  (is_active r' ↔ is_active r) → reserved_at s' t p k r' = reserved_at s t p k r.
Proof.
  intros Hres Ht Ha. unfold reserved_at, Mem.active_of. rewrite Hres, Ht.
  repeat case_decide; naive_solver.
Qed.

(** A step that leaves the accruals alone and lowers the touched key's
    contribution lowers the commitment. *)
Lemma committed_quiet s s' t p k :
  accruals s' = accruals s → delete k (records s) = delete k (records s') →
  (∀ j, j ≠ k → reservations s' !! j = reservations s !! j) →
  at_key (reserved_at s' t p) k (records s') ≤ at_key (reserved_at s t p) k (records s) →
  committed s' t p ≤ committed s t p.
Proof.
  intros Ha Hd Hr Hle. unfold committed, Mem.compute_accrued.
  rewrite Ha, (reserved_sum_change s s' t p k) by done. lia.
Qed.

Lemma committed_insert s rec t p :
  ledger_wf s → records s !! lease_id rec = None →
  committed (insert_lease rec s) t p ≤ committed s t p.
Proof.
  intros Hwf Hn. apply (committed_quiet _ _ _ _ (lease_id rec)); try done.
  - cbn. by rewrite delete_insert_eq.
  - rewrite !at_key_reserved. cbn. rewrite lookup_insert_eq, Hn, reserved_at_none; [done|].
    cbn. apply eq_None_not_Some. intros Hs%(wf_reservations s Hwf).
    rewrite Hn in Hs. by destruct Hs.
Qed.

Lemma committed_drop s id t p :
  amounts_ok s → committed (drop_lease id s) t p ≤ committed s t p.
Proof.
  intros Hok. apply (committed_quiet _ _ _ _ id); try done.
  - cbn. by rewrite delete_delete_eq.
  - intros j Hj. cbn. by rewrite lookup_delete_ne.
  - rewrite !at_key_reserved. cbn. rewrite lookup_delete_eq.
    case_match; [by apply reserved_at_nonneg|done].
Qed.

Lemma committed_admit s rec g t p :
  ledger_wf s → amounts_ok s → records s !! lease_id rec = None →
  0 ≤ gate_new_reserved_vcpu_ms g →
  committed (with_reservations <[lease_id rec := reservation_of g]> (insert_lease rec s)) t p ≤
    committed s t p + (if decide (t = tenant rec ∧ p = gate_period_key g)
                       then gate_new_reserved_vcpu_ms g else 0).
Proof.
  intros Hwf Hok Hn Hg. unfold committed, Mem.compute_accrued. cbn.
  rewrite (reserved_sum_change s (with_reservations _ _) t p (lease_id rec));
    [|cbn; by rewrite delete_insert_eq|intros j Hj; cbn; by rewrite lookup_insert_ne].
  rewrite !at_key_reserved. cbn. rewrite lookup_insert_eq, Hn.
  unfold reserved_at, Mem.active_of. cbn. rewrite lookup_insert_eq. cbn.
  repeat case_decide; naive_solver lia.
Qed.

Lemma charge_bounds res created now :
  0 ≤ reserved_vcpu_ms res → 0 ≤ box_vcpu_count res →
  0 ≤ charge res created now ≤ reserved_vcpu_ms res.
Proof.
  intros. unfold charge.
  assert (0 ≤ vcpu_ms (box_vcpu_count res) (now -sat created)); [|lia].
  apply vcpu_ms_nonneg; mlia.
Qed.

Lemma compute_accrued_add t p amount s t' p' :
  Mem.compute_accrued (add_accrual t p amount s) t' p' =
    if decide (t' = t ∧ p' = p)
    then Z.min (Mem.compute_accrued s t p +sat amount) MAX_LEDGER_VCPU_MS
    else Mem.compute_accrued s t' p'.
Proof.
  unfold Mem.compute_accrued, add_accrual. cbn. case_decide as Hd.
  - destruct Hd as [-> ->]. by rewrite lookup_insert_eq.
  - rewrite lookup_insert_ne; [done|]. naive_solver.
Qed.

(** The terminal record no longer counts, and its charge is at most what it
    had reserved: a terminal transition never raises the commitment. *)
Lemma committed_terminal s id r to now t p :
  amounts_ok s → records s !! id = Some r → state r = Wire Held → to ≠ Held →
  committed (settle id r now
    (with_records <[id := set_state r (Wire to) now (billing_acquired_at_ms r)]> s)) t p
  ≤ committed s t p.
Proof.
  intros Hok Hr Hst Hto. set (r' := set_state _ _ _ _). set (s1 := with_records _ s).
  assert (reserved_sum (settle id r now s1) t p =
          reserved_sum s t p - reserved_at s t p id r) as Hsum.
  { rewrite (reserved_sum_change s _ t p id);
      [|rewrite settle_records; cbn; by rewrite delete_insert_eq|].
    - rewrite !at_key_reserved, Hr, settle_records. cbn. rewrite lookup_insert_eq.
      rewrite (reserved_at_inactive _ _ _ _ r'); [lia|].
      unfold is_active. cbn. naive_solver.
    - intros j Hj. unfold settle. cbn. repeat case_match; try done. cbn.
      by rewrite lookup_insert_ne. }
  unfold committed. rewrite Hsum. clear Hsum.
  unfold settle, s1. cbn. destruct (reservations s !! id) as [res|] eqn:Hres.
  2:{ rewrite (reserved_at_none s) by done. unfold Mem.compute_accrued. cbn. lia. }
  pose proof (amounts_reserved s Hok id res Hres) as [Hnn Hv].
  pose proof (reserved_at_nonneg s t p id r Hok) as Hat.
  destruct (accrued_at_ms res); [unfold Mem.compute_accrued; cbn; lia|].
  rewrite compute_accrued_add. case_decide as Hd; [|unfold Mem.compute_accrued; cbn; lia].
  destruct Hd as [-> ->]. pose proof (charge_bounds res (created_at_ms r) now Hnn Hv).
  unfold reserved_at, Mem.active_of. rewrite decide_True by (split; [done|by right]).
  rewrite Hres, decide_True by done. unfold Mem.compute_accrued. cbn. mlia.
Qed.

Lemma amounts_settle s id r now : amounts_ok s → amounts_ok (settle id r now s).
Proof.
  intros Hok. unfold settle. destruct (reservations s !! id) as [res|] eqn:Hres; [|done].
  destruct (accrued_at_ms res); [done|].
  pose proof (amounts_reserved s Hok id res Hres) as [Hnn Hv].
  split.
  - intros k res'. cbn. destruct (decide (k = id)) as [->|].
    + rewrite lookup_insert_eq. by intros [= <-].
    + rewrite lookup_insert_ne by done. by apply amounts_reserved.
  - intros t p. rewrite compute_accrued_add.
    pose proof (charge_bounds res (created_at_ms r) now Hnn Hv).
    pose proof (amounts_accrued s Hok t p).
    pose proof (amounts_accrued s Hok (tenant r) (accrual_period_key res)).
    unfold Mem.compute_accrued in *. cbn. case_decide; mlia.
Qed.

Lemma amounts_drop s id : amounts_ok s → amounts_ok (drop_lease id s).
Proof.
  intros Hok. split; [|apply (amounts_accrued s Hok)].
  intros k res. cbn. intros [_ Hk]%lookup_delete_Some. by apply (amounts_reserved s Hok k).
Qed.

(** The gate argument of a call, when it has one, carries machine values. *)
Definition op_amounts_ok (o : op) : Prop :=
  match o with
  | OpAdmit _ _ (Some g) => 0 ≤ gate_new_reserved_vcpu_ms g ∧ 0 ≤ gate_box_vcpu_count g
  | _ => True
  end.

Lemma amounts_step o ev s s' :
  op_amounts_ok o → op_allows o ev → step ev s s' → amounts_ok s → amounts_ok s'.
Proof.
  intros Ho Hev Hstep Hs.
  destruct Hstep as [ | |s rec cap g| | |s id| | |s id| ]; try by destruct Hs.
  - destruct o as [| ? [] | | | | | | | | |]; try done. destruct Hev as (-> & -> & -> & _).
    split; [|apply (amounts_accrued s Hs)]. cbn. intros k res.
    destruct (decide (k = lease_id rec0)) as [->|].
    + rewrite lookup_insert_eq. by intros [= <-].
    + rewrite lookup_insert_ne by done. by apply amounts_reserved.
  - apply amounts_settle. by destruct Hs.
  - by apply amounts_drop.
  - apply (amounts_drop (with_claims _ s)). by destruct Hs.
Qed.

Definition ceiling_respected (C : TenantId → Z → Z) (s : InMemoryInner) : Prop :=
  amounts_ok s ∧ ∀ t p, committed s t p ≤ C t p.

(** Only a gated admission raises what is committed, by its reservation. *)
Definition admitted_amount (ev : event) (t : TenantId) (p : Z) : Z :=
  match ev with
  | EvAdmitReserved rec _ g =>
    if decide (t = tenant rec ∧ p = gate_period_key g) then gate_new_reserved_vcpu_ms g else 0
  | _ => 0
  end.

Lemma committed_step ev s s' t p :
  ledger_wf s → amounts_ok s → step ev s s' →
  (∀ rec cap g, ev = EvAdmitReserved rec cap g → 0 ≤ gate_new_reserved_vcpu_ms g) →
  committed s' t p ≤ committed s t p + admitted_amount ev t p.
Proof.
  intros Hwf Hok Hstep Hg.
  destruct Hstep as [s rec Hn|s rec cap Hn|s rec cap g Hn Hlt Hle|s id r now Hr Hp
    |s id r to now Hr Hp|s id|s id js|s id r|s id r|s id r pref Hr Hp];
    cbn [admitted_amount]; try rewrite Z.add_0_r.
  - by apply committed_insert.
  - by apply committed_insert.
  - apply committed_admit; eauto.
  - apply (committed_quiet _ _ _ _ id); [done| |done|].
    + cbn. by rewrite delete_insert_eq.
    + rewrite !at_key_reserved. cbn. rewrite lookup_insert_eq, Hr.
      erewrite (reserved_at_same s); [reflexivity|done..|]. unfold is_active. naive_solver.
  - by apply committed_terminal.
  - by apply committed_drop.
  - reflexivity.
  - reflexivity.
  - apply (committed_drop (with_claims _ s)). by destruct Hok.
  - apply (committed_quiet _ _ _ _ id); [done| |done|].
    + cbn. by rewrite delete_insert_eq.
    + rewrite !at_key_reserved. cbn. rewrite lookup_insert_eq, Hr.
      by erewrite (reserved_at_same s).
Qed.

Lemma ceiling_step C o ev s s' :
  (∀ t p, C t p ≤ MAX_LEDGER_VCPU_MS) → op_within_ceiling C o → op_allows o ev →
  ledger_wf s → step ev s s' → ceiling_respected C s → ceiling_respected C s'.
Proof.
  intros HC Ho Hev Hwf Hstep [Hok Hs]. split.
  { eapply amounts_step; eauto. destruct o as [| | |? ? [g|]| | | | | | |]; naive_solver. }
  intros t p. specialize (Hs t p).
  assert (∀ rec cap g, ev = EvAdmitReserved rec cap g → 0 ≤ gate_new_reserved_vcpu_ms g) as Hg.
  { intros rec cap g ->. destruct o as [| ? [] | | | | | | | | |]; try done.
    destruct Hev as (-> & -> & -> & _). apply Ho. }
  pose proof (committed_step ev s s' t p Hwf Hok Hstep Hg) as Hle.
  destruct ev as [| |rec cap g| | | | | | |]; try (cbn in Hle; lia).
  inversion Hstep as [| |? ? ? ? _ _ Hproj| | | | | | |]; subst.
  destruct o as [| ? [] | | | | | | | | |]; try done. destruct Hev as (-> & -> & -> & _).
  destruct Ho as (_ & _ & Hc). cbn in Hle. case_decide as Hd; [|lia]. destruct Hd as [-> ->].
  specialize (Hg _ _ _ eq_refl). rewrite projected_exact in Hproj by done.
  specialize (HC (tenant rec0) (gate_period_key g)). mlia.
Qed.

(** ** Accrual accounting *)

(** The charge a call adds to the accrual of a tenant and period: that of a
    terminal transition of a held lease with an open reservation there. *)
Definition charge_of (o : op) (s : InMemoryInner) (t : TenantId) (p : Z) : Z :=
  match o with
  | OpTransition id to now =>
    match records s !! id, reservations s !! id with
    | Some r, Some (mkReservation v p' amount None as res) =>
      if decide ((id ∉ pending_cleanup_claims s) ∧ state r = Wire Held ∧ to ≠ Held ∧
                 tenant r = t ∧ p' = p)
      then charge res (created_at_ms r) now else 0
    | _, _ => 0
    end
  | _ => 0
  end.

Section accounting.
Context {json : SerdeJson}.

(** The charges of a run, each in the state the call saw. *)
Fixpoint charges (os : list op) (s : InMemoryInner) (t : TenantId) (p : Z) : Z :=
  match os with
  | [] => 0
  | o :: os => charge_of o s t p + charges os (mem_exec o s) t p
  end.

Lemma steps_accruals evs s s' :
  Forall (λ ev, match ev with EvTerminal _ _ _ => False | _ => True end) evs →
  steps evs s s' → accruals s' = accruals s.
Proof.
  intros Hev Hst. revert Hev. induction Hst as [|ev evs s1 s2 s3 Hs _ IH]; [done|].
  intros [Hev Hevs]%Forall_cons. rewrite IH by done. by destruct Hs.
Qed.

Lemma mem_exec_accruals o s :
  ledger_wf s →
  (match o with OpTransition _ _ _ => False | _ => True end) →
  accruals (mem_exec o s) = accruals s.
Proof.
  intros Hwf Ho. destruct (mem_exec_refines o s Hwf) as (evs & Hev & Hst).
  eapply steps_accruals, Hst. eapply Forall_impl; [exact Hev|].
  intros ev. by destruct o, ev.
Qed.

(** The effect of a transition call on the state, whole. *)
Lemma mem_exec_transition s id to now :
  mem_exec (OpTransition id to now) s =
    if decide (id ∈ pending_cleanup_claims s) then s else
    match records s !! id with
    | None => s
    | Some r =>
      if transition_is_legal (state r) to then
        let s1 := with_records <[id := set_state r (Wire to) now
          (if decide (to = Held) then held_stamp r now else billing_acquired_at_ms r)]> s in
        if decide (to = Held) then s1 else settle id r now s1
      else s
    end.
Proof.
  unfold mem_exec, mem_call, fmap_M, Mem.transition, Mem.transition_capturing.
  destruct (decide (id ∈ pending_cleanup_claims s)) as [Hc|Hc];
    run_M; [by rewrite bool_decide_true|rewrite bool_decide_false by done; run_M].
  destruct (records s !! id) as [r|]; [|done]. cbn.
  destruct (apply_transition r to now) as [r'|e] eqn:Ha; cbn.
  - apply apply_transition_ok in Ha as [Hl ->]. rewrite Hl. cbn.
    destruct (decide (to = Held)) as [->|Hto]; [done|].
    destruct (accrue_settle id r to now
      (with_records <[id := set_state r (Wire to) now (billing_acquired_at_ms r)]> s) Hto)
      as [ev ->]. done.
  - destruct (transition_is_legal (state r) to) eqn:Hl; [|done].
    unfold apply_transition in Ha. by rewrite Hl in Ha.
Qed.

Lemma compute_accrued_exec o s t p :
  ledger_wf s → amounts_ok s →
  Mem.compute_accrued (mem_exec o s) t p =
    Z.min (Mem.compute_accrued s t p + charge_of o s t p) MAX_LEDGER_VCPU_MS.
Proof.
  intros Hwf Hok. pose proof (amounts_accrued s Hok t p).
  assert (Mem.compute_accrued s t p =
    Z.min (Mem.compute_accrued s t p + 0) MAX_LEDGER_VCPU_MS) as Hsame by lia.
  destruct o as [|id to now| | | | | | | | |];
    try (unfold Mem.compute_accrued at 1; rewrite mem_exec_accruals by done; exact Hsame).
  rewrite mem_exec_transition. unfold charge_of.
  destruct (records s !! id) as [r|]; [|case_decide; exact Hsame].
  assert (∀ s1, accruals s1 = accruals s → Mem.compute_accrued s1 t p =
    Z.min (Mem.compute_accrued s t p + 0) MAX_LEDGER_VCPU_MS) as Hacc.
  { intros s1 Hs1. unfold Mem.compute_accrued at 1. by rewrite Hs1. }
  case_decide as Hc.
  { repeat case_match; try by apply Hacc. naive_solver. }
  destruct (transition_is_legal (state r) to) eqn:Hl.
  2:{ repeat case_match; try by apply Hacc.
      destruct_and!. by destruct (state r) as [|[]], to. }
  cbn zeta. case_decide as Hto.
  { subst to. repeat case_match; try by apply Hacc. naive_solver. }
  assert (state r = Wire Held) as Hst by (by destruct (state r) as [|[]], to).
  unfold settle. cbn. destruct (reservations s !! id) as [res|] eqn:Hres; [|by apply Hacc].
  pose proof (amounts_reserved s Hok id res Hres) as [Hnn Hv].
  pose proof (charge_bounds res (created_at_ms r) now Hnn Hv).
  destruct res as [v p' amount [a|]]; cbn in *; [by apply Hacc|].
  rewrite compute_accrued_add. repeat case_decide; try naive_solver.
  unfold Mem.compute_accrued in *; cbn. destruct_and!; subst. mlia.
Qed.

Lemma charge_of_nonneg o s t p : amounts_ok s → 0 ≤ charge_of o s t p.
Proof.
  intros Hok. unfold charge_of. repeat case_match; try lia.
  eapply charge_bounds; by eapply (amounts_reserved s Hok).
Qed.

Lemma mem_exec_amounts o s :
  op_amounts_ok o → ledger_wf s → amounts_ok s →
  ledger_wf (mem_exec o s) ∧ amounts_ok (mem_exec o s).
Proof.
  intros Ho Hwf Hok. apply (mem_exec_invariant (op_allows o)); try done.
  intros ev s1 s2 ? _ ? ?. by eapply amounts_step.
Qed.

Lemma charges_nonneg os s t p :
  Forall op_amounts_ok os → ledger_wf s → amounts_ok s → 0 ≤ charges os s t p.
Proof.
  revert s. induction os as [|o os IH]; intros s Hos Hwf Hok; cbn; [done|].
  apply Forall_cons in Hos as [Ho Hos].
  destruct (mem_exec_amounts o s) as [Hwf' Hok']; try done.
  pose proof (charge_of_nonneg o s t p Hok). specialize (IH _ Hos Hwf' Hok'). lia.
Qed.
End accounting.

(** ** The safety theorems *)

(** Concrete leases, a gate and a payload parser for the examples. *)
Definition acme : TenantId := mkTenantId "acme".
Definition sample_lease (id : string) : LeaseRecord :=
  mkLease id acme Pending ("box:" +:+ id) 1000 1000 (Some 5000) None.
Definition sample_gate : ComputeGate := mkGate 202611 10000 2 6000.
Definition accept_json : SerdeJson := λ _, Some (JsonObject 1).

Definition sample_ops : list op :=
  [ OpAdmit (sample_lease "a") 2 (Some sample_gate);
    OpAdmit (sample_lease "b") 2 (Some sample_gate);
    OpTryAdmit (sample_lease "c") 2;
    OpTryAdmit (sample_lease "d") 2;
    OpTransition "a" Held 1500;
    OpBind "c" "provider-ref:v1:{}";
    OpTransition "a" Released 3000 ].

Section theorems.
Context {json : SerdeJson}.

(** C18: Refinement.  Every mutating call of the in-memory ledger core, on every
    branch and with any arguments, changes a well-formed state only by steps of
    the abstract lease machine that the call is allowed to make, and leaves it
    well formed: keys match ids, no orphan reservation or checkpoint, every
    cleanup claim on a pending lease. *)
Theorem mem_refines_machine o s :
  ledger_wf s → refines_step o s (mem_exec o s) ∧ ledger_wf (mem_exec o s).
Proof.
  intros Hwf. split; [by apply mem_exec_refines|].
  by apply (mem_exec_invariant (λ _, True) (λ _, True) o s).
Qed.

(** What one call does to the count of a tenant. *)
Lemma count_exec o s t :
  ledger_wf s → Z.max (Mem.active_count s t) (cap_of t o) ≤ U32_MAX →
  ledger_wf (mem_exec o s) ∧
  Mem.active_count (mem_exec o s) t ≤ Z.max (Mem.active_count s t) (cap_of t o) + puts t [o].
Proof.
  intros Hwf Hk. destruct (is_put o) eqn:Hp.
  - destruct (mem_exec_invariant (λ _, True) (λ _, True) o s) as [Hwf' _]; try done. split; [done|].
    destruct o as [rec| | | | | | | | | |]; try done. unfold mem_exec, mem_call, fmap_M, Mem.put. run_M.
    destruct (bool_decide (is_Some (records s !! lease_id rec))) eqn:E; cbn; [case_decide; lia|].
    apply bool_decide_eq_false, eq_None_not_Some in E.
    rewrite (active_count_fresh s _ rec) by done. unfold active_ind, Mem.active_of.
    repeat case_decide; naive_solver lia.
  - destruct (mem_exec_invariant (op_allows o) (λ s', Mem.active_count s' t ≤ Z.max (Mem.active_count s t) (cap_of t o)) o s)
      as [Hwf' Hc]; try done; [|lia|].
    + intros ev s1 s2 Hev _ Hst. apply (count_step _ t o ev); try done. lia.
    + split; [done|]. assert (puts t [o] = 0) as -> by by destruct o. lia.
Qed.

(** C3: The concurrency cap is never exceeded.  Under any sequence of calls whatsoever a
    tenant never has more leases pending or held than the larger of what it started
    with and the largest cap it was to be admitted with, but for the records put for
    it, which [put] records without a test.  The count is truncated to 32 bits by the
    code, so the bound has to fit them. *)
Theorem cap_never_exceeded os s t :
  ledger_wf s → Z.max (Mem.active_count s t) (largest_cap t os) + puts t os ≤ U32_MAX →
  Mem.active_count (mem_run os s) t ≤ Z.max (Mem.active_count s t) (largest_cap t os) + puts t os.
Proof.
  revert s. induction os as [|o os IH]; intros s Hwf Hb; [cbn; lia|].
  change (mem_run (o :: os) s) with (mem_run os (mem_exec o s)).
  assert (0 ≤ puts t os ∧ 0 ≤ largest_cap t os) as [Hp Hl].
  { clear. unfold puts, largest_cap. induction os as [|o os [? ?]]; cbn; [done|]. split; [|lia].
    destruct o; try done. case_decide; lia. }
  assert (largest_cap t (o :: os) = Z.max (cap_of t o) (largest_cap t os)) as El by done.
  assert (puts t (o :: os) = puts t [o] + puts t os) as Ep by (unfold puts; cbn; lia).
  assert (0 ≤ puts t [o]) by (unfold puts; destruct o; cbn; try done; case_decide; lia).
  rewrite El, Ep in *. destruct (count_exec o s t Hwf) as [Hwf' Hc]; [lia|]. etrans; [apply IH; [done|]|]; lia.
Qed.

(** C4: The monthly compute ceiling is never exceeded.  Under any sequence of
    calls whose gates carry at most the ceiling [C t p], what a tenant has
    accrued plus what its active leases have reserved in a period never exceeds
    [C t p]: usage is bounded by the reservation, the saturating sums cannot
    hide an overflow, and neither termination nor removal raises the total. *)
Theorem compute_ceiling_never_exceeded C os s :
  (∀ t p, C t p ≤ MAX_LEDGER_VCPU_MS) → Forall (op_within_ceiling C) os →
  ledger_wf s → amounts_ok s → (∀ t p, committed s t p ≤ C t p) →
  ∀ t p, Mem.compute_accrued (mem_run os s) t p + reserved_sum (mem_run os s) t p ≤ C t p.
Proof.
  intros HC Hos Hwf Hok Hs.
  assert (ceiling_respected C (mem_run os s)) as [_ ?]; [|done].
  apply (mem_run_invariant (ceiling_respected C)); try done.
  intros o ev s1 s2 Ho Hev Hwf1 Hst. eapply ceiling_step; eauto. by eapply Forall_forall.
Qed.

(** C24: The gated admission decides by the exact quantities.  With a non-zero
    ceiling within the ledger bound and fewer than [2^32] active leases, the
    outcome is decided by the unsaturated sums: over the ceiling is
    [OverCompute], also when the tenant is over its cap as well; else at the cap
    is [OverConcurrency]; else a known id is an error; else the lease and its
    reservation are recorded.  Only the last changes the state. *)
Theorem gated_admit_exact rec cap g s :
  ledger_wf s → amounts_ok s →
  0 < gate_ceiling_vcpu_ms g ≤ MAX_LEDGER_VCPU_MS → 0 ≤ gate_new_reserved_vcpu_ms g →
  Mem.active_count s (tenant rec) ≤ U32_MAX →
  Mem.try_admit_with_compute rec cap (Some g) s =
    if decide (gate_ceiling_vcpu_ms g <
                 committed s (tenant rec) (gate_period_key g) + gate_new_reserved_vcpu_ms g)
    then (s, Ok OverCompute)
    else if decide (cap ≤ Mem.active_count s (tenant rec)) then (s, Ok OverConcurrency)
    else if decide (is_Some (records s !! lease_id rec))
    then (s, Err (AlreadyExists (lease_id rec)))
    else (with_reservations <[lease_id rec := reservation_of g]> (insert_lease rec s),
          Ok LeaseAdmitted).
Proof.
  intros Hwf Hok Hc Hg Ha. pose proof (active_count_nonneg s (tenant rec)).
  assert (gate_ceiling_vcpu_ms g ≠ 0) as Hz by lia.
  pose proof (gated_admit_cases rec cap g s Hz) as Hcases.
  rewrite projected_exact, as_u32_small in Hcases by (done || lia).
  destruct Hcases as [[? ->]|[(?&?&->)|[(?&?&?&->)|(?&?&Hn&->)]]];
    repeat case_decide; try done; try mlia; exfalso.
  rewrite Hn in *. by eapply is_Some_None.
Qed.

(** C15: Billing is exact.  After any sequence of calls, the accrual of a tenant
    and period is its start value plus the charges of the terminal transitions of
    held leases with an open reservation there, each charge the box's vCPU time
    clamped to the reservation, saturated at the ledger bound; nothing else moves
    it, so a lease is never billed twice and removal never un-bills. *)
Theorem accrued_is_sum_of_charges os s t p :
  Forall op_amounts_ok os → ledger_wf s → amounts_ok s →
  Mem.compute_accrued (mem_run os s) t p =
    Z.min (Mem.compute_accrued s t p + charges os s t p) MAX_LEDGER_VCPU_MS.
Proof.
  unfold mem_run. revert s. induction os as [|o os IH]; intros s Hos Hwf Hok; cbn.
  { pose proof (amounts_accrued s Hok t p). lia. }
  apply Forall_cons in Hos as [Ho Hos].
  destruct (mem_exec_amounts o s) as [Hwf' Hok']; try done.
  rewrite IH, compute_accrued_exec by done.
  pose proof (charges_nonneg os (mem_exec o s) t p Hos Hwf' Hok'). lia.
Qed.
End theorems.

(** The hypotheses of the theorems hold of a fresh ledger and a run of it. *)
Lemma sample_ops_ok :
  Forall (op_within_cap (λ _, 2)) sample_ops ∧
  Forall (op_within_ceiling (λ _ _, 10000)) sample_ops ∧
  Forall op_amounts_ok sample_ops.
Proof. repeat split; repeat constructor; cbn; lia. Qed.

Lemma new_counts K : (∀ t, 0 ≤ K t) → ∀ t, Mem.active_count Mem.new t ≤ K t.
Proof. intros HK t. apply HK. Qed.

Lemma new_committed t p : committed Mem.new t p = 0.
Proof.
  unfold committed, Mem.compute_accrued, reserved_sum, Mem.new. cbn.
  by rewrite lookup_empty, map_sum_empty.
Qed.

(** The witnesses run [sample_ops] on a fresh ledger. *)
Lemma mem_refines_machine_witness :
  ledger_wf (mem_exec (json := accept_json) (OpTryAdmit (sample_lease "a") 1) Mem.new).
Proof. apply (mem_refines_machine (json := accept_json)). apply new_wf. Defined.

Definition capped_ops : list op := OpPut (sample_lease "p") :: sample_ops.
Lemma cap_never_exceeded_witness :
  largest_cap acme capped_ops = 2 ∧ puts acme capped_ops = 1 ∧
  Mem.active_count (mem_run (json := accept_json) capped_ops Mem.new) acme ≤
    Z.max (Mem.active_count Mem.new acme) (largest_cap acme capped_ops) + puts acme capped_ops.
Proof.
  split; [vm_compute; reflexivity|]. split; [vm_compute; reflexivity|].
  apply (cap_never_exceeded (json := accept_json) capped_ops Mem.new acme); [apply new_wf|].
  vm_compute. discriminate.
Defined.

Lemma compute_ceiling_never_exceeded_witness :
  let s := mem_run (json := accept_json) sample_ops Mem.new in
  Mem.compute_accrued s acme 202611 + reserved_sum s acme 202611 ≤ 10000.
Proof.
  apply (compute_ceiling_never_exceeded (json := accept_json) (λ _ _, 10000)).
  - mlia.
  - apply sample_ops_ok.
  - apply new_wf.
  - apply new_amounts.
  - intros t p. rewrite new_committed. lia.
Defined.

Lemma gated_admit_exact_witness :
  Mem.try_admit_with_compute (sample_lease "a") 2 (Some sample_gate) Mem.new =
  (with_reservations <["a" := reservation_of sample_gate]>
     (insert_lease (sample_lease "a") Mem.new), Ok LeaseAdmitted).
Proof.
  rewrite gated_admit_exact.
  - rewrite new_committed. reflexivity.
  - apply new_wf.
  - apply new_amounts.
  - cbn. mlia.
  - cbn. lia.
  - apply (new_counts (λ _, U32_MAX)). mlia.
Defined.

Lemma accrued_is_sum_of_charges_witness :
  Mem.compute_accrued (mem_run (json := accept_json) sample_ops Mem.new) acme 202611 = 4000.
Proof.
  rewrite (accrued_is_sum_of_charges (json := accept_json)).
  - vm_compute. reflexivity.
  - apply sample_ops_ok.
  - apply new_wf.
  - apply new_amounts.
Defined.
