(* ===== verification/LedgerLifecycle.v ===== *)
(** * The life of one lease under any sequence of calls

    Per-record theorems of the lease ledger: what may happen to a record from
    one state to a later one, the cleanup fence, the reservation latch, and the
    enumerations and the stale-pending sweep. *)
From S2P Require Import Prelude Tenant ComputeMeter Ledger LedgerSpec LedgerSafety.

(** ** Record evolution *)

Definition is_terminal (st : LeaseState) : bool :=
  match st with Pending | Wire Held => false | Wire _ => true end.

(** How a record may differ from its earlier self: its identity, tenant,
    creation time and deadline never; the lifecycle only forwards; the billing
    stamp once; nothing at all once terminal. *)
Record evolves (r r' : LeaseRecord) : Prop := {
  ev_id : lease_id r' = lease_id r;
  ev_tenant : tenant r' = tenant r;
  ev_created : created_at_ms r' = created_at_ms r;
  ev_deadline : deadline_ms r' = deadline_ms r;
  ev_state : state r' = state r ∨ state r = Pending ∨
             (state r = Wire Held ∧ is_terminal (state r') = true);
  ev_stamp : billing_acquired_at_ms r ≠ None →
             billing_acquired_at_ms r' = billing_acquired_at_ms r;
  ev_held_stamp : state r = Wire Held →
             billing_acquired_at_ms r' = billing_acquired_at_ms r;
  ev_terminal : is_terminal (state r) = true → r' = r;
}.

#[export] Instance evolves_refl : Reflexive evolves.
Proof. split; auto. Qed.

Lemma terminal_not_held st : is_terminal st = true → st ≠ Pending ∧ st ≠ Wire Held.
Proof. by destruct st as [|[]]. Qed.

#[export] Instance evolves_trans : Transitive evolves.
Proof.
  intros r1 r2 r3 [] []. split; try congruence.
  - destruct ev_state0 as [H0|[H0|[H0 H0']]], ev_state1 as [H1|[H1|[H1 H1']]];
      try (destruct (terminal_not_held _ H0'); congruence);
      first [left; congruence|right; left; congruence|right; right; split; congruence].
  - intros Hs. rewrite ev_stamp1; rewrite ?ev_stamp0; auto.
  - intros Hs. destruct ev_state0 as [H0|[H0|[H0 H0']]]; try congruence.
    + rewrite ev_held_stamp1, ev_held_stamp0; congruence.
    + rewrite (ev_terminal1 H0'). auto.
  - intros Ht. rewrite (ev_terminal0 Ht) in *. auto.
Qed.

(** The calls that could create a record under an id. *)
Definition inserts (o : op) (id : string) : Prop :=
  match o with
  | OpPut rec | OpTryAdmit rec _ | OpAdmit rec _ _ => lease_id rec = id
  | _ => False
  end.

Lemma allows_inserts o ev :
  op_allows o ev →
  match ev with
  | EvInsert rec | EvAdmit rec _ | EvAdmitReserved rec _ _ => inserts o (lease_id rec)
  | _ => True
  end.
Proof. destruct o as [| ? [] | | | | | | | | |], ev; cbn; naive_solver. Qed.

(** One step keeps a record, evolves it, or drops it. *)
Lemma step_evolves o ev s s' k r :
  op_allows o ev → ¬ inserts o k → step ev s s' → records s !! k = Some r →
  records s' !! k = None ∨ ∃ r', records s' !! k = Some r' ∧ evolves r r'.
Proof.
  intros Hev Hno Hst Hk.
  assert (∀ id r1 r2 m, records s !! id = Some r1 → (r = r1 → evolves r1 r2) → m = <[id := r2]> (records s) →
    m !! k = None ∨ ∃ r', m !! k = Some r' ∧ evolves r r') as Hupd.
  { intros id r1 r2 m Hid Hevol ->. right. destruct (decide (k = id)) as [->|].
    - rewrite lookup_insert_eq. simplify_eq. eauto.
    - rewrite lookup_insert_ne by done. eexists. split; [exact Hk|reflexivity]. }
  assert (∀ rec, ¬ lease_id rec = k → (<[lease_id rec := rec]> (records s)) !! k = None ∨
    ∃ r', (<[lease_id rec := rec]> (records s)) !! k = Some r' ∧ evolves r r') as Hins.
  { intros rec Hne. right. rewrite lookup_insert_ne by done. eexists. split; [exact Hk|reflexivity]. }
  assert (∀ id, delete id (records s) !! k = None ∨
    ∃ r', delete id (records s) !! k = Some r' ∧ evolves r r') as Hdel.
  { intros id. destruct (decide (k = id)) as [->|]; [left; apply lookup_delete_eq|].
    right. rewrite lookup_delete_ne by done. eexists. split; [exact Hk|reflexivity]. }
  destruct Hst as [s rec|s rec|s rec|s id r0 now Hr Hp|s id r0 to now Hr Hp Ht
    |s id|s id js|s id r0|s id r0|s id r0 pref Hr Hp].
  - apply Hins. apply allows_inserts in Hev. by intros <-.
  - apply Hins. apply allows_inserts in Hev. by intros <-.
  - apply Hins. apply allows_inserts in Hev. by intros <-.
  - eapply Hupd; [exact Hr| |reflexivity]. intros ->. split; cbn; rewrite ?Hp; auto; try done.
    + unfold held_stamp. by destruct (billing_acquired_at_ms r0).
  - rewrite settle_records. eapply Hupd; [exact Hr| |reflexivity].
    intros ->. split; cbn; rewrite ?Hp; auto; try done.
    right; right. split; [done|]. by destruct to.
  - apply Hdel.
  - right. eexists. split; [exact Hk|reflexivity].
  - right. eexists. split; [exact Hk|reflexivity].
  - apply Hdel.
  - eapply Hupd; [exact Hr| |reflexivity]. intros ->. split; cbn; rewrite ?Hp; auto; done.
Qed.

(** ** The cleanup fence *)
Lemma fence_step o ev s s' k r :
  op_allows o ev → o ≠ OpFinish k → step ev s s' →
  k ∈ pending_cleanup_claims s ∧ records s !! k = Some r →
  k ∈ pending_cleanup_claims s' ∧ records s' !! k = Some r.
Proof.
  intros Hev Hno Hst [Hc Hk].
  destruct Hst as [s rec|s rec|s rec|s id r0 now Hr Hp|s id r0 to now Hr Hp Ht
    |s id|s id js|s id r0|s id r0|s id r0 pref Hr Hp]; cbn;
    rewrite ?settle_claims, ?settle_records; cbn.
  - split; [done|]. rewrite lookup_insert_ne by congruence. done.
  - split; [done|]. rewrite lookup_insert_ne by congruence. done.
  - split; [done|]. rewrite lookup_insert_ne by congruence. done.
  - split; [done|]. rewrite lookup_insert_ne by set_solver. done.
  - split; [done|]. rewrite lookup_insert_ne by set_solver. done.
  - split; [done|]. rewrite lookup_delete_ne by set_solver. done.
  - done.
  - split; [set_solver|done].
  - assert (id ≠ k) by (destruct o as [| ? [] | | | | | | | | |]; naive_solver).
    split; [set_solver|]. by rewrite lookup_delete_ne.
  - split; [done|]. rewrite lookup_insert_ne by set_solver. done.
Qed.

(** ** The reservation latch *)

(** A reservation is open exactly while its lease is active. *)
Definition latch_inv (s : InMemoryInner) : Prop :=
  ∀ k res, reservations s !! k = Some res →
  ∃ r, records s !! k = Some r ∧ (accrued_at_ms res = None ↔ is_active r).

(** Admission through the gate inserts pending leases. *)
Definition op_admits_pending (o : op) : Prop :=
  match o with OpAdmit rec _ _ => state rec = Pending | _ => True end.

Lemma latch_same s s' id r r' :
  latch_inv s → reservations s' = reservations s → records s' = <[id := r']> (records s) →
  records s !! id = Some r → (is_active r' ↔ is_active r) → latch_inv s'.
Proof.
  intros Hs Hres Hrec Hr Ha k res. rewrite Hres, Hrec. intros Hk.
  destruct (Hs k res Hk) as (r0 & Hr0 & Hiff).
  destruct (decide (k = id)) as [->|].
  - rewrite lookup_insert_eq. simplify_eq. exists r'. by rewrite Ha.
  - rewrite lookup_insert_ne by done. eauto.
Qed.

Lemma latch_fresh s rec :
  latch_inv s → records s !! lease_id rec = None → latch_inv (insert_lease rec s).
Proof.
  intros Hs Hn k res Hk. destruct (Hs k res Hk) as (r & Hr & Hiff). exists r. cbn.
  rewrite lookup_insert_ne by congruence. done.
Qed.

Lemma latch_drop s id : latch_inv s → latch_inv (drop_lease id s).
Proof.
  intros Hs k res. cbn. intros [Hne Hk]%lookup_delete_Some.
  destruct (Hs k res Hk) as (r & Hr & Hiff). exists r. by rewrite lookup_delete_ne.
Qed.

Lemma latch_terminal s id r to now :
  latch_inv s → records s !! id = Some r → state r = Wire Held → to ≠ Held →
  latch_inv (settle id r now
    (with_records <[id := set_state r (Wire to) now (billing_acquired_at_ms r)]> s)).
Proof.
  intros Hs Hr Hst Hto k res. rewrite settle_records. cbn. unfold settle. cbn.
  set (r' := set_state _ _ _ _).
  assert (¬ is_active r') as Hna by (unfold is_active; cbn; naive_solver).
  destruct (decide (k = id)) as [->|Hne].
  - rewrite lookup_insert_eq. destruct (reservations s !! id) as [res0|] eqn:Hres.
    + destruct (Hs id res0 Hres) as (r0 & Hr0 & Hiff). simplify_eq.
      destruct (accrued_at_ms res0) eqn:Ha; cbn.
      * destruct Hiff as [_ Hiff]. discriminate Hiff. by right.
      * rewrite lookup_insert_eq. intros [= <-]. eexists. split; [done|]. naive_solver.
    + cbn. by rewrite Hres.
  - rewrite lookup_insert_ne by done. intros Hk.
    apply Hs. repeat case_match; cbn in Hk; rewrite ?lookup_insert_ne in Hk by done; done.
Qed.

Lemma latch_step o ev s s' :
  op_admits_pending o → op_allows o ev → step ev s s' → latch_inv s → latch_inv s'.
Proof.
  intros Ho Hev Hst Hs.
  destruct Hst as [s rec|s rec|s rec cap g Hn|s id r0 now Hr Hp|s id r0 to now Hr Hp Ht
    |s id|s id js|s id r0|s id r0|s id r0 pref Hr Hp]; try done.
  - by apply latch_fresh.
  - by apply latch_fresh.
  - intros k res. cbn. destruct (decide (k = lease_id rec)) as [->|].
    + rewrite !lookup_insert_eq. intros [= <-]. exists rec. split; [done|]. cbn.
      split; [|done]. intros _. left.
      destruct o as [| ? [] | | | | | | | | |]; try done. by destruct Hev as (-> & _).
    + rewrite !lookup_insert_ne by done. apply Hs.
  - eapply latch_same; [exact Hs|done|done|exact Hr|]. unfold is_active. naive_solver.
  - by apply latch_terminal.
  - by apply latch_drop.
  - by apply (latch_drop (with_claims _ s)).
  - eapply latch_same; [exact Hs|done|done|exact Hr|]. done.
Qed.

(** ** Enumerations *)

(** The filtered, sorted listing of the records: each exactly once, in strict
    id order. *)
Lemma listing_exact s (P : LeaseRecord → Prop) `{!∀ r, Decision (P r)} :
  ledger_wf s →
  let l := sort_by_key lease_id (filter P (Mem.values s)) in
  (∀ r, r ∈ l ↔ records s !! lease_id r = Some r ∧ P r) ∧
  NoDup (lease_id <$> l) ∧ StronglySorted (key_le lease_id) l.
Proof.
  intros Hwf l. split_and!.
  - intros r. unfold l. rewrite elem_of_sort_by_key, list_elem_of_filter.
    unfold Mem.values. rewrite elem_of_map_values. split.
    + intros [HP [k Hk]]. by rewrite (wf_keys s Hwf k r Hk).
    + intros [Hr HP]. eauto.
  - unfold l. rewrite (sort_by_key_perm lease_id).
    apply (sublist_NoDup _ (lease_id <$> Mem.values s)).
    + unfold Mem.values, map_values.
      replace (lease_id <$> (map_to_list (records s)).*2) with (map_to_list (records s)).*1;
        [apply NoDup_fst_map_to_list|].
      assert (∀ kv, kv ∈ map_to_list (records s) → lease_id kv.2 = kv.1) as Hkeys.
      { intros [k r] Hkv%elem_of_map_to_list. by apply (wf_keys s Hwf). }
      induction (map_to_list (records s)) as [|kv kvs IH]; [done|].
      rewrite !fmap_cons. rewrite (Hkeys kv) by set_solver. f_equal. apply IH. set_solver.
    + apply fmap_sublist, sublist_filter.
  - apply sort_by_key_sorted.
Qed.

Section sweep.
Context {json : SerdeJson}.

Lemma step_absent o ev s s' k :
  op_allows o ev → ¬ inserts o k → step ev s s' → records s !! k = None →
  records s' !! k = None.
Proof.
  intros Hev%allows_inserts Hno Hst Hk.
  destruct Hst; rewrite ?settle_records; cbn; rewrite ?lookup_insert_None, ?lookup_delete_None;
    try done; try (split; [done|congruence]); try (by right);
    split; try done; by intros <-.
Qed.

Lemma finish_exec s id :
  ledger_wf s → id ∈ pending_cleanup_claims s →
  mem_exec (OpFinish id) s = drop_lease id (with_claims (λ c, c ∖ {[id]}) s).
Proof.
  intros Hwf Hid. pose proof (wf_claims s Hwf id Hid) as Hp.
  unfold mem_exec, mem_call, fmap_M, Mem.finish_pending_cleanup. run_M.
  rewrite bool_decide_true by done. by rewrite Hp.
Qed.

Lemma finish_exec_wf s id : ledger_wf s → ledger_wf (mem_exec (OpFinish id) s).
Proof. intros Hwf. by apply (mem_exec_invariant (λ _, True) (λ _, True)). Qed.

(** Finishing every claimed id removes exactly those leases and claims. *)
Lemma finish_all ids s :
  ledger_wf s → NoDup ids → (∀ id, id ∈ ids → id ∈ pending_cleanup_claims s) →
  let s' := mem_run (OpFinish <$> ids) s in
  (∀ k, records s' !! k = if decide (k ∈ ids) then None else records s !! k) ∧
  (∀ k, k ∈ pending_cleanup_claims s' ↔ k ∈ pending_cleanup_claims s ∧ k ∉ ids).
Proof.
  unfold mem_run. revert s. induction ids as [|id ids IH]; intros s Hwf Hnd Hids.
  { split; [done|set_solver]. }
  apply NoDup_cons in Hnd as [Hnin Hnd]. rewrite fmap_cons. cbn [foldl].
  pose proof (finish_exec_wf s id Hwf) as Hwf'.
  rewrite finish_exec in * by set_solver. set (s1 := drop_lease id _) in *.
  destruct (IH s1) as [Hrec Hcl]; try done.
  { intros j Hj. cbn. set_solver. }
  split.
  - intros k. rewrite Hrec. cbn. destruct (decide (k = id)) as [->|Hne].
    + rewrite decide_False by done. rewrite decide_True by set_solver. apply lookup_delete_eq.
    + rewrite lookup_delete_ne by done. repeat case_decide; set_solver.
  - intros k. rewrite Hcl. cbn. set_solver.
Qed.

Lemma claim_stale_state s now age :
  mem_exec (OpClaimStale now age) s =
  with_claims (λ c, foldl (λ c row, {[lease_id row]} ∪ c) c (Mem.candidates s now age)) s.
Proof. done. Qed.

Lemma foldl_claims rows c k :
  k ∈ foldl (λ (c : gset string) row, {[lease_id row]} ∪ c) c rows ↔
  k ∈ c ∨ k ∈ lease_id <$> rows.
Proof.
  revert c. induction rows as [|row rows IH]; intros c; cbn [foldl]; [set_solver|].
  rewrite IH, fmap_cons. set_solver.
Qed.

Lemma elem_of_candidates s now age r :
  ledger_wf s →
  r ∈ Mem.candidates s now age ↔
  records s !! lease_id r = Some r ∧ state r = Pending ∧
  (created_at_ms r < now -sat age ∨ lease_id r ∈ pending_cleanup_claims s).
Proof.
  intros Hwf. unfold Mem.candidates. rewrite (proj1 (listing_exact s _ Hwf)).
  unfold Mem.is_stale_pending.
  split; intros [? [? Hor]]; repeat split; try done; destruct Hor as [Hs|]; auto; left;
    repeat case_bool_decide; naive_solver.
Qed.
End sweep.

(** ** The theorems *)
Section theorems.
Context {json : SerdeJson}.

(** C21: A lease only moves forward.  Through any sequence of calls that does not
    create a lease under its id, a record is dropped or evolves: its tenant,
    creation time and deadline never change, it goes from pending to held to one
    terminal state and never back, the billing stamp is written at most once and
    not after the first hold, and a terminal record never changes again. *)
Theorem record_only_moves_forward os s k r :
  ledger_wf s → Forall (λ o, ¬ inserts o k) os → records s !! k = Some r →
  records (mem_run os s) !! k = None ∨
  ∃ r', records (mem_run os s) !! k = Some r' ∧ evolves r r'.
Proof.
  intros Hwf Hos Hr.
  apply (mem_run_invariant (λ s', records s' !! k = None ∨
    ∃ r', records s' !! k = Some r' ∧ evolves r r')); [|done|by right; exists r].
  intros o ev s1 s2 Ho Hev _ Hst.
  pose proof (proj1 (Forall_forall _ _) Hos o Ho) as Hni.
  intros [Hn|(r1 & Hr1 & He)]; [left; by eapply step_absent|].
  destruct (step_evolves o ev s1 s2 k r1 Hev Hni Hst Hr1) as [?|(r2 & ? & ?)]; [by left|].
  right. exists r2. split; [done|]. by trans r1.
Qed.

(** C22: The cleanup fence.  Once a pending lease is claimed for cleanup, no
    sequence of other calls than finishing that cleanup changes its record or
    lifts the claim: it cannot be held, bound, removed or admitted over. *)
Theorem claimed_lease_is_fenced os s k :
  ledger_wf s → k ∈ pending_cleanup_claims s → OpFinish k ∉ os →
  k ∈ pending_cleanup_claims (mem_run os s) ∧
  records (mem_run os s) !! k = records s !! k.
Proof.
  intros Hwf Hc Hos. pose proof (wf_claims s Hwf k Hc) as Hp.
  apply is_pending_at_Some in Hp as (r & Hr & _). rewrite Hr.
  apply (mem_run_invariant (λ s', k ∈ pending_cleanup_claims s' ∧ records s' !! k = Some r));
    try done.
  intros o ev s1 s2 Ho Hev _ Hst. eapply fence_step; eauto. by intros ->.
Qed.

(** C23: Every reservation is billed exactly at its end.  With leases admitted
    pending, in every reachable state each reservation belongs to a lease of the
    ledger, is open exactly while that lease is pending or held, and is latched
    as accrued exactly when the lease is terminal. *)
Theorem reservation_open_iff_active os s :
  ledger_wf s → latch_inv s → Forall op_admits_pending os →
  ∀ k res, reservations (mem_run os s) !! k = Some res →
  ∃ r, records (mem_run os s) !! k = Some r ∧ (accrued_at_ms res = None ↔ is_active r).
Proof.
  intros Hwf Hl Hos. apply (mem_run_invariant latch_inv); try done.
  intros o ev s1 s2 Ho Hev _ Hst. eapply latch_step; eauto.
  by apply (proj1 (Forall_forall _ _) Hos).
Qed.

(** The enumerations are exact.  The leases of a tenant, the held leases and
    the aged pending leases are listed each exactly once, in id order, and the
    lists hold all of them and nothing else. *)
Theorem enumerations_exact s :
  ledger_wf s →
  (∀ t r, r ∈ Mem.by_tenant s t ↔ records s !! lease_id r = Some r ∧ tenant r = t) ∧
  (∀ r, r ∈ Mem.held s ↔ records s !! lease_id r = Some r ∧ state r = Wire Held) ∧
  (∀ now age r, r ∈ Mem.pending_older_than s now age ↔
     records s !! lease_id r = Some r ∧ state r = Pending ∧ created_at_ms r < now -sat age) ∧
  (∀ t, NoDup (lease_id <$> Mem.by_tenant s t) ∧
        StronglySorted (key_le lease_id) (Mem.by_tenant s t)) ∧
  NoDup (lease_id <$> Mem.held s) ∧ StronglySorted (key_le lease_id) (Mem.held s).
Proof.
  intros Hwf. unfold Mem.by_tenant, Mem.pending_older_than.
  assert (∀ r, is_held (state r) = true ↔ state r = Wire Held) as Hheld
    by (intros r; by destruct (state r) as [|[]]).
  split_and!.
  - intros t. apply (proj1 (listing_exact s _ Hwf)).
  - intros r. rewrite <-Hheld.
    apply (proj1 (listing_exact s (λ r, is_held (state r) = true) Hwf)).
  - intros now age.
    apply (proj1 (listing_exact s (λ r, state r = Pending ∧ created_at_ms r < now -sat age) Hwf)).
  - intros t. apply (proj2 (listing_exact s (λ r, tenant r = t) Hwf)).
  - apply (proj2 (listing_exact s (λ r, is_held (state r) = true) Hwf)).
  - apply (proj2 (listing_exact s (λ r, is_held (state r) = true) Hwf)).
Qed.

(** C25: The stale-pending sweep completes.  Claiming the stale pending leases
    and finishing every claimed row leaves no pending lease older than the
    cutoff and no claim, whether or not an earlier sweep was interrupted after
    its claims; every other lease keeps its record. *)
Theorem stale_sweep_completes s now age :
  ledger_wf s →
  let rows := Mem.candidates s now age in
  let s' := mem_run (OpClaimStale now age :: (OpFinish ∘ lease_id <$> rows)) s in
  (mem_call (OpClaimStale now age) s).2 = Ok (RRows rows) ∧
  Mem.pending_older_than s' now age = [] ∧
  pending_cleanup_claims s' = ∅ ∧
  ∀ k r, records s !! k = Some r → r ∉ rows → records s' !! k = Some r.
Proof.
  intros Hwf rows s'. split; [done|].
  assert (ledger_wf (mem_exec (OpClaimStale now age) s)) as Hwf1
    by (by apply (mem_exec_invariant (λ _, True) (λ _, True))).
  destruct (finish_all (lease_id <$> rows) (mem_exec (OpClaimStale now age) s)) as [Hrec Hcl].
  { done. } { apply (listing_exact s _ Hwf). }
  { intros k Hk. rewrite claim_stale_state. apply foldl_claims. by right. }
  assert (mem_run (OpFinish <$> (lease_id <$> rows)) (mem_exec (OpClaimStale now age) s) = s')
    as Hs' by (unfold s', mem_run; by rewrite <-list_fmap_compose).
  rewrite Hs' in *. clear Hs'.
  assert (∀ k, k ∈ lease_id <$> rows → ∃ r, records s !! k = Some r ∧ r ∈ rows) as Hrows.
  { intros k (r & -> & Hr)%list_elem_of_fmap. exists r. split; [|done].
    by apply (elem_of_candidates s now age r Hwf) in Hr as [? _]. }
  assert (∀ k r, records s' !! k = Some r → records s !! k = Some r ∧ k ∉ lease_id <$> rows) as Hkeep.
  { intros k r. rewrite Hrec. by case_decide. }
  split_and!.
  - apply elem_of_nil_inv. intros r Hr. unfold Mem.pending_older_than in Hr.
    rewrite elem_of_sort_by_key, list_elem_of_filter in Hr.
    destruct Hr as [[Hp Hold] [k Hk]%elem_of_map_values].
    apply Hkeep in Hk as [Hk Hn]. pose proof (wf_keys s Hwf k r Hk) as <-.
    apply Hn, list_elem_of_fmap_2. apply elem_of_candidates; auto.
  - apply set_eq. intros k. rewrite Hcl, claim_stale_state. cbn. rewrite foldl_claims.
    split; [|set_solver]. intros [[Hc|Hc] Hn]; [|by destruct (Hn Hc)].
    destruct (proj1 (is_pending_at_Some s k) (wf_claims s Hwf k Hc)) as (r & Hr & Hp).
    pose proof (wf_keys s Hwf k r Hr) as <-. destruct Hn.
    apply list_elem_of_fmap_2, elem_of_candidates; auto.
  - intros k r Hr Hn. rewrite Hrec, decide_False; [done|].
    intros (r1 & Hr1 & Hin)%Hrows. congruence.
Qed.
End theorems.

Lemma mem_run_wf {json : SerdeJson} os s : ledger_wf s → ledger_wf (mem_run os s).
Proof. intros Hwf. by apply (mem_run_invariant (λ _, True) os s). Qed.

(** A ledger with a pending lease, and one with that lease claimed. *)
Definition pending_state : InMemoryInner :=
  mem_run (json := accept_json) [OpTryAdmit (sample_lease "a") 2] Mem.new.
Definition claimed_state : InMemoryInner :=
  mem_run (json := accept_json) [OpTryAdmit (sample_lease "a") 2; OpClaim "a" 9000] Mem.new.

Lemma record_only_moves_forward_witness :
  let s := mem_run (json := accept_json)
    [OpTransition "a" Held 2000; OpTransition "a" Held 3000; OpTransition "a" Released 4000]
    pending_state in
  records s !! "a" = None ∨
  ∃ r', records s !! "a" = Some r' ∧ evolves (sample_lease "a") r'.
Proof.
  apply (record_only_moves_forward (json := accept_json)).
  - apply mem_run_wf, new_wf.
  - repeat constructor; cbn; auto.
  - reflexivity.
Defined.

Lemma claimed_lease_is_fenced_witness :
  let s := mem_run (json := accept_json)
    [OpTransition "a" Held 2000; OpRemove "a"; OpFinish "b"] claimed_state in
  "a" ∈ pending_cleanup_claims s ∧ records s !! "a" = records claimed_state !! "a".
Proof.
  apply (claimed_lease_is_fenced (json := accept_json)).
  - apply mem_run_wf, new_wf.
  - apply (bool_decide_unpack ("a" ∈ pending_cleanup_claims claimed_state)). vm_compute. exact I.
  - intros Hin. repeat (apply elem_of_cons in Hin as [Hin|Hin]; [discriminate Hin|]).
    by apply elem_of_nil in Hin.
Defined.

Lemma reservation_open_iff_active_witness :
  let s := mem_run (json := accept_json) sample_ops Mem.new in
  ∃ r, records s !! "a" = Some r ∧ (Some 3000 = None ↔ is_active r).
Proof.
  destruct (reservation_open_iff_active (json := accept_json) sample_ops Mem.new)
    with "a" (mkReservation 2 202611 6000 (Some 3000)) as (r & Hr & Hiff).
  - apply new_wf.
  - intros k res Hk. discriminate Hk.
  - repeat constructor.
  - vm_compute. reflexivity.
  - exists r. split; [exact Hr|exact Hiff].
Defined.

Lemma enumerations_exact_witness :
  sample_lease "a" ∈ Mem.by_tenant pending_state acme.
Proof.
  apply (enumerations_exact pending_state).
  - apply mem_run_wf, new_wf.
  - split; reflexivity.
Defined.

Lemma stale_sweep_completes_witness :
  pending_cleanup_claims (mem_run (json := accept_json)
    [OpClaimStale 9000 100; OpFinish "a"] claimed_state) = ∅.
Proof.
  destruct (stale_sweep_completes (json := accept_json) claimed_state 9000 100)
    as (_ & _ & Hc & _).
  - apply mem_run_wf, new_wf.
  - exact Hc.
Defined.
