(* ===== verification/Journal.v ===== *)
(** * The journal of the file ledger

    The on-disk side of [FileLedger] in [crates/corelink-fabric/src/ledger.rs]:
    the journal lines, the standard-library text functions [open] relies on
    (UTF-8 validity, [lines], [trim]), replay, and [open] itself with its torn
    tail tolerance.  The JSON codec of a line is serde_json's and enters as the
    class [JournalCodec] with the laws its documentation gives. *)
From S2P Require Import Prelude Tenant ComputeMeter Ledger.

(** ** Lines *)

(** [enum JournalLine]. *)
Inductive JournalLine : Type :=
| JRecord (rec : LeaseRecord)
| JTombstone (id : string)
| JPendingCleanupClaim (id : string)
| JCheckpoint (id checkpoint : string)
| JReservation (id : string) (reservation : LeaseReservation)
| JAccrual (t : TenantId) (period_key total : Z)
| JAdmitCommit (record : LeaseRecord) (reservation : LeaseReservation)
| JTerminalTransition (record : LeaseRecord) (accrual : option (TenantId * Z * Z))
    (reservation : option LeaseReservation).

(** The replay of one line ([match entry] in [open]). *)
Definition replay_line (index : InMemoryInner) (entry : JournalLine) : InMemoryInner :=
  match entry with
  | JRecord rec => with_records <[lease_id rec := rec]> index
  | JTombstone id =>
      with_reservations (delete id) (with_checkpoints (delete id)
        (with_claims (λ c, c ∖ {[id]}) (with_records (delete id) index)))
  | JPendingCleanupClaim id =>
      if Mem.is_pending_at index id then with_claims (λ c, {[id]} ∪ c) index else index
  | JCheckpoint id checkpoint => with_checkpoints <[id := checkpoint]> index
  | JReservation id reservation => with_reservations <[id := reservation]> index
  | JAccrual t p total => with_accruals <[(t, p) := total]> index
  | JAdmitCommit record reservation =>
      with_reservations <[lease_id record := reservation]>
        (with_records <[lease_id record := record]> index)
  | JTerminalTransition record accrual reservation =>
      let index := with_records <[lease_id record := record]> index in
      let index := match accrual with
                   | Some (t, p, total) => with_accruals <[(t, p) := total]> index
                   | None => index
                   end in
      match reservation with
      | Some res => with_reservations <[lease_id record := res]> index
      | None => index
      end
  end.

(** ** Text: the standard library functions on bytes *)

Definition LF : ascii := "010".
Definition CR : ascii := "013".
Definition byte (c : ascii) : Z := Z.of_N (N_of_ascii c).

Definition in_range (lo hi : Z) (c : ascii) : bool := (lo <=? byte c) && (byte c <=? hi).
Definition is_cont : ascii → bool := in_range 128 191.

(** [str::from_utf8], what [read_to_string] requires of the file's bytes: the
    well-formed byte sequences of the Unicode standard. *)
Fixpoint utf8_valid (s : string) : bool :=
  match s with
  | EmptyString => true
  | String a s1 =>
    if byte a <? 128 then utf8_valid s1
    else match s1 with
    | EmptyString => false
    | String b s2 =>
      if in_range 194 223 a then is_cont b && utf8_valid s2
      else match s2 with
      | EmptyString => false
      | String c s3 =>
        if byte a =? 224 then in_range 160 191 b && is_cont c && utf8_valid s3
        else if in_range 225 236 a || in_range 238 239 a
        then is_cont b && is_cont c && utf8_valid s3
        else if byte a =? 237 then in_range 128 159 b && is_cont c && utf8_valid s3
        else match s3 with
        | EmptyString => false
        | String d s4 =>
          if byte a =? 240 then in_range 144 191 b && is_cont c && is_cont d && utf8_valid s4
          else if in_range 241 243 a then is_cont b && is_cont c && is_cont d && utf8_valid s4
          else if byte a =? 244 then in_range 128 143 b && is_cont c && is_cont d && utf8_valid s4
          else false
        end
      end
    end
  end.

(** [str::lines]: each line with whether its terminator was there. *)
Fixpoint raw_lines (s : string) : list (string * bool) :=
  match s with
  | EmptyString => []
  | String c s =>
    if decide (c = LF) then (EmptyString, true) :: raw_lines s
    else match raw_lines s with
         | [] => [(String c EmptyString, false)]
         | (l, b) :: ls => (String c l, b) :: ls
         end
  end.

Fixpoint strip_cr (s : string) : string :=
  match s with
  | EmptyString => EmptyString
  | String c EmptyString => if decide (c = CR) then EmptyString else s
  | String c s => String c (strip_cr s)
  end.

Definition lines (s : string) : list string :=
  (λ lb : string * bool, if lb.2 then strip_cr lb.1 else lb.1) <$> raw_lines s.

(** [line.trim().is_empty()]: only characters with the White_Space property. *)
Fixpoint is_blank (s : string) : bool :=
  match s with
  | EmptyString => true
  | String a s1 =>
    if in_range 9 13 a || (byte a =? 32) then is_blank s1
    else match s1 with
    | EmptyString => false
    | String b s2 =>
      if (byte a =? 194) && ((byte b =? 133) || (byte b =? 160)) then is_blank s2
      else match s2 with
      | EmptyString => false
      | String c s3 =>
        if ((byte a =? 225) && (byte b =? 154) && (byte c =? 128))
           || ((byte a =? 226) && (byte b =? 128) &&
               (in_range 128 138 c || in_range 168 169 c || (byte c =? 175)))
           || ((byte a =? 226) && (byte b =? 129) && (byte c =? 159))
           || ((byte a =? 227) && (byte b =? 128) && (byte c =? 128))
        then is_blank s3 else false
      end
    end
  end.

(** [String::truncate] / [File::set_len] to a byte length within the file. *)
Fixpoint take_bytes (n : nat) (s : string) : string :=
  match n, s with
  | S n, String c s => String c (take_bytes n s)
  | _, _ => EmptyString
  end.

Fixpoint has_byte (c : ascii) (s : string) : bool :=
  match s with
  | EmptyString => false
  | String a s => bool_decide (a = c) || has_byte c s
  end.

(** ** Opening *)

(** [struct PhysLine]. *)
Record PhysLine : Type := mkPhys { lineno : nat; byte_start : nat; text : string }.

(** The loop over [raw.lines().enumerate()]: offsets assume a one-byte
    terminator; blank lines are skipped. *)
Fixpoint phys_lines (n offset : nat) (ls : list string) : list PhysLine :=
  match ls with
  | [] => []
  | line :: ls =>
    let rest := phys_lines (S n) (offset + String.length line + 1) ls in
    if is_blank line then rest else mkPhys (S n) offset line :: rest
  end.

(** serde_json's encoder and decoder of a line. *)
Class JournalCodec : Type := {
  to_string : JournalLine → string;
  from_str : string → option JournalLine;
}.

(** What serde_json's documentation gives of them: decoding inverts encoding; an
    encoded enum with a tag is one JSON object, so it starts with a brace and ends
    with one, control characters in it are escaped, it is a Rust string; a strict
    prefix of an object is an unexpected end of input, and a second object after
    the first is a trailing-characters error. *)
Class JournalCodecLaws (codec : JournalCodec) : Prop := {
  codec_roundtrip e : from_str (to_string e) = Some e;
  codec_object e : ∃ body, to_string e = "{" +:+ body +:+ "}";
  codec_escaped e : has_byte LF (to_string e) = false;
  codec_utf8 e : utf8_valid (to_string e) = true;
  codec_prefix e n : (n < String.length (to_string e))%nat →
    from_str (take_bytes n (to_string e)) = None;
  codec_trailing e1 e2 : from_str (to_string e1 +:+ to_string e2) = None;
}.

Section journal.
Context {codec : JournalCodec}.

(** The replay loop: an unparseable last line marks the truncation point, any
    other one refuses. *)
Fixpoint replay (index : InMemoryInner) (phys : list PhysLine)
  : result LedgerError (InMemoryInner * option nat) :=
  match phys with
  | [] => Ok (index, None)
  | pl :: rest =>
    match from_str (text pl) with
    | Some entry => replay (replay_line index entry) rest
    | None => match rest with
              | [] => Ok (index, Some (byte_start pl))
              | _ => Err (CorruptJournal (lineno pl))
              end
    end
  end.

(** The file system under the ledger answers each call or fails it. *)
Inductive io_outcome : Type :=
| IoOk
| WriteFails (written : nat)
| SyncFails.

Record FileInner : Type := mkFile {
  disk : string;
  faults : list io_outcome;
  index : InMemoryInner;
}.

Record OpenFaults : Type := mkOpenFaults {
  read_fails : bool;
  truncate_open_fails : bool;
  set_len_fails : bool;
  truncate_sync_fails : bool;
  append_open_fails : bool;
}.

Definition no_open_faults : OpenFaults := mkOpenFaults false false false false false.

(** The truncation of a torn tail. *)
Definition truncate_tail (f : OpenFaults) (len : nat) (raw : string) : string * result LedgerError unit :=
  if truncate_open_fails f || set_len_fails f then (raw, Err JournalIo)
  else if truncate_sync_fails f then (take_bytes len raw, Err JournalIo)
  else (take_bytes len raw, Ok ()).

(** [FileLedger::open] on the bytes at the path ([None]: no file), with the
    faults of the calls it makes and of the later appends.  Returns the bytes at
    the path afterwards and the ledger. *)
Definition open (f : OpenFaults) (later : list io_outcome) (path : option string)
  : option string * result LedgerError FileInner :=
  let '(path', r) :=
    match path with
    | None => (None, Ok Mem.new)
    | Some raw =>
      if read_fails f then (Some raw, Err JournalIo)
      else if negb (utf8_valid raw) then (Some raw, Err JournalNotUtf8)
      else match replay Mem.new (phys_lines 0 0 (lines raw)) with
           | Err e => (Some raw, Err e)
           | Ok (index, None) => (Some raw, Ok index)
           | Ok (index, Some len) =>
             let '(raw', r) := truncate_tail f len raw in
             (Some raw', r ≫= λ _, Ok index)
           end
    end in
  match r with
  | Err e => (path', Err e)
  | Ok index =>
    if append_open_fails f then (path', Err JournalIo)
    else let bytes := default EmptyString path' in
         (Some bytes, Ok (mkFile bytes later index))
  end.
End journal.

(** ** Facts about the text functions *)

Lemma take_bytes_app (a b : string) : take_bytes (String.length a) (a +:+ b) = a.
Proof.
  induction a as [|x a IH]; autorewrite with strings; [by destruct b|].
  cbn [take_bytes String.length]. by rewrite IH.
Qed.

Lemma take_bytes_past n (a b : string) :
  take_bytes (String.length a + n) (a +:+ b) = a +:+ take_bytes n b.
Proof.
  induction a as [|x a IH]; autorewrite with strings; [done|].
  cbn [take_bytes String.length Nat.add]. by rewrite IH.
Qed.

Lemma take_bytes_within n (a b : string) :
  (n ≤ String.length a)%nat → take_bytes n (a +:+ b) = take_bytes n a.
Proof.
  revert n. induction a as [|x a IH]; intros [|n] Hn; autorewrite with strings;
    cbn [take_bytes String.length] in *; try done; try lia.
  by rewrite IH by lia.
Qed.

Lemma take_bytes_all n s : (String.length s ≤ n)%nat → take_bytes n s = s.
Proof.
  revert n. induction s as [|x s IH]; intros [|n] Hn; cbn in *; try done; try lia.
  rewrite IH by lia. done.
Qed.

Lemma has_byte_take c n s : has_byte c s = false → has_byte c (take_bytes n s) = false.
Proof.
  revert n. induction s as [|x s IH]; intros [|n]; cbn; try done.
  intros [? ?]%orb_false_elim. apply orb_false_intro; auto.
Qed.

Lemma has_byte_app c a b : has_byte c (a +:+ b) = has_byte c a || has_byte c b.
Proof.
  induction a as [|x a IH]; autorewrite with strings; [done|].
  cbn [has_byte]. by rewrite IH, orb_assoc.
Qed.

(** One character of a valid string, with what is left of it. *)
Lemma utf8_valid_app a b : utf8_valid a = true → utf8_valid (a +:+ b) = utf8_valid b.
Proof.
  remember (String.length a) as n eqn:Hn. revert a Hn.
  induction n as [n IH] using lt_wf_ind. intros a -> Ha.
  assert (∀ x a' t, a = String x a' → (String.length t ≤ String.length a')%nat →
    utf8_valid t = true → utf8_valid (t +:+ b) = utf8_valid b) as IH'.
  { intros x a' t -> Hle Ht. eapply (IH (String.length t)); [cbn; lia|done|done]. }
  clear IH.
  destruct a as [|x a1]; [done|]. specialize (IH' x a1). autorewrite with strings.
  cbn [utf8_valid] in *. destruct (byte x <? 128); [by apply IH'|].
  destruct a1 as [|y a2]; [done|]. autorewrite with strings.
  destruct (in_range 194 223 x).
  { apply andb_prop in Ha as [-> Ha]. apply IH'; cbn; auto. }
  destruct a2 as [|z a3]; [done|]. autorewrite with strings.
  destruct (byte x =? 224); [|destruct (in_range 225 236 x || in_range 238 239 x);
    [|destruct (byte x =? 237)]];
    try (apply andb_prop in Ha as [Hb Ha]; rewrite Hb; apply IH'; cbn; auto).
  destruct a3 as [|w a4]; [done|]. autorewrite with strings.
  destruct (byte x =? 240); [|destruct (in_range 241 243 x); [|destruct (byte x =? 244)]];
    [..|done];
    apply andb_prop in Ha as [Hb Ha]; rewrite Hb; apply IH'; cbn; auto.
Qed.

Definition LFs : string := String LF EmptyString.

Lemma raw_lines_terminated l s :
  has_byte LF l = false → raw_lines (l +:+ LFs +:+ s) = (l, true) :: raw_lines s.
Proof.
  induction l as [|c l IH]; intros Hl; autorewrite with strings; [done|].
  cbn [has_byte raw_lines] in *. apply orb_false_elim in Hl as [Hc Hl].
  rewrite decide_False by (by case_bool_decide). by rewrite IH.
Qed.

Lemma raw_lines_open l :
  has_byte LF l = false → raw_lines l = if decide (l = EmptyString) then [] else [(l, false)].
Proof.
  induction l as [|c l IH]; intros Hl; [done|].
  cbn [has_byte raw_lines] in *. apply orb_false_elim in Hl as [Hc Hl].
  rewrite decide_False by (by case_bool_decide). rewrite IH by done. by destruct l.
Qed.

Lemma strip_cr_brace s : strip_cr (s +:+ "}") = s +:+ "}".
Proof.
  induction s as [|c s IH]; [done|]. autorewrite with strings. cbn [strip_cr].
  destruct (s +:+ "}") as [|d t] eqn:E; [|by rewrite IH].
  by destruct s.
Qed.

Lemma is_blank_brace s : is_blank ("{" +:+ s) = false.
Proof. by destruct s as [|? [|? ?]]. Qed.

Lemma is_blank_object t e : t = "{" +:+ e → is_blank t = false.
Proof. intros ->. apply is_blank_brace. Qed.

Section facts.
Context {codec : JournalCodec} {laws : JournalCodecLaws codec}.

(** The bytes of a journal of whole lines. *)
Fixpoint encode_all (es : list JournalLine) : string :=
  match es with
  | [] => EmptyString
  | e :: es => to_string e +:+ LFs +:+ encode_all es
  end.

Definition replay_all (es : list JournalLine) : InMemoryInner := foldl replay_line Mem.new es.

Lemma encode_all_app es1 es2 : encode_all (es1 ++ es2) = encode_all es1 +:+ encode_all es2.
Proof.
  induction es1 as [|e es1 IH]; [done|]. cbn [encode_all app].
  by rewrite IH, !string_app_assoc.
Qed.

Lemma encode_all_utf8 es t : utf8_valid (encode_all es +:+ t) = utf8_valid t.
Proof.
  induction es as [|e es IH]; [done|]. cbn [encode_all].
  rewrite !string_app_assoc, utf8_valid_app by apply codec_utf8.
  unfold LFs. autorewrite with strings. apply IH.
Qed.

Lemma to_string_blank e : is_blank (to_string e) = false.
Proof. destruct (codec_object e) as [body ->]. apply is_blank_brace. Qed.

Lemma to_string_strip_cr e : strip_cr (to_string e) = to_string e.
Proof.
  destruct (codec_object e) as [body ->]. rewrite <-string_app_assoc. apply strip_cr_brace.
Qed.

Lemma lines_encode_all es t : lines (encode_all es +:+ t) = (to_string <$> es) ++ lines t.
Proof.
  induction es as [|e es IH]; [done|]. cbn [encode_all]. unfold lines in *.
  rewrite !string_app_assoc, raw_lines_terminated by apply codec_escaped.
  rewrite !fmap_cons. cbn [fst snd]. rewrite to_string_strip_cr. cbn. by rewrite IH.
Qed.

Lemma replay_encode_all es index n offset ls :
  replay index (phys_lines n offset ((to_string <$> es) ++ ls)) =
  replay (foldl replay_line index es)
    (phys_lines (n + length es) (offset + String.length (encode_all es)) ls).
Proof.
  revert index n offset. induction es as [|e es IH]; intros index n offset.
  { cbn. by rewrite !Nat.add_0_r. }
  rewrite fmap_cons. cbn [app phys_lines encode_all]. rewrite to_string_blank.
  cbn [replay text]. rewrite codec_roundtrip, IH. cbn [foldl length].
  do 2 f_equal; [lia|]. rewrite !string_length_app. cbn. lia.
Qed.

(** Replay of a journal of whole lines with a tail. *)
Lemma replay_journal es t :
  replay Mem.new (phys_lines 0 0 (lines (encode_all es +:+ t))) =
  replay (replay_all es) (phys_lines (length es) (String.length (encode_all es)) (lines t)).
Proof. by rewrite lines_encode_all, replay_encode_all. Qed.

Lemma open_clean es later :
  open no_open_faults later (Some (encode_all es)) =
  (Some (encode_all es), Ok (mkFile (encode_all es) later (replay_all es))).
Proof.
  unfold open. cbn [read_fails no_open_faults].
  rewrite <-(string_app_nil_r (encode_all es)), encode_all_utf8, replay_journal.
  done.
Qed.

(** A strict prefix of a line's bytes after whole lines: the tail goes. *)
Lemma open_torn es e n later :
  (n < String.length (to_string e))%nat →
  utf8_valid (take_bytes n (to_string e)) = true →
  open no_open_faults later (Some (encode_all es +:+ take_bytes n (to_string e))) =
  (Some (encode_all es), Ok (mkFile (encode_all es) later (replay_all es))).
Proof.
  intros Hn Hutf. unfold open. cbn [read_fails no_open_faults].
  rewrite encode_all_utf8, Hutf, replay_journal. unfold lines.
  rewrite raw_lines_open by (apply has_byte_take, codec_escaped).
  case_decide as He.
  { rewrite He, string_app_nil_r. done. }
  cbn [negb fmap list_fmap snd fst phys_lines].
  assert (is_blank (take_bytes n (to_string e)) = false) as Hb.
  { destruct (codec_object e) as [body Hbody]. rewrite Hbody in *.
    destruct n as [|n]; [done|]. apply (is_blank_object _ (take_bytes n (body +:+ "}"))). done. }
  rewrite Hb. cbn [replay text]. rewrite codec_prefix by done.
  cbn [truncate_tail no_open_faults truncate_open_fails set_len_fails truncate_sync_fails
    orb byte_start].
  by rewrite take_bytes_app.
Qed.

(** A whole line whose terminator is missing is replayed, and left as it is. *)
Lemma open_unterminated es e later :
  open no_open_faults later (Some (encode_all es +:+ to_string e)) =
  (Some (encode_all es +:+ to_string e),
   Ok (mkFile (encode_all es +:+ to_string e) later (replay_all (es ++ [e])))).
Proof.
  unfold open. cbn [read_fails no_open_faults].
  rewrite encode_all_utf8, codec_utf8, replay_journal. unfold lines.
  rewrite raw_lines_open by apply codec_escaped.
  rewrite decide_False by (destruct (codec_object e) as [body ->]; done).
  cbn [negb fmap list_fmap snd fst phys_lines]. rewrite to_string_blank.
  cbn [replay text]. rewrite codec_roundtrip. cbn. unfold replay_all. by rewrite foldl_app.
Qed.
End facts.
