(* ===== verification/FileLedger.v ===== *)
(** * The file ledger

    Models [FileInner] of [crates/corelink-fabric/src/ledger.rs] and of its
    submodules: every operation validates against the in-memory index, appends
    one journal line and publishes to the index.  The file system under it may
    fail any append, with any prefix of the line on disk. *)
From S2P Require Import Prelude Tenant ComputeMeter Ledger LedgerSpec Journal.

Abbreviation FileM := (M FileInner LedgerError).

Definition with_index (g : InMemoryInner → InMemoryInner) (f : FileInner) : FileInner :=
  mkFile (disk f) (faults f) (g (index f)).

Definition get_index : FileM InMemoryInner := λ f, (f, Ok (index f)).
Definition set_index (g : InMemoryInner → InMemoryInner) : FileM unit := modify (with_index g).

(** A call on [self.index]. *)
Definition on_index {A} (m : MemM A) : FileM A := λ f,
  let '(s, r) := m (index f) in (mkFile (disk f) (faults f) s, r).

Module File.
Section ops.
Context {codec : JournalCodec} {json : SerdeJson}.

(** [fn append_line]: the write of the line and its terminator, then the
    [sync_all]; a failed write may leave any prefix, a failed sync all of it. *)
Definition append_line (entry : JournalLine) : FileM unit := λ f,
  let bytes := to_string entry +:+ LFs in
  match faults f with
  | [] => (mkFile (disk f +:+ bytes) [] (index f), Ok ())
  | IoOk :: fs => (mkFile (disk f +:+ bytes) fs (index f), Ok ())
  | WriteFails n :: fs => (mkFile (disk f +:+ take_bytes n bytes) fs (index f), Err JournalIo)
  | SyncFails :: fs => (mkFile (disk f +:+ bytes) fs (index f), Err JournalIo)
  end.

(** [fn append]. *)
Definition append (rec : LeaseRecord) : FileM unit := append_line (JRecord rec).

(** [fn put]. *)
Definition put (rec : LeaseRecord) : FileM unit :=
  s ← get_index;
  bail_if (bool_decide (is_Some (records s !! lease_id rec))) (AlreadyExists (lease_id rec));;
  append rec;;
  set_index (with_records <[lease_id rec := rec]>).

(** [fn transition]: applied to the index first, then journaled, as one line
    when it folded an accrual. *)
Definition transition (id : string) (to : RunnerState) (now_ms : Z) : FileM LeaseRecord :=
  s ← get_index;
  bail_if (bool_decide (id ∈ pending_cleanup_claims s)) (FencedByCleanup id);;
  p ← on_index (Mem.transition_capturing id to now_ms);
  (match p.2 with
   | Some event =>
     s ← get_index;
     append_line (JTerminalTransition p.1
       (Some (acc_tenant event, acc_period_key event, acc_new_total event))
       (reservations s !! acc_lease_id event))
   | None => append p.1
   end);;
  mret p.1.

(** [fn try_admit]. *)
Definition try_admit (rec : LeaseRecord) (max_concurrency : Z) : FileM bool :=
  s ← get_index;
  if bool_decide (as_u32 (Mem.active_count s (tenant rec)) < max_concurrency)
  then put rec;; mret true
  else mret false.

(** [fn try_admit_with_compute]: the record and its reservation in one line. *)
Definition try_admit_with_compute (rec : LeaseRecord) (max_concurrency : Z)
    (gate : option ComputeGate) : FileM AdmitOutcome :=
  let concurrency_only :=
    b ← try_admit rec max_concurrency; mret (Mem.concurrency_only_outcome b) in
  match gate with
  | None => concurrency_only
  | Some g =>
    if gate_ceiling_vcpu_ms g =? 0 then concurrency_only
    else
      s ← get_index;
      match Mem.admit_decision s rec max_concurrency g with
      | (LeaseAdmitted, Some res) =>
        bail_if (bool_decide (is_Some (records s !! lease_id rec))) (AlreadyExists (lease_id rec));;
        append_line (JAdmitCommit rec res);;
        set_index (with_records <[lease_id rec := rec]>);;
        set_index (with_reservations <[lease_id rec := res]>);;
        mret LeaseAdmitted
      | (outcome, _) => mret outcome
      end
  end.

(** [fn set_envelope_checkpoint]. *)
Definition set_envelope_checkpoint (id checkpoint : string) : FileM unit :=
  s ← get_index;
  bail_if (negb (bool_decide (is_Some (records s !! id)))) (NoLeaseToCheckpoint id);;
  append_line (JCheckpoint id checkpoint);;
  set_index (with_checkpoints <[id := checkpoint]>).

(** [fn remove]. *)
Definition remove (id : string) : FileM bool :=
  s ← get_index;
  bail_if (bool_decide (id ∈ pending_cleanup_claims s)) (FencedByCleanup id);;
  if negb (bool_decide (is_Some (records s !! id))) then mret false
  else
    bail_if (Mem.held_with_reservation s id) (HeldWithReservation id);;
    append_line (JTombstone id);;
    set_index (with_records (delete id));;
    set_index (with_checkpoints (delete id));;
    set_index (with_reservations (delete id));;
    mret true.

(** [fn remove_if_pending]. *)
Definition remove_if_pending (id : string) : FileM bool :=
  s ← get_index;
  if bool_decide (id ∈ pending_cleanup_claims s) then mret false
  else if Mem.is_pending_at s id then remove id else mret false.

(** [pending_cleanup.rs]: [FileInner::claim_pending_cleanup]. *)
Definition claim_pending_cleanup (id : string) (now_ms : Z) : FileM (option LeaseRecord) :=
  s ← get_index;
  match records s !! id with
  | None => mret None
  | Some record =>
    if negb (bool_decide (state record = Pending)) then mret None
    else
      (if negb (bool_decide (id ∈ pending_cleanup_claims s)) then
         append_line (JPendingCleanupClaim id);;
         set_index (with_claims (λ c, {[id]} ∪ c))
       else mret ());;
      mret (Some record)
  end.

(** The loop of [claim_stale_pending_cleanup]: one line per new claim, each
    published after its own fsync; the first failure ends it. *)
Fixpoint claim_rows (prior : gset string) (rows : list LeaseRecord) : FileM unit :=
  match rows with
  | [] => mret ()
  | row :: rows =>
    (if negb (bool_decide (lease_id row ∈ prior))
     then append_line (JPendingCleanupClaim (lease_id row)) else mret ());;
    set_index (with_claims (λ c, {[lease_id row]} ∪ c));;
    claim_rows prior rows
  end.

Definition claim_stale_pending_cleanup (now_ms max_age_ms : Z) : FileM (list LeaseRecord) :=
  s ← get_index;
  let rows := Mem.candidates s now_ms max_age_ms in
  claim_rows (pending_cleanup_claims s) rows;;
  mret rows.

(** [FileInner::finish_pending_cleanup]. *)
Definition finish_pending_cleanup (id : string) : FileM bool :=
  s ← get_index;
  if negb (bool_decide (id ∈ pending_cleanup_claims s)) || negb (Mem.is_pending_at s id)
  then mret false
  else
    append_line (JTombstone id);;
    set_index (with_records (delete id));;
    set_index (with_claims (λ c, c ∖ {[id]}));;
    set_index (with_checkpoints (delete id));;
    set_index (with_reservations (delete id));;
    mret true.

(** [provider_binding.rs]: [FileInner::bind_provider_ref]; an unchanged
    reference is not journaled again. *)
Definition bind_provider_ref (id provider_ref : string) : FileM LeaseRecord :=
  lift (validate_provider_ref provider_ref);;
  s ← get_index;
  bail_if (bool_decide (id ∈ pending_cleanup_claims s)) (FencedByCleanup id);;
  current ← lift (match records s !! id with Some r => Ok r | None => Err (UnknownLease id) end);
  updated ← lift (bind_ref current provider_ref);
  if bool_decide (box_ref updated = box_ref current) then mret updated
  else
    append_line (JRecord updated);;
    set_index (with_records <[id := updated]>);;
    mret updated.

(** Dispatch of a call to the file ledger. *)
Definition call (o : op) : FileM reply :=
  match o with
  | OpPut rec => fmap_M (λ _, RUnit) (put rec)
  | OpTransition id to now => fmap_M RRecord (transition id to now)
  | OpTryAdmit rec cap => fmap_M RBool (try_admit rec cap)
  | OpAdmit rec cap gate => fmap_M ROutcome (try_admit_with_compute rec cap gate)
  | OpCheckpoint id json => fmap_M (λ _, RUnit) (set_envelope_checkpoint id json)
  | OpRemove id => fmap_M RBool (remove id)
  | OpRemoveIfPending id => fmap_M RBool (remove_if_pending id)
  | OpClaim id now => fmap_M ROption (claim_pending_cleanup id now)
  | OpClaimStale now age => fmap_M RRows (claim_stale_pending_cleanup now age)
  | OpFinish id => fmap_M RBool (finish_pending_cleanup id)
  | OpBind id pref => fmap_M RRecord (bind_provider_ref id pref)
  end.

Definition exec (o : op) (f : FileInner) : FileInner := (call o f).1.
Definition run (os : list op) (f : FileInner) : FileInner := foldl (λ f o, exec o f) f os.
End ops.
End File.
