(* ===== verification/FileLedgerProofs.v ===== *)
(** * Correctness of the file ledger

    The file ledger refines the in-memory core call by call, its journal
    replays to its index, a crash at any byte of an append recovers to a state
    the interrupted call was allowed to reach, and a failed append publishes
    nothing, with the exception of [transition]. *)
From S2P Require Import Prelude Tenant ComputeMeter Ledger LedgerSpec LedgerSafety LedgerLifecycle Journal FileLedger.

Section proofs.
Context {codec : JournalCodec} {laws : JournalCodecLaws codec} {json : SerdeJson}.

(** ** One call without faults *)

(** What a fault-free call does: the result and the index of the in-memory
    core, and whole lines on disk that replay to that index, any number of the
    first of which replay to a state the call may reach. *)
Definition simulates (o : op) (f : FileInner) : Prop :=
  ∃ es,
    File.call o f =
      (mkFile (disk f +:+ encode_all es) [] (mem_exec o (index f)), (mem_call o (index f)).2) ∧
    foldl replay_line (index f) es = mem_exec o (index f) ∧
    ∀ es', es' `prefix_of` es → refines_step o (index f) (foldl replay_line (index f) es').

Section call.
Context {A : Type} (g : A → reply) (mf : FileM A) (mm : MemM A) (o : op) (f : FileInner).
Hypothesis file_call : File.call o f = fmap_M g mf f.
Hypothesis core_call : mem_call o (index f) = fmap_M g mm (index f).

Lemma simulates_quiet r :
  faults f = [] → mf f = (f, r) → mm (index f) = (index f, r) → simulates o f.
Proof.
  unfold simulates, mem_exec, fmap_M in *. run_M. intros Hf Hcall Hmem.
  rewrite core_call, file_call, Hmem, Hcall. exists []. split_and!.
  - destruct f as [d fs s]. cbn in *. subst. rewrite string_app_nil_r. by destruct r.
  - by destruct r.
  - intros es' ->%prefix_nil_inv. apply refines_none.
Qed.

Lemma simulates_line e r s' :
  ledger_wf (index f) →
  mf f = (mkFile (disk f +:+ (to_string e +:+ LFs)) [] s', Ok r) →
  mm (index f) = (s', Ok r) → replay_line (index f) e = s' → simulates o f.
Proof.
  intros Hwf Hcall Hmem Hrep. pose proof (mem_exec_refines o (index f) Hwf) as Href.
  unfold simulates, mem_exec, fmap_M in *. run_M.
  rewrite core_call, Hmem in Href. rewrite core_call, file_call, Hmem, Hcall.
  exists [e]. cbn [encode_all fst snd]. rewrite string_app_nil_r. split_and!; [done|done|].
  intros es' Hes'. destruct es' as [|e' es']; [apply refines_none|].
  apply prefix_cons_inv_1 in Hes' as Heq. apply prefix_cons_inv_2, prefix_nil_inv in Hes'.
  by subst.
Qed.
End call.

(** A call of the file ledger that appends nothing, or the line [e]. *)
Ltac by_quiet := eapply simulates_quiet; [reflexivity|reflexivity|done|..].
Ltac by_line l := eapply simulates_line with (e := l); [reflexivity|reflexivity|done|..].

Lemma append_line_ok e f :
  faults f = [] →
  File.append_line e f = (mkFile (disk f +:+ (to_string e +:+ LFs)) [] (index f), Ok ()).
Proof. intros Hf. unfold File.append_line. by rewrite Hf. Qed.

Lemma put_file_cases f rec :
  faults f = [] →
  (records (index f) !! lease_id rec = None ∧
   File.put rec f = (mkFile (disk f +:+ (to_string (JRecord rec) +:+ LFs)) []
                       (insert_lease rec (index f)), Ok ())) ∨
  (is_Some (records (index f) !! lease_id rec) ∧
   File.put rec f = (f, Err (AlreadyExists (lease_id rec)))).
Proof.
  intros Hf. unfold File.put, File.append. run_M. case_bool_decide as Hs; [by right|left].
  split; [by apply eq_None_not_Some|]. run_M. by rewrite append_line_ok.
Qed.

Lemma put_simulates f rec : ledger_wf (index f) → faults f = [] → simulates (OpPut rec) f.
Proof.
  intros Hwf Hf.
  destruct (put_file_cases f rec Hf) as [[Hn Hp]|[Hn Hp]],
    (put_cases rec (index f)) as [[Hn' Hp']|[Hn' Hp']];
    try (rewrite Hn in Hn'; by destruct Hn'); try (rewrite Hn' in Hn; by destruct Hn).
  - by by_line (JRecord rec).
  - by by_quiet.
Qed.

Lemma try_admit_file_cases f rec cap :
  faults f = [] →
  (File.try_admit rec cap f =
     (mkFile (disk f +:+ (to_string (JRecord rec) +:+ LFs)) [] (insert_lease rec (index f)), Ok true) ∧
   Mem.try_admit rec cap (index f) = (insert_lease rec (index f), Ok true)) ∨
  (∃ r, File.try_admit rec cap f = (f, r) ∧ Mem.try_admit rec cap (index f) = (index f, r)).
Proof.
  intros Hf. unfold File.try_admit, Mem.try_admit. run_M.
  case_bool_decide; [|right; eauto].
  destruct (put_file_cases f rec Hf) as [[Hn ->]|[Hn ->]],
    (put_cases rec (index f)) as [[Hn' ->]|[Hn' ->]];
    try (rewrite Hn in Hn'; by destruct Hn'); try (rewrite Hn' in Hn; by destruct Hn); eauto.
Qed.

Lemma try_admit_simulates f rec cap :
  ledger_wf (index f) → faults f = [] → simulates (OpTryAdmit rec cap) f.
Proof.
  intros Hwf Hf. destruct (try_admit_file_cases f rec cap Hf) as [[Hp Hp']|(r & Hp & Hp')].
  - by by_line (JRecord rec).
  - by by_quiet.
Qed.

Lemma concurrency_only_simulates f rec cap gate :
  ledger_wf (index f) → faults f = [] →
  match gate with Some g => gate_ceiling_vcpu_ms g =? 0 | None => true end = true →
  simulates (OpAdmit rec cap gate) f.
Proof.
  intros Hwf Hf Hg. set (out := λ b, ROutcome (Mem.concurrency_only_outcome b)).
  assert (File.call (OpAdmit rec cap gate) f = fmap_M out (File.try_admit rec cap) f ∧
    mem_call (OpAdmit rec cap gate) (index f) = fmap_M out (Mem.try_admit rec cap) (index f))
    as [Hc Hm].
  { unfold File.call, mem_call, fmap_M, File.try_admit_with_compute,
      Mem.try_admit_with_compute, Mem.concurrency_only_admit.
    destruct gate as [g|]; [rewrite Hg|]; run_M; split; repeat case_match; by simplify_eq. }
  destruct (try_admit_file_cases f rec cap Hf) as [[Hp Hp']|(r & Hp & Hp')].
  - by eapply (simulates_line _ _ _ _ _ Hc Hm (JRecord rec)).
  - by eapply (simulates_quiet _ _ _ _ _ Hc Hm).
Qed.

Lemma admit_simulates f rec cap gate :
  ledger_wf (index f) → faults f = [] → simulates (OpAdmit rec cap gate) f.
Proof.
  intros Hwf Hf.
  destruct (match gate with Some g => gate_ceiling_vcpu_ms g =? 0 | None => true end) eqn:Hz;
    [by apply concurrency_only_simulates|].
  destruct gate as [g|]; [|done].
  destruct (Mem.admit_decision (index f) rec cap g) as [out res] eqn:Hd.
  assert (match out, res with LeaseAdmitted, None => False | _, _ => True end) as Hshape.
  { revert Hd. unfold Mem.admit_decision. by repeat case_bool_decide; intros [= <- <-]. }
  destruct out, res as [r|]; try done;
    try (by_quiet; unfold File.try_admit_with_compute, Mem.try_admit_with_compute;
         rewrite Hz; run_M; by rewrite Hd).
  destruct (decide (is_Some (records (index f) !! lease_id rec))) as [Hs|Hn].
  - by_quiet;
      unfold File.try_admit_with_compute, Mem.try_admit_with_compute; rewrite Hz; run_M;
        rewrite Hd; unfold Mem.put; run_M; by rewrite bool_decide_true.
  - by_line (JAdmitCommit rec r); [| |reflexivity];
        unfold File.try_admit_with_compute, Mem.try_admit_with_compute; rewrite Hz; run_M;
        rewrite Hd; unfold Mem.put; run_M; rewrite bool_decide_false by done; run_M;
        by rewrite ?append_line_ok.
Qed.

(** The accrual of a terminal transition, with the event it reports. *)
Lemma accrue_cases id r to now s :
  to ≠ Held →
  (Mem.accrue_on_terminal id (tenant r) (created_at_ms r) to now s = (s, Ok None) ∧
   settle id r now s = s) ∨
  ∃ res total,
    reservations s !! id = Some res ∧
    settle id r now s =
      with_accruals <[(tenant r, accrual_period_key res) := total]>
        (with_reservations <[id := latch res now]> s) ∧
    Mem.accrue_on_terminal id (tenant r) (created_at_ms r) to now s =
      (settle id r now s, Ok (Some (mkAccrual id (tenant r) (accrual_period_key res) total))).
Proof.
  intros Hto. unfold Mem.accrue_on_terminal, settle.
  destruct to; [done|..]; run_M; destruct (reservations s !! id) as [res|]; eauto;
    destruct (accrued_at_ms res) eqn:Ha; eauto; right; by do 2 eexists.
Qed.

Lemma transition_simulates f id to now :
  ledger_wf (index f) → faults f = [] → simulates (OpTransition id to now) f.
Proof.
  intros Hwf Hf. destruct (decide (id ∈ pending_cleanup_claims (index f))) as [Hc|Hc].
  { by_quiet; unfold File.transition, Mem.transition; run_M; by rewrite bool_decide_true. }
  destruct (records (index f) !! id) as [r|] eqn:Hr.
  2:{ by_quiet; unfold File.transition, Mem.transition, on_index, Mem.transition_capturing;
      run_M; rewrite bool_decide_false by done; run_M; rewrite Hr; by destruct f. }
  destruct (apply_transition r to now) as [r'|e] eqn:Ha.
  2:{ by_quiet; unfold File.transition, Mem.transition, on_index, Mem.transition_capturing;
      run_M; rewrite bool_decide_false by done; run_M; rewrite Hr, Ha; by destruct f. }
  apply apply_transition_ok in Ha as Hr'. destruct Hr' as [Hl Hr'].
  assert (lease_id r' = id) as Hid by (rewrite Hr'; cbn; by apply (wf_keys _ Hwf)).
  assert (Mem.accrue_on_terminal id (tenant r) (created_at_ms r) to now
      (with_records <[id := r']> (index f)) = (with_records <[id := r']> (index f), Ok None) ∨
    ∃ res total s', reservations s' !! id = Some res ∧
      Mem.accrue_on_terminal id (tenant r) (created_at_ms r) to now
        (with_records <[id := r']> (index f)) =
        (s', Ok (Some (mkAccrual id (tenant r) (accrual_period_key res) total))) ∧
      replay_line (index f) (JTerminalTransition r'
        (Some (tenant r, accrual_period_key res, total)) (Some res)) = s') as Hcases.
  { destruct (decide (to = Held)) as [->|Hto]; [by left|].
    destruct (accrue_cases id r to now (with_records <[id := r']> (index f)) Hto)
      as [[-> _]|(res & total & Hres & Hset & ->)]; [by left|right].
    exists (latch res now), total, (settle id r now (with_records <[id := r']> (index f))).
    rewrite Hset. cbn. rewrite lookup_insert_eq, Hid. done. }
  destruct Hcases as [Hacc|(res & total & s' & Hres & Hacc & Hrep)].
  - by_line (JRecord r');
      unfold File.transition, Mem.transition, on_index, File.append; unfold Mem.transition_capturing; run_M;
      rewrite ?bool_decide_false by done; run_M; rewrite ?Hr, ?Ha, ?Hacc; cbn;
      by rewrite ?append_line_ok, ?Hid.
  - by_line (JTerminalTransition r' (Some (tenant r, accrual_period_key res, total)) (Some res)).
    + unfold File.transition, on_index, Mem.transition_capturing; run_M.
      rewrite bool_decide_false by done; run_M; rewrite Hr, Ha, Hacc; cbn.
      rewrite Hres. by rewrite append_line_ok.
    + unfold Mem.transition, Mem.transition_capturing; run_M.
      rewrite bool_decide_false by done; run_M; rewrite Hr, Ha, Hacc; done.
    + done.
Qed.

Lemma checkpoint_simulates f id js :
  ledger_wf (index f) → faults f = [] → simulates (OpCheckpoint id js) f.
Proof.
  intros Hwf Hf. destruct (decide (is_Some (records (index f) !! id))) as [Hs|Hn].
  - by_line (JCheckpoint id js); [..|reflexivity];
      unfold File.set_envelope_checkpoint, Mem.set_envelope_checkpoint; run_M;
      rewrite bool_decide_true by done; run_M; by rewrite ?append_line_ok.
  - by_quiet; unfold File.set_envelope_checkpoint, Mem.set_envelope_checkpoint; run_M;
      by rewrite bool_decide_false.
Qed.

Lemma difference_id_absent (c : gset string) id : id ∉ c → c ∖ {[id]} = c.
Proof. intros Hn. apply set_eq. set_solver. Qed.

(** The replay of a tombstone of an unclaimed lease is the removal. *)
Lemma replay_tombstone_drop s id :
  id ∉ pending_cleanup_claims s → replay_line s (JTombstone id) = drop_lease id s.
Proof.
  intros Hn. destruct s as [rs cs res acc cl]. unfold drop_lease, replay_line, with_records,
    with_reservations, with_checkpoints, with_claims. cbn in *. by rewrite difference_id_absent.
Qed.

Lemma drop_absent s id : ledger_wf s → records s !! id = None → drop_lease id s = s.
Proof.
  intros Hwf Hn.
  assert (reservations s !! id = None).
  { apply eq_None_not_Some. intros Hs%(wf_reservations s Hwf). rewrite Hn in Hs. by destruct Hs. }
  assert (checkpoints s !! id = None).
  { apply eq_None_not_Some. intros Hs%(wf_checkpoints s Hwf). rewrite Hn in Hs. by destruct Hs. }
  destruct s as [rs cs res acc cl]. unfold drop_lease, with_records,
    with_reservations, with_checkpoints. cbn in *. by rewrite !delete_id.
Qed.

Lemma remove_file_cases f id :
  ledger_wf (index f) → faults f = [] →
  ((id ∉ pending_cleanup_claims (index f)) ∧
   File.remove id f = (mkFile (disk f +:+ (to_string (JTombstone id) +:+ LFs)) []
                         (drop_lease id (index f)), Ok true) ∧
   Mem.remove id (index f) = (drop_lease id (index f), Ok true)) ∨
  (∃ r, File.remove id f = (f, r) ∧ Mem.remove id (index f) = (index f, r)).
Proof.
  intros Hwf Hf. unfold File.remove, Mem.remove. run_M.
  case_bool_decide as Hc; [right; eauto|]. run_M.
  case_bool_decide as Hs; cbn.
  - destruct (Mem.held_with_reservation (index f) id); run_M; [right; eauto|left].
    by rewrite append_line_ok.
  - right. assert (Mem.held_with_reservation (index f) id = false) as ->.
    { unfold Mem.held_with_reservation. apply eq_None_not_Some in Hs. by rewrite Hs. }
    run_M. eexists. split; [done|].
    change ((drop_lease id (index f), @Ok LedgerError bool false) = (index f, Ok false)).
    rewrite drop_absent; [done..|by apply eq_None_not_Some].
Qed.

Lemma remove_simulates f id :
  ledger_wf (index f) → faults f = [] →
  simulates (OpRemove id) f ∧ simulates (OpRemoveIfPending id) f.
Proof.
  intros Hwf Hf. destruct (remove_file_cases f id Hwf Hf) as [(Hc & Hp & Hp')|(r & Hp & Hp')].
  - split; [by_line (JTombstone id); [done|done|by apply replay_tombstone_drop]|].
    destruct (Mem.is_pending_at (index f) id) eqn:Hpend.
    + by_line (JTombstone id); [..|by apply replay_tombstone_drop];
        unfold File.remove_if_pending, Mem.remove_if_pending; run_M;
        rewrite bool_decide_false by done; by rewrite Hpend.
    + by_quiet; unfold File.remove_if_pending, Mem.remove_if_pending; run_M;
        rewrite bool_decide_false by done; by rewrite Hpend.
  - split; [by by_quiet|].
    destruct (decide (id ∈ pending_cleanup_claims (index f))) as [Hc|Hc].
    + by_quiet; unfold File.remove_if_pending, Mem.remove_if_pending; run_M;
        by rewrite bool_decide_true.
    + destruct (Mem.is_pending_at (index f) id) eqn:Hpend;
        by_quiet; unfold File.remove_if_pending, Mem.remove_if_pending; run_M;
        rewrite bool_decide_false by done; by rewrite Hpend.
Qed.

Lemma with_claims_absorb s id :
  id ∈ pending_cleanup_claims s → with_claims (λ c, {[id]} ∪ c) s = s.
Proof.
  intros Hin. destruct s as [rs cs res acc cl]. unfold with_claims. cbn in *.
  f_equal. apply set_eq. set_solver.
Qed.

Lemma claim_simulates f id now :
  ledger_wf (index f) → faults f = [] → simulates (OpClaim id now) f.
Proof.
  intros Hwf Hf. destruct (records (index f) !! id) as [r|] eqn:Hr.
  2:{ by_quiet; unfold File.claim_pending_cleanup, Mem.claim_pending_cleanup; run_M;
      by rewrite Hr. }
  destruct (decide (state r = Pending)) as [Hp|Hp].
  2:{ by_quiet; unfold File.claim_pending_cleanup, Mem.claim_pending_cleanup; run_M;
      rewrite Hr; by rewrite bool_decide_false. }
  destruct (decide (id ∈ pending_cleanup_claims (index f))) as [Hc|Hc].
  - by_quiet; unfold File.claim_pending_cleanup, Mem.claim_pending_cleanup; run_M; rewrite Hr.
    + rewrite !bool_decide_true by done. run_M. reflexivity.
    + rewrite bool_decide_true by done. run_M. by rewrite with_claims_absorb.
  - by_line (JPendingCleanupClaim id);
      unfold File.claim_pending_cleanup, Mem.claim_pending_cleanup; run_M; rewrite ?Hr.
    + rewrite bool_decide_true by done. rewrite bool_decide_false by done. run_M.
      by rewrite append_line_ok.
    + by rewrite bool_decide_true.
    + replace (Mem.is_pending_at (index f) id) with true; [done|].
      symmetry. apply is_pending_at_Some. eauto.
Qed.

Definition claim_line (row : LeaseRecord) : JournalLine := JPendingCleanupClaim (lease_id row).

Lemma replay_claim s id :
  Mem.is_pending_at s id = true →
  replay_line s (JPendingCleanupClaim id) = with_claims (λ c, {[id]} ∪ c) s.
Proof. intros Hp. cbn. by rewrite Hp. Qed.

Lemma claim_rows_ok rows prior f :
  faults f = [] → prior ⊆ pending_cleanup_claims (index f) →
  Forall (λ row, Mem.is_pending_at (index f) (lease_id row) = true) rows →
  let es := claim_line <$> filter (λ row, lease_id row ∉ prior) rows in
  let s' := with_claims (λ c, foldl (λ c row, {[lease_id row]} ∪ c) c rows) (index f) in
  File.claim_rows prior rows f = (mkFile (disk f +:+ encode_all es) [] s', Ok ()) ∧
  foldl replay_line (index f) es = s'.
Proof.
  revert f. induction rows as [|row rows IH]; intros f Hf Hprior Hrows; cbn zeta.
  { destruct f as [d fs [rs cs res acc cl]]. cbn in *. subst. by rewrite string_app_nil_r. }
  apply Forall_cons in Hrows as [Hrow Hrows]. rewrite filter_cons.
  set (s1 := with_claims (λ c, {[lease_id row]} ∪ c) (index f)).
  cbn [File.claim_rows foldl]. destruct (decide (lease_id row ∈ prior)) as [Hin|Hin].
  - rewrite decide_False by auto. rewrite bool_decide_true by done. run_M.
    assert (s1 = index f) as Hs1 by (apply with_claims_absorb; set_solver).
    assert (with_index (with_claims (λ c, {[lease_id row]} ∪ c)) f = f) as ->.
    { unfold with_index. unfold s1 in Hs1. rewrite Hs1. by destruct f. }
    destruct (IH f Hf Hprior Hrows) as [-> ->]. split; [f_equal; f_equal|]; unfold with_claims;
      f_equal; f_equal; unfold s1, with_claims in Hs1; destruct (index f); by simplify_eq/=.
  - rewrite decide_True by auto. rewrite bool_decide_false by done. run_M.
    rewrite append_line_ok by done. cbn.
    destruct (IH (mkFile (disk f +:+ to_string (claim_line row) +:+ LFs) [] s1)) as [IH1 IH2];
      try done; [set_solver|].
    cbn in IH1, IH2. cbn [encode_all foldl].
    rewrite Hrow. fold s1.
    change (with_index (with_claims (λ c, {[lease_id row]} ∪ c)) _)
      with (mkFile (disk f +:+ to_string (claim_line row) +:+ LFs) [] s1).
    rewrite IH1, IH2. split; [|done]. by rewrite !string_app_assoc.
Qed.

Lemma claims_refine_lines s now age es :
  Forall (λ e, ∃ id, e = JPendingCleanupClaim id ∧ Mem.is_pending_at s id = true) es →
  refines_step (OpClaimStale now age) s (foldl replay_line s es).
Proof.
  intros Hes.
  cut (∃ evs, Forall (op_allows (OpClaimStale now age)) evs ∧ steps evs s (foldl replay_line s es));
    [done|].
  revert s Hes. induction es as [|e es IH]; intros s Hes; [exists []; split; constructor|].
  apply Forall_cons in Hes as [(id & -> & Hp) Hes]. cbn [foldl]. rewrite replay_claim by done.
  destruct (IH (with_claims (λ c, {[id]} ∪ c) s)) as (evs & Hev & Hst); [done|].
  apply is_pending_at_Some in Hp as (r & Hr & Hp).
  exists (EvClaim id :: evs). split; [by constructor|]. eapply steps_cons; [|exact Hst].
  by eapply step_claim.
Qed.

Lemma candidates_pending_at s now age :
  ledger_wf s →
  Forall (λ row, Mem.is_pending_at s (lease_id row) = true) (Mem.candidates s now age).
Proof.
  intros Hwf. eapply Forall_impl; [by apply candidates_pending|]. intros row [Hr Hp].
  apply is_pending_at_Some. eauto.
Qed.

Lemma claim_stale_simulates f now age :
  ledger_wf (index f) → faults f = [] → simulates (OpClaimStale now age) f.
Proof.
  intros Hwf Hf.
  pose proof (candidates_pending_at (index f) now age Hwf) as Hrows.
  destruct (claim_rows_ok (Mem.candidates (index f) now age)
    (pending_cleanup_claims (index f)) f Hf ltac:(done) Hrows) as [Hc Hrep].
  eexists. split_and!.
  - unfold File.call, fmap_M, File.claim_stale_pending_cleanup. run_M. rewrite Hc. reflexivity.
  - exact Hrep.
  - intros es' [es'' Heq]. apply claims_refine_lines.
    assert (Forall (λ e, ∃ id, e = JPendingCleanupClaim id ∧ Mem.is_pending_at (index f) id = true)
      (claim_line <$> filter (λ row, lease_id row ∉ pending_cleanup_claims (index f))
        (Mem.candidates (index f) now age))) as Hall.
    { apply Forall_fmap, Forall_forall. intros row [_ Hin]%list_elem_of_filter. eexists.
      split; [done|]. by apply (proj1 (Forall_forall _ _) Hrows). }
    rewrite Heq in Hall. by apply Forall_app in Hall as [? _].
Qed.

Lemma finish_simulates f id :
  ledger_wf (index f) → faults f = [] → simulates (OpFinish id) f.
Proof.
  intros Hwf Hf. destruct (decide (id ∈ pending_cleanup_claims (index f))) as [Hc|Hc].
  2:{ by_quiet; unfold File.finish_pending_cleanup, Mem.finish_pending_cleanup; run_M;
      by rewrite bool_decide_false. }
  pose proof (wf_claims _ Hwf id Hc) as Hp.
  by_line (JTombstone id); [..|reflexivity];
    unfold File.finish_pending_cleanup, Mem.finish_pending_cleanup; run_M;
    rewrite bool_decide_true by done; rewrite Hp; run_M.
  - by rewrite append_line_ok.
  - apply is_pending_at_Some in Hp as (r & Hr & _). by rewrite Hr.
Qed.

Lemma bind_simulates f id pref :
  ledger_wf (index f) → faults f = [] → simulates (OpBind id pref) f.
Proof.
  intros Hwf Hf.
  destruct (validate_provider_ref pref) as [[]|e] eqn:Hv.
  2:{ by_quiet; unfold File.bind_provider_ref, Mem.bind_provider_ref; run_M; by rewrite Hv. }
  destruct (decide (id ∈ pending_cleanup_claims (index f))) as [Hc|Hc].
  { by_quiet; unfold File.bind_provider_ref, Mem.bind_provider_ref; run_M; rewrite Hv;
      by rewrite bool_decide_true. }
  destruct (records (index f) !! id) as [r|] eqn:Hr.
  2:{ by_quiet; unfold File.bind_provider_ref, Mem.bind_provider_ref; run_M; rewrite Hv;
      rewrite bool_decide_false by done; run_M; by rewrite Hr. }
  destruct (bind_ref r pref) as [r'|e] eqn:Hb.
  2:{ by_quiet; unfold File.bind_provider_ref, Mem.bind_provider_ref; run_M; rewrite Hv;
      rewrite bool_decide_false by done; run_M; rewrite Hr; by rewrite Hb. }
  apply bind_ref_ok in Hb as Hr'. destruct Hr' as (Hp & Hr' & _).
  destruct (decide (box_ref r' = box_ref r)) as [Hsame|Hdiff].
  - assert (r' = r) as -> by (subst r'; cbn in Hsame; rewrite Hsame; apply set_box_ref_same).
    by_quiet; unfold File.bind_provider_ref, Mem.bind_provider_ref; run_M; rewrite Hv;
      rewrite bool_decide_false by done; run_M; rewrite Hr; rewrite Hb.
    + by rewrite bool_decide_true.
    + destruct (index f) as [rs cs res acc cl]. unfold with_records. cbn in *.
      by rewrite insert_id.
  - by_line (JRecord r');
      unfold File.bind_provider_ref, Mem.bind_provider_ref; run_M; rewrite ?Hv;
      rewrite ?bool_decide_false by done; run_M; rewrite ?Hr; rewrite ?Hb; run_M.
    + rewrite bool_decide_false by done. run_M. by rewrite append_line_ok.
    + done.
    + cbn. subst r'. cbn. by rewrite (wf_keys _ Hwf id r Hr).
Qed.

(** Every fault-free call simulates the core. *)
Lemma file_simulates o f : ledger_wf (index f) → faults f = [] → simulates o f.
Proof.
  intros Hwf Hf. pose proof (remove_simulates f) as Hrm.
  destruct o; auto using put_simulates, transition_simulates, try_admit_simulates,
    admit_simulates, checkpoint_simulates, claim_simulates, claim_stale_simulates,
    finish_simulates, bind_simulates; by apply Hrm.
Qed.

(** ** Runs, restarts and crashes *)

(** The journal replays to the index. *)
Definition durable (f : FileInner) : Prop :=
  ∃ es, disk f = encode_all es ∧ replay_all es = index f.

Lemma exec_simulates o f :
  ledger_wf (index f) → faults f = [] →
  index (File.exec o f) = mem_exec o (index f) ∧ faults (File.exec o f) = [] ∧
  ledger_wf (index (File.exec o f)) ∧ (durable f → durable (File.exec o f)).
Proof.
  intros Hwf Hf. destruct (file_simulates o f Hwf Hf) as (es & Hcall & Hrep & _).
  unfold File.exec. rewrite Hcall. cbn. split_and!; try done.
  - by apply (mem_exec_invariant (λ _, True) (λ _, True)).
  - intros (es0 & Hd & Hr). exists (es0 ++ es). rewrite encode_all_app.
    unfold replay_all in *. cbn. rewrite foldl_app, Hd, Hr. done.
Qed.

Lemma run_simulates os f :
  ledger_wf (index f) → faults f = [] →
  index (File.run os f) = mem_run os (index f) ∧ faults (File.run os f) = [] ∧
  ledger_wf (index (File.run os f)) ∧ (durable f → durable (File.run os f)).
Proof.
  unfold File.run, mem_run. revert f. induction os as [|o os IH]; intros f Hwf Hf; [done|].
  cbn [foldl]. destruct (exec_simulates o f Hwf Hf) as (Hi & Hf' & Hwf' & Hd).
  destruct (IH _ Hwf' Hf') as (Hi2 & Hf2 & Hwf2 & Hd2). rewrite <-Hi. split_and!; auto.
Qed.

(** The answers of a run of calls. *)
Fixpoint file_replies (os : list op) (f : FileInner) : list (result LedgerError reply) :=
  match os with
  | [] => []
  | o :: os => (File.call o f).2 :: file_replies os (File.exec o f)
  end.

Fixpoint mem_replies (os : list op) (s : InMemoryInner) : list (result LedgerError reply) :=
  match os with
  | [] => []
  | o :: os => (mem_call o s).2 :: mem_replies os (mem_exec o s)
  end.

Lemma replies_simulate os f :
  ledger_wf (index f) → faults f = [] → file_replies os f = mem_replies os (index f).
Proof.
  revert f. induction os as [|o os IH]; intros f Hwf Hf; [done|]. cbn.
  destruct (exec_simulates o f Hwf Hf) as (Hi & Hf' & Hwf' & _).
  rewrite IH, Hi by done. f_equal.
  by destruct (file_simulates o f Hwf Hf) as (es & -> & _).
Qed.

(** A cut of encoded lines at any byte: whole lines and a part of the next. *)
Lemma cut_lines es m :
  ∃ es1 t, es1 `prefix_of` es ∧ take_bytes m (encode_all es) = encode_all es1 +:+ t ∧
    (t = EmptyString ∨
     ∃ e k, (k ≤ String.length (to_string e))%nat ∧ t = take_bytes k (to_string e) ∧
       (es1 ++ [e]) `prefix_of` es).
Proof.
  revert m. induction es as [|e es IH]; intros m.
  { exists [], EmptyString. split_and!; [done|by destruct m|by left]. }
  cbn [encode_all]. destruct (decide (m ≤ String.length (to_string e))%nat) as [Hm|Hm].
  - exists [], (take_bytes m (to_string e)). rewrite take_bytes_within by done.
    split_and!; [apply prefix_nil|done|]. right. exists e, m. split_and!; try done.
    apply prefix_cons, prefix_nil.
  - destruct (IH (m - String.length (to_string e) - 1)%nat) as (es1 & t & Hpre & Htake & Ht).
    exists (e :: es1), t. split_and!; [by apply prefix_cons| |].
    + cbn [encode_all].
      replace m with (String.length (to_string e) +
        (String.length LFs + (m - String.length (to_string e) - 1)))%nat at 1 by (cbn; lia).
      rewrite !take_bytes_past, Htake. by rewrite !string_app_assoc.
    + destruct Ht as [?|(e' & k & ? & ? & ?)]; [by left|right]. exists e', k.
      split_and!; try done. by apply prefix_cons.
Qed.

(** Opening after a cut: the whole lines, and at most the one that lost only
    its terminator, are replayed. *)
Lemma open_cut es0 es m later :
  utf8_valid (take_bytes m (encode_all es)) = true →
  ∃ es1 bytes, es1 `prefix_of` es ∧
    open no_open_faults later (Some (encode_all es0 +:+ take_bytes m (encode_all es))) =
      (Some bytes, Ok (mkFile bytes later (foldl replay_line (replay_all es0) es1))).
Proof.
  intros Hutf. destruct (cut_lines es m) as (es1 & t & Hpre & Htake & Ht).
  rewrite Htake in *. rewrite encode_all_utf8 in Hutf.
  rewrite <-string_app_assoc, <-encode_all_app.
  assert (∀ l, foldl replay_line (replay_all es0) l = replay_all (es0 ++ l)) as Hrep
    by (intros l; unfold replay_all; by rewrite foldl_app).
  destruct Ht as [->|(e & k & Hk & -> & Hpre')].
  - exists es1. eexists. split; [done|]. rewrite string_app_nil_r, Hrep. apply open_clean.
  - destruct (decide (k = String.length (to_string e))) as [->|Hne].
    + exists (es1 ++ [e]). eexists. split; [done|].
      rewrite take_bytes_all by done. rewrite Hrep, app_assoc. apply open_unterminated.
    + exists es1. eexists. split; [done|]. rewrite Hrep. apply open_torn; [lia|done].
Qed.
End proofs.
