(* ===== verification/FileLedgerTheorems.v ===== *)
(** * Theorems of the file ledger

    Refinement, restart, crash and fault theorems, a concrete line codec that
    satisfies the laws, and the two places where the journal and the
    acknowledged state part. *)
From S2P Require Import Prelude Tenant ComputeMeter Ledger LedgerSpec LedgerSafety LedgerLifecycle Journal FileLedger FileLedgerProofs.

(** ** What is published was written *)
Section published.
Context {codec : JournalCodec} {laws : JournalCodecLaws codec} {json : SerdeJson}.

(** The index after a call is the replay of whole lines the call put on disk;
    what else it left there is an unfinished line of a call that failed. *)
Definition published {A} (f : FileInner) (m : FileM A) : Prop :=
  ∃ es tail,
    disk (m f).1 = disk f +:+ encode_all es +:+ tail ∧
    index (m f).1 = foldl replay_line (index f) es ∧
    ((m f).2 ≠ Err JournalIo → tail = EmptyString).

Lemma append_line_cases e f :
  (∃ fs, File.append_line e f =
     (mkFile (disk f +:+ (to_string e +:+ LFs)) fs (index f), Ok ())) ∨
  (∃ fs t, File.append_line e f = (mkFile (disk f +:+ t) fs (index f), Err JournalIo)).
Proof. unfold File.append_line. destruct (faults f) as [|[]]; eauto. Qed.

Lemma published_quiet {A} (f : FileInner) (m : FileM A) r : m f = (f, r) → published f m.
Proof.
  intros Hm. exists [], EmptyString. rewrite Hm. cbn.
  by rewrite !string_app_nil_r.
Qed.

(** A call that appends one line and then publishes its replay. *)
Lemma published_line {A} (f : FileInner) (m : FileM A) e g a :
  m f = (File.append_line e;; set_index g;; mret a) f →
  g (index f) = replay_line (index f) e → published f m.
Proof.
  intros Hm Hg. unfold published. rewrite Hm. run_M.
  destruct (append_line_cases e f) as [(fs & ->)|(fs & t & ->)]; cbn.
  - exists [e], EmptyString. cbn [encode_all foldl]. by rewrite !string_app_nil_r.
  - exists [], t. by rewrite string_app_nil_l.
Qed.

Lemma published_fmap {A B} (f : FileInner) (m : FileM A) (g : A → B) :
  published f m → published f (fmap_M g m).
Proof.
  intros (es & tail & Hd & Hi & Ht). exists es, tail. unfold fmap_M. run_M.
  destruct (m f) as [f' [a|e]]; cbn in *; split_and!; try done.
  - intros _. by apply Ht.
  - intros Hne. apply Ht. congruence.
Qed.

Lemma put_published f rec : published f (File.put rec).
Proof.
  destruct (decide (is_Some (records (index f) !! lease_id rec))) as [Hs|Hn].
  - eapply published_quiet. unfold File.put. run_M. by rewrite bool_decide_true.
  - apply (published_line f _ (JRecord rec) (with_records <[lease_id rec := rec]>) ()); [|done].
    unfold File.put, File.append. run_M. by rewrite bool_decide_false.
Qed.

Lemma try_admit_published f rec cap : published f (File.try_admit rec cap).
Proof.
  destruct (decide (as_u32 (Mem.active_count (index f) (tenant rec)) < cap)) as [Hc|Hc].
  - destruct (published_fmap f _ (λ _ : unit, true) (put_published f rec)) as (es & t & H).
    exists es, t. unfold File.try_admit, fmap_M in *. run_M. by rewrite bool_decide_true.
  - eapply published_quiet. unfold File.try_admit. run_M. by rewrite bool_decide_false.
Qed.

Lemma admit_published f rec cap gate : published f (File.try_admit_with_compute rec cap gate).
Proof.
  pose proof (published_fmap f _ Mem.concurrency_only_outcome (try_admit_published f rec cap)) as Hc.
  unfold File.try_admit_with_compute. destruct gate as [g|]; [|exact Hc].
  destruct (gate_ceiling_vcpu_ms g =? 0); [exact Hc|clear Hc].
  destruct (Mem.admit_decision (index f) rec cap g) as [out res] eqn:Hd.
  destruct out, res as [r|]; try (eapply published_quiet; run_M; by rewrite Hd).
  destruct (decide (is_Some (records (index f) !! lease_id rec))) as [Hs|Hn].
  - eapply published_quiet. run_M. rewrite Hd. by rewrite bool_decide_true.
  - apply (published_line f _ (JAdmitCommit rec r)
      (λ s, replay_line s (JAdmitCommit rec r)) LeaseAdmitted); [|done].
    run_M. rewrite Hd. by rewrite bool_decide_false.
Qed.

Lemma checkpoint_published f id js : published f (File.set_envelope_checkpoint id js).
Proof.
  destruct (decide (is_Some (records (index f) !! id))) as [Hs|Hn].
  - apply (published_line f _ (JCheckpoint id js) (with_checkpoints <[id := js]>) ()); [|done].
    unfold File.set_envelope_checkpoint. run_M. by rewrite bool_decide_true.
  - eapply published_quiet. unfold File.set_envelope_checkpoint. run_M.
    by rewrite bool_decide_false.
Qed.

Lemma remove_published f id : published f (File.remove id).
Proof.
  destruct (decide (id ∈ pending_cleanup_claims (index f))) as [Hc|Hc].
  { eapply published_quiet. unfold File.remove. run_M. by rewrite bool_decide_true. }
  destruct (decide (is_Some (records (index f) !! id))) as [Hs|Hn].
  2:{ eapply published_quiet. unfold File.remove. run_M. rewrite bool_decide_false by done.
      run_M. by rewrite bool_decide_false. }
  destruct (Mem.held_with_reservation (index f) id) eqn:Hh.
  - eapply published_quiet. unfold File.remove. run_M. rewrite bool_decide_false by done.
    run_M. rewrite bool_decide_true by done. by rewrite Hh.
  - apply (published_line f _ (JTombstone id) (drop_lease id) true);
      [|by rewrite replay_tombstone_drop].
    unfold File.remove. run_M. rewrite bool_decide_false by done.
    run_M. rewrite bool_decide_true by done. by rewrite Hh.
Qed.

Lemma remove_if_pending_published f id : published f (File.remove_if_pending id).
Proof.
  destruct (remove_published f id) as (es & t & H).
  destruct (decide (id ∈ pending_cleanup_claims (index f))) as [Hc|Hc].
  { eapply published_quiet. unfold File.remove_if_pending. run_M. by rewrite bool_decide_true. }
  destruct (Mem.is_pending_at (index f) id) eqn:Hp.
  - exists es, t. unfold File.remove_if_pending. run_M. rewrite bool_decide_false by done.
    by rewrite Hp.
  - eapply published_quiet. unfold File.remove_if_pending. run_M.
    rewrite bool_decide_false by done. by rewrite Hp.
Qed.

Lemma claim_published f id now :
  published f (File.claim_pending_cleanup id now).
Proof.
  destruct (records (index f) !! id) as [r|] eqn:Hr.
  2:{ eapply published_quiet. unfold File.claim_pending_cleanup. run_M. by rewrite Hr. }
  destruct (decide (state r = Pending)) as [Hp|Hp].
  2:{ eapply published_quiet. unfold File.claim_pending_cleanup. run_M. rewrite Hr.
      by rewrite bool_decide_false. }
  destruct (decide (id ∈ pending_cleanup_claims (index f))) as [Hc|Hc].
  - eapply published_quiet. unfold File.claim_pending_cleanup. run_M. rewrite Hr.
    by rewrite !bool_decide_true.
  - apply (published_line f _ (JPendingCleanupClaim id) (with_claims (λ c, {[id]} ∪ c)) (Some r)).
    + unfold File.claim_pending_cleanup. run_M. rewrite Hr.
      rewrite bool_decide_true by done. rewrite bool_decide_false by done. run_M.
      by destruct (append_line_cases (JPendingCleanupClaim id) f) as [(fs & ->)|(fs & t & ->)].
    + rewrite replay_claim; [done|]. apply is_pending_at_Some. eauto.
Qed.

Lemma claim_rows_published rows prior f :
  prior ⊆ pending_cleanup_claims (index f) →
  Forall (λ row, Mem.is_pending_at (index f) (lease_id row) = true) rows →
  published f (File.claim_rows prior rows).
Proof.
  revert f. induction rows as [|row rows IH]; intros f Hprior Hrows;
    [by eapply published_quiet|].
  apply Forall_cons in Hrows as [Hrow Hrows]. unfold published. cbn [File.claim_rows].
  set (s1 := with_claims (λ c, {[lease_id row]} ∪ c) (index f)).
  destruct (decide (lease_id row ∈ prior)) as [Hin|Hin].
  - rewrite bool_decide_true by done. run_M.
    replace (with_index (with_claims (λ c, {[lease_id row]} ∪ c)) f) with f; [by apply IH|].
    unfold with_index. rewrite with_claims_absorb by set_solver. by destruct f.
  - rewrite bool_decide_false by done. run_M.
    destruct (append_line_cases (JPendingCleanupClaim (lease_id row)) f)
      as [(fs & ->)|(fs & t & ->)]; cbn.
    + destruct (IH (mkFile (disk f +:+ (to_string (claim_line row) +:+ LFs)) fs s1))
        as (es & t & Hd & Hi & Ht); [cbn; set_solver|done|].
      exists (claim_line row :: es), t. cbn in Hd, Hi, Ht. cbn [encode_all foldl].
      unfold claim_line at 2. rewrite replay_claim by done. fold s1.
      split_and!; [|exact Hi|exact Ht].
      etrans; [exact Hd|]. by rewrite !string_app_assoc.
    + exists [], t. by rewrite string_app_nil_l.
Qed.

Lemma claim_stale_published f now age :
  ledger_wf (index f) → published f (File.claim_stale_pending_cleanup now age).
Proof.
  intros Hwf. destruct (published_fmap f _ (λ _ : unit, Mem.candidates (index f) now age)
    (claim_rows_published (Mem.candidates (index f) now age)
      (pending_cleanup_claims (index f)) f ltac:(done)
      (candidates_pending_at (index f) now age Hwf))) as (es & t & H).
  by exists es, t.
Qed.

Lemma finish_published f id :
  ledger_wf (index f) → published f (File.finish_pending_cleanup id).
Proof.
  intros Hwf. destruct (decide (id ∈ pending_cleanup_claims (index f))) as [Hc|Hc].
  2:{ eapply published_quiet. unfold File.finish_pending_cleanup. run_M.
      by rewrite bool_decide_false. }
  apply (published_line f _ (JTombstone id) (λ s, replay_line s (JTombstone id)) true); [|done].
  unfold File.finish_pending_cleanup. run_M. rewrite bool_decide_true by done.
  by rewrite (wf_claims _ Hwf id Hc).
Qed.

Lemma bind_published f id pref :
  ledger_wf (index f) → published f (File.bind_provider_ref id pref).
Proof.
  intros Hwf. destruct (validate_provider_ref pref) as [[]|e] eqn:Hv.
  2:{ eapply published_quiet. unfold File.bind_provider_ref. run_M. by rewrite Hv. }
  destruct (decide (id ∈ pending_cleanup_claims (index f))) as [Hc|Hc].
  { eapply published_quiet. unfold File.bind_provider_ref. run_M. rewrite Hv.
    by rewrite bool_decide_true. }
  destruct (records (index f) !! id) as [r|] eqn:Hr.
  2:{ eapply published_quiet. unfold File.bind_provider_ref. run_M. rewrite Hv.
      rewrite bool_decide_false by done. run_M. by rewrite Hr. }
  destruct (bind_ref r pref) as [r'|e] eqn:Hb.
  2:{ eapply published_quiet. unfold File.bind_provider_ref. run_M. rewrite Hv.
      rewrite bool_decide_false by done. run_M. rewrite Hr. by rewrite Hb. }
  apply bind_ref_ok in Hb as Hr'. destruct Hr' as (_ & Hr' & _).
  destruct (decide (box_ref r' = box_ref r)) as [Hsame|Hdiff].
  - eapply published_quiet. unfold File.bind_provider_ref. run_M. rewrite Hv.
    rewrite bool_decide_false by done. run_M. rewrite Hr, Hb. by rewrite bool_decide_true.
  - apply (published_line f _ (JRecord r') (with_records <[id := r']>) r').
    + unfold File.bind_provider_ref. run_M. rewrite Hv. rewrite bool_decide_false by done.
      run_M. rewrite Hr, Hb. by rewrite bool_decide_false.
    + cbn. rewrite Hr'. cbn. by rewrite (wf_keys _ Hwf id r Hr).
Qed.
End published.

(** ** The theorems *)
Section theorems.
Context {codec : JournalCodec} {laws : JournalCodecLaws codec} {json : SerdeJson}.

(** C20: The file ledger refines the in-memory core.  On the same sequence of
    calls without file system faults, the file ledger gives exactly the answers
    of the in-memory core, errors included, and its index goes through exactly
    the core's states. *)
Theorem file_refines_mem os f :
  ledger_wf (index f) → faults f = [] →
  file_replies os f = mem_replies os (index f) ∧
  index (File.run os f) = mem_run os (index f).
Proof.
  intros Hwf Hf. split; [by apply replies_simulate|].
  by destruct (run_simulates os f Hwf Hf).
Qed.

(** Nothing acknowledged is lost by a restart.  After any sequence of calls
    without faults, opening the journal again succeeds, leaves its bytes as they
    are and restores exactly the index the ledger had. *)
Theorem restart_restores_index os f later :
  ledger_wf (index f) → faults f = [] → durable f →
  let f' := File.run os f in
  open no_open_faults later (Some (disk f')) =
    (Some (disk f'), Ok (mkFile (disk f') later (index f'))).
Proof.
  intros Hwf Hf Hd f'. destruct (run_simulates os f Hwf Hf) as (_ & _ & _ & Hd').
  destruct (Hd' Hd) as (es & Hdisk & Hrep). unfold f'. rewrite Hdisk, <-Hrep. apply open_clean.
Qed.

(** A crash at any byte of an append is recovered.  Cut the journal at any
    byte written by the last call, at a character boundary: opening it succeeds,
    and the state it restores is the one before the call or one the interrupted
    call is allowed to reach, never a mixture. *)
Theorem crash_mid_append_recovers o f n later :
  ledger_wf (index f) → faults f = [] → durable f →
  let f' := File.exec o f in
  let torn := take_bytes (String.length (disk f) + n) (disk f') in
  utf8_valid torn = true →
  ∃ f'', open no_open_faults later (Some torn) = (Some (disk f''), Ok f'') ∧
         refines_step o (index f) (index f'').
Proof.
  intros Hwf Hf (es0 & Hdisk & Hrep) f' torn Hutf.
  destruct (file_simulates o f Hwf Hf) as (es & Hcall & _ & Href).
  assert (torn = encode_all es0 +:+ take_bytes n (encode_all es)) as Htorn.
  { unfold torn, f', File.exec. rewrite Hcall. cbn [disk fst].
    rewrite take_bytes_past. by rewrite Hdisk. }
  rewrite Htorn, encode_all_utf8 in Hutf. rewrite Htorn.
  destruct (open_cut es0 es n later Hutf) as (es1 & bytes & Hpre & Hopen).
  exists (mkFile bytes later (foldl replay_line (replay_all es0) es1)).
  split; [exact Hopen|]. cbn. rewrite Hrep. by apply Href.
Qed.

(** Corruption in the middle refuses to open.  A line that is not valid
    journal text and is followed by a whole line makes [open] fail with its line
    number, and the file is left as it is. *)
Theorem corrupt_middle_refuses es1 bad e es2 later :
  from_str bad = None → has_byte LF bad = false → utf8_valid bad = true →
  is_blank bad = false → strip_cr bad = bad →
  let bytes := encode_all es1 +:+ bad +:+ LFs +:+ encode_all (e :: es2) in
  open no_open_faults later (Some bytes) =
    (Some bytes, Err (CorruptJournal (S (length es1)))).
Proof.
  intros Hbad Hlf Hutf Hblank Hcr bytes. unfold open, bytes. cbn [read_fails no_open_faults].
  rewrite encode_all_utf8, (utf8_valid_app bad) by done.
  assert (utf8_valid (LFs +:+ encode_all (e :: es2)) = true) as ->.
  { rewrite (utf8_valid_app LFs) by done.
    rewrite <-(string_app_nil_r (encode_all _)). by rewrite encode_all_utf8. }
  rewrite replay_journal. unfold lines at 1. rewrite raw_lines_terminated by done.
  rewrite fmap_cons. cbn [negb fst snd phys_lines]. rewrite Hcr, Hblank. cbn [replay text].
  rewrite Hbad. fold (lines (encode_all (e :: es2))).
  rewrite <-(string_app_nil_r (encode_all (e :: es2))), lines_encode_all, fmap_cons.
  cbn [app phys_lines]. by rewrite to_string_blank.
Qed.

(** Nothing is published before it is written.  Whatever the file system
    does, after any call other than a transition the index is the replay of
    whole lines that call put on disk; an unfinished line is left only by a call
    that reports the failure. *)
Theorem publish_after_write o f :
  ledger_wf (index f) → (∀ id to now, o ≠ OpTransition id to now) →
  ∃ es tail,
    disk (File.exec o f) = disk f +:+ encode_all es +:+ tail ∧
    index (File.exec o f) = foldl replay_line (index f) es ∧
    ((File.call o f).2 ≠ Err JournalIo → tail = EmptyString).
Proof.
  intros Hwf Ho. assert (published f (File.call o)) as Hp; [|exact Hp].
  destruct o; try (by destruct (Ho id to now)); unfold File.call; apply published_fmap;
    auto using put_published, try_admit_published, admit_published, checkpoint_published,
      remove_published, remove_if_pending_published, claim_published, claim_stale_published,
      finish_published, bind_published.
Qed.

(** A transition is published before it is journaled.  When the append of a
    transition fails, the call reports an error, yet the ledger goes on with the
    transitioned record while the journal still holds the old state: the index
    is the one a successful call leaves and a restart goes back behind it. *)
Theorem failed_transition_is_published id to now f fs :
  ledger_wf (index f) → durable f → faults f = WriteFails 0 :: fs →
  (∃ r, mem_call (OpTransition id to now) (index f) = (mem_exec (OpTransition id to now) (index f), Ok r)) →
  let f' := File.exec (OpTransition id to now) f in
  (File.call (OpTransition id to now) f).2 = Err JournalIo ∧
  index f' = mem_exec (OpTransition id to now) (index f) ∧
  open no_open_faults [] (Some (disk f')) = (Some (disk f), Ok (mkFile (disk f) [] (index f))).
Proof.
  intros Hwf (es & Hdisk & Hrep) Hf (r & Hmem) f'.
  assert (∀ e g, faults g = WriteFails 0 :: fs →
    File.append_line e g = (mkFile (disk g) fs (index g), Err JournalIo)) as Happ.
  { intros e g Hg. unfold File.append_line. rewrite Hg. cbn [take_bytes].
    by rewrite (string_app_nil_r (disk g)). }
  assert (File.call (OpTransition id to now) f =
    (mkFile (disk f) fs (mem_exec (OpTransition id to now) (index f)), Err JournalIo)) as Hcall.
  { unfold mem_exec in *. unfold mem_call, fmap_M, Mem.transition in Hmem.
    unfold mem_call, File.call, fmap_M, File.transition, Mem.transition, on_index, File.append.
    run_M. case_bool_decide; [done|]. run_M.
    destruct (Mem.transition_capturing id to now (index f)) as [s' [[u [ev|]]|]]; [..|done];
      cbn; by rewrite Happ. }
  unfold f', File.exec. rewrite Hcall. cbn. split_and!; [done|done|].
  rewrite Hdisk, <-Hrep. apply open_clean.
Qed.

(** A record that lost only its terminator swallows the next append.  A
    crash after the bytes of a line and before its newline leaves a journal that
    opens with that line applied; the next append then succeeds and is
    acknowledged, but shares the line, and the restart after it drops both. *)
Theorem unterminated_line_loses_next_append es e1 e2 :
  ∃ f1 f2,
    open no_open_faults [] (Some (encode_all es +:+ to_string e1)) = (Some (disk f1), Ok f1) ∧
    index f1 = replay_all (es ++ [e1]) ∧
    File.append_line e2 f1 = (f2, Ok ()) ∧
    open no_open_faults [] (Some (disk f2)) =
      (Some (encode_all es), Ok (mkFile (encode_all es) [] (replay_all es))).
Proof.
  exists (mkFile (encode_all es +:+ to_string e1) [] (replay_all (es ++ [e1]))).
  eexists. split_and!; [apply open_unterminated|done|by apply append_line_ok|].
  cbn [disk]. unfold open. cbn [read_fails no_open_faults].
  rewrite !string_app_assoc, encode_all_utf8.
  rewrite !(utf8_valid_app (to_string _)) by apply codec_utf8.
  change (utf8_valid LFs) with true. rewrite replay_journal.
  assert (lines (to_string e1 +:+ to_string e2 +:+ LFs) = [to_string e1 +:+ to_string e2]) as ->.
  { rewrite <-(string_app_nil_r LFs), <-string_app_assoc. unfold lines.
    rewrite raw_lines_terminated by (by rewrite has_byte_app, !codec_escaped).
    cbn. destruct (codec_object e2) as [body ->].
    by rewrite <-!string_app_assoc, strip_cr_brace. }
  cbn [phys_lines]. destruct (codec_object e1) as [body Hbody].
  rewrite (is_blank_object _ ((body +:+ "}") +:+ to_string e2))
    by (by rewrite Hbody, !string_app_assoc).
  cbn [replay text]. rewrite codec_trailing. cbn. by rewrite take_bytes_app.
Qed.
End theorems.

(** ** A codec that satisfies the laws *)

#[export] Instance RunnerState_countable : Countable RunnerState.
Proof.
  apply (inj_countable'
    (λ w, match w with Held => 0 | Expired => 1 | Crashed => 2 | Released => 3 end)%nat
    (λ n, match n with 0 => Held | 1 => Expired | 2 => Crashed | _ => Released end)%nat).
  by intros [].
Defined.

#[export] Instance LeaseState_countable : Countable LeaseState.
Proof.
  apply (inj_countable'
    (λ st, match st with Pending => None | Wire w => Some w end)
    (λ o, match o with None => Pending | Some w => Wire w end)).
  by intros [].
Defined.

#[export] Instance LeaseRecord_countable : Countable LeaseRecord.
Proof.
  apply (inj_countable'
    (λ r, (lease_id r, tenant r, state r, box_ref r, created_at_ms r, updated_at_ms r,
           deadline_ms r, billing_acquired_at_ms r))
    (λ '(a, b, c, d, e, f, g, h), mkLease a b c d e f g h)).
  by intros [].
Defined.

#[export] Instance LeaseReservation_countable : Countable LeaseReservation.
Proof.
  apply (inj_countable'
    (λ r, (box_vcpu_count r, accrual_period_key r, reserved_vcpu_ms r, accrued_at_ms r))
    (λ '(a, b, c, d), mkReservation a b c d)).
  by intros [].
Defined.

#[export] Instance JournalLine_eq_dec : EqDecision JournalLine.
Proof. solve_decision. Defined.

#[export] Instance JournalLine_countable : Countable JournalLine.
Proof.
  apply (inj_countable'
    (λ l, match l with
          | JRecord r => inl (inl (inl r))
          | JTombstone id => inl (inl (inr id))
          | JPendingCleanupClaim id => inl (inr (inl id))
          | JCheckpoint id c => inl (inr (inr (id, c)))
          | JReservation id r => inr (inl (inl (id, r)))
          | JAccrual t p n => inr (inl (inr (t, p, n)))
          | JAdmitCommit r res => inr (inr (inl (r, res)))
          | JTerminalTransition r a res => inr (inr (inr (r, a, res)))
          end)
    (λ x, match x with
          | inl (inl (inl r)) => JRecord r
          | inl (inl (inr id)) => JTombstone id
          | inl (inr (inl id)) => JPendingCleanupClaim id
          | inl (inr (inr (id, c))) => JCheckpoint id c
          | inr (inl (inl (id, r))) => JReservation id r
          | inr (inl (inr (t, p, n))) => JAccrual t p n
          | inr (inr (inl (r, res))) => JAdmitCommit r res
          | inr (inr (inr (r, a, res))) => JTerminalTransition r a res
          end)).
  by intros [].
Defined.

(** The number of a line in binary between braces. *)
Fixpoint bits (p : positive) : string :=
  match p with
  | xH => EmptyString
  | xO p => String "0" (bits p)
  | xI p => String "1" (bits p)
  end.

Fixpoint unbits (s : string) : option positive :=
  match s with
  | EmptyString => None
  | String c s =>
    if decide (c = "}"%char) then match s with EmptyString => Some xH | _ => None end
    else if decide (c = "0"%char) then xO <$> unbits s
    else if decide (c = "1"%char) then xI <$> unbits s
    else None
  end.

Definition bit_codec : JournalCodec := {|
  to_string e := "{" +:+ bits (encode e) +:+ "}";
  from_str s := match strip_prefix "{" s with
                | Some s => unbits s ≫= decode
                | None => None
                end;
|}.

Lemma unbits_bits p : unbits (bits p +:+ "}") = Some p.
Proof.
  induction p as [p IH|p IH|]; [..|done]; cbn [bits]; rewrite string_app_cons; cbn [unbits];
    rewrite !decide_False by done.
  - rewrite decide_True by done. by rewrite IH.
  - rewrite decide_True by done. by rewrite IH.
Qed.

Lemma unbits_trailing p c t : unbits (bits p +:+ "}" +:+ String c t) = None.
Proof.
  induction p as [p IH|p IH|]; [..|done]; cbn [bits]; rewrite string_app_cons; cbn [unbits];
    rewrite !decide_False by done.
  - rewrite decide_True by done. by rewrite IH.
  - rewrite decide_True by done. by rewrite IH.
Qed.

Lemma unbits_prefix p n :
  (n ≤ String.length (bits p))%nat → unbits (take_bytes n (bits p +:+ "}")) = None.
Proof.
  revert n. induction p as [p IH|p IH|]; intros [|n] Hn; cbn in Hn; try done; try lia;
    cbn [bits]; rewrite string_app_cons; cbn [take_bytes unbits]; rewrite !decide_False by done.
  - rewrite decide_True by done. by rewrite IH by lia.
  - rewrite decide_True by done. by rewrite IH by lia.
Qed.

Lemma bits_text p :
  has_byte LF (bits p +:+ "}") = false ∧ utf8_valid (bits p +:+ "}") = true.
Proof.
  induction p as [p IH|p IH|]; [..|done]; cbn [bits]; rewrite string_app_cons;
    cbn [has_byte utf8_valid]; rewrite bool_decide_false by done; exact IH.
Qed.

#[export] Instance bit_codec_laws : JournalCodecLaws bit_codec.
Proof.
  split; cbn [to_string from_str bit_codec].
  - intros e. rewrite strip_prefix_app, unbits_bits. cbn. by rewrite decode_encode.
  - eauto.
  - intros e. apply bits_text.
  - intros e. apply bits_text.
  - intros e n Hn. destruct n as [|n]; [done|].
    change ("{" +:+ bits (encode e) +:+ "}") with (String "{" (bits (encode e) +:+ "}")) in *.
    cbn [take_bytes String.length] in *. rewrite string_length_app in Hn. cbn in Hn.
    change (String "{" (take_bytes n (bits (encode e) +:+ "}")))
      with ("{" +:+ take_bytes n (bits (encode e) +:+ "}")).
    by rewrite strip_prefix_app, unbits_prefix by lia.
  - intros e1 e2. rewrite string_app_assoc, strip_prefix_app, string_app_assoc.
    change ("{" +:+ bits (encode e2) +:+ "}") with (String "{" (bits (encode e2) +:+ "}")).
    by rewrite unbits_trailing.
Qed.

(** ** Witnesses: a fresh file ledger and the sample calls *)
Definition fresh_file (fs : list io_outcome) : FileInner := mkFile EmptyString fs Mem.new.

Lemma fresh_durable fs : durable (codec := bit_codec) (fresh_file fs).
Proof. by exists []. Qed.

Lemma file_refines_mem_witness :
  index (File.run (codec := bit_codec) (json := accept_json) sample_ops (fresh_file [])) =
  mem_run (json := accept_json) sample_ops Mem.new.
Proof.
  apply (file_refines_mem (codec := bit_codec) (json := accept_json) sample_ops (fresh_file [])).
  - apply new_wf.
  - reflexivity.
Defined.

Lemma restart_restores_index_witness :
  let f' := File.run (codec := bit_codec) (json := accept_json) sample_ops (fresh_file []) in
  open (codec := bit_codec) no_open_faults [] (Some (disk f')) =
    (Some (disk f'), Ok (mkFile (disk f') [] (index f'))).
Proof.
  apply (restart_restores_index (codec := bit_codec) (json := accept_json)).
  - apply new_wf.
  - reflexivity.
  - apply fresh_durable.
Defined.

Lemma crash_mid_append_recovers_witness :
  ∃ f'', open (codec := bit_codec) no_open_faults [] (Some "{"%string) = (Some (disk f''), Ok f'') ∧
    refines_step (OpTryAdmit (sample_lease "a") 2) Mem.new (index f'').
Proof.
  apply (crash_mid_append_recovers (codec := bit_codec) (json := accept_json)
    (OpTryAdmit (sample_lease "a") 2) (fresh_file []) 1 []).
  - apply new_wf.
  - reflexivity.
  - apply fresh_durable.
  - vm_compute. reflexivity.
Defined.

Lemma corrupt_middle_refuses_witness :
  let bytes := "?" +:+ LFs +:+ encode_all (codec := bit_codec) [JTombstone "a"] in
  open (codec := bit_codec) no_open_faults [] (Some bytes) = (Some bytes, Err (CorruptJournal 1)).
Proof.
  apply (corrupt_middle_refuses (codec := bit_codec) [] "?" (JTombstone "a") [] []);
    vm_compute; reflexivity.
Defined.

Lemma publish_after_write_witness :
  ∃ es tail, disk (File.exec (codec := bit_codec) (json := accept_json)
      (OpPut (sample_lease "a")) (fresh_file [WriteFails 3])) =
      EmptyString +:+ encode_all (codec := bit_codec) es +:+ tail.
Proof.
  destruct (publish_after_write (codec := bit_codec) (json := accept_json)
    (OpPut (sample_lease "a")) (fresh_file [WriteFails 3])) as (es & tail & Hd & _).
  - apply new_wf.
  - discriminate.
  - exists es, tail. exact Hd.
Defined.

(** A pending lease on disk and a file system about to fail. *)
Definition failing_file : FileInner :=
  mkFile (encode_all (codec := bit_codec) [JRecord (sample_lease "a")]) [WriteFails 0] pending_state.

Lemma failed_transition_is_published_witness :
  (File.call (codec := bit_codec) (json := accept_json) (OpTransition "a" Held 2000)
     failing_file).2 = Err JournalIo.
Proof.
  apply (failed_transition_is_published (codec := bit_codec) (json := accept_json)
    "a" Held 2000 failing_file []).
  - apply mem_run_wf, new_wf.
  - exists [JRecord (sample_lease "a")]. split; reflexivity.
  - reflexivity.
  - eexists. reflexivity.
Defined.

Lemma unterminated_line_loses_next_append_witness :
  ∃ f1 f2,
    index f1 = replay_all [JRecord (sample_lease "a")] ∧
    File.append_line (codec := bit_codec) (JRecord (sample_lease "b")) f1 = (f2, Ok ()) ∧
    open (codec := bit_codec) no_open_faults [] (Some (disk f2)) =
      (Some EmptyString, Ok (mkFile EmptyString [] Mem.new)).
Proof.
  destruct (unterminated_line_loses_next_append (codec := bit_codec) []
    (JRecord (sample_lease "a")) (JRecord (sample_lease "b"))) as (f1 & f2 & _ & H1 & H2 & H3).
  exists f1, f2. split; [exact H1|]. split; [exact H2|exact H3].
Defined.
