(* ===== verification/LedgerInterface.v ===== *)
(** * The [LeaseLedger] trait and its two handles

    The trait of [crates/corelink-fabric/src/ledger.rs] as a class of
    operations, what it promises as a class of laws, and the two synchronised
    handles [InMemoryLedger] and [FileLedger]: a mutex around the core, taken
    once per call, a poisoned one answering with an error.  The clients (the cap
    gate, the lifecycle sweeps) are proved against the laws. *)
From S2P Require Import Prelude Tenant ComputeMeter Ledger LedgerSpec LedgerSafety LedgerLifecycle Journal FileLedger FileLedgerProofs.

(** ** The trait *)
Class LeaseLedger (L : Type) : Type := {
  ledger_call : op → M L LedgerError reply;
  ledger_get : string → M L LedgerError (option LeaseRecord);
  ledger_by_tenant : TenantId → M L LedgerError (list LeaseRecord);
  ledger_held : M L LedgerError (list LeaseRecord);
  ledger_pending_older_than : Z → Z → M L LedgerError (list LeaseRecord);
  ledger_compute_accrued : TenantId → Z → M L LedgerError Z;
  ledger_get_envelope_checkpoint : string → M L LedgerError (option string);
}.

(** A read answers from the leases or fails, and changes nothing. *)
Definition read_ok {L A} (m : M L LedgerError A) (l : L) (a : A) : Prop :=
  m l = (l, Ok a) ∨ ∃ e, m l = (l, Err e).

(** What a ledger promises: a healthy one is the in-memory core, and any one
    reads its leases or errs. *)
Class LeaseLedgerLaws (L : Type) `{LeaseLedger L} {json : SerdeJson} : Type := {
  view : L → InMemoryInner;
  healthy : L → Prop;
  law_call o l : healthy l → ledger_wf (view l) →
    (ledger_call o l).2 = (mem_call o (view l)).2 ∧
    view (ledger_call o l).1 = mem_exec o (view l) ∧
    healthy (ledger_call o l).1;
  law_held l : healthy l → ledger_held l = (l, Ok (Mem.held (view l)));
  law_by_tenant l t : healthy l → ledger_by_tenant t l = (l, Ok (Mem.by_tenant (view l) t));
  law_get l id : healthy l → ledger_get id l = (l, Ok (Mem.get (view l) id));
  law_pending l now age : healthy l →
    ledger_pending_older_than now age l = (l, Ok (Mem.pending_older_than (view l) now age));
  law_accrued l t p : healthy l →
    ledger_compute_accrued t p l = (l, Ok (Mem.compute_accrued (view l) t p));
  law_by_tenant_read l t : read_ok (ledger_by_tenant t) l (Mem.by_tenant (view l) t);
  law_held_read l : read_ok ledger_held l (Mem.held (view l));
}.

(** ** Handles *)

(** [Mutex<T>] with its poison flag; [lock()?] then the guarded call. *)
Record Mutex (A : Type) : Type := mkMutex { poisoned : bool; guarded : A }.
Arguments mkMutex {A}.
Arguments poisoned {A}.
Arguments guarded {A}.

Definition locked {A X} (m : M A LedgerError X) : M (Mutex A) LedgerError X := λ mx,
  if poisoned mx then (mx, Err Poisoned)
  else let '(a, r) := m (guarded mx) in (mkMutex false a, r).

Definition read_of {A X} (g : A → X) : M A LedgerError X := λ a, (a, Ok (g a)).

Definition InMemoryLedger : Type := Mutex InMemoryInner.
Definition FileHandle : Type := Mutex FileInner.

#[export] Instance InMemoryLedger_ops {json : SerdeJson} : LeaseLedger InMemoryLedger := {|
  ledger_call o := locked (mem_call o);
  ledger_get id := locked (read_of (λ s, Mem.get s id));
  ledger_by_tenant t := locked (read_of (λ s, Mem.by_tenant s t));
  ledger_held := locked (read_of Mem.held);
  ledger_pending_older_than now age := locked (read_of (λ s, Mem.pending_older_than s now age));
  ledger_compute_accrued t p := locked (read_of (λ s, Mem.compute_accrued s t p));
  ledger_get_envelope_checkpoint id := locked (read_of (λ s, Mem.get_envelope_checkpoint s id));
|}.

#[export] Instance FileLedger_ops {codec : JournalCodec} {json : SerdeJson}
  : LeaseLedger FileHandle := {|
  ledger_call o := locked (File.call o);
  ledger_get id := locked (read_of (λ f, Mem.get (index f) id));
  ledger_by_tenant t := locked (read_of (λ f, Mem.by_tenant (index f) t));
  ledger_held := locked (read_of (λ f, Mem.held (index f)));
  ledger_pending_older_than now age :=
    locked (read_of (λ f, Mem.pending_older_than (index f) now age));
  ledger_compute_accrued t p := locked (read_of (λ f, Mem.compute_accrued (index f) t p));
  ledger_get_envelope_checkpoint id :=
    locked (read_of (λ f, Mem.get_envelope_checkpoint (index f) id));
|}.

Lemma locked_read {A X} (g : A → X) (mx : Mutex A) :
  poisoned mx = false → locked (read_of g) mx = (mx, Ok (g (guarded mx))).
Proof. intros Hp. unfold locked. rewrite Hp. by destruct mx; cbn in *; subst. Qed.

Lemma locked_read_any {A X} (g : A → X) (mx : Mutex A) :
  read_ok (locked (read_of g)) mx (g (guarded mx)).
Proof.
  destruct (poisoned mx) eqn:Hp; [right|left; by apply locked_read].
  unfold locked. rewrite Hp. eauto.
Qed.

#[export, program] Instance InMemoryLedger_laws {json : SerdeJson}
  : LeaseLedgerLaws InMemoryLedger := {|
  view := guarded;
  healthy mx := poisoned mx = false;
|}.
Next Obligation.
  intros json o l Hl Hwf. cbn. unfold locked. rewrite Hl. unfold mem_exec.
  by destruct (mem_call o (guarded l)).
Qed.
Next Obligation. intros. by apply locked_read. Qed.
Next Obligation. intros. by apply (locked_read (λ s, Mem.by_tenant s t)). Qed.
Next Obligation. intros. by apply (locked_read (λ s, Mem.get s id)). Qed.
Next Obligation. intros. by apply (locked_read (λ s, Mem.pending_older_than s now age)). Qed.
Next Obligation. intros. by apply (locked_read (λ s, Mem.compute_accrued s t p)). Qed.
Next Obligation. intros. apply (locked_read_any (λ s, Mem.by_tenant s t)). Qed.
Next Obligation. intros. apply locked_read_any. Qed.

#[export, program] Instance FileLedger_laws {codec : JournalCodec}
  {laws : JournalCodecLaws codec} {json : SerdeJson} : LeaseLedgerLaws FileHandle := {|
  view mx := index (guarded mx);
  healthy mx := poisoned mx = false ∧ faults (guarded mx) = [];
|}.
Next Obligation.
  intros codec laws json o l [Hl Hf] Hwf. cbn. unfold locked. rewrite Hl.
  destruct (exec_simulates o (guarded l) Hwf Hf) as (Hi & Hf' & _ & _).
  destruct (file_simulates o (guarded l) Hwf Hf) as (es & Hcall & _).
  unfold File.exec in *. by rewrite Hcall in *.
Qed.
Next Obligation. intros ??? l [? ?]. by apply (locked_read (λ f, Mem.held (index f))). Qed.
Next Obligation. intros ??? l t [? ?]. by apply (locked_read (λ f, Mem.by_tenant (index f) t)). Qed.
Next Obligation. intros ??? l id [? ?]. by apply (locked_read (λ f, Mem.get (index f) id)). Qed.
Next Obligation.
  intros ??? l now age [? ?].
  by apply (locked_read (λ f, Mem.pending_older_than (index f) now age)).
Qed.
Next Obligation.
  intros ??? l t p [? ?]. by apply (locked_read (λ f, Mem.compute_accrued (index f) t p)).
Qed.
Next Obligation. intros. apply (locked_read_any (λ f, Mem.by_tenant (index f) t)). Qed.
Next Obligation. intros. apply (locked_read_any (λ f, Mem.held (index f))). Qed.
