(* ===== verification/Caps.v ===== *)
(** * The preventive cap gate, the plan ladder and the downgrade grace

    Models [caps.rs], [plans.rs] and [downgrade_grace.rs] of
    [crates/corelink-fabric/src/]: the sliding acquire-rate window, the pure
    admission check over any [LeaseLedger], the plan tiers with their ceilings
    and the grace decision after a downgrade. *)
From S2P Require Import Prelude Tenant ComputeMeter Ledger LedgerSpec LedgerSafety LedgerLifecycle Journal FileLedger FileLedgerProofs LedgerInterface.

(** ** The rate window *)

Definition WINDOW_MS : Z := 60000.

(** [struct RateWindow]. *)
Record RateWindow : Type := mkWindow { stamps : list Z }.
Definition window_new : RateWindow := mkWindow [].

Definition in_window (now_ms t : Z) : Prop := now_ms -sat t < WINDOW_MS.
#[export] Instance in_window_dec now t : Decision (in_window now t).
Proof. unfold in_window. apply _. Defined.

(** [RateWindow::push]: prune, then append. *)
Definition push (w : RateWindow) (now_ms : Z) : RateWindow :=
  mkWindow (filter (in_window now_ms) (stamps w) ++ [now_ms]).

(** [count_within_60s] and [is_idle_at]. *)
Definition count_within_60s (w : RateWindow) (now_ms : Z) : Z :=
  Z.of_nat (length (filter (in_window now_ms) (stamps w))).
Definition is_idle_at (w : RateWindow) (now_ms : Z) : bool := count_within_60s w now_ms =? 0.

(** ** The gate *)

Inductive CapDecision : Type := CapAdmit | RejectOverCap | RejectRateCeiling.

#[export] Instance CapDecision_eq_dec : EqDecision CapDecision.
Proof. solve_decision. Defined.

(** [CapGate::check]. *)
Definition check {L} `{LeaseLedger L} (ledger : L) (plan : TenantPlan) (now_ms : Z)
    (recent_acquires : RateWindow) : CapDecision :=
  match (ledger_by_tenant (plan_tenant plan) ledger).2 with
  | Err _ => RejectOverCap
  | Ok rows =>
    let active := Z.of_nat (length (filter is_active rows)) in
    if bool_decide (max_concurrency plan ≤ active) then RejectOverCap
    else if bool_decide (rate_ceiling_per_min plan ≤ count_within_60s recent_acquires now_ms)
    then RejectRateCeiling
    else CapAdmit
  end.

(** ** Plans *)

Inductive PlanTier : Type := Starter | Pro | Team | Scale | PlanMax.

#[export] Instance PlanTier_eq_dec : EqDecision PlanTier.
Proof. solve_decision. Defined.

Definition ALL : list PlanTier := [Starter; Pro; Team; Scale; PlanMax].

Definition plan_for (tier : PlanTier) : Z * Z :=
  match tier with
  | Starter => (20, 200)
  | Pro => (40, 400)
  | Team => (80, 800)
  | Scale => (160, 1600)
  | PlanMax => (320, 3200)
  end.

Definition ceiling_for (tier : PlanTier) : Z :=
  match tier with
  | Starter => 100 * MS_PER_VCPU_HOUR
  | Pro => 240 * MS_PER_VCPU_HOUR
  | Team => 600 * MS_PER_VCPU_HOUR
  | Scale => 1200 * MS_PER_VCPU_HOUR
  | PlanMax => 2400 * MS_PER_VCPU_HOUR
  end.

(** [struct PlanRegistry] is its tier map. *)
Definition PlanRegistry : Type := gmap TenantId PlanTier.

Definition set_plan (reg : PlanRegistry) (t : TenantId) (tier : PlanTier) : PlanRegistry :=
  <[t := tier]> reg.

Definition tenant_plan (reg : PlanRegistry) (t : TenantId) : TenantPlan :=
  let caps := match reg !! t with Some tier => plan_for tier | None => (0, 0) end in
  mkTenantPlan t caps.1 caps.2 [].

Definition tenant_ceiling_vcpu_ms (reg : PlanRegistry) (t : TenantId) : Z :=
  match reg !! t with Some tier => ceiling_for tier | None => 0 end.

(** ** Downgrade grace *)

Inductive GraceDecision : Type := GraceAdmit | OverCapGrace (held cap : Z).

Definition is_admit (d : GraceDecision) : bool :=
  match d with GraceAdmit => true | _ => false end.
Definition is_over_cap_grace (d : GraceDecision) : bool :=
  match d with OverCapGrace _ _ => true | _ => false end.

Definition evaluate_downgrade_admit (held new_cap : Z) : GraceDecision :=
  if held <? new_cap then GraceAdmit else OverCapGrace held new_cap.

Definition is_downgrade (old_cap new_cap : Z) : bool := new_cap <? old_cap.

(** ** Lemmas *)

Lemma active_by_tenant s t :
  Z.of_nat (length (filter is_active (Mem.by_tenant s t))) = Mem.active_count s t.
Proof.
  unfold Mem.by_tenant, Mem.active_count. f_equal.
  rewrite (sort_by_key_perm lease_id), list_filter_filter. apply Permutation_length.
  apply reflexive_eq, list_filter_iff. intros r. unfold Mem.active_of. tauto.
Qed.

(** A push at [t] prunes no stamp that a count at a later time still sees. *)
Lemma push_keeps_window w t now :
  t ≤ now →
  filter (in_window now) (stamps (push w t)) = filter (in_window now) (stamps w ++ [t]).
Proof.
  intros Ht. cbn. rewrite !filter_app. f_equal.
  rewrite list_filter_filter. apply list_filter_iff. intros x. unfold in_window.
  split; [tauto|]. intros Hx. split; [done|]. mlia.
Qed.

Lemma push_all_window ts w now :
  Forall (λ t, t ≤ now) ts →
  filter (in_window now) (stamps (foldl push w ts)) = filter (in_window now) (stamps w ++ ts).
Proof.
  revert w. induction ts as [|t ts IH]; intros w Hts; [by rewrite app_nil_r|].
  apply Forall_cons in Hts as [Ht Hts]. cbn [foldl].
  rewrite IH by done. rewrite filter_app, push_keeps_window by done.
  by rewrite <-filter_app, <-app_assoc.
Qed.

Lemma cap_check_healthy {L} `{LeaseLedger L} {json : SerdeJson} `{!LeaseLedgerLaws L}
    (l : L) plan now w :
  check l plan now w = CapAdmit →
  Mem.active_count (view l) (plan_tenant plan) < max_concurrency plan ∧
  count_within_60s w now < rate_ceiling_per_min plan.
Proof.
  unfold check.
  destruct (law_by_tenant_read l (plan_tenant plan)) as [->|[e ->]]; [|done]. cbn.
  rewrite active_by_tenant. repeat case_bool_decide; naive_solver lia.
Qed.

(** ** The theorems *)

(** The cap gate never over-admits, and what it admits the ledger admits.
    Over any ledger, healthy or not, an admit decision means the tenant is
    strictly under its concurrency cap and its rate ceiling; over a healthy one
    the decision is exact, and an atomic admission of a new lease right after an
    admit decision succeeds. *)
Theorem cap_check_exact {L} `{LeaseLedger L} {json : SerdeJson} `{!LeaseLedgerLaws L}
    (l : L) plan now w :
  ledger_wf (view l) → is_u32 (max_concurrency plan) →
  let active := Mem.active_count (view l) (plan_tenant plan) in
  (check l plan now w = CapAdmit →
     active < max_concurrency plan ∧ count_within_60s w now < rate_ceiling_per_min plan) ∧
  (healthy l →
     check l plan now w =
       (if decide (max_concurrency plan ≤ active) then RejectOverCap
        else if decide (rate_ceiling_per_min plan ≤ count_within_60s w now)
        then RejectRateCeiling else CapAdmit) ∧
     ∀ rec, check l plan now w = CapAdmit → tenant rec = plan_tenant plan →
       records (view l) !! lease_id rec = None →
       (ledger_call (OpTryAdmit rec (max_concurrency plan)) l).2 = Ok (RBool true)).
Proof.
  intros Hwf Hcap active. split; [apply cap_check_healthy|]. intros Hl. split.
  - unfold check. rewrite law_by_tenant by done. cbn. rewrite active_by_tenant.
    fold active. by repeat case_bool_decide; repeat case_decide.
  - intros rec Hadm Ht Hn. apply cap_check_healthy in Hadm as [Hlt _].
    destruct (law_call (OpTryAdmit rec (max_concurrency plan)) l Hl Hwf) as [-> _].
    unfold mem_call, fmap_M. run_M. pose proof (active_count_nonneg (view l) (tenant rec)).
    destruct (try_admit_cases rec (max_concurrency plan) (view l))
      as [(_ & _ & ->)|[(_ & Hs & ->)|(Hle & ->)]]; [done| |].
    + rewrite Hn in Hs. by destruct Hs.
    + rewrite Ht in *. rewrite as_u32_small in Hle by mlia. lia.
Qed.

(** The rate window counts every attempt of the last minute.  Whatever the
    history of pushes up to now, in any order, pruning included, the count is
    the number of attempts less than 60 seconds old, and the window holds no
    more than the last push's minute. *)
Theorem rate_window_exact ts now :
  Forall (λ t, t ≤ now) ts →
  count_within_60s (foldl push window_new ts) now = Z.of_nat (length (filter (in_window now) ts)) ∧
  ∀ t, Forall (in_window t) (stamps (push (foldl push window_new ts) t)).
Proof.
  intros Hts. split.
  - unfold count_within_60s. by rewrite push_all_window.
  - intros t. cbn. apply Forall_app. split.
    + apply Forall_forall. intros x [? _]%list_elem_of_filter. done.
    + apply Forall_singleton. unfold in_window, WINDOW_MS. mlia.
Qed.

(** A downgrade drains without evicting.  After the cap of a tenant drops to
    [new_cap], under any calls that admit it with at most that cap, its active
    leases never outnumber what it had or the new cap, and the grace decision
    admits exactly when the ledger's atomic admission of a new lease would. *)
Theorem downgrade_drains {json : SerdeJson} os s t new_cap rec :
  ledger_wf s → 0 ≤ new_cap ≤ U32_MAX → (∀ t', Mem.active_count s t' ≤ U32_MAX) →
  Forall (op_within_cap (λ t', if decide (t' = t) then new_cap else U32_MAX)) os →
  tenant rec = t → records (mem_run os s) !! lease_id rec = None →
  let s' := mem_run os s in
  Mem.active_count s' t ≤ Z.max (Mem.active_count s t) new_cap ∧
  (is_admit (evaluate_downgrade_admit (Mem.active_count s' t) new_cap) = true ↔
   (Mem.try_admit rec new_cap s').2 = Ok true).
Proof.
  intros Hwf Hcap Hs Hos Ht Hn s'.
  set (K := λ t', if decide (t' = t) then Z.max (Mem.active_count s t) new_cap else U32_MAX).
  assert (cap_respected K s') as HK.
  { apply (mem_run_invariant (cap_respected K)); [|done|].
    - intros o ev s1 s2 Ho Hev _ Hst. eapply cap_respected_step; eauto.
      + intros t'. unfold K. specialize (Hs t). case_decide; lia.
      + apply (proj1 (Forall_forall _ _) Hos) in Ho. unfold K.
        destruct o; cbn in *; try done; case_decide; lia.
    - intros t'. unfold K. case_decide; [subst; lia|done]. }
  specialize (HK t). unfold K in HK. rewrite decide_True in HK by done. split; [done|].
  pose proof (active_count_nonneg s' t). specialize (Hs t). unfold evaluate_downgrade_admit.
  destruct (try_admit_cases rec new_cap s') as [(Hlt & _ & ->)|[(_ & Hsome & _)|(Hle & ->)]].
  - rewrite Ht, as_u32_small in Hlt by lia. apply Z.ltb_lt in Hlt. by rewrite Hlt.
  - unfold s' in Hsome. rewrite Hn in Hsome. by destruct Hsome.
  - rewrite Ht, as_u32_small in Hle by lia. apply Z.ltb_ge in Hle. by rewrite Hle.
Qed.

(** ** Witnesses *)
Definition acme_plan : TenantPlan := tenant_plan (set_plan ∅ acme Starter) acme.
Definition healthy_ledger : InMemoryLedger := mkMutex false pending_state.

Lemma cap_check_exact_witness :
  let _ := accept_json in
  check (H := InMemoryLedger_ops (json := accept_json)) healthy_ledger acme_plan 70000 (mkWindow [1000; 69000])
    = CapAdmit ∧
  (ledger_call (LeaseLedger := InMemoryLedger_ops (json := accept_json))
     (OpTryAdmit (sample_lease "b") 20) healthy_ledger).2 = Ok (RBool true).
Proof.
  split; [vm_compute; reflexivity|].
  apply (cap_check_exact (json := accept_json) healthy_ledger acme_plan 70000 (mkWindow [1000; 69000])).
  - apply mem_run_wf, new_wf.
  - vm_compute. split; discriminate.
  - reflexivity.
  - vm_compute. reflexivity.
  - reflexivity.
  - reflexivity.
Defined.

Lemma rate_window_exact_witness :
  count_within_60s (foldl push window_new [1000; 5000; 62000]) 62000 = 2.
Proof.
  rewrite (proj1 (rate_window_exact [1000; 5000; 62000] 62000 ltac:(repeat constructor; lia))).
  vm_compute. reflexivity.
Defined.

Lemma downgrade_drains_witness :
  Mem.active_count (mem_run (json := accept_json) [OpTryAdmit (sample_lease "c") 1]
    pending_state) acme ≤ 1.
Proof.
  destruct (downgrade_drains (json := accept_json) [OpTryAdmit (sample_lease "c") 1]
    pending_state acme 1 (sample_lease "d")) as [Hle _].
  - apply mem_run_wf, new_wf.
  - mlia.
  - intros t'. rewrite active_count_sum. unfold pending_state.
    change (map_sum (λ _ : string, active_ind t') (<["a" := sample_lease "a"]> ∅) ≤ U32_MAX).
    rewrite map_sum_insert, map_sum_empty. pose proof (active_ind_bounds t' (sample_lease "a")).
    unfold at_key. rewrite lookup_empty. cbn [from_option]. mlia.
  - repeat constructor. cbn. by rewrite decide_True.
  - reflexivity.
  - reflexivity.
  - exact Hle.
Defined.
