(* ===== verification/Lifecycle.v ===== *)
(** * The lifecycle sweeps

    Models [crates/corelink-fabric/src/lifecycle.rs]: expiring overdue held
    leases and surfacing crashed ones over any [LeaseLedger].  The sweeps are
    proved against the interface's laws, so they hold for both handles. *)
From S2P Require Import Prelude Tenant ComputeMeter Ledger LedgerSpec LedgerSafety LedgerLifecycle Journal FileLedger FileLedgerProofs LedgerInterface.

(** The port [BoxProbe]: whether the box behind a reference is alive. *)
Class BoxProbe : Type := is_alive : string → bool.

Section sweeps.
Context {L : Type} `{LeaseLedger L}.

(** The call [ledger.transition(..)?] with its reply unpacked. *)
Definition ledger_transition (id : string) (to : RunnerState) (now_ms : Z)
  : M L LedgerError LeaseRecord := λ l,
  match ledger_call (OpTransition id to now_ms) l with
  | (l, Ok (RRecord r)) => (l, Ok r)
  | (l, Ok _) => (l, Err (UnknownLease id))
  | (l, Err e) => (l, Err e)
  end.

(** The loop of a sweep: the first failing transition ends it, the earlier ones
    stay. *)
Fixpoint sweep_rows (due : LeaseRecord → bool) (to : RunnerState) (now_ms : Z)
    (rows : list LeaseRecord) : M L LedgerError (list LeaseRecord) :=
  match rows with
  | [] => mret []
  | rec :: rows =>
    if due rec then
      r ← ledger_transition (lease_id rec) to now_ms;
      rs ← sweep_rows due to now_ms rows;
      mret (r :: rs)
    else sweep_rows due to now_ms rows
  end.

(** [LeaseLifecycle::expire_overdue]. *)
Definition expire_overdue (now_ms : Z) (deadline_ms_of : LeaseRecord → Z)
  : M L LedgerError (list LeaseRecord) :=
  rows ← ledger_held;
  sweep_rows (λ rec, bool_decide (deadline_ms_of rec ≤ now_ms)) Expired now_ms rows.

(** [LeaseLifecycle::surface_crashes]. *)
Definition surface_crashes `{probe : BoxProbe} (now_ms : Z)
  : M L LedgerError (list LeaseRecord) :=
  rows ← ledger_held;
  sweep_rows (λ rec, negb (is_alive (box_ref rec))) Crashed now_ms rows.

(** ** What a sweep does *)
Context {json : SerdeJson} `{!LeaseLedgerLaws L}.

(** The record a swept lease is left with. *)
Definition swept (to : RunnerState) (now : Z) (r : LeaseRecord) : LeaseRecord :=
  set_state r (Wire to) now (billing_acquired_at_ms r).

Lemma held_unclaimed s k r :
  ledger_wf s → records s !! k = Some r → state r = Wire Held → k ∉ pending_cleanup_claims s.
Proof.
  intros Hwf Hr Hst Hc. apply (wf_claims s Hwf), is_pending_at_Some in Hc as (r' & Hr' & Hp).
  congruence.
Qed.

Lemma transition_held (l : L) to now r :
  healthy l → ledger_wf (view l) → to ≠ Held →
  records (view l) !! lease_id r = Some r → state r = Wire Held →
  ∃ l', ledger_transition (lease_id r) to now l = (l', Ok (swept to now r)) ∧
    healthy l' ∧ ledger_wf (view l') ∧
    records (view l') = <[lease_id r := swept to now r]> (records (view l)).
Proof.
  intros Hl Hwf Hto Hr Hst.
  pose proof (held_unclaimed _ _ _ Hwf Hr Hst) as Hnc.
  destruct (law_call (OpTransition (lease_id r) to now) l Hl Hwf) as (Hrep & Hview & Hh).
  assert (transition_is_legal (state r) to = true) as Hlegal by (rewrite Hst; by destruct to).
  assert ((mem_call (OpTransition (lease_id r) to now) (view l)).2 = Ok (RRecord (swept to now r)))
    as Hmem.
  { unfold mem_call, fmap_M, Mem.transition, Mem.transition_capturing. run_M.
    rewrite bool_decide_false by done. run_M. rewrite Hr. cbn.
    assert (apply_transition r to now = Ok (swept to now r)) as ->.
    { apply apply_transition_ok. by rewrite decide_False. }
    cbn. by destruct (accrue_settle (lease_id r) r to now
      (with_records <[lease_id r := swept to now r]> (view l)) Hto) as [ev ->]. }
  rewrite Hmem in Hrep. unfold ledger_transition.
  destruct (ledger_call (OpTransition (lease_id r) to now) l) as [l' rep]. cbn in *. subst rep.
  exists l'. split_and!; [done|done| |].
  - rewrite Hview. by apply (mem_exec_invariant (λ _, True) (λ _, True)).
  - rewrite Hview, mem_exec_transition. rewrite decide_False by done. rewrite Hr, Hlegal. cbn.
    rewrite !decide_False by done. by rewrite settle_records.
Qed.

(** The records after the due ones of a list are swept. *)
Definition sweep_map (due : LeaseRecord → bool) (to : RunnerState) (now : Z)
    (rows : list LeaseRecord) (m : gmap string LeaseRecord) : gmap string LeaseRecord :=
  foldl (λ m r, if due r then <[lease_id r := swept to now r]> m else m) m rows.

Lemma sweep_rows_ok due to now rows (l : L) :
  healthy l → ledger_wf (view l) → to ≠ Held → NoDup (lease_id <$> rows) →
  Forall (λ r, records (view l) !! lease_id r = Some r ∧ state r = Wire Held) rows →
  ∃ l', sweep_rows due to now rows l =
      (l', Ok (swept to now <$> filter (λ r, due r = true) rows)) ∧
    healthy l' ∧ ledger_wf (view l') ∧
    records (view l') = sweep_map due to now rows (records (view l)).
Proof.
  intros Hl Hwf Hto. revert l Hl Hwf.
  induction rows as [|r rows IH]; intros l Hl Hwf Hnd Hrows; [by eauto|].
  rewrite fmap_cons in Hnd. apply NoDup_cons in Hnd as [Hnin Hnd].
  apply Forall_cons in Hrows as [[Hr Hst] Hrows]. cbn [sweep_rows sweep_map foldl].
  rewrite filter_cons. destruct (due r) eqn:Hdue.
  - rewrite decide_True by done.
    destruct (transition_held l to now r Hl Hwf Hto Hr Hst) as (l1 & Htr & Hl1 & Hwf1 & Hrec1).
    run_M. rewrite Htr.
    destruct (IH l1 Hl1 Hwf1 Hnd) as (l2 & Hsw & Hl2 & Hwf2 & Hrec2).
    { apply Forall_forall. intros r' Hin. rewrite Hrec1.
      destruct (proj1 (Forall_forall _ _) Hrows r' Hin) as [Hr' Hst'].
      rewrite lookup_insert_ne; [done|]. intros Heq. apply Hnin. rewrite Heq.
      by apply list_elem_of_fmap_2. }
    exists l2. rewrite Hsw. split_and!; try done. by rewrite Hrec2, Hrec1.
  - rewrite decide_False by done. by apply IH.
Qed.

Lemma sweep_map_miss due to now rows m k :
  (∀ r, r ∈ rows → due r = true → lease_id r ≠ k) → sweep_map due to now rows m !! k = m !! k.
Proof.
  unfold sweep_map. revert m. induction rows as [|r rows IH]; intros m Hrows; [done|].
  cbn [foldl]. rewrite IH by set_solver. destruct (due r) eqn:Hdue; [|done].
  rewrite lookup_insert_ne; [done|]. apply Hrows; [set_solver|done].
Qed.

Lemma sweep_map_hit due to now rows m r :
  NoDup (lease_id <$> rows) → r ∈ rows → due r = true →
  sweep_map due to now rows m !! lease_id r = Some (swept to now r).
Proof.
  revert m. induction rows as [|r0 rows IH]; intros m Hnd Hin Hdue; [by apply elem_of_nil in Hin|].
  rewrite fmap_cons in Hnd. apply NoDup_cons in Hnd as [Hnin Hnd].
  change (sweep_map due to now (r0 :: rows) m) with
    (sweep_map due to now rows (if due r0 then <[lease_id r0 := swept to now r0]> m else m)).
  apply elem_of_cons in Hin as [->|Hin]; [|by apply IH].
  rewrite sweep_map_miss, Hdue by (intros r' Hr' _ Heq; apply Hnin; rewrite <-Heq;
    by apply list_elem_of_fmap_2).
  apply lookup_insert_eq.
Qed.

(** Sweeping the listed held leases changes exactly the due ones. *)
Lemma sweep_map_lookup due to now s k :
  ledger_wf s →
  sweep_map due to now (Mem.held s) (records s) !! k =
    (λ r, if is_held (state r) && due r then swept to now r else r) <$> records s !! k.
Proof.
  intros Hwf.
  destruct (listing_exact s (λ r, is_held (state r) = true) Hwf) as (Hin & Hnd & _).
  fold (Mem.held s) in Hin, Hnd.
  destruct (records s !! k) as [r|] eqn:Hr; cbn.
  - pose proof (wf_keys s Hwf k r Hr) as <-.
    destruct (is_held (state r) && due r) eqn:Hd.
    + apply andb_prop in Hd as [Hh Hd]. apply sweep_map_hit; try done. by apply Hin.
    + rewrite sweep_map_miss; [done|]. intros r' [Hr' Hh']%Hin Hd' Heq.
      rewrite Heq in Hr'. simplify_eq. by rewrite Hh', Hd' in Hd.
  - rewrite sweep_map_miss; [done|]. intros r' [Hr' _]%Hin _ <-. congruence.
Qed.

(** One sweep: what it answers, what it leaves, and that a second one finds
    nothing.  Dueness of a lease that stays held must not depend on the sweep. *)
Lemma sweep_ok due to now (l : L) :
  healthy l → ledger_wf (view l) → to ≠ Held →
  ∃ l' rows,
    (rows ← ledger_held; sweep_rows due to now rows) l = (l', Ok rows) ∧
    healthy l' ∧ ledger_wf (view l') ∧
    rows = swept to now <$> filter (λ r, due r = true) (Mem.held (view l)) ∧
    (∀ k, records (view l') !! k =
       (λ r, if is_held (state r) && due r then swept to now r else r) <$> records (view l) !! k) ∧
    ((rows ← ledger_held; sweep_rows due to now rows) l').2 = Ok [].
Proof.
  intros Hl Hwf Hto.
  destruct (listing_exact (view l) (λ r, is_held (state r) = true) Hwf) as (Hin & Hnd & _).
  fold (Mem.held (view l)) in Hin, Hnd.
  destruct (sweep_rows_ok due to now (Mem.held (view l)) l Hl Hwf Hto Hnd)
    as (l' & Hsw & Hl' & Hwf' & Hrec).
  { apply Forall_forall. intros r [Hr Hh]%Hin. by destruct (state r) as [|[]]. }
  assert (∀ k, records (view l') !! k =
     (λ r, if is_held (state r) && due r then swept to now r else r) <$> records (view l) !! k)
    as Hlook by (intros k; rewrite Hrec; by apply sweep_map_lookup).
  exists l', (swept to now <$> filter (λ r, due r = true) (Mem.held (view l))).
  unfold mbind, M_bind. rewrite law_held by done. split_and!; try done.
  rewrite law_held by done.
  assert (filter (λ r, due r = true) (Mem.held (view l')) = []) as Hnil.
  { apply elem_of_nil_inv. intros r [Hd Hr]%list_elem_of_filter.
    apply (proj1 (listing_exact (view l') (λ r, is_held (state r) = true) Hwf')) in Hr as [Hr Hh].
    rewrite Hlook in Hr. destruct (records (view l) !! lease_id r) as [r0|]; [|done]. cbn in Hr.
    destruct (is_held (state r0) && due r0) eqn:E; simplify_eq; [by destruct to|].
    by rewrite Hh, Hd in E. }
  assert (∀ rows (l : L), filter (λ r, due r = true) rows = [] → sweep_rows due to now rows l = (l, Ok []))
    as Hquiet.
  { intros rows. induction rows as [|r rows IH]; intros l0 Hf; [done|].
    rewrite filter_cons in Hf. cbn. case_decide; [done|]. destruct (due r); [done|]. by apply IH. }
  by rewrite Hquiet.
Qed.

(** The expiry sweep marks exactly the overdue leases.  Over any healthy
    ledger it succeeds, moves every held lease whose deadline has passed to
    expired at the sweep's time, leaves every other lease as it was, returns the
    moved records in id order, and a second sweep at the same time finds
    nothing. *)
Theorem expire_overdue_exact (l : L) now deadline_ms_of :
  healthy l → ledger_wf (view l) →
  let due r := bool_decide (deadline_ms_of r ≤ now) in
  ∃ l', expire_overdue now deadline_ms_of l =
      (l', Ok (swept Expired now <$> filter (λ r, due r = true) (Mem.held (view l)))) ∧
    (∀ k, records (view l') !! k =
       (λ r, if is_held (state r) && due r then swept Expired now r else r)
         <$> records (view l) !! k) ∧
    (expire_overdue now deadline_ms_of l').2 = Ok [].
Proof.
  intros Hl Hwf due.
  destruct (sweep_ok due Expired now l Hl Hwf ltac:(done)) as (l' & rows & Hsw & _ & _ & -> & Hlook & Hidem).
  by exists l'.
Qed.

(** A lost job is surfaced, never dropped and never green.  Over any healthy
    ledger the crash sweep moves every held lease whose box is dead to crashed,
    and no lease to released; every other lease stays as it was, and a second
    sweep finds nothing. *)
Theorem surface_crashes_exact `{probe : BoxProbe} (l : L) now :
  healthy l → ledger_wf (view l) →
  let dead r := negb (is_alive (box_ref r)) in
  ∃ l', surface_crashes now l =
      (l', Ok (swept Crashed now <$> filter (λ r, dead r = true) (Mem.held (view l)))) ∧
    (∀ k, records (view l') !! k =
       (λ r, if is_held (state r) && dead r then swept Crashed now r else r)
         <$> records (view l) !! k) ∧
    (surface_crashes now l').2 = Ok [].
Proof.
  intros Hl Hwf dead.
  destruct (sweep_ok dead Crashed now l Hl Hwf ltac:(done)) as (l' & rows & Hsw & _ & _ & -> & Hlook & Hidem).
  by exists l'.
Qed.
End sweeps.

(** ** Witnesses: a held lease in each of the two handles *)
Definition held_ledger : InMemoryLedger :=
  mkMutex false (mem_run (json := accept_json)
    [OpTryAdmit (sample_lease "a") 2; OpTransition "a" Held 2000] Mem.new).

Lemma expire_overdue_exact_witness :
  ∃ l', expire_overdue (H := InMemoryLedger_ops (json := accept_json)) 6000 (λ r, default 0 (deadline_ms r))
      held_ledger = (l', Ok [mkLease "a" acme (Wire Expired) "box:a" 1000 6000 (Some 5000) (Some 2000)]).
Proof.
  destruct (expire_overdue_exact (H := InMemoryLedger_ops (json := accept_json)) (json := accept_json) held_ledger 6000 (λ r, default 0 (deadline_ms r)))
    as (l' & Hl' & _).
  - reflexivity.
  - apply mem_run_wf, new_wf.
  - exists l'. rewrite Hl'. vm_compute. reflexivity.
Defined.

Lemma surface_crashes_exact_witness :
  ∃ l', surface_crashes (H := InMemoryLedger_ops (json := accept_json)) (probe := λ _, false) 3000
      held_ledger = (l', Ok [mkLease "a" acme (Wire Crashed) "box:a" 1000 3000 (Some 5000) (Some 2000)]).
Proof.
  destruct (surface_crashes_exact (H := InMemoryLedger_ops (json := accept_json)) (json := accept_json) (probe := λ _, false) held_ledger 3000)
    as (l' & Hl' & _).
  - reflexivity.
  - apply mem_run_wf, new_wf.
  - exists l'. rewrite Hl'. vm_compute. reflexivity.
Defined.
