(* ===== verification/Billing.v ===== *)
(** * The slot meter

    Models [crates/corelink-fabric/src/billing.rs]: the per-tenant occupancy
    counters, the peak, and the bounded event journal with its export
    watermark.  The theorems relate the meter to the whole history of recorded
    events. *)
From S2P Require Import Prelude Tenant.

Definition JOURNAL_CAP : Z := 100000.

(** [struct SlotMeter]; the maps are [BTreeMap]s, the journal a [VecDeque]. *)
Record SlotMeter : Type := mkMeter {
  meter_occupied : gmap TenantId Z;
  meter_peak : gmap TenantId Z;
  journal : list SlotOccupancyEvent;
  journal_dropped : Z;
  total_recorded : Z;
}.

Definition meter_new : SlotMeter := mkMeter ∅ ∅ [] 0 0.

(** [fn occupied] and [fn peak]. *)
Definition occupied (m : SlotMeter) (t : TenantId) : Z := default 0 (meter_occupied m !! t).
Definition peak (m : SlotMeter) (t : TenantId) : Z := default 0 (meter_peak m !! t).

(** [u32::saturating_add(1)]; the [u64] counters are unbounded here, which the
    bounds below justify. *)
Definition occ_step (kind : SlotEventKind) (occ : Z) : Z :=
  match kind with
  | Acquired => Z.min U32_MAX (occ + 1)
  | SlotReleased | SlotExpired | SlotCrashed => occ -sat 1
  end.

(** [fn record]. *)
Definition record (m : SlotMeter) (ev : SlotOccupancyEvent) : SlotMeter :=
  let t := ev_tenant ev in
  let occ := occ_step (ev_kind ev) (occupied m t) in
  let peaks := match ev_kind ev with
               | Acquired => <[t := Z.max (peak m t) occ]> (meter_peak m)
               | _ => meter_peak m
               end in
  let full := bool_decide (JOURNAL_CAP ≤ Z.of_nat (length (journal m))) in
  mkMeter (<[t := occ]> (meter_occupied m)) peaks
    ((if full then tail (journal m) else journal m) ++ [ev])
    (if full then journal_dropped m + 1 else journal_dropped m)
    (total_recorded m +sat 1).

(** [fn export_watermark]. *)
Definition export_watermark (m : SlotMeter) : Z := total_recorded m.

(** The loop of [drain_through]: pop while the front's sequence number is below
    the watermark. *)
Fixpoint drain_front (total watermark : Z) (j : list SlotOccupancyEvent)
  : list SlotOccupancyEvent :=
  match j with
  | [] => []
  | ev :: rest =>
    if bool_decide (total - Z.of_nat (length j) < watermark)
    then drain_front total watermark rest else j
  end.

Definition drain_through (m : SlotMeter) (watermark : Z) : SlotMeter :=
  mkMeter (meter_occupied m) (meter_peak m)
    (drain_front (total_recorded m) watermark (journal m))
    (journal_dropped m) (total_recorded m).

(** [struct TenantOccupancy], [struct OccupancySnapshot] and [fn snapshot]. *)
Record TenantOccupancy : Type := mkOccupancy {
  occ_tenant : TenantId; occ_occupied : Z; occ_peak : Z }.

Record OccupancySnapshot : Type := mkSnapshot {
  per_tenant : list TenantOccupancy; journal_len : Z; snap_dropped : Z }.

(** The two loops of [snapshot] over the maps: a row per tenant of either, with
    a zero for what the other does not have, in tenant order. *)
Definition snapshot (m : SlotMeter) : OccupancySnapshot :=
  let rows := union_with (λ a b : Z * Z, Some (a.1, b.2))
                ((λ occ, (occ, 0)) <$> meter_occupied m) ((λ pk, (0, pk)) <$> meter_peak m) in
  mkSnapshot ((λ row : TenantId * (Z * Z), mkOccupancy row.1 row.2.1 row.2.2) <$>
                sort_by_key (λ row, as_str row.1) (map_to_list rows))
    (Z.of_nat (length (journal m))) (journal_dropped m).

(** ** Runs of the meter and the history they record *)

Inductive meter_op : Type := MRecord (ev : SlotOccupancyEvent) | MDrain (watermark : Z).

Definition meter_step (m : SlotMeter) (o : meter_op) : SlotMeter :=
  match o with MRecord ev => record m ev | MDrain w => drain_through m w end.
Definition meter_run (os : list meter_op) (m : SlotMeter) : SlotMeter := foldl meter_step m os.

Definition recorded (os : list meter_op) : list SlotOccupancyEvent :=
  omap (λ o, match o with MRecord ev => Some ev | MDrain _ => None end) os.

(** How many events the drains of a run took out of the journal. *)
Fixpoint drained (os : list meter_op) (m : SlotMeter) : Z :=
  match os with
  | [] => 0
  | o :: os =>
    match o with
    | MRecord _ => 0
    | MDrain w => Z.of_nat (length (journal m)) - Z.of_nat (length (journal (drain_through m w)))
    end + drained os (meter_step m o)
  end.

(** The occupancy of a tenant after a history. *)
Definition occ_of (h : list SlotOccupancyEvent) (t : TenantId) : Z :=
  foldl (λ occ ev, if decide (ev_tenant ev = t) then occ_step (ev_kind ev) occ else occ) 0 h.

(** The meter against the history [h] of which [n] events have left the
    journal. *)
Record meter_inv (m : SlotMeter) (h : list SlotOccupancyEvent) (n : nat) : Prop := {
  mi_total : total_recorded m = Z.of_nat (length h);
  mi_journal : journal m = drop n h;
  mi_n : (n ≤ length h)%nat;
  mi_cap : Z.of_nat (length (journal m)) ≤ JOURNAL_CAP;
  mi_occ t : occupied m t = occ_of h t;
  mi_peak_ub t h' : h' `prefix_of` h → occ_of h' t ≤ peak m t;
  mi_peak_hit t : ∃ h', h' `prefix_of` h ∧ occ_of h' t = peak m t;
}.

Lemma meter_inv_new : meter_inv meter_new [] 0.
Proof.
  split; try done.
  - intros t h' ->%prefix_nil_inv. by unfold peak, meter_new; cbn; rewrite lookup_empty.
  - intros t. exists []. unfold peak, meter_new. cbn. by rewrite lookup_empty.
Qed.

Lemma occ_of_snoc h ev t :
  occ_of (h ++ [ev]) t =
  if decide (ev_tenant ev = t) then occ_step (ev_kind ev) (occ_of h t) else occ_of h t.
Proof. unfold occ_of. by rewrite foldl_app. Qed.

Lemma occ_of_filter h t : occ_of h t = occ_of (filter (λ ev, ev_tenant ev = t) h) t.
Proof.
  induction h as [|ev h IH] using rev_ind; [done|].
  rewrite filter_app, occ_of_snoc, filter_cons. case_decide as Ht.
  - cbn. by rewrite occ_of_snoc, decide_True, IH.
  - cbn. by rewrite app_nil_r.
Qed.

Lemma occ_of_nonneg h t : 0 ≤ occ_of h t.
Proof.
  induction h as [|ev h IH] using rev_ind; [done|]. rewrite occ_of_snoc.
  case_decide; [|done]. unfold occ_step. case_match; mlia.
Qed.

Lemma prefix_snoc_cases {A} (l h : list A) x :
  l `prefix_of` h ++ [x] → l `prefix_of` h ∨ l = h ++ [x].
Proof.
  intros [k Hk]. destruct k as [|y k _] using rev_ind.
  - right. by rewrite app_nil_r in Hk.
  - left. rewrite app_assoc in Hk. apply app_inj_tail in Hk as [-> _]. by exists k.
Qed.

Lemma record_peak m ev t :
  peak (record m ev) t =
  match ev_kind ev with
  | Acquired => if decide (ev_tenant ev = t)
                then Z.max (peak m t) (occ_step Acquired (occupied m t)) else peak m t
  | _ => peak m t
  end.
Proof.
  unfold record, peak. destruct (ev_kind ev) eqn:Hk; cbn; [|done..].
  case_decide as Ht; [subst t; by rewrite lookup_insert_eq|by rewrite lookup_insert_ne].
Qed.

Lemma record_occupied m ev t :
  occupied (record m ev) t =
  if decide (ev_tenant ev = t) then occ_step (ev_kind ev) (occupied m t) else occupied m t.
Proof.
  unfold record, occupied. cbn. case_decide as Ht.
  - subst t. by rewrite lookup_insert_eq.
  - by rewrite lookup_insert_ne.
Qed.

Lemma meter_inv_record m h n ev :
  meter_inv m h n → Z.of_nat (length h) < U64_MAX →
  ∃ k, meter_inv (record m ev) (h ++ [ev]) (n + k) ∧
    journal_dropped (record m ev) = journal_dropped m + Z.of_nat k.
Proof.
  intros [Htot Hj Hn Hcap Hocc Hub Hhit] Hlen.
  assert (∀ t, occupied (record m ev) t = occ_of (h ++ [ev]) t) as Hocc'.
  { intros t. by rewrite record_occupied, occ_of_snoc, Hocc. }
  assert (∀ t, peak m t ≤ peak (record m ev) t ∧ occ_of (h ++ [ev]) t ≤ peak (record m ev) t ∧
    (peak (record m ev) t = peak m t ∨ peak (record m ev) t = occ_of (h ++ [ev]) t)) as Hpeak.
  { intros t. rewrite record_peak, occ_of_snoc, Hocc.
    pose proof (Hub t h ltac:(done)). pose proof (occ_of_nonneg h t).
    destruct (ev_kind ev); cbn [occ_step]; case_decide; mlia. }
  set (k := if decide (JOURNAL_CAP ≤ Z.of_nat (length (journal m))) then 1%nat else 0%nat).
  assert (n + k ≤ length h)%nat as Hk.
  { unfold k. case_decide as Hd; [|lia]. rewrite Hj, length_drop in Hd.
    unfold JOURNAL_CAP in Hd. lia. }
  exists k. split; [split|].
  - cbn. rewrite Htot, length_app. cbn. mlia.
  - cbn. fold k. rewrite drop_app_le by lia. f_equal. unfold k. rewrite Hj.
    case_bool_decide; case_decide; try done; rewrite ?Hj in *; try lia.
    + rewrite <-drop_drop. by destruct (drop n h).
    + by rewrite Nat.add_0_r.
  - rewrite length_app. lia.
  - cbn. rewrite length_app. cbn. case_bool_decide; [|lia].
    unfold JOURNAL_CAP in *. destruct (journal m); cbn in *; lia.
  - done.
  - intros t h' [Hp| ->]%prefix_snoc_cases; [|apply Hpeak].
    etrans; [by apply Hub|apply Hpeak].
  - intros t. destruct (Hpeak t) as (_ & _ & [->| ->]).
    + destruct (Hhit t) as (h' & Hp & ?). exists h'. split; [by apply prefix_app_r|done].
    + by exists (h ++ [ev]).
  - cbn. unfold k. case_bool_decide; case_decide; lia.
Qed.

(** A drain removes the events below the watermark, and nothing else. *)
Lemma drain_front_drop h n w :
  (n ≤ length h)%nat →
  drain_front (Z.of_nat (length h)) w (drop n h) =
  drop (Nat.max n (Z.to_nat (Z.min w (Z.of_nat (length h))))) h.
Proof.
  intros Hn. remember (length h - n)%nat as d eqn:Hd. revert n Hn Hd.
  induction d as [|d IH]; intros n Hn Hd.
  { rewrite !drop_ge by lia. done. }
  destruct (drop n h) as [|ev rest] eqn:E.
  { apply (f_equal length) in E. rewrite length_drop in E. cbn in E. lia. }
  assert (rest = drop (S n) h) as Hrest.
  { rewrite <-Nat.add_1_r, <-drop_drop, E. done. }
  cbn [drain_front]. rewrite <-E, length_drop. case_bool_decide as Hw.
  - rewrite Hrest, IH by lia. f_equal. lia.
  - f_equal. lia.
Qed.

Lemma meter_inv_drain m h n w :
  meter_inv m h n →
  meter_inv (drain_through m w) h (Nat.max n (Z.to_nat (Z.min w (Z.of_nat (length h))))).
Proof.
  intros [Htot Hj Hn Hcap Hocc Hub Hhit]. split; try done; cbn.
  - by rewrite Htot, Hj, drain_front_drop.
  - lia.
  - rewrite Htot, Hj, drain_front_drop by done. rewrite Hj in Hcap.
    rewrite length_drop in *. lia.
Qed.

(** The invariant along a run. *)
Lemma meter_run_inv os m h n :
  meter_inv m h n → Z.of_nat (length (h ++ recorded os)) ≤ U64_MAX →
  ∃ n', meter_inv (meter_run os m) (h ++ recorded os) n' ∧
    Z.of_nat n' = Z.of_nat n + (journal_dropped (meter_run os m) - journal_dropped m) + drained os m.
Proof.
  unfold meter_run. revert m h n. induction os as [|o os IH]; intros m h n Hinv Hlen.
  { exists n. cbn. rewrite app_nil_r. split; [done|lia]. }
  destruct o as [ev|w]; cbn [foldl drained meter_step].
  - assert (recorded (MRecord ev :: os) = [ev] ++ recorded os) as Hrec by done.
    rewrite Hrec, app_assoc in *. rewrite !length_app in Hlen. cbn in Hlen.
    destruct (meter_inv_record m h n ev Hinv ltac:(lia)) as (k & Hinv' & Hdrop).
    destruct (IH _ _ _ Hinv' ltac:(rewrite !length_app; cbn; lia)) as (n' & Hinv'' & Heq).
    exists n'. split; [done|]. lia.
  - pose proof (meter_inv_drain m h n w Hinv) as Hinv'.
    destruct (IH _ _ _ Hinv' Hlen) as (n' & Hinv'' & Heq). exists n'. split; [done|].
    rewrite (mi_journal _ _ _ Hinv), (mi_journal _ _ _ Hinv'), !length_drop.
    pose proof (mi_n _ _ _ Hinv). pose proof (mi_n _ _ _ Hinv'). cbn in Heq. lia.
Qed.

(** ** The theorems *)

(** No billing event is lost silently.  After any recording and draining
    (fewer than 2^64 events), the journal is exactly the most recent part of the
    recorded history, in order and within its cap, and every event that is no
    longer there was either drained or counted as dropped. *)
Theorem journal_is_recent_history os :
  Z.of_nat (length (recorded os)) ≤ U64_MAX →
  let m := meter_run os meter_new in
  ∃ n, journal m = drop n (recorded os) ∧ (n ≤ length (recorded os))%nat ∧
    Z.of_nat (length (journal m)) ≤ JOURNAL_CAP ∧
    Z.of_nat n = journal_dropped m + drained os meter_new ∧
    export_watermark m = Z.of_nat (length (recorded os)).
Proof.
  intros Hlen m. destruct (meter_run_inv os _ _ _ meter_inv_new Hlen) as (n & Hinv & Heq).
  exists n. destruct Hinv. cbn in Heq. unfold m. split_and!; try done. lia.
Qed.

(** A drain takes exactly what the export persisted.  When the exporter reads
    the journal and its watermark, other events are recorded meanwhile, and it
    then drains through that watermark, what is left is exactly the events
    recorded after the read that the cap has not evicted: none of the persisted
    window stays, and no newer event goes. *)
Theorem drain_takes_exported_window os1 os2 :
  Z.of_nat (length (recorded os1 ++ recorded os2)) ≤ U64_MAX →
  let m0 := meter_run os1 meter_new in
  let m1 := meter_run os2 m0 in
  let m2 := drain_through m1 (export_watermark m0) in
  let left := Nat.min (length (journal m1)) (length (recorded os2)) in
  journal m2 = drop (length (recorded os2) - left) (recorded os2).
Proof.
  intros Hlen m0 m1 m2 left. rewrite length_app in Hlen.
  destruct (meter_run_inv os1 _ _ _ meter_inv_new ltac:(cbn; lia)) as (n0 & Hinv0 & _).
  destruct (meter_run_inv os2 _ _ _ Hinv0 ltac:(rewrite !length_app; cbn; lia)) as (n1 & Hinv1 & _).
  cbn [app] in *. fold m0 in Hinv0, Hinv1. fold m1 in Hinv1.
  pose proof (meter_inv_drain m1 _ _ (export_watermark m0) Hinv1) as Hinv2.
  unfold m2. rewrite (mi_journal _ _ _ Hinv2). unfold export_watermark in *.
  rewrite (mi_total _ _ _ Hinv0). pose proof (mi_n _ _ _ Hinv1) as Hn1.
  pose proof (f_equal length (mi_journal _ _ _ Hinv1)) as Hj1.
  rewrite length_drop in Hj1. unfold left. rewrite length_app in *.
  rewrite drop_app_ge by lia. f_equal. lia.
Qed.

(** Occupancy and peak are those of the tenant's own history.  After any
    recording and draining, the occupied count of a tenant is the saturated
    running count of that tenant's events alone, and its peak is the largest such
    count at any moment, attained and never exceeded. *)
Theorem occupancy_follows_history os t :
  Z.of_nat (length (recorded os)) ≤ U64_MAX →
  let m := meter_run os meter_new in
  occupied m t = occ_of (filter (λ ev, ev_tenant ev = t) (recorded os)) t ∧
  (∀ h, h `prefix_of` recorded os → occ_of h t ≤ peak m t) ∧
  (∃ h, h `prefix_of` recorded os ∧ occ_of h t = peak m t).
Proof.
  intros Hlen m. destruct (meter_run_inv os _ _ _ meter_inv_new Hlen) as (n & Hinv & _).
  split_and!; [|apply (mi_peak_ub _ _ _ Hinv)|apply (mi_peak_hit _ _ _ Hinv)].
  unfold m. by rewrite (mi_occ _ _ _ Hinv), occ_of_filter.
Qed.

(** ** Witnesses *)
Definition sample_event (kind : SlotEventKind) (id : string) : SlotOccupancyEvent :=
  mkSlotEvent (mkTenantId "acme") id kind 1000 None.
Definition sample_meter_ops : list meter_op :=
  [MRecord (sample_event Acquired "a"); MRecord (sample_event Acquired "b"); MDrain 1;
   MRecord (sample_event SlotReleased "a")].

Lemma journal_is_recent_history_witness :
  ∃ n, journal (meter_run sample_meter_ops meter_new) = drop n (recorded sample_meter_ops).
Proof.
  destruct (journal_is_recent_history sample_meter_ops) as (n & Hj & _).
  - vm_compute. discriminate.
  - exists n. exact Hj.
Defined.

Lemma drain_takes_exported_window_witness :
  journal (drain_through (meter_run [MRecord (sample_event SlotReleased "a")]
    (meter_run sample_meter_ops meter_new)) 3) = [sample_event SlotReleased "a"].
Proof.
  assert (Z.of_nat (length (recorded sample_meter_ops ++
    recorded [MRecord (sample_event SlotReleased "a")])) ≤ U64_MAX) as Hlen
    by (vm_compute; discriminate).
  exact (drain_takes_exported_window sample_meter_ops [MRecord (sample_event SlotReleased "a")] Hlen).
Defined.

Lemma occupancy_follows_history_witness :
  occupied (meter_run sample_meter_ops meter_new) (mkTenantId "acme") = 1.
Proof.
  destruct (occupancy_follows_history sample_meter_ops (mkTenantId "acme")) as [Ho _].
  - vm_compute. discriminate.
  - rewrite Ho. vm_compute. reflexivity.
Defined.
