(* ===== verification/Scheduler.v ===== *)
(** * The fair scheduler

    Models [crates/corelink-fabric/src/scheduler.rs]: the per-tenant FIFOs with
    their admission bound, the rotation order with its owed-first prefix, and
    [tick] with its two seam closures over an arbitrary environment.  The tick
    loop runs with fuel; [tick_fuel_enough] shows that the budget plus one is
    always enough. *)
From S2P Require Import Prelude Tenant.

Definition WAIT_RING_CAPACITY : nat := Nat.pow 2 10.
Definition MAX_TENANT_QUEUE_DEPTH : nat := Nat.pow 2 12.

(** [struct WorkItem]. *)
Record WorkItem : Type := mkWork {
  work_id : string;
  work_tenant : TenantId;
  enqueued_at_ms : Z;
}.

(** ** [TenantQueues] *)
Abbreviation TenantQueues := (gmap TenantId (list WorkItem)).

Definition queue (q : TenantQueues) (t : TenantId) : list WorkItem := default [] (q !! t).

Definition try_enqueue (q : TenantQueues) (item : WorkItem)
  : TenantQueues * result WorkItem unit :=
  let t := work_tenant item in
  let fifo := queue q t in
  if bool_decide (MAX_TENANT_QUEUE_DEPTH ≤ length fifo)%nat
  then (match fifo with [] => delete t q | _ => q end, Err item)
  else (<[t := fifo ++ [item]]> q, Ok ()).

Definition pending (q : TenantQueues) (t : TenantId) : nat := length (queue q t).

Definition total_pending (q : TenantQueues) : Z := map_sum (λ _ fifo, Z.of_nat (length fifo)) q.

(** Keys of a [BTreeMap] in order, filtered. *)
Definition tenants_with_work (q : TenantQueues) : list TenantId :=
  merge_sort tenant_le (filter (λ t, queue q t ≠ []) (map_to_list q).*1).

Definition front (q : TenantQueues) (t : TenantId) : option WorkItem := head (queue q t).

Definition pop_front (q : TenantQueues) (t : TenantId) : option WorkItem * TenantQueues :=
  match q !! t with
  | None => (None, q)
  | Some fifo =>
    let rest := tail fifo in
    (head fifo, match rest with [] => delete t q | _ => <[t := rest]> q end)
  end.

(** ** [FairScheduler] *)

Record TickReport : Type := mkReport {
  dispatched : list string;
  skipped_over_cap : nat;
  waits_ms : list (TenantId * Z);
}.

Record FairScheduler : Type := mkSched {
  global_slots : nat;
  queues : TenantQueues;
  cursor : option TenantId;
  owed_skip : gset TenantId;
  waits : gmap TenantId (list Z);
}.

Definition sched_new (slots : nat) : FairScheduler := mkSched slots ∅ None ∅ ∅.

Definition enqueue (s : FairScheduler) (item : WorkItem) : FairScheduler * result WorkItem unit :=
  let '(q, r) := try_enqueue (queues s) item in
  (mkSched (global_slots s) q (cursor s) (owed_skip s) (waits s), r).

(** [rest.rotate_left(position of the first key after the cursor, else 0)]. *)
Definition rotate_after (cur : TenantId) (rest : list TenantId) : list TenantId :=
  match list_find (λ t, tenant_lt cur t) rest with
  | Some (start, _) => drop start rest ++ take start rest
  | None => rest
  end.

(** [fn rotation_order]. *)
Definition rotation_order (s : FairScheduler) (parked : gset TenantId) : list TenantId :=
  let eligible := filter (λ t, t ∉ parked) (tenants_with_work (queues s)) in
  let owed := filter (λ t, t ∈ owed_skip s) eligible in
  let rest := filter (λ t, t ∉ owed_skip s) eligible in
  owed ++ match cursor s with Some cur => rotate_after cur rest | None => rest end.

Section tick.
Context {E : Type} (cap_check : E → TenantId → bool) (dispatch : WorkItem → E → E * bool).
Context (now_ms : Z).

(** The locals of [tick], with the environment the closures act on. *)
Record TickState : Type := mkTick {
  ts_sched : FairScheduler;
  ts_env : E;
  ts_report : TickReport;
  ts_remaining : nat;
  ts_parked : gset TenantId;
  ts_progressed : bool;
}.

(** One dispatch of the tenant's head. *)
Definition dispatched_step (st : TickState) (tn : TenantId) (env : E) : TickState :=
  let s := ts_sched st in
  match pop_front (queues s) tn with
  | (Some item, q) =>
    mkTick (mkSched (global_slots s) q (Some tn) (owed_skip s ∖ {[tn]}) (waits s)) env
      (mkReport (dispatched (ts_report st) ++ [work_id item]) (skipped_over_cap (ts_report st))
         (waits_ms (ts_report st) ++ [(tn, now_ms -sat enqueued_at_ms item)]))
      (ts_remaining st - 1) (ts_parked st) true
  | (None, _) => st
  end.

(** The body of the [for] over the rotation order. *)
Definition tick_tenant (st : TickState) (tn : TenantId) : TickState :=
  let s := ts_sched st in
  if bool_decide (tn ∈ ts_parked st) then st
  else if negb (cap_check (ts_env st) tn) then
    mkTick (mkSched (global_slots s) (queues s) (cursor s) ({[tn]} ∪ owed_skip s) (waits s))
      (ts_env st)
      (mkReport (dispatched (ts_report st)) (S (skipped_over_cap (ts_report st)))
         (waits_ms (ts_report st)))
      (ts_remaining st) ({[tn]} ∪ ts_parked st) (ts_progressed st)
  else match front (queues s) tn with
       | None => st
       | Some item =>
         let '(env, ok) := dispatch item (ts_env st) in
         if ok then dispatched_step st tn env
         else mkTick s env (ts_report st) (ts_remaining st) ({[tn]} ∪ ts_parked st)
                (ts_progressed st)
       end.

Fixpoint tick_pass (order : list TenantId) (st : TickState) : TickState :=
  match order with
  | [] => st
  | tn :: order =>
    match ts_remaining st with
    | O => st
    | S _ => tick_pass order (tick_tenant st tn)
    end
  end.

(** The [while remaining > 0]. *)
Fixpoint tick_loop (fuel : nat) (st : TickState) : TickState :=
  match fuel with
  | O => st
  | S fuel =>
    match ts_remaining st with
    | O => st
    | S _ =>
      match rotation_order (ts_sched st) (ts_parked st) with
      | [] => st
      | order =>
        let st' := tick_pass order
          (mkTick (ts_sched st) (ts_env st) (ts_report st) (ts_remaining st) (ts_parked st) false) in
        if ts_progressed st' then tick_loop fuel st' else st'
      end
    end
  end.

Definition tick_init (s : FairScheduler) (env : E) : TickState :=
  mkTick s env (mkReport [] 0 []) (global_slots s) ∅ false.

(** [fn tick], with the final [retain] of the owed set. *)
Definition tick_fueled (fuel : nat) (s : FairScheduler) (env : E)
  : FairScheduler * E * TickReport :=
  let st := tick_loop fuel (tick_init s env) in
  let s' := ts_sched st in
  (mkSched (global_slots s') (queues s') (cursor s')
     (filter (λ t, (0 < pending (queues s') t)%nat) (owed_skip s')) (waits s'),
   ts_env st, ts_report st).

Definition tick (s : FairScheduler) (env : E) : FairScheduler * E * TickReport :=
  tick_fueled (S (global_slots s)) s env.
End tick.

(** [fn record_dispatch_wait]: a ring of the last waits. *)
Definition push_ring (ring : list Z) (wait_ms : Z) : list Z :=
  (if bool_decide (length ring = WAIT_RING_CAPACITY) then tail ring else ring) ++ [wait_ms].

Definition record_dispatch_wait (s : FairScheduler) (t : TenantId) (wait_ms : Z) : FairScheduler :=
  mkSched (global_slots s) (queues s) (cursor s) (owed_skip s)
    (<[t := push_ring (default [] (waits s !! t)) wait_ms]> (waits s)).

(** [sorted.sort_unstable()] and the nearest-rank index
    [(len * percentile).div_ceil(100).max(1) - 1]. *)
Definition sort_waits (l : list Z) : list Z := merge_sort Z.le l.

Definition nearest_rank_index (len percentile : nat) : nat :=
  (Nat.max 1 (Z.to_nat ((Z.of_nat (len * percentile) + 99) / 100)) - 1)%nat.

Definition p95_wait_ms (s : FairScheduler) (t : TenantId) : option Z :=
  match waits s !! t with
  | None | Some [] => None
  | Some ring => sort_waits ring !! nearest_rank_index (length ring) 95
  end.
