(* ===== verification/SchedulerProofs.v ===== *)
(** * Theorems of the fair scheduler

    Conservation and order of the queues, the budget, termination of the tick
    loop, fairness between tenants within a tick, the priority of owed turns and
    the percentile of the wait ring. *)
From S2P Require Import Prelude Tenant Scheduler.

(** ** Queues *)

(** Items queue under their own tenant. *)
Definition queues_ok (q : TenantQueues) : Prop :=
  ∀ t, Forall (λ it, work_tenant it = t) (queue q t).

Lemma queue_insert q t fifo u :
  queue (<[t := fifo]> q) u = if decide (u = t) then fifo else queue q u.
Proof.
  unfold queue. case_decide as Hd; [subst; by rewrite lookup_insert_eq|].
  by rewrite lookup_insert_ne.
Qed.

Lemma queue_delete q t u : queue (delete t q) u = if decide (u = t) then [] else queue q u.
Proof.
  unfold queue. case_decide as Hd; [subst; by rewrite lookup_delete_eq|].
  by rewrite lookup_delete_ne.
Qed.

Lemma pop_front_spec q t :
  (pop_front q t).1 = front q t ∧
  ∀ u, queue (pop_front q t).2 u = if decide (u = t) then tail (queue q t) else queue q u.
Proof.
  unfold pop_front, front. change (queue q t) with (default [] (q !! t)).
  destruct (q !! t) as [fifo|] eqn:E; cbn.
  - split; [done|]. intros u. destruct (tail fifo) as [|x l].
    + apply queue_delete.
    + apply queue_insert.
  - split; [done|]. intros u. case_decide as Hd; [subst|done]. unfold queue. by rewrite E.
Qed.

Lemma elem_of_tenants_with_work q t : t ∈ tenants_with_work q ↔ queue q t ≠ [].
Proof.
  unfold tenants_with_work. rewrite merge_sort_Permutation, list_elem_of_filter.
  split; [by intros [? _]|]. intros Hq. split; [done|]. unfold queue in Hq.
  destruct (q !! t) as [fifo|] eqn:E; [|done].
  apply list_elem_of_fmap. exists (t, fifo). by rewrite elem_of_map_to_list.
Qed.

Lemma tenants_with_work_NoDup q : NoDup (tenants_with_work q).
Proof.
  unfold tenants_with_work. rewrite merge_sort_Permutation.
  apply NoDup_filter, NoDup_fst_map_to_list.
Qed.

Lemma rotate_after_perm cur rest : rotate_after cur rest ≡ₚ rest.
Proof.
  unfold rotate_after. destruct (list_find _ rest) as [[n x]|]; [|done].
  rewrite Permutation_app_comm. by rewrite take_drop.
Qed.

Lemma rotation_order_perm s parked :
  rotation_order s parked ≡ₚ filter (λ t, t ∉ parked) (tenants_with_work (queues s)).
Proof.
  unfold rotation_order. set (l := filter _ (tenants_with_work _)).
  assert (match cursor s with Some cur => rotate_after cur (filter (λ t, t ∉ owed_skip s) l)
    | None => filter (λ t, t ∉ owed_skip s) l end ≡ₚ filter (λ t, t ∉ owed_skip s) l) as ->.
  { destruct (cursor s); [apply rotate_after_perm|done]. }
  clear. induction l as [|t l IH]; [done|]. rewrite !filter_cons.
  destruct (decide (t ∈ owed_skip s)).
  - rewrite decide_False by auto. cbn. by rewrite IH.
  - rewrite decide_True by auto. rewrite <-Permutation_middle. by rewrite IH.
Qed.

Lemma rotation_order_NoDup s parked : NoDup (rotation_order s parked).
Proof. rewrite rotation_order_perm. apply NoDup_filter, tenants_with_work_NoDup. Qed.

Lemma elem_of_rotation_order s parked t :
  t ∈ rotation_order s parked ↔ (t ∉ parked) ∧ queue (queues s) t ≠ [].
Proof.
  rewrite rotation_order_perm, list_elem_of_filter. by rewrite elem_of_tenants_with_work.
Qed.

(** How many of the items are a tenant's. *)
Definition count (items : list WorkItem) (t : TenantId) : nat :=
  length (filter (λ it, work_tenant it = t) items).

Lemma count_snoc items it t :
  count (items ++ [it]) t = (count items t + if decide (work_tenant it = t) then 1 else 0)%nat.
Proof.
  unfold count. rewrite filter_app, length_app, filter_cons. by case_decide.
Qed.

Lemma count_mono items items' t : items `prefix_of` items' → (count items t ≤ count items' t)%nat.
Proof. intros [k ->]. unfold count. rewrite filter_app, length_app. lia. Qed.

Lemma count_pos items t : (0 < count items t)%nat ↔ ∃ it, it ∈ items ∧ work_tenant it = t.
Proof.
  unfold count. split.
  - intros Hlen. destruct (filter _ items) as [|it l] eqn:Ef; [cbn in Hlen; lia|].
    exists it. apply and_comm, (list_elem_of_filter (λ it, work_tenant it = t)). rewrite Ef. set_solver.
  - intros (it & Hin & Ht). destruct (filter (λ it, work_tenant it = t) items) as [|x l] eqn:Ef; [|cbn; lia].
    assert (it ∈ filter (λ it, work_tenant it = t) items) as Hf by (by apply list_elem_of_filter).
    rewrite Ef in Hf. by apply elem_of_nil in Hf.
Qed.

(** ** One tick *)
Section tick.
Context {E : Type} (cap_check : E → TenantId → bool) (dispatch : WorkItem → E → E * bool).
Context (now_ms : Z).
Abbreviation tenant_step := (tick_tenant cap_check dispatch now_ms).
Abbreviation pass := (tick_pass cap_check dispatch now_ms).
Abbreviation loop := (tick_loop cap_check dispatch now_ms).

(** What the tick has done so far: the items it handed out, in order. *)
Record tick_inv (s0 : FairScheduler) (st : TickState (E := E)) (items : list WorkItem) : Prop := {
  ti_ids : Scheduler.dispatched (ts_report st) = work_id <$> items;
  ti_waits : waits_ms (ts_report st) =
    (λ it, (work_tenant it, now_ms -sat enqueued_at_ms it)) <$> items;
  ti_queue t : queue (queues s0) t =
    filter (λ it, work_tenant it = t) items ++ queue (queues (ts_sched st)) t;
  ti_budget : (length items + ts_remaining st = global_slots s0)%nat;
}.

(** A tenant the closures always let through. *)
Definition unhindered (t : TenantId) : Prop :=
  (∀ e, cap_check e t = true) ∧ ∀ e it, work_tenant it = t → (dispatch it e).2 = true.

(** The two outcomes of one tenant's turn. *)
Lemma tick_tenant_cases s0 st items tn :
  queues_ok (queues s0) → tick_inv s0 st items → (0 < ts_remaining st)%nat →
  (∃ items', tick_inv s0 (tenant_step st tn) items' ∧
     ((items' = items ∧ queues (ts_sched (tenant_step st tn)) = queues (ts_sched st) ∧
       ts_remaining (tenant_step st tn) = ts_remaining st ∧
       ts_progressed (tenant_step st tn) = ts_progressed st ∧
       (unhindered tn → tn ∉ ts_parked st → queue (queues (ts_sched st)) tn = [])) ∨
      (∃ it, items' = items ++ [it] ∧ work_tenant it = tn ∧
       S (ts_remaining (tenant_step st tn)) = ts_remaining st ∧
       ts_progressed (tenant_step st tn) = true ∧
       ∀ u, u ≠ tn → queue (queues (ts_sched (tenant_step st tn))) u = queue (queues (ts_sched st)) u))) ∧
  (∀ u, unhindered u → u ∉ ts_parked st → u ∉ ts_parked (tenant_step st tn)).
Proof.
  intros Hok Hinv Hrem.
  assert (∀ st', ts_report st' = ts_report st ∨ (Scheduler.dispatched (ts_report st') = Scheduler.dispatched (ts_report st) ∧ waits_ms (ts_report st') = waits_ms (ts_report st)) →
    queues (ts_sched st') = queues (ts_sched st) → ts_remaining st' = ts_remaining st →
    tick_inv s0 st' items) as Hsame.
  { intros st' Hrep Hq Hr. destruct Hinv as [Hi Hw Hqs Hb].
    assert (Scheduler.dispatched (ts_report st') = Scheduler.dispatched (ts_report st) ∧
      waits_ms (ts_report st') = waits_ms (ts_report st)) as [? ?]
      by (destruct Hrep as [->|?]; done).
    split; [congruence|congruence|by rewrite Hq|by rewrite Hr]. }
  unfold tick_tenant. case_bool_decide as Hp.
  { split; [|done]. exists items. split; [done|]. left. split_and!; try done. }
  destruct (cap_check (ts_env st) tn) eqn:Hcap; cbn [negb].
  2:{ split.
      - exists items. split; [apply Hsame; auto|]. left. split_and!; try done.
        intros [Hu _] _. by rewrite Hu in Hcap.
      - intros u [Hu _] Hnp. cbn. assert (u ≠ tn) by (intros ->; by rewrite Hu in Hcap).
        set_solver. }
  destruct (pop_front_spec (queues (ts_sched st)) tn) as [Hhd Htl].
  destruct (front (queues (ts_sched st)) tn) as [it|] eqn:Hf.
  2:{ split; [|done]. exists items. split; [done|]. left. split_and!; try done.
      intros _ _. unfold front in Hf. by destruct (queue (queues (ts_sched st)) tn). }
  assert (work_tenant it = tn) as Hit.
  { specialize (Hok tn). rewrite (ti_queue _ _ _ Hinv tn) in Hok.
    apply Forall_app in Hok as [_ Hok]. unfold front in Hf.
    destruct (queue (queues (ts_sched st)) tn); [done|]. cbn in Hf. simplify_eq.
    by apply Forall_cons in Hok as [? _]. }
  destruct (dispatch it (ts_env st)) as [env ok] eqn:Hd. destruct ok.
  2:{ split.
      - exists items. split; [apply Hsame; auto|]. left. split_and!; try done.
        intros [_ Hu] _. specialize (Hu (ts_env st) it Hit). by rewrite Hd in Hu.
      - intros u [_ Hu] Hnp. cbn.
        assert (u ≠ tn) by (intros ->; specialize (Hu (ts_env st) it Hit); by rewrite Hd in Hu).
        set_solver. }
  unfold dispatched_step. destruct (pop_front (queues (ts_sched st)) tn) as [o q'] eqn:Hpop.
  cbn in Hhd, Htl. subst o. split; [|done].
  exists (items ++ [it]). split.
  - destruct Hinv as [Hi Hw Hqs Hb]. split; cbn.
    + by rewrite Hi, fmap_app.
    + rewrite Hw, fmap_app. cbn. by rewrite Hit.
    + intros t. rewrite filter_app, filter_cons, Hqs, Htl, <-app_assoc. f_equal.
      case_decide as Ht; case_decide as Ht'; try congruence; [|done]. rewrite Ht'. cbn.
      unfold front in Hf. destruct (queue (queues (ts_sched st)) tn); [done|]. cbn in *.
      by simplify_eq.
    + rewrite length_app. cbn. lia.
  - right. exists it. cbn. split_and!; try done; [lia|].
    intros u Hu. rewrite Htl. by rewrite decide_False.
Qed.

(** What one pass over a rotation order does. *)
Record pass_result (order : list TenantId) (st st' : TickState (E := E))
    (items items' : list WorkItem) : Prop := {
  pr_ext : items `prefix_of` items';
  pr_remaining : (ts_remaining st' ≤ ts_remaining st)%nat;
  pr_once u : (count items' u ≤ count items u + 1)%nat;
  pr_outside u : u ∉ order → count items' u = count items u;
  pr_unparked u : unhindered u → u ∉ ts_parked st → u ∉ ts_parked st';
  pr_served t : unhindered t → t ∉ ts_parked st → t ∈ order →
    queue (queues (ts_sched st)) t ≠ [] → ts_remaining st' ≠ O →
    count items' t = (count items t + 1)%nat;
  pr_progress : ts_progressed st' = true →
    ts_progressed st = true ∨ (ts_remaining st' < ts_remaining st)%nat;
  pr_idle : ts_progressed st' = false → items' = items;
  pr_sticky : ts_progressed st = true → ts_progressed st' = true;
}.

Lemma tick_pass_spec s0 order st items :
  queues_ok (queues s0) → tick_inv s0 st items → NoDup order →
  ∃ items', tick_inv s0 (pass order st) items' ∧
    pass_result order st (pass order st) items items'.
Proof.
  intros Hok. revert st items. induction order as [|tn order IH]; intros st items Hinv Hnd.
  { exists items. split; [done|]. cbn. split; try done; try lia; [set_solver|auto]. }
  apply NoDup_cons in Hnd as [Hnin Hnd]. cbn [tick_pass].
  destruct (ts_remaining st) as [|k] eqn:Hrem.
  { exists items. split; [done|]. split; try done; try lia; auto. }
  destruct (tick_tenant_cases s0 st items tn Hok Hinv ltac:(lia)) as [(items1 & Hinv1 & Hcase) Hpark].
  destruct (IH (tenant_step st tn) items1 Hinv1 Hnd) as (items2 & Hinv2 & Hres).
  destruct Hres as [Hext Hrm Hone Hout Hunp Hsrv Hprog Hidle Hstk].
  exists items2. split; [done|].
  assert (count items2 tn = count items1 tn) as Htn by (by apply Hout).
  destruct Hcase as [(-> & Hq & Hr & Hp & Hempty)|(it & -> & Hit & Hr & Hp & Hq)].
  - split; try done.
    + lia.
    + intros u Hu. apply Hout. set_solver.
    + eauto.
    + intros t Hun Hnp Hin Hne Hrem'. apply elem_of_cons in Hin as [->|Hin].
      * by rewrite Hempty in Hne.
      * apply Hsrv; auto. by rewrite Hq.
    + rewrite <-Hp, <-Hr. done.
    + rewrite <-Hp. done.
  - assert (∀ u, count (items ++ [it]) u = (count items u + if decide (tn = u) then 1 else 0)%nat) as Hc.
    { intros u. rewrite count_snoc. by rewrite Hit. }
    split.
    + etrans; [by apply prefix_app_r|done].
    + lia.
    + intros u. specialize (Hone u). rewrite Hc in Hone. case_decide as Hu; [|lia].
      subst u. rewrite Htn, Hc. rewrite decide_True by done. lia.
    + intros u Hu. rewrite Hout, Hc by set_solver. rewrite decide_False by set_solver. lia.
    + eauto.
    + intros t Hun Hnp Hin Hne Hrem'. apply elem_of_cons in Hin as [->|Hin].
      * by rewrite Htn, Hc, decide_True.
      * assert (t ≠ tn) by (by intros ->). rewrite Hsrv; auto; [|by rewrite Hq].
        rewrite Hc, decide_False by done. lia.
    + intros _. right. lia.
    + intros Hf. rewrite Hstk in Hf by done. done.
    + auto.
Qed.

(** The loop: the invariant, and the fairness of the hand-outs towards a
    tenant that is let through and still has work. *)
Definition fair_to (t : TenantId) (st : TickState (E := E)) (items : list WorkItem) (slack : nat) : Prop :=
  unhindered t → (t ∉ ts_parked st) ∧
  (queue (queues (ts_sched st)) t ≠ [] → ∀ u, (count items u ≤ count items t + slack)%nat).

Lemma queue_shrinks s0 st st' items items' t :
  tick_inv s0 st items → tick_inv s0 st' items' → items `prefix_of` items' →
  queue (queues (ts_sched st')) t ≠ [] → queue (queues (ts_sched st)) t ≠ [].
Proof.
  intros [_ _ Hq _] [_ _ Hq' _] [k ->] Hne Hnil. specialize (Hq t). specialize (Hq' t).
  rewrite Hnil, app_nil_r in Hq. rewrite Hq, filter_app, <-app_assoc in Hq'.
  rewrite <-(app_nil_r (filter _ items)) in Hq' at 1. apply app_inv_head in Hq'.
  symmetry in Hq'. apply app_nil in Hq' as [_ ?]. done.
Qed.

Lemma tick_loop_spec s0 fuel st items :
  queues_ok (queues s0) → tick_inv s0 st items → (∀ t, fair_to t st items 0) →
  ∃ items', tick_inv s0 (loop fuel st) items' ∧ items `prefix_of` items' ∧
    (∀ t, fair_to t (loop fuel st) items' 1).
Proof.
  intros Hok. revert st items. induction fuel as [|fuel IH]; intros st items Hinv Hfair.
  { exists items. split_and!; [done|done|]. intros t Hun. destruct (Hfair t Hun) as [? Hf].
    split; [done|]. intros Hne u. specialize (Hf Hne u). lia. }
  cbn [tick_loop].
  assert (∃ items', tick_inv s0 st items' ∧ items `prefix_of` items' ∧ ∀ t, fair_to t st items' 1)
    as Hstop.
  { exists items. split_and!; [done|done|]. intros t Hun. destruct (Hfair t Hun) as [? Hf].
    split; [done|]. intros Hne u. specialize (Hf Hne u). lia. }
  destruct (ts_remaining st) as [|k] eqn:Hrem; [done|].
  destruct (rotation_order (ts_sched st) (ts_parked st)) as [|t0 order0] eqn:Hord; [done|].
  rewrite <-Hord. clear Hstop.
  set (st0 := mkTick _ _ _ _ _ false).
  assert (tick_inv s0 st0 items) as Hinv0 by (destruct Hinv; split; cbn; (done || lia)).
  destruct (tick_pass_spec s0 (rotation_order (ts_sched st) (ts_parked st)) st0 items Hok Hinv0
    ltac:(apply rotation_order_NoDup)) as (items1 & Hinv1 & Hres).
  set (st1 := pass _ st0) in *.
  assert (∀ t, fair_to t st1 items1 (if ts_remaining st1 is O then 1 else 0)) as Hfair1.
  { intros t Hun. destruct (Hfair t Hun) as [Hnp Hf]. split; [by apply (pr_unparked _ _ _ _ _ Hres)|].
    intros Hne u.
    pose proof (queue_shrinks s0 st0 st1 items items1 t Hinv0 Hinv1 (pr_ext _ _ _ _ _ Hres) Hne) as Hne0.
    specialize (Hf Hne0 u). pose proof (pr_once _ _ _ _ _ Hres u).
    pose proof (count_mono items items1 t (pr_ext _ _ _ _ _ Hres)).
    destruct (ts_remaining st1) as [|k1] eqn:Hrem1; [lia|].
    assert (count items1 t = count items t + 1)%nat; [|lia].
    apply (pr_served _ _ _ _ _ Hres); try done; [|by rewrite Hrem1].
    by apply elem_of_rotation_order. }
  destruct (ts_progressed st1) eqn:Hprog.
  - destruct (ts_remaining st1) as [|k1] eqn:Hrem1.
    + exists items1. destruct fuel as [|fuel]; cbn [tick_loop]; rewrite ?Hrem1;
        (split_and!; [done|apply (pr_ext _ _ _ _ _ Hres)|done]).
    + destruct (IH st1 items1 Hinv1 Hfair1) as (items2 & Hinv2 & Hext2 & Hfair2).
      exists items2. split_and!; try done. etrans; [apply (pr_ext _ _ _ _ _ Hres)|done].
  - exists items1. split_and!; [done|apply (pr_ext _ _ _ _ _ Hres)|].
    intros t Hun. destruct (Hfair1 t Hun) as [? Hf]. split; [done|]. intros Hne u.
    specialize (Hf Hne u). destruct (ts_remaining st1); lia.
Qed.

Lemma tick_loop_ext s0 fuel st items :
  queues_ok (queues s0) → tick_inv s0 st items →
  ∃ items', tick_inv s0 (loop fuel st) items' ∧ items `prefix_of` items'.
Proof.
  intros Hok. revert st items. induction fuel as [|fuel IH]; intros st items Hinv; [by eauto|].
  cbn [tick_loop]. destruct (ts_remaining st) as [|k] eqn:Hrem; [by eauto|].
  destruct (rotation_order (ts_sched st) (ts_parked st)) as [|t0 order0] eqn:Hord; [by eauto|].
  rewrite <-Hord. set (st0 := mkTick _ _ _ _ _ false).
  assert (tick_inv s0 st0 items) as Hinv0 by (destruct Hinv; split; cbn; (done || lia)).
  destruct (tick_pass_spec s0 (rotation_order (ts_sched st) (ts_parked st)) st0 items Hok Hinv0
    ltac:(apply rotation_order_NoDup)) as (items1 & Hinv1 & Hres).
  destruct (ts_progressed _); [|by eauto using pr_ext].
  destruct (IH _ _ Hinv1) as (items2 & ? & ?). exists items2. split; [done|].
  etrans; [apply (pr_ext _ _ _ _ _ Hres)|done].
Qed.

(** ** Fuel *)
Lemma tick_tenant_remaining st tn :
  (0 < ts_remaining st)%nat →
  (ts_remaining (tenant_step st tn) ≤ ts_remaining st)%nat ∧
  (ts_progressed (tenant_step st tn) = true →
   ts_progressed st = true ∨ (ts_remaining (tenant_step st tn) < ts_remaining st)%nat).
Proof.
  intros Hrem. unfold tick_tenant, dispatched_step.
  repeat case_match; simplify_eq/=; (split; [lia|]); auto; right; lia.
Qed.

Lemma tick_pass_remaining order st :
  (ts_remaining (pass order st) ≤ ts_remaining st)%nat ∧
  (ts_progressed (pass order st) = true →
   ts_progressed st = true ∨ (ts_remaining (pass order st) < ts_remaining st)%nat).
Proof.
  revert st. induction order as [|tn order IH]; intros st; cbn; [split; [lia|auto]|].
  destruct (ts_remaining st) as [|k] eqn:Hrem; [split; [lia|auto]|].
  destruct (tick_tenant_remaining st tn ltac:(lia)) as [Hle Hp].
  destruct (IH (tenant_step st tn)) as [Hle' Hp']. split; [lia|].
  intros [Hpr|Hlt]%Hp'; [destruct (Hp Hpr) as [?|?]; [auto|right; lia]|right; lia].
Qed.

Lemma tick_loop_fuel f1 f2 st :
  (ts_remaining st < f1)%nat → (ts_remaining st < f2)%nat → loop f1 st = loop f2 st.
Proof.
  revert f2 st. induction f1 as [|f1 IH]; intros [|f2] st H1 H2; try lia. cbn [tick_loop].
  destruct (ts_remaining st) as [|k] eqn:Hrem; [done|].
  destruct (rotation_order (ts_sched st) (ts_parked st)) as [|t0 order]; [done|].
  set (st0 := mkTick _ _ _ _ _ false).
  destruct (tick_pass_remaining (t0 :: order) st0) as [Hle Hp].
  destruct (ts_progressed (pass (t0 :: order) st0)); [|done].
  destruct (Hp eq_refl) as [?|Hlt]; [done|]. change (ts_remaining st0) with (S k) in Hlt. apply IH; lia.
Qed.

(** ** Owed turns *)
Lemma tick_pass_stop order st : ts_remaining st = O → pass order st = st.
Proof. intros Hr. destruct order; cbn; [done|]. by rewrite Hr. Qed.

Lemma tick_pass_app l1 l2 st : pass (l1 ++ l2) st = pass l2 (pass l1 st).
Proof.
  revert st. induction l1 as [|tn l1 IH]; intros st; [done|]. cbn.
  destruct (ts_remaining st) eqn:Hr; [|apply IH]. by rewrite tick_pass_stop.
Qed.

Lemma tick_loop_stop fuel st : ts_remaining st = O → loop fuel st = st.
Proof. intros Hr. destruct fuel; cbn; [done|]. by rewrite Hr. Qed.

Lemma queue_unserved s0 st st' items items' t :
  tick_inv s0 st items → tick_inv s0 st' items' → items `prefix_of` items' →
  count items' t = count items t →
  queue (queues (ts_sched st')) t = queue (queues (ts_sched st)) t.
Proof.
  intros [_ _ Hq _] [_ _ Hq' _] [k ->] Hc. specialize (Hq t). specialize (Hq' t).
  unfold count in Hc. rewrite filter_app, length_app in Hc.
  assert (filter (λ it, work_tenant it = t) k = []) as Hk by (apply length_zero_iff_nil; lia).
  rewrite Hq, filter_app, Hk, app_nil_r in Hq'. by apply app_inv_head in Hq'.
Qed.

(** The pass over a rotation order that puts [t] after the tenants [l1] only. *)
Lemma tick_pass_priority s0 l1 t l2 st :
  queues_ok (queues s0) → tick_inv s0 st [] → NoDup (l1 ++ t :: l2) →
  unhindered t → t ∉ ts_parked st → queue (queues (ts_sched st)) t ≠ [] →
  ∃ items, tick_inv s0 (pass (l1 ++ t :: l2) st) items ∧
    ((0 < count items t)%nat ∨
     ts_remaining (pass (l1 ++ t :: l2) st) = O ∧ ∀ it, it ∈ items → work_tenant it ∈ l1).
Proof.
  intros Hok Hinv Hnd Hun Hnp Hne. rewrite tick_pass_app.
  apply NoDup_app in Hnd as (Hnd1 & Hdis & Hnd2).
  destruct (tick_pass_spec s0 l1 st [] Hok Hinv Hnd1) as (items1 & Hinv1 & Hres1).
  assert (t ∉ l1) as Ht1 by set_solver.
  assert (∀ it, it ∈ items1 → work_tenant it ∈ l1) as Hl1.
  { intros it Hit. destruct (decide (work_tenant it ∈ l1)) as [|Hn]; [done|].
    pose proof (pr_outside _ _ _ _ _ Hres1 _ Hn) as Hc.
    assert (0 < count items1 (work_tenant it))%nat by (apply count_pos; eauto).
    cbn in Hc. lia. }
  destruct (ts_remaining (pass l1 st)) as [|k] eqn:Hrem.
  { exists items1. rewrite tick_pass_stop by done. auto. }
  destruct (tick_pass_spec s0 (t :: l2) (pass l1 st) items1 Hok Hinv1 Hnd2)
    as (items2 & Hinv2 & Hres2).
  exists items2. split; [done|]. left.
  cbn [tick_pass] in *. rewrite Hrem in *.
  destruct (tick_tenant_cases s0 (pass l1 st) items1 t Hok Hinv1 ltac:(lia)) as [(items' & Hinv' & Hcase) _].
  destruct Hcase as [(_ & _ & _ & _ & Hempty)|(it & -> & Hit & _)].
  { exfalso. apply Hne. rewrite <-(queue_unserved s0 st (pass l1 st) [] items1 t); try done.
    - apply Hempty; [done|]. by apply (pr_unparked _ _ _ _ _ Hres1).
    - apply (pr_ext _ _ _ _ _ Hres1).
    - by apply (pr_outside _ _ _ _ _ Hres1). }
  apply NoDup_cons in Hnd2 as [Hn2 Hnd2].
  destruct (tick_pass_spec s0 l2 _ _ Hok Hinv' Hnd2) as (items3 & Hinv3 & Hres3).
  assert (length (filter (λ it, work_tenant it = t) items2) = length (filter (λ it, work_tenant it = t) items3)).
  { pose proof (ti_queue _ _ _ Hinv2 t) as H2. pose proof (ti_queue _ _ _ Hinv3 t) as H3.
    rewrite H2 in H3. apply (f_equal length) in H3. rewrite !length_app in H3. lia. }
  unfold count. rewrite H. fold (count items3 t).
  pose proof (count_mono _ _ t (pr_ext _ _ _ _ _ Hres3)) as Hm.
  rewrite count_snoc, decide_True in Hm by done. lia.
Qed.
End tick.

(** ** Reports and runs *)

(** The ids a report hands out for a tenant, from its two parallel lists. *)
Definition tenant_ids (r : TickReport) (t : TenantId) : list string :=
  (filter (λ iw : string * (TenantId * Z), iw.2.1 = t)
     (zip (Scheduler.dispatched r) (waits_ms r))).*1.

Lemma tenant_ids_items r items now t :
  Scheduler.dispatched r = work_id <$> items →
  waits_ms r = (λ it, (work_tenant it, now -sat enqueued_at_ms it)) <$> items →
  tenant_ids r t = work_id <$> filter (λ it, work_tenant it = t) items.
Proof.
  intros Hd Hw. unfold tenant_ids. rewrite Hd, Hw. clear.
  induction items as [|it items IH]; [done|]. rewrite !fmap_cons. cbn [zip zip_with].
  rewrite !filter_cons. cbn [snd fst]. case_decide; [|done]. rewrite !fmap_cons. by rewrite IH.
Qed.

Section runs.
Context {E : Type} (cap_check : E → TenantId → bool) (dispatch : WorkItem → E → E * bool).

Lemma tick_spec now s env :
  queues_ok (queues s) →
  ∃ items,
    tick_inv now s (tick_loop cap_check dispatch now (S (global_slots s)) (tick_init s env)) items ∧
    ∀ t, fair_to cap_check dispatch t
      (tick_loop cap_check dispatch now (S (global_slots s)) (tick_init s env)) items 1.
Proof.
  intros Hok.
  destruct (tick_loop_spec cap_check dispatch now s (S (global_slots s)) (tick_init s env) [])
    as (items & Hinv & _ & Hfair); [done| | |by eauto].
  - by split.
  - intros t _. split; [set_solver|]. intros _ u. cbn. lia.
Qed.

(** The parts of a tick's result that the loop decides. *)
Lemma tick_shape now s env s' env' r :
  tick cap_check dispatch now s env = (s', env', r) →
  let st := tick_loop cap_check dispatch now (S (global_slots s)) (tick_init s env) in
  queues s' = queues (ts_sched st) ∧ r = ts_report st.
Proof.
  intros Ht. split.
  - change (queues s') with (queues (s', env', r).1.1). by rewrite <-Ht.
  - change r with (s', env', r).2. by rewrite <-Ht.
Qed.

Lemma tick_queues_ok now s env s' env' r :
  queues_ok (queues s) → tick cap_check dispatch now s env = (s', env', r) → queues_ok (queues s').
Proof.
  intros Hok Ht. destruct (tick_spec now s env Hok) as (items & Hinv & _).
  apply tick_shape in Ht as [-> _]. intros t. specialize (Hok t).
  rewrite (ti_queue _ _ _ _ Hinv t) in Hok. by apply Forall_app in Hok as [_ ?].
Qed.

Inductive sched_op : Type :=
| SEnqueue (item : WorkItem)
| STick (now : Z) (env : E).

Definition sched_step (s : FairScheduler) (o : sched_op) : FairScheduler :=
  match o with
  | SEnqueue item => (enqueue s item).1
  | STick now env => (tick cap_check dispatch now s env).1.1
  end.
Definition sched_run (os : list sched_op) (s : FairScheduler) : FairScheduler :=
  foldl sched_step s os.

(** The ids accepted for a tenant and the ids handed out for it, in order. *)
Fixpoint accepted (os : list sched_op) (s : FairScheduler) (t : TenantId) : list string :=
  match os with
  | [] => []
  | o :: os =>
    match o with
    | SEnqueue item =>
      if is_ok (enqueue s item).2 && bool_decide (work_tenant item = t) then [work_id item] else []
    | STick _ _ => []
    end ++ accepted os (sched_step s o) t
  end.

Fixpoint handed_out (os : list sched_op) (s : FairScheduler) (t : TenantId) : list string :=
  match os with
  | [] => []
  | o :: os =>
    match o with
    | SEnqueue _ => []
    | STick now env => tenant_ids (tick cap_check dispatch now s env).2 t
    end ++ handed_out os (sched_step s o) t
  end.

Definition bounded (q : TenantQueues) : Prop :=
  ∀ t, (length (queue q t) ≤ MAX_TENANT_QUEUE_DEPTH)%nat.

Lemma enqueue_spec s item :
  let '(s', r) := enqueue s item in
  queues_ok (queues s) → bounded (queues s) →
  queues_ok (queues s') ∧ bounded (queues s') ∧
  ∀ t, queue (queues s') t =
    queue (queues s) t ++ (if is_ok r && bool_decide (work_tenant item = t) then [item] else []).
Proof.
  unfold enqueue, try_enqueue. case_bool_decide as Hfull; cbn; intros Hok Hb.
  - assert (∀ q : TenantQueues, match queue (queues s) (work_tenant item) with [] => q | _ => queues s end = queues s) as ->.
    { intros q. destruct (queue (queues s) (work_tenant item)); [|done].
      cbn in Hfull. assert (MAX_TENANT_QUEUE_DEPTH ≠ 0)%nat by discriminate. lia. }
    split_and!; try done. intros t. by rewrite app_nil_r.
  - assert (∀ t, queue (<[work_tenant item:=queue (queues s) (work_tenant item) ++ [item]]> (queues s)) t =
      queue (queues s) t ++ (if bool_decide (work_tenant item = t) then [item] else [])) as Hq.
    { intros t. rewrite queue_insert. case_decide as Ht; case_bool_decide; subst; try done.
      by rewrite app_nil_r. }
    split_and!; [| |done].
    + intros t. rewrite Hq. apply Forall_app. split; [done|]. case_bool_decide; by constructor.
    + intros t. rewrite Hq, length_app. specialize (Hb t). case_bool_decide as Ht; cbn [length]; [|lia].
      subst t. lia.
Qed.

(** The scheduler never loses, duplicates or reorders a tenant's work.  Over
    any sequence of submissions and ticks, with any cap checks and dispatch
    answers, the ids accepted for a tenant are, in order, those handed out for it
    followed by those still pending, and no queue exceeds its depth bound. *)
Theorem scheduler_conserves_work os s t :
  queues_ok (queues s) → bounded (queues s) →
  let s' := sched_run os s in
  (work_id <$> queue (queues s) t) ++ accepted os s t =
    handed_out os s t ++ (work_id <$> queue (queues s') t) ∧
  (length (queue (queues s') t) ≤ MAX_TENANT_QUEUE_DEPTH)%nat.
Proof.
  unfold sched_run. revert s. induction os as [|o os IH]; intros s Hok Hb; cbn zeta.
  { cbn. rewrite app_nil_r. split; [done|apply Hb]. }
  cbn [foldl accepted handed_out]. destruct o as [item|now env]; cbn [sched_step].
  - pose proof (enqueue_spec s item) as Hspec. destruct (enqueue s item) as [s1 r]. cbn.
    destruct (Hspec Hok Hb) as (Hok1 & Hb1 & Hq). destruct (IH s1 Hok1 Hb1) as [IH1 IH2].
    split; [|done]. rewrite <-IH1, Hq, fmap_app, <-app_assoc.
    by destruct (is_ok r && bool_decide (work_tenant item = t)).
  - destruct (tick_spec now s env Hok) as (items & Hinv & _).
    destruct (tick cap_check dispatch now s env) as [[s1 env1] rep] eqn:Ht. cbn.
    pose proof (tick_queues_ok now s env s1 env1 rep Hok Ht) as Hok1.
    apply tick_shape in Ht as [Hqs Hrep].
    assert (bounded (queues s1)) as Hb1.
    { intros u. specialize (Hb u). rewrite (ti_queue _ _ _ _ Hinv u), length_app in Hb.
      rewrite Hqs. lia. }
    destruct (IH s1 Hok1 Hb1) as [IH1 IH2]. split; [|done].
    rewrite (ti_queue _ _ _ _ Hinv t), fmap_app, <-!app_assoc, <-Hqs, IH1.
    f_equal. symmetry. rewrite Hrep.
    by apply (tenant_ids_items _ items now); [apply Hinv|apply Hinv].
Qed.

(** A tick is fair.  Within one tick no tenant is handed more than one turn
    more than a tenant that is under its cap, is not refused by dispatch and
    still has work when the tick ends; and the tick hands out at most its
    budget. *)
Theorem tick_is_fair now s env t u :
  queues_ok (queues s) → unhindered cap_check dispatch t →
  let '(s', _, r) := tick cap_check dispatch now s env in
  (length (Scheduler.dispatched r) ≤ global_slots s)%nat ∧
  (queue (queues s') t ≠ [] →
   (length (tenant_ids r u) ≤ length (tenant_ids r t) + 1)%nat).
Proof.
  intros Hok Hun. destruct (tick_spec now s env Hok) as (items & Hinv & Hfair).
  destruct (tick cap_check dispatch now s env) as [[s1 env1] rep] eqn:Ht.
  apply tick_shape in Ht as [Hqs Hrep]. rewrite Hrep, Hqs. split.
  - rewrite (ti_ids _ _ _ _ Hinv), length_fmap. pose proof (ti_budget _ _ _ _ Hinv). lia.
  - intros Hne.
    rewrite !(tenant_ids_items _ items now) by apply Hinv. rewrite !length_fmap.
    by apply (proj2 (Hfair t Hun)).
Qed.

(** The first pass of a tick, and what the rest of it adds. *)
Lemma tick_first_pass now s env :
  queues_ok (queues s) →
  let st1 := tick_pass cap_check dispatch now (rotation_order s ∅) (tick_init s env) in
  (ts_remaining st1 = O → (tick cap_check dispatch now s env).2 = ts_report st1) ∧
  ∀ items, tick_inv now s st1 items →
    ∃ items', items `prefix_of` items' ∧
      Scheduler.dispatched (tick cap_check dispatch now s env).2 = work_id <$> items' ∧
      waits_ms (tick cap_check dispatch now s env).2 =
        (λ it, (work_tenant it, now -sat enqueued_at_ms it)) <$> items'.
Proof.
  intros Hok st1. unfold tick, tick_fueled. cbn [tick_loop snd].
  change (ts_remaining (tick_init s env)) with (global_slots s).
  change (rotation_order (ts_sched (tick_init s env)) (ts_parked (tick_init s env)))
    with (rotation_order s ∅).
  assert (global_slots s = O ∨ rotation_order s ∅ = [] → st1 = tick_init s env) as Hst1.
  { unfold st1. intros [Hz| ->]; [|done]. by apply tick_pass_stop. }
  assert (∀ (st : TickState (E := E)) items, tick_inv now s st items → ∃ items', items `prefix_of` items' ∧
    Scheduler.dispatched (ts_report st) = work_id <$> items' ∧
    waits_ms (ts_report st) = (λ it, (work_tenant it, now -sat enqueued_at_ms it)) <$> items') as Hrefl.
  { intros st items Hinv. exists items. by destruct Hinv. }
  destruct (global_slots s) as [|k] eqn:Hslots; [rewrite Hst1 by auto; eauto|].
  destruct (rotation_order s ∅) as [|t0 order] eqn:Hord; [rewrite Hst1 by auto; eauto|].
  assert (mkTick (ts_sched (tick_init s env)) (ts_env (tick_init s env))
    (ts_report (tick_init s env)) (S k) (ts_parked (tick_init s env)) false = tick_init s env)
    as Hinit by (unfold tick_init; cbn; by rewrite Hslots).
  rewrite Hinit. fold st1. destruct (ts_progressed st1); [|by eauto]. split.
  - intros Hr. by rewrite tick_loop_stop.
  - intros items Hinv. destruct (tick_loop_ext cap_check dispatch now s (S k) st1 items Hok Hinv)
      as (items' & Hinv' & Hext). exists items'. by destruct Hinv'.
Qed.

(** An owed turn is redeemed first.  A tenant that was skipped over its cap
    in an earlier tick, has work and is let through now, is handed a turn in this
    tick unless the whole budget went to other owed tenants. *)
Theorem owed_turn_first now s env t :
  queues_ok (queues s) → unhindered cap_check dispatch t →
  t ∈ owed_skip s → queue (queues s) t ≠ [] →
  let r := (tick cap_check dispatch now s env).2 in
  (∃ w, (t, w) ∈ waits_ms r) ∨ ∀ u w, (u, w) ∈ waits_ms r → u ∈ owed_skip s.
Proof.
  intros Hok Hun Howed Hne r.
  assert (∃ l1 l2, rotation_order s ∅ = l1 ++ t :: l2 ∧ ∀ u, u ∈ l1 → u ∈ owed_skip s)
    as (l1 & l2 & Hord & Hl1).
  { unfold rotation_order. set (el := filter _ (tenants_with_work _)).
    assert (t ∈ filter (λ t, t ∈ owed_skip s) el) as (l1 & l2 & Hsplit)%list_elem_of_split.
    { apply list_elem_of_filter. split; [done|]. apply list_elem_of_filter.
      split; [set_solver|]. by apply elem_of_tenants_with_work. }
    rewrite Hsplit, <-app_assoc. exists l1. eexists. split; [done|]. intros u Hu.
    assert (u ∈ filter (λ t, t ∈ owed_skip s) el) as [? _]%list_elem_of_filter; [|done].
    rewrite Hsplit. set_solver. }
  destruct (tick_first_pass now s env Hok) as [Hstop Hext]. rewrite Hord in Hstop, Hext.
  destruct (tick_pass_priority cap_check dispatch now s l1 t l2 (tick_init s env))
    as (items & Hinv & Hcase); try done.
  { rewrite <-Hord. apply rotation_order_NoDup. }
  destruct Hcase as [Hpos|[Hrem Hall]].
  - left. destruct (Hext items Hinv) as (items' & Hpre & _ & Hw). unfold r. rewrite Hw.
    pose proof (count_mono _ _ t Hpre).
    destruct (proj1 (count_pos items' t) ltac:(lia)) as (it & Hin & Hit). subst t.
    eexists. apply list_elem_of_fmap. eauto.
  - right. intros u w. unfold r. rewrite Hstop by done. rewrite (ti_waits _ _ _ _ Hinv).
    intros (it & [= -> _] & Hin)%list_elem_of_fmap. by apply Hl1, Hall.
Qed.

(** C38: The tick loop terminates within its budget.  One more pass than the
    budget is always enough: running the loop with any larger fuel gives the same
    scheduler, environment and report. *)
Theorem tick_fuel_enough now s env fuel :
  (global_slots s < fuel)%nat →
  tick_fueled cap_check dispatch now fuel s env = tick cap_check dispatch now s env.
Proof.
  intros Hf. unfold tick, tick_fueled.
  by rewrite (tick_loop_fuel cap_check dispatch now fuel (S (global_slots s)))
    by (cbn; lia).
Qed.
End runs.

(** ** Witnesses: two tenants, one over its cap for a tick *)
Definition acme_work (id : string) : WorkItem := mkWork id (mkTenantId "acme") 100.
Definition beta_work (id : string) : WorkItem := mkWork id (mkTenantId "beta") 100.
Definition accept_all : WorkItem → unit → unit * bool := λ _ e, (e, true).
Definition no_cap : unit → TenantId → bool := λ _ _, true.
Definition busy_sched : FairScheduler :=
  mkSched 3
    (<[mkTenantId "beta" := [beta_work "b1"; beta_work "b2"]]>
       (<[mkTenantId "acme" := [acme_work "a1"; acme_work "a2"; acme_work "a3"]]> ∅))
    None ∅ ∅.

Lemma busy_ok : queues_ok (queues busy_sched) ∧ bounded (queues busy_sched).
Proof.
  assert (∀ t, queue (queues busy_sched) t =
    if decide (t = mkTenantId "beta") then [beta_work "b1"; beta_work "b2"]
    else if decide (t = mkTenantId "acme") then [acme_work "a1"; acme_work "a2"; acme_work "a3"]
    else []) as Hq.
  { intros t. unfold busy_sched. cbn [queues]. by rewrite !queue_insert. }
  split; intros t; rewrite Hq; repeat case_decide; subst.
  1-3: by repeat constructor.
  all: apply Nat.leb_le; reflexivity.
Qed.

Lemma scheduler_conserves_work_witness :
  accepted no_cap accept_all [SEnqueue (acme_work "a1"); STick 200 ()] (sched_new 3) (mkTenantId "acme") =
  handed_out no_cap accept_all [SEnqueue (acme_work "a1"); STick 200 ()] (sched_new 3) (mkTenantId "acme") ++ [].
Proof.
  assert (queues_ok (queues (sched_new 3))) as Hok by (intros t; vm_compute; constructor).
  assert (bounded (queues (sched_new 3))) as Hb by (intros t; apply Nat.leb_le; reflexivity).
  exact (proj1 (scheduler_conserves_work no_cap accept_all
    [SEnqueue (acme_work "a1"); STick 200 ()] (sched_new 3) (mkTenantId "acme") Hok Hb)).
Defined.

Lemma tick_is_fair_witness :
  let '(_, _, r) := tick no_cap accept_all 200 busy_sched () in
  (length (tenant_ids r (mkTenantId "beta")) ≤ length (tenant_ids r (mkTenantId "acme")) + 1)%nat.
Proof.
  pose proof (tick_is_fair no_cap accept_all 200 busy_sched () (mkTenantId "acme")
    (mkTenantId "beta") (proj1 busy_ok) ltac:(split; reflexivity)) as H.
  apply H. vm_compute. discriminate.
Defined.

Definition owed_sched : FairScheduler :=
  mkSched 1 (queues busy_sched) (Some (mkTenantId "acme")) {[mkTenantId "beta"]} ∅.

Lemma owed_turn_first_witness :
  let r := (tick no_cap accept_all 200 owed_sched ()).2 in
  (∃ w, (mkTenantId "beta", w) ∈ waits_ms r) ∨
  ∀ u w, (u, w) ∈ waits_ms r → u ∈ owed_skip owed_sched.
Proof.
  apply (owed_turn_first no_cap accept_all 200 owed_sched () (mkTenantId "beta")).
  - exact (proj1 busy_ok).
  - split; reflexivity.
  - cbn [owed_skip owed_sched]. apply elem_of_singleton. reflexivity.
  - vm_compute. discriminate.
Defined.

Lemma tick_fuel_enough_witness :
  tick_fueled no_cap accept_all 200 9 busy_sched () = tick no_cap accept_all 200 busy_sched ().
Proof. apply tick_fuel_enough. vm_compute. repeat constructor. Defined.
