(* ===== verification/Interference.v ===== *)
(** * Per-tenant wait statistics

    Models [crates/corelink-fabric/src/interference.rs] and the percentile of
    [scheduler.rs]: one bounded ring of waits per tenant and the snapshot
    computed from it. *)
From S2P Require Import Prelude Tenant Scheduler.

Definition WAIT_BUCKET_BOUNDS_MS : list Z := [10; 50; 250; 1000; 5000].

(** [struct WaitSnapshot]; the default has six zero buckets. *)
Record WaitSnapshot : Type := mkWaitSnapshot {
  p50_ms : Z;
  p95_ms : Z;
  histogram : list Z;
  snap_count : Z;
}.

Definition wait_snapshot_default : WaitSnapshot := mkWaitSnapshot 0 0 [0; 0; 0; 0; 0; 0] 0.

(** [struct TenantWaitStats]: its rings. *)
Abbreviation TenantWaitStats := (gmap TenantId (list Z)).

(** [fn record], with the ring of the scheduler. *)
Definition record_wait (rings : TenantWaitStats) (t : TenantId) (wait_ms : Z) : TenantWaitStats :=
  <[t := push_ring (default [] (rings !! t)) wait_ms]> rings.

(** [fn observe_tick]. *)
Definition observe_tick (rings : TenantWaitStats) (report : TickReport) : TenantWaitStats :=
  foldl (λ rings tw, record_wait rings tw.1 tw.2) rings (waits_ms report).

(** [fn bucket_of]. *)
Definition bucket_of (wait_ms : Z) : nat :=
  match list_find (λ bound, wait_ms < bound) WAIT_BUCKET_BOUNDS_MS with
  | Some (i, _) => i
  | None => length WAIT_BUCKET_BOUNDS_MS
  end.

(** [fn nearest_rank]; [None] is the out-of-bounds panic. *)
Definition nearest_rank (sorted : list Z) (percentile : nat) : option Z :=
  sorted !! nearest_rank_index (length sorted) percentile.

(** [fn snapshot]. *)
Definition wait_snapshot (rings : TenantWaitStats) (t : TenantId) : option WaitSnapshot :=
  match rings !! t with
  | None | Some [] => Some wait_snapshot_default
  | Some ring =>
    let sorted := sort_waits ring in
    let hist := foldl (λ h w, alter (Z.add 1) (bucket_of w) h) [0; 0; 0; 0; 0; 0] sorted in
    p50 ← nearest_rank sorted 50;
    p95 ← nearest_rank sorted 95;
    Some (mkWaitSnapshot p50 p95 hist (Z.of_nat (length sorted)))
  end.

(** ** The ring keeps the last waits *)

(** With the capacity as a parameter, so that it is never unfolded. *)
Definition push_ring_cap (cap : nat) (ring : list Z) (w : Z) : list Z :=
  (if bool_decide (length ring = cap) then tail ring else ring) ++ [w].

Lemma foldl_push_ring_cap cap h :
  (0 < cap)%nat → foldl (push_ring_cap cap) [] h = drop (length h - cap) h.
Proof.
  intros Hpos. induction h as [|w h IH] using rev_ind; [by destruct cap|].
  rewrite foldl_app. cbn [foldl]. rewrite IH, length_app. unfold push_ring_cap.
  rewrite length_drop. cbn [length]. case_bool_decide as Hfull.
  - rewrite drop_app_le by lia. f_equal.
    replace (length h + 1 - cap)%nat with ((length h - cap) + 1)%nat by lia.
    rewrite <-drop_drop. by destruct (drop (length h - cap) h).
  - replace (length h - cap)%nat with 0%nat by lia.
    replace (length h + 1 - cap)%nat with 0%nat by lia. done.
Qed.

Lemma foldl_push_ring h :
  foldl push_ring [] h = drop (length h - WAIT_RING_CAPACITY) h.
Proof.
  apply (foldl_push_ring_cap WAIT_RING_CAPACITY). apply Nat.ltb_lt. reflexivity.
Qed.

(** The waits of a tenant in a history of records. *)
Definition waits_of (h : list (TenantId * Z)) (t : TenantId) : list Z :=
  (filter (λ tw : TenantId * Z, tw.1 = t) h).*2.

Lemma record_waits_lookup h rings t :
  default [] (foldl (λ rings tw, record_wait rings tw.1 tw.2) rings h !! t) =
  foldl push_ring (default [] (rings !! t)) (waits_of h t).
Proof.
  revert rings. induction h as [|[u w] h IH]; intros rings; [done|]. cbn [foldl fst snd].
  rewrite IH. unfold waits_of. rewrite filter_cons. cbn [fst]. unfold record_wait.
  case_decide as Hu; [subst; by rewrite lookup_insert_eq|by rewrite lookup_insert_ne].
Qed.

(** The scheduler's own rings run in step. *)
Lemma waits_record_all h s :
  waits (foldl (λ s tw, record_dispatch_wait s tw.1 tw.2) s h) =
  foldl (λ rings tw, record_wait rings tw.1 tw.2) (waits s) h.
Proof. revert s. induction h as [|tw h IH]; intros s; [done|]. cbn [foldl]. by rewrite IH. Qed.

(** ** Percentiles of a sorted list *)

Lemma sorted_rank_counts (l : list Z) i v :
  StronglySorted Z.le l → l !! i = Some v →
  (S i ≤ length (filter (λ x, (x ≤ v)%Z) l))%nat ∧ (length (filter (λ x, (x < v)%Z) l) ≤ i)%nat.
Proof.
  revert i. induction l as [|x l IH]; intros i Hs Hi; [done|].
  apply StronglySorted_inv in Hs as [Hs Hall]. rewrite !filter_cons.
  destruct i as [|i]; cbn in Hi.
  - simplify_eq. rewrite decide_True by lia. rewrite decide_False by lia. cbn.
    split; [lia|]. apply Nat.le_0_r, length_zero_iff_nil, elem_of_nil_inv.
    intros y [Hy Hin]%list_elem_of_filter. apply (proj1 (Forall_forall _ _) Hall) in Hin. lia.
  - destruct (IH i Hs Hi) as [IH1 IH2].
    assert (x ≤ v).
    { apply (proj1 (Forall_forall _ _) Hall). by eapply list_elem_of_lookup_2. }
    rewrite decide_True by done. cbn. case_decide; cbn; lia.
Qed.

Lemma nearest_rank_index_bounds len p :
  (0 < len)%nat → (0 < p ≤ 100)%nat →
  (nearest_rank_index len p < len)%nat ∧
  (len * p ≤ 100 * S (nearest_rank_index len p))%nat ∧
  (100 * nearest_rank_index len p < len * p)%nat.
Proof.
  intros Hl Hp. unfold nearest_rank_index.
  pose proof (Z.div_mod (Z.of_nat (len * p) + 99) 100 ltac:(lia)) as Hdm.
  pose proof (Z.mod_pos_bound (Z.of_nat (len * p) + 99) 100 ltac:(lia)).
  set (q := (Z.of_nat (len * p) + 99) / 100) in *.
  assert (1 ≤ len * p)%nat by nia. assert (1 ≤ q) by lia.
  assert (q ≤ Z.of_nat len) by nia.
  replace (Nat.max 1 (Z.to_nat q) - 1)%nat with (Z.to_nat q - 1)%nat by lia.
  split_and!; lia.
Qed.

Lemma sort_waits_perm l : sort_waits l ≡ₚ l.
Proof. apply merge_sort_Permutation. Qed.

Lemma length_sort_waits l : length (sort_waits l) = length l.
Proof. by rewrite sort_waits_perm. Qed.

(** The nearest-rank percentile of a ring: a wait of it that at least [p] percent
    are not above, and less than [p] percent are below. *)
Definition is_percentile (ring : list Z) (p : nat) (v : Z) : Prop :=
  v ∈ ring ∧
  (length ring * p ≤ 100 * length (filter (λ x, (x ≤ v)%Z) ring))%nat ∧
  (100 * length (filter (λ x, (x < v)%Z) ring) < length ring * p)%nat.

Lemma nearest_rank_percentile ring p :
  ring ≠ [] → (0 < p ≤ 100)%nat →
  ∃ v, nearest_rank (sort_waits ring) p = Some v ∧ is_percentile ring p v.
Proof.
  intros Hne Hp. assert (0 < length ring)%nat as Hlen by (destruct ring; [done|cbn; lia]).
  destruct (nearest_rank_index_bounds (length ring) p Hlen Hp) as (Hi & Hge & Hlt).
  unfold nearest_rank. rewrite length_sort_waits.
  destruct (lookup_lt_is_Some_2 (sort_waits ring) (nearest_rank_index (length ring) p)) as [v Hv];
    [by rewrite length_sort_waits|].
  exists v. split; [done|].
  assert (StronglySorted Z.le (sort_waits ring)) as Hs
    by (apply StronglySorted_merge_sort; [apply _|intros x y; lia]).
  destruct (sorted_rank_counts _ _ _ Hs Hv) as [H1 H2].
  rewrite (sort_waits_perm ring) in H1, H2.
  split; [|split; lia]. rewrite <-(sort_waits_perm ring). by eapply list_elem_of_lookup_2.
Qed.

(** ** Histograms *)
Lemma bucket_of_lt w : (bucket_of w < 6)%nat.
Proof.
  unfold bucket_of. destruct (list_find _ _) as [[i b]|] eqn:E; [|cbn; lia].
  apply list_find_Some in E as [Hi _]. apply lookup_lt_Some in Hi. cbn in Hi. lia.
Qed.

Lemma histogram_lookup ws h i :
  (∀ w, w ∈ ws → (bucket_of w < length h)%nat) →
  foldl (λ h w, alter (Z.add 1) (bucket_of w) h) h ws !! i =
  (λ c, Z.of_nat (length (filter (λ w, bucket_of w = i) ws)) + c) <$> h !! i.
Proof.
  revert h. induction ws as [|w ws IH]; intros h Hb; cbn [foldl].
  { by destruct (h !! i). }
  rewrite IH by (intros; rewrite length_alter; set_solver).
  rewrite filter_cons. case_decide as Hi.
  - subst i. rewrite list_lookup_alter_eq. destruct (h !! bucket_of w); [|done]. cbn.
    f_equal. lia.
  - by rewrite list_lookup_alter_ne.
Qed.

Lemma sum_alter (h : list Z) i :
  (i < length h)%nat → foldr Z.add 0 (alter (Z.add 1) i h) = 1 + foldr Z.add 0 h.
Proof.
  revert i. induction h as [|x h IH]; intros [|i] Hi; cbn in *; try lia.
  change (list_alter (Z.add 1) i h) with (alter (Z.add 1) i h). rewrite IH by lia. lia.
Qed.

Lemma histogram_sum ws h :
  length h = 6%nat →
  foldr Z.add 0 (foldl (λ h w, alter (Z.add 1) (bucket_of w) h) h ws) =
  Z.of_nat (length ws) + foldr Z.add 0 h.
Proof.
  revert h. induction ws as [|w ws IH]; intros h Hh; cbn [foldl length]; [lia|].
  pose proof (bucket_of_lt w).
  rewrite IH by (by rewrite length_alter). rewrite sum_alter by lia. lia.
Qed.

(** ** The theorems *)

(** What a snapshot says of the waits [ring]. *)
Definition describes (ring : list Z) (snap : WaitSnapshot) : Prop :=
  is_percentile ring 50 (p50_ms snap) ∧ is_percentile ring 95 (p95_ms snap) ∧
  snap_count snap = Z.of_nat (length ring) ∧
  foldr Z.add 0 (histogram snap) = Z.of_nat (length ring) ∧
  ∀ i, (i < 6)%nat →
    histogram snap !! i = Some (Z.of_nat (length (filter (λ w, bucket_of w = i) ring))).

Lemma snapshot_describes rings t ring :
  default [] (rings !! t) = ring → ring ≠ [] →
  ∃ snap, wait_snapshot rings t = Some snap ∧ describes ring snap ∧
    nearest_rank (sort_waits ring) 95 = Some (p95_ms snap).
Proof.
  intros Hring Hne. unfold wait_snapshot.
  destruct (rings !! t) as [[|w ws]|]; cbn in Hring; [congruence| |congruence].
  rewrite Hring. clear Hring.
  destruct (nearest_rank_percentile ring 50 Hne ltac:(lia)) as (v50 & H50 & Hp50).
  destruct (nearest_rank_percentile ring 95 Hne ltac:(lia)) as (v95 & H95 & Hp95).
  rewrite H50, H95. eexists. split; [done|]. split; [|done].
  assert (∀ w, w ∈ sort_waits ring → (bucket_of w < length [0; 0; 0; 0; 0; 0])%nat) as Hb
    by (intros; apply bucket_of_lt).
  split_and!; cbn [p50_ms p95_ms histogram snap_count]; try done.
  - by rewrite length_sort_waits.
  - rewrite histogram_sum, length_sort_waits by done. cbn. lia.
  - intros i Hi. rewrite histogram_lookup by done.
    assert (length (filter (λ w, bucket_of w = i) (sort_waits ring)) =
      length (filter (λ w, bucket_of w = i) ring)) as -> by (by rewrite sort_waits_perm).
    do 6 (destruct i as [|i]; [cbn; f_equal; lia|]). lia.
Qed.

(** A tenant's wait snapshot is its own.  After any history of recorded waits
    of any tenants, the snapshot of a tenant is the zero one if that tenant has
    none, and otherwise describes exactly its own last 1024 waits: the median and
    the 95th percentile by nearest rank, the count, and the bucket counts, which
    sum to it; and the scheduler's own percentile over the same history agrees. *)
Theorem wait_snapshot_is_tenant_scoped h t s :
  let ring := drop (length (waits_of h t) - WAIT_RING_CAPACITY) (waits_of h t) in
  let rings := foldl (λ rings tw, record_wait rings tw.1 tw.2) ∅ h in
  let s' := foldl (λ s tw, record_dispatch_wait s tw.1 tw.2) (sched_new s) h in
  (waits_of h t = [] → wait_snapshot rings t = Some wait_snapshot_default ∧ p95_wait_ms s' t = None) ∧
  (waits_of h t ≠ [] → ∃ snap, wait_snapshot rings t = Some snap ∧ describes ring snap ∧
     p95_wait_ms s' t = Some (p95_ms snap)).
Proof.
  intros ring rings s'.
  assert (default [] (rings !! t) = ring) as Hring.
  { unfold rings. rewrite record_waits_lookup. cbn. apply foldl_push_ring. }
  assert (waits s' = rings) as Hw by apply waits_record_all.
  unfold p95_wait_ms. rewrite Hw. split.
  - intros Hnil. unfold ring in Hring. rewrite Hnil in Hring. cbn in Hring.
    unfold wait_snapshot. by destruct (rings !! t) as [[|]|].
  - intros Hne. assert (ring ≠ []) as Hne'.
    { unfold ring. intros Hz%(f_equal length). rewrite length_drop in Hz. cbn [length] in Hz.
      assert (0 < WAIT_RING_CAPACITY)%nat by (apply Nat.ltb_lt; reflexivity).
      assert (0 < length (waits_of h t))%nat by (destruct (waits_of h t); [done|cbn; lia]). lia. }
    destruct (snapshot_describes rings t ring Hring Hne') as (snap & Hs & Hd & Hr).
    exists snap. split_and!; [done|done|].
    destruct (rings !! t) as [[|w ws]|]; cbn in Hring; try congruence.
    rewrite Hring, <-Hr. unfold nearest_rank. by rewrite length_sort_waits.
Qed.
