(* ===== verification/GlobalGate.v ===== *)
(** * The global admission gate

    Models [crates/corelink-fabric/src/global_gate.rs]: the fabric-wide wall with
    per-tenant shares, the two policies, and the guards whose drop gives a slot
    back.  A run is a sequence of admissions and guard releases over the shared
    counters. *)
From S2P Require Import Prelude Tenant.

Inductive GlobalGatePolicy : Type := Advisory | HardReject.
Inductive GlobalReject : Type := GlobalWall | TenantShare.

(** [struct Inner]. *)
Record Inner : Type := mkInnerG {
  per_tenant : gmap TenantId Z;
  total : Z;
  wall_breaches : Z;
  share_breaches : Z;
}.

(** [struct GlobalGate] with the inner state behind its mutex. *)
Record GlobalGate : Type := mkGlobalGate {
  wall : Z;
  per_tenant_share : Z;
  policy : GlobalGatePolicy;
  gate_poisoned : bool;
  inner : Inner;
}.

(** [GlobalGate::new] and [fair_share]. *)
Definition gate_new (wall share : Z) (policy : GlobalGatePolicy) : GlobalGate :=
  mkGlobalGate wall (if wall =? 0 then 0 else Z.min wall (Z.max 1 share)) policy false
    (mkInnerG ∅ 0 0 0).

Definition fair_share (wall max_tenants_expected : Z) (policy : GlobalGatePolicy) : GlobalGate :=
  gate_new wall (if max_tenants_expected =? 0 then wall else wall / max_tenants_expected) policy.

(** [struct GlobalAdmitGuard]: its tenant and its latch. *)
Record Guard : Type := mkGuard { guard_tenant : TenantId; released : bool }.

Inductive GlobalAdmit : Type := AdmitGranted (g : Guard) | AdmitRejected (r : GlobalReject).

Definition with_inner (g : GlobalGate) (i : Inner) : GlobalGate :=
  mkGlobalGate (wall g) (per_tenant_share g) (policy g) (gate_poisoned g) i.

Definition tenant_in_flight (g : GlobalGate) (t : TenantId) : Z :=
  if gate_poisoned g then 0 else default 0 (per_tenant (inner g) !! t).

(** Take a slot, after the breach meters. *)
Definition take_slot (i : Inner) (t : TenantId) (wall_b share_b : bool) : Inner :=
  mkInnerG (<[t := default 0 (per_tenant i !! t) + 1]> (per_tenant i)) (total i + 1)
    (wall_breaches i + if wall_b then 1 else 0) (share_breaches i + if share_b then 1 else 0).

(** [fn try_admit_global]. *)
Definition try_admit_global (g : GlobalGate) (t : TenantId) : GlobalGate * GlobalAdmit :=
  let i := inner g in
  if gate_poisoned g then (g, AdmitRejected GlobalWall)
  else
    let tenant_count := default 0 (per_tenant i !! t) in
    let share_breached := bool_decide (per_tenant_share g ≤ tenant_count) in
    let wall_breached := bool_decide (wall g ≤ total i) in
    match policy g with
    | HardReject =>
      if share_breached then
        (with_inner g (mkInnerG (per_tenant i) (total i) (wall_breaches i) (share_breaches i + 1)),
         AdmitRejected TenantShare)
      else if wall_breached then
        (with_inner g (mkInnerG (per_tenant i) (total i) (wall_breaches i + 1) (share_breaches i)),
         AdmitRejected GlobalWall)
      else (with_inner g (take_slot i t false false), AdmitGranted (mkGuard t false))
    | Advisory =>
      (with_inner g (take_slot i t wall_breached share_breached), AdmitGranted (mkGuard t false))
    end.

(** [GlobalAdmitGuard::release], also what [Drop] runs. *)
Definition release (g : GlobalGate) (gd : Guard) : GlobalGate * Guard :=
  if released gd then (g, gd)
  else
    let gd' := mkGuard (guard_tenant gd) true in
    if gate_poisoned g then (g, gd')
    else
      let i := inner g in
      let t := guard_tenant gd in
      let counts :=
        match per_tenant i !! t with
        | None => per_tenant i
        | Some count =>
          if count -sat 1 =? 0 then delete t (per_tenant i)
          else <[t := count -sat 1]> (per_tenant i)
        end in
      (with_inner g (mkInnerG counts (total i -sat 1) (wall_breaches i) (share_breaches i)), gd').

(** [fn meters]. *)
Record GlobalMeters : Type := mkMeters {
  in_flight : Z; meter_wall_breaches : Z; meter_share_breaches : Z }.

Definition meters (g : GlobalGate) : GlobalMeters :=
  if gate_poisoned g then mkMeters 0 0 0
  else mkMeters (total (inner g)) (wall_breaches (inner g)) (share_breaches (inner g)).

(** ** Runs: admissions, and releases of any guard handed out so far *)

Inductive gate_op : Type := GAdmit (t : TenantId) | GRelease (i : nat).

Definition gate_state : Type := GlobalGate * list Guard.

Definition gate_step (st : GlobalGate * list Guard) (o : gate_op) : GlobalGate * list Guard :=
  let '(g, guards) := st in
  match o with
  | GAdmit t =>
    match try_admit_global g t with
    | (g', AdmitGranted gd) => (g', guards ++ [gd])
    | (g', AdmitRejected _) => (g', guards)
    end
  | GRelease i =>
    match guards !! i with
    | Some gd => let '(g', gd') := release g gd in (g', <[i := gd']> guards)
    | None => (g, guards)
    end
  end.

Definition gate_run (os : list gate_op) (st : GlobalGate * list Guard) : GlobalGate * list Guard :=
  foldl gate_step st os.

(** The guards still held, of all tenants and of one. *)
Definition live (guards : list Guard) : Z :=
  Z.of_nat (length (filter (λ gd, released gd = false) guards)).
Definition live_of (guards : list Guard) (t : TenantId) : Z :=
  Z.of_nat (length (filter (λ gd, released gd = false ∧ guard_tenant gd = t) guards)).

(** The counters are those of the held guards; a tenant without any has no
    entry; and under hard rejection both limits hold. *)
Record gate_inv (g : GlobalGate) (guards : list Guard) : Prop := {
  gi_total : total (inner g) = live guards;
  gi_tenant t : default 0 (per_tenant (inner g) !! t) = live_of guards t;
  gi_pruned t c : per_tenant (inner g) !! t = Some c → 0 < c;
  gi_limits : policy g = HardReject →
    live guards ≤ wall g ∧ ∀ t, live_of guards t ≤ per_tenant_share g;
}.

Lemma live_of_nonneg guards t : 0 ≤ live_of guards t.
Proof. unfold live_of. lia. Qed.

Lemma live_snoc guards t : live (guards ++ [mkGuard t false]) = live guards + 1.
Proof.
  unfold live. rewrite filter_app, length_app, filter_cons_True, filter_nil by done.
  cbn. lia.
Qed.

Lemma live_of_snoc guards t u :
  live_of (guards ++ [mkGuard t false]) u = live_of guards u + if decide (u = t) then 1 else 0.
Proof.
  unfold live_of. rewrite filter_app, length_app, filter_cons. cbn.
  repeat case_decide; cbn; naive_solver lia.
Qed.

(** Replacing one element moves a count by that element alone. *)
Lemma filter_insert_length {A} (P : A → Prop) `{!∀ x, Decision (P x)} (l : list A) i x y :
  l !! i = Some x →
  (length (filter P (<[i := y]> l)) + (if decide (P x) then 1 else 0) =
   length (filter P l) + (if decide (P y) then 1 else 0))%nat.
Proof.
  revert i. induction l as [|z l IH]; intros [|i] Hi; try done; simpl in Hi.
  - injection Hi as ->. change (<[0%nat := y]> (x :: l)) with (y :: l).
    rewrite !filter_cons. repeat case_decide; cbn [length]; lia.
  - specialize (IH i Hi). change (<[S i := y]> (z :: l)) with (z :: <[i := y]> l).
    rewrite !filter_cons. repeat case_decide; cbn [length] in *; lia.
Qed.

(** Marking a held guard released takes one from the counts. *)
Lemma live_release guards i gd :
  guards !! i = Some gd → released gd = false →
  live (<[i := mkGuard (guard_tenant gd) true]> guards) = live guards - 1 ∧
  ∀ u, live_of (<[i := mkGuard (guard_tenant gd) true]> guards) u =
       live_of guards u - if decide (u = guard_tenant gd) then 1 else 0.
Proof.
  intros Hi Hr. unfold live, live_of. split; [|intros u].
  - pose proof (filter_insert_length (λ gd, released gd = false) _ _ _
      (mkGuard (guard_tenant gd) true) Hi) as H. cbn in H.
    rewrite Hr in H. rewrite decide_True, decide_False in H by done. lia.
  - pose proof (filter_insert_length (λ gd, released gd = false ∧ guard_tenant gd = u) _ _ _
      (mkGuard (guard_tenant gd) true) Hi) as H. cbn in H. rewrite Hr in H.
    rewrite (decide_False (P := true = false ∧ _)) in H by naive_solver.
    repeat case_decide; naive_solver lia.
Qed.

Lemma filter_none {A} (P : A → Prop) `{!∀ x, Decision (P x)} (l : list A) :
  Forall (λ x, ¬ P x) l → filter P l = [].
Proof. induction 1; [done|]. by rewrite filter_cons_False. Qed.

(** ** The gate's guarantee *)

Lemma gate_inv_new w s pol : 0 ≤ w → gate_inv (gate_new w s pol) [].
Proof.
  intros Hw. split; cbn; try done.
  intros _. split; [done|]. intros t. unfold live_of. cbn.
  destruct (Z.eqb_spec w 0); lia.
Qed.

(** Taking a slot, where hard rejection has checked both limits. *)
Lemma gate_inv_take g guards t wb sb :
  gate_inv g guards →
  (policy g = HardReject → total (inner g) < wall g ∧
     default 0 (per_tenant (inner g) !! t) < per_tenant_share g) →
  gate_inv (with_inner g (take_slot (inner g) t wb sb)) (guards ++ [mkGuard t false]).
Proof.
  intros [Htot Hten Hpr Hlim] Hck. split; cbn.
  - rewrite live_snoc. lia.
  - intros u. rewrite live_of_snoc, <-Hten. case_decide as Hd; [subst|].
    + rewrite lookup_insert_eq. cbn. lia.
    + rewrite lookup_insert_ne by done. lia.
  - intros u c. pose proof (live_of_nonneg guards t) as Hn. rewrite <-Hten in Hn.
    rewrite lookup_insert_Some. intros [[<- <-]|[_ Hc]]; [lia|eauto].
  - intros Hp. destruct (Hck Hp), (Hlim Hp) as [Hw Hs].
    rewrite live_snoc. split; [lia|]. intros u. rewrite live_of_snoc.
    specialize (Hs u). case_decide as Hd; [subst; rewrite <-Hten in *|]; lia.
Qed.

Lemma gate_inv_meters g guards wb sb :
  gate_inv g guards →
  gate_inv (with_inner g (mkInnerG (per_tenant (inner g)) (total (inner g)) wb sb)) guards.
Proof. by intros []. Qed.

Lemma gate_inv_admit g guards t :
  gate_inv g guards →
  gate_inv (gate_step (g, guards) (GAdmit t)).1 (gate_step (g, guards) (GAdmit t)).2.
Proof.
  intros Hinv. cbn. unfold try_admit_global.
  destruct (gate_poisoned g); [done|]. destruct (policy g) eqn:Hp.
  - apply gate_inv_take; [done|congruence].
  - case_bool_decide; [by apply gate_inv_meters|].
    case_bool_decide; [by apply gate_inv_meters|].
    apply gate_inv_take; [done|]. intros _. lia.
Qed.

(** What [release] leaves of the count map. *)
Lemma release_counts g gd :
  gate_poisoned g = false → released gd = false →
  (∀ t c, per_tenant (inner g) !! t = Some c → 0 < c) →
  let g' := (release g gd).1 in
  (∀ u, default 0 (per_tenant (inner g') !! u) =
        default 0 (per_tenant (inner g) !! u) -sat if decide (u = guard_tenant gd) then 1 else 0) ∧
  (∀ u c, per_tenant (inner g') !! u = Some c → 0 < c) ∧
  total (inner g') = total (inner g) -sat 1.
Proof.
  intros Hpo Hr Hpos. unfold release. rewrite Hr, Hpo. cbn.
  destruct (per_tenant (inner g) !! guard_tenant gd) as [c|] eqn:Hc.
  - pose proof (Hpos _ _ Hc). destruct (Z.eqb_spec (c -sat 1) 0) as [E|E]; cbn.
    + split_and!; [intros u|intros u k|done].
      * case_decide; [subst; rewrite lookup_delete_eq, Hc; cbn; lia|].
        rewrite lookup_delete_ne by done. unfold sat_sub.
        destruct (per_tenant (inner g) !! u) eqn:Hu; cbn; [apply Hpos in Hu|]; lia.
      * rewrite lookup_delete_Some. naive_solver.
    + split_and!; [intros u|intros u k|done].
      * case_decide; [subst; by rewrite lookup_insert_eq, Hc|].
        rewrite lookup_insert_ne by done. unfold sat_sub.
        destruct (per_tenant (inner g) !! u) eqn:Hu; cbn; [apply Hpos in Hu|]; lia.
      * rewrite lookup_insert_Some. unfold sat_sub in *. intros [[<- <-]|[_ ?]]; [lia|eauto].
  - split_and!; [intros u|done|done].
    case_decide; [subst; rewrite Hc; done|]. unfold sat_sub.
    destruct (per_tenant (inner g) !! u) eqn:Hu; cbn; [apply Hpos in Hu|]; lia.
Qed.

Lemma gate_inv_release g guards i :
  gate_poisoned g = false → gate_inv g guards →
  gate_inv (gate_step (g, guards) (GRelease i)).1 (gate_step (g, guards) (GRelease i)).2.
Proof.
  intros Hpo Hinv. cbn. destruct (guards !! i) as [gd|] eqn:Hi; [|done].
  destruct (released gd) eqn:Hr.
  { unfold release. rewrite Hr. cbn. by rewrite list_insert_id. }
  destruct Hinv as [Htot Hten Hpr Hlim].
  destruct (release_counts g gd Hpo Hr Hpr) as (Hcnt & Hpos & Ht).
  destruct (live_release _ _ _ Hi Hr) as [Hl Hlt].
  assert ((release g gd).2 = mkGuard (guard_tenant gd) true) as Hgd
    by (unfold release; rewrite Hr, Hpo; done).
  assert (policy (release g gd).1 = policy g ∧ wall (release g gd).1 = wall g ∧
          per_tenant_share (release g gd).1 = per_tenant_share g) as (Hp & Hw & Hs)
    by (unfold release; rewrite Hr, Hpo; done).
  destruct (release g gd) as [g' gd']. cbn in *. subst gd'.
  pose proof (live_of_nonneg (<[i := mkGuard (guard_tenant gd) true]> guards)) as Hnn.
  split; [rewrite Hl, Ht; unfold sat_sub; unfold live in *; lia| |done|].
  - intros u. specialize (Hnn u). rewrite Hcnt, Hlt, Hten. rewrite Hlt in Hnn.
    unfold sat_sub. lia.
  - rewrite Hp, Hw, Hs. intros E. destruct (Hlim E) as [H1 H2]. split; [lia|].
    intros u. rewrite Hlt. specialize (H2 u). case_decide; lia.
Qed.

(** No step changes the gate's configuration. *)
Lemma gate_step_config g guards o :
  let g' := (gate_step (g, guards) o).1 in
  wall g' = wall g ∧ per_tenant_share g' = per_tenant_share g ∧ policy g' = policy g ∧
  gate_poisoned g' = gate_poisoned g.
Proof.
  destruct o as [t|i]; cbn.
  - unfold try_admit_global. destruct (gate_poisoned g) eqn:?; [done|].
    destruct (policy g) eqn:?; repeat case_bool_decide; cbn; split_and!; congruence.
  - destruct (guards !! i) as [gd|]; [|done]. unfold release.
    destruct (released gd), (gate_poisoned g) eqn:?; cbn; split_and!; congruence.
Qed.

Lemma gate_run_inv os g guards :
  gate_poisoned g = false → gate_inv g guards →
  let '(g', guards') := gate_run os (g, guards) in
  gate_inv g' guards' ∧ wall g' = wall g ∧ per_tenant_share g' = per_tenant_share g ∧
  policy g' = policy g ∧ gate_poisoned g' = false.
Proof.
  revert g guards. induction os as [|o os IH]; intros g guards Hpo Hinv; [done|].
  cbn [gate_run foldl]. pose proof (gate_step_config g guards o) as (Hw & Hs & Hp & Hpo').
  assert (gate_inv (gate_step (g, guards) o).1 (gate_step (g, guards) o).2) as Hinv'.
  { destruct o; [by apply gate_inv_admit|by apply gate_inv_release]. }
  destruct (gate_step (g, guards) o) as [g1 guards1]. cbn in *.
  specialize (IH g1 guards1). rewrite Hpo' in IH. specialize (IH Hpo Hinv').
  unfold gate_run in IH. destruct (foldl _ _ os) as [g2 guards2].
  destruct IH as (? & ? & ? & ? & ?). split_and!; congruence.
Qed.

(** What the next admission answers, in terms of the guards held. *)
Definition admit_answer (w share : Z) (pol : GlobalGatePolicy) (guards : list Guard)
    (t : TenantId) : GlobalAdmit :=
  match pol with
  | Advisory => AdmitGranted (mkGuard t false)
  | HardReject =>
    if bool_decide (share ≤ live_of guards t) then AdmitRejected TenantShare
    else if bool_decide (w ≤ live guards) then AdmitRejected GlobalWall
    else AdmitGranted (mkGuard t false)
  end.

(** after any sequence of admissions and guard releases (repeated releases
    included) the gate's counters are exactly the guards still held, per tenant
    and in total; a gate that rejects never holds more than the wall, nor a
    tenant more than its clamped share; the next answer is a function of the
    guards held alone; and once every guard is released nothing is left behind. *)
Theorem global_gate_exact (w share : Z) (pol : GlobalGatePolicy) (os : list gate_op) (t : TenantId) :
  0 ≤ w →
  let '(g, guards) := gate_run os (gate_new w share pol, []) in
  in_flight (meters g) = live guards ∧
  tenant_in_flight g t = live_of guards t ∧
  (pol = HardReject → live guards ≤ w ∧ live_of guards t ≤ per_tenant_share (gate_new w share pol)) ∧
  (try_admit_global g t).2 =
    admit_answer w (per_tenant_share (gate_new w share pol)) pol guards t ∧
  (Forall (λ gd, released gd = true) guards →
     in_flight (meters g) = 0 ∧ per_tenant (inner g) = ∅).
Proof.
  intros Hw. pose proof (gate_run_inv os (gate_new w share pol) [] eq_refl (gate_inv_new w share pol Hw)) as H.
  destruct (gate_run os (gate_new w share pol, [])) as [g guards].
  destruct H as ([Htot Hten Hpr Hlim] & Hwl & Hs & Hp & Hpo).
  unfold meters, tenant_in_flight, try_admit_global. rewrite Hpo. cbn [in_flight].
  cbn [wall policy gate_new] in Hwl, Hp.
  split_and!; [done|apply Hten|rewrite <-Hs, <-Hp, <-Hwl; naive_solver| |].
  - rewrite Hten, Htot, Hp, Hs, Hwl. unfold admit_answer. destruct pol; [done|].
    by repeat case_bool_decide.
  - intros Hall. assert (∀ u, live_of guards u = 0) as Hz.
    { intros u. unfold live_of. rewrite filter_none; [done|].
      eapply Forall_impl; [exact Hall|]. intros gd E [E' _]. cbn in *. congruence. }
    split.
    + rewrite Htot. unfold live. rewrite filter_none; [done|].
      eapply Forall_impl; [exact Hall|]. intros gd E E'. cbn in *. congruence.
    + apply map_eq. intros u. rewrite lookup_empty. specialize (Hten u). rewrite Hz in Hten.
      destruct (per_tenant (inner g) !! u) as [c|] eqn:Hc; [|done].
      apply Hpr in Hc. cbn in Hten. lia.
Qed.

Lemma global_gate_exact_witness :
  let t := mkTenantId "acme" in
  let st := gate_run [GAdmit t; GAdmit t; GRelease 0; GRelease 0; GAdmit t; GAdmit t]
              (gate_new 3 2 HardReject, []) in
  in_flight (meters st.1) = 2 ∧ (try_admit_global st.1 t).2 = AdmitRejected TenantShare.
Proof.
  cbn zeta.
  pose proof (global_gate_exact 3 2 HardReject
    [GAdmit (mkTenantId "acme"); GAdmit (mkTenantId "acme"); GRelease 0; GRelease 0;
     GAdmit (mkTenantId "acme"); GAdmit (mkTenantId "acme")] (mkTenantId "acme") ltac:(lia)) as H.
  destruct (gate_run _ _) as [g guards] eqn:E. destruct H as (Ht & _ & _ & Ha & _).
  cbn [fst]. rewrite Ht, Ha.
  assert (guards = [mkGuard (mkTenantId "acme") true; mkGuard (mkTenantId "acme") false;
                    mkGuard (mkTenantId "acme") false]) as ->
    by (transitivity (g, guards).2; [done|rewrite <-E; vm_compute; reflexivity]).
  split; reflexivity.
Defined.

(** With no expected tenant count the share is the whole wall. *)
Lemma fair_share_of_zero w pol : 0 ≤ w → per_tenant_share (fair_share w 0 pol) = w.
Proof. intros Hw. cbn. destruct (Z.eqb_spec w 0); lia. Qed.
