(* ===== verification/Decimal.v ===== *)
(** * Decimal entitlement numbers

    Models [crates/corelink-fabric-server/src/decimal.rs]: the vCPU-hour ceiling
    of a plan response is a JSON number, read digit by digit in checked 128-bit
    arithmetic.  The theorem says the answer is the exact product, truncated at
    the millisecond, or a refusal: never a wrapped value, and zero only for a
    number that is zero. *)
From S2P Require Import Prelude ComputeMeter.

(** What the code sees of a [serde_json::Value]: a number carries the text its
    [Display] prints and its [as_u64] view, an object its entries. *)
#[warnings="-register-all"]
Inductive Value : Type :=
| JNull
| JBool (b : bool)
| JNumber (text : string) (u64_view : option Z)
| JString (s : string)
| JArray (l : list Value)
| JObject (fields : list (string * Value)).

Fixpoint assoc_get (k : string) (fields : list (string * Value)) : option Value :=
  match fields with
  | [] => None
  | (k', v) :: fields => if decide (k' = k) then Some v else assoc_get k fields
  end.

(** [Value::get], [as_number], [as_bool], [as_str] and [as_u64]. *)
Definition get (v : Value) (k : string) : option Value :=
  match v with JObject fields => assoc_get k fields | _ => None end.
Definition as_number (v : Value) : option string :=
  match v with JNumber text _ => Some text | _ => None end.
Definition as_bool (v : Value) : option bool :=
  match v with JBool b => Some b | _ => None end.
Definition as_string (v : Value) : option string :=
  match v with JString s => Some s | _ => None end.
Definition as_u64_view (v : Value) : option Z :=
  match v with JNumber _ u => u | _ => None end.

Inductive PlanSourceError : Type := PlanUnreachable.

Definition U128_MAX : Z := 2 ^ 128 - 1.
Definition I32_MAX : Z := 2 ^ 31 - 1.

(** A checked operation of a type whose largest value is [max]. *)
Definition checked (max z : Z) : option Z := if z <=? max then Some z else None.

Definition ok_or {A} (o : option A) : result PlanSourceError A :=
  match o with Some a => Ok a | None => Err PlanUnreachable end.

Definition byte_val (c : ascii) : Z := Z.of_N (N_of_ascii c).
Definition is_ascii_digit (c : ascii) : bool := (48 <=? byte_val c) && (byte_val c <=? 57).
Definition digit (c : ascii) : Z := byte_val c - 48.

(** The digit loops: the accumulated value, the digits read, the bytes left. *)
Fixpoint take_digits (max acc : Z) (n : nat) (s : string) : option (Z * nat * string) :=
  match s with
  | EmptyString => Some (acc, n, s)
  | String c s' =>
    if is_ascii_digit c then
      acc' ← checked max (acc * 10) ≫= λ v, checked max (v + digit c);
      take_digits max acc' (S n) s'
    else Some (acc, n, s)
  end.

Definition starts_with_sign (s : string) : bool :=
  match s with
  | String c _ => bool_decide (c = "-"%char ∨ c = "+"%char)
  | EmptyString => true
  end.

(** The optional fraction: the mantissa extended, and its digits. *)
Definition parse_fraction (mantissa : Z) (s : string)
    : result PlanSourceError (Z * nat * string) :=
  match s with
  | String "." s' =>
    r ← ok_or (take_digits U128_MAX mantissa 0 s');
    let '(m, digits, rest) := r in
    if decide (digits = 0%nat) then Err PlanUnreachable else Ok (m, digits, rest)
  | _ => Ok (mantissa, 0%nat, s)
  end.

(** The optional exponent. *)
Definition parse_exponent (s : string) : result PlanSourceError (Z * string) :=
  let signed (negative : bool) (s : string) :=
    r ← ok_or (take_digits I32_MAX 0 0 s);
    let '(e, digits, rest) := r in
    if decide (digits = 0%nat) then Err PlanUnreachable
    else Ok (if negative then - e else e, rest) in
  let after (s : string) :=
    match s with
    | String "-" s' => signed true s'
    | String "+" s' => signed false s'
    | _ => signed false s
    end in
  match s with
  | String "e" s' => after s'
  | String "E" s' => after s'
  | _ => Ok (0, s)
  end.

(** [fn parse_number]. *)
Definition parse_number (raw : string) : result PlanSourceError (Z * nat * Z) :=
  if starts_with_sign raw then Err PlanUnreachable
  else
    r ← ok_or (take_digits U128_MAX 0 0 raw);
    let '(m, integer_digits, rest) := r in
    if decide (integer_digits = 0%nat) then Err PlanUnreachable
    else
      f ← parse_fraction m rest;
      let '(m, fractional_digits, rest) := f in
      e ← parse_exponent rest;
      let '(exponent, rest) := e in
      if decide (rest = EmptyString) then Ok (m, fractional_digits, exponent)
      else Err PlanUnreachable.

(** [fn checked_pow10]: the loop of checked multiplications. *)
Fixpoint pow10_loop (n : nat) (value : Z) : option Z :=
  match n with
  | O => Some value
  | S n => v ← checked U128_MAX (value * 10); pow10_loop n v
  end.

Definition checked_pow10 (power : Z) : option Z :=
  if 38 <? power then None else pow10_loop (Z.to_nat power) 1.

(** [fractional.checked_sub(exponent)] on [i32].  The exponent is above
    [-I32_MAX - 1], so the difference and its negation cannot underflow. *)
Definition checked_scale (fractional_digits : nat) (exponent : Z) : option Z :=
  f ← checked I32_MAX (Z.of_nat fractional_digits); checked I32_MAX (f - exponent).

(** The last stage: from a nonzero mantissa to the checked milliseconds. *)
Definition scaled (mantissa : Z) (fractional_digits : nat) (exponent : Z) : result PlanSourceError Z :=
  scale ← ok_or (checked_scale fractional_digits exponent);
  numerator ← ok_or (checked U128_MAX (mantissa * MS_PER_VCPU_HOUR));
  milliseconds ←
    (if scale <=? 0 then
       multiplier ← ok_or (checked_pow10 (- scale));
       ok_or (checked U128_MAX (numerator * multiplier))
     else
       divisor ← ok_or (checked_pow10 scale);
       Ok (numerator / divisor));
  ms ← ok_or (checked U64_MAX milliseconds);
  if (ms =? 0) || negb (fits_ledger ms) then Err PlanUnreachable else Ok ms.

(** [fn max_vcpu_h_ceiling_ms]. *)
Definition max_vcpu_h_ceiling_ms (v : Value) : result PlanSourceError Z :=
  match get v "max_vcpu_h" with
  | None => Ok 0
  | Some field =>
    number ← ok_or (as_number field);
    p ← parse_number number;
    let '(mantissa, fractional_digits, exponent) := p in
    if mantissa =? 0 then Ok 0 else scaled mantissa fractional_digits exponent
  end.

(** ** Decimal literals and their value *)

Fixpoint all_digits (s : string) : bool :=
  match s with
  | EmptyString => true
  | String c s => is_ascii_digit c && all_digits s
  end.

Definition headed_by_digit (s : string) : bool :=
  match s with String c _ => is_ascii_digit c | EmptyString => false end.

(** The value of a digit string read after [acc]. *)
Fixpoint val_from (acc : Z) (s : string) : Z :=
  match s with
  | EmptyString => acc
  | String c s => val_from (acc * 10 + digit c) s
  end.

Inductive ExpSign : Type := NoSign | PlusSign | MinusSign.
#[export] Instance ExpSign_eq_dec : EqDecision ExpSign.
Proof. solve_decision. Defined.

Record literal : Type := mkLiteral {
  int_part : string;
  frac_part : option string;
  exp_part : option (ascii * ExpSign * string);
}.

Definition spell_frac (l : literal) : string :=
  match frac_part l with Some f => String "." f | None => "" end.
Definition spell_exp (l : literal) : string :=
  match exp_part l with
  | Some (c, sg, d) =>
    String c (match sg with NoSign => d | PlusSign => String "+" d | MinusSign => String "-" d end)
  | None => ""
  end.
Definition spell (l : literal) : string := int_part l +:+ spell_frac l +:+ spell_exp l.

Definition digit_string (s : string) : Prop := all_digits s = true ∧ s ≠ "".

Record literal_ok (l : literal) : Prop := {
  lo_int : digit_string (int_part l);
  lo_frac f : frac_part l = Some f → digit_string f;
  lo_exp c sg d : exp_part l = Some (c, sg, d) → (c = "e" ∨ c = "E")%char ∧ digit_string d;
}.

Definition mantissa_of (l : literal) : Z := val_from (val_from 0 (int_part l)) (default "" (frac_part l)).
Definition frac_digits (l : literal) : nat := String.length (default "" (frac_part l)).
Definition exponent_of (l : literal) : Z :=
  match exp_part l with
  | Some (_, MinusSign, d) => - val_from 0 d
  | Some (_, _, d) => val_from 0 d
  | None => 0
  end.

(** The literal's numbers fit the types the parser reads them into. *)
Definition literal_fits (l : literal) : Prop :=
  mantissa_of l ≤ U128_MAX ∧ Z.abs (exponent_of l) ≤ I32_MAX.

(** [ms] is the literal's vCPU-hours in milliseconds, truncated. *)
Definition ceiling_is (l : literal) (ms : Z) : Prop :=
  let scale := Z.of_nat (frac_digits l) - exponent_of l in
  if decide (scale ≤ 0) then ms = mantissa_of l * MS_PER_VCPU_HOUR * 10 ^ (- scale)
  else ms * 10 ^ scale ≤ mantissa_of l * MS_PER_VCPU_HOUR < (ms + 1) * 10 ^ scale.

(** ** The digit loops *)

Lemma digit_range c : is_ascii_digit c = true → 0 ≤ digit c ≤ 9.
Proof. unfold is_ascii_digit, digit. intros [?%Z.leb_le ?%Z.leb_le]%andb_prop. lia. Qed.

Lemma val_from_ge s acc : all_digits s = true → 0 ≤ acc → acc ≤ val_from acc s.
Proof.
  revert acc. induction s as [|c s IH]; intros acc H Ha; cbn; [lia|].
  apply andb_prop in H as [Hc Hs]. pose proof (digit_range c Hc).
  specialize (IH (acc * 10 + digit c) Hs). lia.
Qed.

Lemma checked_step max acc c :
  is_ascii_digit c = true → 0 ≤ acc →
  (checked max (acc * 10) ≫= λ v, checked max (v + digit c)) = checked max (acc * 10 + digit c).
Proof.
  intros Hc Ha. pose proof (digit_range c Hc). unfold checked.
  destruct (Z.leb_spec (acc * 10) max); cbn; [done|].
  destruct (Z.leb_spec (acc * 10 + digit c) max); [lia|done].
Qed.

(** The loop reads a digit string whole, and fails exactly when it does not fit. *)
Lemma take_digits_app max d s acc n :
  all_digits d = true → headed_by_digit s = false → 0 ≤ acc ≤ max →
  take_digits max acc n (d +:+ s) =
    if val_from acc d <=? max then Some (val_from acc d, (n + String.length d)%nat, s) else None.
Proof.
  revert acc n. induction d as [|c d IH]; intros acc n Hd Hs Ha.
  - rewrite string_app_nil_l. cbn [val_from String.length].
    rewrite (proj2 (Z.leb_le _ _)) by lia. rewrite Nat.add_0_r.
    destruct s as [|c s]; [done|]. cbn [headed_by_digit take_digits] in *. by rewrite Hs.
  - cbn [all_digits] in Hd. apply andb_prop in Hd as [Hc Hd]. pose proof (digit_range c Hc).
    rewrite string_app_cons. cbn [take_digits val_from String.length]. rewrite Hc.
    rewrite checked_step by (done || lia). unfold checked at 1.
    destruct (Z.leb_spec (acc * 10 + digit c) max); cbn [mbind option_bind].
    + rewrite IH by (done || lia). by rewrite Nat.add_succ_r.
    + pose proof (val_from_ge d (acc * 10 + digit c) Hd).
      rewrite (proj2 (Z.leb_gt _ _)) by lia. done.
Qed.

(** What the loop read was a digit string. *)
Lemma take_digits_Some max s acc n m k r :
  take_digits max acc n s = Some (m, k, r) →
  0 ≤ acc ≤ max →
  ∃ d, s = d +:+ r ∧ all_digits d = true ∧ headed_by_digit r = false ∧
    m = val_from acc d ∧ k = (n + String.length d)%nat ∧ m ≤ max.
Proof.
  revert acc n. induction s as [|c s IH]; intros acc n H Ha; cbn [take_digits] in H.
  - simplify_eq. exists "". repeat split; [cbn; lia|lia].
  - destruct (is_ascii_digit c) eqn:Hc.
    + pose proof (digit_range c Hc). rewrite checked_step in H by (done || lia). unfold checked in H.
      destruct (Z.leb_spec (acc * 10 + digit c) max); [|done]. cbn in H.
      apply IH in H as (d & -> & Hd & Hr & -> & -> & Hm); [|lia].
      exists (String c d). cbn [all_digits val_from String.length]. rewrite Hc, Hd.
      split_and!; try done. lia.
    + simplify_eq. exists "". repeat split; [done|cbn; lia|lia].
Qed.

Lemma digit_string_length d : d ≠ "" → String.length d ≠ 0%nat.
Proof. by destruct d. Qed.

Lemma digit_string_sign d s : digit_string d → starts_with_sign (d +:+ s) = false.
Proof.
  intros [Hd Hne]. destruct d as [|c d]; [done|]. cbn [all_digits] in Hd.
  apply andb_prop in Hd as [Hc _]. rewrite string_app_cons. cbn [starts_with_sign].
  apply bool_decide_eq_false. intros [->| ->]; discriminate Hc.
Qed.

Lemma string_head (c : ascii) (s : string) : (∃ t, s = String c t) ∨ ∀ t, s ≠ String c t.
Proof.
  destruct s as [|c' s]; [by right|].
  destruct (decide (c' = c)) as [->|]; [left; eauto|right; congruence].
Qed.

Lemma parse_fraction_other m s : (∀ t, s ≠ String "." t) → parse_fraction m s = Ok (m, 0%nat, s).
Proof.
  intros H. destruct s as [|c s]; [done|].
  destruct c as [[] [] [] [] [] [] [] []]; try reflexivity. by destruct (H s).
Qed.

Lemma parse_fraction_spell l m :
  literal_ok l → 0 ≤ m → val_from m (default "" (frac_part l)) ≤ U128_MAX →
  parse_fraction m (spell_frac l +:+ spell_exp l) =
    Ok (val_from m (default "" (frac_part l)), frac_digits l, spell_exp l).
Proof.
  intros [_ Hf He] Hm Hfit. unfold spell_frac, frac_digits.
  assert (headed_by_digit (spell_exp l) = false ∧
          ∀ s, spell_exp l ≠ String "." s) as [Hh Hdot].
  { unfold spell_exp. destruct (exp_part l) as [[[c sg] d]|]; [|done].
    destruct (He _ _ _ eq_refl) as [[->| ->] _]; split; done || (intros s ?; simplify_eq). }
  destruct (frac_part l) as [f|] eqn:E; cbn [default from_option id] in *.
  - destruct (Hf _ eq_refl) as [Hd Hne]. rewrite string_app_cons. cbn [parse_fraction].
    pose proof (val_from_ge f m Hd Hm).
    rewrite take_digits_app by (done || lia). rewrite (proj2 (Z.leb_le _ _)) by lia.
    cbn [ok_or mbind result_bind Nat.add]. by rewrite decide_False by by apply digit_string_length.
  - rewrite string_app_nil_l.
    by apply parse_fraction_other.
Qed.

Lemma parse_exponent_spell l :
  literal_ok l → Z.abs (exponent_of l) ≤ I32_MAX →
  parse_exponent (spell_exp l) = Ok (exponent_of l, "").
Proof.
  intros [_ _ He] Hfit. unfold spell_exp, exponent_of in *.
  destruct (exp_part l) as [[[c sg] d]|]; [|done].
  destruct (He _ _ _ eq_refl) as [Hc [Hd Hne]].
  assert (val_from 0 d ≤ I32_MAX) as Hv
    by (pose proof (val_from_ge d 0 Hd); destruct sg; lia).
  assert (take_digits I32_MAX 0 0 d = Some (val_from 0 d, String.length d, "")) as Ht.
  { rewrite <-(string_app_nil_r d) at 1. rewrite take_digits_app; [|done..|unfold I32_MAX; lia].
    by rewrite (proj2 (Z.leb_le _ _)) by lia. }
  pose proof (digit_string_length d Hne) as Hlen.
  destruct Hc as [->| ->], sg; cbn [parse_exponent].
  all: try (rewrite Ht; cbn [ok_or mbind result_bind]; by rewrite decide_False).
  all: destruct d as [|c d]; [done|].
  all: cbn [all_digits] in Hd; apply andb_prop in Hd as [Hc' _].
  all: destruct c as [[] [] [] [] [] [] [] []]; try discriminate Hc'.
  all: rewrite Ht; cbn [ok_or mbind result_bind]; by rewrite decide_False.
Qed.

Lemma parse_number_spell l :
  literal_ok l → literal_fits l →
  parse_number (spell l) = Ok (mantissa_of l, frac_digits l, exponent_of l).
Proof.
  intros Hok [Hm He]. pose proof Hok as [[Hi Hne] Hf _]. unfold parse_number, spell.
  rewrite digit_string_sign by done.
  assert (headed_by_digit (spell_frac l +:+ spell_exp l) = false) as Hh.
  { unfold spell_frac, spell_exp. destruct (frac_part l); [done|].
    destruct (exp_part l) as [[[c sg] d]|] eqn:E; [|done].
    destruct (lo_exp _ Hok _ _ _ E) as [[->| ->] _]; done. }
  pose proof (val_from_ge (int_part l) 0 Hi) as Hi0.
  assert (val_from 0 (int_part l) ≤ mantissa_of l) as Hle.
  { apply val_from_ge; [|lia]. destruct (frac_part l) as [f|] eqn:E; [|done].
    by destruct (Hf _ eq_refl). }
  rewrite take_digits_app; [|done..|unfold U128_MAX; lia].
  rewrite (proj2 (Z.leb_le _ _)) by lia. cbn [ok_or mbind result_bind Nat.add].
  rewrite decide_False by by apply digit_string_length.
  rewrite parse_fraction_spell by (done || lia). cbn [mbind result_bind].
  by rewrite parse_exponent_spell.
Qed.

(** What each stage accepted was spelled so. *)
Lemma parse_fraction_Ok m s m' k r :
  parse_fraction m s = Ok (m', k, r) → 0 ≤ m ≤ U128_MAX →
  ∃ fr, (∀ f, fr = Some f → digit_string f) ∧
    s = match fr with Some f => String "." f | None => "" end +:+ r ∧
    m' = val_from m (default "" fr) ∧ k = String.length (default "" fr) ∧ m' ≤ U128_MAX.
Proof.
  intros H Hm. destruct (string_head "." s) as [[t ->]|Hs].
  - cbn [parse_fraction] in H. destruct (take_digits _ _ _ _) as [[[a n] b]|] eqn:E; [|done].
    cbn in H. case_decide as Hn; [done|]. simplify_eq.
    apply take_digits_Some in E as (d & -> & Hd & _ & -> & -> & Hle); [|done].
    exists (Some d). split_and!; try done.
    intros f [= ->]. split; [done|]. by intros ->.
  - rewrite parse_fraction_other in H by done. simplify_eq.
    exists None. split_and!; done || lia.
Qed.

Lemma exp_digits_Ok (neg : bool) s e r :
  (q ← ok_or (take_digits I32_MAX 0 0 s);
   let '(v, n, rest) := q in
   if decide (n = 0%nat) then Err PlanUnreachable
   else Ok (if neg then - v else v, rest)) = Ok (e, r) →
  ∃ d, s = d +:+ r ∧ digit_string d ∧ e = (if neg then - val_from 0 d else val_from 0 d) ∧
    0 ≤ val_from 0 d ≤ I32_MAX.
Proof.
  intros H. destruct (take_digits _ _ _ _) as [[[a n] b]|] eqn:E; [|done].
  cbn in H. case_decide as Hn; [done|]. simplify_eq.
  apply take_digits_Some in E as (d & -> & Hd & _ & -> & -> & Hle); [|unfold I32_MAX; lia].
  exists d. split_and!; try done; [by split; [|intros ->]|].
  apply val_from_ge; [done|lia].
Qed.

Lemma parse_exponent_Ok s e r :
  parse_exponent s = Ok (e, r) →
  ∃ ex, (∀ c sg d, ex = Some (c, sg, d) → (c = "e" ∨ c = "E")%char ∧ digit_string d) ∧
    s = spell_exp (mkLiteral "" None ex) +:+ r ∧
    e = exponent_of (mkLiteral "" None ex) ∧ Z.abs e ≤ I32_MAX.
Proof.
  assert (∀ c s', (c = "e" ∨ c = "E")%char →
    parse_exponent (String c s') = Ok (e, r) → ∃ sg d, s' =
      match sg with NoSign => d | PlusSign => String "+" d | MinusSign => String "-" d end +:+ r ∧
      digit_string d ∧ e = (if decide (sg = MinusSign) then - val_from 0 d else val_from 0 d) ∧
      0 ≤ val_from 0 d ≤ I32_MAX) as Hexp.
  { intros c s' Hc H. destruct (string_head "-" s') as [[t ->]|Hm].
    { destruct Hc as [->| ->]; cbn [parse_exponent] in H;
        apply (exp_digits_Ok true) in H as (d & -> & ? & -> & ?); by exists MinusSign, d. }
    destruct (string_head "+" s') as [[t ->]|Hp].
    { destruct Hc as [->| ->]; cbn [parse_exponent] in H;
        apply (exp_digits_Ok false) in H as (d & -> & ? & -> & ?); by exists PlusSign, d. }
    exists NoSign.
    assert (∃ d, s' = d +:+ r ∧ digit_string d ∧ e = val_from 0 d ∧ 0 ≤ val_from 0 d ≤ I32_MAX)
      as (d & -> & ? & -> & ?); [|by exists d].
    apply (exp_digits_Ok false). rewrite <-H. destruct s' as [|x s']; [by destruct Hc as [->| ->]|].
    destruct x as [[] [] [] [] [] [] [] []]; try (by destruct Hc as [->| ->]).
    - by destruct (Hp s').
    - by destruct (Hm s'). }
  intros H. destruct s as [|c s].
  { simplify_eq/=. exists None. by split_and!. }
  destruct (decide (c = "e" ∨ c = "E")%char) as [Hc|Hc].
  - destruct (Hexp c s Hc H) as (sg & d & -> & Hd & -> & Hb). exists (Some (c, sg, d)).
    split_and!; [naive_solver|by destruct sg|by destruct sg|case_decide; lia].
  - exists None. assert (parse_exponent (String c s) = Ok (0, String c s)) as E.
    { destruct c as [[] [] [] [] [] [] [] []]; try reflexivity; exfalso; apply Hc; auto. }
    rewrite E in H. simplify_eq. by split_and!.
Qed.

Lemma parse_number_Ok raw m k e :
  parse_number raw = Ok (m, k, e) →
  ∃ l, literal_ok l ∧ literal_fits l ∧ raw = spell l ∧
    m = mantissa_of l ∧ k = frac_digits l ∧ e = exponent_of l.
Proof.
  unfold parse_number. destruct (starts_with_sign raw); [done|].
  destruct (take_digits U128_MAX 0 0 raw) as [[[m0 n] r0]|] eqn:E; [|done].
  apply take_digits_Some in E as (ip & -> & Hip & _ & -> & -> & Hm0); [|unfold U128_MAX; lia].
  cbn [ok_or mbind result_bind]. case_decide as Hn; [done|].
  destruct (parse_fraction _ r0) as [[[m1 f] r1]|] eqn:Ef; [|done]. cbn [mbind result_bind].
  apply parse_fraction_Ok in Ef as (fr & Hfr & -> & -> & -> & Hm1);
    [|split; [by apply val_from_ge|done]].
  destruct (parse_exponent r1) as [[e0 r2]|] eqn:Ee; [|done]. cbn [mbind result_bind].
  apply parse_exponent_Ok in Ee as (ex & Hex & -> & -> & He). case_decide as Hr; [|done].
  intros H. simplify_eq. exists (mkLiteral ip fr ex).
  split_and!; [split|split|..]; try done; cbn.
  - split; [done|]. intros ->. by cbn in Hn.
  - unfold spell, spell_frac. cbn. by rewrite string_app_nil_r.
Qed.

(** ** The scaled product *)

Lemma pow10_loop_exact n v :
  0 < v → pow10_loop n v = checked U128_MAX (v * 10 ^ Z.of_nat n) ∨
  (n = 0%nat ∧ pow10_loop n v = Some v).
Proof.
  revert v. induction n as [|n IH]; intros v Hv; [by right|left].
  assert (0 < 10 ^ Z.of_nat n) by (apply Z.pow_pos_nonneg; lia).
  assert (v * 10 ^ Z.of_nat (S n) = v * 10 * 10 ^ Z.of_nat n) as ->
    by (rewrite Nat2Z.inj_succ, Z.pow_succ_r by lia; lia).
  cbn [pow10_loop]. unfold checked at 1. destruct (Z.leb_spec (v * 10) U128_MAX); cbn [mbind option_bind].
  - destruct (IH (v * 10)) as [->|[-> ->]]; [lia|done|].
    unfold checked. cbn. rewrite (proj2 (Z.leb_le _ _)) by lia. f_equal. lia.
  - unfold checked. rewrite (proj2 (Z.leb_gt _ _)) by nia. done.
Qed.

Lemma checked_pow10_exact p :
  0 ≤ p → checked_pow10 p = if 38 <? p then None else Some (10 ^ p).
Proof.
  intros Hp. unfold checked_pow10. destruct (Z.ltb_spec 38 p); [done|].
  destruct (pow10_loop_exact (Z.to_nat p) 1) as [->|[E ->]]; [lia|..].
  - rewrite Z2Nat.id, Z.mul_1_l by done. unfold checked.
    rewrite (proj2 (Z.leb_le _ _)); [done|].
    transitivity (10 ^ 38); [apply Z.pow_le_mono_r; lia|apply Z.leb_le; vm_compute; reflexivity].
  - assert (p = 0) as -> by lia. done.
Qed.

Lemma div_bracket n d ms : 0 < d → ms = n / d ↔ ms * d ≤ n < (ms + 1) * d.
Proof.
  intros Hd. split.
  - intros ->. pose proof (Z.mul_div_le n d). pose proof (Z.mul_succ_div_gt n d). lia.
  - intros H. apply (Z.div_unique_pos _ _ _ (n - ms * d)); lia.
Qed.

Lemma checked_Some max z : z ≤ max → checked max z = Some z.
Proof. intros H. unfold checked. by rewrite (proj2 (Z.leb_le _ _)). Qed.

Lemma checked_inv max z w : ok_or (checked max z) = Ok w → w = z ∧ z ≤ max.
Proof. unfold checked. destruct (Z.leb_spec z max); [intros [= <-]|]; done. Qed.

Lemma result_bind_Ok {E A B} (r : result E A) (f : A → result E B) b :
  r ≫= f = Ok b → ∃ a, r = Ok a ∧ f a = Ok b.
Proof. destruct r; [eauto|done]. Qed.

Lemma checked_scale_inv k e s :
  ok_or (checked_scale k e) = Ok s → s = Z.of_nat k - e.
Proof.
  unfold checked_scale, checked. destruct (_ <=? _); [|done]. cbn.
  by destruct (_ <=? _); [intros [= <-]|].
Qed.

Lemma scaled_sound l ms :
  scaled (mantissa_of l) (frac_digits l) (exponent_of l) = Ok ms →
  0 < mantissa_of l → 0 < ms ≤ I64_MAX ∧ ceiling_is l ms.
Proof.
  unfold scaled. intros H Hpos.
  apply result_bind_Ok in H as (sc & Hsc%checked_scale_inv & H).
  apply result_bind_Ok in H as (num & [-> Hn]%checked_inv & H).
  apply result_bind_Ok in H as (raw & Hraw & H).
  apply result_bind_Ok in H as (ms' & [-> Hms]%checked_inv & H).
  destruct ((raw =? 0) || negb (fits_ledger raw)) eqn:E; [done|]. injection H as <-.
  apply orb_false_elim in E as [E1%Z.eqb_neq E2%negb_false_iff]. unfold fits_ledger in E2.
  apply Z.leb_le in E2. unfold ceiling_is. rewrite <-Hsc.
  assert (0 < MS_PER_VCPU_HOUR) by done.
  destruct (Z.leb_spec sc 0) as [Hs|Hs].
  - apply result_bind_Ok in Hraw as (mul & Hm & [-> Hr]%checked_inv).
    rewrite checked_pow10_exact in Hm by lia. destruct (38 <? - sc); [done|]. injection Hm as <-.
    assert (0 < 10 ^ (- sc)) by (apply Z.pow_pos_nonneg; lia).
    rewrite decide_True by done. split; [|done]. split; [|done].
    apply Z.mul_pos_pos; [nia|done].
  - apply result_bind_Ok in Hraw as (dv & Hd & [= <-]).
    rewrite checked_pow10_exact in Hd by lia. destruct (38 <? sc); [done|]. injection Hd as <-.
    assert (0 < 10 ^ sc) by (apply Z.pow_pos_nonneg; lia).
    rewrite decide_False by lia.
    assert (0 ≤ mantissa_of l * MS_PER_VCPU_HOUR / 10 ^ sc) by (apply Z.div_pos; nia).
    split; [|by apply div_bracket]. split; [|done]. lia.
Qed.

Lemma scaled_complete l ms :
  let scale := Z.of_nat (frac_digits l) - exponent_of l in
  -38 ≤ scale ≤ 38 → Z.of_nat (frac_digits l) ≤ I32_MAX →
  0 < mantissa_of l → mantissa_of l * MS_PER_VCPU_HOUR ≤ U128_MAX →
  ceiling_is l ms → 0 < ms ≤ I64_MAX →
  scaled (mantissa_of l) (frac_digits l) (exponent_of l) = Ok ms.
Proof.
  intros scale Hsc Hf Hpos Hnum Hc Hms. unfold scaled, checked_scale.
  rewrite !checked_Some by (done || unfold I32_MAX; lia). cbn [ok_or mbind option_bind result_bind].
  rewrite checked_Some by (unfold I32_MAX; lia). cbn [ok_or mbind option_bind result_bind].
  fold scale. unfold ceiling_is in Hc. fold scale in Hc.
  assert (0 ≤ ms ≤ U64_MAX) by (unfold U64_MAX, I64_MAX in *; lia).
  assert ((ms =? 0) || negb (fits_ledger ms) = false) as Hlast.
  { unfold fits_ledger, MAX_LEDGER_VCPU_MS. rewrite (proj2 (Z.eqb_neq _ _)) by lia.
    by rewrite (proj2 (Z.leb_le _ _)) by lia. }
  destruct (Z.leb_spec scale 0) as [Hs|Hs].
  - rewrite decide_True in Hc by done. rewrite checked_pow10_exact by lia.
    rewrite (proj2 (Z.ltb_ge _ _)) by lia. cbn [ok_or mbind result_bind]. rewrite <-Hc.
    rewrite !checked_Some by (unfold U128_MAX, U64_MAX in *; lia). cbn [ok_or mbind result_bind].
    rewrite checked_Some by lia. cbn [ok_or mbind result_bind]. by rewrite Hlast.
  - rewrite decide_False in Hc by lia. rewrite checked_pow10_exact by lia.
    rewrite (proj2 (Z.ltb_ge _ _)) by lia. cbn [ok_or mbind result_bind].
    apply div_bracket in Hc; [|apply Z.pow_pos_nonneg; lia]. rewrite <-Hc.
    rewrite checked_Some by lia. cbn [ok_or mbind result_bind]. by rewrite Hlast.
Qed.

Lemma mantissa_nonneg l : literal_ok l → 0 ≤ mantissa_of l.
Proof.
  intros [[Hi _] Hf _]. transitivity (val_from 0 (int_part l)); [by apply val_from_ge|].
  apply val_from_ge; [|by apply val_from_ge].
  destruct (frac_part l) as [f|] eqn:E; [by destruct (Hf _ eq_refl)|done].
Qed.

(** A compute ceiling is exact or refused.  Whatever decimal number the plan
    response carries, an accepted ceiling is either zero, and then the number was
    a literal zero, or the number's exact vCPU-hours truncated at the
    millisecond and within the ledger's range; and every well-formed literal
    whose parts fit and whose ceiling is in range is accepted. *)
Theorem vcpu_h_ceiling_exact v raw view :
  get v "max_vcpu_h" = Some (JNumber raw view) →
  (∀ ms, max_vcpu_h_ceiling_ms v = Ok ms →
     ∃ l, literal_ok l ∧ raw = spell l ∧
       (ms = 0 ∧ mantissa_of l = 0 ∨ 0 < ms ≤ I64_MAX ∧ ceiling_is l ms)) ∧
  (∀ l ms, literal_ok l → literal_fits l → raw = spell l →
     (ms = 0 ∧ mantissa_of l = 0 ∨
      0 < mantissa_of l ∧ mantissa_of l * MS_PER_VCPU_HOUR ≤ U128_MAX ∧
      Z.of_nat (frac_digits l) ≤ I32_MAX ∧
      -38 ≤ Z.of_nat (frac_digits l) - exponent_of l ≤ 38 ∧
      ceiling_is l ms ∧ 0 < ms ≤ I64_MAX) →
     max_vcpu_h_ceiling_ms v = Ok ms).
Proof.
  intros Hget. unfold max_vcpu_h_ceiling_ms. rewrite Hget. cbn [as_number ok_or mbind result_bind]. split.
  - intros ms H. apply result_bind_Ok in H as ([[m k] e] & Hp & H).
    apply parse_number_Ok in Hp as (l & Hok & Hfit & -> & -> & -> & ->).
    exists l. split_and!; [done..|]. destruct (Z.eqb_spec (mantissa_of l) 0).
    + left. by simplify_eq.
    + right. apply scaled_sound; [done|]. pose proof (mantissa_nonneg l Hok). lia.
  - intros l ms Hok Hfit -> H. rewrite parse_number_spell by done. cbn [mbind result_bind].
    destruct H as [[-> ->]|(Hpos & Hn & Hf & Hs & Hc & Hms)]; [done|].
    rewrite (proj2 (Z.eqb_neq _ _)) by lia. by apply scaled_complete.
Qed.

(** 0.5 vCPU-hours, written with an exponent. *)
Lemma vcpu_h_ceiling_exact_witness :
  max_vcpu_h_ceiling_ms
    (JObject [("plan", JString "pro"); ("max_vcpu_h", JNumber "5.00e-1" None)]) = Ok 1800000.
Proof.
  refine (proj2 (vcpu_h_ceiling_exact
      (JObject [("plan", JString "pro"); ("max_vcpu_h", JNumber "5.00e-1" None)])
      "5.00e-1" None eq_refl)
    (mkLiteral "5" (Some "00") (Some ("e"%char, MinusSign, "1"))) 1800000 _ _ _ _).
  - split; [by split|intros f [= <-]; by split|].
    intros c sg d [= <- <- <-]. split; [by left|by split].
  - split; vm_compute; congruence.
  - reflexivity.
  - right. unfold ceiling_is. rewrite decide_False by (vm_compute; auto).
    split_and!; vm_compute; congruence.
Defined.
