(* ===== verification/Introspect.v ===== *)
(** * Token introspection

    Models the authentication path of [crates/corelink-fabric-server/src]: the
    circuit breaker and the retry loop ([introspect_breaker.rs]), the success-only
    cache ([introspect_cache.rs]), the token store and its parse of an
    introspection body ([corelink_auth.rs]), the plan store ([corelink_plans.rs])
    and the authentication middleware ([auth.rs]).  The transport, the digest and
    the JSON parser are parameters.  Times are milliseconds of one clock. *)
From S2P Require Import Prelude Tenant ComputeMeter Decimal.

(** ** The circuit breaker *)

Record BreakerConfig : Type := mkBreakerConfig { threshold : Z; cooldown : Z }.

Definition DEFAULT_INTROSPECT_BREAKER_THRESHOLD : Z := 5.
Definition DEFAULT_INTROSPECT_BREAKER_COOLDOWN : Z := 5000.
Definition breaker_config_default : BreakerConfig :=
  mkBreakerConfig DEFAULT_INTROSPECT_BREAKER_THRESHOLD DEFAULT_INTROSPECT_BREAKER_COOLDOWN.

Inductive State : Type :=
| Closed (consecutive : Z)
| Open (opened_at : Z).

Inductive Gate : Type := Allow | Probe | GateReject.

(** [struct CircuitBreaker]; [open_count] is the counter
    [introspect_breaker_open], bumped by each opening. *)
Record CircuitBreaker : Type := mkBreaker {
  breaker_cfg : BreakerConfig;
  breaker_state : State;
  open_count : Z;
}.

Definition breaker_new (cfg : BreakerConfig) : CircuitBreaker :=
  mkBreaker (mkBreakerConfig (Z.max (threshold cfg) 1) (cooldown cfg)) (Closed 0) 0.

Definition on_call (now : Z) (b : CircuitBreaker) : CircuitBreaker * Gate :=
  match breaker_state b with
  | Closed _ => (b, Allow)
  | Open opened_at =>
    if bool_decide (cooldown (breaker_cfg b) ≤ now -sat opened_at)
    then (mkBreaker (breaker_cfg b) (Open now) (open_count b), Probe)
    else (b, GateReject)
  end.

Definition on_endpoint_responded (b : CircuitBreaker) : CircuitBreaker :=
  mkBreaker (breaker_cfg b) (Closed 0) (open_count b).

Definition on_transient_failure (now : Z) (b : CircuitBreaker) : CircuitBreaker :=
  match breaker_state b with
  | Closed consecutive =>
    if bool_decide (threshold (breaker_cfg b) ≤ consecutive + 1)
    then mkBreaker (breaker_cfg b) (Open now) (open_count b + 1)
    else mkBreaker (breaker_cfg b) (Closed (consecutive + 1)) (open_count b)
  | Open _ => mkBreaker (breaker_cfg b) (Open now) (open_count b + 1)
  end.

(** ** One gated introspection *)

Record IntrospectResponse : Type := mkResponse { status : Z; body : string }.

Definition INTROSPECT_ATTEMPTS : nat := 3.

Inductive IntrospectOutcome : Type := Body200 (body : string) | FailClosed.

(** The retry loop: [post i] is what the [i]-th POST of this call returns, and
    [None] a transport error; [made] counts the POSTs sent. *)
Fixpoint attempts (post : nat → option IntrospectResponse) (remaining made : nat)
    (fail_now : Z) (b : CircuitBreaker) : CircuitBreaker * nat * IntrospectOutcome :=
  match remaining with
  | O => (on_transient_failure fail_now b, made, FailClosed)
  | S remaining =>
    match post made with
    | Some resp =>
      if status resp =? 200 then (on_endpoint_responded b, S made, Body200 (body resp))
      else if 500 <=? status resp then attempts post remaining (S made) fail_now b
      else (on_endpoint_responded b, S made, FailClosed)
    | None => attempts post remaining (S made) fail_now b
    end
  end.

(** [fn run_introspect]: the breaker reads the clock when it is asked
    ([call_now]) and when the loop is exhausted ([fail_now]). *)
Definition run_introspect (post : nat → option IntrospectResponse) (call_now fail_now : Z)
    (b : CircuitBreaker) : CircuitBreaker * nat * IntrospectOutcome :=
  match on_call call_now b with
  | (b, GateReject) => (b, 0%nat, FailClosed)
  | (b, _) => attempts post INTROSPECT_ATTEMPTS 0 fail_now b
  end.

(** ** The success-only cache *)

Record Entry : Type := mkEntry {
  entry_tenant : TenantId;
  entry_body : option string;
  expires_at : Z;
}.

Record IntrospectCache : Type := mkCache {
  ttl : Z;
  max_entries : nat;
  cache_map : gmap string Entry;
}.

Definition cache_new (ttl : Z) (max_entries : nat) : IntrospectCache :=
  mkCache ttl (Nat.max max_entries 1) ∅.

Definition is_armed (c : IntrospectCache) : bool := negb (ttl c =? 0).

Definition with_map (c : IntrospectCache) (m : gmap string Entry) : IntrospectCache :=
  mkCache (ttl c) (max_entries c) m.

Inductive TokenStoreError : Type := StoreUnreachable.

(** What the middleware answers: the request goes on as a tenant, with the
    introspection body when there is one, or the refusal the client sees. *)
Inductive AuthAnswer : Type :=
| AdmitAs (t : TenantId) (cached : option string)
| Unauthorized
| FailClosed503
| Shed503.

(** [enum AuthLeg]. *)
Inductive AuthLeg : Type :=
| Resolved (r : result TokenStoreError (option (TenantId * option string)))
| Shed.

Section Introspect.

(** [blake3::hash] and [serde_json::from_str]. *)
Context (key_of : string → string) (from_str : string → option Value).

(** [IntrospectCache::get]: a live hit, or nothing and an expired entry gone. *)
Definition cache_get (now : Z) (token : string) (c : IntrospectCache)
    : IntrospectCache * option (TenantId * option string) :=
  if is_armed c then
    match cache_map c !! key_of token with
    | Some e =>
      if bool_decide (now < expires_at e) then (c, Some (entry_tenant e, entry_body e))
      else (with_map c (delete (key_of token) (cache_map c)), None)
    | None => (c, None)
    end
  else (c, None).

(** [IntrospectCache::put]. *)
Definition cache_put (now : Z) (token : string) (t : TenantId) (b : option string)
    (c : IntrospectCache) : IntrospectCache :=
  if is_armed c then
    let key := key_of token in
    let e := mkEntry t b (now + ttl c) in
    let full (m : gmap string Entry) := (max_entries c <=? size m)%nat in
    if full (cache_map c) && bool_decide (cache_map c !! key = None) then
      let live := filter (λ ke, now < expires_at ke.2) (cache_map c) in
      if full live then with_map c live else with_map c (<[key := e]> live)
    else with_map c (<[key := e]> (cache_map c))
  else c.

(** [CoreLinkTokenStore::parse_introspect_200]. *)
Definition parse_introspect_200 (b : string) : result TokenStoreError (option TenantId) :=
  match from_str b with
  | None => Err StoreUnreachable
  | Some v =>
    match get v "valid" ≫= as_bool with
    | None => Err StoreUnreachable
    | Some false => Ok None
    | Some true =>
      match get v "tenant_id" ≫= as_string with
      | None => Err StoreUnreachable
      | Some s =>
        if decide (s = "") then Err StoreUnreachable
        else match tenant_new s with
             | Ok t => Ok (Some t)
             | Err _ => Err StoreUnreachable
             end
      end
    end
  end.

(** [CoreLinkTokenStore::tenant_of_capturing]. *)
Definition tenant_of_capturing (post : nat → option IntrospectResponse) (call_now fail_now : Z)
    (b : CircuitBreaker)
    : CircuitBreaker * result TokenStoreError (option (TenantId * option string)) :=
  match run_introspect post call_now fail_now b with
  | (b, _, Body200 resp_body) =>
    (b, match parse_introspect_200 resp_body with
        | Ok (Some t) => Ok (Some (t, Some resp_body))
        | Ok None => Ok None
        | Err e => Err e
        end)
  | (b, _, FailClosed) => (b, Err StoreUnreachable)
  end.

(** The closure the leader of a flight runs: a permit, or a shed. *)
Definition auth_leader (permit : bool) (post : nat → option IntrospectResponse)
    (call_now fail_now : Z) (b : CircuitBreaker) : CircuitBreaker * AuthLeg :=
  if permit then
    let '(b, r) := tenant_of_capturing post call_now fail_now b in (b, Resolved r)
  else (b, Shed).

(** [fn bearer_token], of a header that is valid text. *)
Definition bearer_token (header : option string) : option string :=
  match header ≫= strip_prefix "Bearer " with
  | Some token => if decide (token = "") then None else Some token
  | None => None
  end.

(** One request of [require_tenant] that leads its own flight. *)
Record auth_request : Type := mkAuthRequest {
  auth_header : option string;
  get_now : Z;
  permit : bool;
  post_replies : nat → option IntrospectResponse;
  call_now : Z;
  fail_now : Z;
  put_now : Z;
}.

Definition require_tenant (r : auth_request) (st : CircuitBreaker * IntrospectCache)
    : (CircuitBreaker * IntrospectCache) * AuthAnswer :=
  let '(b, c) := st in
  match bearer_token (auth_header r) with
  | None => (st, Unauthorized)
  | Some token =>
    match cache_get (get_now r) token c with
    | (c, Some (t, cached)) => ((b, c), AdmitAs t cached)
    | (c, None) =>
      let '(b, leg) := auth_leader (permit r) (post_replies r) (call_now r) (fail_now r) b in
      match leg with
      | Shed => ((b, c), Shed503)
      | Resolved (Ok (Some (t, cached))) =>
        ((b, cache_put (put_now r) token t cached c), AdmitAs t cached)
      | Resolved (Ok None) => ((b, c), Unauthorized)
      | Resolved (Err StoreUnreachable) => ((b, c), FailClosed503)
      end
    end
  end.

(** ** The plan store *)

Record PlanCache : Type := mkPlanCache {
  ceilings : gmap TenantId Z;
  plans : gmap TenantId TenantPlan;
}.

Definition plan_cache_default : PlanCache := mkPlanCache ∅ ∅.

Definition DERIVED_RATE_MULTIPLIER : Z := 10.

Definition invalidate_cache (t : TenantId) (pc : PlanCache) : PlanCache :=
  mkPlanCache (delete t (ceilings pc)) (delete t (plans pc)).

(** Token-free reads. *)
Definition plan_of (pc : PlanCache) (t : TenantId) : option TenantPlan := plans pc !! t.
Definition plan_store_ceiling (pc : PlanCache) (t : TenantId) : Z := default 0 (ceilings pc !! t).

(** [v.get(k).and_then(as_u64).and_then(|n| u32::try_from(n).ok())]. *)
Definition get_u32 (v : Value) (k : string) : option Z :=
  n ← get v k ≫= as_u64_view; checked U32_MAX n.

(** [CoreLinkPlanStore::parse_plan_200]. *)
Definition parse_plan_200 (t : TenantId) (b : string)
    : M PlanCache PlanSourceError (option TenantPlan) := λ pc,
  match from_str b with
  | None => (invalidate_cache t pc, Err PlanUnreachable)
  | Some v =>
    match get v "valid" ≫= as_bool with
    | None => (invalidate_cache t pc, Err PlanUnreachable)
    | Some false => (invalidate_cache t pc, Ok None)
    | Some true =>
      match max_vcpu_h_ceiling_ms v with
      | Err e => (invalidate_cache t pc, Err e)
      | Ok ceiling =>
        match get_u32 v "max_concurrency" with
        | None => (invalidate_cache t pc, Ok None)
        | Some max_concurrency =>
          let rate := default (Z.min U32_MAX (max_concurrency * DERIVED_RATE_MULTIPLIER))
                        (get_u32 v "rate_ceiling_per_min") in
          let plan := mkTenantPlan t max_concurrency rate [] in
          (mkPlanCache (<[t := ceiling]> (ceilings pc)) (<[t := plan]> (plans pc)), Ok (Some plan))
        end
      end
    end
  end.

(** [plan_of_resolving]: over the breaker and the store's cache. *)
Definition plan_of_resolving (t : TenantId) (post : nat → option IntrospectResponse)
    (call_now fail_now : Z)
    : M (CircuitBreaker * PlanCache) PlanSourceError (option TenantPlan) := λ '(b, pc),
  match run_introspect post call_now fail_now b with
  | (b, _, Body200 resp_body) =>
    let '(pc, r) := parse_plan_200 t resp_body pc in ((b, pc), r)
  | (b, _, FailClosed) => ((b, invalidate_cache t pc), Err PlanUnreachable)
  end.

Definition plan_of_resolving_cached (t : TenantId) (cached : option string)
    (post : nat → option IntrospectResponse) (call_now fail_now : Z)
    : M (CircuitBreaker * PlanCache) PlanSourceError (option TenantPlan) := λ '(b, pc),
  match cached with
  | Some c => let '(pc, r) := parse_plan_200 t c pc in ((b, pc), r)
  | None => plan_of_resolving t post call_now fail_now (b, pc)
  end.

End Introspect.
