(* ===== verification/IntrospectProofs.v ===== *)
(** * Authentication: what is admitted, and when upstream is asked

    Theorems on [Introspect]: the breaker against its history of events, the
    provenance of every admission through retries, cache and parse, and the
    agreement of the token-free plan reads with the last resolution. *)
From S2P Require Import Prelude Tenant ComputeMeter Decimal Introspect.

(** ** The breaker's history *)

Inductive bevent : Type := BCall (now : Z) | BResponded | BFailed (now : Z).

Definition bstep (b : CircuitBreaker) (ev : bevent) : CircuitBreaker :=
  match ev with
  | BCall now => (on_call now b).1
  | BResponded => on_endpoint_responded b
  | BFailed now => on_transient_failure now b
  end.
Definition brun (h : list bevent) (b : CircuitBreaker) : CircuitBreaker := foldl bstep b h.

(** Exhausted calls since the endpoint last answered. *)
Definition streak_step (n : Z) (ev : bevent) : Z :=
  match ev with BCall _ => n | BResponded => 0 | BFailed _ => n + 1 end.
Definition streak (h : list bevent) : Z := foldl streak_step 0 h.

(** Failures that opened or re-opened the breaker. *)
Fixpoint openings (thr n : Z) (h : list bevent) : Z :=
  match h with
  | [] => 0
  | ev :: h =>
    let n' := streak_step n ev in
    (match ev with BFailed _ => if decide (thr ≤ n') then 1 else 0 | _ => 0 end) + openings thr n' h
  end.

Definition ev_time (ev : bevent) : option Z :=
  match ev with BCall t => Some t | BFailed t => Some t | BResponded => None end.

(** The events' clock readings never go back, starting from [t]. *)
Fixpoint times_from (t : Z) (h : list bevent) : Prop :=
  match h with
  | [] => True
  | ev :: h => match ev_time ev with
               | Some t' => t ≤ t' ∧ times_from t' h
               | None => times_from t h
               end
  end.

(** The breaker's state stands for a streak: closed with its count below the
    threshold, open from it on. *)
Definition tracks (b : CircuitBreaker) (n : Z) : Prop :=
  0 ≤ n ∧ match breaker_state b with
          | Closed c => c = n ∧ n < threshold (breaker_cfg b)
          | Open _ => threshold (breaker_cfg b) ≤ n
          end.

Lemma bstep_cfg b ev : breaker_cfg (bstep b ev) = breaker_cfg b.
Proof.
  destruct ev; cbn; [|done|].
  - unfold on_call. destruct (breaker_state b); [done|]. by case_bool_decide.
  - unfold on_transient_failure. destruct (breaker_state b); [|done]. by case_bool_decide.
Qed.

Lemma brun_cfg h b : breaker_cfg (brun h b) = breaker_cfg b.
Proof.
  revert b. induction h as [|ev h IH]; intros b; [done|].
  cbn [brun foldl]. etransitivity; [apply IH|apply bstep_cfg].
Qed.

Lemma bstep_tracks b n ev :
  0 < threshold (breaker_cfg b) → tracks b n → tracks (bstep b ev) (streak_step n ev).
Proof.
  intros Ht [Hn Hs]. unfold tracks. rewrite bstep_cfg. destruct ev; cbn.
  - unfold on_call. destruct (breaker_state b) eqn:E; [cbn; rewrite E; lia|].
    case_bool_decide; cbn; [|rewrite E]; lia.
  - lia.
  - unfold on_transient_failure. destruct (breaker_state b) eqn:E; [|cbn; lia].
    case_bool_decide; cbn; lia.
Qed.

Lemma bstep_openings b n ev :
  tracks b n →
  open_count (bstep b ev) = open_count b +
    match ev with BFailed _ => if decide (threshold (breaker_cfg b) ≤ streak_step n ev) then 1 else 0
             | _ => 0 end.
Proof.
  intros [Hn Hs]. destruct ev; cbn; [|lia|].
  - unfold on_call. destruct (breaker_state b); [cbn; lia|]. case_bool_decide; cbn; lia.
  - unfold on_transient_failure. destruct (breaker_state b).
    + destruct Hs as [-> ?]. case_bool_decide; case_decide; cbn; lia.
    + rewrite decide_True by lia. done.
Qed.

Lemma brun_tracks h b n :
  0 < threshold (breaker_cfg b) → tracks b n →
  tracks (brun h b) (foldl streak_step n h) ∧
  breaker_cfg (brun h b) = breaker_cfg b ∧
  open_count (brun h b) = open_count b + openings (threshold (breaker_cfg b)) n h.
Proof.
  revert b n. induction h as [|ev h IH]; intros b n Ht Htr.
  { split_and!; [done|done|cbn; lia]. }
  cbn [brun foldl openings]. destruct (IH (bstep b ev) (streak_step n ev)) as (H1 & H2 & H3).
  { by rewrite bstep_cfg. }
  { by apply bstep_tracks. }
  rewrite bstep_cfg in H2, H3. split_and!; [done|done|].
  unfold brun in H3. rewrite H3, (bstep_openings b n ev) by done. lia.
Qed.

Lemma times_from_le t t' h : times_from t h → t' ≤ t → times_from t' h.
Proof.
  revert t t'. induction h as [|ev h IH]; intros t t' H Hle; [done|].
  cbn in *. destruct (ev_time ev); [|eauto]. destruct H. split; [lia|done].
Qed.

(** While open and unanswered, the opening time only moves forward. *)
Lemma open_time_mono h b t :
  breaker_state b = Open t → times_from t h → BResponded ∉ h →
  ∃ t', breaker_state (brun h b) = Open t' ∧ t ≤ t'.
Proof.
  revert b t. induction h as [|ev h IH]; intros b t Hb Ht Hr; [cbn; eauto with lia|].
  apply not_elem_of_cons in Hr as [Hev Hr]. cbn [brun foldl].
  destruct ev as [now| |now]; [|done|]; cbn in Ht; destruct Ht as [Hle Ht].
  - assert (∃ t1, breaker_state (bstep b (BCall now)) = Open t1 ∧ t ≤ t1 ∧ t1 ≤ now) as (t1 & E & H1 & H2).
    { cbn. unfold on_call. rewrite Hb. case_bool_decide; cbn; eauto with lia. }
    destruct (IH _ t1 E) as (t' & ? & ?); [|done|eauto with lia].
    by apply (times_from_le now).
  - destruct (IH (bstep b (BFailed now)) now) as (t' & ? & ?); [|done..|eauto with lia].
    cbn. unfold on_transient_failure. by rewrite Hb.
Qed.

(** The breaker follows its failures.  After any interleaving of calls,
    answers and exhausted calls, it lets every call through exactly while fewer
    than the threshold failed since the last answer, and is open otherwise, with
    each opening counted; once open at some time and unanswered since, no call is
    allowed, and none probes before the cooldown has passed. *)
Theorem breaker_follows_history cfg h now :
  let b := brun h (breaker_new cfg) in
  let thr := Z.max (threshold cfg) 1 in
  (streak h < thr ↔ (on_call now b).2 = Allow) ∧
  (streak h < thr → breaker_state b = Closed (streak h)) ∧
  open_count b = openings thr 0 h ∧
  (∀ t h2, breaker_state b = Open t → times_from t h2 → BResponded ∉ h2 →
     let g := (on_call now (brun h2 b)).2 in
     g ≠ Allow ∧ (g = Probe → t + cooldown cfg ≤ now ∨ cooldown cfg ≤ 0)).
Proof.
  intros b thr.
  assert (tracks (breaker_new cfg) 0) as H0 by (unfold tracks; cbn; lia).
  destruct (brun_tracks h (breaker_new cfg) 0) as ([Hn Htr] & Hcfg & Hop); [cbn; lia|done|].
  fold b in Htr, Hcfg, Hop. fold (streak h) in Hn, Htr. rewrite Hcfg in Htr.
  cbn [threshold breaker_cfg breaker_new] in Htr. fold thr in Htr.
  split_and!; [| | |intros t h2 Ho Ht Hr].
  - unfold on_call. destruct (breaker_state b); [naive_solver|].
    case_bool_decide; cbn; split; [lia|done|lia|done].
  - intros Hlt. destruct (breaker_state b); [by destruct Htr as [-> _]|lia].
  - rewrite Hop. done.
  - destruct (open_time_mono h2 b t Ho Ht Hr) as (t' & E & Hle).
    unfold on_call. rewrite E, brun_cfg, Hcfg. cbn [cooldown breaker_cfg breaker_new].
    case_bool_decide as Hcd; cbn; (split; [done|]); [|done].
    intros _. unfold sat_sub in Hcd. lia.
Qed.

(** ** Where an admission comes from *)

Section Provenance.
Context (key_of : string → string) (from_str : string → option Value).

(** The body is an answer that vouches for the tenant. *)
Definition vouches (b : string) (t : TenantId) : Prop :=
  ∃ v s, from_str b = Some v ∧ get v "valid" ≫= as_bool = Some true ∧
    get v "tenant_id" ≫= as_string = Some s ∧ tenant_new s = Ok t.

(** The request [r] carried a token with digest [k], and one of its POSTs was
    answered by a 200 whose body [b] vouches for [t]. *)
Definition confirmed (r : auth_request) (k : string) (t : TenantId) (b : string) : Prop :=
  ∃ tok i, bearer_token (auth_header r) = Some tok ∧ key_of tok = k ∧
    (i < INTROSPECT_ATTEMPTS)%nat ∧ post_replies r i = Some (mkResponse 200 b) ∧ vouches b t.

Definition auth_run (rs : list auth_request) (st : CircuitBreaker * IntrospectCache)
    : CircuitBreaker * IntrospectCache :=
  foldl (λ st r, (require_tenant key_of from_str r st).1) st rs.

(** Every entry was put by an earlier request that was confirmed, and lives
    exactly the time to live from then. *)
Record cache_inv (rs : list auth_request) (c : IntrospectCache) : Prop := {
  ci_entry k e : cache_map c !! k = Some e →
    ∃ r b, r ∈ rs ∧ confirmed r k (entry_tenant e) b ∧ entry_body e = Some b ∧
      expires_at e = put_now r + ttl c;
  ci_size : (size (cache_map c) ≤ max_entries c)%nat;
}.

Lemma parse_vouches b t : parse_introspect_200 from_str b = Ok (Some t) → vouches b t.
Proof.
  unfold parse_introspect_200, vouches. destruct (from_str b) as [v|]; [|done].
  destruct (get v "valid" ≫= as_bool) as [[]|] eqn:Ev; [|done..].
  destruct (get v "tenant_id" ≫= as_string) as [s|] eqn:Es; [|done].
  case_decide as Hs; [done|]. destruct (tenant_new s) eqn:Et; [|done].
  intros H. simplify_eq. eauto 10.
Qed.

Lemma attempts_body post n made fn b b' k rb :
  attempts post n made fn b = (b', k, Body200 rb) →
  ∃ i, (made ≤ i < made + n)%nat ∧ post i = Some (mkResponse 200 rb).
Proof.
  revert made. induction n as [|n IH]; intros made H; [done|]. cbn in H.
  destruct (post made) as [[st bd]|] eqn:E; cbn in H.
  - destruct (Z.eqb_spec st 200) as [->|]; [simplify_eq; exists made; split; [lia|done]|].
    destruct (500 <=? st); [|done]. apply IH in H as (i & ? & ?). exists i. split; [lia|done].
  - apply IH in H as (i & ? & ?). exists i. split; [lia|done].
Qed.

Lemma capturing_confirmed post cn fn b b' t cached :
  tenant_of_capturing from_str post cn fn b = (b', Ok (Some (t, cached))) →
  ∃ i rb, (i < INTROSPECT_ATTEMPTS)%nat ∧ post i = Some (mkResponse 200 rb) ∧
    vouches rb t ∧ cached = Some rb.
Proof.
  unfold tenant_of_capturing. destruct (run_introspect post cn fn b) as [[b1 k] [rb|]] eqn:E; [|done].
  destruct (parse_introspect_200 from_str rb) as [[t'|]|] eqn:Ep; [|done..].
  intros H. simplify_eq. unfold run_introspect in E.
  destruct (on_call cn b) as [b2 []]; [| |done].
  all: apply attempts_body in E as (i & Hi & Hpost); exists i, rb.
  all: split_and!; [lia|done|by apply parse_vouches|done].
Qed.

Lemma cache_inv_mono rs r c : cache_inv rs c → cache_inv (rs ++ [r]) c.
Proof.
  intros [He Hs]. split; [|done]. intros k e Hk. destruct (He k e Hk) as (r' & b & Hr & ?).
  exists r', b. rewrite elem_of_app. auto.
Qed.

Lemma cache_inv_get rs now tok c :
  cache_inv rs c → cache_inv rs (cache_get key_of now tok c).1.
Proof.
  intros [He Hs]. unfold cache_get. destruct (is_armed c); [|done].
  destruct (cache_map c !! key_of tok) as [e|] eqn:E; [|done].
  case_bool_decide; [done|]. split; cbn.
  - intros k e' [_ Hk]%lookup_delete_Some. eauto.
  - rewrite map_size_delete. unfold is_Some. rewrite E. cbn. lia.
Qed.

Lemma cache_inv_put rs r tok t b c :
  cache_inv rs c → r ∈ rs → confirmed r (key_of tok) t b →
  cache_inv rs (cache_put key_of (put_now r) tok t (Some b) c).
Proof.
  intros [He Hs] Hr Hc. unfold cache_put. destruct (is_armed c); [|done].
  assert (∀ m : gmap string Entry, m ⊆ cache_map c →
    (size (<[key_of tok := mkEntry t (Some b) (put_now r + ttl c)]> m) ≤ max_entries c)%nat →
    cache_inv rs (with_map c (<[key_of tok := mkEntry t (Some b) (put_now r + ttl c)]> m))) as Hins.
  { intros m Hm Hsz. split; [|done]. cbn. intros k e.
    rewrite lookup_insert_Some. intros [[<- <-]|[_ Hk]]; [eauto 10|].
    apply He. by eapply lookup_weaken. }
  destruct ((max_entries c <=? size (cache_map c))%nat && bool_decide (cache_map c !! key_of tok = None)) eqn:E.
  - apply andb_prop in E as [_ E%bool_decide_eq_true].
    set (live := filter _ (cache_map c)).
    assert (live ⊆ cache_map c) as Hlive by apply map_filter_subseteq.
    destruct (Nat.leb_spec (max_entries c) (size live)) as [Hfull|Hroom].
    + split; cbn; [|by etransitivity; [apply map_subseteq_size|]].
      intros k e Hk. apply He. by eapply lookup_weaken.
    + apply Hins; [done|]. rewrite map_size_insert_None; [lia|].
      apply eq_None_not_Some. intros [x Hx]. eapply lookup_weaken in Hx; [|done]. congruence.
  - apply Hins; [done|]. rewrite map_size_insert.
    destruct (cache_map c !! key_of tok) eqn:Ek; cbn; [done|].
    rewrite bool_decide_true, andb_true_r in E by done. apply Nat.leb_gt in E. lia.
Qed.

Lemma require_tenant_inv rs r b c :
  cache_inv rs c → cache_inv (rs ++ [r]) (require_tenant key_of from_str r (b, c)).1.2.
Proof.
  intros Hinv. apply (cache_inv_mono rs r) in Hinv. unfold require_tenant.
  destruct (bearer_token (auth_header r)) as [tok|] eqn:Et; [|done].
  pose proof (cache_inv_get _ (get_now r) tok c Hinv) as Hget.
  destruct (cache_get key_of (get_now r) tok c) as [c1 [[t cached]|]]; [done|]. cbn in Hget.
  unfold auth_leader. destruct (permit r); [|done].
  destruct (tenant_of_capturing _ _ _ _ _) as [b1 [[[t cached]|]|[]]] eqn:Ec; [|done..].
  apply capturing_confirmed in Ec as (i & rb & Hi & Hp & Hv & ->). cbn.
  apply cache_inv_put; [done|set_solver|]. by exists tok, i.
Qed.

Lemma require_tenant_config r b c :
  let c' := (require_tenant key_of from_str r (b, c)).1.2 in
  ttl c' = ttl c ∧ max_entries c' = max_entries c.
Proof.
  unfold require_tenant. destruct (bearer_token _); [|done].
  unfold cache_get, cache_put, auth_leader.
  repeat (case_match; simplify_eq; try done).
Qed.

Lemma auth_run_inv rs0 rs b c :
  cache_inv rs0 c →
  cache_inv (rs0 ++ rs) (auth_run rs (b, c)).2 ∧
  ttl (auth_run rs (b, c)).2 = ttl c ∧ max_entries (auth_run rs (b, c)).2 = max_entries c.
Proof.
  revert rs0 b c. induction rs as [|r rs IH]; intros rs0 b c Hinv.
  { rewrite app_nil_r. done. }
  cbn [auth_run foldl]. pose proof (require_tenant_inv rs0 r b c Hinv) as H1.
  pose proof (require_tenant_config r b c) as [H2 H2'].
  destruct (require_tenant key_of from_str r (b, c)).1 as [b1 c1]. cbn in *.
  destruct (IH (rs0 ++ [r]) b1 c1 H1) as (H3 & H4 & H5).
  rewrite <-app_assoc in H3. unfold auth_run in *. split_and!; [done|congruence..].
Qed.

(** Only a confirmed token is admitted, and not for long.  After any sequence
    of requests over any transport, a request is let through as a tenant only if
    a token with its digest was confirmed by a 200 answer vouching for that very
    tenant, in this request itself or in an earlier one less than the time to
    live before; the body handed on is that answer's, and the cache never grows
    past its bound. *)
Theorem auth_admits_only_confirmed cfg ttl_ms max rs r :
  let st := auth_run rs (breaker_new cfg, cache_new ttl_ms max) in
  (size (cache_map st.2) ≤ Nat.max max 1)%nat ∧
  ∀ t cached, (require_tenant key_of from_str r st).2 = AdmitAs t cached →
    ∃ tok b r', bearer_token (auth_header r) = Some tok ∧ cached = Some b ∧
      confirmed r' (key_of tok) t b ∧
      (r' = r ∨ r' ∈ rs ∧ ttl_ms ≠ 0 ∧ get_now r < put_now r' + ttl_ms).
Proof.
  intros st. destruct (auth_run_inv [] rs (breaker_new cfg) (cache_new ttl_ms max))
    as ([He Hs] & Httl & Hmax); [split; [done|]; cbn [cache_map cache_new max_entries]; rewrite map_size_empty; lia|].
  fold st in He, Hs, Httl, Hmax. split; [by rewrite Hmax in Hs|]. intros t cached.
  destruct st as [b c]. cbn [snd] in *. unfold require_tenant.
  destruct (bearer_token (auth_header r)) as [tok|] eqn:Et; [|done]. unfold cache_get.
  assert (∀ c', (let '(b0, leg) := auth_leader from_str (permit r) (post_replies r) (call_now r) (fail_now r) b in
     match leg with
     | Resolved (Ok (Some (t, cached))) => (b0, cache_put key_of (put_now r) tok t cached c', AdmitAs t cached)
     | Resolved (Ok None) => (b0, c', Unauthorized)
     | Resolved (Err StoreUnreachable) => (b0, c', FailClosed503)
     | Shed => (b0, c', Shed503)
     end).2 = AdmitAs t cached →
     ∃ b1 r', cached = Some b1 ∧ confirmed r' (key_of tok) t b1 ∧ r' = r) as Hlead.
  { intros c'. unfold auth_leader. destruct (permit r); [|done].
    destruct (tenant_of_capturing _ _ _ _ _) as [b1 [[[t' cached']|]|[]]] eqn:Ec; [|done..].
    intros H. simplify_eq/=. apply capturing_confirmed in Ec as (i & rb & Hi & Hp & Hv & ->).
    exists rb, r. split_and!; [done| |done]. by exists tok, i. }
  destruct (is_armed c) eqn:Ea; [|intros H; apply Hlead in H; naive_solver].
  destruct (cache_map c !! key_of tok) as [e|] eqn:E; [|intros H; apply Hlead in H; naive_solver].
  case_bool_decide as Hlive; [|intros H; apply Hlead in H; naive_solver].
  intros H. simplify_eq/=. destruct (He _ _ E) as (r' & b1 & Hr & Hc & Hb & Hx).
  exists tok, b1, r'. split_and!; [done..|]. right.
  split_and!; [done| |lia]. unfold is_armed in Ea. by destruct (Z.eqb_spec (ttl c) 0).
Qed.

End Provenance.

(** ** Plan resolutions *)

Section Plans.
Context (from_str : string → option Value).

Record plan_request : Type := mkPlanRequest {
  pr_tenant : TenantId;
  pr_cached : option string;
  pr_post : nat → option IntrospectResponse;
  pr_call_now : Z;
  pr_fail_now : Z;
}.

Definition resolve (r : plan_request) : M (CircuitBreaker * PlanCache) PlanSourceError (option TenantPlan) :=
  plan_of_resolving_cached from_str (pr_tenant r) (pr_cached r) (pr_post r) (pr_call_now r) (pr_fail_now r).

Definition plan_run (rs : list plan_request) (st : CircuitBreaker * PlanCache)
    : CircuitBreaker * PlanCache := foldl (λ st r, (resolve r st).1) st rs.

(** The entitlement an answer grants a tenant, read off the body alone. *)
Definition grants (b : string) (t : TenantId) (p : TenantPlan) (ceiling : Z) : Prop :=
  ∃ v mc, from_str b = Some v ∧ get v "valid" ≫= as_bool = Some true ∧
    max_vcpu_h_ceiling_ms v = Ok ceiling ∧ get_u32 v "max_concurrency" = Some mc ∧
    plan_tenant p = t ∧ max_concurrency p = mc ∧ repo_allowlist p = [] ∧
    rate_ceiling_per_min p =
      default (Z.min U32_MAX (mc * DERIVED_RATE_MULTIPLIER)) (get_u32 v "rate_ceiling_per_min").

(** What the token-free reads say of a tenant after its resolution answered [r]. *)
Definition reads_as (pc : PlanCache) (t : TenantId) (r : result PlanSourceError (option TenantPlan)) : Prop :=
  match r with
  | Ok (Some p) => plan_of pc t = Some p ∧ ∃ b, grants b t p (plan_store_ceiling pc t)
  | _ => plan_of pc t = None ∧ plan_store_ceiling pc t = 0
  end.

Lemma invalidate_reads t pc :
  plan_of (invalidate_cache t pc) t = None ∧ plan_store_ceiling (invalidate_cache t pc) t = 0.
Proof. unfold plan_of, plan_store_ceiling, invalidate_cache. cbn. by rewrite !lookup_delete_eq. Qed.

Lemma parse_plan_reads t b pc :
  reads_as (parse_plan_200 from_str t b pc).1 t (parse_plan_200 from_str t b pc).2.
Proof.
  pose proof (invalidate_reads t pc) as Hinv. unfold parse_plan_200.
  destruct (from_str b) as [v|] eqn:E; [|done].
  destruct (get v "valid" ≫= as_bool) as [[]|] eqn:Ev; [|done..].
  destruct (max_vcpu_h_ceiling_ms v) as [ce|] eqn:Ec; [|done].
  destruct (get_u32 v "max_concurrency") as [mc|] eqn:Em; [|done].
  cbn. unfold plan_of, plan_store_ceiling. cbn. rewrite !lookup_insert_eq. split; [done|].
  exists b, v, mc. by split_and!.
Qed.

(** The cache entries of the other tenants do not move. *)
Definition same_for (t : TenantId) (pc pc' : PlanCache) : Prop :=
  plan_of pc' t = plan_of pc t ∧ plan_store_ceiling pc' t = plan_store_ceiling pc t.

Lemma parse_plan_same t u b pc : u ≠ t → same_for u pc (parse_plan_200 from_str t b pc).1.
Proof.
  intros Hne. unfold same_for, parse_plan_200, plan_of, plan_store_ceiling, invalidate_cache.
  repeat case_match; cbn; rewrite ?lookup_delete_ne, ?lookup_insert_ne by done; done.
Qed.

Lemma resolve_reads r st : reads_as (resolve r st).1.2 (pr_tenant r) (resolve r st).2.
Proof.
  destruct st as [b pc]. unfold resolve, plan_of_resolving_cached, plan_of_resolving.
  destruct (pr_cached r) as [c|].
  - pose proof (parse_plan_reads (pr_tenant r) c pc). by destruct (parse_plan_200 _ _ _ _).
  - destruct (run_introspect _ _ _ b) as [[b' k] [rb|]].
    + pose proof (parse_plan_reads (pr_tenant r) rb pc). by destruct (parse_plan_200 _ _ _ _).
    + apply invalidate_reads.
Qed.

Lemma resolve_same r st u : u ≠ pr_tenant r → same_for u st.2 (resolve r st).1.2.
Proof.
  intros Hne. destruct st as [b pc]. unfold resolve, plan_of_resolving_cached, plan_of_resolving.
  destruct (pr_cached r) as [c|].
  - pose proof (parse_plan_same (pr_tenant r) u c pc Hne). by destruct (parse_plan_200 _ _ _ _).
  - destruct (run_introspect _ _ _ b) as [[b' k] [rb|]].
    + pose proof (parse_plan_same (pr_tenant r) u rb pc Hne). by destruct (parse_plan_200 _ _ _ _).
    + unfold same_for, plan_of, plan_store_ceiling, invalidate_cache. cbn.
      by rewrite !lookup_delete_ne.
Qed.

(** The token-free plan is never stale.  After any resolutions of any
    tenants, over any transport, what the queue filter and the compute gate read
    of a tenant is exactly what that tenant's last resolution answered: its plan
    with the ceiling of the same body, or, after a refusal, an uncapped or an
    unreadable answer, no plan and no ceiling at all. *)
Theorem plan_reads_last_resolution st rs1 r rs2 :
  Forall (λ r', pr_tenant r' ≠ pr_tenant r) rs2 →
  reads_as (plan_run (rs1 ++ r :: rs2) st).2 (pr_tenant r) (resolve r (plan_run rs1 st)).2.
Proof.
  intros Hne. unfold plan_run. rewrite foldl_app. cbn [foldl]. fold (plan_run rs1 st).
  pose proof (resolve_reads r (plan_run rs1 st)) as H.
  revert H. generalize (resolve r (plan_run rs1 st)).2 as a, (resolve r (plan_run rs1 st)).1 as s1.
  induction Hne as [|r' rs2 Hr' _ IH]; intros a s1 H; [done|]. cbn [foldl]. apply IH.
  destruct (resolve_same r' s1 (pr_tenant r)) as [Hp Hc]; [congruence|].
  unfold reads_as in *. by rewrite Hp, Hc.
Qed.

End Plans.

(** A parser for one body, and the transport that answers it. *)
Definition one_body (s : string) : option Value :=
  if decide (s = "body") then
    Some (JObject [("valid", JBool true); ("tenant_id", JString "acme");
                   ("max_concurrency", JNumber "4" (Some 4)); ("max_vcpu_h", JNumber "1.5" None)])
  else None.
Definition reply_after_blip (n : nat) : option IntrospectResponse :=
  if decide (n = 0%nat) then Some (mkResponse 503 "") else Some (mkResponse 200 "body").

Definition first_request : auth_request :=
  mkAuthRequest (Some "Bearer pat") 0 true reply_after_blip 0 0 10.
Definition later_request : auth_request :=
  mkAuthRequest (Some "Bearer pat") 500 false (λ _, None) 500 500 500.

(** The second request is served from the first one's confirmation. *)
Lemma auth_admits_only_confirmed_witness :
  ∃ tok b r', bearer_token (auth_header later_request) = Some tok ∧ Some "body" = Some b ∧
    confirmed id one_body r' tok (mkTenantId "acme") b ∧
    (r' = later_request ∨ r' ∈ [first_request] ∧ 1000 ≠ 0 ∧ get_now later_request < put_now r' + 1000).
Proof.
  apply (auth_admits_only_confirmed id one_body breaker_config_default 1000 16
    [first_request] later_request).
  vm_compute. reflexivity.
Defined.

Lemma plan_reads_last_resolution_witness :
  let r := mkPlanRequest (mkTenantId "acme") None reply_after_blip 0 0 in
  let r' := mkPlanRequest (mkTenantId "other") None (λ _, None) 0 0 in
  let pc := (plan_run one_body [r; r'] (breaker_new breaker_config_default, plan_cache_default)).2 in
  plan_of pc (mkTenantId "acme") = Some (mkTenantPlan (mkTenantId "acme") 4 40 []).
Proof.
  intros r r' pc.
  assert (Forall (λ x, pr_tenant x ≠ pr_tenant r) [r']) as H by (repeat constructor; discriminate).
  exact (proj1 (plan_reads_last_resolution one_body
    (breaker_new breaker_config_default, plan_cache_default) [] r [r'] H)).
Defined.
