(* ===== verification/Coalesce.v ===== *)
(** * Single-flight coalescing

    Models [crates/corelink-fabric-server/src/introspect_coalesce.rs]: callers of
    one token digest share a flight, whose leader runs the upstream call and
    publishes the outcome.  A run is any interleaving of arrivals, publications,
    leaders ending (normally, cancelled or unwound) and followers waking. *)
From S2P Require Import Prelude.

Section Coalesce.

(** [blake3::hash], and the outcome type. *)
Context (key_of : string → string) {T : Type}.

(** [struct Shared] with the sender's side: the value published, and whether
    the leader's future is gone. *)
Record Flight : Type := mkFlight {
  f_key : string;
  f_leader : nat;
  f_out : option T;
  f_ended : bool;
}.

(** A caller of [run]: the leader of a flight, a follower awaiting one with its
    fail-closed sentinel, or done with the answer of its flight. *)
Inductive Caller : Type :=
| Leading (f : nat)
| Following (f : nat) (fail_closed : T)
| Answered (f : nat) (out : T)
| Cancelled (f : nat).

(** [struct SingleFlight] with the flights and callers around it. *)
Record SingleFlight : Type := mkSingleFlight {
  slots : gmap string nat;
  flights : list Flight;
  callers : gmap nat Caller;
}.

Definition coalescer_new : SingleFlight := mkSingleFlight ∅ [] ∅.

(** [Weak::upgrade]: some caller still owns the flight's [Arc]. *)
Definition owns (f : nat) (c : Caller) : bool :=
  match c with
  | Leading g => bool_decide (g = f)
  | Following g _ => bool_decide (g = f)
  | _ => false
  end.
Definition upgrade (st : SingleFlight) (f : nat) : option nat :=
  if existsb (owns f) (map_values (callers st)) then Some f else None.

(** The leader-or-follower decision, under the map lock. *)
Definition arrive (c : nat) (token : string) (fail_closed : T) (st : SingleFlight) : SingleFlight :=
  match slots st !! key_of token ≫= upgrade st with
  | Some f => mkSingleFlight (slots st) (flights st) (<[c := Following f fail_closed]> (callers st))
  | None =>
    let f := length (flights st) in
    mkSingleFlight (<[key_of token := f]> (slots st))
      (flights st ++ [mkFlight (key_of token) c None false])
      (<[c := Leading f]> (callers st))
  end.

Definition set_flight (st : SingleFlight) (f : nat) (fl : Flight) : SingleFlight :=
  mkSingleFlight (slots st) (<[f := fl]> (flights st)) (callers st).

(** [tx.send(Some(out))], once: the leader's closure is [FnOnce]. *)
Definition publish (c : nat) (out : T) (st : SingleFlight) : SingleFlight :=
  match callers st !! c with
  | Some (Leading f) =>
    match flights st !! f with
    | Some (mkFlight k l None e) => set_flight st f (mkFlight k l (Some out) e)
    | _ => st
    end
  | _ => st
  end.

(** The leader's future goes: the [SlotGuard] frees the slot if it still is
    this flight's, the sender and the leader's [Arc] drop. *)
Definition leader_ends (c : nat) (st : SingleFlight) : SingleFlight :=
  match callers st !! c with
  | Some (Leading f) =>
    match flights st !! f with
    | Some fl =>
      mkSingleFlight
        (if decide (slots st !! f_key fl = Some f) then delete (f_key fl) (slots st) else slots st)
        (<[f := mkFlight (f_key fl) (f_leader fl) (f_out fl) true]> (flights st))
        (<[c := match f_out fl with Some v => Answered f v | None => Cancelled f end]> (callers st))
    | None => st
    end
  | _ => st
  end.

(** [Shared::wait]: the published value, or the sentinel once the channel is
    closed without one; otherwise the follower keeps waiting. *)
Definition wake (c : nat) (st : SingleFlight) : SingleFlight :=
  match callers st !! c with
  | Some (Following f fail_closed) =>
    match flights st !! f with
    | Some fl =>
      match f_out fl with
      | Some v => mkSingleFlight (slots st) (flights st) (<[c := Answered f v]> (callers st))
      | None =>
        if f_ended fl
        then mkSingleFlight (slots st) (flights st) (<[c := Answered f fail_closed]> (callers st))
        else st
      end
    | None => st
    end
  | _ => st
  end.

Inductive cevent : Type :=
| CArrive (c : nat) (token : string) (fail_closed : T)
| CPublish (c : nat) (out : T)
| CLeaderEnds (c : nat)
| CWake (c : nat).

(** Each call of [run] is a caller of its own. *)
Definition cstep (st : SingleFlight) (ev : cevent) : SingleFlight :=
  match ev with
  | CArrive c token fail_closed =>
    match callers st !! c with Some _ => st | None => arrive c token fail_closed st end
  | CPublish c out => publish c out st
  | CLeaderEnds c => leader_ends c st
  | CWake c => wake c st
  end.

Definition crun (evs : list cevent) : SingleFlight := foldl cstep coalescer_new evs.

(** ** The invariant *)

(** Where a caller's flight and answer come from, given the events so far. *)
Definition caller_ok (evs : list cevent) (fls : list Flight) (c : nat) (r : Caller) : Prop :=
  match r with
  | Leading f => ∃ fl, fls !! f = Some fl ∧ f_leader fl = c ∧ f_ended fl = false
  | Following f fail_closed =>
    ∃ fl tok, fls !! f = Some fl ∧ CArrive c tok fail_closed ∈ evs ∧ key_of tok = f_key fl
  | Answered f v =>
    ∃ fl tok fail_closed, fls !! f = Some fl ∧ CArrive c tok fail_closed ∈ evs ∧ key_of tok = f_key fl ∧
      (f_out fl = Some v ∨ f_ended fl = true ∧ f_out fl = None ∧ v = fail_closed)
  | Cancelled f => ∃ fl, fls !! f = Some fl ∧ f_leader fl = c ∧ f_ended fl = true ∧ f_out fl = None
  end.

Record coalesce_inv (evs : list cevent) (st : SingleFlight) : Prop := {
  co_slot k f : slots st !! k = Some f ↔
    ∃ fl, flights st !! f = Some fl ∧ f_key fl = k ∧ f_ended fl = false;
  co_caller c r : callers st !! c = Some r → caller_ok evs (flights st) c r;
  co_leader f fl : flights st !! f = Some fl → f_ended fl = false → callers st !! f_leader fl = Some (Leading f);
  co_flight f fl : flights st !! f = Some fl →
    ∃ tok fail_closed, CArrive (f_leader fl) tok fail_closed ∈ evs ∧ key_of tok = f_key fl;
  co_out f fl v : flights st !! f = Some fl → f_out fl = Some v → CPublish (f_leader fl) v ∈ evs;
}.

Lemma upgrade_live st f c r :
  callers st !! c = Some r → owns f r = true → upgrade st f = Some f.
Proof.
  intros Hc Ho. unfold upgrade. assert (existsb (owns f) (map_values (callers st)) = true) as ->; [|done].
  apply existsb_exists. exists r. split; [|done]. apply list_elem_of_In, elem_of_map_values. eauto.
Qed.

(** A flight in a slot can always be upgraded: its leader is there. *)
Lemma slot_upgrades evs st k f :
  coalesce_inv evs st → slots st !! k = Some f → slots st !! k ≫= upgrade st = Some f.
Proof.
  intros Hinv Hs. rewrite Hs. apply (co_slot _ _ Hinv) in Hs as (fl & Hfl & _ & He).
  eapply upgrade_live; [by eapply (co_leader _ _ Hinv)|]. cbn. by apply bool_decide_eq_true.
Qed.

(** Flights only gain: a value, or their end; a value is final, and so is ending
    without one. *)
Definition flight_grows (fl fl' : Flight) : Prop :=
  f_key fl' = f_key fl ∧ f_leader fl' = f_leader fl ∧
  (∀ v, f_out fl = Some v → f_out fl' = Some v) ∧
  (f_ended fl = true → f_ended fl' = true ∧ f_out fl' = f_out fl).

Lemma caller_ok_grows evs ev fls fls' c r :
  (∀ f fl, fls !! f = Some fl → ∃ fl', fls' !! f = Some fl' ∧ flight_grows fl fl' ∧
     (f_leader fl = c → r = Leading f → f_ended fl' = f_ended fl)) →
  caller_ok evs fls c r → caller_ok (evs ++ [ev]) fls' c r.
Proof.
  intros Hg. destruct r as [f|f v|f v|f]; cbn.
  - intros (fl & Hf & Hl & He). destruct (Hg f fl Hf) as (fl' & ? & (? & ? & _) & Hend).
    exists fl'. split_and!; [done|congruence|]. rewrite Hend; done.
  - intros (fl & tok & Hf & Hev & Hk). destruct (Hg f fl Hf) as (fl' & ? & (? & _) & _).
    exists fl', tok. rewrite elem_of_app. split_and!; [done|by left|congruence].
  - intros (fl & tok & fc & Hf & Hev & Hk & Hv).
    destruct (Hg f fl Hf) as (fl' & ? & (? & _ & Ho & He) & _).
    exists fl', tok, fc. rewrite elem_of_app. split_and!; [done|by left|congruence|].
    destruct Hv as [Hv|(H1 & H2 & ->)]; [left; eauto|right]. destruct (He H1). split_and!; congruence.
  - intros (fl & Hf & Hl & H1 & H2). destruct (Hg f fl Hf) as (fl' & ? & (? & ? & _ & He) & _).
    exists fl'. destruct (He H1). split_and!; congruence.
Qed.

Lemma flight_grows_refl fl : flight_grows fl fl.
Proof. split_and!; auto. Qed.

Lemma caller_ok_more evs ev fls c r : caller_ok evs fls c r → caller_ok (evs ++ [ev]) fls c r.
Proof. apply caller_ok_grows. intros f fl Hf. exists fl. auto using flight_grows_refl. Qed.

Lemma inv_more evs ev st : coalesce_inv evs st → coalesce_inv (evs ++ [ev]) st.
Proof.
  intros [H1 H2 H3 H4 H5]. split; [done| |done| |].
  - intros c r Hc. apply caller_ok_more; eauto.
  - intros f fl Hf. destruct (H4 f fl Hf) as (tok & fc & ? & ?). exists tok, fc.
    rewrite elem_of_app. auto.
  - intros f fl v Hf Hv. rewrite elem_of_app. left. eauto.
Qed.

Lemma inv_follow evs st c tok fc f :
  coalesce_inv evs st → callers st !! c = None → slots st !! key_of tok = Some f →
  coalesce_inv (evs ++ [CArrive c tok fc])
    (mkSingleFlight (slots st) (flights st) (<[c := Following f fc]> (callers st))).
Proof.
  intros Hinv Hc Hs. apply (inv_more _ (CArrive c tok fc)) in Hinv as [H1 H2 H3 H4 H5].
  split; cbn; try done.
  - intros c' r. rewrite lookup_insert_Some. intros [[<- <-]|[_ ?]]; [|eauto].
    apply H1 in Hs as (fl & Hfl & Hk & _). exists fl, tok. rewrite elem_of_app.
    split_and!; [done|right; set_solver|done].
  - intros g fl Hg He. rewrite lookup_insert_ne; [eauto|]. intros ->.
    by rewrite (H3 _ _ Hg He) in Hc.
Qed.

Lemma inv_lead evs st c tok fc :
  coalesce_inv evs st → callers st !! c = None → slots st !! key_of tok = None →
  coalesce_inv (evs ++ [CArrive c tok fc])
    (mkSingleFlight (<[key_of tok := length (flights st)]> (slots st))
       (flights st ++ [mkFlight (key_of tok) c None false])
       (<[c := Leading (length (flights st))]> (callers st))).
Proof.
  intros Hinv Hc Hs. pose proof (inv_more _ (CArrive c tok fc) _ Hinv) as [H1 H2 H3 H4 H5].
  split; cbn.
  - intros k f. rewrite lookup_insert_Some. setoid_rewrite lookup_snoc_Some. split.
    + intros [[<- <-]|[Hne Hk]]; [eexists; split; [by right|done]|].
      apply H1 in Hk as (fl & Hfl & ?). exists fl. split; [left; split; [by eapply lookup_lt_Some|done]|done].
    + intros (fl & [[_ Hfl]|[-> <-]] & Hk & He); [right|left; done].
      assert (slots st !! k = Some f) as Hk' by (apply H1; eauto).
      split; [|done]. intros E. congruence.
  - intros c' r. rewrite lookup_insert_Some. intros [[<- <-]|[_ Hr]].
    + exists (mkFlight (key_of tok) c None false). split_and!; [|done..].
      apply lookup_snoc_Some. auto.
    + eapply caller_ok_grows; [|by eapply co_caller]. intros f fl Hf. exists fl.
      split_and!; [by apply lookup_app_l_Some|apply flight_grows_refl|done].
  - intros f fl. rewrite lookup_snoc_Some. intros [[Hlt Hf]|[-> <-]] He; [|by rewrite lookup_insert_eq].
    rewrite lookup_insert_ne; [eauto|]. intros ->. by rewrite (H3 _ _ Hf He) in Hc.
  - intros f fl. rewrite lookup_snoc_Some. intros [[_ Hf]|[-> <-]]; [eauto|].
    exists tok, fc. rewrite elem_of_app. split; [right; set_solver|done].
  - intros f fl v. rewrite lookup_snoc_Some. intros [[_ Hf]|[-> <-]]; [eauto|done].
Qed.

(** Replacing one flight by a grown one. *)
Lemma flights_grow (fls : list Flight) f fl fl' :
  fls !! f = Some fl → flight_grows fl fl' →
  ∀ g gl, fls !! g = Some gl → ∃ gl', <[f := fl']> fls !! g = Some gl' ∧ flight_grows gl gl' ∧
    (g = f ∧ gl = fl ∧ gl' = fl' ∨ g ≠ f ∧ gl' = gl).
Proof.
  intros Hf Hg g gl Hgl. destruct (decide (g = f)) as [->|Hne].
  - simplify_eq. exists fl'. rewrite list_lookup_insert_eq by (by eapply lookup_lt_Some).
    split_and!; [done|done|by left].
  - exists gl. rewrite list_lookup_insert_ne by done.
    split_and!; [done|apply flight_grows_refl|by right].
Qed.

Lemma inv_publish evs st c v :
  coalesce_inv evs st → coalesce_inv (evs ++ [CPublish c v]) (publish c v st).
Proof.
  intros Hinv. pose proof (inv_more _ (CPublish c v) _ Hinv) as Hmore. unfold publish.
  destruct (callers st !! c) as [[f| | |]|] eqn:Hc; try done.
  destruct (flights st !! f) as [[k l [] e]|] eqn:Hf; try done.
  assert (l = c ∧ e = false) as [-> ->].
  { destruct (co_caller _ _ Hinv _ _ Hc) as (fl & Hf' & Hl & He). by simplify_eq/=. }
  set (fl := mkFlight k c None false) in *. set (fl' := mkFlight k c (Some v) false).
  assert (flight_grows fl fl') as Hg by (by split_and!).
  destruct Hmore as [H1 H2 H3 H4 H5]. split; cbn.
  - intros k' g. rewrite H1. split; intros (gl & Hgl & Hk & He).
    + destruct (flights_grow _ _ _ _ Hf Hg _ _ Hgl) as (gl' & ? & (? & _) & Hd).
      exists gl'. split_and!; [done|congruence|]. destruct Hd as [(_ & -> & ->)|[_ ->]]; done.
    + destruct (decide (g = f)) as [->|Hne].
      * rewrite list_lookup_insert_eq in Hgl by (by eapply lookup_lt_Some). simplify_eq/=. eauto.
      * rewrite list_lookup_insert_ne in Hgl by done. eauto.
  - intros c' r Hr. eapply caller_ok_grows; [|by eapply co_caller].
    intros g gl Hgl. destruct (flights_grow _ _ _ _ Hf Hg _ _ Hgl) as (gl' & ? & ? & Hd).
    exists gl'. split_and!; [done..|]. intros _ _. destruct Hd as [(_ & -> & ->)|[_ ->]]; done.
  - intros g gl Hgl He. apply list_lookup_insert_Some in Hgl as [(<- & <- & _)|[_ Hgl]]; [|eauto].
    cbn. by apply (H3 _ _ Hf).
  - intros g gl Hgl. apply list_lookup_insert_Some in Hgl as [(<- & <- & _)|[_ Hgl]]; [|eauto].
    cbn. by apply (H4 _ _ Hf).
  - intros g gl w Hgl Hw. apply list_lookup_insert_Some in Hgl as [(<- & <- & _)|[_ Hgl]]; [|eauto].
    simplify_eq/=. set_solver.
Qed.

Lemma inv_ends evs st c :
  coalesce_inv evs st → coalesce_inv (evs ++ [CLeaderEnds c]) (leader_ends c st).
Proof.
  intros Hinv. pose proof (inv_more _ (CLeaderEnds c) _ Hinv) as Hmore. unfold leader_ends.
  destruct (callers st !! c) as [[f| | |]|] eqn:Hc; try done.
  destruct (co_caller _ _ Hinv _ _ Hc) as (fl & Hf & Hl & He). rewrite Hf.
  set (fl' := mkFlight (f_key fl) (f_leader fl) (f_out fl) true).
  assert (flight_grows fl fl') as Hg by (split_and!; [done..|congruence]).
  destruct Hmore as [H1 H2 H3 H4 H5].
  assert (slots st !! f_key fl = Some f) as Hslot by (apply H1; eauto).
  rewrite decide_True by done. split; cbn.
  - intros k g. rewrite lookup_delete_Some, H1. split.
    + intros (Hk & gl & Hgl & <- & Hge). exists gl. split; [|done].
      rewrite list_lookup_insert_ne; [done|]. intros ->. by simplify_eq.
    + intros (gl & Hgl & <- & Hge).
      apply list_lookup_insert_Some in Hgl as [(<- & <- & _)|[Hne Hgl]]; [done|].
      split; [|eauto]. intros E. apply Hne.
      assert (slots st !! f_key gl = Some g) by (apply H1; eauto). congruence.
  - intros c' r. rewrite lookup_insert_Some. intros [[<- <-]|[Hne Hr]].
    + assert (<[f := fl']> (flights st) !! f = Some fl') as Hf'
        by (apply list_lookup_insert_eq; by eapply lookup_lt_Some).
      destruct (H4 _ _ Hf) as (tok & fc & Hev & Hk). rewrite Hl in Hev.
      destruct (f_out fl) as [v|] eqn:Eo; cbn.
      * exists fl', tok, fc. split_and!; [done..|]. left. done.
      * exists fl'. by split_and!.
    + eapply caller_ok_grows; [|by eapply co_caller]. intros g gl Hgl.
      destruct (flights_grow _ _ _ _ Hf Hg _ _ Hgl) as (gl' & ? & ? & Hd).
      exists gl'. split_and!; [done..|]. intros Hlc _. destruct Hd as [(_ & -> & _)|[_ ->]]; [congruence|done].
  - intros g gl Hgl Hge. apply list_lookup_insert_Some in Hgl as [(<- & <- & _)|[Hne Hgl]]; [done|].
    rewrite lookup_insert_ne; [eauto|]. intros ->. pose proof (H3 _ _ Hgl Hge). congruence.
  - intros g gl Hgl. apply list_lookup_insert_Some in Hgl as [(<- & <- & _)|[_ Hgl]]; [|eauto].
    cbn. by apply (H4 _ _ Hf).
  - intros g gl w Hgl Hw. apply list_lookup_insert_Some in Hgl as [(<- & <- & _)|[_ Hgl]]; [|eauto].
    cbn in *. by apply (H5 _ _ w Hf).
Qed.

Lemma inv_answer evs st c f fc v fl :
  coalesce_inv evs st → callers st !! c = Some (Following f fc) → flights st !! f = Some fl →
  (f_out fl = Some v ∨ f_ended fl = true ∧ f_out fl = None ∧ v = fc) →
  coalesce_inv evs (mkSingleFlight (slots st) (flights st) (<[c := Answered f v]> (callers st))).
Proof.
  intros [H1 H2 H3 H4 H5] Hc Hf Hv. split; cbn; try done.
  - intros c' r. rewrite lookup_insert_Some. intros [[<- <-]|[_ ?]]; [|eauto].
    destruct (H2 _ _ Hc) as (fl0 & tok & Hf0 & Hev & Hk). simplify_eq.
    exists fl, tok, fc. by split_and!.
  - intros g gl Hgl He. rewrite lookup_insert_ne; [eauto|]. intros ->.
    pose proof (H3 _ _ Hgl He). congruence.
Qed.

Lemma inv_wake evs st c : coalesce_inv evs st → coalesce_inv (evs ++ [CWake c]) (wake c st).
Proof.
  intros Hinv. apply (inv_more _ (CWake c)) in Hinv. unfold wake.
  destruct (callers st !! c) as [[|f fc| |]|] eqn:Hc; try done.
  destruct (flights st !! f) as [fl|] eqn:Hf; [|done].
  destruct (f_out fl) eqn:Eo; [by eapply inv_answer; eauto|].
  destruct (f_ended fl) eqn:Ee; [by eapply inv_answer; eauto|done].
Qed.

Lemma inv_arrive evs st c tok fc :
  coalesce_inv evs st → callers st !! c = None →
  coalesce_inv (evs ++ [CArrive c tok fc]) (arrive c tok fc st).
Proof.
  intros Hinv Hc. unfold arrive. destruct (slots st !! key_of tok) as [f|] eqn:Hs.
  - rewrite <-Hs, (slot_upgrades _ _ _ _ Hinv Hs). by apply inv_follow.
  - cbn. by apply inv_lead.
Qed.

Lemma crun_inv evs : coalesce_inv evs (crun evs).
Proof.
  induction evs as [|ev evs IH] using rev_ind.
  { split; cbn; try done. intros k f. rewrite lookup_empty. split; [done|]. by intros (? & ? & _). }
  unfold crun. rewrite foldl_app. cbn [foldl]. fold (crun evs). destruct ev as [c tok fc|c v|c|c]; cbn.
  - destruct (callers (crun evs) !! c) eqn:Hc; [by apply inv_more|by apply inv_arrive].
  - by apply inv_publish.
  - by apply inv_ends.
  - by apply inv_wake.
Qed.

(** Coalescing serves fresh, shared answers and never hangs.  In every state
    an interleaving reaches, a digest has at most one flight in progress, and a
    new caller follows exactly that flight or leads a fresh one; an answer is the
    value its own flight's leader published, for a token of the same digest, or,
    when that leader went without publishing, the caller's fail-closed sentinel;
    and a waiting follower has a running leader or is answered when it wakes. *)
Theorem coalesced_answers evs :
  let st := crun evs in
  (∀ f g fl gl, flights st !! f = Some fl → flights st !! g = Some gl →
     f_ended fl = false → f_ended gl = false → f_key fl = f_key gl → f = g) ∧
  (∀ c tok fc f, callers st !! c = None →
     callers (cstep st (CArrive c tok fc)) !! c = Some (Following f fc) ↔
     ∃ fl, flights st !! f = Some fl ∧ f_key fl = key_of tok ∧ f_ended fl = false) ∧
  (∀ c f v, callers st !! c = Some (Answered f v) →
     ∃ leader tok ltok fc lfc, CArrive c tok fc ∈ evs ∧ CArrive leader ltok lfc ∈ evs ∧
       key_of tok = key_of ltok ∧
       (CPublish leader v ∈ evs ∨ v = fc ∧ callers st !! leader ≠ Some (Leading f))) ∧
  (∀ c f fc, callers st !! c = Some (Following f fc) →
     (∃ leader, callers st !! leader = Some (Leading f)) ∨
     ∃ v, callers (cstep st (CWake c)) !! c = Some (Answered f v)).
Proof.
  intros st. pose proof (crun_inv evs) as Hinv. fold st in Hinv.
  pose proof Hinv as [H1 H2 H3 H4 H5]. split_and!.
  - intros f g fl gl Hf Hg Hfe Hge Hk.
    assert (slots st !! f_key fl = Some f) by (apply H1; eauto).
    assert (slots st !! f_key fl = Some g) by (apply H1; rewrite Hk; eauto). congruence.
  - intros c tok fc f Hc. rewrite <-H1. cbn. rewrite Hc. unfold arrive.
    destruct (slots st !! key_of tok) as [g|] eqn:Hs.
    + rewrite <-Hs, (slot_upgrades _ _ _ _ Hinv Hs), Hs. cbn. rewrite lookup_insert_eq.
      naive_solver.
    + cbn. rewrite lookup_insert_eq. naive_solver.
  - intros c f v Hc. destruct (H2 _ _ Hc) as (fl & tok & fc & Hf & Hev & Hk & Hv).
    destruct (H4 _ _ Hf) as (ltok & lfc & Hlev & Hlk).
    exists (f_leader fl), tok, ltok, fc, lfc. split_and!; [done|done|congruence|].
    destruct Hv as [Hv|(He & Ho & ->)]; [left; eauto|right]. split; [done|].
    intros Hl. destruct (H2 _ _ Hl) as (fl0 & Hf0 & _ & He0). congruence.
  - intros c f fc Hc. destruct (H2 _ _ Hc) as (fl & tok & Hf & _ & _).
    destruct (f_ended fl) eqn:He; [right|left; eauto].
    cbn. unfold wake. rewrite Hc, Hf. destruct (f_out fl) as [v|]; [exists v|rewrite He; exists fc].
    all: cbn; by rewrite lookup_insert_eq.
Qed.

End Coalesce.

(** Two callers of one token, and a third after the flight ended. *)
Definition sample_flights : list (cevent (T := bool)) :=
  [CArrive 0 "a" false; CArrive 1 "a" false; CPublish 0 true; CWake 1; CLeaderEnds 0; CArrive 2 "a" false].

Lemma coalesced_answers_witness :
  (callers (crun id sample_flights) !! 1%nat, callers (crun id sample_flights) !! 2%nat) =
    (Some (Answered 0 true), Some (Leading 1)) ∧
  ∃ leader tok ltok fc lfc, CArrive 1 tok fc ∈ sample_flights ∧ CArrive leader ltok lfc ∈ sample_flights ∧
    tok = ltok ∧
    (CPublish leader true ∈ sample_flights ∨
     true = fc ∧ callers (crun id sample_flights) !! leader ≠ Some (Leading 0)).
Proof.
  split; [vm_compute; reflexivity|].
  apply (proj1 (proj2 (proj2 (coalesced_answers id sample_flights))) 1%nat 0%nat true).
  vm_compute. reflexivity.
Defined.
