(* ===== verification/Pg.v ===== *)
(** * The Postgres ledger: tables and transactions

    Models [crates/corelink-fabric/src/pg_ledger.rs] with
    [pg_ledger/pending_cleanup_pg.rs] and [pg_ledger/provider_binding.rs].  The
    tables are maps by primary key with the columns of the DDL; each method is
    one transaction over them (or one per row, for the stale sweep), which the
    per-tenant advisory lock and the row locks serialise, and which leaves the
    tables as they were when it fails.  Connection failures are not modelled.
    Amount and time columns are signed 64-bit, with the source's casts; the
    32-bit columns (core count, period key) are written and compared through the
    same injective cast from [u32] and are kept as the [u32]. *)
From S2P Require Import Prelude Tenant ComputeMeter Ledger LedgerSpec.


(** A row of [leases], by [lease_id]. *)
Record LeaseRow : Type := mkRow {
  c_tenant : string;
  c_state : string;
  c_box_ref : string;
  c_created_at_ms : Z;
  c_updated_at_ms : Z;
  c_deadline_ms : option Z;
  c_billing_acquired_at_ms : option Z;
  c_envelope_checkpoint : option string;
  c_box_vcpu_count : option Z;
  c_accrual_period_key : option Z;
  c_reserved_vcpu_ms : option Z;
  c_accrued_at_ms : option Z;
}.

(** A row of [external_compute_reservations], by [reservation_id]. *)
Record ExternalRow : Type := mkExternalRow {
  x_tenant : string;
  x_workload_kind : string;
  x_workload_id : string;
  x_period_key : Z;
  x_ceiling_vcpu_ms : Z;
  x_vcpu_count : Z;
  x_maximum_wall_ms : Z;
  x_grant_expires_at_ms : Z;
  x_grant_digest : string;
  x_state : string;
  x_reserved_vcpu_ms : Z;
  x_actual_vcpu_ms : option Z;
  x_terminal_evidence_digest : option string;
}.

(** The tables of the DDL that hold leases and compute. *)
Record PgTables : Type := mkTables {
  leases : gmap string LeaseRow;
  pg_claims : gmap string Z;
  compute_accrual : gmap (string * Z) Z;
  external_compute_periods : gmap (string * Z) (Z * string);
  external_compute_reservations : gmap string ExternalRow;
}.

Definition pg_empty : PgTables := mkTables ∅ ∅ ∅ ∅ ∅.

Definition with_leases f db := mkTables (f (leases db)) (pg_claims db) (compute_accrual db)
  (external_compute_periods db) (external_compute_reservations db).
Definition with_pg_claims f db := mkTables (leases db) (f (pg_claims db)) (compute_accrual db)
  (external_compute_periods db) (external_compute_reservations db).
Definition with_accrual f db := mkTables (leases db) (pg_claims db) (f (compute_accrual db))
  (external_compute_periods db) (external_compute_reservations db).

(** The failures a method bails out with. *)
Inductive PgError : Type :=
| PgUnknownLabel (label : string)
| PgBadTenant
| PgDuplicate (id : string)
| PgIllegalOrLost (id : string)
| PgNullPeriod (id : string)
| PgUnknownLease (id : string)
| PgRefuseRemove (id : string)
| PgOverI64
| PgProviderRef (e : LedgerError)
| PgNotPending (id : string)
| PgOtherProviderRef (id : string).

Abbreviation PgM := (M PgTables PgError).

(** [state_to_db], [state_from_db] and [legal_from_for]. *)
Definition state_to_db (s : LeaseState) : string :=
  match s with
  | Pending => "pending"
  | Wire Held => "held"
  | Wire Released => "released"
  | Wire Expired => "expired"
  | Wire Crashed => "crashed"
  end.

Definition state_from_db (label : string) : result PgError LeaseState :=
  if decide (label = "pending") then Ok Pending
  else if decide (label = "held") then Ok (Wire Held)
  else if decide (label = "released") then Ok (Wire Released)
  else if decide (label = "expired") then Ok (Wire Expired)
  else if decide (label = "crashed") then Ok (Wire Crashed)
  else Err (PgUnknownLabel label).

Definition legal_from_for (to : RunnerState) : string :=
  match to with Held => "pending" | _ => "held" end.

Definition is_terminal_to (to : RunnerState) : bool :=
  match to with Released | Expired | Crashed => true | Held => false end.
Definition is_held_to (to : RunnerState) : bool :=
  match to with Held => true | _ => false end.

(** [record_from_row]. *)
Definition record_from_row (id : string) (row : LeaseRow) : result PgError LeaseRecord :=
  match tenant_new (c_tenant row) with
  | Err _ => Err PgBadTenant
  | Ok t =>
    st ← state_from_db (c_state row);
    Ok (mkLease id t st (c_box_ref row) (as_u64 (c_created_at_ms row))
          (as_u64 (c_updated_at_ms row)) (as_u64 <$> c_deadline_ms row)
          (as_u64 <$> c_billing_acquired_at_ms row))
  end.

(** The rows a plain insert and a compute-gated insert write. *)
Definition row_of (rec : LeaseRecord) (updated : Z) (compute : option (Z * Z * Z)) : LeaseRow :=
  mkRow (as_str (tenant rec)) (state_to_db (state rec)) (box_ref rec)
    (as_i64 (created_at_ms rec)) (as_i64 updated) (as_i64 <$> deadline_ms rec) None None
    (fst ∘ fst <$> compute) (snd ∘ fst <$> compute) (snd <$> compute) None.

(** [state IN ('pending','held')]. *)
Definition row_active (row : LeaseRow) : bool :=
  bool_decide (c_state row = "pending") || bool_decide (c_state row = "held").
Definition row_active_of (t : string) (row : LeaseRow) : bool :=
  bool_decide (c_tenant row = t) && row_active row.

(** [SELECT count] of the tenant's active leases. *)
Definition pg_count (db : PgTables) (t : string) : Z :=
  map_sum (λ _ row, if row_active_of t row then 1 else 0) (leases db).

(** [SUM(reserved_vcpu_ms)] over the active leases of a tenant and period. *)
Definition native_sigma (db : PgTables) (t : string) (p : Z) : Z :=
  map_sum (λ _ row, if row_active_of t row && bool_decide (c_accrual_period_key row = Some p)
                    then default 0 (c_reserved_vcpu_ms row) else 0) (leases db).

(** [state IN ('prepared','active')], and the sum over those reservations. *)
Definition external_open (row : ExternalRow) : bool :=
  bool_decide (x_state row = "prepared") || bool_decide (x_state row = "active").
Definition external_sigma (db : PgTables) (t : string) (p : Z) : Z :=
  map_sum (λ _ row, if bool_decide (x_tenant row = t) && bool_decide (x_period_key row = p) && external_open row
                    then x_reserved_vcpu_ms row else 0) (external_compute_reservations db).

Definition accrued_of (db : PgTables) (t : string) (p : Z) : Z :=
  default 0 (compute_accrual db !! (t, p)).

(** [lock_unclaimed_lease]: the row is there and not claimed for cleanup. *)
Definition unclaimed_lease (db : PgTables) (id : string) : bool :=
  bool_decide (is_Some (leases db !! id)) && bool_decide (pg_claims db !! id = None).

(** Deleting a lease deletes its claim ([ON DELETE CASCADE]). *)
Definition delete_lease (id : string) (db : PgTables) : PgTables :=
  with_pg_claims (delete id) (with_leases (delete id) db).

Module Pg.

(** [fn put]. *)
Definition put (rec : LeaseRecord) : PgM unit := λ db,
  match leases db !! lease_id rec with
  | Some _ => (db, Err (PgDuplicate (lease_id rec)))
  | None => (with_leases <[lease_id rec := row_of rec (updated_at_ms rec) None]> db, Ok ())
  end.

(** [fn get]. *)
Definition get (db : PgTables) (id : string) : result PgError (option LeaseRecord) :=
  match leases db !! id with
  | Some row => result_map Some (record_from_row id row)
  | None => Ok None
  end.

(** The updated row of a transition: the accrual stamp only for leases with
    compute accounting, and only by the first terminal one. *)
Definition moved (row : LeaseRow) (to : RunnerState) (now_ms : Z) (accounting_on : bool) : LeaseRow :=
  mkRow (c_tenant row) (state_to_db (Wire to)) (c_box_ref row) (c_created_at_ms row) (as_i64 now_ms)
    (c_deadline_ms row)
    (match c_billing_acquired_at_ms row with
     | None => if is_held_to to then Some (as_i64 now_ms) else None
     | b => b
     end)
    (c_envelope_checkpoint row) (c_box_vcpu_count row) (c_accrual_period_key row) (c_reserved_vcpu_ms row)
    (match c_accrued_at_ms row with
     | None => if accounting_on && is_terminal_to to then Some (as_i64 now_ms) else None
     | a => a
     end).

(** The charge of a terminal lease: elapsed usage clamped to its reservation
    and to the column. *)
Definition terminal_charge (row : LeaseRow) (now_ms : Z) : Z :=
  let accrual := vcpu_ms (as_u32 (default 0 (c_box_vcpu_count row))) (now_ms -sat as_u64 (c_created_at_ms row)) in
  let cap := as_u64 (default 0 (c_reserved_vcpu_ms row)) in
  let accrual := if cap <? accrual then cap else accrual in
  if fits_ledger accrual then accrual else MAX_LEDGER_VCPU_MS.

(** The accrual [INSERT … ON CONFLICT DO UPDATE]. *)
Definition upsert_accrual (t : string) (p charge : Z) (db : PgTables) : PgTables :=
  with_accrual (λ acc,
    <[(t, p) := match acc !! (t, p) with
                | None => Z.min charge MAX_LEDGER_VCPU_MS
                | Some a => a + Z.min (Z.min charge MAX_LEDGER_VCPU_MS) (MAX_LEDGER_VCPU_MS - a)
                end]> acc) db.

(** [fn transition]. *)
Definition transition (id : string) (to : RunnerState) (now_ms : Z) : PgM LeaseRecord := λ db,
  if negb (unclaimed_lease db id) then (db, Err (PgIllegalOrLost id))
  else
    match leases db !! id with
    | None => (db, Err (PgIllegalOrLost id))
    | Some row =>
      if negb (bool_decide (c_state row = legal_from_for to)) then (db, Err (PgIllegalOrLost id))
      else
        let accounting_on := bool_decide (is_Some (c_box_vcpu_count row)) in
        let row' := moved row to now_ms accounting_on in
        let db' := with_leases <[id := row']> db in
        if accounting_on && is_terminal_to to && bool_decide (c_accrued_at_ms row = None) then
          match c_accrual_period_key row with
          | None => (db, Err (PgNullPeriod id))
          | Some p =>
            (upsert_accrual (c_tenant row) p (terminal_charge row now_ms) db', record_from_row id row')
          end
        else (db', record_from_row id row')
    end.

(** [fn set_envelope_checkpoint] and [fn get_envelope_checkpoint]. *)
Definition with_checkpoint (row : LeaseRow) (json : string) : LeaseRow :=
  mkRow (c_tenant row) (c_state row) (c_box_ref row) (c_created_at_ms row) (c_updated_at_ms row)
    (c_deadline_ms row) (c_billing_acquired_at_ms row) (Some json) (c_box_vcpu_count row)
    (c_accrual_period_key row) (c_reserved_vcpu_ms row) (c_accrued_at_ms row).

Definition set_envelope_checkpoint (id json : string) : PgM unit := λ db,
  match leases db !! id with
  | None => (db, Err (PgUnknownLease id))
  | Some row => (with_leases <[id := with_checkpoint row json]> db, Ok ())
  end.

Definition get_envelope_checkpoint (db : PgTables) (id : string) : option string :=
  leases db !! id ≫= c_envelope_checkpoint.

(** [pending_cleanup_pg::remove]. *)
Definition remove_fenced (id : string) (pending_only : bool) : PgM bool := λ db,
  match leases db !! id with
  | None => (db, Ok false)
  | Some row =>
    if negb (unclaimed_lease db id) then (db, Ok false)
    else
      let deletes := bool_decide (c_state row = "pending") ||
                     (negb pending_only && bool_decide (c_box_vcpu_count row = None)) in
      if deletes then (delete_lease id db, Ok true)
      else if negb pending_only && bool_decide (is_Some (c_box_vcpu_count row))
      then (db, Err (PgRefuseRemove id))
      else (db, Ok false)
  end.

Definition remove (id : string) : PgM bool := remove_fenced id false.
Definition remove_if_pending (id : string) : PgM bool := remove_fenced id true.

(** [strict_cutoff_ms] with its [checked_epoch_ms]. *)
Definition checked_epoch_ms (value : Z) : result PgError Z :=
  if value <=? I64_MAX then Ok value else Err PgOverI64.
Definition strict_cutoff_ms (now_ms max_age_ms : Z) : result PgError Z :=
  now ← checked_epoch_ms now_ms;
  age ← checked_epoch_ms max_age_ms;
  Ok (now - age).

(** [claim_one]; [cutoff] is the age predicate, absent for a named claim. *)
Definition claim_one (id : string) (cutoff : option Z) (claimed_at_ms : Z) : PgM (option LeaseRecord) := λ db,
  match leases db !! id with
  | None => (db, Ok None)
  | Some row =>
    match record_from_row id row with
    | Err e => (db, Err e)
    | Ok rec =>
      if negb (bool_decide (state rec = Pending)) then (db, Ok None)
      else
        match pg_claims db !! id with
        | Some _ => (db, Ok (Some rec))
        | None =>
          match cutoff with
          | Some c =>
            if negb (created_at_ms rec <=? I64_MAX) then (db, Err PgOverI64)
            else if c <=? created_at_ms rec then (db, Ok None)
            else (with_pg_claims <[id := claimed_at_ms]> db, Ok (Some rec))
          | None => (with_pg_claims <[id := claimed_at_ms]> db, Ok (Some rec))
          end
        end
    end
  end.

(** [fn claim_pending_cleanup]. *)
Definition claim_pending_cleanup (id : string) (now_ms : Z) : PgM (option LeaseRecord) := λ db,
  match checked_epoch_ms now_ms with
  | Err e => (db, Err e)
  | Ok at_ms => claim_one id None at_ms db
  end.

(** The work list of the stale sweep, in primary-key order. *)
Definition stale_ids (db : PgTables) (cutoff : Z) : list string :=
  merge_sort String.le
    ((filter (λ kr, c_state kr.2 = "pending" ∧
        (c_created_at_ms kr.2 < cutoff ∨ is_Some (pg_claims db !! kr.1))) (map_to_list (leases db))).*1).

(** One transaction per row; the first failure ends the sweep. *)
Fixpoint claim_ids (ids : list string) (cutoff at_ms : Z) : PgM (list LeaseRecord) := λ db,
  match ids with
  | [] => (db, Ok [])
  | id :: ids =>
    match claim_one id (Some cutoff) at_ms db with
    | (db', Err e) => (db', Err e)
    | (db', Ok claimed) =>
      match claim_ids ids cutoff at_ms db' with
      | (db'', Err e) => (db'', Err e)
      | (db'', Ok rows) => (db'', Ok (option_list claimed ++ rows))
      end
    end
  end.

Definition claim_stale_pending_cleanup (now_ms max_age_ms : Z) : PgM (list LeaseRecord) := λ db,
  match strict_cutoff_ms now_ms max_age_ms with
  | Err e => (db, Err e)
  | Ok cutoff => claim_ids (stale_ids db cutoff) cutoff now_ms db
  end.

(** [fn finish_pending_cleanup]. *)
Definition finish_pending_cleanup (id : string) : PgM bool := λ db,
  match leases db !! id with
  | None => (db, Ok false)
  | Some row =>
    if negb (bool_decide (c_state row = "pending")) then (db, Ok false)
    else match pg_claims db !! id with
         | None => (db, Ok false)
         | Some _ => (delete_lease id db, Ok true)
         end
  end.

Section bind.
Context {json : SerdeJson}.

Definition with_box_ref (row : LeaseRow) (b : string) : LeaseRow :=
  mkRow (c_tenant row) (c_state row) b (c_created_at_ms row) (c_updated_at_ms row)
    (c_deadline_ms row) (c_billing_acquired_at_ms row) (c_envelope_checkpoint row) (c_box_vcpu_count row)
    (c_accrual_period_key row) (c_reserved_vcpu_ms row) (c_accrued_at_ms row).

(** [provider_binding_pg::bind_provider_ref]. *)
Definition bind_provider_ref (id provider_ref : string) : PgM LeaseRecord := λ db,
  match validate_provider_ref provider_ref with
  | Err e => (db, Err (PgProviderRef e))
  | Ok _ =>
    match leases db !! id with
    | None => (db, Err (PgUnknownLease id))
    | Some row =>
      if negb (unclaimed_lease db id) then (db, Err (PgUnknownLease id))
      else
        match record_from_row id row with
        | Err e => (db, Err e)
        | Ok current =>
          if negb (bool_decide (state current = Pending)) then (db, Err (PgNotPending id))
          else if bool_decide (box_ref current = provider_ref) then (db, Ok current)
          else if negb (bool_decide (box_ref current = "box:" +:+ id)) then (db, Err (PgOtherProviderRef id))
          else match record_from_row id (with_box_ref row provider_ref) with
               | Err e => (db, Err e)
               | Ok updated => (with_leases <[id := with_box_ref row provider_ref]> db, Ok updated)
               end
        end
    end
  end.
End bind.

(** [try_admit_impl]: the count and the insert under the tenant's lock. *)
Definition try_admit (rec : LeaseRecord) (max_concurrency : Z) : PgM bool := λ db,
  if pg_count db (as_str (tenant rec)) <? max_concurrency then
    match leases db !! lease_id rec with
    | Some _ => (db, Err (PgDuplicate (lease_id rec)))
    | None => (with_leases <[lease_id rec := row_of rec (created_at_ms rec) None]> db, Ok true)
    end
  else (db, Ok false).

(** The rolling sum of the gate: native and external reservations, clamped. *)
Definition gate_sigma (db : PgTables) (t : string) (p : Z) : Z :=
  Z.min (native_sigma db t p + external_sigma db t p) MAX_LEDGER_VCPU_MS.

(** [try_admit_with_compute_impl]. *)
Definition try_admit_with_compute (rec : LeaseRecord) (max_concurrency : Z)
    (gate : option ComputeGate) : PgM AdmitOutcome := λ db,
  match gate ≫= λ g, if 0 <? gate_ceiling_vcpu_ms g then Some g else None with
  | None =>
    match try_admit rec max_concurrency db with
    | (db', Ok b) => (db', Ok (if b then LeaseAdmitted else OverConcurrency))
    | (db', Err e) => (db', Err e)
    end
  | Some g =>
    if negb (fits_ledger (gate_new_reserved_vcpu_ms g)) then (db, Err PgOverI64)
    else if negb (fits_ledger (gate_ceiling_vcpu_ms g)) then (db, Err PgOverI64)
    else
      let t := as_str (tenant rec) in
      let projected := as_u64 (accrued_of db t (gate_period_key g)) +sat as_u64 (gate_sigma db t (gate_period_key g))
                         +sat gate_new_reserved_vcpu_ms g in
      if gate_ceiling_vcpu_ms g <? projected then (db, Ok OverCompute)
      else if max_concurrency <=? pg_count db t then (db, Ok OverConcurrency)
      else
        match leases db !! lease_id rec with
        | Some _ => (db, Err (PgDuplicate (lease_id rec)))
        | None =>
          (with_leases <[lease_id rec := row_of rec (created_at_ms rec)
             (Some (gate_box_vcpu_count g, gate_period_key g, as_i64 (gate_new_reserved_vcpu_ms g)))]> db,
           Ok LeaseAdmitted)
        end
  end.

(** The enumerations, in primary-key order. *)
Fixpoint read_rows (rows : list (string * LeaseRow)) : result PgError (list LeaseRecord) :=
  match rows with
  | [] => Ok []
  | (id, row) :: rows => r ← record_from_row id row; rs ← read_rows rows; Ok (r :: rs)
  end.

Definition select (P : LeaseRow → bool) (db : PgTables) : result PgError (list LeaseRecord) :=
  read_rows (sort_by_key fst (filter (λ kr, P kr.2 = true) (map_to_list (leases db)))).

Definition by_tenant (db : PgTables) (t : TenantId) : result PgError (list LeaseRecord) :=
  select (λ row, bool_decide (c_tenant row = as_str t)) db.
Definition held (db : PgTables) : result PgError (list LeaseRecord) :=
  select (λ row, bool_decide (c_state row = "held")) db.
Definition pending_older_than (db : PgTables) (now_ms max_age_ms : Z) : result PgError (list LeaseRecord) :=
  cutoff ← strict_cutoff_ms now_ms max_age_ms;
  select (λ row, bool_decide (c_state row = "pending") && (c_created_at_ms row <? cutoff)) db.

(** [fn compute_accrued]. *)
Definition compute_accrued (db : PgTables) (t : TenantId) (p : Z) : Z :=
  as_u64 (accrued_of db (as_str t) p).

(** Dispatch of a mutating call. *)
Section call.
Context {json : SerdeJson}.
Definition call (o : op) : PgM reply :=
  match o with
  | OpPut rec => fmap_M (λ _, RUnit) (put rec)
  | OpTransition id to now => fmap_M RRecord (transition id to now)
  | OpTryAdmit rec cap => fmap_M RBool (try_admit rec cap)
  | OpAdmit rec cap gate => fmap_M ROutcome (try_admit_with_compute rec cap gate)
  | OpCheckpoint id js => fmap_M (λ _, RUnit) (set_envelope_checkpoint id js)
  | OpRemove id => fmap_M RBool (remove id)
  | OpRemoveIfPending id => fmap_M RBool (remove_if_pending id)
  | OpClaim id now => fmap_M ROption (claim_pending_cleanup id now)
  | OpClaimStale now age => fmap_M RRows (claim_stale_pending_cleanup now age)
  | OpFinish id => fmap_M RBool (finish_pending_cleanup id)
  | OpBind id pref => fmap_M RRecord (bind_provider_ref id pref)
  end.
End call.

End Pg.
