(* ===== verification/PgProofs.v ===== *)
(** * The Postgres ledger refines the lease machine

    [pg_view] reads the tables back as the ledger state of [Ledger]; under it
    every transaction of [Pg] is a sequence of steps of the abstract machine
    allowed for that call, so what [LedgerSafety] proves of the machine holds of
    the Postgres backend shared by several instances. *)
From S2P Require Import Prelude Tenant ComputeMeter Ledger LedgerSpec LedgerSafety Pg.

(** ** Reading the tables back *)

Definition label_state (label : string) : LeaseState :=
  match state_from_db label with Ok st => st | Err _ => Pending end.

Definition row_record (id : string) (row : LeaseRow) : LeaseRecord :=
  mkLease id (mkTenantId (c_tenant row)) (label_state (c_state row)) (c_box_ref row)
    (as_u64 (c_created_at_ms row)) (as_u64 (c_updated_at_ms row)) (as_u64 <$> c_deadline_ms row)
    (as_u64 <$> c_billing_acquired_at_ms row).

Definition row_reservation (row : LeaseRow) : option LeaseReservation :=
  match c_box_vcpu_count row, c_accrual_period_key row, c_reserved_vcpu_ms row with
  | Some v, Some p, Some res => Some (mkReservation v p res (as_u64 <$> c_accrued_at_ms row))
  | _, _, _ => None
  end.

Definition accrual_key (tp : string * Z) : TenantId * Z := (mkTenantId tp.1, tp.2).

Definition pg_view (db : PgTables) : InMemoryInner :=
  mkInner (map_imap (λ id row, Some (row_record id row)) (leases db))
    (omap c_envelope_checkpoint (leases db)) (omap row_reservation (leases db))
    (kmap accrual_key (compute_accrual db)) (dom (pg_claims db)).

#[export] Instance accrual_key_inj : Inj (=) (=) accrual_key.
Proof. intros [t p] [t' p'] [= -> ->]. done. Qed.

(** ** Well-formed tables *)

Definition is_i64_nat (z : Z) : Prop := 0 ≤ z ≤ I64_MAX.

Record row_ok (row : LeaseRow) : Prop := {
  ro_tenant : tenant_new (c_tenant row) = Ok (mkTenantId (c_tenant row));
  ro_state : ∃ st, c_state row = state_to_db st;
  ro_created : is_i64_nat (c_created_at_ms row);
  ro_compute : match c_box_vcpu_count row, c_accrual_period_key row, c_reserved_vcpu_ms row with
               | Some v, Some _, Some res => is_u32 v ∧ is_i64_nat res
               | None, None, None => True
               | _, _, _ => False
               end;
}.

Record pg_wf (db : PgTables) : Prop := {
  pw_rows id row : leases db !! id = Some row → row_ok row;
  pw_claims id : is_Some (pg_claims db !! id) → ∃ row, leases db !! id = Some row ∧ c_state row = "pending";
  pw_accrual k a : compute_accrual db !! k = Some a → is_i64_nat a;
  pw_external id x : external_compute_reservations db !! id = Some x → 0 ≤ x_reserved_vcpu_ms x;
}.

Lemma label_of_state st : label_state (state_to_db st) = st.
Proof. by destruct st as [|[]]. Qed.

Lemma state_from_to st : state_from_db (state_to_db st) = Ok st.
Proof. by destruct st as [|[]]. Qed.

Lemma state_to_db_inj st st' : state_to_db st = state_to_db st' → st = st'.
Proof. by destruct st as [|[]], st' as [|[]]. Qed.

Lemma record_read id row : row_ok row → record_from_row id row = Ok (row_record id row).
Proof.
  intros [Ht [st Hs] _ _]. unfold record_from_row, row_record. rewrite Ht, Hs.
  rewrite state_from_to, label_of_state. done.
Qed.

Lemma row_pending row : row_ok row → c_state row = "pending" ↔ label_state (c_state row) = Pending.
Proof.
  intros [_ [st Hs] _ _]. rewrite Hs, label_of_state. split; [|by intros ->].
  intros H. by apply (state_to_db_inj st Pending).
Qed.

Lemma row_held row : row_ok row → c_state row = "held" ↔ label_state (c_state row) = Wire Held.
Proof.
  intros [_ [st Hs] _ _]. rewrite Hs, label_of_state. split; [|by intros ->].
  intros H. by apply (state_to_db_inj st (Wire Held)).
Qed.

Lemma as_u64_i64 z : is_i64_nat z → as_u64 z = z.
Proof. unfold is_i64_nat, I64_MAX, as_u64. intros. rewrite Z.mod_small; lia. Qed.

Lemma as_i64_small z : z ≤ I64_MAX → as_i64 z = z.
Proof. intros H. unfold as_i64. by rewrite (proj2 (Z.leb_le _ _)). Qed.

Lemma as_u64_as_i64 z : is_u64 z → as_u64 (as_i64 z) = z.
Proof.
  unfold is_u64, U64_MAX, as_u64, as_i64, I64_MAX. intros Hz.
  destruct (Z.leb_spec z (2 ^ 63 - 1)); [rewrite Z.mod_small; lia|].
  rewrite <-(Z.mod_add _ 1) by lia. rewrite Z.mod_small; lia.
Qed.

(** ** The view of an updated, an inserted and a deleted row *)

Lemma view_lookup db id : records (pg_view db) !! id = row_record id <$> leases db !! id.
Proof. cbn. rewrite map_lookup_imap. by destruct (leases db !! id). Qed.

Lemma imap_insert (m : gmap string LeaseRow) id row :
  map_imap (λ id row, Some (row_record id row)) (<[id := row]> m) =
    <[id := row_record id row]> (map_imap (λ id row, Some (row_record id row)) m).
Proof. by apply map_imap_insert_Some. Qed.

Lemma omap_insert_same {B} (f : LeaseRow → option B) (m : gmap string LeaseRow) id row row' :
  m !! id = Some row → f row' = f row → omap f (<[id := row']> m) = omap f m.
Proof.
  intros Hid Hf. apply map_eq. intros k. rewrite !lookup_omap.
  destruct (decide (k = id)) as [->|]; [|by rewrite lookup_insert_ne].
  rewrite lookup_insert_eq, Hid. cbn. done.
Qed.

Lemma omap_insert_fresh {B} (f : LeaseRow → option B) (m : gmap string LeaseRow) id row :
  m !! id = None → f row = None → omap f (<[id := row]> m) = omap f m.
Proof.
  intros Hid Hf. apply map_eq. intros k. rewrite !lookup_omap.
  destruct (decide (k = id)) as [->|]; [|by rewrite lookup_insert_ne].
  by rewrite lookup_insert_eq, Hid.
Qed.

Lemma view_update db id row row' :
  leases db !! id = Some row →
  row_reservation row' = row_reservation row →
  c_envelope_checkpoint row' = c_envelope_checkpoint row →
  pg_view (with_leases <[id := row']> db) =
    with_records <[id := row_record id row']> (pg_view db).
Proof.
  intros Hid Hr Hc. unfold pg_view, with_records. cbn.
  by rewrite imap_insert, !(omap_insert_same _ _ _ _ _ Hid).
Qed.

Lemma view_insert db id row :
  leases db !! id = None → c_envelope_checkpoint row = None → row_reservation row = None →
  pg_view (with_leases <[id := row]> db) = with_records <[id := row_record id row]> (pg_view db).
Proof.
  intros Hid Hc Hr. unfold pg_view, with_records. cbn.
  by rewrite imap_insert, !(omap_insert_fresh _ _ _ _ Hid).
Qed.

Lemma view_delete db id :
  pg_view (delete_lease id db) =
    with_claims (λ c, c ∖ {[id]}) (drop_lease id (pg_view db)).
Proof.
  unfold pg_view, drop_lease, delete_lease, with_claims, with_records, with_reservations, with_checkpoints. cbn.
  rewrite map_imap_delete, !omap_delete, dom_delete_L. done.
Qed.

(** ** Row invariants of the written rows *)

Lemma row_ok_label row st :
  row_ok row → c_state row = state_to_db st → label_state (c_state row) = st.
Proof. intros _ ->. apply label_of_state. Qed.

Lemma wf_insert_row db id row :
  pg_wf db → row_ok row →
  (is_Some (pg_claims db !! id) → c_state row = "pending") →
  pg_wf (with_leases <[id := row]> db).
Proof.
  intros [H1 H2 H3 H4] Hrow Hcl. split; cbn; [|..|done|done].
  - intros k r. rewrite lookup_insert_Some. intros [[<- <-]|[_ ?]]; eauto.
  - intros k Hk. destruct (decide (k = id)) as [->|].
    + exists row. rewrite lookup_insert_eq. auto.
    + rewrite lookup_insert_ne by done. auto.
Qed.

Lemma wf_delete_row db id : pg_wf db → pg_wf (delete_lease id db).
Proof.
  intros [H1 H2 H3 H4]. split; cbn; [|..|done|done].
  - intros k r [_ ?]%lookup_delete_Some. eauto.
  - intros k [x [Hne Hk]%lookup_delete_Some]. destruct (H2 k) as (row & ? & ?); [eauto|].
    exists row. by rewrite lookup_delete_ne.
Qed.

(** ** Sums over the tables are sums over the view *)

Lemma map_sum_imap (f : string → LeaseRecord → Z) (m : gmap string LeaseRow) :
  map_sum f (map_imap (λ id row, Some (row_record id row)) m) =
    map_sum (λ id row, f id (row_record id row)) m.
Proof.
  induction m as [|k v m Hk IH] using map_ind; [by rewrite map_imap_empty, !map_sum_empty|].
  rewrite imap_insert, !map_sum_insert_fresh; [lia|done|]. by rewrite map_lookup_imap, Hk.
Qed.

Lemma row_active_view row :
  row_ok row → row_active row = true ↔ is_active (row_record "" row).
Proof.
  intros Hrow. unfold row_active, is_active. cbn.
  rewrite orb_true_iff, !bool_decide_eq_true, row_pending, row_held by done. done.
Qed.

Lemma row_active_of_view id row t :
  row_ok row → row_active_of t row = true ↔ Mem.active_of (mkTenantId t) (row_record id row).
Proof.
  intros Hrow. unfold row_active_of, Mem.active_of.
  rewrite andb_true_iff, bool_decide_eq_true, row_active_view by done. cbn.
  split; intros [H1 H2]; (split; [congruence|done]).
Qed.

Lemma pg_count_view db t :
  pg_wf db → pg_count db t = Mem.active_count (pg_view db) (mkTenantId t).
Proof.
  intros Hwf. rewrite active_count_sum. cbn. rewrite map_sum_imap. apply map_sum_ext.
  intros id row Hr%(pw_rows _ Hwf). pose proof (row_active_of_view id row t Hr) as H.
  unfold active_ind. case_decide; destruct (row_active_of t row); naive_solver.
Qed.

Lemma view_wf db : pg_wf db → ledger_wf (pg_view db).
Proof.
  intros Hwf. split.
  - intros k r. rewrite view_lookup. intros (row & _ & ->)%fmap_Some. done.
  - intros k [x Hx]. rewrite view_lookup. cbn in Hx. rewrite lookup_omap in Hx.
    apply bind_Some in Hx as (row & -> & _). eauto.
  - intros k [x Hx]. rewrite view_lookup. cbn in Hx. rewrite lookup_omap in Hx.
    apply bind_Some in Hx as (row & -> & _). eauto.
  - intros k Hk. cbn in Hk. apply elem_of_dom in Hk. apply is_pending_at_Some.
    destruct (pw_claims _ Hwf _ Hk) as (row & Hr & Hp). exists (row_record k row).
    rewrite view_lookup, Hr. split; [done|]. cbn. by apply row_pending; [eapply pw_rows|].
Qed.

Lemma row_reservation_ok row res :
  row_ok row → row_reservation row = Some res → is_i64_nat (reserved_vcpu_ms res) ∧ is_u32 (box_vcpu_count res).
Proof.
  intros Hrow. pose proof (ro_compute _ Hrow). unfold row_reservation.
  repeat case_match; try done. intros [= <-]. cbn. tauto.
Qed.

Lemma view_accrued db t p : Mem.compute_accrued (pg_view db) (mkTenantId t) p = accrued_of db t p.
Proof.
  unfold Mem.compute_accrued, accrued_of. cbn.
  by rewrite (lookup_kmap accrual_key (compute_accrual db) (t, p)).
Qed.

Lemma accrued_of_range db t p : pg_wf db → is_i64_nat (accrued_of db t p).
Proof.
  intros Hwf. unfold accrued_of. destruct (compute_accrual db !! (t, p)) eqn:E; cbn.
  - by eapply pw_accrual.
  - unfold is_i64_nat, I64_MAX. lia.
Qed.

Lemma view_amounts db : pg_wf db → amounts_ok (pg_view db).
Proof.
  intros Hwf. split.
  - intros k res. cbn. rewrite lookup_omap. intros (row & Hr & Hres)%bind_Some.
    destruct (row_reservation_ok row res) as [[? _] [? _]]; [by eapply pw_rows|done..].
  - intros [t] p. rewrite view_accrued. by apply accrued_of_range.
Qed.

Lemma native_sigma_view db t p :
  pg_wf db → native_sigma db t p = reserved_sum (pg_view db) (mkTenantId t) p.
Proof.
  intros Hwf. unfold native_sigma, reserved_sum. cbn [records pg_view]. rewrite map_sum_imap. apply map_sum_ext.
  intros id row Hr. pose proof (pw_rows _ Hwf _ _ Hr) as Hrow.
  pose proof (row_active_of_view id row t Hrow) as H. unfold reserved_at. cbn.
  rewrite lookup_omap, Hr. cbn. unfold row_reservation. pose proof (ro_compute _ Hrow) as Hc.
  destruct (row_active_of t row); case_decide; try naive_solver.
  destruct (c_box_vcpu_count row), (c_accrual_period_key row), (c_reserved_vcpu_ms row); try done.
  cbn. case_bool_decide; case_decide; naive_solver.
Qed.

Lemma native_sigma_nonneg db t p : pg_wf db → 0 ≤ native_sigma db t p.
Proof.
  intros Hwf. rewrite native_sigma_view by done. by apply reserved_sum_nonneg, view_amounts.
Qed.

Lemma external_sigma_nonneg db t p : pg_wf db → 0 ≤ external_sigma db t p.
Proof.
  intros Hwf. apply map_sum_nonneg. intros id x Hx. case_match; [|done]. by eapply pw_external.
Qed.

Lemma committed_view db t p :
  pg_wf db → committed (pg_view db) (mkTenantId t) p = accrued_of db t p + native_sigma db t p.
Proof. intros Hwf. unfold committed. by rewrite view_accrued, native_sigma_view. Qed.

(** ** The calls the backend is given *)

(** A record as admission builds it: a valid tenant key, times in range, not
    yet stamped for billing. *)
Definition rec_fits (rec : LeaseRecord) : Prop :=
  tenant_new (as_str (tenant rec)) = Ok (tenant rec) ∧ is_i64_nat (created_at_ms rec) ∧
  is_u64 (updated_at_ms rec) ∧ (∀ d, deadline_ms rec = Some d → is_u64 d) ∧
  billing_acquired_at_ms rec = None.

Definition op_fits (o : op) : Prop :=
  match o with
  | OpPut rec => rec_fits rec
  | OpTryAdmit rec _ => rec_fits rec ∧ updated_at_ms rec = created_at_ms rec
  | OpAdmit rec _ gate =>
    rec_fits rec ∧ updated_at_ms rec = created_at_ms rec ∧
    ∀ g, gate = Some g → is_u32 (gate_box_vcpu_count g) ∧ 0 < gate_new_reserved_vcpu_ms g ∧
      0 ≤ gate_ceiling_vcpu_ms g
  | OpTransition _ _ now => is_u64 now
  | _ => True
  end.

Definition pg_step_ok (o : op) (db db' : PgTables) : Prop :=
  refines_step o (pg_view db) (pg_view db') ∧ pg_wf db'.

Lemma pg_same o db : pg_wf db → pg_step_ok o db db.
Proof. intros Hwf. split; [apply refines_none|done]. Qed.

Lemma row_of_record rec updated compute :
  rec_fits rec → updated = updated_at_ms rec →
  row_record (lease_id rec) (row_of rec updated compute) = rec.
Proof.
  intros (Ht & Hc & Hu & Hd & Hb) ->. destruct rec as [id [t] st b c u d bl]. unfold row_record, row_of. cbn in *.
  rewrite label_of_state, as_u64_as_i64 by (unfold is_i64_nat, is_u64, I64_MAX, U64_MAX in *; lia).
  rewrite as_u64_as_i64 by done. subst bl. f_equal. destruct d as [d|]; cbn; [|done].
  by rewrite as_u64_as_i64 by auto.
Qed.

Lemma row_of_ok rec updated compute :
  rec_fits rec →
  (∀ v p res, compute = Some (v, p, res) → is_u32 v ∧ is_i64_nat res) →
  row_ok (row_of rec updated compute).
Proof.
  intros (Ht & Hc & _) Hcomp. split; cbn.
  - rewrite Ht. by destruct (tenant rec).
  - eauto.
  - rewrite as_i64_small; [done|]. apply Hc.
  - destruct compute as [[[v p] res]|]; cbn; [by eapply Hcomp|done].
Qed.

Lemma claimed_has_row db id : pg_wf db → leases db !! id = None → pg_claims db !! id = None.
Proof.
  intros Hwf Hn. destruct (pg_claims db !! id) eqn:E; [|done].
  destruct (pw_claims _ Hwf id) as (row & Hr & _); [eauto|]. congruence.
Qed.

(** A fresh plain row. *)
Lemma pg_insert_plain db rec updated :
  pg_wf db → rec_fits rec → updated = updated_at_ms rec → leases db !! lease_id rec = None →
  let db' := with_leases <[lease_id rec := row_of rec updated None]> db in
  pg_view db' = insert_lease rec (pg_view db) ∧ pg_wf db' ∧ records (pg_view db) !! lease_id rec = None.
Proof.
  intros Hwf Hfit Hu Hn. cbn zeta. split_and!.
  - rewrite view_insert by done. unfold insert_lease. by rewrite row_of_record.
  - apply wf_insert_row; [done|by apply row_of_ok|].
    rewrite claimed_has_row by done. by intros [].
  - rewrite view_lookup, Hn. done.
Qed.

Lemma pg_put_ok db rec : pg_wf db → op_fits (OpPut rec) → pg_step_ok (OpPut rec) db (Pg.put rec db).1.
Proof.
  intros Hwf Hfit. unfold Pg.put. destruct (leases db !! lease_id rec) eqn:Hn; [by apply pg_same|].
  destruct (pg_insert_plain db rec (updated_at_ms rec)) as (Hv & Hwf' & Hf); [done..|].
  split; [|done]. cbn. rewrite Hv. apply (refines_one _ (EvInsert rec)); [done|]. by constructor.
Qed.

Lemma count_as_u32 db rec cap :
  pg_wf db → pg_count db (as_str (tenant rec)) < cap →
  as_u32 (Mem.active_count (pg_view db) (tenant rec)) < cap.
Proof.
  intros Hwf Hlt. rewrite pg_count_view in Hlt by done. destruct (tenant rec) as [t]. cbn in Hlt.
  pose proof (active_count_nonneg (pg_view db) (mkTenantId t)).
  pose proof (Z.mod_le (Mem.active_count (pg_view db) (mkTenantId t)) (2 ^ 32)). unfold as_u32. lia.
Qed.

Lemma pg_try_admit_ok o db rec cap :
  pg_wf db → rec_fits rec → updated_at_ms rec = created_at_ms rec →
  op_allows o (EvAdmit rec cap) → pg_step_ok o db (Pg.try_admit rec cap db).1.
Proof.
  intros Hwf Hfit Hu Ho. unfold Pg.try_admit.
  destruct (Z.ltb_spec (pg_count db (as_str (tenant rec))) cap) as [Hlt|]; [|by apply pg_same].
  destruct (leases db !! lease_id rec) eqn:Hn; [by apply pg_same|].
  destruct (pg_insert_plain db rec (created_at_ms rec)) as (Hv & Hwf' & Hf); [done..|].
  split; [|done]. cbn. rewrite Hv. eapply refines_one; [exact Ho|]. constructor; [done|].
  by apply count_as_u32.
Qed.

(** The gate of a compute admission bounds what is committed afterwards. *)
Lemma gate_bounds db t p ceiling new :
  pg_wf db → 0 < new → ceiling ≤ I64_MAX →
  as_u64 (accrued_of db t p) +sat as_u64 (Pg.gate_sigma db t p) +sat new ≤ ceiling →
  accrued_of db t p + native_sigma db t p + external_sigma db t p + new ≤ ceiling.
Proof.
  intros Hwf Hnew Hc. pose proof (accrued_of_range db t p Hwf) as Ha.
  pose proof (native_sigma_nonneg db t p Hwf). pose proof (external_sigma_nonneg db t p Hwf).
  unfold Pg.gate_sigma, MAX_LEDGER_VCPU_MS. rewrite (as_u64_i64 (accrued_of db t p)) by done.
  rewrite as_u64_i64 by (unfold is_i64_nat, I64_MAX in *; lia).
  unfold is_i64_nat, sat_add, U64_MAX, I64_MAX in *. lia.
Qed.

(** What a gated admission does: nothing, a plain insert, or an insert with a
    reservation that fits the ceiling next to everything else committed. *)
Lemma pg_admit_cases db rec cap gate :
  pg_wf db → op_fits (OpAdmit rec cap gate) →
  let db' := (Pg.try_admit_with_compute rec cap gate db).1 in
  pg_wf db' ∧
  (db' = db ∨
   (records (pg_view db) !! lease_id rec = None ∧ pg_count db (as_str (tenant rec)) < cap ∧
    (pg_view db' = insert_lease rec (pg_view db) ∨
     ∃ g, gate = Some g ∧ 0 < gate_ceiling_vcpu_ms g ≤ I64_MAX ∧
       pg_view db' = with_reservations <[lease_id rec := reservation_of g]> (insert_lease rec (pg_view db)) ∧
       accrued_of db (as_str (tenant rec)) (gate_period_key g) + native_sigma db (as_str (tenant rec)) (gate_period_key g)
         + external_sigma db (as_str (tenant rec)) (gate_period_key g) + gate_new_reserved_vcpu_ms g
         ≤ gate_ceiling_vcpu_ms g))).
Proof.
  intros Hwf (Hfit & Hu & Hg). unfold Pg.try_admit_with_compute.
  destruct (gate ≫= _) as [g|] eqn:Eg; cycle 1.
  { unfold Pg.try_admit. destruct (Z.ltb_spec (pg_count db (as_str (tenant rec))) cap) as [Hlt|]; [|auto].
    destruct (leases db !! lease_id rec) eqn:Hn; [auto|].
    destruct (pg_insert_plain db rec (created_at_ms rec)) as (Hv & Hwf' & Hf); [done..|]. cbn. auto 10. }
  apply bind_Some in Eg as (g' & -> & Eg). destruct (Z.ltb_spec 0 (gate_ceiling_vcpu_ms g')); [|done].
  injection Eg as ->. destruct (Hg g eq_refl) as (Hv & Hpos & Hce).
  destruct (fits_ledger (gate_new_reserved_vcpu_ms g)) eqn:E1; [|auto].
  destruct (fits_ledger (gate_ceiling_vcpu_ms g)) eqn:E2; [|auto].
  unfold fits_ledger, MAX_LEDGER_VCPU_MS in E1, E2. apply Z.leb_le in E1, E2. cbn [negb].
  case_match eqn:Eproj; [auto|]. apply Z.ltb_ge in Eproj.
  destruct (Z.leb_spec cap (pg_count db (as_str (tenant rec)))) as [|Hlt]; [auto|].
  destruct (leases db !! lease_id rec) eqn:Hn; [auto|].
  apply gate_bounds in Eproj; [|done..]. rewrite as_i64_small by done.
  set (row := row_of rec (created_at_ms rec) _). cbn [fst].
  assert (row_ok row) as Hrow.
  { apply row_of_ok; [done|]. intros v p res [= <- <- <-]. split; [done|]. unfold is_i64_nat. lia. }
  split; [apply wf_insert_row; [done..|]; rewrite claimed_has_row by done; by intros []|right].
  split_and!; [by rewrite view_lookup, Hn|done|right]. exists g. split_and!; [done|lia|lia| |done].
  unfold pg_view, insert_lease, with_reservations, with_records. cbn.
  rewrite imap_insert, omap_insert_fresh by done. unfold row. rewrite row_of_record by done.
  f_equal. by apply omap_insert_Some.
Qed.

Lemma pg_admit_ok db rec cap gate :
  pg_wf db → op_fits (OpAdmit rec cap gate) →
  pg_step_ok (OpAdmit rec cap gate) db (Pg.try_admit_with_compute rec cap gate db).1.
Proof.
  intros Hwf Hfit. destruct (pg_admit_cases db rec cap gate Hwf Hfit) as [Hwf' Hcase].
  split; [|done]. destruct Hcase as [->|(Hn & Hlt & [->|(g & -> & Hce & -> & Hb)])]; [apply refines_none|..].
  - apply (refines_one _ (EvAdmit rec cap)); [done|]. constructor; [done|]. by apply count_as_u32.
  - apply (refines_one _ (EvAdmitReserved rec cap g)); [by split_and!; [..|lia]|].
    constructor; [done|by apply count_as_u32|].
    destruct Hfit as (_ & _ & Hg). destruct (Hg g eq_refl) as (_ & Hpos & _).
    rewrite projected_exact; [|by apply view_wf|by apply view_amounts|lia].
    destruct (tenant rec) as [t]. rewrite committed_view by done. cbn in Hb.
    pose proof (external_sigma_nonneg db t (gate_period_key g) Hwf). lia.
Qed.

Lemma unclaimed_view db id row :
  leases db !! id = Some row →
  unclaimed_lease db id = true ↔ id ∉ pending_cleanup_claims (pg_view db).
Proof.
  intros Hr. unfold unclaimed_lease. rewrite Hr, bool_decide_true by eauto. cbn.
  rewrite bool_decide_eq_true, not_elem_of_dom. done.
Qed.

(** The record a transition leaves. *)
Lemma moved_record id row to now b :
  is_u64 now → row_record id (Pg.moved row to now b) =
    set_state (row_record id row) (Wire to) now
      (if is_held_to to then held_stamp (row_record id row) now
       else billing_acquired_at_ms (row_record id row)).
Proof.
  intros Hnow. unfold row_record, Pg.moved, set_state, held_stamp. cbn [c_tenant c_state c_box_ref
    c_created_at_ms c_updated_at_ms c_deadline_ms c_billing_acquired_at_ms].
  rewrite label_of_state, as_u64_as_i64 by done. cbn. f_equal.
  destruct (c_billing_acquired_at_ms row), (is_held_to to); cbn; try done.
  by rewrite as_u64_as_i64.
Qed.

Lemma moved_ok row to now b : row_ok row → row_ok (Pg.moved row to now b).
Proof. intros [H1 H2 H3 H4]. split; [done|by exists (Wire to)|done|done]. Qed.

(** The charge is the machine's charge. *)
Lemma terminal_charge_view id row v p res a now :
  row_ok row → c_box_vcpu_count row = Some v → c_reserved_vcpu_ms row = Some res →
  is_u32 v → is_i64_nat res →
  Pg.terminal_charge row now =
    charge (mkReservation v p res a) (created_at_ms (row_record id row)) now ∧
  is_i64_nat (Pg.terminal_charge row now).
Proof.
  intros Hrow Hv Hres Hu Hr. unfold Pg.terminal_charge, charge. rewrite Hv, Hres. cbn.
  rewrite as_u32_small, (as_u64_i64 res) by done.
  assert (0 ≤ vcpu_ms v (now -sat as_u64 (c_created_at_ms row))).
  { apply vcpu_ms_nonneg; [apply Hu|]. unfold sat_sub. lia. }
  unfold fits_ledger, MAX_LEDGER_VCPU_MS, is_i64_nat in *.
  destruct (Z.ltb_spec res (vcpu_ms v (now -sat as_u64 (c_created_at_ms row)))).
  all: rewrite (proj2 (Z.leb_le _ _)) by lia; lia.
Qed.

(** The upsert adds up to the column's bound. *)
Lemma upsert_view db t p ch :
  pg_wf db → is_i64_nat ch →
  pg_view (Pg.upsert_accrual t p ch db) = add_accrual (mkTenantId t) p ch (pg_view db) ∧
  pg_wf (Pg.upsert_accrual t p ch db).
Proof.
  intros Hwf Hch. pose proof (accrued_of_range db t p Hwf) as Ha. unfold accrued_of in Ha.
  set (total := Z.min (default 0 (compute_accrual db !! (t, p)) +sat ch) MAX_LEDGER_VCPU_MS).
  assert (Pg.upsert_accrual t p ch db = with_accrual <[(t, p) := total]> db) as ->.
  { unfold Pg.upsert_accrual, with_accrual, total. do 2 f_equal.
    unfold MAX_LEDGER_VCPU_MS, is_i64_nat, sat_add, U64_MAX, I64_MAX in *.
    destruct (compute_accrual db !! (t, p)); cbn in *; lia. }
  split.
  - unfold pg_view, add_accrual, with_accruals. cbn.
    rewrite kmap_insert by apply _. do 2 f_equal. unfold total.
    by rewrite (lookup_kmap accrual_key (compute_accrual db) (t, p)).
  - destruct Hwf as [H1 H2 H3 H4]. split; cbn; try done.
    intros k a. rewrite lookup_insert_Some. intros [[<- <-]|[_ ?]]; [|eauto].
    unfold total, is_i64_nat, MAX_LEDGER_VCPU_MS, sat_add, U64_MAX, I64_MAX in *. lia.
Qed.

(** The three ways a transition goes, on the view: to held; to a terminal state
    without an open reservation; to a terminal state with one. *)
Lemma view_moved_quiet db id row to now on :
  leases db !! id = Some row → is_u64 now →
  c_accrued_at_ms (Pg.moved row to now on) = c_accrued_at_ms row →
  pg_view (with_leases <[id := Pg.moved row to now on]> db) =
    with_records <[id := set_state (row_record id row) (Wire to) now
      (if is_held_to to then held_stamp (row_record id row) now
       else billing_acquired_at_ms (row_record id row))]> (pg_view db).
Proof.
  intros Hr Hnow Hacc. rewrite (view_update db id row), moved_record; [done..| |done].
  unfold row_reservation. rewrite Hacc. done.
Qed.

Lemma settle_closed db id row now r s :
  leases db !! id = Some row → reservations s = reservations (pg_view db) →
  row_ok row → (is_Some (c_box_vcpu_count row) → is_Some (c_accrued_at_ms row)) →
  settle id r now s = s.
Proof.
  intros Hr Hs Hrow Hacc. unfold settle. rewrite Hs. cbn. rewrite lookup_omap, Hr. cbn.
  unfold row_reservation. pose proof (ro_compute _ Hrow).
  destruct (c_box_vcpu_count row), (c_accrual_period_key row), (c_reserved_vcpu_ms row); try done. cbn.
  destruct Hacc as [a Ha]; [eauto|]. by rewrite Ha.
Qed.

Lemma view_moved_charged db id row to now v p res :
  pg_wf db → leases db !! id = Some row → is_u64 now → is_terminal_to to = true →
  c_box_vcpu_count row = Some v → c_accrual_period_key row = Some p → c_reserved_vcpu_ms row = Some res →
  c_accrued_at_ms row = None → is_u32 v → is_i64_nat res →
  pg_wf (with_leases <[id := Pg.moved row to now true]> db) →
  let db' := Pg.upsert_accrual (c_tenant row) p (Pg.terminal_charge row now)
               (with_leases <[id := Pg.moved row to now true]> db) in
  pg_view db' = settle id (row_record id row) now
    (with_records <[id := set_state (row_record id row) (Wire to) now
       (billing_acquired_at_ms (row_record id row))]> (pg_view db)) ∧ pg_wf db'.
Proof.
  intros Hwf Hr Hnow Hto Hv Hp Hres Hnone Hu Hi Hwf' db'. pose proof (pw_rows _ Hwf _ _ Hr) as Hrow.
  assert (is_held_to to = false) as Hih by by destruct to.
  destruct (terminal_charge_view id row v p res None now Hrow Hv Hres Hu Hi) as [Hch Hchr].
  destruct (upsert_view _ (c_tenant row) p (Pg.terminal_charge row now) Hwf' Hchr) as [Hview Hwf2].
  assert (row_reservation row = Some (mkReservation v p res None)) as Hrr
    by (unfold row_reservation; by rewrite Hv, Hp, Hres, Hnone).
  split; [|done]. unfold db'. rewrite Hview. unfold settle. cbn. rewrite lookup_omap, Hr. cbn.
  rewrite Hrr. cbn [accrued_at_ms accrual_period_key]. cbn [created_at_ms row_record] in Hch.
  rewrite <-Hch. f_equal.
  unfold pg_view, with_records, with_reservations. cbn.
  rewrite imap_insert, moved_record, Hih by done.
  rewrite (omap_insert_same c_envelope_checkpoint _ _ row) by done.
  f_equal. apply omap_insert_Some. unfold row_reservation. cbn.
  rewrite Hv, Hp, Hres, Hnone, Hto. cbn. by rewrite as_u64_as_i64.
Qed.

Lemma pg_transition_ok db id to now :
  pg_wf db → is_u64 now → pg_step_ok (OpTransition id to now) db (Pg.transition id to now db).1.
Proof.
  intros Hwf Hnow. unfold Pg.transition.
  destruct (unclaimed_lease db id) eqn:Hun; [|by apply pg_same]. cbn [negb].
  destruct (leases db !! id) as [row|] eqn:Hr; [|by apply pg_same].
  apply (unclaimed_view db id row Hr) in Hun. pose proof (pw_rows _ Hwf _ _ Hr) as Hrow.
  case_bool_decide as Hst; [|by apply pg_same]. cbn [negb].
  assert (records (pg_view db) !! id = Some (row_record id row)) as Hrec by by rewrite view_lookup, Hr.
  assert (∀ on, pg_wf (with_leases <[id := Pg.moved row to now on]> db)) as Hwf'.
  { intros on. apply wf_insert_row; [done|by apply moved_ok|].
    intros Hc. exfalso. apply Hun. cbn. by apply elem_of_dom. }
  destruct (is_terminal_to to) eqn:Hto; cycle 1.
  { assert (to = Held) as -> by by destruct to. rewrite andb_false_r. cbn [andb fst]. split; [|apply Hwf'].
    rewrite (view_moved_quiet db id row); [|done..|cbn; rewrite andb_false_r; by destruct (c_accrued_at_ms row)].
    apply (refines_one _ (EvHold id now)); [done|].
    apply step_hold; [done| |done]. by apply row_pending. }
  assert (state (row_record id row) = Wire Held) as Hheld by (apply row_held; [done|]; by destruct to).
  assert (op_allows (OpTransition id to now) (EvTerminal id to now)) as Hop by by destruct to.
  assert (is_held_to to = false ∧ to ≠ Held) as [Hih Hne] by by destruct to.
  rewrite andb_true_r. destruct (decide (is_Some (c_box_vcpu_count row))) as [Hon|Hon];
    [rewrite (bool_decide_true _ Hon); cbn [andb]; case_bool_decide as Hnone
    |rewrite (bool_decide_false _ Hon); cbn [andb]].
  - destruct Hon as [v Hv]. pose proof (ro_compute _ Hrow) as Hcomp. rewrite Hv in Hcomp.
    destruct (c_accrual_period_key row) as [p|] eqn:Hp; [|done].
    destruct (c_reserved_vcpu_ms row) as [res|] eqn:Hres; [|done]. destruct Hcomp as [Hu Hi].
    destruct (view_moved_charged db id row to now v p res) as [Hview Hwf2]; [done..|].
    split; [|done]. cbn [fst]. rewrite Hview. eapply refines_one; [exact Hop|]. by constructor.
  - cbn [fst]. split; [|apply Hwf']. rewrite (view_moved_quiet db id row), Hih; [|done..|cbn; by destruct (c_accrued_at_ms row)].
    eapply refines_one; [exact Hop|]. set (s1 := with_records _ _).
    rewrite <-(settle_closed db id row now (row_record id row) s1); [by constructor|done..|].
    intros _. by destruct (c_accrued_at_ms row).
  - cbn [fst]. split; [|apply Hwf'].
    rewrite (view_moved_quiet db id row), Hih; [|done..|cbn; by destruct (c_accrued_at_ms row)].
    eapply refines_one; [exact Hop|]. set (s1 := with_records _ _).
    rewrite <-(settle_closed db id row now (row_record id row) s1); [by constructor|done..].
Qed.

Lemma view_delete_unclaimed db id :
  id ∉ pending_cleanup_claims (pg_view db) → pg_view (delete_lease id db) = drop_lease id (pg_view db).
Proof.
  intros Hc. rewrite view_delete. unfold with_claims.
  change (pending_cleanup_claims (drop_lease id (pg_view db))) with (pending_cleanup_claims (pg_view db)).
  rewrite difference_disjoint_L by set_solver. done.
Qed.

Lemma pg_remove_ok o db id b :
  pg_wf db → op_allows o (EvRemove id) → pg_step_ok o db (Pg.remove_fenced id b db).1.
Proof.
  intros Hwf Ho. unfold Pg.remove_fenced. destruct (leases db !! id) as [row|] eqn:Hr; [|by apply pg_same].
  destruct (unclaimed_lease db id) eqn:Hun; [|by apply pg_same]. cbn [negb].
  apply (unclaimed_view db id row Hr) in Hun. pose proof (pw_rows _ Hwf _ _ Hr) as Hrow.
  case_match eqn:Hdel; [|case_match; by apply pg_same].
  split; [|by apply wf_delete_row]. cbn [fst]. rewrite view_delete_unclaimed by done.
  eapply refines_one; [exact Ho|]. constructor; [done|].
  unfold Mem.held_with_reservation. rewrite view_lookup, Hr. cbn. rewrite lookup_omap, Hr. cbn.
  apply orb_true_iff in Hdel as [Hp%bool_decide_eq_true|[_ Hn%bool_decide_eq_true]%andb_prop].
  - apply row_pending in Hp; [|done]. by rewrite Hp.
  - unfold row_reservation. rewrite Hn. apply andb_false_r.
Qed.

Lemma pg_finish_ok db id : pg_wf db → pg_step_ok (OpFinish id) db (Pg.finish_pending_cleanup id db).1.
Proof.
  intros Hwf. unfold Pg.finish_pending_cleanup.
  destruct (leases db !! id) as [row|] eqn:Hr; [|by apply pg_same].
  case_bool_decide as Hp; [|by apply pg_same]. cbn [negb].
  destruct (pg_claims db !! id) as [c|] eqn:Hc; [|by apply pg_same].
  split; [|by apply wf_delete_row]. cbn [fst]. rewrite view_delete.
  apply (refines_one _ (EvFinish id)); [done|].
  apply (step_finish (pg_view db) id (row_record id row)).
  - cbn. apply elem_of_dom. eauto.
  - by rewrite view_lookup, Hr.
  - apply row_pending; [by eapply pw_rows|done].
Qed.

Lemma pg_checkpoint_ok db id js :
  pg_wf db → pg_step_ok (OpCheckpoint id js) db (Pg.set_envelope_checkpoint id js db).1.
Proof.
  intros Hwf. unfold Pg.set_envelope_checkpoint.
  destruct (leases db !! id) as [row|] eqn:Hr; [|by apply pg_same]. cbn [fst]. split.
  - assert (pg_view (with_leases <[id := Pg.with_checkpoint row js]> db) =
      with_checkpoints <[id := js]> (pg_view db)) as ->.
    { unfold pg_view, with_checkpoints. cbn. rewrite imap_insert.
      rewrite (omap_insert_same row_reservation _ _ row) by done. f_equal.
      - apply insert_id. by rewrite map_lookup_imap, Hr.
      - by apply omap_insert_Some. }
    apply (refines_one _ (EvCheckpoint id js)); [done|]. constructor. rewrite view_lookup, Hr. eauto.
  - pose proof (pw_rows _ Hwf _ _ Hr) as [H1 H2 H3 H4]. apply wf_insert_row; [done|by split|].
    intros Hc. destruct (pw_claims _ Hwf _ Hc) as (row' & Hr' & ?). by simplify_eq.
Qed.

Lemma pg_bind_ok {json : SerdeJson} db id pref :
  pg_wf db → pg_step_ok (OpBind id pref) db (Pg.bind_provider_ref id pref db).1.
Proof.
  intros Hwf. unfold Pg.bind_provider_ref. destruct (validate_provider_ref pref); [|by apply pg_same].
  destruct (leases db !! id) as [row|] eqn:Hr; [|by apply pg_same].
  destruct (unclaimed_lease db id) eqn:Hun; [|by apply pg_same]. cbn [negb].
  apply (unclaimed_view db id row Hr) in Hun. pose proof (pw_rows _ Hwf _ _ Hr) as Hrow.
  rewrite record_read by done. case_bool_decide as Hp; [|by apply pg_same]. cbn [negb].
  case_bool_decide; [by apply pg_same|]. case_bool_decide; [|by apply pg_same]. cbn [negb].
  assert (row_ok (Pg.with_box_ref row pref)) as Hrow' by by (destruct Hrow; split).
  rewrite record_read by done. cbn [fst]. split.
  - rewrite (view_update db id row) by done. apply (refines_one _ (EvBind id pref)); [done|].
    apply (step_bind (pg_view db) id (row_record id row) pref); [by rewrite view_lookup, Hr|done..].
  - apply wf_insert_row; [done..|]. intros _. by apply row_pending in Hp.
Qed.

Lemma view_claim db id at_ms :
  pg_view (with_pg_claims <[id := at_ms]> db) = with_claims (λ c, {[id]} ∪ c) (pg_view db).
Proof. unfold pg_view, with_claims. cbn. by rewrite dom_insert_L. Qed.

Lemma pg_claim_one_ok o db id cutoff at_ms :
  pg_wf db → op_allows o (EvClaim id) → pg_step_ok o db (Pg.claim_one id cutoff at_ms db).1.
Proof.
  intros Hwf Ho. unfold Pg.claim_one. destruct (leases db !! id) as [row|] eqn:Hr; [|by apply pg_same].
  pose proof (pw_rows _ Hwf _ _ Hr) as Hrow. rewrite record_read by done.
  case_bool_decide as Hp; [|by apply pg_same]. cbn [negb].
  assert (pg_step_ok o db (with_pg_claims <[id := at_ms]> db)) as Hclaim.
  { split.
    - rewrite view_claim. eapply refines_one; [exact Ho|].
      apply (step_claim (pg_view db) id (row_record id row)); [by rewrite view_lookup, Hr|done].
    - destruct Hwf as [H1 H2 H3 H4]. split; cbn; try done. intros k.
      rewrite lookup_insert_is_Some. intros [<-|[_ ?]]; [|auto]. exists row. split; [done|].
      by apply row_pending. }
  destruct (pg_claims db !! id); [by apply pg_same|]. destruct cutoff as [c|]; [|done].
  case_match; [by apply pg_same|]. case_match; [by apply pg_same|done].
Qed.

Lemma refines_trans o s1 s2 s3 : refines_step o s1 s2 → refines_step o s2 s3 → refines_step o s1 s3.
Proof.
  intros (e1 & H1 & S1) (e2 & H2 & S2). exists (e1 ++ e2). split; [by apply Forall_app|].
  by eapply steps_app.
Qed.

Lemma pg_claim_ids_ok db ids now age cutoff at_ms :
  pg_wf db → pg_step_ok (OpClaimStale now age) db (Pg.claim_ids ids cutoff at_ms db).1.
Proof.
  revert db. induction ids as [|id ids IH]; intros db Hwf; [by apply pg_same|]. cbn.
  pose proof (pg_claim_one_ok (OpClaimStale now age) db id (Some cutoff) at_ms Hwf I) as [H1 H2].
  destruct (Pg.claim_one id (Some cutoff) at_ms db) as [db1 [c|e]]; [|done]. cbn in H1, H2.
  destruct (IH db1 H2) as [H3 H4].
  destruct (Pg.claim_ids ids cutoff at_ms db1) as [db2 [rows|e]]; (split; [by eapply refines_trans|done]).
Qed.

Lemma fmap_M_state {A B} (m : PgM A) (f : A → B) db : (fmap_M f m db).1 = (m db).1.
Proof. unfold fmap_M. run_M. by destruct (m db) as [? []]. Qed.

Lemma pg_call_ok {json : SerdeJson} o db :
  pg_wf db → op_fits o → pg_step_ok o db (Pg.call o db).1.
Proof.
  intros Hwf Ho. destruct o as [rec|id to now|rec cap|rec cap gate|id js|id|id|id now|now age|id|id pref];
    cbn [Pg.call]; rewrite fmap_M_state.
  - by apply pg_put_ok.
  - by apply pg_transition_ok.
  - destruct Ho. by apply pg_try_admit_ok.
  - by apply pg_admit_ok.
  - by apply pg_checkpoint_ok.
  - by apply pg_remove_ok.
  - by apply pg_remove_ok.
  - unfold Pg.claim_pending_cleanup, Pg.checked_epoch_ms. case_match; [|by apply pg_same].
    by apply pg_claim_one_ok.
  - unfold Pg.claim_stale_pending_cleanup. case_match; [|by apply pg_same].
    by apply pg_claim_ids_ok.
  - by apply pg_finish_ok.
  - by apply pg_bind_ok.
Qed.

(** ** Any number of instances over one database *)

Section runs.
Context {json : SerdeJson}.

(** The transactions of all the instances, in the order the database
    serialises them. *)
Definition pg_run (os : list op) (db : PgTables) : PgTables := foldl (λ db o, (Pg.call o db).1) db os.

Lemma pg_run_invariant (P : InMemoryInner → Prop) (Okop : op → Prop) :
  (∀ o ev s s', Okop o → op_allows o ev → step ev s s' → ledger_wf s → P s → P s') →
  ∀ os db, pg_wf db → Forall op_fits os → Forall Okop os → P (pg_view db) →
  P (pg_view (pg_run os db)) ∧ pg_wf (pg_run os db).
Proof.
  intros Hstep os. induction os as [|o os IH]; intros db Hwf Hf Ho HP; [done|].
  apply Forall_cons in Hf as [Hf1 Hf]. apply Forall_cons in Ho as [Ho1 Ho].
  destruct (pg_call_ok o db Hwf Hf1) as [(evs & Hev & Hst) Hwf']. cbn [pg_run foldl].
  apply IH; try done. apply view_wf in Hwf. revert Hev HP Hwf. clear -Hstep Ho1 Hst.
  induction Hst as [|ev evs s1 s2 s3 H1 _ IH]; intros Hev HP Hwf; [done|].
  apply Forall_cons in Hev as [Hev1 Hev]. apply IH; [done| |by eapply step_wf]. eauto.
Qed.

(** C19: The Postgres ledger refines the lease machine, and the caps hold across
    instances.  Every transaction, native or gated by external compute as well,
    is a sequence of machine steps allowed for its call and keeps the tables
    well formed; so under any interleaving of transactions that admit a tenant
    with at most its cap, the tenant's active leases never outnumber it. *)
Theorem pg_refines_machine os o db (K : TenantId → Z) :
  pg_wf db → Forall op_fits os → op_fits o →
  (∀ t, K t ≤ U32_MAX) → Forall (op_within_cap K) os → cap_respected K (pg_view db) →
  let db1 := pg_run os db in
  refines_step o (pg_view db1) (pg_view (Pg.call o db1).1) ∧ pg_wf (Pg.call o db1).1 ∧
  ∀ t, pg_count db1 (as_str t) ≤ K t.
Proof.
  intros Hwf Hf Ho HK Hcap Hs db1.
  destruct (pg_run_invariant (cap_respected K) (op_within_cap K)) with (os := os) (db := db)
    as [Hc Hwf1]; [|done..|].
  { intros o' ev s s' Ho' Hev Hst _. by eapply cap_respected_step. }
  destruct (pg_call_ok o db1 Hwf1 Ho) as [Hr Hwf2]. split_and!; [done..|].
  intros [t]. rewrite pg_count_view by done. apply Hc.
Qed.

End runs.

Lemma pg_empty_wf : pg_wf pg_empty.
Proof.
  split; cbn; by intros ?; rewrite ?lookup_empty; intros; simplify_eq.
Qed.

Lemma sample_fits id : rec_fits (sample_lease id).
Proof.
  split_and!; try (cbn; done || unfold is_i64_nat, is_u64; mlia).
  cbn. intros d [= <-]. unfold is_u64. mlia.
Qed.

Lemma sample_ops_fit : Forall op_fits sample_ops.
Proof.
  assert (∀ id, op_fits (OpAdmit (sample_lease id) 2 (Some sample_gate))) as Ha.
  { intros id. split_and!; [apply sample_fits|done|]. intros g [= <-]. unfold is_u32. cbn. mlia. }
  assert (∀ id, op_fits (OpTryAdmit (sample_lease id) 2)) as Ht.
  { intros id. by split; [apply sample_fits|]. }
  unfold sample_ops. repeat (apply Forall_cons; split; [try done; try (cbn; mlia)|]). constructor.
Qed.

Lemma pg_refines_machine_witness :
  pg_count (pg_run (json := accept_json) sample_ops pg_empty) "acme" = 1 ∧
  pg_count (pg_run (json := accept_json) sample_ops pg_empty) "acme" ≤ 2.
Proof.
  split; [vm_compute; reflexivity|].
  apply (pg_refines_machine (json := accept_json) sample_ops (OpFinish "a") pg_empty (λ _, 2)
    pg_empty_wf sample_ops_fit I) with (t := acme).
  - intros _. vm_compute. congruence.
  - repeat constructor; cbn; lia.
  - intros t. vm_compute. congruence.
Defined.
