(* ===== verification/PgExternal.v ===== *)
(** * External compute in the shared budget

    Models [crates/corelink-fabric/src/compute_budget.rs] and
    [pg_ledger/external_compute.rs]: baselines, reservations and their lifecycle,
    which share the tenant's lock and [compute_accrual] with the native leases.
    Each method is one transaction over the tables of [Pg]; the database clock
    and the [uuid] parser are parameters. *)
From S2P Require Import Prelude Tenant ComputeMeter Ledger LedgerSpec LedgerSafety Pg.

Inductive ExternalComputeError : Type := InvalidInput | Conflict.

Inductive ExternalWorkloadKind : Type := SpawnWorkerRunner | Devenv.

Record ExternalComputeReservation : Type := mkExternal {
  reservation_id : string;
  tenant_id : string;
  workload_kind : ExternalWorkloadKind;
  workload_id : string;
  period_of : Z;
  ceiling_of : Z;
  vcpu_count : Z;
  maximum_wall_ms : Z;
  grant_expires_at_ms : Z;
  grant_digest : string;
}.

Inductive ExternalComputeState : Type := Prepared | XActive | Cancelled | Settled.

Record ExternalComputeReceipt : Type := mkReceipt {
  receipt_id : string;
  receipt_state : ExternalComputeState;
}.

Inductive ExternalComputeAdmission : Type :=
| XAdmitted (r : ExternalComputeReceipt)
| XOverCompute
| BaselineRequired.

Record ExternalComputeBaseline : Type := mkBaseline {
  b_tenant_id : string;
  b_period_key : Z;
  external_vcpu_ms : Z;
  evidence_digest : string;
}.

Record ExternalComputeSettlement : Type := mkSettlement {
  actual_vcpu_ms : Z;
  terminal_evidence_digest : string;
}.

(** What the database's clock says: the time, the month, and the end of a
    given month. *)
Record DbClock : Type := mkClock {
  db_now : Z;
  current_period : Z;
  period_end : Z → Z;
}.

Abbreviation XM := (M PgTables ExternalComputeError).

(** ** Validation *)

Definition byte_of (c : ascii) : Z := Z.of_N (N_of_ascii c).
Definition between (lo hi n : Z) : bool := (lo <=? n) && (n <=? hi).
Definition is_ascii_hexdigit (c : ascii) : bool :=
  let n := byte_of c in between 48 57 n || between 65 70 n || between 97 102 n.
Definition is_ascii_alphanumeric (c : ascii) : bool :=
  let n := byte_of c in between 48 57 n || between 65 90 n || between 97 122 n.

Fixpoint string_all (P : ascii → bool) (s : string) : bool :=
  match s with EmptyString => true | String c s => P c && string_all P s end.

Definition require (b : bool) : result ExternalComputeError unit :=
  if b then Ok () else Err InvalidInput.

Definition checked_i64 (value : Z) : result ExternalComputeError Z :=
  if value <=? I64_MAX then Ok value else Err InvalidInput.

Definition check_digest (value : string) : result ExternalComputeError unit :=
  require (Nat.eqb (String.length value) 64 && string_all is_ascii_hexdigit value).

Definition check_period (value : Z) : result ExternalComputeError unit :=
  require (between 197001 999912 value && between 1 12 (value mod 100)).

(** [b":_./-".contains(&b)]. *)
Definition workload_char (c : ascii) : bool :=
  is_ascii_alphanumeric c ||
  existsb (λ c', bool_decide (c = c')) [":"; "_"; "."; "/"; "-"]%char.

Definition check_workload (value : string) : result ExternalComputeError unit :=
  require (negb (Nat.eqb (String.length value) 0) && Nat.leb (String.length value) 256 &&
           string_all workload_char value).

Definition kind_label (k : ExternalWorkloadKind) : string :=
  match k with SpawnWorkerRunner => "spawn_worker_runner" | Devenv => "devenv" end.

Section External.

(** [uuid::Uuid::parse_str]: whether the id is nil, and its canonical text. *)
Context (parse_uuid : string → option (bool * string)).

Definition check_uuid (value : string) : result ExternalComputeError unit :=
  match parse_uuid value with
  | Some (false, canonical) => require (bool_decide (canonical = value))
  | _ => Err InvalidInput
  end.

(** [fn validate]: the reserved amount, when every field is in order. *)
Definition validate (r : ExternalComputeReservation) : result ExternalComputeError Z :=
  check_uuid (tenant_id r) ≫= λ _,
  check_period (period_of r) ≫= λ _,
  check_workload (workload_id r) ≫= λ _,
  check_digest (grant_digest r) ≫= λ _,
  check_uuid (reservation_id r) ≫= λ _,
  require (negb (ceiling_of r =? 0) && negb (vcpu_count r =? 0) && (vcpu_count r <=? 16) &&
           negb (maximum_wall_ms r =? 0) && (maximum_wall_ms r <=? 28800000) &&
           negb (grant_expires_at_ms r =? 0)) ≫= λ _,
  checked_i64 (ceiling_of r) ≫= λ _,
  checked_i64 (grant_expires_at_ms r) ≫= λ _,
  let reserved := vcpu_count r * maximum_wall_ms r in
  require ((reserved <=? U64_MAX) && negb (reserved =? 0) && fits_ledger reserved) ≫= λ _,
  require (grant_expires_at_ms r + maximum_wall_ms r <=? U64_MAX) ≫= λ _,
  checked_i64 reserved.

(** The row of a reservation, and the comparison of every field of it. *)
Definition external_row (r : ExternalComputeReservation) (st : string) (reserved : Z) : ExternalRow :=
  mkExternalRow (tenant_id r) (kind_label (workload_kind r)) (workload_id r) (period_of r) (ceiling_of r)
    (vcpu_count r) (maximum_wall_ms r) (grant_expires_at_ms r) (grant_digest r) st reserved None None.

Definition same_tuple (row : ExternalRow) (r : ExternalComputeReservation) : bool :=
  bool_decide (x_tenant row = tenant_id r) && bool_decide (x_workload_kind row = kind_label (workload_kind r)) &&
  bool_decide (x_workload_id row = workload_id r) && (x_period_key row =? period_of r) &&
  (x_ceiling_vcpu_ms row =? ceiling_of r) && (x_vcpu_count row =? vcpu_count r) &&
  (x_maximum_wall_ms row =? maximum_wall_ms r) && (x_grant_expires_at_ms row =? grant_expires_at_ms r) &&
  bool_decide (x_grant_digest row = grant_digest r).

Definition with_state (row : ExternalRow) (st : string) (actual : option Z) (evidence : option string) : ExternalRow :=
  mkExternalRow (x_tenant row) (x_workload_kind row) (x_workload_id row) (x_period_key row)
    (x_ceiling_vcpu_ms row) (x_vcpu_count row) (x_maximum_wall_ms row) (x_grant_expires_at_ms row)
    (x_grant_digest row) st (x_reserved_vcpu_ms row) actual evidence.

Definition with_periods f db := mkTables (leases db) (pg_claims db) (compute_accrual db)
  (f (external_compute_periods db)) (external_compute_reservations db).
Definition with_external f db := mkTables (leases db) (pg_claims db) (compute_accrual db)
  (external_compute_periods db) (f (external_compute_reservations db)).

(** A method that fails in validation has not touched the tables. *)
Definition validated {A B} (v : result ExternalComputeError A) (k : A → XM B) : XM B := λ db,
  match v with Ok a => k a db | Err e => (db, Err e) end.

(** [fn initialize]. *)
Definition initialize (b : ExternalComputeBaseline) : XM unit :=
  validated (check_uuid (b_tenant_id b) ≫= λ _, check_period (b_period_key b) ≫= λ _,
             check_digest (evidence_digest b) ≫= λ _, checked_i64 (external_vcpu_ms b)) (λ external db,
  let key := (b_tenant_id b, b_period_key b) in
  match external_compute_periods db !! key with
  | Some (amount, evidence) =>
    if (amount =? external) && bool_decide (evidence = evidence_digest b) then (db, Ok ())
    else (db, Err Conflict)
  | None =>
    let total := accrued_of db (b_tenant_id b) (b_period_key b) + external in
    if I64_MAX <? total then (db, Err InvalidInput)
    else (with_accrual <[key := total]> (with_periods <[key := (external, evidence_digest b)]> db), Ok ())
  end).

(** [fn reserve]. *)
Definition reserve (clock : DbClock) (r : ExternalComputeReservation) : XM ExternalComputeAdmission :=
  validated (validate r) (λ reserved db,
  if negb (current_period clock =? period_of r) ||
     (I64_MAX <? grant_expires_at_ms r + maximum_wall_ms r) ||
     (period_end clock (period_of r) <? grant_expires_at_ms r + maximum_wall_ms r)
  then (db, Err InvalidInput)
  else if grant_expires_at_ms r <=? db_now clock then (db, Err Conflict)
  else
    match external_compute_reservations db !! reservation_id r with
    | Some row =>
      if negb (same_tuple row r) then (db, Err Conflict)
      else if decide (x_state row = "prepared")
      then (db, Ok (XAdmitted (mkReceipt (reservation_id r) Prepared)))
      else if decide (x_state row = "active")
      then (db, Ok (XAdmitted (mkReceipt (reservation_id r) XActive)))
      else (db, Err Conflict)
    | None =>
      match external_compute_periods db !! (tenant_id r, period_of r) with
      | None => (db, Ok BaselineRequired)
      | Some _ =>
        let used := accrued_of db (tenant_id r) (period_of r) + native_sigma db (tenant_id r) (period_of r)
                    + external_sigma db (tenant_id r) (period_of r) in
        if (I64_MAX <? used) || (I64_MAX <? used + reserved) then (db, Err InvalidInput)
        else if ceiling_of r <? used + reserved then (db, Ok XOverCompute)
        else (with_external <[reservation_id r := external_row r "prepared" reserved]> db,
              Ok (XAdmitted (mkReceipt (reservation_id r) Prepared)))
      end
    end).

(** [fn transition], for [target] one of active and cancelled. *)
Definition target_label (target : ExternalComputeState) : string :=
  match target with XActive => "active" | Cancelled => "cancelled" | Settled => "settled" | Prepared => "prepared" end.

Definition external_transition (clock : DbClock) (r : ExternalComputeReservation)
    (target : ExternalComputeState) (allowed : string) : XM ExternalComputeReceipt :=
  validated (validate r) (λ reserved db,
  match external_compute_reservations db !! reservation_id r with
  | None =>
    match target with
    | Cancelled => (with_external <[reservation_id r := external_row r "cancelled" reserved]> db,
                    Ok (mkReceipt (reservation_id r) Cancelled))
    | _ => (db, Err Conflict)
    end
  | Some row =>
    if negb (same_tuple row r) then (db, Err Conflict)
    else if decide (x_state row = target_label target) then (db, Ok (mkReceipt (reservation_id r) target))
    else if negb (bool_decide (x_state row = allowed)) then (db, Err Conflict)
    else if bool_decide (target_label target = "active") &&
            ((grant_expires_at_ms r <=? db_now clock) || negb (current_period clock =? period_of r))
    then (db, Err Conflict)
    else (with_external <[reservation_id r := with_state row (target_label target)
            (x_actual_vcpu_ms row) (x_terminal_evidence_digest row)]> db,
          Ok (mkReceipt (reservation_id r) target))
  end).

Definition activate (clock : DbClock) (r : ExternalComputeReservation) : XM ExternalComputeReceipt :=
  external_transition clock r XActive "prepared".
Definition cancel (clock : DbClock) (r : ExternalComputeReservation) : XM ExternalComputeReceipt :=
  external_transition clock r Cancelled "prepared".

(** [fn settle]. *)
Definition settle_external (r : ExternalComputeReservation) (s : ExternalComputeSettlement)
    : XM ExternalComputeReceipt :=
  validated (validate r ≫= λ _, check_digest (terminal_evidence_digest s) ≫= λ _,
             checked_i64 (actual_vcpu_ms s)) (λ actual db,
  match external_compute_reservations db !! reservation_id r with
  | None => (db, Err Conflict)
  | Some row =>
    if negb (same_tuple row r) then (db, Err Conflict)
    else if decide (x_state row = "settled") then
      if bool_decide (x_actual_vcpu_ms row = Some actual) &&
         bool_decide (x_terminal_evidence_digest row = Some (terminal_evidence_digest s))
      then (db, Ok (mkReceipt (reservation_id r) Settled)) else (db, Err Conflict)
    else if negb (bool_decide (x_state row = "active")) then (db, Err Conflict)
    else
      let total := accrued_of db (tenant_id r) (period_of r) + actual in
      if I64_MAX <? total then (db, Err InvalidInput)
      else (with_accrual <[(tenant_id r, period_of r) := total]>
              (with_external <[reservation_id r := with_state row "settled" (Some actual)
                 (Some (terminal_evidence_digest s))]> db),
            Ok (mkReceipt (reservation_id r) Settled))
  end).

End External.
