(* ===== verification/PgExternalProofs.v ===== *)
(** * One budget for native and external compute

    Theorems on [PgExternal] next to [Pg]: under any interleaving of native and
    external transactions the tenant's month stays within its ceiling; a
    reservation moves forward only, keeps its grant, and is charged once. *)
From S2P Require Import Prelude Tenant ComputeMeter Ledger LedgerSpec LedgerSafety Pg PgProofs PgExternal.

Section proofs.
Context (parse_uuid : string → option (bool * string)) {json : SerdeJson}.

(** ** Runs over the whole database *)

Inductive xop : Type :=
| XNative (o : op)
| XInitialize (b : ExternalComputeBaseline)
| XReserve (clock : DbClock) (r : ExternalComputeReservation)
| XActivate (clock : DbClock) (r : ExternalComputeReservation)
| XCancel (clock : DbClock) (r : ExternalComputeReservation)
| XSettle (r : ExternalComputeReservation) (s : ExternalComputeSettlement).

Definition x_exec (db : PgTables) (x : xop) : PgTables :=
  match x with
  | XNative o => (Pg.call o db).1
  | XInitialize b => (initialize parse_uuid b db).1
  | XReserve clock r => (reserve parse_uuid clock r db).1
  | XActivate clock r => (activate parse_uuid clock r db).1
  | XCancel clock r => (cancel parse_uuid clock r db).1
  | XSettle r s => (settle_external parse_uuid r s db).1
  end.
Definition x_run (xs : list xop) (db : PgTables) : PgTables := foldl x_exec db xs.

(** ** What each external transaction does to the tables *)

Inductive xchange : PgTables → PgTables → xop → Prop :=
| xc_none db x : xchange db db x
| xc_baseline db b total :
    external_compute_periods db !! (b_tenant_id b, b_period_key b) = None →
    0 ≤ external_vcpu_ms b → total = accrued_of db (b_tenant_id b) (b_period_key b) + external_vcpu_ms b → total ≤ I64_MAX →
    xchange db (with_accrual <[(b_tenant_id b, b_period_key b) := total]>
      (with_periods <[(b_tenant_id b, b_period_key b) := (external_vcpu_ms b, evidence_digest b)]> db)) (XInitialize b)
| xc_reserve db clock r :
    external_compute_reservations db !! reservation_id r = None →
    is_Some (external_compute_periods db !! (tenant_id r, period_of r)) →
    0 < vcpu_count r * maximum_wall_ms r →
    accrued_of db (tenant_id r) (period_of r) + native_sigma db (tenant_id r) (period_of r)
      + external_sigma db (tenant_id r) (period_of r) + vcpu_count r * maximum_wall_ms r ≤ ceiling_of r →
    xchange db (with_external <[reservation_id r := external_row r "prepared" (vcpu_count r * maximum_wall_ms r)]> db)
      (XReserve clock r)
| xc_fence db clock r :
    external_compute_reservations db !! reservation_id r = None → 0 < vcpu_count r * maximum_wall_ms r →
    xchange db (with_external <[reservation_id r := external_row r "cancelled" (vcpu_count r * maximum_wall_ms r)]> db)
      (XCancel clock r)
| xc_move db x r row st :
    (∃ clock, x = XActivate clock r ∧ st = "active" ∨ x = XCancel clock r ∧ st = "cancelled") →
    external_compute_reservations db !! reservation_id r = Some row → same_tuple row r = true →
    x_state row = "prepared" →
    xchange db (with_external <[reservation_id r := with_state row st (x_actual_vcpu_ms row)
      (x_terminal_evidence_digest row)]> db) x
| xc_settle db r s row total :
    external_compute_reservations db !! reservation_id r = Some row → same_tuple row r = true →
    x_state row = "active" → actual_vcpu_ms s ≤ I64_MAX →
    total = accrued_of db (tenant_id r) (period_of r) + actual_vcpu_ms s → total ≤ I64_MAX →
    xchange db (with_accrual <[(tenant_id r, period_of r) := total]>
      (with_external <[reservation_id r := with_state row "settled" (Some (actual_vcpu_ms s))
        (Some (terminal_evidence_digest s))]> db)) (XSettle r s).

(** Amounts are machine words. *)
Definition x_fits (x : xop) : Prop :=
  match x with
  | XNative o => op_fits o
  | XInitialize b => 0 ≤ external_vcpu_ms b
  | XReserve _ r | XActivate _ r | XCancel _ r => 0 ≤ vcpu_count r ∧ 0 ≤ maximum_wall_ms r
  | XSettle r s => 0 ≤ actual_vcpu_ms s
  end.

Lemma bind_Ok {A B} (v : result ExternalComputeError A) (f : A → result ExternalComputeError B) b :
  v ≫= f = Ok b → ∃ a, v = Ok a ∧ f a = Ok b.
Proof. destruct v; [eauto|done]. Qed.

Lemma checked_i64_Ok z w : checked_i64 z = Ok w → w = z ∧ z ≤ I64_MAX.
Proof. unfold checked_i64. destruct (Z.leb_spec z I64_MAX); [by intros [= <-]|done]. Qed.

Lemma require_Ok b u : require b = Ok u → b = true.
Proof. by destruct b. Qed.

Lemma validate_Ok r reserved :
  validate parse_uuid r = Ok reserved → 0 ≤ vcpu_count r → 0 ≤ maximum_wall_ms r →
  reserved = vcpu_count r * maximum_wall_ms r ∧ 0 < vcpu_count r * maximum_wall_ms r ≤ I64_MAX.
Proof.
  unfold validate. intros H Hv Hw. do 8 (apply bind_Ok in H as (? & _ & H)).
  apply bind_Ok in H as (? & Hreq%require_Ok & H). apply bind_Ok in H as (? & _ & H).
  apply checked_i64_Ok in H as [-> Hle]. split; [done|]. split; [|done].
  apply andb_prop in Hreq as [[_ Hne]%andb_prop _]. apply negb_true_iff, Z.eqb_neq in Hne. nia.
Qed.

Lemma same_tuple_fields row r :
  same_tuple row r = true →
  x_tenant row = tenant_id r ∧ x_period_key row = period_of r ∧ x_vcpu_count row = vcpu_count r ∧
  x_maximum_wall_ms row = maximum_wall_ms r ∧ x_ceiling_vcpu_ms row = ceiling_of r.
Proof.
  unfold same_tuple. intros H. repeat (apply andb_prop in H as [H ?]).
  repeat match goal with
         | H : bool_decide _ = true |- _ => apply bool_decide_eq_true in H
         | H : (_ =? _) = true |- _ => apply Z.eqb_eq in H
         end. auto.
Qed.

Lemma x_exec_change db x :
  x_fits x → xchange db (x_exec db x) x ∨ ∃ o, x = XNative o ∧ x_exec db x = (Pg.call o db).1.
Proof.
  intros Hx. destruct x as [o|b|clock r|clock r|clock r|r s]; [right; eauto|left..]; cbn in *.
  - unfold initialize, validated. case_match eqn:Ev; [|constructor].
    do 3 (apply bind_Ok in Ev as (? & _ & Ev)). apply checked_i64_Ok in Ev as [-> Hle].
    case_match eqn:Ep; [repeat case_match; constructor|].
    destruct (Z.ltb_spec I64_MAX (accrued_of db (b_tenant_id b) (b_period_key b) + external_vcpu_ms b)); [constructor|].
    by constructor.
  - unfold reserve, validated. case_match eqn:Ev; [|constructor]. destruct Hx.
    apply validate_Ok in Ev as [-> Hres]; [|done..].
    case_match; [constructor|]. case_match; [constructor|].
    case_match eqn:Er; [repeat case_match; constructor|].
    case_match eqn:Ep; [|constructor]. case_match; [constructor|].
    case_match eqn:Ec; [constructor|]. apply Z.ltb_ge in Ec. constructor; [done|by rewrite Ep|lia|lia].
  - unfold activate, external_transition, validated. case_match; [|constructor].
    case_match eqn:Er; [|constructor]. case_match eqn:Es; [constructor|]. apply negb_false_iff in Es.
    case_match; [constructor|]. case_bool_decide as Ep; [|constructor]. cbn [negb].
    case_match; [constructor|]. eapply (xc_move _ _ r); eauto.
  - unfold cancel, external_transition, validated. case_match eqn:Ev; [|constructor]. destruct Hx.
    apply validate_Ok in Ev as [-> Hres]; [|done..].
    case_match eqn:Er; [|constructor; [done|lia]]. case_match eqn:Es; [constructor|]. apply negb_false_iff in Es.
    case_match; [constructor|]. case_bool_decide as Ep; [|constructor]. cbn [negb].
    case_match; [constructor|]. eapply (xc_move _ _ r); eauto.
  - unfold settle_external, validated. case_match eqn:Ev; [|constructor].
    do 2 (apply bind_Ok in Ev as (? & _ & Ev)). apply checked_i64_Ok in Ev as [-> Hle].
    case_match eqn:Er; [|constructor]. case_match eqn:Es; [constructor|]. apply negb_false_iff in Es.
    case_match; [repeat case_match; constructor|]. case_bool_decide as Ep; [|constructor]. cbn [negb].
    destruct (Z.ltb_spec I64_MAX (accrued_of db (tenant_id r) (period_of r) + actual_vcpu_ms s)); [constructor|].
    by eapply xc_settle.
Qed.

(** ** Tables with external reservations *)

(** A reservation row holds its product of cores and wall time. *)
Definition ext_row_ok (row : ExternalRow) : Prop :=
  x_reserved_vcpu_ms row = x_vcpu_count row * x_maximum_wall_ms row ∧ 0 < x_reserved_vcpu_ms row.

Record x_wf (db : PgTables) : Prop := {
  xw_pg : pg_wf db;
  xw_rows id row : external_compute_reservations db !! id = Some row → ext_row_ok row;
}.

(** Spent plus promised, native and external. *)
Definition committed_all (db : PgTables) (t : string) (p : Z) : Z :=
  accrued_of db t p + native_sigma db t p + external_sigma db t p.

(** What one external row holds of a tenant's month. *)
Definition held_by (t : string) (p : Z) (row : ExternalRow) : Z :=
  if bool_decide (x_tenant row = t) && bool_decide (x_period_key row = p) && external_open row
  then x_reserved_vcpu_ms row else 0.

Lemma external_sigma_insert db id row t p :
  external_sigma (with_external <[id := row]> db) t p =
    external_sigma db t p - from_option (held_by t p) 0 (external_compute_reservations db !! id) + held_by t p row.
Proof. unfold external_sigma. cbn. by rewrite map_sum_insert. Qed.

(** ** Native transactions and the external tables *)

Lemma claim_ids_frame ids cutoff at_ms db :
  external_compute_periods (Pg.claim_ids ids cutoff at_ms db).1 = external_compute_periods db ∧
  external_compute_reservations (Pg.claim_ids ids cutoff at_ms db).1 = external_compute_reservations db.
Proof.
  revert db. induction ids as [|id ids IH]; intros db; [done|]. cbn [Pg.claim_ids].
  assert (external_compute_periods (Pg.claim_one id (Some cutoff) at_ms db).1 = external_compute_periods db ∧
    external_compute_reservations (Pg.claim_one id (Some cutoff) at_ms db).1 = external_compute_reservations db)
    as [Hp Hr] by (unfold Pg.claim_one; repeat case_match; done).
  destruct (Pg.claim_one id (Some cutoff) at_ms db) as [db1 [c|e]]; [|done]. cbn in Hp, Hr.
  specialize (IH db1). destruct (Pg.claim_ids ids cutoff at_ms db1) as [db2 [rows|e]]; cbn in *; naive_solver congruence.
Qed.

Lemma native_frame o db :
  external_compute_periods (Pg.call o db).1 = external_compute_periods db ∧
  external_compute_reservations (Pg.call o db).1 = external_compute_reservations db.
Proof.
  destruct o; cbn [Pg.call]; rewrite fmap_M_state;
    unfold Pg.put, Pg.transition, Pg.try_admit_with_compute, Pg.try_admit, Pg.set_envelope_checkpoint,
      Pg.remove, Pg.remove_if_pending, Pg.remove_fenced, Pg.claim_pending_cleanup, Pg.claim_one,
      Pg.finish_pending_cleanup, Pg.bind_provider_ref; try (repeat case_match; simplify_eq; done).
  unfold Pg.claim_stale_pending_cleanup. case_match; [apply claim_ids_frame|done].
Qed.

Lemma committed_all_view db t p :
  pg_wf db → committed_all db t p = committed (pg_view db) (mkTenantId t) p + external_sigma db t p.
Proof. intros. unfold committed_all. rewrite committed_view by done. lia. Qed.

Lemma steps_committed o evs s s' t p :
  (∀ rec cap g, ¬ op_allows o (EvAdmitReserved rec cap g)) →
  Forall (op_allows o) evs → steps evs s s' → ledger_wf s → amounts_ok s →
  op_amounts_ok o → committed s' t p ≤ committed s t p.
Proof.
  intros Hno Hev Hst. induction Hst as [|ev evs s1 s2 s3 H1 _ IH]; intros Hwf Hok Ho; [done|].
  apply Forall_cons in Hev as [He Hev]. etrans; [apply IH; eauto using step_wf, amounts_step|].
  assert (admitted_amount ev t p = 0) as Ha by (destruct ev; try done; by edestruct Hno).
  pose proof (committed_step ev s1 s2 t p Hwf Hok H1) as Hc. rewrite Ha in Hc.
  rewrite Z.add_0_r in Hc. apply Hc. intros rec cap g ->. by edestruct Hno.
Qed.

(** A native transaction lowers what is committed, or is a gated admission that
    found room under its own ceiling. *)
Lemma native_committed db o t p :
  pg_wf db → op_fits o →
  committed_all (Pg.call o db).1 t p ≤ committed_all db t p ∨
  ∃ rec cap g, o = OpAdmit rec cap (Some g) ∧ as_str (tenant rec) = t ∧ gate_period_key g = p ∧
    committed_all (Pg.call o db).1 t p ≤ gate_ceiling_vcpu_ms g.
Proof.
  intros Hwf Ho. destruct (native_frame o db) as [_ Hx].
  destruct (pg_call_ok o db Hwf Ho) as [(evs & Hev & Hst) Hwf'].
  pose proof (view_wf db Hwf) as Hlw. pose proof (view_amounts db Hwf) as Ham.
  rewrite !committed_all_view by done. unfold external_sigma. rewrite Hx.
  change (map_sum _ (external_compute_reservations db)) with (external_sigma db t p).
  assert ((∀ rec cap gate, o ≠ OpAdmit rec cap gate) ∨ ∃ rec cap gate, o = OpAdmit rec cap gate)
    as [Hn|(rec & cap & gate & ->)] by (destruct o; (by left) || (right; eauto)).
  { left. apply Z.add_le_mono_r. eapply steps_committed; eauto; destruct o as [| ? [] | | | | | | | | |]; naive_solver. }
  cbn [Pg.call] in *. rewrite fmap_M_state in *.
  destruct (pg_admit_cases db rec cap gate Hwf Ho) as [_ [->|(Hn & _ & [->|(g & -> & Hc & -> & Hle)])]];
    [by left|left; apply Z.add_le_mono_r; by apply committed_insert|].
  destruct Ho as (_ & _ & Hg). specialize (Hg g eq_refl) as (_ & Hg & _).
  pose proof (committed_admit (pg_view db) rec g (mkTenantId t) p Hlw Ham Hn ltac:(lia)) as Hca.
  case_decide as Hd; [right; exists rec, cap, g|left; lia]. destruct Hd as [Ht ->].
  rewrite committed_view in Hca by done. apply (f_equal as_str) in Ht as Ht'. cbn in Ht'.
  rewrite <-Ht' in Hle. split_and!; try done; lia.
Qed.

(** ** Well-formedness along runs *)

Lemma x_wf_external db id row :
  x_wf db → ext_row_ok row → x_wf (with_external <[id := row]> db).
Proof.
  intros [Hpg Hx] Hrow.
  assert (∀ id' row', <[id := row]> (external_compute_reservations db) !! id' = Some row' → ext_row_ok row') as H.
  { intros id' row' [[_ <-]|[_ Hr]]%lookup_insert_Some; eauto. }
  split; [|exact H]. destruct Hpg as [? ? ? _]. split; try done.
  intros id' row' Hr. cbn in Hr. destruct (H _ _ Hr). lia.
Qed.

Lemma x_wf_accrual db k a f :
  x_wf db → 0 ≤ a ≤ I64_MAX → x_wf (with_accrual <[k := a]> (with_periods f db)).
Proof.
  intros [[? ? Ha ?] Hx] Hr. split; [split|]; try done.
  cbn. intros k' a' [[_ <-]|[_ ?]]%lookup_insert_Some; eauto.
Qed.

Lemma x_wf_exec db x : x_wf db → x_fits x → x_wf (x_exec db x).
Proof.
  intros Hwf Hx. destruct (x_exec_change db x Hx) as [Hc|(o & -> & ->)]; cycle 1.
  { destruct (pg_call_ok o db (xw_pg _ Hwf) Hx) as [_ ?]. destruct (native_frame o db) as [_ Hr].
    split; [done|]. rewrite Hr. apply Hwf. }
  revert Hwf Hx. destruct Hc as [|db b total _ ? -> ?|db clock r _ _ ? _|db clock r _ ?
    |db x r row st _ Hr _ _|db r s row total Hr _ _ ? -> ?]; intros Hwf Hx; [done|..].
  - apply x_wf_accrual; [done|]. destruct (accrued_of_range db (b_tenant_id b) (b_period_key b) (xw_pg _ Hwf)). lia.
  - by apply x_wf_external.
  - by apply x_wf_external.
  - apply x_wf_external; [done|]. by apply (xw_rows _ Hwf _ _ Hr).
  - apply (x_wf_accrual (with_external _ db) _ _ id).
    + apply x_wf_external; [done|]. by apply (xw_rows _ Hwf _ _ Hr).
    + cbn in Hx. destruct (accrued_of_range db (tenant_id r) (period_of r) (xw_pg _ Hwf)). lia.
Qed.

(** ** The shared budget *)

(** Calls that gate the tenant's month with at most [C], natively and
    externally. *)
Definition x_within (t : string) (p C : Z) (x : xop) : Prop :=
  match x with
  | XNative (OpAdmit rec _ (Some g)) =>
    as_str (tenant rec) = t → gate_period_key g = p → gate_ceiling_vcpu_ms g ≤ C
  | XReserve _ r => tenant_id r = t → period_of r = p → ceiling_of r ≤ C
  | _ => True
  end.

(** What a settlement reports beyond the granted product; it is recorded as
    it is. *)
Definition overrun (t : string) (p : Z) (x : xop) : Z :=
  match x with
  | XSettle r s =>
    if decide ((tenant_id r, period_of r) = (t, p))
    then Z.max 0 (actual_vcpu_ms s - vcpu_count r * maximum_wall_ms r) else 0
  | _ => 0
  end.
Definition overruns (t : string) (p : Z) (xs : list xop) : Z := foldr (λ x n, overrun t p x + n) 0 xs.

Lemma overrun_nonneg t p x : 0 ≤ overrun t p x.
Proof. unfold overrun. repeat case_match; lia. Qed.

Lemma accrued_insert db t p t' p' a :
  accrued_of (with_accrual <[(t', p') := a]> db) t p =
    if decide ((t', p') = (t, p)) then a else accrued_of db t p.
Proof.
  unfold accrued_of. cbn. case_decide as H; [by rewrite H, lookup_insert_eq|by rewrite lookup_insert_ne].
Qed.

(** Writing a reservation row moves the commitment by what the row holds. *)
Lemma committed_external db id row t p :
  committed_all (with_external <[id := row]> db) t p =
    committed_all db t p - from_option (held_by t p) 0 (external_compute_reservations db !! id) + held_by t p row.
Proof.
  unfold committed_all. rewrite external_sigma_insert.
  change (accrued_of (with_external _ db)) with (accrued_of db).
  change (native_sigma (with_external _ db)) with (native_sigma db). lia.
Qed.

Lemma committed_accrual db t' p' a t p :
  committed_all (with_accrual <[(t', p') := a]> db) t p =
    committed_all db t p + (if decide ((t', p') = (t, p)) then a - accrued_of db t p else 0).
Proof.
  unfold committed_all. rewrite accrued_insert.
  change (native_sigma (with_accrual _ _)) with (native_sigma db).
  change (external_sigma (with_accrual _ _)) with (external_sigma db). case_decide; lia.
Qed.

(** What a row holds: its reservation while open, of its own tenant and month. *)
Lemma held_by_row t p row :
  held_by t p row =
    if decide ((x_tenant row, x_period_key row) = (t, p))
    then if external_open row then x_reserved_vcpu_ms row else 0 else 0.
Proof.
  unfold held_by. destruct (decide ((_, _) = _)) as [[= -> ->]|Hn].
  - by rewrite !bool_decide_true.
  - cbn. case_bool_decide; [|done]. case_bool_decide; [|done]. by destruct Hn; f_equal.
Qed.

Lemma held_by_move t p row st a e :
  ext_row_ok row → x_state row = "prepared" → held_by t p (with_state row st a e) ≤ held_by t p row.
Proof.
  intros [_ Hpos] Hst. rewrite !held_by_row. cbn [x_tenant x_period_key x_reserved_vcpu_ms with_state].
  assert (external_open row = true) as -> by (unfold external_open; by rewrite Hst).
  case_decide; [case_match|]; lia.
Qed.

Lemma budget_step db x t p C B :
  x_wf db → x_fits x → x_within t p C x → is_Some (external_compute_periods db !! (t, p)) →
  C ≤ B → committed_all db t p ≤ B →
  is_Some (external_compute_periods (x_exec db x) !! (t, p)) ∧ committed_all (x_exec db x) t p ≤ B + overrun t p x.
Proof.
  intros Hwf Hx Hin Hp HB Hle. pose proof (overrun_nonneg t p x). destruct (x_exec_change db x Hx) as [Hc|(o & -> & ->)]; cycle 1.
  { destruct (native_frame o db) as [-> _]. split; [done|].
    destruct (native_committed db o t p (xw_pg _ Hwf) Hx) as [?|(rec & cap & g & -> & Ht & Hg & ?)]; [lia|].
    specialize (Hin Ht Hg). lia. }
  revert Hwf Hx Hin Hp Hle H. destruct Hc as [|db b total Hn ? -> ?|db clock r Hn _ Hpos Hroom|db clock r Hn Hpos
    |db x r row st Hst Hr Htup Hprep|db r s row total Hr Htup Hact ? -> ?]; intros Hwf Hx Hin Hp Hle Hov;
    [split; [done|lia]|..].
  - split; [cbn; rewrite lookup_insert_is_Some'; by right|].
    change (committed_all (with_accrual ?f _)) with (committed_all (with_accrual f db)).
    rewrite committed_accrual. case_decide as Hd; [|lia]. injection Hd as <- <-.
    rewrite Hn in Hp. by destruct Hp.
  - split; [done|]. rewrite committed_external, Hn, held_by_row. cbn.
    case_decide as Hd; [injection Hd as <- <-|cbn; lia]. specialize (Hin eq_refl eq_refl).
    unfold committed_all in *. change (external_open _) with true.
    cbn [x_reserved_vcpu_ms external_row from_option]. lia.
  - split; [done|]. rewrite committed_external, Hn, held_by_row.
    change (external_open _) with false. cbn. case_decide; lia.
  - split; [done|]. rewrite committed_external, Hr. cbn.
    pose proof (held_by_move t p row st (x_actual_vcpu_ms row) (x_terminal_evidence_digest row)
      (xw_rows _ Hwf _ _ Hr) Hprep). lia.
  - split; [done|]. destruct (xw_rows _ Hwf _ _ Hr) as [Hres Hpos].
    apply same_tuple_fields in Htup as (Ht & Hk & Hv & Hw & _).
    rewrite committed_accrual, committed_external, Hr. cbn [from_option].
    rewrite !held_by_row. cbn [x_tenant x_period_key with_state]. rewrite Ht, Hk.
    assert (external_open row = true) as -> by (unfold external_open; by rewrite Hact).
    change (external_open _) with false.
    change (accrued_of (with_external _ db)) with (accrued_of db).
    unfold overrun. case_decide as Hd; [injection Hd as <- <-|lia]. rewrite Hv, Hw in Hres. lia.
Qed.

Lemma budget_run xs t p C : ∀ db B,
  x_wf db → Forall x_fits xs → Forall (x_within t p C) xs →
  is_Some (external_compute_periods db !! (t, p)) → C ≤ B → committed_all db t p ≤ B →
  x_wf (x_run xs db) ∧ committed_all (x_run xs db) t p ≤ B + overruns t p xs.
Proof.
  induction xs as [|x xs IH]; intros db B Hwf Hf Hin Hp HB Hle; cbn [overruns foldr]; [split; [done|cbn; lia]|].
  apply Forall_cons in Hf as [Hf1 Hf]. apply Forall_cons in Hin as [Hin1 Hin].
  destruct (budget_step db x t p C B) as [Hp' Hle']; try done. pose proof (overrun_nonneg t p x).
  destruct (IH (x_exec db x) (B + overrun t p x)) as [? Hr]; eauto using x_wf_exec; [lia|].
  split; [done|]. change (x_run (x :: xs) db) with (x_run xs (x_exec db x)). unfold overruns in Hr. lia.
Qed.

(** C13: One budget covers native and external compute.  Once the tenant's month
    has its baseline, any interleaving of native transactions (admissions,
    transitions, removals, cleanups) and external ones (reservations,
    activations, cancellations, settlements, replays of any of them) that gate
    with at most [C] keeps the sum of what the month has been charged, what
    active leases reserve and what open external reservations hold within [C]
    plus the overruns that settlements report, which are recorded unclamped;
    without overruns the month is never charged more than [C]. *)
Theorem shared_budget_never_exceeded xs db t p C :
  x_wf db → Forall x_fits xs → Forall (x_within t p C) xs →
  is_Some (external_compute_periods db !! (t, p)) → committed_all db t p ≤ C →
  let db' := x_run xs db in
  accrued_of db' t p + native_sigma db' t p + external_sigma db' t p ≤ C + overruns t p xs ∧
  (Forall (λ x, overrun t p x = 0) xs → accrued_of db' t p ≤ C).
Proof.
  intros Hwf Hf Hin Hp Hle db'. destruct (budget_run xs t p C db C) as [[Hpg _] Hle']; try done.
  fold db' in Hpg, Hle'. unfold committed_all in Hle'. split; [done|]. intros H0.
  assert (overruns t p xs = 0) as H by (clear -H0; unfold overruns; induction H0; cbn; lia).
  pose proof (native_sigma_nonneg db' t p Hpg). pose proof (external_sigma_nonneg db' t p Hpg). lia.
Qed.

(** ** The life of a reservation *)

(** The grant of a row: everything but its state and what settlement adds. *)
Definition grant_of (row : ExternalRow) : ExternalRow := with_state row "" None None.

Inductive forward : string → string → Prop :=
| fw_same st : forward st st
| fw_activated : forward "prepared" "active"
| fw_cancelled : forward "prepared" "cancelled"
| fw_settled : forward "active" "settled"
| fw_run : forward "prepared" "settled".

Lemma forward_trans a b c : forward a b → forward b c → forward a c.
Proof. intros [] H; inversion H; subst; constructor. Qed.

Definition closed (row : ExternalRow) : Prop := x_state row = "cancelled" ∨ x_state row = "settled".

Definition grows (row row' : ExternalRow) : Prop :=
  grant_of row' = grant_of row ∧ forward (x_state row) (x_state row') ∧ (closed row → row' = row).

Lemma grows_refl row : grows row row.
Proof. split_and!; [done|constructor|done]. Qed.

Lemma grows_trans r1 r2 r3 : grows r1 r2 → grows r2 r3 → grows r1 r3.
Proof.
  intros (Hg & Hf & Hc) (Hg' & Hf' & Hc'). split_and!; [congruence|by eapply forward_trans|].
  intros H. rewrite (Hc H) in Hc'. auto.
Qed.

Lemma grows_exec db x id row :
  x_fits x → external_compute_reservations db !! id = Some row →
  ∃ row', external_compute_reservations (x_exec db x) !! id = Some row' ∧ grows row row'.
Proof.
  intros Hx Hr. destruct (x_exec_change db x Hx) as [Hc|(o & -> & ->)]; cycle 1.
  { destruct (native_frame o db) as [_ ->]. eauto using grows_refl. }
  destruct Hc as [|db b total|db clock r Hn|db clock r Hn
    |db x r row1 st Hst Hr1 _ Hprep|db r s row1 total Hr1 _ Hact]; cbn.
  1-2: eauto using grows_refl.
  1-2: rewrite lookup_insert_ne by congruence; eauto using grows_refl.
  all: destruct (decide (reservation_id r = id)) as [<-|];
    [rewrite lookup_insert_eq; simplify_eq|rewrite lookup_insert_ne by done; eauto using grows_refl].
  - eexists; split; [done|]. split_and!; [done| |intros []; congruence].
    cbn. rewrite Hprep. destruct Hst as [clock [[_ ->]|[_ ->]]]; constructor.
  - eexists; split; [done|]. split_and!; [done| |intros []; congruence]. cbn. rewrite Hact. constructor.
Qed.

(** The reservation a call names. *)
Definition x_names (x : xop) : option string :=
  match x with
  | XReserve _ r | XActivate _ r | XCancel _ r | XSettle r _ => Some (reservation_id r)
  | XNative _ | XInitialize _ => None
  end.

(** A reservation moves forward only and is charged once.  Whatever runs
    after it was written (retries, a cancel racing an activation, a delayed
    reserve, a second settlement), its row stays, with the same grant, and its
    state goes from prepared to active to settled, or from prepared to cancelled;
    once cancelled or settled it never changes, and no call that names it
    changes the tables any more, so its usage is added to the month at most once
    and a cancelled grant is never spent. *)
Theorem reservation_moves_forward xs db id row :
  Forall x_fits xs → external_compute_reservations db !! id = Some row →
  ∃ row', external_compute_reservations (x_run xs db) !! id = Some row' ∧
    grant_of row' = grant_of row ∧ forward (x_state row) (x_state row') ∧
    (closed row → row' = row) ∧
    (closed row' → ∀ x, x_fits x → x_names x = Some id → x_exec (x_run xs db) x = x_run xs db).
Proof.
  intros Hf Hr. assert (∃ row', external_compute_reservations (x_run xs db) !! id = Some row' ∧ grows row row')
    as (row' & Hr' & Hg & Hfw & Hc).
  { revert db row Hr. induction Hf as [|x xs Hx _ IH]; intros db row Hr; [eauto using grows_refl|].
    destruct (grows_exec db x id row Hx Hr) as (row1 & Hr1 & Hg1).
    destruct (IH (x_exec db x) row1 Hr1) as (row2 & Hr2 & Hg2). eauto using grows_trans. }
  exists row'. split_and!; [done..|]. intros Hcl x Hx Hid. generalize dependent (x_run xs db). intros db' Hr'.
  destruct (x_exec_change db' x Hx) as [Hch|(o & -> & _)]; [|done].
  destruct Hch as [| |? ? r Hn|? ? r Hn|db1 x r row1 st Hst Hr1 _ Hprep|? r s row1 ? Hr1 _ Hact]; cbn in Hid;
    simplify_eq; [done| |].
  - destruct Hst as [clock [[-> _]|[-> _]]]; cbn in Hid; simplify_eq; destruct Hcl; congruence.
  - destruct Hcl; congruence.
Qed.

End proofs.

(** ** Sample runs *)

Definition any_uuid (s : string) : option (bool * string) := Some (false, s).
Definition sample_digest : string := "0123456789abcdef0123456789abcdef0123456789abcdef0123456789abcdef".
Definition sample_clock : DbClock := mkClock 5000 202611 (λ _, 2000000000).
Definition sample_grant (id : string) : ExternalComputeReservation :=
  mkExternal id "acme" Devenv "w-1" 202611 10000 2 1500 9000 sample_digest.
Definition sample_baseline : ExternalComputeBaseline := mkBaseline "acme" 202611 500 sample_digest.
Definition opened : PgTables := x_exec any_uuid (json := accept_json) pg_empty (XInitialize sample_baseline).

(** A native lease and two external workloads share one ceiling of 10000: the
    third workload is refused until the first has settled for less. *)
Definition sample_xops : list xop :=
  [ XReserve sample_clock (sample_grant "x"); XNative (OpAdmit (sample_lease "a") 2 (Some sample_gate));
    XReserve sample_clock (sample_grant "y"); XActivate sample_clock (sample_grant "x");
    XSettle (sample_grant "x") (mkSettlement 40 sample_digest); XCancel sample_clock (sample_grant "z");
    XReserve sample_clock (sample_grant "y"); XReserve sample_clock (sample_grant "z") ].

Lemma opened_wf : x_wf opened.
Proof.
  apply (x_wf_exec any_uuid (json := accept_json)); [|by cbn].
  split; [apply pg_empty_wf|]. intros id row. cbn. by rewrite lookup_empty.
Qed.

Lemma sample_xops_fit : Forall x_fits sample_xops.
Proof.
  assert (op_fits (OpAdmit (sample_lease "a") 2 (Some sample_gate))) as Ha.
  { split_and!; [apply sample_fits|done|]. intros g [= <-]. unfold is_u32. cbn. mlia. }
  unfold sample_xops. repeat (apply Forall_cons; split; [exact Ha || (cbn; lia)|]). constructor.
Qed.

Lemma shared_budget_never_exceeded_witness :
  let db := x_run any_uuid (json := accept_json) sample_xops opened in
  accrued_of db "acme" 202611 = 540 ∧ native_sigma db "acme" 202611 = 6000 ∧ external_sigma db "acme" 202611 = 3000 ∧
  accrued_of db "acme" 202611 + native_sigma db "acme" 202611 + external_sigma db "acme" 202611 ≤
    10000 + overruns "acme" 202611 sample_xops.
Proof.
  split_and!; [vm_compute; reflexivity..|].
  refine (proj1 (shared_budget_never_exceeded any_uuid (json := accept_json) sample_xops opened "acme" 202611 10000
    opened_wf sample_xops_fit _ _ _)).
  - unfold sample_xops. repeat (apply Forall_cons; split; [cbn; lia || done|]). constructor.
  - vm_compute. eauto.
  - vm_compute. congruence.
Defined.

Lemma reservation_moves_forward_witness :
  ∃ row', external_compute_reservations (x_run any_uuid (json := accept_json) sample_xops
      (x_exec any_uuid (json := accept_json) opened (XReserve sample_clock (sample_grant "x")))) !! "x" = Some row' ∧
    forward "prepared" (x_state row').
Proof.
  destruct (reservation_moves_forward any_uuid (json := accept_json) sample_xops
    (x_exec any_uuid (json := accept_json) opened (XReserve sample_clock (sample_grant "x"))) "x"
    (external_row (sample_grant "x") "prepared" 3000) sample_xops_fit ltac:(vm_compute; reflexivity))
    as (row' & Hr & _ & Hf & _).
  exists row'. split; [exact Hr|exact Hf].
Defined.

(** An overrun is recorded as it is: it takes the month past its ceiling. *)
Lemma settlement_is_not_clamped :
  let db := x_run any_uuid (json := accept_json)
    [ XReserve sample_clock (sample_grant "x"); XActivate sample_clock (sample_grant "x");
      XSettle (sample_grant "x") (mkSettlement 1000000 sample_digest) ] opened in
  ceiling_of (sample_grant "x") = 10000 ∧ accrued_of db "acme" 202611 = 1000500.
Proof. split; vm_compute; reflexivity. Qed.
