(* ===== verification/Suspension.v ===== *)
(** * Tenant suspension and its outbox

    Models [crates/corelink-fabric/src/pg_ledger/suspension.rs] (the suspension
    rows, the lifecycle generations and the outbox of events, one transaction per
    method under the tenant's fence), the suspension cache of
    [crates/corelink-fabric-server/src/app.rs] on each instance, and the
    dispatcher of [crates/corelink-fabric-server/src/reaper.rs] that delivers the
    outbox. *)
From stdpp Require Import pretty.
From S2P Require Import Prelude Tenant ComputeMeter Journal Decimal.

(** ** The tables *)

(** A row of [tenant_suspension_events], by [event_id]. *)
Record EventRow : Type := mkEventRow {
  e_tenant : string;
  e_created_at_ms : Z;
  e_attempts : Z;
  e_delivered_at_ms : option Z;
  e_generation : Z;
}.

(** [fabric_suspended_tenants] (the pointer to the event, nullable),
    [tenant_suspension_events], [tenant_lifecycle_generations] and the event
    sequence. *)
Record SuspensionTables : Type := mkSuspension {
  suspended_tenants : gmap string (option string);
  suspension_events : gmap string EventRow;
  lifecycle_generations : gmap string Z;
  event_seq : Z;
}.

Definition susp_empty : SuspensionTables := mkSuspension ∅ ∅ ∅ 0.

Definition with_suspended f db := mkSuspension (f (suspended_tenants db)) (suspension_events db)
  (lifecycle_generations db) (event_seq db).
Definition with_events f db := mkSuspension (suspended_tenants db) (f (suspension_events db))
  (lifecycle_generations db) (event_seq db).
Definition with_generations f db := mkSuspension (suspended_tenants db) (suspension_events db)
  (f (lifecycle_generations db)) (event_seq db).
Definition with_seq f db := mkSuspension (suspended_tenants db) (suspension_events db)
  (lifecycle_generations db) (f (event_seq db)).

Record TenantSuspensionEvent : Type := mkSuspensionEvent {
  event_id : string;
  ev_tenant_id : string;
  ev_created_at_ms : Z;
  ev_attempts : Z;
}.

Record TenantLifecycle : Type := mkTenantLifecycle {
  lc_tenant_id : string;
  lc_generation : Z;
  lc_suspended : bool;
}.

Inductive SuspensionError : Type :=
| EmptyTenant
| EmptyEventId
| CreatedOverflow
| AttemptsOverflow
| NegativeGeneration
| MissingOutboxEvent
| CrossTenantPointer
| GenerationDisagrees
| GenerationOverflow
| SequenceExhausted
| DuplicateEvent
| UnknownEvent
| IntegerOutOfRange.

Abbreviation SM := (M SuspensionTables SuspensionError).

(** ** The producer *)

Definition validate_tenant (t : string) : result SuspensionError unit :=
  if is_blank t then Err EmptyTenant else Ok ().

Definition validate_event (ev : TenantSuspensionEvent) : result SuspensionError unit :=
  validate_tenant (ev_tenant_id ev) ≫= λ _,
  if is_blank (event_id ev) then Err EmptyEventId
  else if I64_MAX <? ev_created_at_ms ev then Err CreatedOverflow
  else if I32_MAX <? ev_attempts ev then Err AttemptsOverflow
  else Ok ().

(** [ensure_generation]: the tenant's generation, written on first use. *)
Definition ensure_generation (t : string) (is_suspended : bool) (db : SuspensionTables)
  : result SuspensionError (SuspensionTables * Z) :=
  match lifecycle_generations db !! t with
  | Some g => if g <? 0 then Err NegativeGeneration else Ok (db, g)
  | None => let g := if is_suspended then 0 else 1 in Ok (with_generations <[t := g]> db, g)
  end.

(** [format!("{prefix}:epoch:{sequence}")]. *)
Definition epoch_id (prefix : string) (seq : Z) : string :=
  prefix +:+ ":epoch:" +:+ pretty (Z.to_N seq).

(** [next_event_id], [insert_event] and the pointer write.  A sequence value is
    taken even when the transaction fails afterwards. *)
Definition append_event (ev : TenantSuspensionEvent) (generation : Z) (db0 db : SuspensionTables)
  : SuspensionTables * result SuspensionError unit :=
  if I64_MAX <=? event_seq db then (db0, Err SequenceExhausted)
  else
    let seq := event_seq db + 1 in
    let generated := epoch_id (event_id ev) seq in
    match suspension_events db !! generated with
    | Some _ => (with_seq (λ _, seq) db0, Err DuplicateEvent)
    | None =>
      (with_suspended <[ev_tenant_id ev := Some generated]>
         (with_events <[generated := mkEventRow (ev_tenant_id ev) (ev_created_at_ms ev) (ev_attempts ev) None generation]>
           (with_seq (λ _, seq) db)), Ok ())
    end.

(** [record_tenant_suspension_pg]. *)
Definition record_tenant_suspension (ev : TenantSuspensionEvent) : SM unit := λ db,
  match validate_event ev with
  | Err e => (db, Err e)
  | Ok _ =>
    let current := suspended_tenants db !! ev_tenant_id ev in
    match ensure_generation (ev_tenant_id ev) (bool_decide (is_Some current)) db with
    | Err e => (db, Err e)
    | Ok (db1, generation) =>
      match current with
      | Some (Some pointer) =>
        match suspension_events db1 !! pointer with
        | None => (db, Err MissingOutboxEvent)
        | Some row =>
          if negb (bool_decide (e_tenant row = ev_tenant_id ev)) then (db, Err CrossTenantPointer)
          else if negb (e_generation row =? generation) then (db, Err GenerationDisagrees)
          else (db1, Ok ())
        end
      | Some None => append_event ev generation db db1
      | None => append_event ev generation db db1
      end
    end
  end.

(** [set_tenant_suspended_pg]. *)
Definition set_tenant_suspended (t : string) (suspend : bool) : SM unit := λ db,
  match validate_tenant t with
  | Err e => (db, Err e)
  | Ok _ =>
    let currently := bool_decide (is_Some (suspended_tenants db !! t)) in
    match ensure_generation t currently db with
    | Err e => (db, Err e)
    | Ok (db1, generation) =>
      if suspend then
        (if currently then db1 else with_suspended <[t := None]> db1, Ok ())
      else if currently then
        if I64_MAX <? generation + 1 then (db, Err GenerationOverflow)
        else (with_suspended (delete t) (with_generations <[t := generation + 1]> db1), Ok ())
      else (with_suspended (delete t) db1, Ok ())
    end
  end.

(** [tenant_lifecycle_pg]. *)
Definition tenant_lifecycle (t : string) : SM TenantLifecycle := λ db,
  match validate_tenant t with
  | Err e => (db, Err e)
  | Ok _ =>
    let currently := bool_decide (is_Some (suspended_tenants db !! t)) in
    match ensure_generation t currently db with
    | Err e => (db, Err e)
    | Ok (db1, generation) => (db1, Ok (mkTenantLifecycle t generation currently))
    end
  end.

(** [is_tenant_suspended_durable]. *)
Definition is_tenant_suspended_durable (db : SuspensionTables) (t : string) : bool :=
  bool_decide (is_Some (suspended_tenants db !! t)).

(** ** The outbox *)

(** [tenant_suspension_generation_pg]. *)
Definition tenant_suspension_generation (db : SuspensionTables) (id : string) : result SuspensionError Z :=
  if is_blank id then Err EmptyEventId
  else match suspension_events db !! id with
       | None => Err UnknownEvent
       | Some row => if e_generation row <? 0 then Err NegativeGeneration else Ok (e_generation row)
       end.

Definition set_delivery (row : EventRow) (attempts : Z) (delivered : option Z) : EventRow :=
  mkEventRow (e_tenant row) (e_created_at_ms row) attempts delivered (e_generation row).

(** [mark_tenant_suspension_event_delivered_pg] at the database's clock. *)
Definition mark_delivered (now : Z) (id : string) : SM unit := λ db,
  match suspension_events db !! id with
  | Some row =>
    match e_delivered_at_ms row with
    | None => (with_events <[id := set_delivery row (e_attempts row) (Some now)]> db, Ok ())
    | Some _ => (db, Ok ())
    end
  | None => (db, Ok ())
  end.

(** [mark_tenant_suspension_event_attempt_pg]; the column is an [int]. *)
Definition mark_attempt (id : string) : SM unit := λ db,
  match suspension_events db !! id with
  | Some row =>
    match e_delivered_at_ms row with
    | None =>
      if I32_MAX <? e_attempts row + 1 then (db, Err IntegerOutOfRange)
      else (with_events <[id := set_delivery row (e_attempts row + 1) None]> db, Ok ())
    | Some _ => (db, Ok ())
    end
  | None => (db, Ok ())
  end.

(** [pending_tenant_suspension_events_pg]: undelivered, oldest first.  Rows of
    the same age come in the order of the table. *)
Definition older (a b : string * EventRow) : Prop := e_created_at_ms a.2 ≤ e_created_at_ms b.2.
#[export] Instance older_dec : RelDecision older.
Proof. intros a b. unfold older. apply _. Defined.

Definition event_of_row (kr : string * EventRow) : TenantSuspensionEvent :=
  mkSuspensionEvent kr.1 (e_tenant kr.2) (as_u64 (e_created_at_ms kr.2)) (Z.max (e_attempts kr.2) 0).

Definition pending_events (db : SuspensionTables) (limit : nat) : list TenantSuspensionEvent :=
  event_of_row <$> take (Nat.min limit 1000)
    (merge_sort older (filter (λ kr, e_delivered_at_ms kr.2 = None) (map_to_list (suspension_events db)))).

(** ** The dispatcher *)

Definition MAX_SUSPENSION_RECEIPT_BYTES : nat := 4096.

Section dispatch.

(** [serde_json::from_slice]. *)
Context (from_slice : string → option Value).

(** The entries of a JSON object, each key once. *)
Definition object_len (fields : list (string * Value)) : nat := length (remove_dups fields.*1).

(** [suspension_receipt_is_ack]. *)
Definition suspension_receipt_is_ack (status : Z) (body id t generation : string) : bool :=
  if negb (status =? 200) || negb (Nat.leb (String.length body) MAX_SUSPENSION_RECEIPT_BYTES) then false
  else
    match from_slice body with
    | Some (JObject fields) =>
      let v := JObject fields in
      Nat.eqb (object_len fields) 4 &&
      bool_decide (Decimal.get v "event_id" ≫= as_string = Some id) &&
      bool_decide (Decimal.get v "tenant_id" ≫= as_string = Some t) &&
      bool_decide (Decimal.get v "lifecycle_generation" ≫= as_string = Some generation) &&
      bool_decide (Decimal.get v "complete" ≫= as_bool = Some true)
    | _ => false
    end.

(** The Worker: a reply to the envelope of an event, or none. *)
Context (post : TenantSuspensionEvent → Z → option (Z * string)).

(** One turn of the loop of [dispatch_tenant_suspension_events]. *)
Definition dispatch_event (now : Z) (db : SuspensionTables) (ev : TenantSuspensionEvent) : SuspensionTables :=
  match tenant_suspension_generation db (event_id ev) with
  | Err _ => db
  | Ok generation =>
    if I64_MAX <? generation then db
    else
      match mark_attempt (event_id ev) db with
      | (db1, Err _) => db1
      | (db1, Ok _) =>
        let delivered :=
          match post ev generation with
          | Some (status, body) =>
            suspension_receipt_is_ack status body (event_id ev) (ev_tenant_id ev) (pretty (Z.to_N generation))
          | None => false
          end in
        if delivered then (mark_delivered now (event_id ev) db1).1 else db1
      end
  end.

(** [dispatch_tenant_suspension_events], with its configuration present. *)
Definition dispatch_suspension_events (now : Z) (db : SuspensionTables) : SuspensionTables :=
  foldl (dispatch_event now) db (pending_events db 32).

End dispatch.

(** ** The instances *)

(** What [AppState] keeps for suspension: the cache and the shard count. *)
Record Instance_ : Type := mkInstance {
  cached : gset string;
  num_shards : Z;
}.

(** A fresh [AppState], then [set_boot_num_shards]. *)
Definition boot (env_num_shards : Z) : Instance_ := mkInstance ∅ (Z.max env_num_shards 1).

Definition observe_shard (n : Z) (i : Instance_) : Instance_ := mkInstance (cached i) (Z.max n 1).

(** [record_tenant_suspension_event]'s event. *)
Definition suspension_event (t : string) (now : Z) : TenantSuspensionEvent :=
  mkSuspensionEvent ("tenant-suspended:" +:+ t +:+ ":" +:+ pretty (Z.to_N now)) t now 0.

Abbreviation AM := (M (SuspensionTables * Instance_) SuspensionError).

(** [suspend_tenant_with_event], [unsuspend_tenant]: the cache follows the
    durable write, under the cache's lock. *)
Definition suspend_tenant_with_event (t : string) (now : Z) : AM bool := λ st,
  match record_tenant_suspension (suspension_event t now) st.1 with
  | (db, Err e) => ((db, st.2), Err e)
  | (db, Ok _) => ((db, mkInstance ({[t]} ∪ cached st.2) (num_shards st.2)), Ok (bool_decide (t ∉ cached st.2)))
  end.

Definition unsuspend_tenant (t : string) : AM bool := λ st,
  match set_tenant_suspended t false st.1 with
  | (db, Err e) => ((db, st.2), Err e)
  | (db, Ok _) => ((db, mkInstance (cached st.2 ∖ {[t]}) (num_shards st.2)), Ok (bool_decide (t ∈ cached st.2)))
  end.

(** [is_tenant_suspended]; [reachable] says whether the durable read succeeds. *)
Definition is_tenant_suspended (db : SuspensionTables) (i : Instance_) (reachable : bool) (t : string) : bool :=
  bool_decide (t ∈ cached i) ||
  ((1 <? num_shards i) && reachable && is_tenant_suspended_durable db t).
