(* ===== verification/SuspensionProofs.v ===== *)
(** * Suspension: the outbox and the instances

    Theorems on [Suspension]: the outbox holds exactly one event per suspension,
    delivery follows an acknowledgement, and a suspension is seen by every
    instance of a sharded deployment. *)
From stdpp Require Import pretty.
From S2P Require Import Prelude Tenant ComputeMeter Journal Decimal Suspension.

(** ** Event ids *)

(** The part after the last colon is determined by the whole. *)
Lemma last_part_unique p p' d d' :
  has_byte ":" d = false → has_byte ":" d' = false →
  p +:+ String ":" d = p' +:+ String ":" d' → d = d'.
Proof.
  assert (∀ q e, has_byte ":" (q +:+ String ":" e) = true) as Hc.
  { intros q e. rewrite has_byte_app. apply orb_true_r. }
  revert p'. induction p as [|a p IH]; intros [|a' p'] Hd Hd' H; injection H; try done.
  - intros -> _. by rewrite Hc in Hd.
  - intros <- _. by rewrite Hc in Hd'.
  - intros H' _. eauto.
Qed.

Lemma pretty_go_no_colon n s : has_byte ":" s = false → has_byte ":" (pretty_N_go n s) = false.
Proof.
  revert s. induction (N.lt_wf_0 n) as [n _ IH]; intros s Hs.
  destruct (decide (0 < n)%N) as [Hn|]; [|by assert (n = 0%N) as -> by lia].
  rewrite pretty_N_go_step by done. apply IH; [by apply N.div_lt|].
  cbn. rewrite Hs, orb_false_r. apply bool_decide_false.
  unfold pretty_N_char. repeat case_match; congruence.
Qed.

Lemma pretty_no_colon (n : N) : has_byte ":" (pretty n) = false.
Proof.
  unfold pretty, pretty_N. case_decide; [done|]. by apply pretty_go_no_colon.
Qed.

Lemma epoch_id_inj p p' k k' : 0 ≤ k → 0 ≤ k' → epoch_id p k = epoch_id p' k' → k = k'.
Proof.
  intros Hk Hk' H. unfold epoch_id in H.
  assert (∀ (p d : string), p +:+ ":epoch:" +:+ d = (p +:+ ":epoch") +:+ String ":" d) as Hs.
  { intros q d. by rewrite string_app_assoc. }
  rewrite !Hs in H. apply last_part_unique in H; [|apply pretty_no_colon..].
  apply (inj pretty) in H. lia.
Qed.

(** ** The invariant of the tables *)

Record susp_wf (db : SuspensionTables) : Prop := {
  sw_seq : 0 ≤ event_seq db;
  sw_ids id row : suspension_events db !! id = Some row →
    ∃ prefix k, id = epoch_id prefix k ∧ 0 ≤ k ≤ event_seq db;
  sw_known t : is_Some (suspended_tenants db !! t) → is_Some (lifecycle_generations db !! t);
  sw_range t g : lifecycle_generations db !! t = Some g → 0 ≤ g ≤ I64_MAX;
  sw_pointer t id : suspended_tenants db !! t = Some (Some id) →
    ∃ row, suspension_events db !! id = Some row ∧ e_tenant row = t ∧
      lifecycle_generations db !! t = Some (e_generation row);
  sw_past id row : suspension_events db !! id = Some row →
    ∃ g, lifecycle_generations db !! e_tenant row = Some g ∧ 0 ≤ e_generation row ≤ g ∧
      (e_generation row = g → suspended_tenants db !! e_tenant row = Some (Some id));
  sw_unique id id' row row' : suspension_events db !! id = Some row → suspension_events db !! id' = Some row' →
    e_tenant row = e_tenant row' → e_generation row = e_generation row' → id = id';
}.

Lemma susp_empty_wf : susp_wf susp_empty.
Proof.
  split; cbn; try done; intros *; rewrite ?lookup_empty; try done.
Qed.

(** ** The operations *)

Lemma ensure_ok db t b :
  susp_wf db → b = bool_decide (is_Some (suspended_tenants db !! t)) →
  ∃ db1 g, ensure_generation t b db = Ok (db1, g) ∧ susp_wf db1 ∧ lifecycle_generations db1 !! t = Some g ∧
    suspended_tenants db1 = suspended_tenants db ∧ suspension_events db1 = suspension_events db ∧
    event_seq db1 = event_seq db ∧
    (∀ t' g', lifecycle_generations db !! t' = Some g' → lifecycle_generations db1 !! t' = Some g').
Proof.
  intros Hwf ->. unfold ensure_generation. destruct (lifecycle_generations db !! t) as [g|] eqn:Hg.
  { destruct (Z.ltb_spec g 0); [apply sw_range in Hg; [lia|done]|]. eexists _, _. by split_and!. }
  rewrite bool_decide_false; [|intros [? ?]%(sw_known _ Hwf); congruence].
  eexists _, _. split; [done|]. split; [|split_and!; try done; [by cbn; rewrite lookup_insert_eq|]]; cycle 1.
  { intros t' g' Ht'. cbn. rewrite lookup_insert_ne; [done|congruence]. }
  destruct Hwf as [H1 H2 H3 H4 H5 H6 H7]. split; cbn; try done.
  - intros t' Ht'. rewrite lookup_insert_is_Some'. eauto.
  - intros t' g' [[_ <-]|[_ ?]]%lookup_insert_Some; [unfold I64_MAX; lia|eauto].
  - intros t' id Hp. destruct (H5 t' id Hp) as (row & ? & ? & ?). exists row. split_and!; [done..|].
    rewrite lookup_insert_ne; [done|congruence].
  - intros id row Hr. destruct (H6 id row Hr) as (g' & ? & ? & ?). exists g'. split_and!; try done; try lia.
    rewrite lookup_insert_ne; [done|congruence].
Qed.

(** The next event of a suspension that has none yet. *)
Lemma append_ok ev g db0 db :
  susp_wf db → lifecycle_generations db !! ev_tenant_id ev = Some g → event_seq db < I64_MAX →
  (∀ id, suspended_tenants db !! ev_tenant_id ev ≠ Some (Some id)) →
  ∃ db' id row, append_event ev g db0 db = (db', Ok ()) ∧ susp_wf db' ∧
    suspended_tenants db' !! ev_tenant_id ev = Some (Some id) ∧ suspension_events db' !! id = Some row ∧
    e_tenant row = ev_tenant_id ev ∧ e_generation row = g ∧ e_delivered_at_ms row = None ∧
    lifecycle_generations db' = lifecycle_generations db.
Proof.
  intros Hwf Hg Hseq Hp. pose proof (sw_seq _ Hwf) as Hs0. unfold append_event.
  destruct (Z.leb_spec I64_MAX (event_seq db)); [lia|].
  set (id := epoch_id _ _). destruct (suspension_events db !! id) as [row|] eqn:Hid.
  { destruct (sw_ids _ Hwf _ _ Hid) as (p & k & Hk & Hr). apply epoch_id_inj in Hk; lia. }
  eexists _, id, _. split; [done|]. split; cycle 1.
  { cbn. by rewrite !lookup_insert_eq. }
  destruct Hwf as [H1 H2 H3 H4 H5 H6 H7].
  assert (∀ id' row', suspension_events db !! id' = Some row' → id' ≠ id) as Hne by (intros ?? ? ->; congruence).
  assert (∀ id' row', suspension_events db !! id' = Some row' → e_tenant row' = ev_tenant_id ev → e_generation row' ≠ g)
    as Hold.
  { intros id' row' Hr Ht <-. destruct (H6 _ _ Hr) as (g' & Hg' & _ & Hpt). rewrite Ht in *.
    simplify_eq. by apply (Hp id'), Hpt. }
  split; cbn; try done; [lia|..].
  - intros id' row' [[<- <-]|[_ Hr]]%lookup_insert_Some; [eexists _, _; split; [done|lia]|].
    destruct (H2 _ _ Hr) as (p & k & -> & ?). eexists _, _. split; [done|lia].
  - intros t'. rewrite lookup_insert_is_Some'. intros [<-|?]; [by rewrite Hg|by apply H3].
  - intros t' id'. rewrite lookup_insert_Some. intros [[<- [= <-]]|[_ Hpt]].
    + eexists. by rewrite lookup_insert_eq.
    + destruct (H5 _ _ Hpt) as (row' & Hr & ? & ?). exists row'. rewrite lookup_insert_ne by (apply not_eq_sym; eauto). done.
  - intros id' row' [[<- <-]|[_ Hr]]%lookup_insert_Some; cbn.
    + exists g. rewrite lookup_insert_eq. pose proof (H4 _ _ Hg). split_and!; done || lia.
    + destruct (H6 _ _ Hr) as (g' & Hg' & Hle & Hpt). exists g'. split_and!; try done; try lia.
      intros Heq. destruct (decide (ev_tenant_id ev = e_tenant row')) as [Ht|].
      * exfalso. apply (Hold _ _ Hr (eq_sym Ht)). rewrite Heq. rewrite <-Ht in Hg'. congruence.
      * rewrite lookup_insert_ne by done. auto.
  - intros id1 id2 row1 row2 [[<- <-]|[_ Hr1]]%lookup_insert_Some [[<- <-]|[_ Hr2]]%lookup_insert_Some; cbn; try done.
    + intros Ht Hge. by destruct (Hold _ _ Hr2 (eq_sym Ht)).
    + intros Ht Hge. by destruct (Hold _ _ Hr1 Ht).
    + eauto.
Qed.

Lemma record_succeeds db ev :
  susp_wf db → validate_event ev = Ok () → event_seq db < I64_MAX →
  ∃ db' id row, record_tenant_suspension ev db = (db', Ok ()) ∧ susp_wf db' ∧
    suspended_tenants db' !! ev_tenant_id ev = Some (Some id) ∧ suspension_events db' !! id = Some row ∧
    e_tenant row = ev_tenant_id ev ∧ lifecycle_generations db' !! ev_tenant_id ev = Some (e_generation row) ∧
    (∀ id0, suspended_tenants db !! ev_tenant_id ev = Some (Some id0) →
      suspension_events db' = suspension_events db).
Proof.
  intros Hwf Hv Hseq. unfold record_tenant_suspension. rewrite Hv.
  destruct (ensure_ok db (ev_tenant_id ev) _ Hwf eq_refl) as (db1 & g & -> & Hwf1 & Hg & Hs & He & Hq & _).
  rewrite <-Hs, <-He.
  destruct (suspended_tenants db1 !! ev_tenant_id ev) as [[id|]|] eqn:Hp; cycle 1.
  1,2: destruct (append_ok ev g db db1 Hwf1 Hg) as (db' & id & row & -> & ? & ? & ? & ? & Hge & _ & Hl);
    [by rewrite Hq|intros ? ?; congruence|]; exists db', id, row; split_and!; try done; rewrite Hl; congruence.
  destruct (sw_pointer _ Hwf1 _ _ Hp) as (row & Hr & Ht & Hge). rewrite Hr, bool_decide_true by done.
  assert (e_generation row = g) as -> by congruence. rewrite Z.eqb_refl. cbn. eexists _, id, row. by split_and!.
Qed.

Lemma record_wf db ev : susp_wf db → susp_wf (record_tenant_suspension ev db).1.
Proof.
  intros Hwf. destruct (validate_event ev) as [[]|] eqn:Hv;
    [|by unfold record_tenant_suspension; rewrite Hv].
  destruct (Z.ltb_spec (event_seq db) I64_MAX) as [Hs|Hs].
  { by destruct (record_succeeds db ev) as (db' & id & row & -> & ? & _). }
  unfold record_tenant_suspension. rewrite Hv.
  destruct (ensure_ok db (ev_tenant_id ev) _ Hwf eq_refl) as (db1 & g & -> & ? & _ & _ & _ & Hq & _).
  assert (append_event ev g db db1 = (db, Err SequenceExhausted)) as Ha.
  { unfold append_event. by rewrite Hq, (proj2 (Z.leb_le _ _)). }
  rewrite Ha. repeat case_match; done.
Qed.

Lemma delete_pointer_wf db t g :
  susp_wf db → lifecycle_generations db !! t = Some g → g + 1 ≤ I64_MAX →
  susp_wf (with_suspended (delete t) (with_generations <[t := g + 1]> db)).
Proof.
  intros [H1 H2 H3 H4 H5 H6 H7] Hg Hmax. split; cbn; try done.
  - intros t' [x [_ Hx]%lookup_delete_Some]. rewrite lookup_insert_is_Some'. eauto.
  - intros t' g' [[<- <-]|[_ ?]]%lookup_insert_Some; [pose proof (H4 _ _ Hg); lia|eauto].
  - intros t' id [Hn Hp]%lookup_delete_Some. destruct (H5 _ _ Hp) as (row & ? & ? & ?). exists row.
    by rewrite lookup_insert_ne.
  - intros id row Hr. destruct (H6 _ _ Hr) as (g' & Hg' & Hle & Hpt).
    destruct (decide (t = e_tenant row)) as [->|Hn].
    + exists (g + 1). rewrite lookup_insert_eq. simplify_eq. split_and!; try done; lia.
    + exists g'. rewrite lookup_insert_ne, lookup_delete_ne by done. split_and!; try done; lia.
Qed.

Lemma set_wf db t b : susp_wf db → susp_wf (set_tenant_suspended t b db).1.
Proof.
  intros Hwf. unfold set_tenant_suspended. destruct (validate_tenant t); [|done].
  destruct (ensure_ok db t _ Hwf eq_refl) as (db1 & g & -> & Hwf1 & Hg & Hs & _).
  destruct b; [|case_bool_decide as Hc; [destruct (Z.ltb_spec I64_MAX (g + 1)); [done|by apply delete_pointer_wf]|]].
  - case_bool_decide as Hc; [done|]. rewrite <-Hs in Hc. destruct Hwf1 as [H1 H2 H3 H4 H5 H6 H7]. split; cbn; try done.
    + intros t'. rewrite lookup_insert_is_Some'. intros [<-|?]; eauto.
    + intros t' id [[_ [=]]|[_ ?]]%lookup_insert_Some. eauto.
    + intros id row Hr. destruct (H6 _ _ Hr) as (g' & ? & ? & Hpt). exists g'. split_and!; try done; try lia.
      intros Heq. rewrite lookup_insert_ne; [auto|]. intros ->. apply Hc. rewrite Hpt by done. eauto.
  - assert (with_suspended (delete t) db1 = db1) as ->; [|done].
    rewrite <-Hs in Hc. destruct db1 as [sus evs gens seq]. unfold with_suspended. cbn in *.
    rewrite delete_id; [done|]. by apply eq_None_not_Some.
Qed.

Lemma touch_wf db id row a d :
  susp_wf db → suspension_events db !! id = Some row →
  susp_wf (with_events <[id := set_delivery row a d]> db).
Proof.
  intros [H1 H2 H3 H4 H5 H6 H7] Hr.
  assert (∀ id' row', <[id := set_delivery row a d]> (suspension_events db) !! id' = Some row' →
    ∃ row0, suspension_events db !! id' = Some row0 ∧ e_tenant row0 = e_tenant row' ∧ e_generation row0 = e_generation row')
    as Hold.
  { intros id' row' [[<- <-]|[_ ?]]%lookup_insert_Some; eauto. }
  split; cbn; try done.
  - intros id' row' (row0 & ? & _)%Hold. eauto.
  - intros t id' Hp. destruct (H5 _ _ Hp) as (row0 & ? & ? & ?). destruct (decide (id' = id)) as [->|].
    + exists (set_delivery row a d). rewrite lookup_insert_eq. simplify_eq. by split_and!.
    + exists row0. by rewrite lookup_insert_ne.
  - intros id' row' (row0 & Hr0 & <- & <-)%Hold. eauto.
  - intros id1 id2 r1 r2 (r1' & ? & <- & <-)%Hold (r2' & ? & <- & <-)%Hold. eauto.
Qed.

(** ** Runs *)

Inductive sop : Type :=
| SRecord (ev : TenantSuspensionEvent)
| SSet (t : string) (suspend : bool)
| SLifecycle (t : string)
| SDelivered (now : Z) (id : string)
| SAttempt (id : string).

Definition s_exec (db : SuspensionTables) (o : sop) : SuspensionTables :=
  match o with
  | SRecord ev => (record_tenant_suspension ev db).1
  | SSet t b => (set_tenant_suspended t b db).1
  | SLifecycle t => (tenant_lifecycle t db).1
  | SDelivered now id => (mark_delivered now id db).1
  | SAttempt id => (mark_attempt id db).1
  end.
Definition s_run (os : list sop) : SuspensionTables := foldl s_exec susp_empty os.

Lemma s_exec_wf db o : susp_wf db → susp_wf (s_exec db o).
Proof.
  intros Hwf. destruct o as [ev|t b|t|now id|id]; cbn; [by apply record_wf|by apply set_wf|..].
  - unfold tenant_lifecycle. case_match; [|done].
    by destruct (ensure_ok db t _ Hwf eq_refl) as (db1 & g & -> & ? & _).
  - unfold mark_delivered. destruct (suspension_events db !! id) as [row|] eqn:Hr; [|done].
    case_match; [done|]. by apply touch_wf.
  - unfold mark_attempt. destruct (suspension_events db !! id) as [row|] eqn:Hr; [|done].
    case_match; [done|]. case_match; [done|]. by apply touch_wf.
Qed.

Lemma s_run_wf os : susp_wf (s_run os).
Proof.
  unfold s_run. generalize susp_empty_wf. generalize susp_empty.
  induction os as [|o os IH]; intros db Hwf; [done|]. apply IH. by apply s_exec_wf.
Qed.

(** ** The outbox *)

Lemma lift_wf db t db' :
  susp_wf db → set_tenant_suspended t false db = (db', Ok ()) → susp_wf db' ∧ suspended_tenants db' !! t = None.
Proof.
  intros Hwf H. pose proof (set_wf db t false Hwf) as Hwf'. rewrite H in Hwf'. split; [done|].
  unfold set_tenant_suspended in H. repeat case_match; simplify_eq; cbn; by rewrite lookup_delete_eq.
Qed.

(** The outbox holds one event per suspension.  After any sequence of
    suspensions, lifts, lifecycle reads and delivery marks, recording a valid
    suspension succeeds and leaves the tenant pointing at an event of its own, of
    its current generation, the only one of that generation; recording it again
    writes no second event.  Lifting the suspension moves the tenant past the
    generation of every event written so far, so a late delivery of one of them
    cannot be taken for the next suspension. *)
Theorem outbox_exact os ev :
  let db := s_run os in
  validate_event ev = Ok () → event_seq db < I64_MAX →
  (∃ db' id row, record_tenant_suspension ev db = (db', Ok ()) ∧
    suspended_tenants db' !! ev_tenant_id ev = Some (Some id) ∧
    suspension_events db' !! id = Some row ∧ e_tenant row = ev_tenant_id ev ∧
    lifecycle_generations db' !! ev_tenant_id ev = Some (e_generation row) ∧
    (∀ id' row', suspension_events db' !! id' = Some row' → e_tenant row' = e_tenant row →
      e_generation row' = e_generation row → id' = id) ∧
    (∀ id0, suspended_tenants db !! ev_tenant_id ev = Some (Some id0) → suspension_events db' = suspension_events db)) ∧
  ∀ db' id row, set_tenant_suspended (ev_tenant_id ev) false db = (db', Ok ()) →
    suspension_events db' !! id = Some row → e_tenant row = ev_tenant_id ev →
    ∃ g, lifecycle_generations db' !! ev_tenant_id ev = Some g ∧ e_generation row < g.
Proof.
  intros db Hv Hseq. pose proof (s_run_wf os) as Hwf. fold db in Hwf. split.
  - destruct (record_succeeds db ev Hwf Hv Hseq) as (db' & id & row & Hr & Hwf' & Hp & He & Ht & Hg & Hsame).
    exists db', id, row. split_and!; try done. intros; by eapply sw_unique.
  - intros db' id row H Hr Ht. destruct (lift_wf _ _ _ Hwf H) as [Hwf' Hn].
    destruct (sw_past _ Hwf' _ _ Hr) as (g & Hg & Hle & Hp). rewrite Ht in *. exists g. split; [done|].
    destruct (decide (e_generation row = g)) as [Heq|]; [|lia]. rewrite Hp in Hn by done. done.
Qed.

(** ** Delivery *)

Lemma not_colon c s : byte c ≠ 58 → has_byte ":" (String c s) = has_byte ":" s.
Proof. intros Hc. cbn. rewrite bool_decide_false; [done|]. by intros ->. Qed.

Lemma blank_no_colon s : is_blank s = true → has_byte ":" s = false.
Proof.
  remember (String.length s) as n eqn:Hn. revert s Hn.
  induction (lt_wf n) as [n _ IH]; intros s -> H.
  assert (∀ s', (String.length s' < String.length s)%nat → is_blank s' = true → has_byte ":" s' = false) as IH'.
  { intros s' Hlt. by apply (IH _ Hlt). }
  clear IH. destruct s as [|a s1]; [done|]. cbn [is_blank] in H. unfold in_range in H.
  destruct ((9 <=? byte a) && (byte a <=? 13) || (byte a =? 32)) eqn:Ha.
  { rewrite not_colon by lia. apply IH'; [cbn; lia|done]. }
  destruct s1 as [|b s2]; [done|].
  destruct ((byte a =? 194) && ((byte b =? 133) || (byte b =? 160))) eqn:Hb.
  { rewrite !not_colon by lia. apply IH'; [cbn; lia|done]. }
  destruct s2 as [|c s3]; [done|]. case_match eqn:Hc; [|done].
  rewrite !not_colon by lia. apply IH'; [cbn; lia|done].
Qed.

Lemma epoch_id_not_blank p k : is_blank (epoch_id p k) = false.
Proof.
  apply not_true_iff_false. intros H%blank_no_colon. unfold epoch_id in H.
  rewrite !has_byte_app in H. apply orb_false_elim in H as [_ H]. discriminate.
Qed.

Section delivery.
Context (from_slice : string → option Value) (post : TenantSuspensionEvent → Z → option (Z * string)).

(** The Worker's reply to this very event, tenant and generation. *)
Definition acked (ev : TenantSuspensionEvent) (generation : Z) : bool :=
  match post ev generation with
  | Some (status, body) => suspension_receipt_is_ack from_slice status body (event_id ev) (ev_tenant_id ev)
                             (pretty (Z.to_N generation))
  | None => false
  end.

(** An event row after its turn. *)
Definition settled (now : Z) (id : string) (row : EventRow) : EventRow :=
  set_delivery row (e_attempts row + 1)
    (if acked (event_of_row (id, row)) (e_generation row) then Some now else None).

(** Rows the outbox can stamp: the attempts column has room. *)
Definition stampable (row : EventRow) : Prop := e_attempts row < I32_MAX.
#[global] Instance stampable_dec row : Decision (stampable row).
Proof. unfold stampable. apply _. Defined.

Lemma row_generation db id row :
  susp_wf db → suspension_events db !! id = Some row →
  tenant_suspension_generation db id = Ok (e_generation row) ∧ (I64_MAX <? e_generation row) = false.
Proof.
  intros Hwf Hr. destruct (sw_past _ Hwf _ _ Hr) as (g & Hg & Hle & _).
  pose proof (sw_range _ Hwf _ _ Hg). destruct (sw_ids _ Hwf _ _ Hr) as (p & k & -> & _).
  unfold tenant_suspension_generation. rewrite epoch_id_not_blank, Hr.
  destruct (Z.ltb_spec (e_generation row) 0); [lia|]. split; [done|]. apply Z.ltb_ge. lia.
Qed.

Lemma dispatch_event_row now db ev row :
  susp_wf db → suspension_events db !! event_id ev = Some row → e_delivered_at_ms row = None → stampable row →
  dispatch_event from_slice post now db ev =
    with_events <[event_id ev := set_delivery row (e_attempts row + 1)
                    (if acked ev (e_generation row) then Some now else None)]> db.
Proof.
  intros Hwf Hr Hd Hs. unfold dispatch_event. destruct (row_generation db _ row Hwf Hr) as [-> ->].
  unfold mark_attempt. rewrite Hr, Hd. destruct (Z.ltb_spec I32_MAX (e_attempts row + 1)); [unfold stampable in Hs; lia|].
  fold (acked ev (e_generation row)). destruct (acked ev (e_generation row)); [|done].
  unfold mark_delivered. cbn. rewrite lookup_insert_eq. cbn. unfold with_events. cbn. by rewrite insert_insert_eq.
Qed.

Lemma dispatch_all_rows now (l : list (string * EventRow)) : ∀ db,
  susp_wf db → NoDup l.*1 →
  Forall (λ kr, suspension_events db !! kr.1 = Some kr.2 ∧ e_delivered_at_ms kr.2 = None ∧ stampable kr.2) l →
  ∀ id, suspension_events (foldl (dispatch_event from_slice post now) db (event_of_row <$> l)) !! id =
    if decide (id ∈ l.*1) then settled now id <$> suspension_events db !! id else suspension_events db !! id.
Proof.
  induction l as [|[k row] l IH]; intros db Hwf Hnd Hl id; [done|].
  apply Forall_cons in Hl as [(Hr & Hd & Hs) Hl]. rewrite !fmap_cons in *. apply NoDup_cons in Hnd as [Hk Hnd].
  cbn [foldl fst snd] in *. rewrite (dispatch_event_row now db (event_of_row (k, row)) row Hwf Hr Hd Hs).
  change (event_id (event_of_row (k, row))) with k.
  change (set_delivery row _ _) with (settled now k row).
  rewrite IH; [|by apply touch_wf|done|]; cycle 1.
  { apply Forall_forall. intros [k' r'] Hin. rewrite Forall_forall in Hl. destruct (Hl _ Hin) as (? & ? & ?).
    cbn in *. rewrite lookup_insert_ne; [done|]. intros <-. apply Hk. by apply (list_elem_of_fmap_2 fst _ (k, r')). }
  cbn [suspension_events with_events]. destruct (decide (id = k)) as [->|Hne].
  - rewrite decide_False, decide_True, lookup_insert_eq, Hr by (done || set_solver). done.
  - rewrite lookup_insert_ne by done. destruct (decide (id ∈ l.*1)).
    + by rewrite decide_True by set_solver.
    + by rewrite decide_False by set_solver.
Qed.

(** The batch the dispatcher takes. *)
Definition batch (db : SuspensionTables) : list (string * EventRow) :=
  take 32 (merge_sort older (filter (λ kr, e_delivered_at_ms kr.2 = None) (map_to_list (suspension_events db)))).

Lemma batch_sub db kr :
  kr ∈ batch db → suspension_events db !! kr.1 = Some kr.2 ∧ e_delivered_at_ms kr.2 = None.
Proof.
  intros (i & Hin%list_elem_of_lookup_2 & _)%elem_of_take. rewrite merge_sort_Permutation, list_elem_of_filter in Hin.
  destruct kr as [k row], Hin as [? ?%elem_of_map_to_list]. done.
Qed.

Lemma batch_nodup db : NoDup (batch db).*1.
Proof.
  apply NoDup_fmap_fst.
  - intros k r1 r2 [H1 _]%batch_sub [H2 _]%batch_sub. cbn in *. congruence.
  - eapply sublist_NoDup; [|apply sublist_take]. rewrite merge_sort_Permutation.
    apply NoDup_filter, NoDup_map_to_list.
Qed.

Lemma dispatch_frame now evs : ∀ db,
  suspended_tenants (foldl (dispatch_event from_slice post now) db evs) = suspended_tenants db ∧
  lifecycle_generations (foldl (dispatch_event from_slice post now) db evs) = lifecycle_generations db.
Proof.
  assert (∀ db ev, suspended_tenants (dispatch_event from_slice post now db ev) = suspended_tenants db ∧
    lifecycle_generations (dispatch_event from_slice post now db ev) = lifecycle_generations db) as H1.
  { intros db ev. unfold dispatch_event, mark_attempt, mark_delivered. repeat (case_match; simplify_eq; cbn); done. }
  induction evs as [|ev evs IH]; intros db; [done|]. cbn. destruct (IH (dispatch_event from_slice post now db ev)) as [-> ->].
  apply H1.
Qed.

(** Delivery is exact.  One pass of the dispatcher over well-formed tables
    changes only the rows of its batch of at most 32 undelivered events, and in
    those only the delivery columns: each is charged one attempt and becomes
    delivered exactly when the Worker answered 200 with a receipt of four fields
    that names this event, this tenant and this generation as complete.  Anything
    else (no answer, another status, an oversized or unparseable body, a receipt
    for another event) leaves the event pending for the next pass. *)
Theorem delivery_exact now db :
  susp_wf db → map_Forall (λ _, stampable) (suspension_events db) →
  let db' := dispatch_suspension_events from_slice post now db in
  (length (batch db) ≤ 32)%nat ∧ suspended_tenants db' = suspended_tenants db ∧
  lifecycle_generations db' = lifecycle_generations db ∧
  ∀ id, suspension_events db' !! id =
    if decide (id ∈ (batch db).*1) then
      (λ row, mkEventRow (e_tenant row) (e_created_at_ms row) (e_attempts row + 1)
        (match post (event_of_row (id, row)) (e_generation row) with
         | Some (status, body) =>
           if suspension_receipt_is_ack from_slice status body id (e_tenant row) (pretty (Z.to_N (e_generation row)))
           then Some now else None
         | None => None
         end) (e_generation row)) <$> suspension_events db !! id
    else suspension_events db !! id.
Proof.
  intros Hwf Hst db'. split; [unfold batch; rewrite length_take; lia|].
  destruct (dispatch_frame now (pending_events db 32) db) as [Hs Hg]. split_and!; [exact Hs|exact Hg|].
  intros id. unfold db', dispatch_suspension_events, pending_events.
  change (take (Nat.min 32 1000) _) with (batch db). rewrite dispatch_all_rows; [|done|apply batch_nodup|].
  - case_decide; [|done]. destruct (suspension_events db !! id) as [row|]; [|done]. cbn. f_equal.
    unfold settled, acked, set_delivery. f_equal. by destruct (post _ _) as [[]|].
  - apply Forall_forall. intros kr [Hr Hd]%batch_sub. split_and!; [done..|]. by eapply Hst.
Qed.

End delivery.

(** ** The instances of a deployment *)

(** A deployment: the shared tables and the instances, by shard. *)
Record Cluster : Type := mkCluster {
  tables : SuspensionTables;
  instances : gmap Z Instance_;
}.

Definition instance_at (c : Cluster) (i : Z) : Instance_ := default (boot 1) (instances c !! i).

Definition on_instance {A} (i : Z) (m : M (SuspensionTables * Instance_) SuspensionError A) (c : Cluster) : Cluster :=
  let st := (m (tables c, instance_at c i)).1 in mkCluster st.1 (<[i := st.2]> (instances c)).

Inductive cop : Type :=
| CSuspend (i : Z) (t : string) (now : Z)
| CUnsuspend (i : Z) (t : string)
| CObserve (i n : Z)
| CRestart (i env_num_shards : Z)
| CTables (o : sop).

Definition c_exec (c : Cluster) (o : cop) : Cluster :=
  match o with
  | CSuspend i t now => on_instance i (suspend_tenant_with_event t now) c
  | CUnsuspend i t => on_instance i (unsuspend_tenant t) c
  | CObserve i n => mkCluster (tables c) (<[i := observe_shard n (instance_at c i)]> (instances c))
  | CRestart i n => mkCluster (tables c) (<[i := boot n]> (instances c))
  | CTables o => mkCluster (s_exec (tables c) o) (instances c)
  end.
Definition c_run (os : list cop) (c : Cluster) : Cluster := foldl c_exec c os.

(** Does the operation lift the suspension of [t]? *)
Definition lifts (t : string) (o : cop) : Prop :=
  match o with
  | CUnsuspend _ t' => t' = t
  | CTables (SSet t' false) => t' = t
  | _ => False
  end.

Lemma ensure_suspended t b db db1 g :
  ensure_generation t b db = Ok (db1, g) → suspended_tenants db1 = suspended_tenants db.
Proof. unfold ensure_generation. by repeat case_match; intros; simplify_eq. Qed.

Lemma s_exec_keeps db o t :
  ¬ lifts t (CTables o) → is_Some (suspended_tenants db !! t) → is_Some (suspended_tenants (s_exec db o) !! t).
Proof.
  intros Hn Hs. assert (∀ t' (x : option string), is_Some (<[t' := x]> (suspended_tenants db) !! t)) as Hi.
  { intros. rewrite lookup_insert_is_Some'. by right. }
  destruct o as [ev|t' b|t'|now id|id]; cbn [s_exec].
  - unfold record_tenant_suspension. case_match; [|done]. destruct (ensure_generation _ _ _) as [[db1 g]|] eqn:He; [|done].
    apply ensure_suspended in He. unfold append_event. repeat (case_match; cbn); rewrite ?He; done || apply Hi.
  - unfold set_tenant_suspended. case_match; [|done]. destruct (ensure_generation _ _ _) as [[db1 g]|] eqn:He; [|done].
    apply ensure_suspended in He. destruct b; [case_match; cbn; rewrite ?He; done || apply Hi|].
    repeat (case_match; cbn); try done; rewrite lookup_delete_ne, ?He by done; done.
  - unfold tenant_lifecycle. case_match; [|done]. destruct (ensure_generation _ _ _) as [[db1 g]|] eqn:He; [|done].
    apply ensure_suspended in He. cbn. by rewrite He.
  - unfold mark_delivered. by repeat case_match.
  - unfold mark_attempt. by repeat case_match.
Qed.

Lemma record_suspends ev db db' :
  record_tenant_suspension ev db = (db', Ok ()) → is_Some (suspended_tenants db' !! ev_tenant_id ev).
Proof.
  unfold record_tenant_suspension. case_match; [|done].
  destruct (ensure_generation _ _ _) as [[db1 g]|] eqn:He; [|done]. apply ensure_suspended in He.
  assert (∀ r, append_event ev g db db1 = (db', r) → r = Ok () → is_Some (suspended_tenants db' !! ev_tenant_id ev)) as Ha.
  { unfold append_event. intros r Hr ->. repeat case_match; simplify_eq. cbn. rewrite lookup_insert_eq. eauto. }
  destruct (suspended_tenants db !! ev_tenant_id ev) as [[p|]|] eqn:Hp; [|by intros ?%Ha..].
  intros H'. repeat case_match; simplify_eq. rewrite He, Hp. eauto.
Qed.

Lemma instance_at_insert c ts i x j :
  instance_at (mkCluster ts (<[i := x]> (instances c))) j = if decide (i = j) then x else instance_at c j.
Proof. unfold instance_at. cbn. case_decide as H; [by rewrite H, lookup_insert_eq|by rewrite lookup_insert_ne]. Qed.

Lemma c_exec_keeps c o t :
  ¬ lifts t o → is_Some (suspended_tenants (tables c) !! t) → is_Some (suspended_tenants (tables (c_exec c o)) !! t).
Proof.
  intros Hn Hs. destruct o as [i t' now|i t'|i n|i n|o]; cbn; try done; [| |by apply s_exec_keeps].
  - pose proof (s_exec_keeps (tables c) (SRecord (suspension_event t' now)) t ltac:(by intros []) Hs) as H.
    unfold suspend_tenant_with_event. cbn in *. by destruct (record_tenant_suspension _ _) as [db []].
  - pose proof (s_exec_keeps (tables c) (SSet t' false) t Hn Hs) as H.
    unfold unsuspend_tenant. cbn in *. by destruct (set_tenant_suspended _ _ _) as [db []].
Qed.

(** The instance keeps its cached suspension until it lifts it or restarts. *)
Lemma c_exec_cached c o i t :
  ¬ lifts t o → (∀ n, o ≠ CRestart i n) → t ∈ cached (instance_at c i) → t ∈ cached (instance_at (c_exec c o) i).
Proof.
  intros Hn Hr Hc. destruct o as [j t' now|j t'|j n|j n|o]; cbn [c_exec]; [..|done];
    unfold on_instance; rewrite instance_at_insert;
    (destruct (decide (j = i)) as [->|]; [|done]).
  - unfold suspend_tenant_with_event. cbn. destruct (record_tenant_suspension _ _) as [db []]; cbn; set_solver.
  - unfold unsuspend_tenant. cbn. cbn in Hn. destruct (set_tenant_suspended _ _ _) as [db []]; cbn; set_solver.
  - done.
  - by destruct (Hr n).
Qed.

(** C33: A suspension reaches every shard that reads the tables.  After a
    suspension was accepted on one instance, and through any operations on the
    deployment (other suspensions, restarts, shard announcements, deliveries) short
    of lifting that tenant's suspension, the tables keep it, and the check that an
    acquire starts with answers exactly as follows on every instance: the tenant is
    suspended if the instance has it in its cache, or if the instance knows of
    more than one shard and its read of the tables succeeds.  In any other case the
    check lets the tenant pass.  The accepting instance has it in its cache until
    it is restarted. *)
Theorem suspension_reaches_every_shard c i t now b os :
  (suspend_tenant_with_event t now (tables c, instance_at c i)).2 = Ok b →
  Forall (λ o, ¬ lifts t o) os →
  let c' := c_run os (c_exec c (CSuspend i t now)) in
  is_tenant_suspended_durable (tables c') t = true ∧
  (∀ j reachable, is_tenant_suspended (tables c') (instance_at c' j) reachable t = true ↔
    t ∈ cached (instance_at c' j) ∨ 1 < num_shards (instance_at c' j) ∧ reachable = true) ∧
  (Forall (λ o, ∀ n, o ≠ CRestart i n) os → t ∈ cached (instance_at c' i)).
Proof.
  intros Hok Hos c'. set (c1 := c_exec c (CSuspend i t now)).
  assert (is_Some (suspended_tenants (tables c1) !! t) ∧ t ∈ cached (instance_at c1 i)) as [Hs Hc].
  { unfold c1. cbn [c_exec]. unfold on_instance. rewrite instance_at_insert, decide_True by done. cbn [tables]. revert Hok. unfold suspend_tenant_with_event. cbn [fst snd].
    destruct (record_tenant_suspension _ _) as [db [[]|]] eqn:Hr; [|done]. intros _. apply record_suspends in Hr.
    cbn in *. split; [done|set_solver]. }
  assert (is_Some (suspended_tenants (tables c') !! t)) as Hs'.
  { unfold c'. fold c1. clear -Hs Hos. revert Hs. generalize c1. induction Hos as [|o os Ho _ IH]; intros c2 Hs; [done|].
    apply IH. by apply c_exec_keeps. }
  split_and!; [by apply bool_decide_true| |].
  - intros j r. unfold is_tenant_suspended, is_tenant_suspended_durable. rewrite (bool_decide_true (is_Some _)) by done.
    rewrite orb_true_iff, !andb_true_iff, bool_decide_eq_true, Z.ltb_lt. tauto.
  - intros Hnr. unfold c'. fold c1.
    clear -Hc Hos Hnr. revert Hc Hnr. generalize c1. induction Hos as [|o os Ho _ IH]; intros c2 Hc Hnr; [done|].
    apply Forall_cons in Hnr as [Hn1 Hnr]. apply IH; [by apply c_exec_cached|done].
Qed.

(** A single instance forgets suspensions when it restarts.  On a deployment
    of one shard the restarted instance admits every tenant, whatever the tables
    say: the cache starts empty and the durable rows are read only with more than
    one shard. *)
Theorem single_shard_restart_forgets c i t reachable :
  let c' := c_exec c (CRestart i 1) in
  is_tenant_suspended (tables c') (instance_at c' i) reachable t = false ∧
  is_tenant_suspended_durable (tables c') t = is_tenant_suspended_durable (tables c) t.
Proof.
  cbn [c_exec]. rewrite instance_at_insert, decide_True by done. cbn [tables]. split; [|done]. unfold is_tenant_suspended. rewrite bool_decide_false by set_solver. done.
Qed.

(** ** Sample runs *)

Definition sample_suspension : TenantSuspensionEvent := mkSuspensionEvent "abuse" "acme" 1000 0.
Definition sample_history : list sop :=
  [ SRecord sample_suspension; SAttempt "abuse:epoch:1"; SSet "acme" false; SLifecycle "other"; SSet "acme" true ].

Lemma outbox_exact_witness :
  ∃ db' id row, record_tenant_suspension sample_suspension (s_run sample_history) = (db', Ok ()) ∧
    suspended_tenants db' !! "acme" = Some (Some id) ∧ suspension_events db' !! id = Some row ∧
    lifecycle_generations db' !! "acme" = Some (e_generation row).
Proof.
  destruct (outbox_exact sample_history sample_suspension ltac:(vm_compute; reflexivity) ltac:(vm_compute; reflexivity))
    as [(db' & id & row & H1 & H2 & H3 & _ & H4 & _) _].
  exists db', id, row. exact (conj H1 (conj H2 (conj H3 H4))).
Defined.

(** A Worker that acknowledges the first event and answers the others badly. *)
Definition sample_receipt : Value :=
  JObject [("event_id", JString "abuse:epoch:1"); ("tenant_id", JString "acme");
           ("lifecycle_generation", JString "1"); ("complete", JBool true)].
Definition sample_from_slice (body : string) : option Value :=
  if decide (body = "receipt") then Some sample_receipt else None.
Definition sample_post (ev : TenantSuspensionEvent) (g : Z) : option (Z * string) := Some (200, "receipt").
Definition two_suspended : list sop :=
  [ SRecord sample_suspension; SRecord (mkSuspensionEvent "abuse" "zeta" 2000 0) ].

Lemma delivery_exact_witness :
  let db' := dispatch_suspension_events sample_from_slice sample_post 5000 (s_run two_suspended) in
  e_delivered_at_ms <$> suspension_events db' !! "abuse:epoch:1" = Some (Some 5000) ∧
  e_delivered_at_ms <$> suspension_events db' !! "abuse:epoch:2" = Some None ∧
  suspended_tenants db' = suspended_tenants (s_run two_suspended).
Proof.
  split; [vm_compute; reflexivity|]. split; [vm_compute; reflexivity|].
  refine (proj1 (proj2 (delivery_exact sample_from_slice sample_post 5000 (s_run two_suspended) (s_run_wf two_suspended) _))).
  eapply bool_decide_eq_true_1. vm_compute. reflexivity.
Defined.

Lemma suspension_reaches_every_shard_witness :
  let c := mkCluster susp_empty (<[1 := boot 2]> (<[2 := boot 2]> ∅)) in
  let c' := c_run [CRestart 1 2; CTables (SLifecycle "acme")] (c_exec c (CSuspend 1 "acme" 1000)) in
  is_tenant_suspended (tables c') (instance_at c' 2) true "acme" = true.
Proof.
  refine (proj2 (proj1 (proj2 (suspension_reaches_every_shard
    (mkCluster susp_empty (<[1 := boot 2]> (<[2 := boot 2]> ∅))) 1 "acme" 1000 true
    [CRestart 1 2; CTables (SLifecycle "acme")] _ _)) 2 true) (or_intror (conj _ eq_refl))).
  - vm_compute. reflexivity.
  - repeat constructor; cbn; tauto.
  - vm_compute. reflexivity.
Defined.
