(* ===== verification/Text.v ===== *)
(** * Text: the string functions of the standard library the code calls

    [str::trim], [split_once], [bytes().all], [replace] of one character and
    the ASCII classes, on strings as their UTF-8 bytes.  The white space of
    [trim] is the White_Space property, as in [Journal.is_blank]. *)
From S2P Require Import Prelude Ledger Journal.

(** ** Bytes *)
Definition is_ascii_digit (c : ascii) : bool := in_range 48 57 c.
Definition is_ascii_uppercase (c : ascii) : bool := in_range 65 90 c.
Definition is_ascii_lowercase (c : ascii) : bool := in_range 97 122 c.
Definition is_ascii_alphanumeric (c : ascii) : bool :=
  is_ascii_digit c || is_ascii_uppercase c || is_ascii_lowercase c.
Definition is_ascii_hexdigit (c : ascii) : bool :=
  is_ascii_digit c || in_range 65 70 c || in_range 97 102 c.

(** [matches!(b, b'x' | b'y' | ...)] over the characters of a literal. *)
Fixpoint one_of (cs : string) (c : ascii) : bool :=
  match cs with
  | EmptyString => false
  | String d cs => bool_decide (d = c) || one_of cs c
  end.

(** [s.bytes().all(p)]. *)
Fixpoint all_bytes (p : ascii → bool) (s : string) : bool :=
  match s with
  | EmptyString => true
  | String c s => p c && all_bytes p s
  end.

(** ** Splitting *)

(** [s.split_once(c)]: what is before and after the first occurrence. *)
Fixpoint split_once (c : ascii) (s : string) : option (string * string) :=
  match s with
  | EmptyString => None
  | String d s =>
    if bool_decide (d = c) then Some (EmptyString, s)
    else match split_once c s with
         | Some (a, b) => Some (String d a, b)
         | None => None
         end
  end.

(** [s.split(c)]. *)
Fixpoint split (c : ascii) (s : string) : list string :=
  match s with
  | EmptyString => [EmptyString]
  | String d s =>
    if bool_decide (d = c) then EmptyString :: split c s
    else match split c s with
         | [] => [String d EmptyString]
         | w :: ws => String d w :: ws
         end
  end.

(** [s.replace(c, by)] of one character. *)
Fixpoint replace_char (c : ascii) (by_ : string) (s : string) : string :=
  match s with
  | EmptyString => EmptyString
  | String d s => (if bool_decide (d = c) then by_ else String d EmptyString) +:+ replace_char c by_ s
  end.

(** [v.join(sep)]. *)
Fixpoint join (sep : string) (ws : list string) : string :=
  match ws with
  | [] => EmptyString
  | [w] => w
  | w :: ws => w +:+ sep +:+ join sep ws
  end.

Definition starts_with (p s : string) : bool := bool_decide (is_Some (strip_prefix p s)).

(** ** Trimming *)
Definition ws1 (a : ascii) : bool := in_range 9 13 a || (byte a =? 32).
Definition ws2 (a b : ascii) : bool := (byte a =? 194) && ((byte b =? 133) || (byte b =? 160)).
Definition ws3 (a b c : ascii) : bool :=
  ((byte a =? 225) && (byte b =? 154) && (byte c =? 128))
  || ((byte a =? 226) && (byte b =? 128) &&
      (in_range 128 138 c || in_range 168 169 c || (byte c =? 175)))
  || ((byte a =? 226) && (byte b =? 129) && (byte c =? 159))
  || ((byte a =? 227) && (byte b =? 128) && (byte c =? 128)).

(** Drops the leading white-space characters; [flip] reads the bytes of a
    character last first, for the reversed string. *)
Fixpoint drop_ws (flip : bool) (s : string) : string :=
  match s with
  | EmptyString => EmptyString
  | String a s1 =>
    if ws1 a then drop_ws flip s1
    else match s1 with
    | EmptyString => s
    | String b s2 =>
      if (if flip then ws2 b a else ws2 a b) then drop_ws flip s2
      else match s2 with
      | EmptyString => s
      | String c s3 => if (if flip then ws3 c b a else ws3 a b c) then drop_ws flip s3 else s
      end
    end
  end.

Fixpoint rev_onto (s acc : string) : string :=
  match s with
  | EmptyString => acc
  | String c s => rev_onto s (String c acc)
  end.
Definition rev_string (s : string) : string := rev_onto s EmptyString.

Definition trim_start (s : string) : string := drop_ws false s.
Definition trim_end (s : string) : string := rev_string (drop_ws true (rev_string s)).
Definition trim (s : string) : string := trim_end (trim_start s).

(** [s.trim_end_matches(c)]. *)
Fixpoint drop_leading (c : ascii) (s : string) : string :=
  match s with
  | String d s' => if bool_decide (d = c) then drop_leading c s' else s
  | EmptyString => EmptyString
  end.
Definition trim_end_matches (c : ascii) (s : string) : string :=
  rev_string (drop_leading c (rev_string s)).

(** ** Lemmas *)
Lemma all_bytes_app p a b : all_bytes p (a +:+ b) = all_bytes p a && all_bytes p b.
Proof. induction a as [|c a IH]; autorewrite with strings; [done|]. cbn. by rewrite IH, andb_assoc. Qed.

Lemma all_bytes_impl (p q : ascii → bool) s :
  (∀ c, p c = true → q c = true) → all_bytes p s = true → all_bytes q s = true.
Proof.
  intros Hpq. induction s as [|c s IH]; cbn; [done|].
  rewrite !andb_true_iff. naive_solver.
Qed.

Lemma split_once_spec c s a b :
  split_once c s = Some (a, b) ↔ s = a +:+ String c b ∧ has_byte c a = false.
Proof.
  revert a. induction s as [|d s IH]; intros a; cbn.
  - split; [done|]. intros [H _]. by destruct a.
  - case_bool_decide as Hd; [subst d|].
    + split; [intros [= <- <-]; done|]. intros [H Ha].
      destruct a as [|e a]; autorewrite with strings in H; simplify_eq/=; [done|].
      by rewrite bool_decide_true in Ha.
    + split.
      * destruct (split_once c s) as [[a' b']|] eqn:E; [|done]. intros [= <- <-].
        destruct (proj1 (IH a') eq_refl) as [-> Ha]. split; [done|].
        cbn. rewrite bool_decide_false by done. done.
      * intros [H Ha]. destruct a as [|e a]; autorewrite with strings in H; simplify_eq/=.
        rewrite bool_decide_false in Ha by done. cbn in Ha.
        by rewrite (proj2 (IH a) (conj eq_refl Ha)).
Qed.

Lemma all_bytes_has p s c : all_bytes p s = true → p c = false → has_byte c s = false.
Proof.
  induction s as [|d s IH]; cbn; [done|]. intros [Hd Hs]%andb_true_iff Hc.
  rewrite (IH Hs Hc). rewrite orb_false_r. apply bool_decide_eq_false. congruence.
Qed.

Lemma strip_prefix_iff p s t : strip_prefix p s = Some t ↔ s = p +:+ t.
Proof. split; [apply strip_prefix_Some|]. intros ->. apply strip_prefix_app. Qed.

Lemma starts_with_iff p s : starts_with p s = true ↔ ∃ t, s = p +:+ t.
Proof.
  unfold starts_with. rewrite bool_decide_eq_true. unfold is_Some.
  by setoid_rewrite strip_prefix_iff.
Qed.
