(* ===== verification/Lease.v ===== *)
(** * Container specs: [crates/corelink-runner/src/lease.rs] and [pin.rs]

    What a lease turns into before a box exists: the pinned image, the checked
    workspace root, the network posture and the injected environment, with the
    verification of the pin on the box and the quoting of commands sent to it.
    The box is a parameter, a state the commands act on. *)
From S2P Require Import Prelude Ledger Journal Text.

(** ** Image pins *)
Inductive SpecError : Type :=
| EmptyReference | NotPinned | EmptyRepository | IllegalRepository | NotSha256 | BadDigest
| UppercaseDigest | EmptyLeaseId | EmptyTmpRoot | RelativeTmpRoot | ShortTmpRoot | IllegalTmpRoot
| NotIsolated | WrongNetPolicy.

Record PinnedImageRef : Type := mkPin { reference : string; digest_hex : string }.

Definition repository_byte (b : ascii) : bool := is_ascii_alphanumeric b || one_of "_.-/:" b.

(** [PinnedImageRef::parse]. *)
Definition pin_parse (r0 : string) : result SpecError PinnedImageRef :=
  let r := trim r0 in
  if String.eqb r "" then Err EmptyReference
  else match split_once "@" r with
  | None => Err NotPinned
  | Some (repository, digest) =>
    if String.eqb repository "" then Err EmptyRepository
    else if negb (all_bytes repository_byte repository) then Err IllegalRepository
    else match strip_prefix "sha256:" digest with
    | None => Err NotSha256
    | Some hex =>
      if negb (Nat.eqb (String.length hex) 64) || negb (all_bytes is_ascii_hexdigit hex)
      then Err BadDigest
      else if negb (all_bytes (λ b, negb (is_ascii_uppercase b)) hex) then Err UppercaseDigest
      else Ok (mkPin r hex)
    end
  end.

Definition require_pinned (image : string) : result SpecError PinnedImageRef := pin_parse image.

(** ** Leases and specs *)
Record RunnerLease : Type := mkRunnerLease {
  rl_lease_id : string;
  principal_chain : list string;
  rl_path_set : list string;
  expiry : Z;
  net_policy : string;
  rl_tmp_root : string;
  rl_state : RunnerState;
}.

Record ContainerSpec : Type := mkSpec {
  spec_name : string;
  spec_image : string;
  spec_tmp_root : string;
  no_network : bool;
  allow_egress : bool;
  run_on_create : bool;
  spec_path_set : list string;
  spec_env : list (string * string);
}.

(** [spec.env.push((k, v))]. *)
Definition push_env (k v : string) (s : ContainerSpec) : ContainerSpec :=
  mkSpec (spec_name s) (spec_image s) (spec_tmp_root s) (no_network s) (allow_egress s)
    (run_on_create s) (spec_path_set s) (spec_env s ++ [(k, v)]).

Definition requires_no_network (policy : string) : bool :=
  String.eqb policy "none" || String.eqb policy "isolated" || String.eqb policy "deny-all"
  || String.eqb policy "".

Definition tmp_root_byte (b : ascii) : bool := is_ascii_alphanumeric b || one_of "._/-" b.

Definition validate_tmp_root (tmp_root : string) : result SpecError unit :=
  if negb (starts_with "/" tmp_root) then Err RelativeTmpRoot
  else if Nat.ltb (String.length tmp_root) 2 then Err ShortTmpRoot
  else if negb (all_bytes tmp_root_byte tmp_root) then Err IllegalTmpRoot
  else Ok ().

(** [container_name]: one underscore per character that is not kept, so the
    continuation bytes of a character add nothing. *)
Fixpoint sanitize (s : string) : string :=
  match s with
  | EmptyString => EmptyString
  | String c s =>
    if is_ascii_alphanumeric c || one_of "_.-" c then String c (sanitize s)
    else if is_cont c then sanitize s else String "_" (sanitize s)
  end.
Definition container_name (lease_id : string) : string := "hugit-job-" +:+ sanitize lease_id.

Definition validate_lease_image (lease : RunnerLease) (image : string) : result SpecError unit :=
  if is_blank (rl_lease_id lease) then Err EmptyLeaseId
  else if is_blank (rl_tmp_root lease) then Err EmptyTmpRoot
  else validate_tmp_root (rl_tmp_root lease);; require_pinned image;; Ok ().

Definition from_lease (lease : RunnerLease) (image : string) : result SpecError ContainerSpec :=
  validate_lease_image lease image;;
  if negb (requires_no_network (net_policy lease)) then Err NotIsolated
  else Ok (mkSpec (container_name (rl_lease_id lease)) image (rl_tmp_root lease)
             true false false (rl_path_set lease) []).

Definition from_runner_lease (lease : RunnerLease) (image : string)
  : result SpecError ContainerSpec :=
  validate_lease_image lease image;;
  if negb (String.eqb (net_policy lease) "egress-runner") then Err WrongNetPolicy
  else Ok (mkSpec (container_name (rl_lease_id lease)) image (rl_tmp_root lease)
             false true true (rl_path_set lease) []).

Definition from_agent_lease (lease : RunnerLease) (image : string)
  : result SpecError ContainerSpec :=
  validate_lease_image lease image;;
  if negb (String.eqb (net_policy lease) "egress-agent") then Err WrongNetPolicy
  else Ok (mkSpec (container_name (rl_lease_id lease)) image (rl_tmp_root lease)
             false true false (rl_path_set lease) []).

(** ** Commands on the box *)
Record CmdOutput : Type := mkOut { code : option Z; stdout : string; stderr : string }.

Definition out_ok (o : CmdOutput) : bool := bool_decide (code o = Some 0).

(** [shell_join]: every word in single quotes, a quote in it written ['\'']. *)
Definition quote_word (a : string) : string :=
  if String.eqb a "" then "''" else "'" +:+ replace_char "'" "'\''" a +:+ "'".
Definition shell_join (argv : list string) : string := join " " (quote_word <$> argv).

Fixpoint contains (needle s : string) : bool :=
  starts_with needle s || match s with EmptyString => false | String _ s => contains needle s end.

Definition to_ascii_lower (c : ascii) : ascii :=
  if is_ascii_uppercase c then Ascii.ascii_of_nat (Ascii.nat_of_ascii c + 32) else c.
Fixpoint to_ascii_lowercase (s : string) : string :=
  match s with
  | EmptyString => EmptyString
  | String c s => String (to_ascii_lower c) (to_ascii_lowercase s)
  end.

Definition PERMANENT : list string :=
  ["manifest unknown"; "manifest for"; "no such manifest"; "not found"; "does not match";
   "unauthorized"; "denied"; "forbidden"; "repository does not exist"; "invalid reference";
   "unsupported"].
Definition is_permanent_pull_failure (err : string) : bool :=
  existsb (λ needle, contains needle (to_ascii_lowercase err)) PERMANENT.

Definition PULL_MAX_ATTEMPTS : nat := 4.

Inductive PinError : Type := Transport | PullRefused | PullExhausted | InspectFailed | DigestMismatch.

Section box.
Context {B : Type} (run : list string → B → B * result unit CmdOutput).

Definition run_box (argv : list string) : M B PinError CmdOutput := λ b,
  match run argv b with
  | (b, Ok o) => (b, Ok o)
  | (b, Err _) => (b, Err Transport)
  end.

(** The loop of [pull_with_retry] with the attempts that are left. *)
Fixpoint pull_loop (attempts : nat) (p : PinnedImageRef) : M B PinError unit :=
  match attempts with
  | O => throw PullExhausted
  | S attempts =>
    pull ← run_box ["docker"; "pull"; reference p];
    if out_ok pull then mret ()
    else if is_permanent_pull_failure (trim (stderr pull)) then throw PullRefused
    else pull_loop attempts p
  end.

Definition pull_with_retry (p : PinnedImageRef) : M B PinError unit := pull_loop PULL_MAX_ATTEMPTS p.

(** [verify_on_box]: pull, inspect, compare. *)
Definition inspect_argv (p : PinnedImageRef) : list string :=
  ["docker"; "image"; "inspect"; reference p; "--format";
   "{{range .RepoDigests}}{{.}}" +:+ String LF "{{end}}"].

Definition verify_on_box (p : PinnedImageRef) : M B PinError unit :=
  pull_with_retry p;;
  inspect ← run_box (inspect_argv p);
  if negb (out_ok inspect) then throw InspectFailed
  else if negb (contains ("sha256:" +:+ digest_hex p) (stdout inspect)) then throw DigestMismatch
  else mret ().
End box.

(** ** What the shell makes of a joined command

    The word splitting of POSIX shells for text without expansions: blanks
    separate, single quotes are literal, a backslash outside quotes takes the
    next character, any other special character is refused. *)
Inductive sh_mode : Type := Gap | Word (w : string) | Quote (w : string).

Definition sh_special (c : ascii) : bool :=
  one_of "|&;<>()$`*?[]#~=%!{}" c || in_range 34 34 c || in_range 0 31 c.

Definition snoc (w : string) (c : ascii) : string := w +:+ String c EmptyString.

Definition word_of (m : sh_mode) : string :=
  match m with Gap => EmptyString | Word w => w | Quote w => w end.

Definition end_word (m : sh_mode) (rest : option (list string)) : option (list string) :=
  match m with Gap => rest | Word w | Quote w => cons w <$> rest end.

Fixpoint sh_words (m : sh_mode) (s : string) : option (list string) :=
  match m, s with
  | Quote _, EmptyString => None
  | Quote w, String c s =>
    if bool_decide (c = "'"%char) then sh_words (Word w) s else sh_words (Quote (snoc w c)) s
  | _, EmptyString => end_word m (Some [])
  | _, String c s =>
    if bool_decide (c = " "%char) then end_word m (sh_words Gap s)
    else if bool_decide (c = "'"%char) then sh_words (Quote (word_of m)) s
    else if bool_decide (c = "\"%char)
    then match s with
         | EmptyString => None
         | String d s => sh_words (Word (snoc (word_of m) d)) s
         end
    else if sh_special c then None
    else sh_words (Word (snoc (word_of m) c)) s
  end.

Lemma snoc_app w c s : snoc w c +:+ s = w +:+ String c s.
Proof. unfold snoc. by rewrite string_app_assoc. Qed.

Lemma sh_quoted w a rest :
  sh_words (Quote w) (replace_char "'" "'\''" a +:+ "'" +:+ rest) = sh_words (Word (w +:+ a)) rest.
Proof.
  revert w. induction a as [|c a IH]; intros w; autorewrite with strings.
  - cbn. by rewrite string_app_nil_r.
  - cbn [replace_char]. case_bool_decide as Hc; [subst c|].
    + rewrite string_app_assoc. change (sh_words (Quote w) ("'\''" +:+ ?s))
        with (sh_words (Quote (snoc w "'")) s). by rewrite IH, snoc_app.
    + autorewrite with strings. cbn [sh_words]. rewrite bool_decide_false by done.
      by rewrite IH, snoc_app.
Qed.

Lemma sh_quote_word a rest :
  sh_words Gap (quote_word a +:+ rest) = sh_words (Word a) rest.
Proof.
  unfold quote_word. destruct (String.eqb_spec a "") as [->|]; [done|].
  rewrite !string_app_assoc. change (sh_words Gap ("'" +:+ ?s)) with (sh_words (Quote "") s).
  apply sh_quoted.
Qed.

(** The shell reads back exactly the argument vector, whatever the arguments
    contain: no argument is split, dropped, expanded or merged. *)
Theorem shell_join_words argv : sh_words Gap (shell_join argv) = Some argv.
Proof.
  unfold shell_join. induction argv as [|a argv IH]; [done|].
  destruct argv as [|b argv]; cbn [fmap list_fmap join].
  - rewrite <-(string_app_nil_r (quote_word a)), sh_quote_word. done.
  - rewrite sh_quote_word. cbn [fmap list_fmap join] in IH.
    change (sh_words (Word a) (" " +:+ ?s)) with (cons a <$> sh_words Gap s). by rewrite IH.
Qed.

(** ** Pins *)
Definition lower_hex (b : ascii) : bool := is_ascii_digit b || in_range 97 102 b.

Lemma lower_hex_iff b :
  is_ascii_hexdigit b = true ∧ negb (is_ascii_uppercase b) = true ↔ lower_hex b = true.
Proof.
  unfold is_ascii_hexdigit, is_ascii_uppercase, lower_hex, is_ascii_digit, in_range.
  rewrite negb_true_iff, !orb_true_iff, !andb_true_iff, andb_false_iff, !Z.leb_le, !Z.leb_gt. lia.
Qed.

Lemma all_lower_hex s :
  all_bytes is_ascii_hexdigit s = true ∧ all_bytes (λ b, negb (is_ascii_uppercase b)) s = true
  ↔ all_bytes lower_hex s = true.
Proof.
  induction s as [|c s IH]; cbn; [done|]. rewrite !andb_true_iff, <-IH, <-lower_hex_iff. tauto.
Qed.

(** What a reference must be once trimmed. *)
Definition pinned_form (r repository hex : string) : Prop :=
  r = repository +:+ "@sha256:" +:+ hex ∧
  repository ≠ "" ∧ all_bytes repository_byte repository = true ∧
  String.length hex = 64%nat ∧ all_bytes lower_hex hex = true.

(** An image is accepted exactly when it is a repository in the allowed
    characters, pinned by 64 lowercase hexadecimal digits of SHA-256. *)
Theorem pin_parse_exact r p :
  pin_parse r = Ok p ↔
  ∃ repository hex, pinned_form (trim r) repository hex ∧ p = mkPin (trim r) hex.
Proof.
  unfold pin_parse, pinned_form. generalize (trim r). clear r. intros r. split.
  - destruct (String.eqb_spec r "") as [->|Hr]; [done|].
    destruct (split_once "@" r) as [[repository digest]|] eqn:Hs; [|done].
    apply split_once_spec in Hs as [-> Hat].
    destruct (String.eqb_spec repository "") as [->|Hne]; [done|].
    destruct (all_bytes repository_byte repository) eqn:Hrb; [cbn [negb orb]|done].
    destruct (strip_prefix "sha256:" digest) as [hex|] eqn:Hp; [|done].
    apply strip_prefix_Some in Hp as ->.
    destruct (Nat.eqb_spec (String.length hex) 64) as [Hl|]; [cbn [negb orb]|done].
    destruct (all_bytes is_ascii_hexdigit hex) eqn:Hh; [cbn [negb orb]|done].
    destruct (all_bytes (λ b, negb (is_ascii_uppercase b)) hex) eqn:Hu; [cbn [negb orb]|done].
    intros [= <-]. exists repository, hex. rewrite <-all_lower_hex. auto 10.
  - intros (repository & hex & (Hr & Hne & Hrb & Hl & Hx) & ->).
    assert (split_once "@" r = Some (repository, "sha256:" +:+ hex)) as Hs.
    { apply split_once_spec. split; [done|]. by apply (all_bytes_has repository_byte). }
    apply all_lower_hex in Hx as [Hh Hu].
    destruct (String.eqb_spec r "") as [Hr0|_].
    { exfalso. rewrite Hr0 in Hr. destruct repository; cbn in Hr; done. }
    rewrite Hs. destruct (String.eqb_spec repository "") as [|_]; [done|].
    rewrite Hrb, strip_prefix_app, Hl, Hh, Hu. done.
Qed.

(** ** Specs *)

(** What every spec satisfies: a safe name and root, a pinned image, and
    network access only together with the egress flag. *)
Record spec_ok (s : ContainerSpec) : Prop := {
  ok_name : all_bytes (λ b, is_ascii_alphanumeric b || one_of "_.-" b) (spec_name s) = true;
  ok_root : all_bytes tmp_root_byte (spec_tmp_root s) = true ∧
            ∃ rest, spec_tmp_root s = "/" +:+ rest ∧ rest ≠ "";
  ok_image : ∃ repository hex, pinned_form (trim (spec_image s)) repository hex;
  ok_network : no_network s = negb (allow_egress s);
}.

Lemma sanitize_bytes s :
  all_bytes (λ b, is_ascii_alphanumeric b || one_of "_.-" b) (sanitize s) = true.
Proof.
  induction s as [|c s IH]; [done|]. cbn [sanitize].
  destruct (is_ascii_alphanumeric c || one_of "_.-" c) eqn:Hc; [|destruct (is_cont c)];
    cbn [all_bytes]; rewrite ?Hc, ?IH; done.
Qed.

Lemma container_name_bytes id :
  all_bytes (λ b, is_ascii_alphanumeric b || one_of "_.-" b) (container_name id) = true.
Proof. unfold container_name. by rewrite all_bytes_app, sanitize_bytes. Qed.

Lemma validate_lease_image_ok l image :
  validate_lease_image l image = Ok () →
  is_blank (rl_lease_id l) = false ∧
  all_bytes tmp_root_byte (rl_tmp_root l) = true ∧
  (∃ rest, rl_tmp_root l = "/" +:+ rest ∧ rest ≠ "") ∧
  ∃ repository hex, pinned_form (trim image) repository hex.
Proof.
  unfold validate_lease_image, validate_tmp_root, require_pinned.
  destruct (is_blank (rl_lease_id l)); [done|]. destruct (is_blank (rl_tmp_root l)); [done|].
  destruct (starts_with "/" (rl_tmp_root l)) eqn:Hs; [|done].
  destruct (Nat.ltb_spec (String.length (rl_tmp_root l)) 2) as [|Hl]; [done|].
  destruct (all_bytes tmp_root_byte (rl_tmp_root l)); [|done].
  destruct (pin_parse image) as [p|] eqn:Hp; [|done]. intros _.
  apply pin_parse_exact in Hp as (repo & hex & Hf & _).
  apply starts_with_iff in Hs as [rest Hrest]. split_and!; [done|done| |eauto].
  exists rest. split; [done|]. intros ->. rewrite Hrest in Hl. rewrite string_length_app in Hl. cbn in Hl. lia.
Qed.

Lemma push_env_ok k v s : spec_ok s → spec_ok (push_env k v s).
Proof. by intros []; constructor. Qed.

Lemma specs_named l image s :
  from_lease l image = Ok s ∨ from_runner_lease l image = Ok s ∨ from_agent_lease l image = Ok s →
  spec_name s = container_name (rl_lease_id l).
Proof.
  unfold from_lease, from_runner_lease, from_agent_lease. intros H.
  destruct (validate_lease_image l image) as [[]|]; [|naive_solver].
  destruct H as [H|[H|H]]; run_M; destruct (negb _); by simplify_eq/=.
Qed.

(** Whatever the constructor, a spec is accepted only in a shape that can be
    spawned: hermetic unless the lease is a runner's or an agent's. *)
Theorem specs_are_well_formed l image s :
  from_lease l image = Ok s ∨ from_runner_lease l image = Ok s ∨ from_agent_lease l image = Ok s →
  spec_ok s ∧ spec_env s = [] ∧ spec_name s = container_name (rl_lease_id l) ∧
  (allow_egress s = true → net_policy l = "egress-runner" ∨ net_policy l = "egress-agent") ∧
  (run_on_create s = true → net_policy l = "egress-runner").
Proof.
  unfold from_lease, from_runner_lease, from_agent_lease. intros H.
  destruct (validate_lease_image l image) as [[]|] eqn:Hv; [|naive_solver].
  apply validate_lease_image_ok in Hv as (_ & Hb & Hr & Hi).
  destruct H as [H|[H|H]]; run_M.
  - destruct (requires_no_network (net_policy l)) eqn:Hn; [|done]. simplify_eq/=.
    split_and!; [constructor; cbn; auto using container_name_bytes|naive_solver..].
  - destruct (String.eqb_spec (net_policy l) "egress-runner"); [|done]. simplify_eq/=.
    split_and!; [constructor; cbn; auto using container_name_bytes|naive_solver..].
  - destruct (String.eqb_spec (net_policy l) "egress-agent"); [|done]. simplify_eq/=.
    split_and!; [constructor; cbn; auto using container_name_bytes|naive_solver..].
Qed.

(** ** Verification on the box *)
Section verify.
Context {B : Type} (run : list string → B → B * result unit CmdOutput).
Implicit Types (p : PinnedImageRef) (b : B).

(** The pull command failed in a way that may be retried: it ran, did not
    succeed, and its error names no permanent cause. *)
Definition transient_pull p b b' : Prop :=
  ∃ o, run ["docker"; "pull"; reference p] b = (b', Ok o) ∧ out_ok o = false ∧
       is_permanent_pull_failure (trim (stderr o)) = false.

Inductive transient_pulls p : nat → B → B → Prop :=
| no_pulls b : transient_pulls p 0 b b
| more_pulls n b b1 b2 :
    transient_pull p b b1 → transient_pulls p n b1 b2 → transient_pulls p (S n) b b2.

Lemma pull_loop_ok n p b b' :
  pull_loop run n p b = (b', Ok ()) ↔
  ∃ k b1 o, (k < n)%nat ∧ transient_pulls p k b b1 ∧
    run ["docker"; "pull"; reference p] b1 = (b', Ok o) ∧ out_ok o = true.
Proof.
  revert b. induction n as [|n IH]; intros b; cbn [pull_loop].
  - split; [by intros [=]|]. intros (k & _ & _ & Hk & _). lia.
  - unfold run_box, mbind, M_bind, mret, M_ret, throw.
    destruct (run ["docker"; "pull"; reference p] b) as [b1 [o|e]] eqn:Hr.
    + destruct (out_ok o) eqn:Ho.
      * split; [intros [= <-]; exists 0%nat, b, o; split_and!; [lia|constructor|done|done]|].
        intros (k & b2 & o' & Hk & Ht & Hr' & Ho'). inversion Ht; subst; [congruence|].
        destruct H as (o2 & Hr2 & Ho2 & _). congruence.
      * destruct (is_permanent_pull_failure (trim (stderr o))) eqn:Hp.
        -- split; [done|]. intros (k & b2 & o' & Hk & Ht & Hr' & Ho').
           inversion Ht; subst; [congruence|]. destruct H as (o2 & Hr2 & _ & Hp2). congruence.
        -- rewrite IH. split; intros (k & b2 & o' & Hk & Ht & Hr' & Ho').
           ++ exists (S k), b2, o'. split_and!; [lia| |done|done].
              econstructor; [|done]. exists o. done.
           ++ inversion Ht; subst; [congruence|].
              destruct H as (o2 & Hr2 & _ & _). replace b3 with b1 in * by congruence.
              exists n0, b2, o'. split_and!; [lia|done|done|done].
    + split; [done|]. intros (k & b2 & o' & Hk & Ht & Hr' & Ho').
      inversion Ht; subst; [congruence|]. destruct H as (o2 & Hr2 & _). congruence.
Qed.

(** A pin is verified exactly when one of at most four pulls succeeds after
    only transient failures, and the box then lists the pinned digest. *)
Theorem verify_on_box_exact p b b' :
  verify_on_box run p b = (b', Ok ()) ↔
  ∃ k b1 b2 o1 o2, (k < PULL_MAX_ATTEMPTS)%nat ∧ transient_pulls p k b b1 ∧
    run ["docker"; "pull"; reference p] b1 = (b2, Ok o1) ∧ out_ok o1 = true ∧
    run (inspect_argv p) b2 = (b', Ok o2) ∧ out_ok o2 = true ∧
    contains ("sha256:" +:+ digest_hex p) (stdout o2) = true.
Proof.
  unfold verify_on_box, pull_with_retry. unfold mbind, M_bind at 1.
  destruct (pull_loop run PULL_MAX_ATTEMPTS p b) as [b2 [[]|e]] eqn:Hpl.
  - apply pull_loop_ok in Hpl as (k & b1 & o1 & Hk & Ht & Hr & Ho). unfold run_box, M_bind.
    split.
    + destruct (run (inspect_argv p) b2) as [b3 [o2|]] eqn:Hi; [|done].
      destruct (out_ok o2) eqn:Ho2; [|done]. cbn [negb].
      destruct (contains _ (stdout o2)) eqn:Hc; [|done]. intros [= <-].
      exists k, b1, b2, o1, o2. done.
    + intros (k' & b1' & b2' & o1' & o2 & Hk' & Ht' & Hr' & Ho' & Hi & Ho2 & Hc).
      assert (pull_loop run PULL_MAX_ATTEMPTS p b = (b2', Ok ())) as Hp'.
      { apply pull_loop_ok. eauto 10. }
      assert (pull_loop run PULL_MAX_ATTEMPTS p b = (b2, Ok ())) as Hp''.
      { apply pull_loop_ok. eauto 10. }
      replace b2' with b2 in * by congruence. rewrite Hi, Ho2, Hc. done.
  - split; [done|]. intros (k & b1 & b2' & o1 & o2 & Hk & Ht & Hr & Ho & _).
    assert (pull_loop run PULL_MAX_ATTEMPTS p b = (b2', Ok ())) as Hp'.
    { apply pull_loop_ok. eauto 10. }
    congruence.
Qed.
End verify.

(** ** A concrete lease *)
Definition sample_image : string :=
  "alpine@sha256:d9e853e87e55526f6b2917df91a2115c36dd7c696a35be12163d44e6e2a4b6bc".
Definition sample_lease : RunnerLease :=
  mkRunnerLease "lease-1" ["tenant:acme"] ["/work/tmp"] 60000 "isolated" "/work/tmp" Held.
Definition sample_spec : ContainerSpec :=
  mkSpec "hugit-job-lease-1" sample_image "/work/tmp" true false false ["/work/tmp"] [].

Lemma specs_are_well_formed_witness :
  from_lease sample_lease sample_image = Ok sample_spec ∧ spec_ok sample_spec.
Proof.
  assert (from_lease sample_lease sample_image = Ok sample_spec) as H by (vm_compute; reflexivity).
  split; [exact H|].
  exact (proj1 (specs_are_well_formed sample_lease sample_image sample_spec (or_introl H))).
Defined.
