(* ===== verification/Clw.v ===== *)
(** * The workspace tool on the box: [clw_drive.rs]

    [ClwBoxDrive] runs [clw snapshot], [clw hydrate] and [clw run] on a box, with a
    receipt in a private directory that tells a failure of the tool from one of the
    command it ran.  A verdict is the command's own exit code, and only success is
    reported as written back; the receipt is looked at for one exit code only. *)
From S2P Require Import Prelude Journal Text Lease.

Inductive ClwExitTransparency : Type := Child (code : Z) | ClwInternal (code : Z).
Inductive ClwDriveOutcome : Type :=
| Ran (exit : ClwExitTransparency) (wrote_back : bool)
| ClwFailed (clw_exit_code : Z).

Definition is_child_success (e : ClwExitTransparency) : bool := match e with Child 0 => true | _ => false end.
Definition is_cacheable (e : ClwExitTransparency) : bool := is_child_success e.
Definition child_exit_code (o : ClwDriveOutcome) : option Z :=
  match o with Ran (Child c) _ => Some c | _ => None end.

Record ClwRunSpec : Type := mkRunSpec {
  snapshot_name : string;
  snapshot_path : string;
  hydrate_dest : string;
  run_command : list string;
}.

Definition CLW_INTERNAL_EXIT_CODE : Z := 125.
Definition STATE_PREFIX : string := "/tmp/corelink-run-state.".

(** [s.strip_suffix('\n')]. *)
Fixpoint strip_newline (s : string) : option string :=
  match s with
  | EmptyString => None
  | String c EmptyString => if bool_decide (c = LF) then Some EmptyString else None
  | String c s => String c <$> strip_newline s
  end.

(** The path [mktemp] printed, if it is one line with a name of its own. *)
Definition valid_state_dir (out : CmdOutput) : option string :=
  let dir := default "" (strip_newline (stdout out)) in
  match strip_prefix STATE_PREFIX dir with
  | Some suffix =>
    if bool_decide (code out = Some 0) && negb (String.eqb suffix "") &&
       all_bytes (λ c, is_ascii_alphanumeric c || one_of "._-" c) suffix
    then Some dir else None
  | None => None
  end.

Definition clw_failed (out : CmdOutput) : ClwDriveOutcome := ClwFailed (default (-1) (code out)).

Section drive.
Context {B : Type} (run : list string → B → B * result unit CmdOutput).
Context (spec : ClwRunSpec).

Definition boxx (argv : list string) : M B unit CmdOutput := run argv.
(** The result of a command, whatever it is. *)
Definition try_box (argv : list string) : M B unit (result unit CmdOutput) := λ b,
  let '(b, r) := run argv b in (b, Ok r).

Definition state_path (dir : string) : string := dir +:+ "/state".
Definition clw_run_argv (dir : string) : list string :=
  ["env"; "CLW_RUN_STATE_FILE=" +:+ state_path dir; "clw"; "run"; "--"] ++ run_command spec.

(** What the exit of [clw run] and the receipt come to. *)
Definition verdict (receipt : option string) (out : CmdOutput) : ClwDriveOutcome :=
  match code out with
  | Some n =>
    if n =? CLW_INTERNAL_EXIT_CODE then
      if bool_decide (receipt = Some ("EXECUTED" +:+ String LF EmptyString))
      then Ran (Child CLW_INTERNAL_EXIT_CODE) false
      else ClwFailed CLW_INTERNAL_EXIT_CODE
    else Ran (Child n) (n =? 0)
  | None => ClwFailed (-1)
  end.

(** [drive_blocking]. *)
Definition drive_blocking : M B unit ClwDriveOutcome :=
  snap ← boxx ["clw"; "snapshot"; snapshot_path spec; "--name"; snapshot_name spec];
  if negb (out_ok snap) then mret (clw_failed snap)
  else
    hyd ← boxx ["clw"; "hydrate"; hydrate_dest spec; "--name"; snapshot_name spec];
    if negb (out_ok hyd) then mret (clw_failed hyd)
    else
      made ← boxx ["mktemp"; "-d"; "/tmp/corelink-run-state.XXXXXX"];
      match valid_state_dir made with
      | None => mret (clw_failed made)
      | Some dir =>
        result ← try_box (clw_run_argv dir);
        read ← try_box ["cat"; state_path dir];
        let receipt := match read with
                       | Ok out => if out_ok out then Some (stdout out) else None
                       | Err _ => None
                       end in
        try_box ["rm"; "-f"; "--"; state_path dir];;
        try_box ["rmdir"; "--"; dir];;
        match result with
        | Ok out => mret (verdict receipt out)
        | Err e => throw e
        end
      end.
End drive.

(** [ClwBoxDrive::drive]: a task that does not complete is a failure of the tool. *)
Definition drive {B} (run : list string → B → B * result unit CmdOutput) (spec : ClwRunSpec) (panicked : bool) :
    M B unit ClwDriveOutcome := λ b,
  let '(b, r) := drive_blocking run spec b in
  (b, if panicked then Ok (ClwFailed (-1)) else r).

(** ** Every drive *)

(** A box that keeps what was run and answered. *)
Definition Call : Type := list string * result unit CmdOutput.
Definition logged_box {B} (run : list string → B → B * result unit CmdOutput) (argv : list string)
    (s : list Call * B) : (list Call * B) * result unit CmdOutput :=
  let '(b, r) := run argv s.2 in ((s.1 ++ [(argv, r)], b), r).

Section theorems.
Context {B : Type} (run : list string → B → B * result unit CmdOutput) (spec : ClwRunSpec).

Definition snapshot_argv : list string := ["clw"; "snapshot"; snapshot_path spec; "--name"; snapshot_name spec].
Definition hydrate_argv : list string := ["clw"; "hydrate"; hydrate_dest spec; "--name"; snapshot_name spec].

(** A verdict is the command's own.  If a drive reports that the command ran, the
    snapshot and the hydration had succeeded and the command exited with the code
    that is reported; exit code 125 is reported only with the receipt; the result
    counts as written back exactly if the code is 0; and the receipt and its
    directory were removed. *)
Theorem verdict_is_the_commands b log b' e wb panicked :
  drive (logged_box run) spec panicked ([], b) = ((log, b'), Ok (Ran e wb)) →
  ∃ n dir out snap hyd rm rmdir, e = Child n ∧
    log !! 0%nat = Some (snapshot_argv, Ok snap) ∧ code snap = Some 0 ∧
    log !! 1%nat = Some (hydrate_argv, Ok hyd) ∧ code hyd = Some 0 ∧
    log !! 3%nat = Some (clw_run_argv spec dir, Ok out) ∧ code out = Some n ∧
    (n = 125 → ∃ cat, log !! 4%nat = Some (["cat"; state_path dir], Ok cat) ∧ code cat = Some 0 ∧
                      stdout cat = "EXECUTED" +:+ String LF EmptyString) ∧
    (wb = true ↔ n = 0) ∧ is_cacheable e = wb ∧
    log !! 5%nat = Some (["rm"; "-f"; "--"; state_path dir], rm) ∧ log !! 6%nat = Some (["rmdir"; "--"; dir], rmdir).
Proof.
  unfold drive, drive_blocking, boxx, try_box, logged_box. unfold mbind, M_bind, mret, M_ret, throw. cbn [fst snd].
  destruct (run _ b) as [b1 [snap|]]; [|by destruct panicked]. cbn [fst snd].
  unfold out_ok at 1. case_bool_decide as Hs; cbn [negb fst snd]; [|by destruct panicked].
  destruct (run _ b1) as [b2 [hyd|]]; [|by destruct panicked]. cbn [fst snd].
  unfold out_ok at 1. case_bool_decide as Hh; cbn [negb fst snd]; [|by destruct panicked].
  destruct (run _ b2) as [b3 [made|]]; [|by destruct panicked]. cbn [fst snd].
  destruct (valid_state_dir made) as [dir|]; [|by destruct panicked]. cbn [fst snd].
  destruct (run _ b3) as [b4 res]. cbn [fst snd]. destruct (run _ b4) as [b5 cat]. cbn [fst snd].
  destruct (run _ b5) as [b6 rm]. cbn [fst snd]. destruct (run _ b6) as [b7 rmdir]. cbn [fst snd].
  destruct res as [out|]; [|by destruct panicked]. destruct panicked; [done|].
  intros [[= <- <-] Hv]%pair_equal_spec. injection Hv as Hv. unfold verdict in Hv.
  destruct (code out) as [n|] eqn:Hn; [|done]. unfold CLW_INTERNAL_EXIT_CODE in Hv.
  exists n, dir, out, snap, hyd, rm, rmdir.
  destruct (Z.eqb_spec n 125) as [->|Hne].
  - case_bool_decide as Hr; [|done]. injection Hv as <- <-. destruct cat as [cat|]; [|done].
    unfold out_ok in Hr. case_bool_decide as Hcat; [|done]. injection Hr as Hr.
    split_and!; try done; try (by exists cat).
  - injection Hv as <- <-. split_and!; try done. by rewrite Z.eqb_eq.
Qed.
End theorems.

(** ** Runs *)

(** A box on which the tool is missing: [env] cannot start it and nobody writes a
    receipt. *)
Definition toolless (argv : list string) (b : unit) : unit * result unit CmdOutput :=
  (b, Ok (match argv with
          | "mktemp" :: _ => mkOut (Some 0) (STATE_PREFIX +:+ "x" +:+ String LF EmptyString) ""
          | "env" :: _ => mkOut (Some 127) "" "env: clw: No such file or directory"
          | "cat" :: _ => mkOut (Some 1) "" ""
          | _ => mkOut (Some 0) "" ""
          end)).

(** A verdict needs no receipt.  Whatever the command is, on a box where [clw run]
    cannot be started and leaves no receipt, the drive reports that the command
    itself ran and exited with 127. *)
Theorem verdict_needs_no_receipt spec :
  drive toolless spec false () = ((), Ok (Ran (Child 127) false)) ∧
  valid_state_dir (mkOut (Some 0) (STATE_PREFIX +:+ "x" +:+ String LF EmptyString) "") = Some (STATE_PREFIX +:+ "x") ∧
  (toolless ["cat"; state_path (STATE_PREFIX +:+ "x")] ()).2 = Ok (mkOut (Some 1) "" "").
Proof. split_and!; vm_compute; reflexivity. Qed.

(** A command that succeeds. *)
Definition working (argv : list string) (b : unit) : unit * result unit CmdOutput :=
  (b, Ok (match argv with
          | "mktemp" :: _ => mkOut (Some 0) (STATE_PREFIX +:+ "x" +:+ String LF EmptyString) ""
          | _ => mkOut (Some 0) "" ""
          end)).
Lemma verdict_is_the_commands_witness :
  let spec := mkRunSpec "n" "p" "d" ["true"] in
  ∃ log, drive (logged_box working) spec false ([], ()) = ((log, ()), Ok (Ran (Child 0) true)) ∧
    ∃ dir out, log !! 3%nat = Some (clw_run_argv spec dir, Ok out) ∧ code out = Some 0.
Proof.
  intros spec. eexists. split; [vm_compute; reflexivity|].
  destruct (verdict_is_the_commands working spec () _ () (Child 0) true false eq_refl)
    as (n & dir & out & snap & hyd & rm & rmdir & [= <-] & _ & _ & _ & _ & Hrun & Hcode & _).
  exists dir, out. by split.
Defined.
