(* ===== verification/Boxes.v ===== *)
(** * Boxes: [cloud_exec.rs], [cloud_exec/provider_refs.rs], [provider_binding.rs]

    How a lease gets a box and how the box is found again: the durable provider
    binding, the registry of local evidence, and the four provisioners behind
    the [BoxProvisioner] trait (none, Cloudflare, Northflank, hybrid) with the
    executors that follow their routes.  The provider engines are parameters:
    a state and what spawn, teardown and the liveness probe do to it. *)
From S2P Require Import Prelude Ledger Journal Text Lease.

(** ** Provider bindings *)
Inductive ProviderBackend : Type := BackendCloudflare | BackendNorthflank | BackendNoBox.
Inductive ProviderRoute : Type := RouteRunner | RouteCheck | RouteCheckHost | RouteNoBox.

#[export] Instance ProviderBackend_eq_dec : EqDecision ProviderBackend.
Proof. solve_decision. Defined.
#[export] Instance ProviderRoute_eq_dec : EqDecision ProviderRoute.
Proof. solve_decision. Defined.

Record ProviderBinding : Type := mkBinding {
  b_lease_id : string;
  b_backend : ProviderBackend;
  b_route : ProviderRoute;
  b_handle : option string;
  b_domain : string;
}.
#[export] Instance ProviderBinding_eq_dec : EqDecision ProviderBinding.
Proof. solve_decision. Defined.

(** Why a provider operation failed; [ProvCapacity] is the one the callers tell
    apart ([is_capacity_error]). *)
Inductive ProvError : Type :=
| BadIdentity | BadHandle | BadDomain | BadCombination | TooLong | BadPrefix | BadJson
| ConflictingBinding | RouteMissing | InvalidRoute | NoEvidence | BindingMismatch | LeaseMismatch
| RealBindingExists | ConflictingRoute | ProvCapacity | ProvFailed | LeaseMissing | LedgerUnreadable
| LedgerRefused | NotConfigured.

Definition is_capacity_error (e : ProvError) : bool :=
  match e with ProvCapacity => true | _ => false end.

Definition safe_byte (b : ascii) : bool := is_ascii_alphanumeric b || one_of "-_" b.

Definition safe_component (value : string) : bool :=
  negb (String.eqb value "") && Nat.leb (String.length value) 256 && all_bytes safe_byte value.

Definition validate_domain (value : string) : result ProvError unit :=
  match (match strip_prefix "https://" value with
         | Some r => Some r
         | None => strip_prefix "http://" value
         end) with
  | None => Err BadDomain
  | Some rest =>
    let '(authority, path) := default (rest, "") (split_once "/" rest) in
    if Nat.ltb 2048 (String.length value) || String.eqb authority ""
       || negb (all_bytes (λ b, is_ascii_alphanumeric b || one_of ".-:" b) authority)
       || negb (all_bytes (λ b, is_ascii_alphanumeric b || one_of "/._~-" b) path)
       || existsb (λ part, String.eqb part "." || String.eqb part "..") (split "/" path)
    then Err BadDomain else Ok ()
  end.

(** [ProviderBinding::validate]. *)
Definition validate_binding (b : ProviderBinding) : result ProvError unit :=
  if negb (safe_component (b_lease_id b)) then Err BadIdentity
  else match b_backend b, b_route b, b_handle b with
  | BackendNoBox, RouteNoBox, None =>
    if String.eqb (b_domain b) "local:nobox" then Ok () else Err BadCombination
  | BackendCloudflare, (RouteRunner | RouteCheckHost), Some handle
  | BackendNorthflank, (RouteRunner | RouteCheck | RouteCheckHost), Some handle =>
    if negb (safe_component handle) then Err BadHandle else validate_domain (b_domain b)
  | _, _, _ => Err BadCombination
  end.

(** serde_json on the binding struct. *)
Class BindingCodec : Type := {
  binding_to_json : ProviderBinding → string;
  binding_of_json : string → option ProviderBinding;
}.

Section codec.
Context {codec : BindingCodec}.

(** [PREFIX] and [MAX_LEN] are those of the ledger's own check. *)
Definition encode (b : ProviderBinding) : result ProvError string :=
  validate_binding b;;
  let value := PROVIDER_PREFIX +:+ binding_to_json b in
  if Nat.ltb PROVIDER_MAX_BYTES (String.length value) then Err TooLong else Ok value.

Definition decode (value : string) : result ProvError ProviderBinding :=
  if Nat.ltb PROVIDER_MAX_BYTES (String.length value) then Err BadPrefix
  else match strip_prefix PROVIDER_PREFIX value with
  | None => Err BadPrefix
  | Some payload =>
    match binding_of_json payload with
    | None => Err BadJson
    | Some b => validate_binding b;; Ok b
    end
  end.
End codec.

(** ** The registry of evidence *)
Record RegistryEvidence : Type := mkEvidence {
  boxes : gmap string string;
  no_box : gset string;
  modes : gmap string ProviderRoute;
}.

Definition registry_new : RegistryEvidence := mkEvidence ∅ ∅ ∅.

Module Registry.
(** [BoxRegistry::bind]. *)
Definition bind (id container : string) (ev : RegistryEvidence) : RegistryEvidence :=
  mkEvidence (<[id := container]> (boxes ev)) (no_box ev ∖ {[id]})
    (if bool_decide (boxes ev !! id = Some container) then modes ev else delete id (modes ev)).

Definition resolve (id : string) (ev : RegistryEvidence) : option string := boxes ev !! id.

Definition unbind (id : string) (ev : RegistryEvidence) : RegistryEvidence :=
  mkEvidence (delete id (boxes ev)) (no_box ev) (delete id (modes ev)).

Definition mark_no_box (id : string) : M RegistryEvidence ProvError unit :=
  ev ← get_state;
  bail_if (bool_decide (is_Some (boxes ev !! id))) RealBindingExists;;
  modify (λ ev, mkEvidence (boxes ev) ({[id]} ∪ no_box ev) (modes ev)).

Definition has_no_box (id : string) (ev : RegistryEvidence) : bool :=
  bool_decide (id ∈ no_box ev).

Definition forget_no_box (id : string) (ev : RegistryEvidence) : RegistryEvidence :=
  mkEvidence (boxes ev) (no_box ev ∖ {[id]}) (modes ev).

Definition bind_with_route (id container : string) (route : ProviderRoute)
  : M RegistryEvidence ProvError unit :=
  ev ← get_state;
  bail_if (bool_decide (id ∈ no_box ev)
           || match boxes ev !! id with Some old => negb (String.eqb old container) | None => false end
           || match modes ev !! id with Some old => negb (bool_decide (old = route)) | None => false end)
    ConflictingBinding;;
  modify (λ ev, mkEvidence (<[id := container]> (boxes ev)) (no_box ev) (<[id := route]> (modes ev))).

Definition route (id : string) (ev : RegistryEvidence) : result ProvError ProviderRoute :=
  match modes ev !! id with Some r => Ok r | None => Err RouteMissing end.

Definition check_mode (id : string) (ev : RegistryEvidence) : result ProvError bool :=
  r ← route id ev;
  match r with
  | RouteRunner => Ok false
  | RouteCheckHost => Ok true
  | _ => Err InvalidRoute
  end.
End Registry.

(** ** The trait *)
Inductive CleanupTeardown : Type := ConfirmedDestroyed | Retryable | Unconfirmed.

#[export] Instance CleanupTeardown_eq_dec : EqDecision CleanupTeardown.
Proof. solve_decision. Defined.
Inductive ProbeStatus : Type := ProbeAlive | ProbeDead | ProbeUnbound.

Class BoxProvisioner (P : Type) : Type := {
  provision : string → ContainerSpec → M P ProvError unit;
  provider_ref : string → P → result ProvError string;
  restore_provider_ref : string → string → M P ProvError unit;
  teardown : string → M P ProvError unit;
  teardown_pending : string → P → P * CleanupTeardown;
  forget_pending_cleanup : string → P → P;
  probe : string → M P ProvError ProbeStatus;
  binds_boxes : P → bool;
}.

Definition TOOLCHAIN_DIGEST_ENV : string := "TOOLCHAIN_DIGEST".
Definition is_check_host_spec (spec : ContainerSpec) : bool :=
  negb (allow_egress spec) && existsb (λ kv, String.eqb kv.1 TOOLCHAIN_DIGEST_ENV) (spec_env spec).

(** ** No box: [NoBoxProvisioner] *)
Module NoBox.
Section nobox.
Context {codec : BindingCodec}.
Implicit Types leases : gset string.

Definition no_box_provision (id : string) (_ : ContainerSpec) : M (gset string) ProvError unit :=
  modify (λ leases, {[id]} ∪ leases).

Definition no_box_teardown (id : string) : M (gset string) ProvError unit :=
  leases ← get_state;
  if bool_decide (id ∈ leases) then mret () else throw NoEvidence.

Definition no_box_binding_ref (id : string) leases : result ProvError string :=
  if bool_decide (id ∈ leases)
  then encode (mkBinding id BackendNoBox RouteNoBox None "local:nobox")
  else Err NoEvidence.

Definition no_box_restore_binding (id ref : string) : M (gset string) ProvError unit :=
  b ← lift (decode ref);
  bail_if (negb (String.eqb (b_lease_id b) id) || negb (bool_decide (b_backend b = BackendNoBox))
           || negb (bool_decide (b_route b = RouteNoBox))
           || negb (String.eqb (b_domain b) "local:nobox")) BindingMismatch;;
  modify (λ leases, {[id]} ∪ leases).

Definition no_box_teardown_pending (id : string) leases : gset string * CleanupTeardown :=
  (leases, if bool_decide (id ∈ leases) then ConfirmedDestroyed else Unconfirmed).
End nobox.
End NoBox.
Export NoBox.

#[export] Instance NoBoxProvisioner {codec : BindingCodec} : BoxProvisioner (gset string) := {|
  provision := no_box_provision;
  provider_ref := no_box_binding_ref;
  restore_provider_ref := no_box_restore_binding;
  teardown := no_box_teardown;
  teardown_pending := no_box_teardown_pending;
  forget_pending_cleanup id leases := leases ∖ {[id]};
  probe _ := mret ProbeUnbound;
  binds_boxes _ := false;
|}.

(** ** Cloudflare: [CloudflareBoxProvisioner] *)

(** What the Cloudflare engine offers; a handle names a running container, the
    flag is the check mode. *)
Class CloudflareApi (E : Type) : Type := {
  cf_spawn : ContainerSpec → M E ProvError string;
  cf_teardown_with_mode : string → bool → M E ProvError unit;
  cf_is_alive_with_mode : string → bool → M E ProvError bool;
  cf_provider_domain : E → string;
}.

(** An engine with the registry its provisioner and executor share. *)
Record Bound (E : Type) : Type := mkBound { engine : E; registry : RegistryEvidence }.
Arguments mkBound {E}.
Arguments engine {E}.
Arguments registry {E}.

Definition on_engine {E A} (m : M E ProvError A) : M (Bound E) ProvError A := λ p,
  let '(e, r) := m (engine p) in (mkBound e (registry p), r).
Definition on_registry {E A} (m : M RegistryEvidence ProvError A) : M (Bound E) ProvError A := λ p,
  let '(ev, r) := m (registry p) in (mkBound (engine p) ev, r).
Definition with_registry {E} (f : RegistryEvidence → RegistryEvidence) (p : Bound E) : Bound E :=
  mkBound (engine p) (f (registry p)).

Module Cloudflare.
Section cloudflare.
Context {codec : BindingCodec} {E : Type} {api : CloudflareApi E}.

Definition cf_provision (id : string) (spec : ContainerSpec) : M (Bound E) ProvError unit :=
  if negb (allow_egress spec) && negb (is_check_host_spec spec)
  then on_registry (Registry.mark_no_box id)
  else
    p ← get_state;
    lift (validate_domain (cf_provider_domain (engine p)));;
    container ← on_engine (cf_spawn spec);
    on_registry (Registry.bind_with_route id container
      (if is_check_host_spec spec then RouteCheckHost else RouteRunner)).

Definition cf_teardown (id : string) : M (Bound E) ProvError unit :=
  p ← get_state;
  match Registry.resolve id (registry p) with
  | Some c =>
    mode ← lift (Registry.check_mode id (registry p));
    on_engine (cf_teardown_with_mode c mode)
  | None => if Registry.has_no_box id (registry p) then mret () else throw NoEvidence
  end.

Definition cf_teardown_pending (id : string) (p : Bound E) : Bound E * CleanupTeardown :=
  match Registry.resolve id (registry p) with
  | None => (p, if Registry.has_no_box id (registry p) then ConfirmedDestroyed else Unconfirmed)
  | Some c =>
    match Registry.check_mode id (registry p) with
    | Err _ => (p, Unconfirmed)
    | Ok mode =>
      match on_engine (cf_teardown_with_mode c mode) p with
      | (p, Ok _) => (p, ConfirmedDestroyed)
      | (p, Err _) => (p, Retryable)
      end
    end
  end.

Definition cf_probe (id : string) : M (Bound E) ProvError ProbeStatus :=
  p ← get_state;
  match Registry.resolve id (registry p) with
  | None => mret ProbeUnbound
  | Some c =>
    mode ← lift (Registry.check_mode id (registry p));
    alive ← on_engine (cf_is_alive_with_mode c mode);
    mret (if (alive : bool) then ProbeAlive else ProbeDead)
  end.

Definition cf_binding_ref (id : string) (p : Bound E) : result ProvError string :=
  route_handle ←
    match Registry.resolve id (registry p) with
    | Some c => r ← Registry.route id (registry p); Ok (r, Some c)
    | None => if Registry.has_no_box id (registry p) then Ok (RouteNoBox, None) else Err NoEvidence
    end;
  let nobox := bool_decide (route_handle.1 = RouteNoBox) in
  encode (mkBinding id (if nobox then BackendNoBox else BackendCloudflare) route_handle.1
            route_handle.2 (if nobox then "local:nobox" else cf_provider_domain (engine p))).

Definition cf_restore_binding (id ref : string) : M (Bound E) ProvError unit :=
  b ← lift (decode ref);
  bail_if (negb (String.eqb (b_lease_id b) id)) LeaseMismatch;;
  if bool_decide (b_backend b = BackendNoBox) && String.eqb (b_domain b) "local:nobox"
     && bool_decide (b_route b = RouteNoBox)
  then on_registry (Registry.mark_no_box id)
  else
    p ← get_state;
    bail_if (negb (bool_decide (b_backend b = BackendCloudflare))
             || negb (String.eqb (b_domain b) (cf_provider_domain (engine p)))) BindingMismatch;;
    match b_route b, b_handle b with
    | (RouteRunner | RouteCheckHost), Some handle =>
      on_registry (Registry.bind_with_route id handle (b_route b))
    | _, _ => throw InvalidRoute
    end.
End cloudflare.
End Cloudflare.
Export Cloudflare.

#[export] Instance CloudflareBoxProvisioner {codec : BindingCodec} {E} {api : CloudflareApi E}
  : BoxProvisioner (Bound E) := {|
  provision := cf_provision;
  provider_ref := cf_binding_ref;
  restore_provider_ref := cf_restore_binding;
  teardown := cf_teardown;
  teardown_pending := cf_teardown_pending;
  forget_pending_cleanup id p :=
    with_registry (Registry.forget_no_box id) (with_registry (Registry.unbind id) p);
  probe := cf_probe;
  binds_boxes _ := true;
|}.

(** ** Northflank: [NorthflankBoxProvisioner] *)
Class NorthflankApi (E : Type) : Type := {
  nf_spawn : ContainerSpec → M E ProvError string;
  nf_delete_job : string → M E ProvError unit;
  nf_is_alive : string → M E ProvError bool;
  nf_provider_domain : E → result ProvError string;
}.

Module Northflank.
Section northflank.
Context {codec : BindingCodec} {E : Type} {api : NorthflankApi E}.

Definition nf_provision (id : string) (spec : ContainerSpec) : M (Bound E) ProvError unit :=
  p ← get_state;
  domain ← lift (nf_provider_domain (engine p));
  lift (validate_domain domain);;
  container ← on_engine (nf_spawn spec);
  on_registry (Registry.bind_with_route id container
    (if allow_egress spec then RouteRunner
     else if is_check_host_spec spec then RouteCheckHost else RouteCheck)).

Definition nf_teardown (id : string) : M (Bound E) ProvError unit :=
  p ← get_state;
  match Registry.resolve id (registry p) with
  | None => throw NoEvidence
  | Some c => on_engine (nf_delete_job c)
  end.

Definition nf_teardown_pending (id : string) (p : Bound E) : Bound E * CleanupTeardown :=
  match Registry.resolve id (registry p) with
  | None => (p, Unconfirmed)
  | Some c =>
    match on_engine (nf_delete_job c) p with
    | (p, Ok _) => (p, ConfirmedDestroyed)
    | (p, Err _) => (p, Retryable)
    end
  end.

Definition nf_probe (id : string) : M (Bound E) ProvError ProbeStatus :=
  p ← get_state;
  match Registry.resolve id (registry p) with
  | None => mret ProbeUnbound
  | Some c =>
    alive ← on_engine (nf_is_alive c);
    mret (if (alive : bool) then ProbeAlive else ProbeDead)
  end.

Definition nf_binding_ref (id : string) (p : Bound E) : result ProvError string :=
  match Registry.resolve id (registry p) with
  | None => Err NoEvidence
  | Some c =>
    r ← Registry.route id (registry p);
    domain ← nf_provider_domain (engine p);
    encode (mkBinding id BackendNorthflank r (Some c) domain)
  end.

Definition nf_restore_binding (id ref : string) : M (Bound E) ProvError unit :=
  b ← lift (decode ref);
  bail_if (negb (String.eqb (b_lease_id b) id)
           || negb (bool_decide (b_backend b = BackendNorthflank))) BindingMismatch;;
  p ← get_state;
  domain ← lift (nf_provider_domain (engine p));
  bail_if (negb (String.eqb (b_domain b) domain)) BindingMismatch;;
  match b_handle b with
  | None => throw BindingMismatch
  | Some handle => on_registry (Registry.bind_with_route id handle (b_route b))
  end.
End northflank.
End Northflank.
Export Northflank.

#[export] Instance NorthflankBoxProvisioner {codec : BindingCodec} {E} {api : NorthflankApi E}
  : BoxProvisioner (Bound E) | 20 := {|
  provision := nf_provision;
  provider_ref := nf_binding_ref;
  restore_provider_ref := nf_restore_binding;
  teardown := nf_teardown;
  teardown_pending := nf_teardown_pending;
  forget_pending_cleanup id p := with_registry (Registry.unbind id) p;
  probe := nf_probe;
  binds_boxes _ := true;
|}.

(** ** Hybrid: [HybridBoxProvisioner]

    Runner and check-host leases go to one provisioner, plain checks to the
    other; the route is recorded before the box is asked for. *)
Inductive HybridRoute : Type := HybridRunner | HybridCheck | HybridCheckHost.
#[export] Instance HybridRoute_eq_dec : EqDecision HybridRoute.
Proof. solve_decision. Defined.

Record Hybrid (R C : Type) : Type := mkHybrid {
  h_runner : R;
  h_check : C;
  h_routes : gmap string HybridRoute;
}.
Arguments mkHybrid {R C}.
Arguments h_runner {R C}.
Arguments h_check {R C}.
Arguments h_routes {R C}.

Module HybridOps.
Section hybrid.
Context {codec : BindingCodec} {R C : Type} {runner : BoxProvisioner R} {check : BoxProvisioner C}.

Definition hybrid_new (r : R) (c : C) : Hybrid R C := mkHybrid r c ∅.

Definition on_runner {A} (m : M R ProvError A) : M (Hybrid R C) ProvError A := λ p,
  let '(r, x) := m (h_runner p) in (mkHybrid r (h_check p) (h_routes p), x).
Definition on_check {A} (m : M C ProvError A) : M (Hybrid R C) ProvError A := λ p,
  let '(c, x) := m (h_check p) in (mkHybrid (h_runner p) c (h_routes p), x).

(** The subordinate of a route. *)
Definition at_route {A} (route : HybridRoute) (mr : M R ProvError A) (mc : M C ProvError A)
  : M (Hybrid R C) ProvError A :=
  match route with
  | HybridRunner | HybridCheckHost => on_runner mr
  | HybridCheck => on_check mc
  end.

Definition route_of (id : string) (p : Hybrid R C) : option HybridRoute := h_routes p !! id.
Definition record_route (id : string) (route : HybridRoute) (p : Hybrid R C) : Hybrid R C :=
  mkHybrid (h_runner p) (h_check p) (<[id := route]> (h_routes p)).
Definition forget_route (id : string) (p : Hybrid R C) : Hybrid R C :=
  mkHybrid (h_runner p) (h_check p) (delete id (h_routes p)).

Definition route_for (spec : ContainerSpec) : HybridRoute :=
  if allow_egress spec then HybridRunner
  else if is_check_host_spec spec then HybridCheckHost else HybridCheck.

Definition hybrid_provision (id : string) (spec : ContainerSpec) : M (Hybrid R C) ProvError unit :=
  modify (record_route id (route_for spec));;
  at_route (route_for spec) (provision id spec) (provision id spec).

Definition hybrid_teardown (id : string) : M (Hybrid R C) ProvError unit :=
  p ← get_state;
  match route_of id p with
  | None => throw NoEvidence
  | Some route => at_route route (teardown id) (teardown id)
  end.

Definition hybrid_teardown_pending (id : string) (p : Hybrid R C) : Hybrid R C * CleanupTeardown :=
  match route_of id p with
  | None => (p, Unconfirmed)
  | Some (HybridRunner | HybridCheckHost) =>
    let '(r, x) := teardown_pending id (h_runner p) in (mkHybrid r (h_check p) (h_routes p), x)
  | Some HybridCheck =>
    let '(c, x) := teardown_pending id (h_check p) in (mkHybrid (h_runner p) c (h_routes p), x)
  end.

Definition hybrid_forget (id : string) (p : Hybrid R C) : Hybrid R C :=
  match route_of id p with
  | None => p
  | Some (HybridRunner | HybridCheckHost) =>
    forget_route id (mkHybrid (forget_pending_cleanup id (h_runner p)) (h_check p) (h_routes p))
  | Some HybridCheck =>
    forget_route id (mkHybrid (h_runner p) (forget_pending_cleanup id (h_check p)) (h_routes p))
  end.

Definition hybrid_probe (id : string) : M (Hybrid R C) ProvError ProbeStatus :=
  p ← get_state;
  match route_of id p with
  | None => mret ProbeUnbound
  | Some route => at_route route (probe id) (probe id)
  end.

Definition provider_route (route : HybridRoute) : ProviderRoute :=
  match route with
  | HybridRunner => RouteRunner
  | HybridCheckHost => RouteCheckHost
  | HybridCheck => RouteCheck
  end.

Definition with_route (r : ProviderRoute) (b : ProviderBinding) : ProviderBinding :=
  mkBinding (b_lease_id b) (b_backend b) r (b_handle b) (b_domain b).

Definition hybrid_binding_ref (id : string) (p : Hybrid R C) : result ProvError string :=
  match route_of id p with
  | None => Err NoEvidence
  | Some route =>
    ref ← match route with
          | HybridRunner | HybridCheckHost => provider_ref id (h_runner p)
          | HybridCheck => provider_ref id (h_check p)
          end;
    b ← decode ref;
    encode (with_route (provider_route route) b)
  end.

Definition hybrid_route_of (r : ProviderRoute) : option HybridRoute :=
  match r with
  | RouteRunner => Some HybridRunner
  | RouteCheckHost => Some HybridCheckHost
  | RouteCheck => Some HybridCheck
  | RouteNoBox => None
  end.

Definition hybrid_restore_binding (id ref : string) : M (Hybrid R C) ProvError unit :=
  b ← lift (decode ref);
  bail_if (negb (String.eqb (b_lease_id b) id)) LeaseMismatch;;
  match hybrid_route_of (b_route b) with
  | None => throw InvalidRoute
  | Some route =>
    p ← get_state;
    bail_if (match route_of id p with
             | Some old => negb (bool_decide (old = route))
             | None => false
             end) ConflictingRoute;;
    at_route route (restore_provider_ref id ref) (restore_provider_ref id ref);;
    modify (record_route id route)
  end.

(** [HybridLeasedExec]: an executor per route, none for runner leases. *)
Definition hybrid_exec {X A} (check_host check : string → X → result ProvError A)
    (routes : gmap string HybridRoute) (id : string) (argv : X) : result ProvError A :=
  match routes !! id with
  | Some HybridCheckHost => check_host id argv
  | Some HybridCheck => check id argv
  | Some HybridRunner => Err InvalidRoute
  | None => Err NoEvidence
  end.
End hybrid.
End HybridOps.
Export HybridOps.

#[export] Instance HybridBoxProvisioner {codec : BindingCodec} {R C} {runner : BoxProvisioner R}
  {check : BoxProvisioner C} : BoxProvisioner (Hybrid R C) := {|
  provision := hybrid_provision;
  provider_ref := hybrid_binding_ref;
  restore_provider_ref := hybrid_restore_binding;
  teardown := hybrid_teardown;
  teardown_pending := hybrid_teardown_pending;
  forget_pending_cleanup := hybrid_forget;
  probe := hybrid_probe;
  binds_boxes _ := true;
|}.

(** ** Selection of the backend *)
Inductive SelectedBackend : Type := SelHybrid | SelCloudflare | SelNorthflank | SelOff.

Definition select_backend (cf_present nf_present : bool) : SelectedBackend :=
  match cf_present, nf_present with
  | true, true => SelHybrid
  | true, false => SelCloudflare
  | false, true => SelNorthflank
  | false, false => SelOff
  end.

Inductive CloudBackendStatus : Type :=
| Wired
| PartialConfig (present missing : string)
| BackendOff.

Definition cloud_backend_status (get : string → option string) : CloudBackendStatus :=
  let has k := match get k with Some s => negb (String.eqb s "") | None => false end in
  match has "NORTHFLANK_API_TOKEN", has "NORTHFLANK_PROJECT_ID" with
  | true, true => Wired
  | true, false => PartialConfig "NORTHFLANK_API_TOKEN" "NORTHFLANK_PROJECT_ID"
  | false, true => PartialConfig "NORTHFLANK_PROJECT_ID" "NORTHFLANK_API_TOKEN"
  | false, false => BackendOff
  end.
