(* ===== verification/BoxLaws.v ===== *)
(** * What a provisioner promises to the lease service

    The laws behind the [BoxProvisioner] trait, stated on which boxes run for
    which lease, and their proofs for the four provisioners from what the
    provider engines are documented to do.  The round trip of the durable
    binding is here as well. *)
From S2P Require Import Prelude Ledger Journal Text Lease Boxes.

(** ** The binding round trip *)

(** serde_json reads back what it wrote. *)
Class BindingCodecLaws (codec : BindingCodec) : Prop :=
  binding_round_trip b : binding_of_json (binding_to_json b) = Some b.

Lemma result_bind_ok {E A B} (m : result E A) (f : A → result E B) b :
  m ≫= f = Ok b → ∃ a, m = Ok a ∧ f a = Ok b.
Proof. destruct m; [eauto|done]. Qed.

Lemma encode_ok {codec : BindingCodec} b v :
  encode b = Ok v →
  validate_binding b = Ok () ∧ v = PROVIDER_PREFIX +:+ binding_to_json b ∧
  (String.length v ≤ PROVIDER_MAX_BYTES)%nat.
Proof.
  unfold encode. destruct (validate_binding b) as [[]|]; [|done]. cbn [mbind result_bind].
  destruct (Nat.ltb_spec PROVIDER_MAX_BYTES
              (String.length (PROVIDER_PREFIX +:+ binding_to_json b))); [done|].
  intros [= <-]. auto.
Qed.

Lemma decode_encode {codec : BindingCodec} {laws : BindingCodecLaws codec} b v :
  encode b = Ok v →
  decode v = Ok b ∧ safe_component (b_lease_id b) = true ∧
  (∀ h, b_handle b = Some h → safe_component h = true).
Proof.
  intros (Hv & -> & Hl)%encode_ok. unfold decode.
  destruct (Nat.ltb_spec PROVIDER_MAX_BYTES
              (String.length (PROVIDER_PREFIX +:+ binding_to_json b))); [lia|].
  rewrite strip_prefix_app, binding_round_trip, Hv. split; [done|].
  unfold validate_binding in Hv. destruct (safe_component (b_lease_id b)); [|done].
  split; [done|]. intros h Hh. rewrite Hh in Hv. cbn in Hv.
  destruct (b_backend b), (b_route b), (safe_component h); done.
Qed.

(** ** The laws *)
Section relations.
Context {P : Type} (live fresh untraced : P → string → Prop).
Context (placed : P → string → ProviderRoute → Prop) (certified : P → string → string → Prop).

(** An operation on one lease leaves every other one as it was, except that a
    box may end at any time. *)
Record others (id : string) (p p' : P) : Prop := {
  others_live j : j ≠ id → live p' j → live p j;
  others_fresh j : j ≠ id → fresh p j → fresh p' j;
  others_untraced j : j ≠ id → untraced p j → untraced p' j;
  others_placed j r : j ≠ id → placed p j r → placed p' j r;
  others_certified j ref : j ≠ id → certified p j ref → certified p' j ref;
}.

(** An operation that starts no box, for the lease either. *)
Record settles (id : string) (p p' : P) : Prop := {
  settles_others : others id p p';
  settles_live : live p' id → live p id;
  settles_placed r : placed p id r → placed p' id r;
  settles_certified ref : certified p id ref → certified p' id ref;
}.

(** ... and adds no trace of one. *)
Definition traceless (id : string) (p p' : P) : Prop :=
  (fresh p id → fresh p' id) ∧ (untraced p id → untraced p' id).

Lemma others_refl id p : others id p p.
Proof. by constructor. Qed.

Lemma settles_refl id p : settles id p p.
Proof. constructor; [apply others_refl|done..]. Qed.

Lemma traceless_refl id p : traceless id p p.
Proof. done. Qed.

Lemma others_trans id p1 p2 p3 : others id p1 p2 → others id p2 p3 → others id p1 p3.
Proof. intros [] []. constructor; eauto. Qed.

Lemma settles_trans id p1 p2 p3 : settles id p1 p2 → settles id p2 p3 → settles id p1 p3.
Proof. intros [] []. constructor; eauto using others_trans. Qed.
End relations.

(** The bytes of a lease id can be part of a path: [safe_component] without the
    bound on the length. *)
Definition plain_id (id : string) : Prop := all_bytes safe_byte id = true.

(** The provider route of a spec. *)
Definition spec_route (spec : ContainerSpec) : ProviderRoute := provider_route (route_for spec).

(** [live p id]: a box runs for the lease; [fresh p id]: there is no box and no
    trace of one; [untraced p id]: a box may run, but no trace says so;
    [placed p id r]: a box that runs for the lease was started on the route;
    [certified p id ref]: the reference names every box that may run for it. *)
Class BoxLaws (P : Type) {codec : BindingCodec} {prov : BoxProvisioner P} : Type := {
  prov_ok : P → Prop;
  live : P → string → Prop;
  fresh : P → string → Prop;
  untraced : P → string → Prop;
  placed : P → string → ProviderRoute → Prop;
  certified : P → string → string → Prop;
  law_fresh p id : fresh p id → ¬ live p id;
  law_fresh_placed p id r : fresh p id → placed p id r;
  law_provision p id spec :
    prov_ok p → fresh p id → plain_id id → spec_name spec = container_name id →
    let p' := (provision id spec p).1 in
    prov_ok p' ∧ others live fresh untraced placed certified id p p' ∧ placed p' id (spec_route spec);
  law_capacity p id spec :
    prov_ok p → fresh p id → (provision id spec p).2 = Err ProvCapacity →
    untraced (provision id spec p).1 id;
  law_ref p id ref : prov_ok p → provider_ref id p = Ok ref → certified p id ref;
  law_ref_class p id : provider_ref id p ≠ Err ProvCapacity;
  law_restore p id ref :
    prov_ok p → certified p id ref →
    let '(p', r) := restore_provider_ref id ref p in
    prov_ok p' ∧ settles live fresh untraced placed certified id p p' ∧
    (is_ok r = false → traceless fresh untraced id p p');
  law_teardown p id :
    prov_ok p →
    let '(p', r) := teardown id p in
    prov_ok p' ∧ settles live fresh untraced placed certified id p p' ∧ traceless fresh untraced id p p' ∧
    (is_ok r = true → ¬ live p' id);
  law_teardown_pending p id :
    prov_ok p →
    let '(p', r) := teardown_pending id p in
    prov_ok p' ∧ settles live fresh untraced placed certified id p p' ∧ traceless fresh untraced id p p' ∧
    (fresh p id ∨ untraced p id → r ≠ ConfirmedDestroyed) ∧
    (r = ConfirmedDestroyed → ¬ live p' id);
  law_forget p id :
    prov_ok p → ¬ live p id →
    let p' := forget_pending_cleanup id p in
    prov_ok p' ∧ settles live fresh untraced placed certified id p p' ∧ fresh p' id;
  law_probe p id :
    prov_ok p →
    let p' := (probe id p).1 in
    prov_ok p' ∧ settles live fresh untraced placed certified id p p' ∧ traceless fresh untraced id p p';
}.

(** A provisioner for which a reference is as good as the handle and the route
    in it. *)
Class HandleLaws (P : Type) `{BoxLaws P} : Prop := {
  law_certified_placed p id ref b : certified p id ref → decode ref = Ok b → placed p id (b_route b);
  law_certified_handle p id ref ref' b b' :
    certified p id ref → decode ref = Ok b → decode ref' = Ok b' → b_handle b = b_handle b' →
    placed p id (b_route b') → certified p id ref';
}.

(** ** No box *)

(** The binding code itself never reports a lack of capacity. *)
Lemma validate_class b : validate_binding b ≠ Err ProvCapacity.
Proof.
  assert (∀ d, validate_domain d ≠ Err ProvCapacity) as Hd.
  { intros d. unfold validate_domain. destruct (match strip_prefix _ d with Some _ => _ | _ => _ end); [|done].
    destruct (default _ _). by destruct (_ || _). }
  unfold validate_binding. destruct (negb _); [done|].
  destruct (b_backend b), (b_route b), (b_handle b); try done.
  all: first [destruct (negb _); [done|apply Hd]|by destruct (String.eqb _ _)].
Qed.
Lemma encode_class {codec : BindingCodec} b : encode b ≠ Err ProvCapacity.
Proof.
  unfold encode, mbind, result_bind. pose proof (validate_class b). destruct (validate_binding b); [|congruence].
  by destruct (Nat.ltb _ _).
Qed.
Lemma decode_class {codec : BindingCodec} ref : decode ref ≠ Err ProvCapacity.
Proof.
  unfold decode, mbind, result_bind. destruct (Nat.ltb _ _); [done|]. destruct (strip_prefix _ ref) as [json|]; [|done].
  destruct (binding_of_json json) as [b|]; [|done]. pose proof (validate_class b).
  destruct (validate_binding b); congruence.
Qed.

#[export, program] Instance NoBoxLaws {codec : BindingCodec} : BoxLaws (gset string) := {|
  prov_ok _ := True;
  live _ _ := False;
  fresh leases id := id ∉ leases;
  untraced leases id := id ∉ leases;
  placed _ _ _ := True;
  certified _ _ _ := True;
|}.
Next Obligation. auto. Qed.
Next Obligation. done. Qed.
Next Obligation. intros ? p id spec _ _ _ _. split; [done|]. split; [|done]. constructor; cbn; set_solver. Qed.
Next Obligation. done. Qed.
Next Obligation. done. Qed.
Next Obligation. intros ? p id. cbn. unfold no_box_binding_ref. case_bool_decide; [apply encode_class|done]. Qed.
Next Obligation.
  intros ? p id ref _ _. cbn. unfold no_box_restore_binding. step_M;
    (split; [done|]); (split; [|done || by apply traceless_refl]);
    (constructor; [constructor|..]); cbn; set_solver.
Qed.
Next Obligation.
  intros ? p id _. cbn. unfold no_box_teardown. run_M.
  case_bool_decide; (split; [done|split; [apply settles_refl|split; [done|by intros _ ?]]]).
Qed.
Next Obligation.
  intros ? p id _. cbn. split; [done|split; [apply settles_refl|split; [done|split; [|by intros _ ?]]]].
  intros [?|?]; by rewrite bool_decide_false.
Qed.
Next Obligation.
  intros ? p id _ _. cbn. split; [done|]. split; [|set_solver].
  constructor; [constructor|..]; cbn; set_solver.
Qed.
Next Obligation. intros ? p id _. cbn. split; [done|]. split; [apply settles_refl|done]. Qed.

(** ** Engines with a registry *)

(** The names of safe leases are the leases. *)
Lemma sanitize_safe s : all_bytes safe_byte s = true → sanitize s = s.
Proof.
  induction s as [|c s IH]; [done|]. cbn [all_bytes sanitize]. intros [Hc Hs]%andb_true_iff.
  assert (is_ascii_alphanumeric c || one_of "_.-" c = true) as ->; [|by rewrite IH].
  unfold safe_byte in Hc. cbn in *.
  repeat match goal with |- context [bool_decide ?P] => destruct (bool_decide P) end;
    by destruct (is_ascii_alphanumeric c).
Qed.

Lemma container_name_inj i j :
  plain_id i → plain_id j → container_name i = container_name j → i = j.
Proof.
  unfold plain_id, container_name. intros Hi Hj. rewrite !sanitize_safe by done. intros H. cbn in H. by simplify_eq.
Qed.

Section bound.
Context {codec : BindingCodec} {E X : Type} (running : E → gmap string X).
Context (owner : X → string) (on_route : ProviderRoute → X → Prop).
Implicit Types (p : Bound E) (id h c : string) (x : X).

(** A container runs under a handle, with the name of the spec it came from. *)
Definition runs p id h x : Prop :=
  plain_id id ∧ running (engine p) !! h = Some x ∧ owner x = container_name id.
Definition bound_live p id : Prop := ∃ h x, runs p id h x.
Definition bound_placed p id r : Prop := ∀ h x, runs p id h x → on_route r x.

Record bound_ok p : Prop := {
  ok_bound id c h x : boxes (registry p) !! id = Some c → runs p id h x → h = c;
  ok_no_box id : id ∈ no_box (registry p) → ¬ bound_live p id ∧ boxes (registry p) !! id = None;
  ok_modes id m : modes (registry p) !! id = Some m → is_Some (boxes (registry p) !! id) ∧ bound_placed p id m;
}.

Definition bound_untraced p id : Prop :=
  boxes (registry p) !! id = None ∧ (id ∉ no_box (registry p)) ∧ modes (registry p) !! id = None.
Definition bound_fresh p id : Prop := bound_untraced p id ∧ ¬ bound_live p id.

Definition bound_certified p id ref : Prop :=
  ∀ b h x, decode ref = Ok b → runs p id h x → b_handle b = Some h ∧ on_route (b_route b) x.

Abbreviation b_others := (others bound_live bound_fresh bound_untraced bound_placed bound_certified).
Abbreviation b_settles := (settles bound_live bound_fresh bound_untraced bound_placed bound_certified).
Abbreviation b_traceless := (traceless bound_fresh bound_untraced).

Lemma bound_fresh_placed p id r : bound_fresh p id → bound_placed p id r.
Proof. intros [_ Hl] h x Hr. destruct Hl. by exists h, x. Qed.

(** The engine may have stopped boxes. *)
Lemma engine_settles p e' id :
  bound_ok p → running e' ⊆ running (engine p) →
  let p' := mkBound e' (registry p) in
  bound_ok p' ∧ b_settles id p p' ∧ (∀ j, b_traceless j p p').
Proof.
  intros [Hb Hn Hm] Hsub p'.
  assert (∀ j h x, runs p' j h x → runs p j h x) as Hruns.
  { intros j h x (Hs & Hr & Ho). split_and!; [done| |done]. by eapply lookup_weaken. }
  assert (∀ j, bound_live p' j → bound_live p j) as Hlive by (intros j (h & x & ?); exists h, x; eauto).
  assert (∀ j r, bound_placed p j r → bound_placed p' j r) as Hplaced by (intros j r H h x ?; eauto).
  assert (∀ j, b_traceless j p p') as Htr.
  { intros j. split; [|done]. intros [? Hl]. split; [done|]. intros ?. by apply Hl, Hlive. }
  split_and!; [|constructor; [constructor|..]|]; eauto; try (intros j **; by apply Htr);
    try (intros; intros b h x ? ?; eauto).
  constructor; cbn; [eauto|naive_solver|]. intros j m Hj. destruct (Hm j m Hj). eauto.
Qed.

(** The engine spawned, or tried to spawn, a box for a fresh lease. *)
Definition spawned p id r e' : Prop :=
  ∀ h x, running e' !! h = Some x →
  running (engine p) !! h = Some x ∨ (owner x = container_name id ∧ on_route r x).

Lemma spawn_others p id r e' :
  bound_ok p → bound_fresh p id → plain_id id → spawned p id r e' →
  let p' := mkBound e' (registry p) in bound_ok p' ∧ b_others id p p' ∧ bound_placed p' id r.
Proof.
  intros [Hb Hn Hm] ((Hbx & Hnb & Hmd) & Hl) Hsafe Hsp p'.
  assert (∀ j h x, j ≠ id → runs p' j h x → runs p j h x) as Hruns.
  { intros j h x Hj (Hs & Hr & Ho). split_and!; [done| |done]. destruct (Hsp _ _ Hr) as [|[Hn' _]]; [done|].
    rewrite Ho in Hn'. apply container_name_inj in Hn'; done. }
  assert (∀ j, j ≠ id → bound_live p' j → bound_live p j) as Hlive.
  { intros j Hj (h & x & ?); exists h, x; eauto. }
  split_and!; [constructor; cbn|constructor|].
  - intros j c h x Hj. destruct (decide (j = id)) as [->|]; [congruence|]. eauto.
  - intros j Hj. destruct (decide (j = id)) as [->|]; [done|]. naive_solver.
  - intros j m Hj. destruct (decide (j = id)) as [->|]; [congruence|]. destruct (Hm j m Hj) as [? Hp].
    split; [done|]. intros h x ?. eauto.
  - eauto.
  - intros j Hj [? Hj']. split; [done|]. eauto.
  - done.
  - intros j r' Hj Hp h x ?. eauto.
  - intros j ref Hj Hc b h x Hd Hr. eauto.
  - intros h x (_ & Hr & Ho). destruct (Hsp _ _ Hr) as [Hr'|[_ ?]]; [|done]. destruct Hl. by exists h, x.
Qed.

(** ... and if it succeeded, the one box is bound. *)
Lemma spawn_bound p id e' c x route :
  bound_ok p → bound_fresh p id → plain_id id → owner x = container_name id → on_route route x →
  running (engine p) !! c = None → running e' ⊆ <[c := x]> (running (engine p)) →
  let '(ev, r) := Registry.bind_with_route id c route (registry p) in
  bound_ok (mkBound e' ev) ∧ b_others id p (mkBound e' ev) ∧ bound_placed (mkBound e' ev) id route ∧ r = Ok ().
Proof.
  intros Hok Hf Hsafe Hx Hon Hc Hsub.
  assert (∀ h y, running e' !! h = Some y → (h = c ∧ y = x) ∨ running (engine p) !! h = Some y) as Hrun.
  { intros h n Hh. eapply lookup_weaken in Hh; [|done]. rewrite lookup_insert_Some in Hh. naive_solver. }
  destruct (spawn_others p id route e') as ([Hb Hn Hm] & [Ho1 Ho2 Ho3 Ho4 Ho5] & Hpl); [done..| |].
  { intros h y Hh. destruct (Hrun _ _ Hh) as [[_ ->]|]; auto. }
  destruct Hf as ((Hbx & Hnb & Hmd) & Hl).
  unfold Registry.bind_with_route. run_M. rewrite bool_decide_false, Hbx, Hmd by done. cbn.
  split_and!; [|constructor|done|done].
  - constructor; cbn.
    + intros j c' h y. rewrite lookup_insert_Some. intros [[<- <-]|[Hj Hc']] Hr.
      * destruct (Hrun h y) as [[? _]|Hr']; [apply Hr|done|]. destruct Hl. exists h, y.
        destruct Hr as (? & _ & ?). done.
      * by eapply Hb.
    + intros j Hj. assert (j ≠ id) by congruence. rewrite lookup_insert_ne by done. by apply Hn.
    + intros j m. rewrite !lookup_insert_is_Some, lookup_insert_Some.
      intros [[<- <-]|[Hj Hjm]]; [by split; [left|]|]. destruct (Hm j m Hjm). split; [by right|done].
  - exact Ho1.
  - intros j Hj Hfr. destruct (Ho2 j Hj Hfr) as ((?&?&?)&?). unfold bound_fresh, bound_untraced. cbn.
    rewrite !lookup_insert_ne by done. done.
  - intros j Hj (?&?&?). unfold bound_untraced. cbn. by rewrite !lookup_insert_ne.
  - exact Ho4.
  - exact Ho5.
Qed.

(** Changing the registry of one lease moves no box. *)
Lemma registry_settles p ev id :
  (∀ j, j ≠ id → boxes ev !! j = boxes (registry p) !! j ∧ modes ev !! j = modes (registry p) !! j ∧
                 (j ∈ no_box ev ↔ j ∈ no_box (registry p))) →
  b_settles id p (mkBound (engine p) ev).
Proof.
  intros Hj.
  assert (∀ j, j ≠ id → bound_untraced p j → bound_untraced (mkBound (engine p) ev) j) as Hun.
  { intros j Hne. destruct (Hj j Hne) as (Hb & Hm & Hn). unfold bound_untraced. cbn. by rewrite Hb, Hm, Hn. }
  constructor; [constructor|..]; try done. intros j Hne [? Hl]. split; [auto|exact Hl].
Qed.

Lemma restore_bound p id c route :
  bound_ok p → (∀ h x, runs p id h x → h = c ∧ on_route route x) →
  let '(p', r) := on_registry (Registry.bind_with_route id c route) p in
  bound_ok p' ∧ b_settles id p p' ∧ (is_ok r = false → p' = p).
Proof.
  intros Hok Hc. unfold on_registry, Registry.bind_with_route. run_M.
  destruct (bool_decide (id ∈ no_box (registry p)) || _ || _) eqn:Hg; cbn.
  { destruct p. split_and!; [done|apply settles_refl|done]. }
  rewrite !orb_false_iff, bool_decide_eq_false in Hg. destruct Hg as [[Hnb _] _].
  split_and!; [| |done].
  - destruct Hok as [Hb Hn Hm]. constructor; cbn.
    + intros j c' h x. rewrite lookup_insert_Some. intros [[<- <-]|[Hj ?]] Hr; [by eapply Hc|eauto].
    + intros j Hj. assert (j ≠ id) by congruence. rewrite lookup_insert_ne by done. by apply Hn.
    + intros j m. rewrite !lookup_insert_is_Some, lookup_insert_Some.
      intros [[<- <-]|[Hj Hjm]]; [split; [by left|]; intros h x Hr; by apply Hc in Hr as [_ ?]|].
      destruct (Hm j m Hjm). split; [by right|done].
  - apply registry_settles. intros j Hj. cbn. by rewrite !lookup_insert_ne by done.
Qed.

Lemma mark_no_box_settles p id :
  bound_ok p → ¬ bound_live p id →
  let '(p', r) := on_registry (Registry.mark_no_box id) p in
  bound_ok p' ∧ b_settles id p p' ∧ (is_ok r = false → p' = p).
Proof.
  intros Hok Hl. unfold on_registry, Registry.mark_no_box. run_M.
  case_bool_decide as Hb; cbn.
  { destruct p. split_and!; [done|apply settles_refl|done]. }
  apply eq_None_not_Some in Hb. split_and!; [| |done].
  - destruct Hok as [Hb' Hn Hm]. constructor; cbn; [done| |done].
    intros j [->%elem_of_singleton|Hj]%elem_of_union; [done|by apply Hn].
  - apply registry_settles. cbn. set_solver.
Qed.

Lemma forget_settles p id (drop_no_box : bool) :
  bound_ok p → (drop_no_box = false → id ∉ no_box (registry p)) →
  let ev := mkEvidence (delete id (boxes (registry p)))
              (if drop_no_box then no_box (registry p) ∖ {[id]} else no_box (registry p))
              (delete id (modes (registry p))) in
  let p' := mkBound (engine p) ev in
  bound_ok p' ∧ b_settles id p p' ∧ (¬ bound_live p id → bound_fresh p' id).
Proof.
  intros Hok Hd ev p'. split_and!.
  - destruct Hok as [Hb Hn Hm]. constructor; cbn.
    + intros j c h x [Hj ?]%lookup_delete_Some. by apply Hb.
    + intros j Hj. assert (j ∈ no_box (registry p)) as Hj' by (destruct drop_no_box; set_solver).
      destruct (Hn j Hj') as [? ?]. split; [done|]. rewrite lookup_delete_None. auto.
    + intros j m [Hj Hjm]%lookup_delete_Some. rewrite lookup_delete_ne by done. by apply Hm.
  - apply registry_settles. intros j Hj. cbn. rewrite !lookup_delete_ne by done.
    split_and!; [done..|]. destruct drop_no_box; set_solver.
  - intros Hl. split; [|exact Hl]. unfold bound_untraced. cbn. rewrite !lookup_delete_eq.
    split_and!; [done| |done]. destruct drop_no_box; set_solver.
Qed.

Lemma bound_certified_placed p id ref b :
  bound_certified p id ref → decode ref = Ok b → bound_placed p id (b_route b).
Proof. intros Hc Hd h x Hr. by destruct (Hc b h x Hd Hr). Qed.

Lemma bound_certified_handle p id ref ref' b b' :
  bound_certified p id ref → decode ref = Ok b → decode ref' = Ok b' → b_handle b = b_handle b' →
  bound_placed p id (b_route b') → bound_certified p id ref'.
Proof.
  intros Hc Hd Hd' Hh Hp b0 h x Hd0 Hr. assert (b0 = b') as -> by congruence. rewrite <-Hh.
  split; [by destruct (Hc b h x Hd Hr)|by eapply Hp].
Qed.

Lemma bound_fresh_not_live p id : bound_fresh p id → ¬ bound_live p id.
Proof. by intros [_ ?]. Qed.
End bound.

Lemma bind_with_route_no_capacity id c route ev :
  (Registry.bind_with_route id c route ev).2 ≠ Err ProvCapacity.
Proof. unfold Registry.bind_with_route. run_M. by destruct (_ || _). Qed.

(** ** Cloudflare *)

(** What the spawn Worker does: a spawn starts at most the container it names, in
    the namespace of its mode, and says which handle is new when it succeeds; a
    teardown that succeeds leaves no container under the handle in the mode it was
    sent with; nothing else starts one.  A container is known by the name of its
    spec and its mode. *)
Class CloudflareLaws (E : Type) {api : CloudflareApi E} : Type := {
  cf_running : E → gmap string (string * bool);
  cf_spawn_ok spec e e' c :
    cf_spawn spec e = (e', Ok c) →
    cf_running e !! c = None ∧
    cf_running e' ⊆ <[c := (spec_name spec, negb (allow_egress spec))]> (cf_running e);
  cf_spawn_err spec e e' x h b :
    cf_spawn spec e = (e', Err x) → cf_running e' !! h = Some b →
    cf_running e !! h = Some b ∨ b = (spec_name spec, negb (allow_egress spec));
  cf_teardown_stops c mode e :
    cf_running (cf_teardown_with_mode c mode e).1 ⊆ cf_running e ∧
    (is_ok (cf_teardown_with_mode c mode e).2 = true →
     ∀ n, cf_running (cf_teardown_with_mode c mode e).1 !! c ≠ Some (n, mode));
  cf_alive_stops c mode e : cf_running (cf_is_alive_with_mode c mode e).1 ⊆ cf_running e;
}.

(** The mode of a route, and the containers started in it. *)
Definition route_mode (r : ProviderRoute) : option bool :=
  match r with RouteRunner => Some false | RouteCheckHost => Some true | _ => None end.
Definition in_mode (r : ProviderRoute) (b : string * bool) : Prop := route_mode r = Some b.2.

(** The operation changed nothing and confirmed nothing. *)
Ltac nothing_happens := split_and!; first [done|by apply settles_refl].

Section cloudflare_laws.
Context {codec : BindingCodec} {blaws : BindingCodecLaws codec}.
Context {E : Type} {api : CloudflareApi E} {laws : CloudflareLaws E}.
Implicit Types (p : Bound E).

Abbreviation cf_ok := (bound_ok cf_running fst in_mode).
Abbreviation cf_live := (bound_live cf_running fst).
Abbreviation cf_fresh := (bound_fresh cf_running fst).
Abbreviation cf_untraced := bound_untraced.
Abbreviation cf_placed := (bound_placed cf_running fst in_mode).
Abbreviation cf_certified := (bound_certified cf_running fst in_mode).
Abbreviation cf_others := (others cf_live cf_fresh cf_untraced cf_placed cf_certified).
Abbreviation cf_settles := (settles cf_live cf_fresh cf_untraced cf_placed cf_certified).
Abbreviation cf_traceless := (traceless cf_fresh cf_untraced).

Lemma cf_spec_route spec :
  negb (allow_egress spec) && negb (is_check_host_spec spec) = false →
  spec_route spec = (if is_check_host_spec spec then RouteCheckHost else RouteRunner) ∧
  in_mode (spec_route spec) (spec_name spec, negb (allow_egress spec)).
Proof.
  unfold spec_route, route_for, is_check_host_spec, in_mode.
  destruct (allow_egress spec); [done|]. by destruct (existsb _ _).
Qed.

Lemma cf_provision_laws p id spec :
  cf_ok p → cf_fresh p id → plain_id id → spec_name spec = container_name id →
  let p' := (cf_provision id spec p).1 in cf_ok p' ∧ cf_others id p p' ∧ cf_placed p' id (spec_route spec).
Proof.
  intros Hok Hf Hs Hn. unfold cf_provision.
  destruct (negb (allow_egress spec) && negb (is_check_host_spec spec)) eqn:Hg.
  - pose proof (mark_no_box_settles cf_running fst in_mode p id Hok (bound_fresh_not_live _ _ _ _ Hf)) as Hm.
    destruct (on_registry _ p) as [p' r]. destruct Hm as (? & [? _ Hp _] & _).
    split_and!; [done..|]. apply Hp. by apply bound_fresh_placed.
  - apply cf_spec_route in Hg as [<- Hmode].
    unfold mbind, M_bind, get_state, lift.
    destruct (validate_domain (cf_provider_domain (engine p)));
      [|cbn; auto using others_refl, bound_fresh_placed].
    unfold on_engine. destruct (cf_spawn spec (engine p)) as [e' [c|x]] eqn:Hsp.
    + apply cf_spawn_ok in Hsp as [Hc Hsub]. unfold on_registry. cbn [engine registry].
      pose proof (spawn_bound cf_running fst in_mode p id e' c (spec_name spec, _)
        (spec_route spec) Hok Hf Hs Hn Hmode Hc Hsub) as Hb.
      destruct (Registry.bind_with_route _ _ _ _) as [ev r]. cbn. tauto.
    + apply (spawn_others cf_running); [done..|]. intros h b Hh.
      destruct (cf_spawn_err _ _ _ _ _ _ Hsp Hh) as [?| ->]; [by left|right; split; [exact Hn|exact Hmode]].
Qed.

(** The registry sends a teardown in the mode the container was started in. *)
Lemma cf_stop_laws p id c mode :
  cf_ok p → boxes (registry p) !! id = Some c → Registry.check_mode id (registry p) = Ok mode →
  let '(p', r) := on_engine (cf_teardown_with_mode c mode) p in
  cf_ok p' ∧ cf_settles id p p' ∧ cf_traceless id p p' ∧ (is_ok r = true → ¬ cf_live p' id).
Proof.
  intros Hok Hc Hmode. unfold on_engine. destruct (cf_teardown_stops c mode (engine p)) as [Hsub Hstop].
  destruct (cf_teardown_with_mode c mode (engine p)) as [e' r]. cbn in *.
  destruct (engine_settles cf_running fst in_mode p e' id Hok Hsub) as (Hok' & Hset & Hfr).
  split_and!; [done..|]. intros Hr (h & [n m] & Hh).
  assert (h = c) as -> by (eapply (ok_bound _ _ _ _ Hok'); done).
  unfold Registry.check_mode, Registry.route in Hmode. cbn in Hmode.
  destruct (modes (registry p) !! id) as [r'|] eqn:Hm; [|done].
  assert (m = mode) as ->.
  { destruct (ok_modes _ _ _ _ Hok' id r' Hm) as [_ Hp]. specialize (Hp c (n, m) Hh). unfold in_mode in Hp.
    destruct r'; cbn in *; congruence. }
  destruct Hh as (_ & Hh & _). by apply Hstop in Hh.
Qed.

Lemma cf_teardown_laws p id :
  cf_ok p →
  let '(p', r) := cf_teardown id p in
  cf_ok p' ∧ cf_settles id p p' ∧ cf_traceless id p p' ∧ (is_ok r = true → ¬ cf_live p' id).
Proof.
  intros Hok. unfold cf_teardown, mbind, M_bind, get_state, lift, mret, M_ret, throw, Registry.resolve.
  destruct (boxes (registry p) !! id) as [c|] eqn:Hc.
  - destruct (Registry.check_mode id (registry p)) as [mode|] eqn:Hm; [|nothing_happens]. by apply cf_stop_laws.
  - unfold Registry.has_no_box. case_bool_decide as Hnb; [|nothing_happens].
    split_and!; [done|apply settles_refl|done|]. intros _. by apply (ok_no_box _ _ _ _ Hok).
Qed.

Lemma cf_teardown_pending_laws p id :
  cf_ok p →
  let '(p', r) := cf_teardown_pending id p in
  cf_ok p' ∧ cf_settles id p p' ∧ cf_traceless id p p' ∧
  (cf_fresh p id ∨ cf_untraced p id → r ≠ ConfirmedDestroyed) ∧
  (r = ConfirmedDestroyed → ¬ cf_live p' id).
Proof.
  intros Hok. assert (cf_fresh p id ∨ cf_untraced p id → cf_untraced p id) as Hun by (intros [[??]|?]; done).
  unfold cf_teardown_pending, Registry.resolve. destruct (boxes (registry p) !! id) as [c|] eqn:Hc.
  - destruct (Registry.check_mode id (registry p)) as [mode|] eqn:Hm; [|nothing_happens].
    pose proof (cf_stop_laws p id c mode Hok Hc Hm) as Hs.
    destruct (on_engine (cf_teardown_with_mode c mode) p) as [p' [[]|x]]; destruct Hs as (? & ? & ? & ?);
      (split_and!; [done..|intros (? & _)%Hun; congruence|]); [|done]. by auto.
  - unfold Registry.has_no_box. case_bool_decide as Hnb; [|nothing_happens].
    split_and!; [done|apply settles_refl|done|by intros (_ & ? & _)%Hun|].
    intros _. by apply (ok_no_box _ _ _ _ Hok).
Qed.

Lemma decode_valid ref b : decode ref = Ok b → validate_binding b = Ok ().
Proof.
  unfold decode. case_match; [done|]. case_match; [|done].
  destruct (binding_of_json _) as [b'|]; [|done].
  destruct (validate_binding b') as [[]|] eqn:Hv; [|done]. by intros [= <-].
Qed.

Lemma no_box_handle b : validate_binding b = Ok () → b_route b = RouteNoBox → b_handle b = None.
Proof.
  unfold validate_binding. destruct (safe_component (b_lease_id b)); [|done]. cbn. intros H Hr.
  rewrite Hr in H. by destruct (b_backend b), (b_handle b).
Qed.

Lemma cf_ref_certified p id ref : cf_ok p → cf_binding_ref id p = Ok ref → cf_certified p id ref.
Proof.
  intros Hok. unfold cf_binding_ref, Registry.resolve. intros (rh & Hrh & Henc)%result_bind_ok b h x Hd Hr.
  apply decode_encode in Henc as [Hd' _]. rewrite Hd in Hd'. injection Hd' as ->. cbn.
  destruct (boxes (registry p) !! id) as [c|] eqn:Hc.
  - apply result_bind_ok in Hrh as (r & Hroute & [= <-]). cbn. split; [f_equal; symmetry; by eapply ok_bound|].
    unfold Registry.route in Hroute. destruct (modes (registry p) !! id) as [r'|] eqn:Hm; [|done].
    injection Hroute as <-. by eapply (ok_modes _ _ _ _ Hok).
  - destruct (Registry.has_no_box id (registry p)) eqn:Hn; [|done].
    apply bool_decide_eq_true in Hn. destruct (ok_no_box _ _ _ _ Hok id Hn) as [[] _]. by exists h, x.
Qed.

Lemma cf_restore_laws p id ref :
  cf_ok p → cf_certified p id ref →
  let '(p', r) := cf_restore_binding id ref p in
  cf_ok p' ∧ cf_settles id p p' ∧ (is_ok r = false → cf_traceless id p p').
Proof.
  intros Hok Hcert. unfold cf_restore_binding, mbind, M_bind, lift, get_state, bail_if, throw, mret, M_ret.
  destruct (decode ref) as [b|] eqn:Hd; [|nothing_happens].
  destruct (negb (String.eqb (b_lease_id b) id)); [nothing_happens|].
  destruct (bool_decide (b_backend b = BackendNoBox) && _ && _) eqn:Hnb.
  - apply andb_true_iff in Hnb as [_ Hr%bool_decide_eq_true].
    pose proof (mark_no_box_settles cf_running fst in_mode p id Hok) as Hm.
    destruct (on_registry _ p) as [p' r]. destruct Hm as (? & ? & Heq).
    + intros (h & x & Hh). destruct (Hcert _ _ _ Hd Hh) as [Hc _]. rewrite no_box_handle in Hc; [done| |done].
      by eapply decode_valid.
    + split_and!; [done..|]. intros Hr'. by rewrite (Heq Hr').
  - destruct (negb (bool_decide _) || negb _); [nothing_happens|].
    assert (∀ handle, b_handle b = Some handle →
      let '(p', r) := on_registry (Registry.bind_with_route id handle (b_route b)) p in
      cf_ok p' ∧ cf_settles id p p' ∧ (is_ok r = false → cf_traceless id p p')) as Hbind.
    { intros handle Hh. pose proof (restore_bound cf_running fst in_mode p id handle (b_route b) Hok) as Hr.
      destruct (on_registry _ p) as [p' r]. destruct Hr as (? & ? & Heq).
      - intros h x Hrun. destruct (Hcert _ _ _ Hd Hrun) as [? ?]. split; [congruence|done].
      - split_and!; [done..|]. intros Hr'. by rewrite (Heq Hr'). }
    destruct (b_route b), (b_handle b) as [handle|] eqn:Hh; first [by apply Hbind|nothing_happens].
Qed.

Lemma cf_probe_laws p id :
  cf_ok p → let p' := (cf_probe id p).1 in cf_ok p' ∧ cf_settles id p p' ∧ cf_traceless id p p'.
Proof.
  intros Hok. unfold cf_probe, mbind, M_bind, lift, get_state, mret, M_ret.
  destruct (Registry.resolve id (registry p)) as [c|]; [|nothing_happens].
  destruct (Registry.check_mode id (registry p)) as [mode|]; [|nothing_happens].
  unfold on_engine. pose proof (cf_alive_stops c mode (engine p)) as Hsub.
  destruct (cf_is_alive_with_mode c mode (engine p)) as [e' r]. cbn in *.
  destruct (engine_settles cf_running fst in_mode p e' id Hok Hsub) as (? & ? & Hfr).
  destruct r; auto.
Qed.

Lemma cf_capacity_untraced p id spec :
  cf_untraced p id → (cf_provision id spec p).2 = Err ProvCapacity → cf_untraced (cf_provision id spec p).1 id.
Proof.
  intros Hf. unfold cf_provision, mbind, M_bind, get_state, lift.
  destruct (negb (allow_egress spec) && negb (is_check_host_spec spec)).
  { unfold on_registry, Registry.mark_no_box. run_M. by case_bool_decide. }
  destruct (validate_domain _) as [[]|e]; [|done]. unfold on_engine.
  destruct (cf_spawn spec (engine p)) as [e' [c|x]] eqn:Es; cbn; [|done].
  unfold on_registry. cbn. pose proof (bind_with_route_no_capacity id c
    (if is_check_host_spec spec then RouteCheckHost else RouteRunner) (registry p)) as Hn.
  by destruct (Registry.bind_with_route _ _ _ _) as [ev r].
Qed.

#[export, program] Instance CloudflareBoxLaws : BoxLaws (Bound E) (prov := CloudflareBoxProvisioner) := {|
  prov_ok := cf_ok;
  live := cf_live;
  fresh := cf_fresh;
  untraced := cf_untraced;
  placed := cf_placed;
  certified := cf_certified;
|}.
Next Obligation. by apply bound_fresh_not_live. Qed.
Next Obligation. by apply bound_fresh_placed. Qed.
Next Obligation. by apply cf_provision_laws. Qed.
Next Obligation. intros p id spec _ [Hf _]. by apply cf_capacity_untraced. Qed.
Next Obligation. by apply cf_ref_certified. Qed.
Next Obligation.
  intros p id. cbn. unfold cf_binding_ref, Registry.route, mbind, result_bind.
  destruct (Registry.resolve id _); [destruct (modes _ !! id)|destruct (Registry.has_no_box id _)];
    try done; apply encode_class.
Qed.
Next Obligation. by apply cf_restore_laws. Qed.
Next Obligation. by apply cf_teardown_laws. Qed.
Next Obligation. by apply cf_teardown_pending_laws. Qed.
Next Obligation.
  intros p id Hok Hl. destruct (forget_settles cf_running fst in_mode p id true Hok) as (? & ? & ?); [done|].
  cbn in *. split_and!; [done|done|auto].
Qed.
Next Obligation. by apply cf_probe_laws. Qed.

#[export] Instance CloudflareHandleLaws : HandleLaws (Bound E).
Proof. constructor; intros ?; [apply bound_certified_placed|apply bound_certified_handle]. Qed.
End cloudflare_laws.

(** ** Northflank *)
Class NorthflankLaws (E : Type) {api : NorthflankApi E} : Type := {
  nf_running : E → gmap string string;
  nf_spawn_ok spec e e' c :
    nf_spawn spec e = (e', Ok c) →
    nf_running e !! c = None ∧ nf_running e' ⊆ <[c := spec_name spec]> (nf_running e);
  nf_spawn_err spec e e' x h n :
    nf_spawn spec e = (e', Err x) → nf_running e' !! h = Some n →
    nf_running e !! h = Some n ∨ n = spec_name spec;
  nf_delete_stops c e :
    nf_running (nf_delete_job c e).1 ⊆ nf_running e ∧
    (is_ok (nf_delete_job c e).2 = true → nf_running (nf_delete_job c e).1 !! c = None);
  nf_domain_class e : nf_provider_domain e ≠ Err ProvCapacity;
  nf_alive_stops c e : nf_running (nf_is_alive c e).1 ⊆ nf_running e;
}.

(** A job is deleted by its name alone. *)
Definition any_route (_ : ProviderRoute) (_ : string) : Prop := True.

Section northflank_laws.
Context {codec : BindingCodec} {blaws : BindingCodecLaws codec}.
Context {E : Type} {api : NorthflankApi E} {laws : NorthflankLaws E}.
Implicit Types (p : Bound E).

Definition nf_ok p : Prop := bound_ok nf_running id any_route p ∧ no_box (registry p) = ∅.
Abbreviation nf_live := (bound_live nf_running id).
Abbreviation nf_fresh := (bound_fresh nf_running id).
Abbreviation nf_untraced := bound_untraced.
Abbreviation nf_placed := (bound_placed nf_running id any_route).
Abbreviation nf_certified := (bound_certified nf_running id any_route).
Abbreviation nf_others := (others nf_live nf_fresh nf_untraced nf_placed nf_certified).
Abbreviation nf_settles := (settles nf_live nf_fresh nf_untraced nf_placed nf_certified).
Abbreviation nf_traceless := (traceless nf_fresh nf_untraced).

Lemma bind_keeps_no_box l c route ev : no_box (Registry.bind_with_route l c route ev).1 = no_box ev.
Proof. unfold Registry.bind_with_route. run_M. by destruct (_ || _). Qed.

Lemma nf_provision_laws p l spec :
  nf_ok p → nf_fresh p l → plain_id l → spec_name spec = container_name l →
  let p' := (nf_provision l spec p).1 in nf_ok p' ∧ nf_others l p p' ∧ nf_placed p' l (spec_route spec).
Proof.
  intros [Hok Hnb] Hf Hs Hn. unfold nf_provision, mbind, M_bind, get_state, lift.
  destruct (nf_provider_domain (engine p)) as [d|]; [|split_and!; [done|apply others_refl|done]].
  destruct (validate_domain d); [|split_and!; [done|apply others_refl|done]].
  unfold on_engine. destruct (nf_spawn spec (engine p)) as [e' [c|x]] eqn:Hsp.
  - apply nf_spawn_ok in Hsp as [Hc Hsub]. rewrite Hn in Hsub. unfold on_registry. cbn [engine registry].
    match goal with |- context [Registry.bind_with_route l c ?r] =>
      pose proof (spawn_bound nf_running id any_route p l e' c _ r Hok Hf Hs eq_refl I Hc Hsub) as Hb;
      pose proof (bind_keeps_no_box l c r (registry p)) as Hk end.
    destruct (Registry.bind_with_route _ _ _ _) as [ev r]. unfold nf_ok. cbn in *.
    rewrite Hk. destruct Hb as (? & ? & _ & _). done.
  - destruct (spawn_others nf_running id any_route p l (spec_route spec) e') as (Hok' & Ho & Hp); [done..| |done].
    intros h n Hh. rewrite <-Hn. destruct (nf_spawn_err _ _ _ _ _ _ Hsp Hh) as [?|?]; [by left|by right].
Qed.

Lemma nf_stop_laws p l c :
  nf_ok p → boxes (registry p) !! l = Some c →
  let '(p', r) := on_engine (nf_delete_job c) p in
  nf_ok p' ∧ nf_settles l p p' ∧ nf_traceless l p p' ∧ (is_ok r = true → ¬ nf_live p' l).
Proof.
  intros [Hok Hnb] Hc. unfold on_engine. destruct (nf_delete_stops c (engine p)) as [Hsub Hstop].
  destruct (nf_delete_job c (engine p)) as [e' r]. cbn in *.
  destruct (engine_settles nf_running id any_route p e' l Hok Hsub) as (Hok' & Hset & Hfr).
  split_and!; [done|done|done|]. intros Hr (h & x & Hh).
  assert (h = c) as -> by (eapply (ok_bound _ _ _ _ Hok'); done).
  destruct Hh as (_ & Hh & _). cbn in Hh. rewrite Hstop in Hh by done. done.
Qed.

Lemma nf_restore_laws p l ref :
  nf_ok p → nf_certified p l ref →
  let '(p', r) := nf_restore_binding l ref p in
  nf_ok p' ∧ nf_settles l p p' ∧ (is_ok r = false → nf_traceless l p p').
Proof.
  intros [Hok Hnb] Hcert. unfold nf_restore_binding, mbind, M_bind, lift, get_state, bail_if, throw, mret, M_ret.
  destruct (decode ref) as [b|] eqn:Hd; [|nothing_happens].
  destruct (negb (String.eqb (b_lease_id b) l) || _); [nothing_happens|].
  destruct (nf_provider_domain (engine p)) as [d|]; [|nothing_happens].
  destruct (negb (String.eqb (b_domain b) d)); [nothing_happens|].
  destruct (b_handle b) as [handle|] eqn:Hh; [|nothing_happens].
  pose proof (restore_bound nf_running id any_route p l handle (b_route b) Hok) as Hr.
  pose proof (bind_keeps_no_box l handle (b_route b) (registry p)) as Hk.
  unfold on_registry in *. destruct (Registry.bind_with_route _ _ _ _) as [ev r].
  destruct Hr as (? & ? & Heq).
  - intros h x Hrun. destruct (Hcert _ _ _ Hd Hrun). split; [congruence|done].
  - split_and!; [split; [done|cbn in *; by rewrite Hk]|done|]. intros Hr'. by rewrite (Heq Hr').
Qed.

Lemma nf_capacity_untraced p l spec :
  nf_untraced p l → (nf_provision l spec p).2 = Err ProvCapacity → nf_untraced (nf_provision l spec p).1 l.
Proof.
  intros Hf. unfold nf_provision, mbind, M_bind, get_state, lift.
  destruct (nf_provider_domain _) as [d|e]; [|done]. destruct (validate_domain _) as [[]|e]; [|done].
  unfold on_engine. destruct (nf_spawn spec (engine p)) as [e' [c|x]] eqn:Es; cbn; [|done].
  unfold on_registry. cbn. pose proof (bind_with_route_no_capacity l c
    (if allow_egress spec then RouteRunner
     else if is_check_host_spec spec then RouteCheckHost else RouteCheck) (registry p)) as Hn.
  by destruct (Registry.bind_with_route _ _ _ _) as [ev r].
Qed.

#[export, program] Instance NorthflankBoxLaws : BoxLaws (Bound E) (prov := NorthflankBoxProvisioner) := {|
  prov_ok := nf_ok;
  live := nf_live;
  fresh := nf_fresh;
  untraced := nf_untraced;
  placed := nf_placed;
  certified := nf_certified;
|}.
Next Obligation. by apply bound_fresh_not_live. Qed.
Next Obligation. done. Qed.
Next Obligation. by apply nf_provision_laws. Qed.
Next Obligation. intros p l spec _ [Hf _]. by apply nf_capacity_untraced. Qed.
Next Obligation.
  intros p l ref [Hok _]. cbn. unfold nf_binding_ref, Registry.resolve.
  destruct (boxes (registry p) !! l) as [c|] eqn:Hc; [|done].
  intros (r & _ & (d & _ & Henc)%result_bind_ok)%result_bind_ok b h x Hd Hr.
  apply decode_encode in Henc as [Hd' _]. rewrite Hd in Hd'. injection Hd' as ->. cbn.
  split; [|done]. f_equal. symmetry. by eapply ok_bound.
Qed.
Next Obligation.
  intros p l. cbn. unfold nf_binding_ref, Registry.route, mbind, result_bind.
  pose proof (nf_domain_class (engine p)). destruct (Registry.resolve l _); [|done].
  destruct (modes _ !! l); [|done]. destruct (nf_provider_domain _); [apply encode_class|done].
Qed.
Next Obligation. by apply nf_restore_laws. Qed.
Next Obligation.
  intros p l Hok. cbn. unfold nf_teardown, mbind, M_bind, get_state, Registry.resolve, throw.
  destruct (boxes (registry p) !! l) as [c|] eqn:Hc; [|nothing_happens]. by apply nf_stop_laws.
Qed.
Next Obligation.
  intros p l Hok. cbn. assert (nf_fresh p l ∨ nf_untraced p l → nf_untraced p l) as Hun by (intros [[??]|?]; done).
  unfold nf_teardown_pending, Registry.resolve.
  destruct (boxes (registry p) !! l) as [c|] eqn:Hc; [|nothing_happens].
  pose proof (nf_stop_laws p l c Hok Hc) as Hs.
  destruct (on_engine (nf_delete_job c) p) as [p' [[]|]]; destruct Hs as (? & ? & ? & ?);
    (split_and!; [done..|intros (? & _)%Hun; congruence|done || by auto]).
Qed.
Next Obligation.
  intros p l [Hok Hnb] Hl. destruct (forget_settles nf_running id any_route p l false Hok) as (? & ? & ?).
  { intros _. rewrite Hnb. set_solver. }
  cbn in *. split_and!; [done|done|auto].
Qed.
Next Obligation.
  intros p l Hok. cbn. unfold nf_probe, mbind, M_bind, get_state, mret, M_ret.
  destruct (Registry.resolve l (registry p)) as [c|]; [|nothing_happens].
  unfold on_engine. pose proof (nf_alive_stops c (engine p)) as Hsub. destruct Hok as [Hok Hnb].
  destruct (nf_is_alive c (engine p)) as [e' r]. cbn in *.
  destruct (engine_settles nf_running id any_route p e' l Hok Hsub) as (? & ? & Hfr).
  destruct r; cbn; (split; [done|]); auto.
Qed.

#[export] Instance NorthflankHandleLaws : HandleLaws (Bound E).
Proof. constructor; intros ?; [apply bound_certified_placed|apply bound_certified_handle]. Qed.
End northflank_laws.

(** ** Hybrid *)
Section hybrid_laws.
Context {codec : BindingCodec} {blaws : BindingCodecLaws codec}.
Context {R C : Type} {runner : BoxProvisioner R} {check : BoxProvisioner C}.
Context {rlaws : BoxLaws R} {claws : BoxLaws C} {rh : HandleLaws R} {ch : HandleLaws C}.
Implicit Types (p : Hybrid R C).

(** The subordinate a lease is not routed to knows nothing of it, and the one it
    is routed to runs its box on this route. *)
Definition routed p id : Prop :=
  match route_of id p with
  | None => fresh (h_runner p) id ∧ fresh (h_check p) id
  | Some (HybridRunner as r | HybridCheckHost as r) => fresh (h_check p) id ∧ placed (h_runner p) id (provider_route r)
  | Some HybridCheck => fresh (h_runner p) id ∧ placed (h_check p) id RouteCheck
  end.

Definition hy_ok p : Prop := prov_ok (h_runner p) ∧ prov_ok (h_check p) ∧ ∀ id, routed p id.
Definition hy_live p id : Prop := live (h_runner p) id ∨ live (h_check p) id.
Definition hy_fresh p id : Prop := fresh (h_runner p) id ∧ fresh (h_check p) id.
Definition hy_untraced p id : Prop :=
  match route_of id p with
  | None => True
  | Some (HybridRunner | HybridCheckHost) => untraced (h_runner p) id
  | Some HybridCheck => untraced (h_check p) id
  end.
Definition hy_placed (_ : Hybrid R C) (_ : string) (_ : ProviderRoute) : Prop := True.
Definition hy_certified p id ref : Prop :=
  ∀ b, decode ref = Ok b →
  match hybrid_route_of (b_route b) with
  | Some (HybridRunner | HybridCheckHost) => certified (h_runner p) id ref
  | Some HybridCheck => certified (h_check p) id ref
  | None => True
  end.

Abbreviation sub_others := (others live fresh untraced placed certified).
Abbreviation sub_settles := (settles live fresh untraced placed certified).
Abbreviation hy_others := (others hy_live hy_fresh hy_untraced hy_placed hy_certified).
Abbreviation hy_settles := (settles hy_live hy_fresh hy_untraced hy_placed hy_certified).
Abbreviation hy_traceless := (traceless hy_fresh hy_untraced).

(** One subordinate acted on a lease, and its route may have changed. *)
Lemma runner_others p id r' routes :
  sub_others id (h_runner p) r' → (∀ j, j ≠ id → routes !! j = h_routes p !! j) →
  hy_others id p (mkHybrid r' (h_check p) routes).
Proof.
  intros [Hl Hf Hu _ Hc] Hr. constructor.
  - intros j Hj [?|?]; [left; eauto|by right].
  - intros j Hj (? & ?). unfold hy_fresh in *. cbn. auto.
  - intros j Hj. unfold hy_untraced, route_of. cbn. rewrite Hr by done. destruct (h_routes p !! j) as [[]|]; eauto.
  - done.
  - intros j ref Hj Hcert b Hd. specialize (Hcert b Hd). cbn.
    destruct (hybrid_route_of (b_route b)) as [[]|]; eauto.
Qed.

Lemma check_others p id c' routes :
  sub_others id (h_check p) c' → (∀ j, j ≠ id → routes !! j = h_routes p !! j) →
  hy_others id p (mkHybrid (h_runner p) c' routes).
Proof.
  intros [Hl Hf Hu _ Hc] Hr. constructor.
  - intros j Hj [?|?]; [by left|right; eauto].
  - intros j Hj (? & ?). unfold hy_fresh in *. cbn. auto.
  - intros j Hj. unfold hy_untraced, route_of. cbn. rewrite Hr by done. destruct (h_routes p !! j) as [[]|]; eauto.
  - done.
  - intros j ref Hj Hcert b Hd. specialize (Hcert b Hd). cbn.
    destruct (hybrid_route_of (b_route b)) as [[]|]; eauto.
Qed.

Lemma runner_settles p id r' routes :
  sub_settles id (h_runner p) r' → (∀ j, j ≠ id → routes !! j = h_routes p !! j) →
  hy_settles id p (mkHybrid r' (h_check p) routes).
Proof.
  intros [Ho Hl _ Hc] Hr. constructor; [by apply runner_others|..|done|].
  - intros [?|?]; [left; eauto|by right].
  - intros ref Hcert b Hd. specialize (Hcert b Hd). cbn.
    destruct (hybrid_route_of (b_route b)) as [[]|]; eauto.
Qed.

Lemma check_settles p id c' routes :
  sub_settles id (h_check p) c' → (∀ j, j ≠ id → routes !! j = h_routes p !! j) →
  hy_settles id p (mkHybrid (h_runner p) c' routes).
Proof.
  intros [Ho Hl _ Hc] Hr. constructor; [by apply check_others|..|done|].
  - intros [?|?]; [by left|right; eauto].
  - intros ref Hcert b Hd. specialize (Hcert b Hd). cbn.
    destruct (hybrid_route_of (b_route b)) as [[]|]; eauto.
Qed.

(** The other leases stay routed; the lease itself is checked by hand. *)
Lemma runner_ok p id r' routes :
  hy_ok p → prov_ok r' → sub_others id (h_runner p) r' →
  (∀ j, j ≠ id → routes !! j = h_routes p !! j) →
  routed (mkHybrid r' (h_check p) routes) id → hy_ok (mkHybrid r' (h_check p) routes).
Proof.
  intros (Hr & Hc & Hid) Hr' [Hl Hf _ Hp Hce] Hroutes Hi. split_and!; [done..|]. intros j.
  destruct (decide (j = id)) as [->|Hj]; [done|].
  specialize (Hid j). unfold routed, route_of in *. cbn in *. rewrite Hroutes by done.
  destruct (h_routes p !! j) as [[]|]; naive_solver.
Qed.

Lemma check_ok p id c' routes :
  hy_ok p → prov_ok c' → sub_others id (h_check p) c' →
  (∀ j, j ≠ id → routes !! j = h_routes p !! j) →
  routed (mkHybrid (h_runner p) c' routes) id → hy_ok (mkHybrid (h_runner p) c' routes).
Proof.
  intros (Hr & Hc & Hid) Hr' [Hl Hf _ Hp Hce] Hroutes Hi. split_and!; [done..|]. intros j.
  destruct (decide (j = id)) as [->|Hj]; [done|].
  specialize (Hid j). unfold routed, route_of in *. cbn in *. rewrite Hroutes by done.
  destruct (h_routes p !! j) as [[]|]; naive_solver.
Qed.

Lemma insert_route_ne id (route : HybridRoute) p j :
  j ≠ id → <[id := route]> (h_routes p) !! j = h_routes p !! j.
Proof. intros. by rewrite lookup_insert_ne. Qed.

Lemma hy_provision_laws p id spec :
  hy_ok p → hy_fresh p id → plain_id id → spec_name spec = container_name id →
  hy_ok (hybrid_provision id spec p).1 ∧ hy_others id p (hybrid_provision id spec p).1.
Proof.
  intros Hok (Hfr & Hfc) Hs Hn. pose proof Hok as (Hr & Hc & Hid).
  unfold hybrid_provision, mbind, M_bind, modify, at_route, on_runner, on_check, record_route. cbn.
  destruct (route_for spec) eqn:Hroute; cbn.
  1, 3: destruct (law_provision (h_runner p) id spec Hr Hfr Hs Hn) as (Hr' & Ho & Hp);
    unfold spec_route in Hp; rewrite Hroute in Hp;
    destruct (provision id spec (h_runner p)) as [r' x]; cbn in *;
    split; [eapply runner_ok|eapply runner_others]; eauto using insert_route_ne;
    unfold routed, route_of; cbn; by rewrite lookup_insert_eq.
  destruct (law_provision (h_check p) id spec Hc Hfc Hs Hn) as (Hc' & Ho & Hp).
  unfold spec_route in Hp; rewrite Hroute in Hp.
  destruct (provision id spec (h_check p)) as [c' x]. cbn in *.
  split; [eapply check_ok|eapply check_others]; eauto using insert_route_ne.
  unfold routed, route_of; cbn; by rewrite lookup_insert_eq.
Qed.

Lemma hy_ref_certified p id ref : hy_ok p → hybrid_binding_ref id p = Ok ref → hy_certified p id ref.
Proof.
  intros (Hr & Hc & Hid). specialize (Hid id). unfold routed in Hid. unfold hybrid_binding_ref.
  destruct (route_of id p) as [route|]; [|done].
  intros (ref1 & Href & (b1 & Hb1 & Henc)%result_bind_ok)%result_bind_ok b Hd.
  apply decode_encode in Henc as [Hd' _]. pose proof Hd as Hd0. rewrite Hd in Hd'. injection Hd' as ->.
  destruct route; cbn; (eapply law_certified_handle; [by apply law_ref|exact Hb1|exact Hd0|done|apply Hid]).
Qed.

(** The subordinate restored the lease: recorded if it succeeded. *)
Definition same_route p id (route : HybridRoute) : Prop :=
  route_of id p = None ∨ route_of id p = Some route.

Lemma hy_restore_runner p id ref b route :
  hy_ok p → certified (h_runner p) id ref → decode ref = Ok b → hybrid_route_of (b_route b) = Some route →
  same_route p id route → route ≠ HybridCheck →
  let '(r', x) := restore_provider_ref id ref (h_runner p) in
  let p' := mkHybrid r' (h_check p)
              (if is_ok x then <[id := route]> (h_routes p) else h_routes p) in
  hy_ok p' ∧ hy_settles id p p' ∧ (is_ok x = false → hy_traceless id p p').
Proof.
  intros Hok Hcert Hd Hb Hsame Hne. pose proof Hok as (Hr & Hc & Hid). specialize (Hid id).
  pose proof (law_certified_placed _ _ _ _ Hcert Hd) as Hpl.
  assert (provider_route route = b_route b) as Hpr by (destruct (b_route b); cbn in Hb; by simplify_eq).
  pose proof (law_restore (h_runner p) id ref Hr Hcert) as Hl.
  destruct (restore_provider_ref id ref (h_runner p)) as [r' x]. destruct Hl as (Hr' & Hs & Hf).
  pose proof (settles_others _ _ _ _ _ _ _ _ Hs) as Ho. apply (settles_placed _ _ _ _ _ _ _ _ Hs) in Hpl as Hpl'.
  pose proof (settles_placed _ _ _ _ _ _ _ _ Hs) as Hps.
  destruct (is_ok x) eqn:Hx; cbn; split_and!;
    try (apply runner_settles; eauto using insert_route_ne); try done.
  - apply (runner_ok p id); [done..|eauto using insert_route_ne|].
    unfold routed, route_of in *. cbn. rewrite lookup_insert_eq, <-Hpr in *. unfold same_route, route_of in *.
    destruct (h_routes p !! id) as [[]|], route; naive_solver.
  - apply (runner_ok p id); [done..|].
    unfold routed, route_of in *. cbn. unfold same_route, route_of in *.
    destruct (h_routes p !! id) as [[]|], route; naive_solver.
  - intros _. destruct (Hf eq_refl) as [Hf1 Hf2]. split; [intros (? & ?); split; cbn; auto|].
    unfold hy_untraced, route_of in *. cbn. clear -Hf2 Hsame Hne. unfold same_route, route_of in *. destruct (h_routes p !! id) as [[]|]; naive_solver.
Qed.

Lemma hy_restore_check p id ref b :
  hy_ok p → certified (h_check p) id ref → decode ref = Ok b → b_route b = RouteCheck →
  same_route p id HybridCheck →
  let '(c', x) := restore_provider_ref id ref (h_check p) in
  let p' := mkHybrid (h_runner p) c'
              (if is_ok x then <[id := HybridCheck]> (h_routes p) else h_routes p) in
  hy_ok p' ∧ hy_settles id p p' ∧ (is_ok x = false → hy_traceless id p p').
Proof.
  intros Hok Hcert Hd Hb Hsame. pose proof Hok as (Hr & Hc & Hid). specialize (Hid id).
  pose proof (law_certified_placed _ _ _ _ Hcert Hd) as Hpl. rewrite Hb in Hpl.
  pose proof (law_restore (h_check p) id ref Hc Hcert) as Hl.
  destruct (restore_provider_ref id ref (h_check p)) as [c' x]. destruct Hl as (Hc' & Hs & Hf).
  pose proof (settles_others _ _ _ _ _ _ _ _ Hs) as Ho. apply (settles_placed _ _ _ _ _ _ _ _ Hs) in Hpl as Hpl'.
  destruct (is_ok x) eqn:Hx; cbn; split_and!;
    try (apply check_settles; eauto using insert_route_ne); try done.
  - apply (check_ok p id); [done..|eauto using insert_route_ne|].
    unfold routed, route_of in *. cbn. rewrite lookup_insert_eq. unfold same_route, route_of in *.
    destruct (h_routes p !! id) as [[]|]; naive_solver.
  - apply (check_ok p id); [done..|].
    unfold routed, route_of in *. cbn. unfold same_route, route_of in *.
    destruct (h_routes p !! id) as [[]|]; naive_solver.
  - intros _. destruct (Hf eq_refl) as [Hf1 Hf2]. split; [intros (? & ?); split; cbn; auto|].
    unfold hy_untraced, route_of, same_route in *. cbn. destruct (h_routes p !! id) as [[]|]; naive_solver.
Qed.

Lemma hy_restore_laws p id ref :
  hy_ok p → hy_certified p id ref →
  let '(p', r) := hybrid_restore_binding id ref p in
  hy_ok p' ∧ hy_settles id p p' ∧ (is_ok r = false → hy_traceless id p p').
Proof.
  intros Hok Hcert.
  unfold hybrid_restore_binding, mbind, M_bind, lift, get_state, bail_if, throw, mret, M_ret, modify.
  destruct (decode ref) as [b|] eqn:Hd; [|nothing_happens]. specialize (Hcert b Hd).
  destruct (negb (String.eqb (b_lease_id b) id)); [nothing_happens|].
  destruct (hybrid_route_of (b_route b)) as [route|] eqn:Hroute; [|nothing_happens].
  destruct (match route_of id p with Some _ => _ | None => _ end) eqn:Hconf; [nothing_happens|].
  assert (same_route p id route) as Hsame.
  { unfold same_route. destruct (route_of id p) as [old|]; [right|by left].
    apply negb_false_iff, bool_decide_eq_true in Hconf. by subst. }
  unfold at_route, on_runner, on_check.
  destruct route.
  1, 3: pose proof (hy_restore_runner p id ref b _ Hok Hcert Hd Hroute Hsame ltac:(done)) as Hl;
    destruct (restore_provider_ref id ref (h_runner p)) as [r' [[]|]]; exact Hl.
  assert (b_route b = RouteCheck) as Hb by (by destruct (b_route b)).
  pose proof (hy_restore_check p id ref b Hok Hcert Hd Hb Hsame) as Hl.
  destruct (restore_provider_ref id ref (h_check p)) as [c' [[]|]]; exact Hl.
Qed.

(** A subordinate acted on the lease without starting a box. *)
Lemma runner_step p id r' :
  hy_ok p → prov_ok r' → sub_settles id (h_runner p) r' → traceless fresh untraced id (h_runner p) r' →
  let p' := mkHybrid r' (h_check p) (h_routes p) in
  hy_ok p' ∧ hy_settles id p p' ∧
  (match route_of id p with Some HybridCheck => False | _ => True end → hy_traceless id p p').
Proof.
  intros Hok Hr' Hs [Hf Hu] p'. pose proof (settles_others _ _ _ _ _ _ _ _ Hs) as Ho.
  pose proof (settles_placed _ _ _ _ _ _ _ _ Hs) as Hp.
  split_and!; [|by apply runner_settles|].
  - apply (runner_ok p id); [done..|]. destruct Hok as (_ & _ & Hid). specialize (Hid id).
    unfold routed, route_of in *. cbn. destruct (h_routes p !! id) as [[]|]; naive_solver.
  - intros Hroute. split; [intros (?&?); split; cbn; auto|]. unfold hy_untraced, route_of in *. cbn.
    destruct (h_routes p !! id) as [[]|]; naive_solver.
Qed.

Lemma check_step p id c' :
  hy_ok p → prov_ok c' → sub_settles id (h_check p) c' → traceless fresh untraced id (h_check p) c' →
  let p' := mkHybrid (h_runner p) c' (h_routes p) in
  hy_ok p' ∧ hy_settles id p p' ∧ (route_of id p = Some HybridCheck → hy_traceless id p p').
Proof.
  intros Hok Hr' Hs [Hf Hu] p'. pose proof (settles_others _ _ _ _ _ _ _ _ Hs) as Ho.
  pose proof (settles_placed _ _ _ _ _ _ _ _ Hs) as Hp.
  split_and!; [|by apply check_settles|].
  - apply (check_ok p id); [done..|]. destruct Hok as (_ & _ & Hid). specialize (Hid id).
    unfold routed, route_of in *. cbn. destruct (h_routes p !! id) as [[]|]; naive_solver.
  - intros Hroute. split; [intros (?&?); split; cbn; auto|]. unfold hy_untraced, route_of in *. cbn.
    by rewrite Hroute.
Qed.

(** The route says where the only box can be. *)
Lemma routed_live p id route :
  hy_ok p → route_of id p = Some route → hy_live p id →
  match route with HybridCheck => live (h_check p) id | _ => live (h_runner p) id end.
Proof.
  intros (_ & _ & Hid) Hr. specialize (Hid id). unfold routed in Hid. rewrite Hr in Hid.
  intros [Hl|Hl]; destruct route; try done; destruct Hid as [Hid _]; by apply law_fresh in Hid.
Qed.

Lemma hy_teardown_laws p id :
  hy_ok p →
  let '(p', r) := hybrid_teardown id p in
  hy_ok p' ∧ hy_settles id p p' ∧ hy_traceless id p p' ∧ (is_ok r = true → ¬ hy_live p' id).
Proof.
  intros Hok. pose proof Hok as (Hr & Hc & _).
  unfold hybrid_teardown, mbind, M_bind, get_state, throw, at_route, on_runner, on_check.
  destruct (route_of id p) as [route|] eqn:Hroute; [|nothing_happens].
  destruct route.
  1, 3: pose proof (law_teardown (h_runner p) id Hr) as Hl;
    destruct (teardown id (h_runner p)) as [r' x]; destruct Hl as (? & ? & ? & Hstop);
    destruct (runner_step p id r') as (Hok' & ? & Ht); [done..|]; rewrite Hroute in Ht;
    (split_and!; [done|done|by apply Ht|]); intros Hx Hl; apply (Hstop Hx); exact (routed_live _ _ _ Hok' Hroute Hl).
  pose proof (law_teardown (h_check p) id Hc) as Hl.
  destruct (teardown id (h_check p)) as [c' x]. destruct Hl as (? & ? & ? & Hstop).
  destruct (check_step p id c') as (Hok' & ? & Ht); [done..|].
  split_and!; [done|done|by apply Ht|]. intros Hx Hl. apply (Hstop Hx). exact (routed_live _ _ _ Hok' Hroute Hl).
Qed.

Lemma hy_teardown_pending_laws p id :
  hy_ok p →
  let '(p', r) := hybrid_teardown_pending id p in
  hy_ok p' ∧ hy_settles id p p' ∧ hy_traceless id p p' ∧
  (hy_fresh p id ∨ hy_untraced p id → r ≠ ConfirmedDestroyed) ∧
  (r = ConfirmedDestroyed → ¬ hy_live p' id).
Proof.
  intros Hok. pose proof Hok as (Hr & Hc & _). unfold hybrid_teardown_pending, hy_untraced.
  destruct (route_of id p) as [route|] eqn:Hroute; [|nothing_happens].
  destruct route.
  1, 3: pose proof (law_teardown_pending (h_runner p) id Hr) as Hl;
    destruct (teardown_pending id (h_runner p)) as [r' x]; destruct Hl as (? & ? & ? & Hf & Hstop);
    destruct (runner_step p id r') as (Hok' & ? & Ht); [done..|]; rewrite Hroute in Ht;
    (split_and!; [done|done|by apply Ht|intros [[? _]|?]; auto|]);
    intros Hx Hl; apply (Hstop Hx); exact (routed_live _ _ _ Hok' Hroute Hl).
  pose proof (law_teardown_pending (h_check p) id Hc) as Hl.
  destruct (teardown_pending id (h_check p)) as [c' x]. destruct Hl as (? & ? & ? & Hf & Hstop).
  destruct (check_step p id c') as (Hok' & ? & Ht); [done..|].
  split_and!; [done|done|by apply Ht|intros [[_ ?]|?]; auto|].
  intros Hx Hl. apply (Hstop Hx). exact (routed_live _ _ _ Hok' Hroute Hl).
Qed.

Lemma hy_forget_laws p id :
  hy_ok p → ¬ hy_live p id →
  hy_ok (hybrid_forget id p) ∧ hy_settles id p (hybrid_forget id p) ∧ hy_fresh (hybrid_forget id p) id.
Proof.
  intros Hok Hnl. pose proof Hok as (Hr & Hc & Hid). specialize (Hid id).
  unfold routed in Hid. unfold hybrid_forget.
  assert (∀ j, j ≠ id → delete id (h_routes p) !! j = h_routes p !! j) as Hdel.
  { intros j Hj. by rewrite lookup_delete_ne. }
  destruct (route_of id p) as [route|] eqn:Hroute.
  2: { destruct Hid. split; [done|]. split; [apply settles_refl|done]. }
  destruct route; unfold forget_route; cbn; destruct Hid as [Hid _].
  1, 3: destruct (law_forget (h_runner p) id Hr) as (? & Hs & ?); [by intros ?; apply Hnl; left|];
    pose proof (settles_others _ _ _ _ _ _ _ _ Hs) as Ho;
    (split_and!; [apply (runner_ok p id)|by apply runner_settles|]); try done;
    unfold hy_fresh, routed, route_of; cbn; by rewrite ?lookup_delete_eq.
  destruct (law_forget (h_check p) id Hc) as (? & Hs & ?); [by intros ?; apply Hnl; right|].
  pose proof (settles_others _ _ _ _ _ _ _ _ Hs) as Ho.
  split_and!; [apply (check_ok p id)|by apply check_settles|]; try done;
    unfold hy_fresh, routed, route_of; cbn; by rewrite ?lookup_delete_eq.
Qed.

Lemma hy_capacity_untraced p id spec :
  hy_ok p → hy_fresh p id → (hybrid_provision id spec p).2 = Err ProvCapacity →
  hy_untraced (hybrid_provision id spec p).1 id.
Proof.
  intros (Hr & Hc & _) [Hfr Hfc].
  unfold hybrid_provision, mbind, M_bind, modify, at_route, on_runner, on_check, record_route, hy_untraced, route_of. cbn.
  destruct (route_for spec); cbn.
  1, 3: pose proof (law_capacity (h_runner p) id spec Hr Hfr) as Hl;
    destruct (provision id spec (h_runner p)) as [r' x]; cbn in *; rewrite lookup_insert_eq; auto.
  pose proof (law_capacity (h_check p) id spec Hc Hfc) as Hl.
  destruct (provision id spec (h_check p)) as [c' x]; cbn in *. rewrite lookup_insert_eq. auto.
Qed.

#[export, program] Instance HybridBoxLaws : BoxLaws (Hybrid R C) := {|
  prov_ok := hy_ok;
  live := hy_live;
  fresh := hy_fresh;
  untraced := hy_untraced;
  placed := hy_placed;
  certified := hy_certified;
|}.
Next Obligation. intros p id (?&?) [Hl|Hl]; revert Hl; by apply law_fresh. Qed.
Next Obligation. done. Qed.
Next Obligation. intros p id spec ? ? ? ?. destruct (hy_provision_laws p id spec) as [? ?]; [done..|]. by split_and!. Qed.
Next Obligation. apply hy_capacity_untraced. Qed.
Next Obligation. apply hy_ref_certified. Qed.
Next Obligation.
  intros p id. cbn. unfold hybrid_binding_ref, mbind, result_bind. destruct (route_of id p) as [route|]; [|done].
  pose proof (law_ref_class (h_runner p) id) as Hr. pose proof (law_ref_class (h_check p) id) as Hc.
  destruct route.
  1, 3: destruct (provider_ref id (h_runner p)) as [ref|]; [|congruence]; pose proof (decode_class ref);
    destruct (decode ref); [apply encode_class|congruence].
  destruct (provider_ref id (h_check p)) as [ref|]; [|congruence]. pose proof (decode_class ref).
  destruct (decode ref); [apply encode_class|congruence].
Qed.
Next Obligation. apply hy_restore_laws. Qed.
Next Obligation. apply hy_teardown_laws. Qed.
Next Obligation. apply hy_teardown_pending_laws. Qed.
Next Obligation. apply hy_forget_laws. Qed.
Next Obligation.
  intros p id Hok. pose proof Hok as (Hr & Hc & _). cbn.
  unfold hybrid_probe, mbind, M_bind, get_state, mret, M_ret, at_route, on_runner, on_check.
  destruct (route_of id p) as [route|] eqn:Hroute; [|nothing_happens]. destruct route.
  1, 3: destruct (law_probe (h_runner p) id Hr) as (? & ? & ?);
    destruct (probe id (h_runner p)) as [r' x]; destruct (runner_step p id r') as (? & ? & Ht); [done..|];
    rewrite Hroute in Ht; by split_and!; [..|apply Ht].
  destruct (law_probe (h_check p) id Hc) as (? & ? & ?).
  destruct (probe id (h_check p)) as [c' x]. destruct (check_step p id c') as (? & ? & Ht); [done..|].
  by split_and!; [..|apply Ht].
Qed.
End hybrid_laws.
