(* ===== verification/BoxTheorems.v ===== *)
(** * Boxes across restarts and failed spawns

    The durable binding read back by another process, and what is left to a
    process that could not start a box, with a concrete codec and a concrete
    engine that meet the laws. *)
From S2P Require Import Prelude Ledger Journal Text Lease Boxes BoxLaws.

(** ** A codec *)

(** Every character is quoted, so that the end of a string can be told. *)
Fixpoint quote (s : string) : string :=
  match s with "" => "." | String c s => String "+" (String c (quote s)) end.
Fixpoint unquote (s : string) : option (string * string) :=
  match s with
  | String "."%char rest => Some ("", rest)
  | String "+"%char (String c rest) => '(s, rest) ← unquote rest; Some (String c s, rest)
  | _ => None
  end.

Lemma unquote_quote s rest : unquote (quote s +:+ rest) = Some (s, rest).
Proof.
  induction s as [|c s IH]; [done|]. cbn [quote]. rewrite !string_app_cons. cbn [unquote].
  by rewrite IH.
Qed.

Definition tag_backend (b : ProviderBackend) : string :=
  match b with BackendCloudflare => "c" | BackendNorthflank => "n" | BackendNoBox => "x" end.
Definition tag_route (r : ProviderRoute) : string :=
  match r with RouteRunner => "r" | RouteCheck => "c" | RouteCheckHost => "h" | RouteNoBox => "x" end.
Definition untag_backend (t : string) : option ProviderBackend :=
  find (λ b, String.eqb (tag_backend b) t) [BackendCloudflare; BackendNorthflank; BackendNoBox].
Definition untag_route (t : string) : option ProviderRoute :=
  find (λ r, String.eqb (tag_route r) t) [RouteRunner; RouteCheck; RouteCheckHost; RouteNoBox].

Definition quoted_codec : BindingCodec := {|
  binding_to_json b :=
    quote (b_lease_id b) +:+ quote (tag_backend (b_backend b)) +:+ quote (tag_route (b_route b)) +:+
    quote (b_domain b) +:+ match b_handle b with Some h => quote h | None => "" end;
  binding_of_json s :=
    '(id, s) ← unquote s;
    '(bt, s) ← unquote s; backend ← untag_backend bt;
    '(rt, s) ← unquote s; route ← untag_route rt;
    '(domain, s) ← unquote s;
    match s with
    | "" => Some (mkBinding id backend route None domain)
    | _ => '(h, _) ← unquote s; Some (mkBinding id backend route (Some h) domain)
    end;
|}.

#[export] Instance quoted_codec_laws : BindingCodecLaws quoted_codec.
Proof.
  intros [id backend route handle domain]. cbn [binding_to_json binding_of_json quoted_codec].
  cbn [b_lease_id b_backend b_route b_domain b_handle].
  rewrite unquote_quote. cbn [mbind option_bind]. rewrite unquote_quote. cbn [mbind option_bind].
  assert (untag_backend (tag_backend backend) = Some backend) as -> by by destruct backend.
  cbn [mbind option_bind]. rewrite unquote_quote. cbn [mbind option_bind].
  assert (untag_route (tag_route route) = Some route) as -> by by destruct route.
  cbn [mbind option_bind]. rewrite unquote_quote. cbn [mbind option_bind].
  destruct handle as [h|]; [|done].
  pose proof (unquote_quote h "") as Hq. rewrite string_app_nil_r in Hq.
  destruct (quote h) eqn:Hh; [by destruct h|]. rewrite Hq. done.
Qed.

(** A binding that was encoded is decoded to itself, and what is decoded is a
    valid binding: its identity and handle cannot leave their path segment. *)
Theorem binding_decodes_back {codec : BindingCodec} {laws : BindingCodecLaws codec} b v :
  encode b = Ok v →
  decode v = Ok b ∧ safe_component (b_lease_id b) = true ∧
  (∀ h, b_handle b = Some h → safe_component h = true).
Proof. apply decode_encode. Qed.

(** ** An engine *)

(** Containers by handle, with their mode; the handle is the name.  There is room
    for one: the next spawn is refused for lack of capacity.  The answer of a
    spawn of the image [lost] does not arrive. *)
Definition toy_cloudflare : CloudflareApi (gmap string (string * bool)) := {|
  cf_spawn spec e :=
    if bool_decide (e ≠ ∅) then (e, Err ProvCapacity)
    else (<[spec_name spec := (spec_name spec, negb (allow_egress spec))]> e,
          if String.eqb (spec_image spec) "lost" then Err ProvFailed else Ok (spec_name spec));
  cf_teardown_with_mode c mode e :=
    (match e !! c with Some (_, m) => if Bool.eqb m mode then delete c e else e | None => e end, Ok ());
  cf_is_alive_with_mode c mode e :=
    (e, Ok (match e !! c with Some (_, m) => Bool.eqb m mode | None => false end));
  cf_provider_domain _ := "https://spawn.example";
|}.

#[export, program] Instance toy_cloudflare_laws : CloudflareLaws _ (api := toy_cloudflare) := {|
  cf_running e := e;
|}.
Next Obligation.
  cbn. intros spec e e' c. case_bool_decide as Hs; [done|]. subst e.
  by destruct (String.eqb _ _); intros [= <- <-].
Qed.
Next Obligation.
  cbn. intros spec e e' x h n. case_bool_decide; [intros [= <- <-]; auto|].
  intros [= <- _]. rewrite lookup_insert_Some. intros [[_ <-]|[_ ?]]; auto.
Qed.
Next Obligation.
  intros c mode e. cbn. destruct (e !! c) as [[n m]|] eqn:Hc; [|by split; [|intros _ n; rewrite Hc]].
  destruct (Bool.eqb m mode) eqn:Hm.
  - split; [apply delete_subseteq|]. by rewrite lookup_delete_eq.
  - split; [done|]. intros _ n'. rewrite Hc. intros [= _ ->]. by rewrite Bool.eqb_reflx in Hm.
Qed.
Next Obligation. done. Qed.

Definition toy_spec (image : string) : ContainerSpec := mkSpec "hugit-job-l1" image "/tmp" false true true [] [].
Definition toy_boxes : Bound (gmap string (string * bool)) := mkBound ∅ registry_new.

(** ** Restarts and failed spawns *)
Section cloudflare_theorems.
Context {codec : BindingCodec} {blaws : BindingCodecLaws codec}.
Context {E : Type} {api : CloudflareApi E} {laws : CloudflareLaws E}.
Implicit Types (p : Bound E).

(** What a registry knows of a lease. *)
Definition evidence_of (id : string) (ev : RegistryEvidence) : option string * option ProviderRoute * bool :=
  (boxes ev !! id, modes ev !! id, Registry.has_no_box id ev).

(** C34: A new process that finds only the durable reference restores the evidence
    the old process had, so it tears down and probes the same container. *)
Theorem restart_finds_box p id ref :
  bound_ok cf_running fst in_mode p → provider_ref (BoxProvisioner := CloudflareBoxProvisioner) id p = Ok ref →
  ∃ p', restore_provider_ref (BoxProvisioner := CloudflareBoxProvisioner) id ref
          (mkBound (engine p) registry_new) = (p', Ok ()) ∧
        engine p' = engine p ∧ evidence_of id (registry p') = evidence_of id (registry p).
Proof.
  intros Hok Href. cbn in *. unfold cf_binding_ref, Registry.resolve in Href.
  apply result_bind_ok in Href as ([r oh] & Hrh & Henc). cbn in Henc.
  pose proof (proj1 (encode_ok _ _ Henc)) as Hval.
  apply decode_encode in Henc as [Hd _].
  unfold cf_restore_binding, mbind, M_bind, lift, get_state, bail_if, mret, M_ret. rewrite Hd. cbn [b_lease_id].
  rewrite (proj2 (String.eqb_eq id id) eq_refl). cbn [negb b_backend b_route b_domain b_handle].
  unfold evidence_of. destruct (boxes (registry p) !! id) as [c|] eqn:Hc.
  - apply result_bind_ok in Hrh as (r' & Hr' & [= <- <-]). unfold Registry.route in Hr'.
    destruct (modes (registry p) !! id) as [m|] eqn:Hm; [|done]. injection Hr' as <-.
    assert (Registry.has_no_box id (registry p) = false) as ->.
    { apply bool_decide_eq_false. intros Hn. by destruct (ok_no_box _ _ _ _ Hok id Hn); congruence. }
    unfold validate_binding in Hval. cbn in Hval. destruct (safe_component id); [|done].
    assert (m ≠ RouteNoBox) as Hne by (intros ->; done).
    rewrite (bool_decide_false (m = RouteNoBox)) in * by done.
    rewrite (bool_decide_false (BackendCloudflare = BackendNoBox)) by done.
    cbn [andb engine registry].
    rewrite (bool_decide_true (BackendCloudflare = BackendCloudflare)), String.eqb_refl by done. cbn.
    destruct m; try done; eexists; (split; [reflexivity|]); cbn; by rewrite !lookup_insert_eq.
  - destruct (Registry.has_no_box id (registry p)) eqn:Hn; [|done]. injection Hrh as <- <-. cbn.
    destruct (modes (registry p) !! id) as [m|] eqn:Hm.
    { destruct (ok_modes _ _ _ _ Hok id m Hm) as [[? ?] _]. congruence. }
    eexists. split; [reflexivity|]. cbn. split; [done|]. f_equal.
    unfold Registry.has_no_box. cbn. apply bool_decide_eq_true. set_solver.
Qed.

(** A spawn that failed leaves no handle behind, so the cleanup of the lease is
    never confirmed, however often it is retried. *)
Theorem failed_spawn_is_never_confirmed p id spec e' x n :
  bound_untraced p id →
  allow_egress spec = true →
  cf_spawn spec (engine p) = (e', Err x) →
  let p' := (provision (BoxProvisioner := CloudflareBoxProvisioner) id spec p).1 in
  let retry := λ q, (teardown_pending (BoxProvisioner := CloudflareBoxProvisioner) id q).1 in
  (teardown_pending (BoxProvisioner := CloudflareBoxProvisioner) id (Nat.iter n retry p')).2 = Unconfirmed.
Proof.
  intros (Hb & Hnb & _) Heg Hsp p' retry.
  assert (boxes (registry p') !! id = None ∧ id ∉ no_box (registry p')) as [Hb' Hnb'].
  { subst p'. cbn. unfold cf_provision, mbind, M_bind, get_state, lift. rewrite Heg. cbn.
    destruct (validate_domain _); [|done]. unfold on_engine. by rewrite Hsp. }
  assert (∀ q, boxes (registry q) !! id = None → id ∉ no_box (registry q) →
    cf_teardown_pending id q = (q, Unconfirmed)) as Hq.
  { intros q Hqb Hqn. unfold cf_teardown_pending, Registry.resolve, Registry.has_no_box.
    by rewrite Hqb, bool_decide_false. }
  assert (Nat.iter n retry p' = p') as ->; [|cbn; by rewrite Hq].
  induction n as [|n IH]; [done|].
  change (Nat.iter (S n) retry p') with (retry (Nat.iter n retry p')). rewrite IH. unfold retry. cbn. by rewrite Hq.
Qed.
End cloudflare_theorems.

Lemma binding_decodes_back_witness :
  let b := mkBinding "l1" BackendCloudflare RouteRunner (Some "hugit-job-l1") "https://spawn.example" in
  ∃ v, encode (codec := quoted_codec) b = Ok v ∧ decode (codec := quoted_codec) v = Ok b.
Proof.
  eexists. split; [vm_compute; reflexivity|].
  refine (proj1 (binding_decodes_back (codec := quoted_codec) _ _ _)). vm_compute. reflexivity.
Defined.

Lemma toy_boxes_ok : bound_ok (cf_running (CloudflareLaws := toy_cloudflare_laws)) fst in_mode toy_boxes.
Proof.
  constructor; cbn; intros *; [by rewrite lookup_empty|set_solver|by rewrite lookup_empty].
Qed.
Lemma toy_boxes_fresh id : bound_fresh (cf_running (CloudflareLaws := toy_cloudflare_laws)) fst toy_boxes id.
Proof.
  split; [split_and!; [done|set_solver|done]|]. intros (h & x & _ & Hr & _). cbn in Hr. by rewrite lookup_empty in Hr.
Qed.

Lemma restart_finds_box_witness :
  let prov := CloudflareBoxProvisioner (codec := quoted_codec) (api := toy_cloudflare) in
  let p := (provision (BoxProvisioner := prov) "l1" (toy_spec "img") toy_boxes).1 in
  ∃ ref p', provider_ref (BoxProvisioner := prov) "l1" p = Ok ref ∧
    restore_provider_ref (BoxProvisioner := prov) "l1" ref (mkBound (engine p) registry_new) = (p', Ok ()) ∧
    engine p' = engine p ∧ evidence_of "l1" (registry p') = evidence_of "l1" (registry p).
Proof.
  intros prov p. eexists.
  refine (match restart_finds_box (codec := quoted_codec) (api := toy_cloudflare) p "l1" _ _ _ with
          | ex_intro _ p' H => ex_intro _ p' (conj _ H) end).
  - refine (proj1 (law_provision (BoxLaws := CloudflareBoxLaws (codec := quoted_codec)
      (api := toy_cloudflare)) toy_boxes "l1" (toy_spec "img") toy_boxes_ok (toy_boxes_fresh "l1") _ _));
      vm_compute; reflexivity.
  - vm_compute. reflexivity.
  - vm_compute. reflexivity.
Defined.

Lemma failed_spawn_is_never_confirmed_witness :
  let prov := CloudflareBoxProvisioner (codec := quoted_codec) (api := toy_cloudflare) in
  let p' := (provision (BoxProvisioner := prov) "l1" (toy_spec "lost") toy_boxes).1 in
  let retry := λ q, (teardown_pending (BoxProvisioner := prov) "l1" q).1 in
  engine p' !! "hugit-job-l1" = Some ("hugit-job-l1", false) ∧
  (teardown_pending (BoxProvisioner := prov) "l1" (Nat.iter 3 retry p')).2 = Unconfirmed.
Proof.
  split; [vm_compute; reflexivity|].
  refine (failed_spawn_is_never_confirmed (codec := quoted_codec) (api := toy_cloudflare)
    toy_boxes "l1" (toy_spec "lost") (<["hugit-job-l1" := ("hugit-job-l1", false)]> ∅) ProvFailed 3
    (proj1 (toy_boxes_fresh "l1")) _ _);
    vm_compute; reflexivity.
Defined.
