(* ===== verification/PgQueue.v ===== *)
(** * The shared admission queue

    Models [crates/corelink-fabric/src/pg_queue.rs]: the queue of pending
    admissions that several instances share in Postgres.  Each method is one
    transaction, which the per-tenant advisory lock and the row locks serialise.
    A claim skips the rows that other transactions have locked, and among rows
    that the order does not tell apart the database takes any: [locked] and
    [rank] stand for what it does. *)
From S2P Require Import Prelude Tenant.

(** [struct PendingAdmission], a row of [pg_admission_queue]. *)
Record PendingAdmission : Type := mkPendingAdmission {
  pa_tenant : TenantId;
  lease_request_id : string;
  pa_enqueued_at_ms : Z;
  deficit : Z;
}.

(** The two tables of the DDL, by primary key. *)
Record AdmissionTables : Type := mkAdmissionTables {
  pg_admission_queue : gmap string PendingAdmission;
  pg_admission_deficit : gmap TenantId Z;
}.
Definition admission_tables_empty : AdmissionTables := mkAdmissionTables ∅ ∅.

Inductive QueueError : Type := AlreadyQueued | CountOverflow | QueueUnreachable.
Abbreviation QueueM := (M AdmissionTables QueueError).

(** [fn fair_order]. *)
Definition fair_order (a b : PendingAdmission) : comparison :=
  match deficit a ?= deficit b with
  | Eq => pa_enqueued_at_ms a ?= pa_enqueued_at_ms b
  | c => c
  end.

Module AdmissionDb.
(** [PgAdmissionQueue::enqueue]: the row is stamped with the tenant's admits. *)
Definition enqueue (t : TenantId) (id : string) (at_ms : Z) : QueueM PendingAdmission := λ db,
  let row := mkPendingAdmission t id at_ms (default 0 (pg_admission_deficit db !! t)) in
  match pg_admission_queue db !! id with
  | Some _ => (db, Err AlreadyQueued)
  | None => (mkAdmissionTables (<[id := row]> (pg_admission_queue db)) (pg_admission_deficit db), Ok row)
  end.

(** The first row in the fair order; [rank] decides where it does not. *)
Definition goes_first (rank : string → Z) (a b : PendingAdmission) : bool :=
  match fair_order a b with
  | Lt => true
  | Gt => false
  | Eq => rank (lease_request_id a) <=? rank (lease_request_id b)
  end.
Fixpoint head_row (rank : string → Z) (rows : list PendingAdmission) : option PendingAdmission :=
  match rows with
  | [] => None
  | r :: rows =>
    match head_row rank rows with
    | Some b => Some (if goes_first rank r b then r else b)
    | None => Some r
    end
  end.

(** The rows a claim sees. *)
Definition claimable (locked : gset string) (only_ids : option (list string)) (r : PendingAdmission) : Prop :=
  (lease_request_id r ∉ locked) ∧ match only_ids with Some ids => lease_request_id r ∈ ids | None => True end.
#[global] Instance claimable_dec locked only_ids r : Decision (claimable locked only_ids r).
Proof. unfold claimable. destruct only_ids; apply _. Defined.

(** [dequeue_head]: select for update, skip locked, and delete. *)
Definition dequeue_head (locked : gset string) (rank : string → Z) (only_ids : option (list string)) :
    QueueM (option PendingAdmission) := λ db,
  match head_row rank (filter (claimable locked only_ids) (map_values (pg_admission_queue db))) with
  | None => (db, Ok None)
  | Some r =>
    (mkAdmissionTables (delete (lease_request_id r) (pg_admission_queue db)) (pg_admission_deficit db), Ok (Some r))
  end.
Definition dequeue_next (locked : gset string) (rank : string → Z) : QueueM (option PendingAdmission) :=
  dequeue_head locked rank None.
Definition dequeue_next_local (locked : gset string) (rank : string → Z) (local_ids : list string) :
    QueueM (option PendingAdmission) :=
  match local_ids with [] => mret None | _ => dequeue_head locked rank (Some local_ids) end.

(** [admit]: one more admit for the tenant; the column is a [bigint]. *)
Definition admit_won (t : TenantId) : QueueM unit := λ db,
  let n := default 0 (pg_admission_deficit db !! t) + 1 in
  if n <=? I64_MAX
  then (mkAdmissionTables (pg_admission_queue db) (<[t := n]> (pg_admission_deficit db)), Ok ())
  else (db, Err CountOverflow).

(** [remove]. *)
Definition remove (id : string) : QueueM bool := λ db,
  (mkAdmissionTables (delete id (pg_admission_queue db)) (pg_admission_deficit db),
   Ok (bool_decide (is_Some (pg_admission_queue db !! id)))).

(** [pending]. *)
Definition pending (t : TenantId) (db : AdmissionTables) : nat :=
  length (filter (λ r, pa_tenant r = t) (map_values (pg_admission_queue db))).
End AdmissionDb.

(** ** Histories

    Any interleaving of the transactions of all instances is a sequence of
    operations; what happened is a sequence of events. *)
Inductive queue_op : Type :=
| QEnqueue (t : TenantId) (id : string) (at_ms : Z)
| QClaim (locked : gset string) (rank : string → Z) (only_ids : option (list string))
| QAdmit (t : TenantId)
| QRemove (id : string).

Inductive queue_event : Type :=
| EQueued (r : PendingAdmission) | EClaimed (r : PendingAdmission) | ERemoved (id : string)
| EAdmitted (t : TenantId) | ENothing.

Definition queue_step (o : queue_op) (db : AdmissionTables) : AdmissionTables * queue_event :=
  match o with
  | QEnqueue t id at_ms =>
    let '(db, r) := AdmissionDb.enqueue t id at_ms db in
    (db, match r with Ok row => EQueued row | Err _ => ENothing end)
  | QClaim locked rank only_ids =>
    let '(db, r) := AdmissionDb.dequeue_head locked rank only_ids db in
    (db, match r with Ok (Some row) => EClaimed row | _ => ENothing end)
  | QAdmit t =>
    let '(db, r) := AdmissionDb.admit_won t db in (db, match r with Ok _ => EAdmitted t | Err _ => ENothing end)
  | QRemove id =>
    let '(db, r) := AdmissionDb.remove id db in (db, match r with Ok true => ERemoved id | _ => ENothing end)
  end.

Fixpoint queue_run (os : list queue_op) (db : AdmissionTables) : AdmissionTables * list queue_event :=
  match os with
  | [] => (db, [])
  | o :: os =>
    let '(db, e) := queue_step o db in
    let '(db, es) := queue_run os db in (db, e :: es)
  end.

(** How often a request came and went, and how often a tenant was admitted. *)
Definition came (id : string) (e : queue_event) : nat :=
  match e with EQueued r => if decide (lease_request_id r = id) then 1 else 0 | _ => 0 end.
Definition went (id : string) (e : queue_event) : nat :=
  match e with
  | EClaimed r => if decide (lease_request_id r = id) then 1 else 0
  | ERemoved id' => if decide (id' = id) then 1 else 0
  | _ => 0
  end.
Definition won (t : TenantId) (e : queue_event) : nat :=
  match e with EAdmitted t' => if decide (t' = t) then 1 else 0 | _ => 0 end.
Definition times (f : queue_event → nat) (es : list queue_event) : nat := foldr (λ e n, f e + n)%nat 0%nat es.
Definition waiting (id : string) (db : AdmissionTables) : nat :=
  match pg_admission_queue db !! id with Some _ => 1 | None => 0 end.
Definition admits (t : TenantId) (db : AdmissionTables) : Z := default 0 (pg_admission_deficit db !! t).

(** Rows are found under their id. *)
Definition queue_wf (db : AdmissionTables) : Prop :=
  map_Forall (λ id r, lease_request_id r = id) (pg_admission_queue db).

Lemma times_cons f e es : times f (e :: es) = (f e + times f es)%nat.
Proof. done. Qed.
Lemma times_app f es es' : times f (es ++ es') = (times f es + times f es')%nat.
Proof. unfold times. induction es as [|e es IH]; cbn; lia. Qed.

(** ** The head of the queue *)
Lemma goes_first_spec rank a b :
  if AdmissionDb.goes_first rank a b then fair_order a b ≠ Gt else fair_order b a ≠ Gt.
Proof.
  unfold AdmissionDb.goes_first. destruct (fair_order a b) eqn:E; [|done|].
  - destruct (_ <=? _); [done|]. unfold fair_order in *. rewrite (Z.compare_antisym (deficit a)).
    destruct (deficit a ?= deficit b); [|done..]. cbn. rewrite (Z.compare_antisym (pa_enqueued_at_ms a)). by rewrite E.
  - unfold fair_order in *. rewrite (Z.compare_antisym (deficit a)).
    destruct (deficit a ?= deficit b); [|done..]. cbn. rewrite (Z.compare_antisym (pa_enqueued_at_ms a)). by rewrite E.
Qed.

(** The order as one on numbers. *)
Lemma fair_order_le a b :
  fair_order a b ≠ Gt ↔ deficit a < deficit b ∨ deficit a = deficit b ∧ pa_enqueued_at_ms a ≤ pa_enqueued_at_ms b.
Proof.
  unfold fair_order. destruct (Z.compare_spec (deficit a) (deficit b)).
  - split; [intros Hle; right; by split|]. intros [?|[_ Hle]]; [lia|exact Hle].
  - split; [by left|done].
  - split; [done|lia].
Qed.

Lemma head_row_spec rank rows :
  match AdmissionDb.head_row rank rows with
  | Some r => r ∈ rows ∧ ∀ r', r' ∈ rows → fair_order r r' ≠ Gt
  | None => rows = []
  end.
Proof.
  induction rows as [|a rows IH]; [done|]. cbn [AdmissionDb.head_row].
  destruct (AdmissionDb.head_row rank rows) as [b|].
  - destruct IH as [Hb Hmin]. pose proof (goes_first_spec rank a b) as Hab.
    destruct (AdmissionDb.goes_first rank a b); (split; [set_solver|]); intros r' [->|Hin]%elem_of_cons;
      try done; try (apply fair_order_le; lia); auto.
    apply fair_order_le. apply fair_order_le in Hab. specialize (Hmin r' Hin). apply fair_order_le in Hmin. lia.
  - subst rows. split; [set_solver|]. intros r' Hin%list_elem_of_singleton. subst r'. apply fair_order_le. lia.
Qed.

(** ** One transaction *)
Lemma step_counts o db :
  queue_wf db →
  let '(db', e) := queue_step o db in
  queue_wf db' ∧ (∀ id, waiting id db' + went id e = waiting id db + came id e)%nat ∧
  ∀ t, admits t db' = admits t db + Z.of_nat (won t e).
Proof.
  intros Hwf. unfold waiting, admits. destruct o as [t id at_ms|locked rank only_ids|t|id]; cbn [queue_step].
  - unfold AdmissionDb.enqueue. destruct (pg_admission_queue db !! id) as [r|] eqn:Hr; cbn; [split_and!; [done|intros; lia..]|].
    split_and!; [by apply map_Forall_insert_2| |intros; lia]. intros j.
    destruct (decide (id = j)) as [->|]; [rewrite lookup_insert_eq, Hr|rewrite lookup_insert_ne by done]; repeat case_decide; (done || lia).
  - unfold AdmissionDb.dequeue_head. pose proof (head_row_spec rank (filter (AdmissionDb.claimable locked only_ids)
      (map_values (pg_admission_queue db)))) as Hh.
    destruct (AdmissionDb.head_row _ _) as [r|]; cbn; [|split_and!; [done|intros; lia..]].
    destruct Hh as [[_ [k Hk]%elem_of_map_values]%list_elem_of_filter _]. assert (lease_request_id r = k) as <- by exact (Hwf k r Hk).
    split_and!; [by apply map_Forall_delete| |intros; lia]. intros j.
    destruct (decide (lease_request_id r = j)) as [<-|]; [rewrite lookup_delete_eq, Hk|rewrite lookup_delete_ne by done]; repeat case_decide; (done || lia).
  - unfold AdmissionDb.admit_won. destruct (_ <=? _); cbn; (split_and!; [done|intros; lia|]); intros u; [|lia].
    destruct (decide (t = u)) as [->|]; [rewrite lookup_insert_eq|rewrite lookup_insert_ne by done]; cbn; lia.
  - unfold AdmissionDb.remove. cbn. split_and!; [by apply map_Forall_delete| |].
    + intros j. destruct (decide (id = j)) as [<-|].
      * rewrite lookup_delete_eq. destruct (pg_admission_queue db !! id); cbn; [by rewrite decide_True|done].
      * rewrite lookup_delete_ne by done. destruct (pg_admission_queue db !! id); cbn; [rewrite decide_False by done|]; lia.
    + intros t. by case_bool_decide; cbn; lia.
Qed.

Lemma run_counts os db :
  queue_wf db →
  let '(db', es) := queue_run os db in
  queue_wf db' ∧ (∀ id, waiting id db' + times (went id) es = waiting id db + times (came id) es)%nat ∧
  ∀ t, admits t db' = admits t db + Z.of_nat (times (won t) es).
Proof.
  revert db. induction os as [|o os IH]; intros db Hwf; cbn [queue_run].
  { split_and!; [done|intros; cbn; lia..]. }
  pose proof (step_counts o db Hwf) as Hs. destruct (queue_step o db) as [db1 e]. destruct Hs as (Hwf1 & Hc1 & Ha1).
  specialize (IH db1 Hwf1). destruct (queue_run os db1) as [db2 es]. destruct IH as (Hwf2 & Hc2 & Ha2).
  split_and!; [done|..].
  - intros id. specialize (Hc1 id). specialize (Hc2 id). rewrite !times_cons. lia.
  - intros t. specialize (Ha1 t). specialize (Ha2 t). rewrite times_cons. lia.
Qed.

(** A row was queued, and stamped with what its tenant had won by then. *)
Definition stamped (es : list queue_event) (r : PendingAdmission) : Prop :=
  ∃ es1 es2, es = es1 ++ EQueued r :: es2 ∧ deficit r = Z.of_nat (times (won (pa_tenant r)) es1).

Lemma step_rows o db id r :
  pg_admission_queue (queue_step o db).1 !! id = Some r →
  pg_admission_queue db !! id = Some r ∨
  ((queue_step o db).2 = EQueued r ∧ deficit r = admits (pa_tenant r) db).
Proof.
  destruct o as [t j at_ms|locked rank only_ids|t|j]; cbn [queue_step].
  - unfold AdmissionDb.enqueue. destruct (pg_admission_queue db !! j); cbn; [by left|].
    rewrite lookup_insert_Some. intros [[_ <-]|[_ ?]]; [by right|by left].
  - unfold AdmissionDb.dequeue_head. destruct (AdmissionDb.head_row _ _); cbn; [|by left].
    rewrite lookup_delete_Some. by intros [_ ?]; left.
  - unfold AdmissionDb.admit_won. destruct (_ <=? _); by left.
  - cbn. rewrite lookup_delete_Some. by intros [_ ?]; left.
Qed.

Lemma run_rows os db es0 :
  queue_wf db → (∀ t, admits t db = Z.of_nat (times (won t) es0)) →
  (∀ id r, pg_admission_queue db !! id = Some r → stamped es0 r) →
  ∀ id r, pg_admission_queue (queue_run os db).1 !! id = Some r → stamped (es0 ++ (queue_run os db).2) r.
Proof.
  revert db es0. induction os as [|o os IH]; intros db es0 Hwf Ha Hst id r; cbn [queue_run].
  { rewrite app_nil_r. apply Hst. }
  pose proof (step_counts o db Hwf) as Hc. pose proof (step_rows o db) as Hr.
  destruct (queue_step o db) as [db1 e]. destruct Hc as (Hwf1 & _ & Ha1). cbn [fst snd] in Hr.
  specialize (IH db1 (es0 ++ [e]) Hwf1).
  destruct (queue_run os db1) as [db2 es]. cbn [fst snd] in *. rewrite <-app_assoc in IH. apply IH.
  - intros t. rewrite Ha1, Ha, times_app, times_cons. change (times (won t) []) with 0%nat. lia.
  - intros j r1 [Hold|[-> Hd]]%Hr.
    + destruct (Hst j r1 Hold) as (es1 & es2 & -> & ?). exists es1, (es2 ++ [e]). by rewrite <-app_assoc.
    + exists es0, []. by rewrite <-Ha.
Qed.

(** Every request that was queued waits, or was claimed or removed, once.  Over
    any interleaving of the transactions of all instances, a request was claimed
    or removed exactly as often as it was queued, but for the one row that may
    still wait. *)
Theorem requests_are_served_once os id :
  let '(db, es) := queue_run os admission_tables_empty in
  times (came id) es = (times (went id) es + waiting id db)%nat.
Proof.
  pose proof (run_counts os admission_tables_empty ltac:(apply map_Forall_empty)) as Hc.
  destruct (queue_run os admission_tables_empty) as [db es]. destruct Hc as (_ & Hc & _). specialize (Hc id).
  unfold waiting at 2 in Hc. cbn in Hc. rewrite lookup_empty in Hc. lia.
Qed.

(** The least served tenant goes first.  After any history, what a claim takes is
    a row it may take, and no other such row comes before it: the tenant of the
    claimed row had won no more admissions when it queued than the tenant of
    any other row the claim could see had when that row was queued, and among
    equals it queued no later. *)
Theorem claim_serves_least_served os locked rank only_ids r r' db' :
  let '(db, es) := queue_run os admission_tables_empty in
  AdmissionDb.dequeue_head locked rank only_ids db = (db', Ok (Some r)) →
  pg_admission_queue db !! lease_request_id r' = Some r' → AdmissionDb.claimable locked only_ids r' →
  AdmissionDb.claimable locked only_ids r ∧ stamped es r ∧ stamped es r' ∧ fair_order r r' ≠ Gt.
Proof.
  pose proof (run_rows os admission_tables_empty [] ltac:(apply map_Forall_empty)) as Hst.
  destruct (queue_run os admission_tables_empty) as [db es]. cbn [fst snd app] in Hst.
  intros Hd Hr' Hc'. unfold AdmissionDb.dequeue_head in Hd.
  pose proof (head_row_spec rank (filter (AdmissionDb.claimable locked only_ids) (map_values (pg_admission_queue db)))) as Hh.
  destruct (AdmissionDb.head_row _ _) as [r1|]; [|done]. injection Hd as _ ->.
  destruct Hh as [[Hc [k Hk]%elem_of_map_values]%list_elem_of_filter Hmin].
  assert (∀ t, admits t admission_tables_empty = Z.of_nat (times (won t) [])) as Ha by done.
  assert (∀ j x, pg_admission_queue admission_tables_empty !! j = Some x → stamped [] x) as He
    by (intros j x; cbn; by rewrite lookup_empty).
  split_and!; [done|by eapply Hst..|]. apply Hmin, list_elem_of_filter. split; [done|].
  apply elem_of_map_values. by exists (lease_request_id r').
Qed.

Definition two_tenants : list queue_op :=
  [QAdmit (mkTenantId "acme"); QEnqueue (mkTenantId "acme") "a" 1; QEnqueue (mkTenantId "globex") "g" 5].
Lemma claim_serves_least_served_witness :
  fair_order (mkPendingAdmission (mkTenantId "globex") "g" 5 0) (mkPendingAdmission (mkTenantId "acme") "a" 1 1) ≠ Gt.
Proof.
  pose proof (claim_serves_least_served two_tenants ∅ (λ _, 0) None (mkPendingAdmission (mkTenantId "globex") "g" 5 0)
    (mkPendingAdmission (mkTenantId "acme") "a" 1 1)
    (mkAdmissionTables {["a" := mkPendingAdmission (mkTenantId "acme") "a" 1 1]} {[mkTenantId "acme" := 1]})) as H.
  destruct (queue_run two_tenants admission_tables_empty) as [db es] eqn:E. vm_compute in E. injection E as <- <-.
  apply H; [vm_compute; reflexivity|vm_compute; reflexivity|]. split; [set_solver|done].
Defined.
