(* ===== verification/Task.v ===== *)
(** * Tasks: handlers that interleave

    The handlers and sweeps of the server are [async] functions on a
    multi-threaded runtime; between two accesses to the shared state any other
    one may run.  A [Task] is such a handler cut at these points: it either has
    its result or makes one atomic access, a write and a continuation that both
    see the state before it.  A schedule starts tasks
    and picks, again and again, which of them makes its next access.

    The second half is a small logic for such tasks.  A task owns a
    multiset of tokens; the invariant sees the sum of the tokens of all tasks,
    so what one task is in the middle of is accounted for while the others run. *)
From stdpp Require Import gmultiset.
From S2P Require Import Prelude.

Inductive Task (W A : Type) : Type :=
| Now (a : A)
| Later (write : W → W) (next : W → Task W A).
Arguments Now {W A} a.
Arguments Later {W A} write next.

Section task.
Context {W : Type}.

Fixpoint task_bind {A B} (f : A → Task W B) (t : Task W A) : Task W B :=
  match t with
  | Now a => f a
  | Later write next => Later write (λ w, task_bind f (next w))
  end.

(** One access to the shared state. *)
Definition atomic {A} (f : W → W * A) : Task W A :=
  Later (λ w, (f w).1) (λ w, Now (f w).2).

(** Run alone, to the end. *)
Fixpoint run_alone {A} (t : Task W A) (w : W) : W * A :=
  match t with
  | Now a => (w, a)
  | Later write next => run_alone (next w) (write w)
  end.

#[global] Instance Task_ret : MRet (Task W) := λ A a, Now a.
#[global] Instance Task_bind : MBind (Task W) := λ A B f t, task_bind f t.

(** An access that only writes, and one that only reads. *)
Definition update (f : W → W) : Task W unit := atomic (λ w, (f w, ())).
Definition read {A} (f : W → A) : Task W A := atomic (λ w, (w, f w)).

(** [for x in xs { body }], counting what the body reports. *)
Fixpoint for_each {X} (body : X → Task W nat) (xs : list X) : Task W nat :=
  match xs with
  | [] => mret 0%nat
  | x :: xs => n ← body x; m ← for_each body xs; mret (n + m)%nat
  end.

(** ** Schedules *)

(** A step of the runtime: a new task, or the next access of the [i]th one. *)
Inductive event (A : Type) : Type := Spawn (t : Task W A) | Sched (i : nat).
Arguments Spawn {A} t.
Arguments Sched {A} i.

Definition advance {A} (i : nat) (ts : list (Task W A)) (w : W) : list (Task W A) * W :=
  match ts !! i with
  | Some (Later write next) => (<[i := next w]> ts, write w)
  | _ => (ts, w)
  end.

Definition runtime_step {A} (c : list (Task W A) * W) (e : event A) : list (Task W A) * W :=
  match e with
  | Spawn t => (c.1 ++ [t], c.2)
  | Sched i => advance i c.1 c.2
  end.

Definition runtime {A} (es : list (event A)) (c : list (Task W A) * W) : list (Task W A) * W :=
  foldl runtime_step c es.

Definition spawned_by {A} (es : list (event A)) : list (Task W A) :=
  omap (λ e, match e with Spawn t => Some t | Sched _ => None end) es.

(** Every task has its result. *)
Definition quiescent {A} (ts : list (Task W A)) : Prop :=
  Forall (λ t, match t with Now _ => True | Later _ _ => False end) ts.
End task.
Arguments event W A : clear implicits.
Arguments Spawn {W A} t.
Arguments Sched {W A} i.

(** A task over a part of a larger state. *)
Fixpoint zoom {W V A} (get : V → W) (set : W → V → V) (t : Task W A) : Task V A :=
  match t with
  | Now a => Now a
  | Later write next => Later (λ v, set (write (get v)) v) (λ v, zoom get set (next (get v)))
  end.

(** ** Running alone *)
Lemma run_alone_bind {W A B} (f : A → Task W B) (t : Task W A) w :
  run_alone (t ≫= f) w = run_alone (f (run_alone t w).2) (run_alone t w).1.
Proof.
  revert w. unfold mbind, Task_bind. induction t as [a|write next IH]; intros w; [done|].
  cbn. apply IH.
Qed.

Lemma run_alone_atomic {W A} (f : W → W * A) w : run_alone (atomic f) w = f w.
Proof. cbn. by destruct (f w). Qed.

(** ** What a task saw

    The states at the accesses of a task that has come to an answer.  Between two of
    them anything may have happened. *)
Inductive sees {W A : Type} : Task W A → list W → A → Prop :=
| sees_now a : sees (Now a) [] a
| sees_later write next w ws a : sees (next w) ws a → sees (Later write next) (w :: ws) a.

Lemma sees_ret {W A} (a b : A) (ws : list W) : sees (mret a) ws b → ws = [] ∧ b = a.
Proof. by inversion 1. Qed.

Lemma sees_atomic {W A} (f : W → W * A) ws a : sees (atomic f) ws a → ∃ w, ws = [w] ∧ a = (f w).2.
Proof. inversion 1 as [|? ? w ws' ? Hs]; subst. inversion Hs; subst. eauto. Qed.

Lemma sees_bind {W A B} (t : Task W A) (k : A → Task W B) ws b :
  sees (t ≫= k) ws b → ∃ ws1 ws2 a, ws = ws1 ++ ws2 ∧ sees t ws1 a ∧ sees (k a) ws2 b.
Proof.
  unfold mbind, Task_bind. revert ws. induction t as [a|write next IH]; intros ws Hs; cbn in Hs.
  - exists [], ws, a. split_and!; [done|constructor|done].
  - inversion Hs as [|? ? w ws' ? Hn]; subst. destruct (IH w ws' Hn) as (ws1 & ws2 & a & -> & ? & ?).
    exists (w :: ws1), ws2, a. split_and!; [done|by constructor|done].
Qed.

(** The states a run goes through, and what its tasks saw of them. *)
Fixpoint run_states {W A} (es : list (event W A)) (c : list (Task W A) * W) : list W :=
  match es with
  | [] => []
  | e :: es => c.2 :: run_states es (runtime_step c e)
  end.

Lemma runtime_sees {W A} (es : list (event W A)) ts w i t a :
  (ts ++ spawned_by es) !! i = Some t → (runtime es (ts, w)).1 !! i = Some (Now a) →
  ∃ ws, sees t ws a ∧ ws `sublist_of` run_states es (ts, w).
Proof.
  revert ts w t. induction es as [|[t'|j] es IH]; intros ts w t Ht Ha; cbn in *.
  - rewrite (right_id_L [] (++)) in Ht. rewrite Ht in Ha. simplify_eq. exists []. split; constructor.
  - destruct (IH (ts ++ [t']) w t) as (ws & ? & ?); [by rewrite <-(assoc_L (++))|done|].
    exists ws. split; [done|by constructor].
  - unfold advance in *. destruct (ts !! j) as [[b|write next]|] eqn:Hj;
      [destruct (IH ts w t Ht Ha) as (ws & ? & ?); exists ws; split; [done|by constructor]| |
       destruct (IH ts w t Ht Ha) as (ws & ? & ?); exists ws; split; [done|by constructor]].
    assert (i < length ts → ts !! i = Some t)%nat as Hold by (intros ?; by rewrite lookup_app_l in Ht).
    destruct (decide (i = j)) as [->|Hne].
    + specialize (Hold (lookup_lt_Some _ _ _ Hj)). rewrite Hj in Hold. injection Hold as <-.
      destruct (IH (<[j := next w]> ts) (write w) (next w)) as (ws & ? & ?); [|done|].
      { rewrite lookup_app_l by (rewrite length_insert; by eapply lookup_lt_Some). apply list_lookup_insert_eq. by eapply lookup_lt_Some. }
      exists (w :: ws). split; [by constructor|by constructor].
    + destruct (IH (<[j := next w]> ts) (write w) t) as (ws & ? & ?); [|done|exists ws; split; [done|by constructor]].
      rewrite lookup_app in *. by rewrite list_lookup_insert_ne, length_insert.
Qed.

(** ** Answers that take something

    Something is in the state or it is not ([present]), and some answers ([won])
    are only given by the access that takes it away. *)
Section taking.
Context {W A : Type} (present : W → bool) (won : A → bool).

Fixpoint pays (t : Task W A) : Prop :=
  match t with
  | Now a => won a = false
  | Later write next => ∀ w,
      (present w = true ∧ present (write w) = false ∧ ∃ a, next w = Now a) ∨ pays (next w)
  end.

Definition won_of (t : Task W A) : nat := match t with Now a => Nat.b2n (won a) | Later _ _ => 0 end.
Definition wins (ts : list (Task W A)) : nat := sum_list (won_of <$> ts).
(** How often it is put there. *)
Fixpoint rises (es : list (event W A)) (c : list (Task W A) * W) : nat :=
  match es with
  | [] => 0
  | e :: es => Nat.b2n (negb (present c.2) && present (runtime_step c e).2) + rises es (runtime_step c e)
  end.

Lemma pays_bind {B} (t : Task W B) (k : B → Task W A) : (∀ b, pays (k b)) → pays (t ≫= k).
Proof. intros Hk. unfold mbind, Task_bind. induction t as [b|write next IH]; cbn; [apply Hk|]. intros w. right. apply IH. Qed.

Lemma wins_app ts us : wins (ts ++ us) = (wins ts + wins us)%nat.
Proof. unfold wins. induction ts as [|t ts IH]; cbn; [done|]. cbn in IH. lia. Qed.

Lemma wins_insert ts i t t' :
  ts !! i = Some t → (wins (<[i := t']> ts) + won_of t = wins ts + won_of t')%nat.
Proof.
  unfold wins. revert i. induction ts as [|u ts IH]; intros [|i] Hi; simplify_eq/=; [lia|].
  specialize (IH i Hi). lia.
Qed.

(** No more such answers are given than there were things to take. *)
Lemma runtime_wins es ts w :
  Forall (λ t, (∃ a, t = Now a) ∨ pays t) ts → Forall pays (spawned_by es) →
  (wins (runtime es (ts, w)).1 + Nat.b2n (present (runtime es (ts, w)).2) ≤ wins ts + Nat.b2n (present w) + rises es (ts, w))%nat.
Proof.
  revert ts w. induction es as [|[t|i] es IH]; intros ts w Hts Hes; cbn [rises runtime foldl]; [cbn [fst snd]; lia| |].
  - apply Forall_cons_1 in Hes as [Ht Hes]. assert (won_of t = 0%nat) as Hw by (destruct t; cbn in *; [by rewrite Ht|done]).
    specialize (IH (ts ++ [t]) w). unfold runtime in IH. cbn [runtime_step fst snd].
    assert (wins (ts ++ [t]) = wins ts) as Hwt by (rewrite wins_app; unfold wins at 2; cbn; lia).
    assert (Forall (λ t, (∃ a, t = Now a) ∨ pays t) (ts ++ [t])) as H' by (apply Forall_app; auto).
    specialize (IH H' Hes). rewrite Hwt in IH. rewrite andb_negb_l. cbn [Nat.b2n]. lia.
  - cbn [runtime_step fst snd]. unfold advance. destruct (ts !! i) as [[a|write next]|] eqn:Hi;
      [pose proof (IH ts w Hts Hes) as H; rewrite andb_negb_l; unfold runtime in H; cbn [Nat.b2n]; lia| |
       pose proof (IH ts w Hts Hes) as H; rewrite andb_negb_l; unfold runtime in H; cbn [Nat.b2n]; lia].
    destruct (Forall_lookup_1 _ _ _ _ Hts Hi) as [[a [=]]|Hp].
    pose proof (wins_insert ts i _ (next w) Hi) as Hins. cbn [won_of] in Hins.
    assert (Forall (λ t, (∃ a, t = Now a) ∨ pays t) (<[i := next w]> ts)) as Hts'.
    { apply Forall_insert; [done|]. destruct (Hp w) as [(_ & _ & a & ->)|?]; eauto. }
    pose proof (IH _ (write w) Hts' Hes) as H. unfold runtime in H. cbn [fst snd].
    destruct (Hp w) as [(H1 & H2 & a & Ha)|Hn].
    + rewrite Ha in Hins, H |- *. rewrite H2 in H |- *. rewrite H1. cbn in Hins |- *. destruct (won a); cbn in *; lia.
    + assert (won_of (next w) = 0%nat) as H0 by (destruct (next w); cbn in *; [by rewrite Hn|done]).
      destruct (present w), (present (write w)); cbn in *; lia.
Qed.
End taking.

(** ** The logic *)

(** Tokens that may be dropped. *)
Class Leak {T : Type} `{Countable T} (leak : gmultiset T → Prop) : Prop := {
  leak_empty : leak ∅;
  leak_union r r' : leak r → leak r' → leak (r ⊎ r');
}.

#[export] Instance any_leak {T} `{Countable T} : Leak (λ _ : gmultiset T, True).
Proof. done. Qed.

(** All tokens must be handed in. *)
Definition nothing_left {T} `{Countable T} (R : gmultiset T) : Prop := R = ∅.
#[export] Instance nothing_left_leak {T} `{Countable T} : Leak (nothing_left (T := T)).
Proof. split; [done|]. by intros ? ? -> ->. Qed.

Section logic.
Context {W T : Type} `{Countable T}.
Abbreviation Res := (gmultiset T).
Implicit Types (r f R : Res).

(** What holds between any two accesses, of the state and all tokens, and what
    every access guarantees to the tasks that are not running. *)
Context (inv : W → Res → Prop) (rely : W → Res → W → Res → Prop).

(** A fact about the state and all tokens that no access of another task undoes. *)
Definition stable (K : W → Res → Prop) : Prop :=
  ∀ w R w' R', rely w R w' R' → inv w' R' → K w R → K w' R'.

Lemma stable_both (K J : W → Res → Prop) : stable K → stable J → stable (λ w R, K w R ∧ J w R).
Proof. intros HK HJ w R w' R' Hr Hi [? ?]. split; [by eapply HK|by eapply HJ]. Qed.

(** The task owns the tokens [r] and knows [K]: each of its accesses keeps the
    invariant, whatever the others own, and at the end [Q] holds. *)
Fixpoint safe {A} (Q : A → Res → W → Res → Prop) (K : W → Res → Prop) (r : Res)
    (t : Task W A) : Prop :=
  match t with
  | Now a => ∀ w R, K w R → Q a r w R
  | Later write next => ∀ w f,
      inv w (r ⊎ f) → K w (r ⊎ f) →
      ∃ r' K', stable K' ∧ inv (write w) (r' ⊎ f) ∧ rely w (r ⊎ f) (write w) (r' ⊎ f) ∧
        K' (write w) (r' ⊎ f) ∧ safe Q K' r' (next w)
  end.

(** A handler starts with nothing and ends with tokens that may be dropped. *)
Context (leak : Res → Prop).
Definition handler_ok {A} (t : Task W A) : Prop :=
  safe (λ _ r _ _, leak r) (λ _ _, True) ∅ t.

Lemma safe_weaken {A} (Q : A → Res → W → Res → Prop) (K K' : W → Res → Prop) r t :
  (∀ w R, K w R → K' w R) → safe Q K' r t → safe Q K r t.
Proof.
  destruct t as [a|write next]; cbn; intros HK Hs; [eauto|].
  intros w f Hi Hk. apply Hs; auto.
Qed.

Lemma safe_post {A} (Q Q' : A → Res → W → Res → Prop) K r t :
  (∀ a r w R, Q a r w R → Q' a r w R) → safe Q K r t → safe Q' K r t.
Proof.
  intros HQ. revert K r. induction t as [a|write next IH]; cbn; intros K r Hs; [eauto|].
  intros w f Hi Hk. destruct (Hs w f Hi Hk) as (r' & K' & ? & ? & ? & ? & ?). eauto 10.
Qed.

Lemma safe_bind {A B} (Q : A → Res → W → Res → Prop) (Q' : B → Res → W → Res → Prop) K r
    (t : Task W A) (k : A → Task W B) :
  safe Q K r t → (∀ a r', safe Q' (Q a r') r' (k a)) → safe Q' K r (t ≫= k).
Proof.
  intros Ht Hk. unfold mbind, Task_bind. revert K r Ht.
  induction t as [a|write next IH]; cbn; intros K r Ht.
  - eapply safe_weaken; [|apply Hk]. done.
  - intros w f Hi HK. destruct (Ht w f Hi HK) as (r' & K' & ? & ? & ? & ? & ?). eauto 10.
Qed.

Lemma safe_ret {A} (Q : A → Res → W → Res → Prop) K r a :
  (∀ w R, K w R → Q a r w R) → safe Q K r (mret a).
Proof. done. Qed.

Lemma safe_atomic {A} (Q : A → Res → W → Res → Prop) K r (g : W → W * A) :
  (∀ a r', stable (Q a r')) →
  (∀ w f w' a, g w = (w', a) → inv w (r ⊎ f) → K w (r ⊎ f) →
     ∃ r', inv w' (r' ⊎ f) ∧ rely w (r ⊎ f) w' (r' ⊎ f) ∧ Q a r' w' (r' ⊎ f)) →
  safe Q K r (atomic g).
Proof.
  intros Hst Hg. cbn. intros w f Hi Hk. destruct (g w) as [w' a] eqn:E. cbn.
  destruct (Hg w f w' a E Hi Hk) as (r' & ? & ? & ?). exists r', (Q a r'). eauto 10.
Qed.

(** What the facts imply of the tokens alone may be assumed. *)
Lemma safe_pure {A} (φ : Prop) (Q : A → Res → W → Res → Prop) K r (t : Task W A) :
  (∀ w R, K w R → φ) → (φ → safe Q K r t) → safe Q K r t.
Proof.
  intros Hφ Ht. destruct t as [a|write next]; cbn in *; [intros w R HK; by eapply Ht; eauto|].
  intros w f Hi HK. eapply Ht; eauto.
Qed.

(** What a task does not touch stays as it is: tokens it was given for nothing,
    and facts no access undoes. *)
Lemma safe_frame {A} (Q : A → Res → W → Res → Prop) K r r0 (t : Task W A) :
  safe Q K r t → safe (λ a r' w R, ∃ r1, r' = r1 ⊎ r0 ∧ Q a r1 w R) K (r ⊎ r0) t.
Proof.
  revert K r. induction t as [a|write next IH]; cbn; intros K r Hs; [eauto|].
  intros w f Hi Hk. rewrite <-(assoc_L (⊎)) in Hi, Hk.
  destruct (Hs w (r0 ⊎ f) Hi Hk) as (r' & K' & ? & ? & ? & ? & ?).
  exists (r' ⊎ r0), K'. rewrite <-!(assoc_L (⊎)). auto 10.
Qed.

Lemma safe_keep {A} (Q : A → Res → W → Res → Prop) K J r (t : Task W A) :
  stable J → safe Q K r t →
  safe (λ a r' w R, Q a r' w R ∧ J w R) (λ w R, K w R ∧ J w R) r t.
Proof.
  intros HJ. revert K r. induction t as [a|write next IH]; cbn; intros K r Hs.
  { intros w R [HK ?]. auto. }
  intros w f Hi [Hk Hj]. destruct (Hs w f Hi Hk) as (r' & K' & Hst & ? & ? & ? & ?).
  exists r', (λ w R, K' w R ∧ J w R). split_and!; [|done|done|done|by eapply HJ|by apply IH].
  intros ? ? ? ? Hr Hi' [? ?]. split; [by eapply Hst|by eapply HJ].
Qed.

(** ** Triples

    From the fact [K] and the tokens [r] the task comes to its answer with the
    tokens of that answer, and droppable ones, and the fact of that answer. *)
Context {lk : Leak leak}.

Definition triple {A} (K : W → Res → Prop) (r : Res) (t : Task W A) (ρ : A → Res)
    (K' : A → W → Res → Prop) : Prop :=
  safe (λ a r' w R, (∃ l, leak l ∧ r' = ρ a ⊎ l) ∧ K' a w R) K r t.

Lemma triple_handler {A} (t : Task W A) K' :
  triple (λ _ _, True) ∅ t (λ _, ∅) K' → handler_ok t.
Proof.
  apply safe_post. intros a r w R [(l & Hl & ->) _]. by rewrite (left_id_L ∅ (⊎)).
Qed.

Lemma triple_ret {A} (K : W → Res → Prop) r (a : A) ρ K' :
  r = ρ a → (∀ w R, K w R → K' a w R) → triple K r (mret a) ρ K'.
Proof.
  intros -> HK. apply safe_ret. intros w R Hk. split; [|auto]. exists ∅.
  split; [apply leak_empty|by rewrite (right_id_L ∅ (⊎))].
Qed.

Lemma triple_drop {A} (K : W → Res → Prop) r l (t : Task W A) ρ K' :
  leak l → triple K r t ρ K' → triple K (r ⊎ l) t ρ K'.
Proof.
  intros Hl Ht. eapply safe_post; [|by apply safe_frame].
  intros a r' w R (r1 & -> & (l' & Hl' & ->) & HK). split; [|done]. exists (l' ⊎ l).
  rewrite (assoc_L (⊎)). split; [by apply leak_union|done].
Qed.

Lemma triple_conseq {A} (K1 K2 : W → Res → Prop) r (t : Task W A) ρ K1' K2' :
  (∀ w R, K2 w R → K1 w R) → (∀ a w R, K1' a w R → K2' a w R) →
  triple K1 r t ρ K1' → triple K2 r t ρ K2'.
Proof.
  intros Hpre Hpost Ht. eapply safe_weaken; [exact Hpre|]. eapply safe_post; [|exact Ht].
  intros a r' w R [? ?]. split; auto.
Qed.

(** The continuation knows what was known and what the first task adds. *)
Lemma triple_bind {A B} (K K0 : W → Res → Prop) r r0 (t : Task W A) ρ K1 (k : A → Task W B) ρ' K' :
  stable K → triple K0 r t ρ K1 → (∀ w R, K w R → K0 w R) →
  (∀ a, triple (λ w R, K w R ∧ K1 a w R) (ρ a ⊎ r0) (k a) ρ' K') →
  triple K (r ⊎ r0) (t ≫= k) ρ' K'.
Proof.
  intros HK Ht Hpre Hk. eapply safe_bind.
  - eapply (safe_weaken _ _ (λ w R, K0 w R ∧ K w R)); [by eauto|].
    apply safe_keep; [done|]. apply safe_frame. exact Ht.
  - intros a r'. cbn beta.
    apply (safe_pure (∃ l, leak l ∧ r' = ρ a ⊎ r0 ⊎ l)).
    + intros w R [(r1 & -> & (l & Hl & ->) & _) _]. exists l. split; [done|].
      by rewrite <-!(assoc_L (⊎)), (comm_L (⊎) r0 l).
    + intros (l & Hl & ->). eapply safe_weaken; [|apply triple_drop; [done|apply Hk]].
      intros w R [(? & _ & _ & ?) ?]. auto.
Qed.

(** The two usual cases: the first task takes all the tokens, or none. *)
Lemma triple_seq {A B} (K K0 : W → Res → Prop) r (t : Task W A) ρ K1 (k : A → Task W B) ρ' K' :
  stable K → triple K0 r t ρ K1 → (∀ w R, K w R → K0 w R) →
  (∀ a, triple (λ w R, K w R ∧ K1 a w R) (ρ a) (k a) ρ' K') →
  triple K r (t ≫= k) ρ' K'.
Proof.
  intros HK Ht Hpre Hk. rewrite <-(right_id_L ∅ (⊎) r). eapply triple_bind; [done|done|done|].
  intros a. rewrite (right_id_L ∅ (⊎)). apply Hk.
Qed.

Lemma triple_call {A B} (K K0 : W → Res → Prop) r (t : Task W A) K1 (k : A → Task W B) ρ' K' :
  stable K → triple K0 ∅ t (λ _, ∅) K1 → (∀ w R, K w R → K0 w R) →
  (∀ a, triple (λ w R, K w R ∧ K1 a w R) r (k a) ρ' K') →
  triple K r (t ≫= k) ρ' K'.
Proof.
  intros HK Ht Hpre Hk. rewrite <-(left_id_L ∅ (⊎) r). eapply triple_bind; [done|done|done|].
  intros a. cbn beta. rewrite (left_id_L ∅ (⊎)). apply Hk.
Qed.

Lemma triple_atom {A} (K : W → Res → Prop) r (g : W → W * A) ρ K' :
  (∀ a, stable (K' a)) →
  (∀ w f w' a, g w = (w', a) → inv w (r ⊎ f) → K w (r ⊎ f) →
     inv w' (ρ a ⊎ f) ∧ rely w (r ⊎ f) w' (ρ a ⊎ f) ∧ K' a w' (ρ a ⊎ f)) →
  triple K r (atomic g) ρ K'.
Proof.
  intros Hst Hg. apply safe_atomic.
  { intros a r' w R w' R' Hr Hi [? ?]. split; [done|]. by eapply Hst. }
  intros w f w' a E Hi Hk. destruct (Hg w f w' a E Hi Hk) as (? & ? & ?).
  exists (ρ a). split_and!; try done. exists ∅.
  split; [apply leak_empty|by rewrite (right_id_L ∅ (⊎))].
Qed.

(** A loop over a list, given what every element comes with. *)
Lemma triple_for_each {X} (K : W → Res → Prop) (body : X → Task W nat) xs :
  stable K →
  (∀ x, x ∈ xs → triple K ∅ (body x) (λ _, ∅) (λ _ _ _, True)) →
  triple K ∅ (for_each body xs) (λ _, ∅) (λ _ _ _, True).
Proof.
  intros HK. induction xs as [|x xs IH]; intros Hb; cbn [for_each]; [by apply triple_ret|].
  rewrite <-(left_id_L ∅ (⊎) ∅). eapply triple_bind; [done|apply Hb; set_solver|eauto|].
  intros n. cbn beta. eapply triple_bind; [apply stable_both; [done|by intros ? ? ? ?]|..].
  { apply IH. set_solver. } { intros w R [HkR _]. exact HkR. }
  intros m. by apply triple_ret; [rewrite (left_id_L ∅ (⊎))|].
Qed.

(** ** Quiet tasks: no tokens, no facts, but a property of the answer *)
Definition quiet {A} (φ : A → Prop) (t : Task W A) : Prop :=
  safe (λ a r' _ _, r' = ∅ ∧ φ a) (λ _ _, True) ∅ t.

Lemma quiet_ret {A} (φ : A → Prop) a : φ a → quiet φ (mret a).
Proof. intros Ha. by apply safe_ret. Qed.

Lemma quiet_weaken {A} (φ ψ : A → Prop) t : (∀ a, φ a → ψ a) → quiet φ t → quiet ψ t.
Proof. intros Hφ. apply safe_post. intros a r w R [? ?]. auto. Qed.

Lemma quiet_bind {A B} (φ : A → Prop) (ψ : B → Prop) t (k : A → Task W B) :
  quiet φ t → (∀ a, φ a → quiet ψ (k a)) → quiet ψ (t ≫= k).
Proof.
  intros Ht Hk. eapply safe_bind; [exact Ht|]. intros a r'. cbn beta.
  apply (safe_pure (r' = ∅ ∧ φ a)); [done|]. intros [-> Ha].
  eapply safe_weaken; [|by apply Hk]. done.
Qed.

Lemma quiet_atom {A} (φ : A → Prop) (g : W → W * A) :
  (∀ w R w' a, g w = (w', a) → inv w R → inv w' R ∧ rely w R w' R ∧ φ a) → quiet φ (atomic g).
Proof.
  intros Hg. apply safe_atomic; [by intros a r' ? ? ? ? _ _ ?|].
  intros w f w' a E Hi _. destruct (Hg w _ w' a E Hi) as (? & ? & ?). by exists ∅.
Qed.

Lemma quiet_frame {A} (K : W → Res → Prop) r φ (t : Task W A) :
  stable K → quiet φ t → safe (λ a r' w R, (r' = r ∧ φ a) ∧ K w R) K r t.
Proof.
  intros HK Ht. pose proof (safe_keep _ _ K _ _ HK (safe_frame _ _ _ r _ Ht)) as Hs.
  rewrite (left_id_L ∅ (⊎) r) in Hs.
  eapply (safe_weaken _ _ (λ w R, True ∧ K w R)); [done|]. eapply safe_post; [|exact Hs].
  intros a r' w R [(r1 & -> & -> & ?) ?]. by rewrite (left_id_L ∅ (⊎)).
Qed.

Lemma triple_quiet {A} (K : W → Res → Prop) r φ (t : Task W A) :
  stable K → quiet φ t → triple K r t (λ _, r) (λ a w R, K w R ∧ φ a).
Proof.
  intros HK Ht. eapply safe_post; [|by apply quiet_frame].
  intros a r' w R [[-> ?] ?]. split; [|done]. exists ∅.
  split; [apply leak_empty|by rewrite (right_id_L ∅ (⊎))].
Qed.

Lemma triple_quiet_bind {A B} (K : W → Res → Prop) r φ (t : Task W A) (k : A → Task W B) ρ K' :
  stable K → quiet φ t → (∀ a, φ a → triple K r (k a) ρ K') → triple K r (t ≫= k) ρ K'.
Proof.
  intros HK Ht Hk. eapply safe_bind; [by apply quiet_frame|].
  intros a r'. cbn beta. apply (safe_pure (r' = r ∧ φ a)); [by intros ? ? [? _]|].
  intros [-> Ha]. eapply safe_weaken; [|by apply Hk]. by intros w R [_ ?].
Qed.

(** ** Soundness *)

(** A pool: each task with what it owns and knows. *)
Definition proved {A} (w : W) (R : Res) (x : Task W A * Res * (W → Res → Prop)) : Prop :=
  let '(t, r, K) := x in stable K ∧ K w R ∧ safe (λ _ r _ _, leak r) K r t.

Definition total {A} (xs : list (Task W A * Res * (W → Res → Prop))) : Res :=
  foldr (λ x R, x.1.2 ⊎ R) ∅ xs.

(** [J] is what an observer knows. *)
Definition pool_ok {A} (J : W → Res → Prop) (ts : list (Task W A)) (w : W) : Prop :=
  ∃ xs, ts = (λ x : Task W A * Res * (W → Res → Prop), x.1.1) <$> xs ∧ inv w (total xs) ∧
        Forall (proved w (total xs)) xs ∧ J w (total xs).

Lemma total_nil {A} : total ([] : list (Task W A * Res * (W → Res → Prop))) = ∅.
Proof. done. Qed.

Lemma total_cons {A} x (xs : list (Task W A * Res * (W → Res → Prop))) :
  total (x :: xs) = x.1.2 ⊎ total xs.
Proof. done. Qed.

Lemma total_app {A} (xs ys : list (Task W A * Res * (W → Res → Prop))) :
  total (xs ++ ys) = total xs ⊎ total ys.
Proof.
  induction xs as [|x xs IH]; cbn [app].
  - by rewrite total_nil, (left_id_L ∅ (⊎)).
  - by rewrite !total_cons, IH, (assoc_L (⊎)).
Qed.

Lemma total_middle {A} (l1 l2 : list (Task W A * Res * (W → Res → Prop))) t r K :
  total (l1 ++ (t, r, K) :: l2) = r ⊎ (total l1 ⊎ total l2).
Proof.
  rewrite total_app, total_cons. cbn [fst snd].
  by rewrite !(assoc_L (⊎)), (comm_L (⊎) (total l1) r).
Qed.

Lemma pool_spawn {A} J (ts : list (Task W A)) w t :
  pool_ok J ts w → handler_ok t → pool_ok J (ts ++ [t]) w.
Proof.
  intros (xs & -> & Hi & Hxs & HJ) Ht. exists (xs ++ [(t, ∅, λ _ _, True)]).
  assert (total (xs ++ [(t, ∅, λ _ _, True)]) = total xs) as Htot.
  { rewrite total_app, total_cons, (total_nil (A:=A)). cbn [fst snd].
    by rewrite (right_id_L ∅ (⊎) (∅ : Res)), (right_id_L ∅ (⊎) (total xs)). }
  rewrite Htot, fmap_app. split_and!; [done|done| |done].
  apply Forall_app. split; [done|]. constructor; [|done]. split; [|split; [done|exact Ht]].
  by intros ? ? ? ?.
Qed.

Lemma pool_advance {A} J (ts : list (Task W A)) w i :
  stable J → pool_ok J ts w → pool_ok J (advance i ts w).1 (advance i ts w).2.
Proof.
  intros HstJ (xs & -> & Hi & Hxs & HJ). unfold advance. rewrite list_lookup_fmap.
  destruct (xs !! i) as [[[t r] K]|] eqn:Hx; [|exists xs; done]. cbn.
  destruct t as [a|write next]; [exists xs; done|].
  apply list_elem_of_split_length in Hx as (l1 & l2 & -> & ->).
  rewrite total_middle in Hi, Hxs, HJ. apply Forall_app in Hxs as [H1 Hxs].
  apply Forall_cons_1 in Hxs as [(HstK & HK & Hs) H2].
  destruct (Hs w (total l1 ⊎ total l2) Hi HK) as (r' & K' & HstK' & Hi' & Hrely & HK' & Hs').
  exists (l1 ++ (next w, r', K') :: l2).
  rewrite total_middle. cbn [fst snd]. split_and!; [|done| |by eapply HstJ].
  { rewrite !fmap_app, !fmap_cons. cbn [fst].
    rewrite insert_app_r_alt by (rewrite length_fmap; lia).
    by rewrite length_fmap, Nat.sub_diag. }
  assert (∀ x : Task W A * Res * (W → Res → Prop), proved w (r ⊎ (total l1 ⊎ total l2)) x →
            proved (write w) (r' ⊎ (total l1 ⊎ total l2)) x) as Hkeep.
  { intros [[t2 r2] K2] (Hst2 & Hk2 & Hs2). split_and!; eauto. }
  apply Forall_app. split; [eapply Forall_impl; eauto|].
  constructor; [done|]. eapply Forall_impl; eauto.
Qed.

Lemma runtime_pool {A} J (es : list (event W A)) ts w :
  stable J → Forall handler_ok (spawned_by es) → pool_ok J ts w →
  pool_ok J (runtime es (ts, w)).1 (runtime es (ts, w)).2.
Proof.
  intros HJ. revert ts w. induction es as [|e es IH]; intros ts w Hes Hp; [done|].
  change (runtime (e :: es) (ts, w)) with (runtime es (runtime_step (ts, w) e)).
  destruct e as [t|i]; cbn [runtime_step fst snd].
  - apply Forall_cons_1 in Hes as [Ht Hes]. apply IH; [done|]. by apply pool_spawn.
  - pose proof (pool_advance J ts w i HJ Hp) as Hp'. destruct (advance i ts w) as [ts' w'].
    by apply IH.
Qed.

(** Whatever the schedule, the invariant holds with the tokens of the tasks
    that are under way, and with only droppable ones when all have finished. *)
Theorem runtime_invariant {A} (es : list (event W A)) w :
  Forall handler_ok (spawned_by es) → inv w ∅ →
  ∃ R, inv (runtime es ([], w)).2 R ∧ (quiescent (runtime es ([], w)).1 → leak R).
Proof.
  intros Hes Hi. destruct (runtime_pool (λ _ _, True) es [] w) as (xs & Hts & Hinv & Hxs & _); [done|done|by exists []|].
  exists (total xs). split; [done|]. rewrite Hts. clear Hts Hinv. intros Hq.
  assert (∀ R, Forall (proved (runtime es ([], w)).2 R) xs → leak (total xs)) as Hall; [|eauto].
  clear Hxs. intros R. induction xs as [|[[t r] K] xs IH]; [intros _; apply leak_empty|].
  rewrite total_cons. cbn [fst snd fmap list_fmap] in *.
  intros [(_ & HK & Hs) Hxs]%Forall_cons_1. apply Forall_cons_1 in Hq as [Ht Hq].
  apply leak_union; [|by apply IH]. destruct t as [a|]; [|done]. cbn in Hs. by apply (Hs _ _ HK).
Qed.

(** What is stable and holds at some point of a run holds at its end. *)
Theorem runtime_history {A} (es es' : list (event W A)) w :
  Forall handler_ok (spawned_by (es ++ es')) → inv w ∅ →
  ∃ R, inv (runtime es ([], w)).2 R ∧
    ∀ J, stable J → J (runtime es ([], w)).2 R → ∃ R', inv (runtime (es ++ es') ([], w)).2 R' ∧
      J (runtime (es ++ es') ([], w)).2 R'.
Proof.
  unfold spawned_by. rewrite omap_app. intros [Hes Hes']%Forall_app Hi.
  destruct (runtime_pool (λ _ _, True) es [] w) as (xs & Hts & Hinv & Hxs & _); [done|done|by exists []|].
  exists (total xs). split; [done|]. intros J HJ Hj.
  destruct (runtime_pool J es' (runtime es ([], w)).1 (runtime es ([], w)).2 HJ Hes') as (ys & _ & ? & _ & ?);
    [by exists xs|].
  exists (total ys). unfold runtime in *. by rewrite foldl_app, (surjective_pairing (foldl _ _ es)).
Qed.
End logic.

(** ** A part of the state

    What is shown of tasks over a part of the state holds of them over the whole. *)
Section zooming.
Context {W V T : Type} `{Countable T} (get : V → W) (set : W → V → V).
Context (inv : W → gmultiset T → Prop) (rely : W → gmultiset T → W → gmultiset T → Prop).

Lemma safe_zoom {A} (Q : A → gmultiset T → W → gmultiset T → Prop) K r (t : Task W A) :
  (∀ w v, get (set w v) = w) → safe inv rely Q K r t →
  safe (λ v, inv (get v)) (λ v R v' R', rely (get v) R (get v') R')
    (λ a r v R, Q a r (get v) R) (λ v R, K (get v) R) r (zoom get set t).
Proof.
  intros Hgs. revert K r. induction t as [a|write next IH]; intros K r Hs; cbn in *; [auto|].
  intros v f Hi HK. destruct (Hs (get v) f Hi HK) as (r' & K' & Hst & Hi' & Hr & HK' & Hn).
  exists r', (λ v R, K' (get v) R). rewrite Hgs. split_and!; [|done..|by apply IH].
  intros v1 R1 v2 R2. apply Hst.
Qed.

(** A task over a part of the state leaves the rest alone. *)
Lemma quiet_zoom {A} (inv' : V → gmultiset T → Prop) (rely' : V → gmultiset T → V → gmultiset T → Prop) (t : Task W A) :
  (∀ w v R, inv' v R → inv' (set w v) R ∧ rely' v R (set w v) R) →
  quiet inv' rely' (λ _, True) (zoom get set t).
Proof.
  intros Hset. unfold quiet. induction t as [a|write next IH]; cbn; [done|]. intros v f Hi _.
  destruct (Hset (write (get v)) v _ Hi) as [Hi' Hr]. exists ∅, (λ _ _, True). by split_and!.
Qed.
End zooming.
