(* ===== verification/BillingExport.v ===== *)
(** * The durable billing sink: [billing_sink.rs], [billing_export.rs]

    Slot events are recorded in the meter's bounded journal and exported to a
    table that every instance shares.  A tick of the export loop reads the window
    and its watermark under the meter's lock, writes the window to the sink with no
    lock held, and drains what it has written; other events are recorded and other
    instances export in between.  The connection to the database may fail before
    or after the statement took effect. *)
From stdpp Require Import gmultiset.
From S2P Require Import Prelude Tenant Billing Task.

(** ** The sink *)
Definition kind_to_db (k : SlotEventKind) : string :=
  match k with
  | Acquired => "acquired"
  | SlotReleased => "released"
  | SlotExpired => "expired"
  | SlotCrashed => "crashed"
  end.

Abbreviation EventKey := (TenantId * string * string * Z)%type.
Definition event_key (ev : SlotOccupancyEvent) : EventKey :=
  (ev_tenant ev, ev_lease_id ev, kind_to_db (ev_kind ev), ev_at_ms ev).

(** [trait BillingSink]. *)
Class BillingSink (S : Type) : Type :=
  persist : list SlotOccupancyEvent → Z → M S unit nat.

(** [MemBillingSink::persist]: a key that is not there is inserted and counted. *)
Definition mem_insert (st : gset EventKey * nat) (ev : SlotOccupancyEvent) : gset EventKey * nat :=
  if bool_decide (event_key ev ∈ st.1) then st else ({[event_key ev]} ∪ st.1, S st.2).
Definition mem_persist (events : list SlotOccupancyEvent) (_ : Z) : M (gset EventKey) unit nat := λ seen,
  let '(seen, inserted) := foldl mem_insert (seen, 0%nat) events in (seen, Ok inserted).
#[export] Instance MemBillingSink : BillingSink (gset EventKey) := mem_persist.

(** The connection: whether a statement is executed, and whether its answer
    comes back. *)
Inductive LinkFault : Type := LinkUp | LostBefore | LostAfter.
Class PgLink (O : Type) : Type := link_next : O → O * LinkFault.

(** [billing_events]: the primary key, and [exported_at_ms]. *)
Abbreviation RowKey := (string * string * string * Z)%type.
Record PgBilling (O : Type) : Type := mkPgBilling { billing_events : gmap RowKey Z; link : O }.
Arguments mkPgBilling {O}.
Arguments billing_events {O}.
Arguments link {O}.

Definition row_key (ev : SlotOccupancyEvent) : RowKey :=
  (as_str (ev_tenant ev), ev_lease_id ev, kind_to_db (ev_kind ev), as_i64 (ev_at_ms ev)).

(** The first occurrence of every key of the batch. *)
Fixpoint first_of_key (seen : gset EventKey) (events : list SlotOccupancyEvent) : list SlotOccupancyEvent :=
  match events with
  | [] => []
  | ev :: events =>
    if bool_decide (event_key ev ∈ seen) then first_of_key seen events
    else ev :: first_of_key ({[event_key ev]} ∪ seen) events
  end.

(** [INSERT … ON CONFLICT DO NOTHING RETURNING]. *)
Definition insert_row (exported : Z) (st : gmap RowKey Z * nat) (ev : SlotOccupancyEvent) : gmap RowKey Z * nat :=
  match st.1 !! row_key ev with
  | Some _ => st
  | None => (<[row_key ev := exported]> st.1, S st.2)
  end.

(** The protocol counts the values bound to a statement in 16 bits: a statement
    with more is refused. *)
Definition MAX_BIND_VALUES : N := 65535.
Definition too_many_values (events : list SlotOccupancyEvent) : bool :=
  bool_decide (MAX_BIND_VALUES < 5 * N.of_nat (length events))%N.

(** [PgBillingSink::persist]: five values for every event of the batch. *)
Definition pg_persist {O} {pg : PgLink O} (events : list SlotOccupancyEvent) (exported_at_ms : Z) :
    M (PgBilling O) unit nat := λ db,
  match events with
  | [] => (db, Ok 0%nat)
  | _ =>
    let '(o, fault) := link_next (link db) in
    let events := first_of_key ∅ events in
    let '(rows, inserted) := foldl (insert_row (as_i64 exported_at_ms)) (billing_events db, 0%nat) events in
    if too_many_values events then (mkPgBilling (billing_events db) o, Err ())
    else match fault with
    | LostBefore => (mkPgBilling (billing_events db) o, Err ())
    | LostAfter => (mkPgBilling rows o, Err ())
    | LinkUp => (mkPgBilling rows o, Ok inserted)
    end
  end.
#[export] Instance PgBillingSink {O} {pg : PgLink O} : BillingSink (PgBilling O) := pg_persist.

(** ** Export *)
Record ExportReport : Type := mkReport { persisted : Z; skipped_existing : Z; report_dropped : Z }.
Record Exporter : Type := mkExporter { prev_journal_dropped : Z }.

(** [Exporter::export_once]; [total - persisted] is a [usize] subtraction. *)
Definition export_once {S} {sink : BillingSink S} (m : SlotMeter) (now_ms : Z) :
    M (Exporter * S) unit ExportReport := λ '(e, s),
  let events := journal m in
  match persist events now_ms s with
  | (s, Err x) => ((e, s), Err x)
  | (s, Ok n) =>
    ((mkExporter (journal_dropped m), s),
     Ok (mkReport (Z.of_nat n) (Z.of_nat (length events) - Z.of_nat n)
           (journal_dropped m -sat prev_journal_dropped e)))
  end.

(** The instances, each with its meter and the events it has recorded so far, and
    the sink they share. *)
Record Fleet (S : Type) : Type := mkFleet {
  instances : gmap nat (SlotMeter * list SlotOccupancyEvent);
  sink_of : S;
}.
Arguments mkFleet {S}.
Arguments instances {S}.
Arguments sink_of {S}.

Section fleet.
Context {S : Type} {sink : BillingSink S}.
Abbreviation W := (Fleet S).
Implicit Types (w : W).

Definition meter_of w (i : nat) : SlotMeter := default meter_new (fst <$> instances w !! i).
Definition history_of w (i : nat) : list SlotOccupancyEvent := default [] (snd <$> instances w !! i).

(** An event is recorded. *)
Definition record_event (i : nat) (ev : SlotOccupancyEvent) : Task W unit :=
  update (λ w, mkFleet (<[i := (record (meter_of w i) ev, history_of w i ++ [ev])]> (instances w)) (sink_of w)).

(** One tick of [spawn_export_loop]: the number of events to warn about, and the
    count to compare with next time. *)
Definition export_tick (i : nat) (now prev_dropped : Z) : Task W (Z * Z) :=
  '(events, watermark, now_dropped) ←
    read (λ w, (journal (meter_of w i), export_watermark (meter_of w i), journal_dropped (meter_of w i)));
  r ← atomic (λ w, let '(s, r) := persist events now (sink_of w) in (mkFleet (instances w) s, r));
  (match r with
   | Ok _ =>
     update (λ w, mkFleet (<[i := (drain_through (meter_of w i) watermark, history_of w i)]> (instances w)) (sink_of w))
   | Err _ => mret ()
   end);;
  mret (now_dropped -sat prev_dropped, now_dropped).

(** Arrivals and schedules. *)
Inductive FleetEvent : Type :=
| Records (i : nat) (ev : SlotOccupancyEvent)
| Ticks (i : nat) (now prev_dropped : Z)
| FleetRuns (k : nat).
Definition fleet_event (e : FleetEvent) : event W (Z * Z) :=
  match e with
  | Records i ev => Spawn (record_event i ev;; mret (0, 0))
  | Ticks i now prev => Spawn (export_tick i now prev)
  | FleetRuns k => Sched k
  end.
Definition fleet_run (es : list FleetEvent) (s : S) : W := (runtime (fleet_event <$> es) ([], mkFleet ∅ s)).2.
End fleet.
Arguments fleet_run {S sink} es s.
