(* ===== verification/BillingExportProofs.v ===== *)
(** * The durable billing sink: proofs

    What a sink promises, for the in-memory and the Postgres sink; the two count
    alike.  Over any interleaving of recordings and export ticks of any number of
    instances, an event that is no longer in its journal is in the sink, up to the
    number of events the journals report as dropped. *)
From stdpp Require Import gmultiset fin_sets.
From S2P Require Import Prelude Tenant Billing Task BillingExport.

Definition u64_event (ev : SlotOccupancyEvent) : Prop := 0 ≤ ev_at_ms ev ≤ U64_MAX.
Definition keys_of (evs : list SlotOccupancyEvent) : gset EventKey := list_to_set (event_key <$> evs).

(** What a sink promises of a batch: after a success its keys are there, and those
    that were not there before were counted; after an error some may be. *)
Class BillingSinkLaws (S : Type) {sink : BillingSink S} : Type := {
  sink_ok : S → Prop;
  stored : S → gset EventKey;
  law_persist evs now s s' r :
    sink_ok s → Forall u64_event evs → persist evs now s = (s', r) →
    sink_ok s' ∧ stored s ⊆ stored s' ∧ stored s' ⊆ stored s ∪ keys_of evs ∧
    (∀ n, r = Ok n → stored s' = stored s ∪ keys_of evs ∧ n = size (keys_of evs ∖ stored s));
}.

(** ** The in-memory sink *)
Lemma keys_of_cons ev evs : keys_of (ev :: evs) = {[event_key ev]} ∪ keys_of evs.
Proof. done. Qed.

Lemma mem_insert_all evs seen n :
  foldl mem_insert (seen, n) evs = (seen ∪ keys_of evs, n + size (keys_of evs ∖ seen))%nat.
Proof.
  revert seen n. induction evs as [|ev evs IH]; intros seen n.
  { cbn. unfold keys_of. cbn. f_equal; [set_solver|]. replace (∅ ∖ seen) with (∅ : gset EventKey) by set_solver. rewrite size_empty. lia. }
  cbn [foldl]. rewrite keys_of_cons. unfold mem_insert at 2. cbn [fst snd]. case_bool_decide as Hin; rewrite IH.
  - f_equal; [set_solver|]. do 2 f_equal. set_solver.
  - f_equal; [set_solver|].
    replace (({[event_key ev]} ∪ keys_of evs) ∖ seen)
      with ({[event_key ev]} ∪ (keys_of evs ∖ ({[event_key ev]} ∪ seen))).
    + set (rest := keys_of evs ∖ ({[event_key ev]} ∪ seen)).
      assert (size ({[event_key ev]} ∪ rest) = size ({[event_key ev]} : gset EventKey) + size rest)%nat as ->
        by (apply size_union; set_solver).
      rewrite size_singleton. lia.
    + apply set_eq. intros k. destruct (decide (k = event_key ev)); set_solver.
Qed.

#[export, program] Instance MemBillingSinkLaws : BillingSinkLaws (gset EventKey) := {|
  sink_ok _ := True;
  stored s := s;
|}.
Next Obligation.
  intros evs now s s' r _ _. unfold persist, MemBillingSink, mem_persist. rewrite mem_insert_all. intros [= <- <-].
  split_and!; [done|set_solver|done|]. by intros n [= <-].
Qed.

(** ** The Postgres sink *)
Definition unrow (k : RowKey) : EventKey := let '(t, l, kd, at_) := k in (mkTenantId t, l, kd, as_u64 at_).
Definition bigint (z : Z) : Prop := - 2 ^ 63 ≤ z ≤ I64_MAX.

Lemma bigint_of_u64 z : 0 ≤ z ≤ U64_MAX → as_u64 (as_i64 z) = z ∧ bigint (as_i64 z).
Proof.
  intros Hz. unfold as_i64, bigint. destruct (Z.leb_spec z I64_MAX); (split; [|mlia]); unfold as_u64.
  - apply Z.mod_small. mlia.
  - rewrite <-(Z_mod_plus_full _ 1). rewrite Z.mod_small; mlia.
Qed.
Lemma as_u64_bigint_inj x y : bigint x → bigint y → as_u64 x = as_u64 y → x = y.
Proof.
  unfold bigint, as_u64. intros Hx Hy Hxy.
  assert ((x - y) mod 2 ^ 64 = 0) as H0 by (rewrite Zminus_mod, Hxy, Z.sub_diag; done).
  apply Z.mod_divide in H0 as [q Hq]; [|done]. assert (q = 0) by mlia. lia.
Qed.

Section pg.
Context {O : Type} {pg : PgLink O}.

(** The rows of a [bigint] column, as the keys they stand for. *)
Definition rows_ok (rows : gmap RowKey Z) : Prop := ∀ k, k ∈ dom rows → bigint k.2.
Definition row_keys (rows : gmap RowKey Z) : gset EventKey := set_map unrow (dom rows).

Lemma unrow_row_key ev : u64_event ev → unrow (row_key ev) = event_key ev ∧ bigint (row_key ev).2.
Proof.
  intros Hev. destruct (bigint_of_u64 _ Hev) as [Hu Hb]. unfold row_key, unrow, event_key. rewrite Hu.
  by destruct (ev_tenant ev).
Qed.

(** One row, as one key. *)
Lemma insert_row_mem exported rows n ev :
  rows_ok rows → u64_event ev →
  let '(rows', n') := insert_row exported (rows, n) ev in
  rows_ok rows' ∧ mem_insert (row_keys rows, n) ev = (row_keys rows', n').
Proof.
  intros Hok Hev. destruct (unrow_row_key ev Hev) as [Hu Hb].
  assert (event_key ev ∈ row_keys rows ↔ is_Some (rows !! row_key ev)) as Hin.
  { unfold row_keys. rewrite elem_of_map. split; [|intros ?%elem_of_dom; eauto]. intros ([[[t l] kd] at_] & Hk & Hd).
    assert (row_key ev = (t, l, kd, at_)) as ->; [|by apply elem_of_dom].
    pose proof (Hok _ Hd) as Hat. rewrite <-Hu in Hk. revert Hk Hb. destruct (row_key ev) as [[[t' l'] kd'] at'].
    cbn in *. intros [= -> -> -> Ha] Hb. f_equal. by apply as_u64_bigint_inj. }
  unfold insert_row, mem_insert. cbn [fst snd]. destruct (rows !! row_key ev) eqn:E.
  - split; [done|]. by rewrite bool_decide_true by (apply Hin; eauto).
  - split; [intros k; rewrite dom_insert, elem_of_union, elem_of_singleton; intros [->|]; [done|by apply Hok]|].
    rewrite bool_decide_false by (rewrite Hin; by intros []). unfold row_keys.
    by rewrite dom_insert_L, set_map_union_L, set_map_singleton_L, Hu.
Qed.

Lemma insert_rows_mem exported evs rows n :
  rows_ok rows → Forall u64_event evs →
  let '(rows', n') := foldl (insert_row exported) (rows, n) evs in
  rows_ok rows' ∧ foldl mem_insert (row_keys rows, n) evs = (row_keys rows', n').
Proof.
  revert rows n. induction evs as [|ev evs IH]; intros rows n Hok Hf; [done|]. apply Forall_cons in Hf as [Hev Hf].
  pose proof (insert_row_mem exported rows n ev Hok Hev) as H1. cbn [foldl].
  destruct (insert_row exported (rows, n) ev) as [rows1 n1]. destruct H1 as [Hok1 ->]. by apply IH.
Qed.

Lemma first_of_key_keys seen evs :
  keys_of (first_of_key seen evs) ∪ seen = keys_of evs ∪ seen ∧
  (Forall u64_event evs → Forall u64_event (first_of_key seen evs)).
Proof.
  revert seen. induction evs as [|ev evs IH]; intros seen; [done|]. cbn [first_of_key]. case_bool_decide.
  - destruct (IH seen) as [H1 H2]. rewrite keys_of_cons, H1. split; [clear -H; set_solver|]. intros [_ ?]%Forall_cons. auto.
  - destruct (IH ({[event_key ev]} ∪ seen)) as [H1 H2]. rewrite !keys_of_cons.
    split; [etrans; [|etrans; [exact H1|]]; clear; set_solver|]. intros [? ?]%Forall_cons. constructor; auto.
Qed.

#[export, program] Instance PgBillingSinkLaws : BillingSinkLaws (PgBilling O) := {|
  sink_ok db := rows_ok (billing_events db);
  stored db := row_keys (billing_events db);
|}.
Next Obligation.
  intros evs now db db' r Hok Hf. unfold persist, PgBillingSink, pg_persist. destruct evs as [|ev evs'].
  { intros [= <- <-]. split_and!; [done..|set_solver|]. intros n [= <-].
    split; [set_solver|]. unfold keys_of. cbn. symmetry. apply size_empty_iff. set_solver. }
  set (evs := ev :: evs') in *. destruct (link_next (link db)) as [o fault].
  destruct (first_of_key_keys ∅ evs) as [Hk Hf']. rewrite !(right_id_L ∅ (∪)) in Hk. specialize (Hf' Hf).
  pose proof (insert_rows_mem (as_i64 now) (first_of_key ∅ evs) (billing_events db) 0 Hok Hf') as Hmem.
  destruct (foldl (insert_row _) _ _) as [rows n]. destruct Hmem as [Hok' Hmem].
  rewrite mem_insert_all, Hk in Hmem. injection Hmem as Hrows Hn.
  destruct (too_many_values _); [|destruct fault]; intros [= <- <-]; cbn; rewrite <-?Hrows; split_and!; try done; set_solver.
Qed.
End pg.

(** The Postgres sink answers as the in-memory one does: for a batch it has
    written, the same number of new rows and the same keys afterwards. *)
Theorem pg_sink_is_mem_sink {O} {pg : PgLink O} evs now (db db' : PgBilling O) n :
  rows_ok (billing_events db) → Forall u64_event evs →
  pg_persist evs now db = (db', Ok n) →
  mem_persist evs now (row_keys (billing_events db)) = (row_keys (billing_events db'), Ok n).
Proof.
  intros Hok Hf Hp. destruct (law_persist (BillingSinkLaws := PgBillingSinkLaws) evs now db db' (Ok n) Hok Hf Hp) as (_ & _ & _ & Hn).
  destruct (Hn n eq_refl) as [Hs ->]. cbn in Hs. unfold mem_persist. by rewrite mem_insert_all, Hs.
Qed.

Lemma length_filter_impl {A} (P Q : A → Prop) `{!∀ x, Decision (P x), !∀ x, Decision (Q x)} (l : list A) :
  (∀ x, P x → Q x) → (length (filter P l) ≤ length (filter Q l))%nat.
Proof.
  intros HPQ. induction l as [|x l IH]; [done|]. rewrite !filter_cons.
  destruct (decide (P x)) as [Hp|]; [rewrite decide_True by auto|case_decide]; cbn; lia.
Qed.

(** ** The fleet *)
Section fleet.
Context {S : Type} {sink : BillingSink S} {laws : BillingSinkLaws S} (s0 : S).
Abbreviation W := (Fleet S).
Abbreviation Tok := (gmultiset ()).
Implicit Types (w : W) (R : Tok).

(** How many events of the history have left the journal. *)
Definition gone w i : nat := length (history_of w i) - length (journal (meter_of w i)).
Definition unsaved w (evs : list SlotOccupancyEvent) : list SlotOccupancyEvent :=
  filter (λ ev, event_key ev ∉ stored (sink_of w)) evs.

Record instance_ok w i : Prop := {
  io_meter : meter_inv (meter_of w i) (history_of w i) (gone w i);
  io_saved : Z.of_nat (length (unsaved w (take (gone w i) (history_of w i)))) ≤ journal_dropped (meter_of w i);
}.

(** Histories the 64-bit counters can count. *)
Definition countable_fleet w : Prop :=
  ∀ i, Z.of_nat (length (history_of w i)) ≤ U64_MAX ∧ Forall u64_event (history_of w i).

Record fleet_ok w : Prop := {
  fo_sink : sink_ok (sink_of w);
  fo_instance i : instance_ok w i;
  fo_source k : k ∈ stored (sink_of w) → k ∈ stored s0 ∨ ∃ i ev, ev ∈ history_of w i ∧ k = event_key ev;
}.

Definition fleet_inv w R : Prop := countable_fleet w → fleet_ok w.
Definition grows w w' : Prop := ∀ i, history_of w i `prefix_of` history_of w' i.
Definition fleet_rely w R w' R' : Prop :=
  grows w w' ∧ (countable_fleet w' → stored (sink_of w) ⊆ stored (sink_of w') ∧ ∀ i, (gone w i ≤ gone w' i)%nat).

Lemma grows_countable w w' : grows w w' → countable_fleet w' → countable_fleet w.
Proof.
  intros Hg Hc i. destruct (Hc i) as [Hl Hf]. destruct (Hg i) as [t Ht]. rewrite Ht in Hl, Hf.
  rewrite length_app in Hl. apply Forall_app in Hf as [? _]. split; [lia|done].
Qed.

Lemma gone_meter m h n : meter_inv m h n → (length h - length (journal m))%nat = n.
Proof. intros H. pose proof (mi_n _ _ _ H). rewrite (mi_journal _ _ _ H), length_drop. lia. Qed.

Lemma meter_of_insert w i m h (s : S) j :
  meter_of (mkFleet (<[i := (m, h)]> (instances w)) s) j = (if decide (j = i) then m else meter_of w j) ∧
  history_of (mkFleet (<[i := (m, h)]> (instances w)) s) j = (if decide (j = i) then h else history_of w j).
Proof.
  unfold meter_of, history_of. cbn. case_decide; [subst; by rewrite lookup_insert_eq|by rewrite lookup_insert_ne].
Qed.

(** The window between two marks is written: the later mark may take over. *)
Lemma unsaved_window w h n0 n m :
  (n0 ≤ n)%nat → (∀ ev, ev ∈ drop n0 (take m h) → event_key ev ∈ stored (sink_of w)) →
  unsaved w (take (Nat.max n m) h) = unsaved w (take n h).
Proof.
  intros Hn Hw. destruct (decide (m ≤ n)%nat); [by rewrite Nat.max_l|]. rewrite Nat.max_r by lia.
  assert (take m h = take n h ++ drop n (take m h)) as Hsplit.
  { rewrite <-(take_drop n (take m h)) at 1. f_equal. rewrite take_take. f_equal. lia. }
  unfold unsaved. rewrite Hsplit, filter_app.
  assert (filter (λ ev, event_key ev ∉ stored (sink_of w)) (drop n (take m h)) = []) as ->; [|by rewrite app_nil_r].
  apply elem_of_nil_inv. intros ev [Hns Hev]%list_elem_of_filter. apply Hns, Hw.
  rewrite <-(take_drop (n - n0) (drop n0 (take m h))), drop_drop. apply elem_of_app. right.
  by replace (n0 + (n - n0))%nat with n by lia.
Qed.

(** A recorded event. *)
Lemma record_ok w i ev :
  let w' := mkFleet (<[i := (record (meter_of w i) ev, history_of w i ++ [ev])]> (instances w)) (sink_of w) in
  fleet_inv w ∅ → fleet_inv w' ∅ ∧ fleet_rely w ∅ w' ∅.
Proof.
  intros w' Hi. assert (∀ j, meter_of w' j = (if decide (j = i) then record (meter_of w i) ev else meter_of w j) ∧
    history_of w' j = (if decide (j = i) then history_of w i ++ [ev] else history_of w j)) as Hw by (intros j; apply meter_of_insert).
  assert (grows w w') as Hg. { intros j. destruct (Hw j) as [_ ->]. case_decide; [subst; by apply prefix_app_r|done]. }
  assert (countable_fleet w' → fleet_ok w ∧ ∃ k, meter_inv (record (meter_of w i) ev) (history_of w i ++ [ev]) (gone w i + k) ∧
    journal_dropped (record (meter_of w i) ev) = journal_dropped (meter_of w i) + Z.of_nat k ∧ gone w' i = (gone w i + k)%nat) as Hrec.
  { intros Hc. pose proof (Hi (grows_countable _ _ Hg Hc)) as Hok. split; [done|].
    destruct (Hc i) as [Hl _]. destruct (Hw i) as [Hm Hh]. rewrite decide_True in Hm by done. rewrite decide_True in Hh by done. rewrite Hh, length_app in Hl. cbn in Hl.
    destruct (meter_inv_record _ _ _ ev (io_meter _ _ (fo_instance _ Hok i)) ltac:(lia)) as (k & Hk & Hd).
    exists k. split_and!; [done..|]. unfold gone at 1. rewrite Hm, Hh. by apply gone_meter. }
  assert (∀ j, j ≠ i → gone w' j = gone w j) as Hgone.
  { intros j Hj. unfold gone. destruct (Hw j) as [-> ->]. by rewrite !decide_False. }
  split; [|split; [done|]].
  - intros Hc. destruct (Hrec Hc) as (Hok & k & Hk & Hd & Hgi). constructor; [apply Hok| |].
    + intros j. destruct (Hw j) as [Hm Hh]. destruct (decide (j = i)) as [->|Hj].
      * constructor; rewrite Hm, Hh, Hgi; [done|]. rewrite Hd. pose proof (io_saved _ _ (fo_instance _ Hok i)) as Hs.
        pose proof (mi_n _ _ _ Hk) as Hn. pose proof (gone_meter _ _ _ (io_meter _ _ (fo_instance _ Hok i))).
        assert (take (gone w i + k) (history_of w i ++ [ev]) = take (gone w i) (history_of w i ++ [ev]) ++
          take k (drop (gone w i) (history_of w i ++ [ev]))) as -> by by rewrite take_take_drop.
        change (unsaved w' ?l) with (unsaved w l). unfold unsaved in *. rewrite filter_app, length_app.
        pose proof (length_filter (λ e, event_key e ∉ stored (sink_of w)) (take k (drop (gone w i) (history_of w i ++ [ev])))) as Hf.
        rewrite length_take in Hf. rewrite (take_app_le (history_of w i)) by (rewrite length_app in Hn; unfold gone; lia). lia.
      * constructor; rewrite Hm, Hh, Hgone by done; apply (fo_instance _ Hok j).
    + intros key Hkey. destruct (fo_source _ Hok key Hkey) as [?|(j & e & He & ->)]; [by left|]. right. exists j, e.
      split; [|done]. destruct (Hg j) as [t ->]. apply elem_of_app. by left.
  - intros Hc. destruct (Hrec Hc) as (_ & k & _ & _ & Hgi). split; [done|]. intros j.
    destruct (decide (j = i)) as [->|Hj]; [lia|by rewrite Hgone].
Qed.

(** A batch of recorded events is written, or may have been. *)
Lemma persist_ok w evs now s r :
  persist evs now (sink_of w) = (s, r) →
  (countable_fleet w → ∀ ev, ev ∈ evs → ∃ i, ev ∈ history_of w i) →
  let w' := mkFleet (instances w) s in
  fleet_inv w ∅ → fleet_inv w' ∅ ∧ fleet_rely w ∅ w' ∅ ∧
  (countable_fleet w' → ∀ n, r = Ok n → ∀ ev, ev ∈ evs → event_key ev ∈ stored s).
Proof.
  intros Hp Hsrc w' Hi.
  assert (countable_fleet w → fleet_ok w ∧ sink_ok s ∧ stored (sink_of w) ⊆ stored s ∧
    stored s ⊆ stored (sink_of w) ∪ keys_of evs ∧ (∀ n, r = Ok n → stored s = stored (sink_of w) ∪ keys_of evs)) as Hlaw.
  { intros Hc. pose proof (Hi Hc) as Hok. split; [done|].
    destruct (law_persist evs now (sink_of w) s r) as (? & ? & ? & Hn); [apply Hok| |done|split_and!; [done..|intros m Hm; by destruct (Hn m Hm)]].
    apply Forall_forall. intros ev Hev. destruct (Hsrc Hc ev Hev) as [j Hj]. destruct (Hc j) as [_ Hf].
    rewrite Forall_forall in Hf. by apply Hf. }
  split_and!; [|split; [by intros j|]|].
  - intros Hc. destruct (Hlaw Hc) as (Hok & Hs & Hsub & Hsup & _). constructor; [done| |].
    + intros j. destruct (fo_instance _ Hok j) as [Hm Hsv]. constructor; [exact Hm|]. etrans; [|exact Hsv].
      apply Nat2Z.inj_le. unfold unsaved. change (gone w' j) with (gone w j). change (history_of w' j) with (history_of w j).
      apply length_filter_impl. intros ev Hne He. apply Hne. by apply Hsub.
    + intros k Hk. apply Hsup, elem_of_union in Hk as [Hk|Hk]; [by apply Hok|]. right.
      apply elem_of_list_to_set, list_elem_of_fmap in Hk as (ev & -> & Hev). destruct (Hsrc Hc ev Hev) as [j ?]. by exists j, ev.
  - intros Hc. by destruct (Hlaw Hc) as (_ & _ & Hsub & _).
  - intros Hc n Hn ev Hev. destruct (Hlaw Hc) as (_ & _ & _ & _ & Heq). rewrite (Heq n Hn).
    apply elem_of_union. right. apply elem_of_list_to_set. by apply list_elem_of_fmap_2.
Qed.

(** A written window is drained. *)
Definition window_written i (watermark : Z) w : Prop :=
  ∃ n0 m, watermark = Z.of_nat m ∧ (m ≤ length (history_of w i))%nat ∧ (n0 ≤ gone w i)%nat ∧
    ∀ ev, ev ∈ drop n0 (take m (history_of w i)) → event_key ev ∈ stored (sink_of w).

Lemma drain_ok w i watermark :
  (countable_fleet w → window_written i watermark w) →
  let w' := mkFleet (<[i := (drain_through (meter_of w i) watermark, history_of w i)]> (instances w)) (sink_of w) in
  fleet_inv w ∅ → fleet_inv w' ∅ ∧ fleet_rely w ∅ w' ∅.
Proof.
  intros Hwin w' Hi.
  assert (∀ j, meter_of w' j = (if decide (j = i) then drain_through (meter_of w i) watermark else meter_of w j) ∧
    history_of w' j = history_of w j) as Hw.
  { intros j. destruct (meter_of_insert w i (drain_through (meter_of w i) watermark) (history_of w i) (sink_of w) j) as [? Hh].
    split; [done|]. fold w' in Hh. rewrite Hh. case_decide; by subst. }
  assert (countable_fleet w' → countable_fleet w) as Hback. { intros Hc j. destruct (Hw j) as [_ <-]. apply Hc. }
  assert (∀ j, j ≠ i → gone w' j = gone w j) as Hgone.
  { intros j Hj. unfold gone. destruct (Hw j) as [-> ->]. by rewrite decide_False. }
  assert (countable_fleet w' → ∃ m, meter_inv (drain_through (meter_of w i) watermark) (history_of w i) (Nat.max (gone w i) m) ∧
    gone w' i = Nat.max (gone w i) m ∧ unsaved w (take (Nat.max (gone w i) m) (history_of w i)) = unsaved w (take (gone w i) (history_of w i))) as Hd.
  { intros Hc%Hback. destruct (Hwin Hc) as (n0 & m & -> & Hm & Hn0 & Hall). exists m.
    pose proof (meter_inv_drain _ _ _ (Z.of_nat m) (io_meter _ _ (fo_instance _ (Hi Hc) i))) as Hmi.
    rewrite Z.min_l, Nat2Z.id in Hmi by lia. split_and!; [done| |by eapply unsaved_window].
    unfold gone at 1. destruct (Hw i) as [-> ->]. rewrite decide_True by done. by apply gone_meter. }
  split; [|split].
  - intros Hc. pose proof (Hi (Hback Hc)) as Hok. destruct (Hd Hc) as (m & Hm & Hg & Hu). constructor; [apply Hok| |].
    + intros j. destruct (Hw j) as [Hmj Hhj]. destruct (decide (j = i)) as [->|Hj].
      * constructor; rewrite Hmj, Hhj, Hg; [done|]. change (unsaved w' ?l) with (unsaved w l). rewrite Hu.
        apply (io_saved _ _ (fo_instance _ Hok i)).
      * constructor; rewrite Hmj, Hhj, Hgone by done; apply (fo_instance _ Hok j).
    + intros k Hk. destruct (fo_source _ Hok k Hk) as [?|(j & e & He & ->)]; [by left|]. right. exists j, e.
      split; [|done]. by destruct (Hw j) as [_ ->].
  - intros j. by destruct (Hw j) as [_ ->].
  - intros Hc. split; [done|]. intros j. destruct (decide (j = i)) as [->|Hj]; [|by rewrite Hgone].
    destruct (Hd Hc) as (m & _ & -> & _). lia.
Qed.

(** What a tick has read stays the window between two marks of the history. *)
Definition window_read i (events : list SlotOccupancyEvent) (watermark : Z) w : Prop :=
  ∃ n0 m, watermark = Z.of_nat m ∧ (m ≤ length (history_of w i))%nat ∧ (n0 ≤ gone w i)%nat ∧
    events = drop n0 (take m (history_of w i)).

Lemma take_prefix {A} (l l' : list A) m : l `prefix_of` l' → (m ≤ length l)%nat → take m l' = take m l.
Proof. intros [t ->] Hm. by apply take_app_le. Qed.

Lemma window_grows i w w' m n0 R R' :
  fleet_rely w R w' R' → countable_fleet w' → (m ≤ length (history_of w i))%nat → (n0 ≤ gone w i)%nat →
  (m ≤ length (history_of w' i))%nat ∧ (n0 ≤ gone w' i)%nat ∧ take m (history_of w' i) = take m (history_of w i).
Proof.
  intros [Hg Hm] Hc Hl Hn. destruct (Hm Hc) as [_ Hgone]. specialize (Hgone i). specialize (Hg i).
  pose proof (prefix_length _ _ Hg). split_and!; [lia|lia|by apply take_prefix].
Qed.

Lemma stable_window_read i events wm :
  stable fleet_inv fleet_rely (λ w (_ : Tok), countable_fleet w → window_read i events wm w).
Proof.
  intros w R w' R' Hr _ HK Hc. destruct HK as (n0 & m & -> & Hm & Hn & ->); [by eapply grows_countable; [apply Hr|]|].
  destruct (window_grows i w w' m n0 R R' Hr Hc Hm Hn) as (? & ? & Ht). exists n0, m. by rewrite Ht.
Qed.
Lemma stable_window_written i wm :
  stable fleet_inv fleet_rely (λ w (_ : Tok), countable_fleet w → window_written i wm w).
Proof.
  intros w R w' R' Hr _ HK Hc. destruct HK as (n0 & m & -> & Hm & Hn & Hall); [by eapply grows_countable; [apply Hr|]|].
  destruct (window_grows i w w' m n0 R R' Hr Hc Hm Hn) as (? & ? & Ht). exists n0, m. split_and!; [done..|].
  rewrite Ht. intros ev Hev. destruct Hr as [_ Hsub]. by apply (proj1 (Hsub Hc)), Hall.
Qed.

Lemma export_tick_ok i now prev : handler_ok fleet_inv fleet_rely (λ _, True) (export_tick i now prev).
Proof.
  unfold handler_ok, export_tick.
  eapply (safe_bind _ _ (λ '(events, wm, _) (_ : Tok) w (_ : Tok), countable_fleet w → window_read i events wm w)).
  { apply safe_atomic; [intros [[events wm] d] _; apply stable_window_read|].
    intros w f w' [[events wm] d] [= <- <- <- <-] Hi _. exists ∅. split_and!; [done|split; [by intros j|by split]|].
    intros Hc. pose proof (io_meter _ _ (fo_instance _ (Hi Hc) i)) as Hm. exists (gone w i), (length (history_of w i)).
    split_and!; [apply Hm|done|done|]. rewrite take_ge by done. apply Hm. }
  intros [[events wm] d] r.
  eapply (safe_bind _ _ (λ x (_ : Tok) w (_ : Tok), ∀ n, x = Ok n → countable_fleet w → window_written i wm w)).
  { apply safe_atomic; [intros x _ w1 R1 w2 R2 Hr Hi2 HK n Hn; by eapply stable_window_written; eauto|].
    intros w f w' x Hg Hi HK. destruct (persist events now (sink_of w)) as [s y] eqn:Hp. injection Hg as <- <-.
    destruct (persist_ok w events now s y Hp) as (Hi' & Hr & Hw); [|exact Hi|].
    { intros Hc ev Hev. destruct (HK Hc) as (n0 & m & _ & _ & _ & ->). exists i.
      rewrite <-(take_drop m (history_of w i)), <-(take_drop n0 (take m (history_of w i))). set_solver. }
    exists ∅. split_and!; [exact Hi'|exact Hr|]. intros n -> Hc. destruct (HK Hc) as (n0 & m & -> & Hm & Hn & ->).
    exists n0, m. split_and!; [done..|]. intros ev. by apply (Hw Hc n). }
  intros x r'. eapply (safe_bind _ _ (λ _ _ _ _, True)); [|done]. destruct x as [n|]; [|done].
  apply safe_atomic; [done|]. intros w f w' a [= <- <-] Hi HK. exists ∅.
  destruct (drain_ok w i wm) as [? ?]; [intros Hc; by eapply HK|exact Hi|done].
Qed.

Lemma record_event_ok i ev : handler_ok fleet_inv fleet_rely (λ _, True) (record_event i ev;; mret (0, 0)).
Proof.
  eapply (safe_bind _ _ (λ _ _ _ _, True)); [|done]. apply safe_atomic; [done|]. intros w f w' a [= <- <-] Hi _. exists ∅.
  by destruct (record_ok w i ev Hi).
Qed.

Lemma fleet_run_ok es : sink_ok s0 → fleet_inv (fleet_run es s0) ∅.
Proof.
  intros Hs. destruct (runtime_invariant fleet_inv fleet_rely (λ _, True) (fleet_event <$> es) (mkFleet ∅ s0)) as (R & Hi & _).
  - induction es as [|[i ev|i now prev|k] es IH]; cbn; [constructor|constructor; [|done]..|done].
    + apply record_event_ok.
    + apply export_tick_ok.
  - intros _. constructor; [done| |by left]. intros i. constructor; [|done]. apply meter_inv_new.
  - exact Hi.
Qed.

(** C16: No slot event is lost silently.  However the recordings and the export ticks of
    any number of instances interleave, and whichever statements the database loses
    or loses the answer of: the journal of an instance is the end of what it has
    recorded; of the events before that, those that are not in the shared sink
    are at most as many as the instance reports as dropped; and the sink holds
    nothing that was not recorded. *)
Theorem no_slot_event_is_lost es i :
  sink_ok s0 → let w := fleet_run es s0 in countable_fleet w →
  (∃ n, journal (meter_of w i) = drop n (history_of w i) ∧
     Z.of_nat (length (filter (λ ev, event_key ev ∉ stored (sink_of w)) (take n (history_of w i))))
       ≤ journal_dropped (meter_of w i)) ∧
  (∀ k, k ∈ stored (sink_of w) → k ∈ stored s0 ∨ ∃ j ev, ev ∈ history_of w j ∧ k = event_key ev).
Proof.
  intros Hs w Hc. pose proof (fleet_run_ok es Hs Hc) as Hok. split; [|apply Hok].
  destruct (fo_instance _ Hok i) as [Hm Hsv]. exists (gone w i). split; [apply Hm|exact Hsv].
Qed.
End fleet.

(** ** A window that is too large *)
Definition recordings {S} (i : nat) (evs : list SlotOccupancyEvent) (w : Fleet S) : Fleet S :=
  foldl (λ w ev, (run_alone (record_event i ev) w).1) w evs.
Definition ticks {S} {sink : BillingSink S} (i : nat) (nows : list Z) (w : Fleet S) : Fleet S :=
  foldl (λ w now, (run_alone (export_tick i now 0) w).1) w nows.

Lemma recordings_journal {S} i evs (w : Fleet S) :
  Z.of_nat (length (journal (meter_of w i)) + length evs) ≤ JOURNAL_CAP →
  journal (meter_of (recordings i evs w) i) = journal (meter_of w i) ++ evs ∧
  sink_of (recordings i evs w) = sink_of w.
Proof.
  revert w. induction evs as [|ev evs IH]; intros w Hlen; [by rewrite (right_id_L [] (++))|].
  change (recordings i (ev :: evs) w) with (recordings i evs (run_alone (record_event i ev) w).1).
  unfold record_event, update. rewrite run_alone_atomic. cbn [fst].
  set (w1 := mkFleet _ _).
  assert (journal (meter_of w1 i) = journal (meter_of w i) ++ [ev]) as Hj.
  { unfold w1, meter_of at 1. cbn [instances]. rewrite lookup_insert_eq. cbn -[record]. unfold record. cbn [journal].
    rewrite bool_decide_false by (cbn [length] in Hlen; lia). done. }
  destruct (IH w1) as [-> ->]; rewrite Hj.
  - rewrite length_app. cbn [length] in *. lia.
  - by rewrite <-(assoc_L (++)).
Qed.

Lemma first_of_key_nodup seen evs :
  NoDup (event_key <$> evs) → (∀ ev, ev ∈ evs → event_key ev ∉ seen) → first_of_key seen evs = evs.
Proof.
  revert seen. induction evs as [|ev evs IH]; intros seen Hnd Hout; [done|]. cbn in Hnd. apply NoDup_cons in Hnd as [Hev Hnd].
  cbn [first_of_key]. rewrite bool_decide_false by (apply Hout; left). f_equal. apply IH; [done|].
  intros ev' Hin. rewrite elem_of_union, elem_of_singleton. intros [Heq|Hs]; [|by apply (Hout ev'); [right|]].
  apply Hev. rewrite <-Heq. by apply list_elem_of_fmap_2.
Qed.

Section too_large.
Context {O : Type} {pg : PgLink O}.

Lemma tick_too_large i now (w : Fleet (PgBilling O)) :
  too_many_values (first_of_key ∅ (journal (meter_of w i))) = true →
  let w' := (run_alone (export_tick i now 0) w).1 in
  instances w' = instances w ∧ billing_events (sink_of w') = billing_events (sink_of w).
Proof.
  intros Hbig. unfold export_tick. rewrite run_alone_bind. unfold read. rewrite run_alone_atomic. cbn [fst snd].
  rewrite run_alone_bind, run_alone_atomic. unfold persist, PgBillingSink, pg_persist.
  destruct (journal (meter_of w i)) as [|ev evs] eqn:Ej; [done|].
  destruct (link_next _) as [o fault]. destruct (foldl (insert_row _) _ _). rewrite Hbig. done.
Qed.

(** C40: A window that is too large is never exported.  If an instance has come to hold
    more than 13107 distinct events, say while the database was away, no number of
    ticks writes any of them or takes one off the journal: every tick sends the
    whole journal in one statement, and that has more values than one may have. *)
Theorem oversized_window_is_never_exported evs (db : PgBilling O) nows :
  NoDup (event_key <$> evs) → (13107 < N.of_nat (length evs))%N → Z.of_nat (length evs) ≤ JOURNAL_CAP →
  let w := ticks 0 nows (recordings 0 evs (mkFleet ∅ db)) in
  journal (meter_of w 0) = evs ∧ billing_events (sink_of w) = billing_events db.
Proof.
  intros Hnd Hlen Hcap w. destruct (recordings_journal 0 evs (mkFleet ∅ db)) as [Hj Hs]; [done|].
  change (journal (meter_of (mkFleet ∅ db) 0) ++ evs) with evs in Hj. subst w.
  set (w := recordings 0 evs _) in *. cbn [sink_of] in Hs. rewrite <-Hs. clear Hs. clearbody w.
  revert w Hj. induction nows as [|now nows IH]; intros w Hj; [done|]. 
  change (ticks 0 (now :: nows) w) with (ticks 0 nows (run_alone (export_tick 0 now 0) w).1).
  destruct (tick_too_large 0 now w) as [Hi Hb].
  { rewrite Hj, first_of_key_nodup by (done || set_solver). unfold too_many_values, MAX_BIND_VALUES.
    apply bool_decide_eq_true. lia. }
  set (w1 := (run_alone _ w).1) in *.
  assert (journal (meter_of w1 0) = evs) as Hj1 by (unfold meter_of; by rewrite Hi).
  destruct (IH w1 Hj1) as [Hj' Hb']. by rewrite Hb', Hb.
Qed.
End too_large.

(** ** Runs *)

(** The answer of the first statement is lost, the second does not arrive. *)
#[local] Instance lossy_link : PgLink nat := λ n,
  (S n, match n with 0%nat => LostAfter | 1%nat => LostBefore | _ => LinkUp end).
Definition empty_sink : PgBilling nat := mkPgBilling ∅ 0%nat.

(** Two instances; the first records an event between its read and its write. *)
Definition fleet_events : list FleetEvent :=
  [Records 0 (sample_event Acquired "a"); FleetRuns 0; Ticks 0 5 0; FleetRuns 1;
   Records 0 (sample_event SlotReleased "a"); FleetRuns 2; FleetRuns 1; FleetRuns 1;
   Records 1 (sample_event Acquired "b"); FleetRuns 3; Ticks 1 6 0; FleetRuns 4; FleetRuns 4; FleetRuns 4;
   Ticks 0 7 0; FleetRuns 5; FleetRuns 5; FleetRuns 5].

Lemma sample_fleet_countable : countable_fleet (fleet_run fleet_events empty_sink).
Proof.
  assert (∀ kind id, u64_event (sample_event kind id)) as Hu by (intros; unfold u64_event; cbn; mlia).
  intros i. destruct (decide (i = 0%nat)) as [->|]; [|destruct (decide (i = 1%nat)) as [->|]].
  - assert (history_of (fleet_run fleet_events empty_sink) 0 = [sample_event Acquired "a"; sample_event SlotReleased "a"])
      as -> by (vm_compute; reflexivity). split; [cbn; mlia|by repeat constructor].
  - assert (history_of (fleet_run fleet_events empty_sink) 1 = [sample_event Acquired "b"])
      as -> by (vm_compute; reflexivity). split; [cbn; mlia|by repeat constructor].
  - assert (history_of (fleet_run fleet_events empty_sink) i = []) as ->; [|done].
    unfold history_of. assert (instances (fleet_run fleet_events empty_sink) !! i = None) as ->; [|done].
    apply not_elem_of_dom. intros Hin. assert (dom (instances (fleet_run fleet_events empty_sink)) = {[0%nat; 1%nat]}) as Hd
      by (vm_compute; reflexivity). rewrite Hd in Hin. clear Hd. set_solver.
Qed.

Lemma no_slot_event_is_lost_witness :
  let w := fleet_run fleet_events empty_sink in
  journal (meter_of w 0) = [] ∧ history_of w 0 = [sample_event Acquired "a"; sample_event SlotReleased "a"] ∧
  ∃ n, journal (meter_of w 0) = drop n (history_of w 0) ∧
    Z.of_nat (length (filter (λ ev, event_key ev ∉ stored (sink_of w)) (take n (history_of w 0))))
      ≤ journal_dropped (meter_of w 0).
Proof.
  split_and!; [vm_compute; reflexivity..|].
  refine (proj1 (no_slot_event_is_lost empty_sink fleet_events 0 _ sample_fleet_countable)).
  intros k. cbn. by rewrite dom_empty_L, elem_of_empty.
Defined.

Lemma pg_sink_is_mem_sink_witness :
  mem_persist [sample_event Acquired "a"; sample_event Acquired "a"] 5 ∅ =
    ({[event_key (sample_event Acquired "a")]}, Ok 1%nat).
Proof.
  refine (pg_sink_is_mem_sink [sample_event Acquired "a"; sample_event Acquired "a"] 5 (mkPgBilling ∅ 2%nat)
    (mkPgBilling {[row_key (sample_event Acquired "a") := 5]} 3%nat) 1 _ _ _).
  - intros k. cbn. set_solver.
  - repeat constructor; unfold u64_event; cbn; mlia.
  - vm_compute. reflexivity.
Defined.

(** What an outage of the database leaves. *)
Definition backlog : list SlotOccupancyEvent :=
  (λ n : nat, mkSlotEvent (mkTenantId "acme") "a" Acquired (Z.of_nat n) None) <$> seq 0 (N.to_nat 13500).

Lemma oversized_window_is_never_exported_witness :
  let w := ticks 0 [1; 2; 3] (recordings 0 backlog (mkFleet ∅ (mkPgBilling ∅ 2%nat))) in
  journal (meter_of w 0) = backlog ∧ billing_events (sink_of w) = ∅.
Proof.
  refine (oversized_window_is_never_exported backlog (mkPgBilling ∅ 2%nat) [1; 2; 3] _ _ _).
  - unfold backlog. rewrite <-list_fmap_compose. apply NoDup_fmap_2; [|apply NoDup_seq].
    intros m n. cbn. intros [= Hmn]. lia.
  - unfold backlog. rewrite length_fmap, length_seq, N2Nat.id. done.
  - unfold backlog. rewrite length_fmap, length_seq, N_nat_Z. done.
Defined.
