(* ===== verification/Envelope.v ===== *)
(** * The capture envelope: [corelink-runner/src/envelope]

    What a job's agent loop writes while a lease is held: [collector.rs] folds
    the transcript events into metrics, [hook.rs] forwards them through two
    bounded queues to an authenticated subscriber, and [close.rs] is the close
    machine, which finalizes once, signals, waits for an acknowledgement and
    says whether the capture was complete. *)
From S2P Require Import Prelude.

(** ** Events and prices: [event.rs] *)
Record TurnUsage : Type := mkUsage { u_input : Z; u_output : Z; u_cache_read : Z; u_cache_write : Z }.

Inductive TranscriptEvent : Type :=
| ModelTurn (bytes : string) (usage : option TurnUsage) (busy_ms : Z)
| ToolCall (tool bytes : string) (busy_ms : Z)
| ToolResult (tool bytes : string)
| SystemPrompt (bytes : string).

Record PriceCard : Type := mkPrice {
  input_per_mtok_micros : Z;
  output_per_mtok_micros : Z;
  cache_read_per_mtok_micros : Z;
  cache_write_per_mtok_micros : Z;
}.

(** ** Metrics *)
Record TokenCounts : Type := mkTokens { input : Z; output : Z; cache_read : Z; cache_write : Z; total : Z }.
Record ToolCount : Type := mkToolCount { tool : string; count : Z }.
Record IntentMetrics : Type := mkMetrics {
  tokens : TokenCounts;
  wall_ms : Z;
  active_ms : Z;
  tool_calls : Z;
  tool_breakdown : list ToolCount;
  model_turns : Z;
  cost_usd_micros : Z;
}.

(** ** The collector: [collector.rs] *)
Definition MAX_DISTINCT_TOOLS : nat := 256.
Definition MAX_TOOL_NAME_LEN : nat := 128.
Definition TOOL_OVERFLOW_KEY : string := "<overflow>".

Module Collector.

(** Instants are nanoseconds of the monotonic clock. *)
Record MetricsCollector : Type := mkCollector {
  born : Z;
  model_turns : Z;
  tool_calls : Z;
  tool_breakdown : gmap string Z;
  active_ms : Z;
  input : Z;
  output : Z;
  cache_read : Z;
  cache_write : Z;
  finalized : bool;
}.

Definition new (at_ns : Z) : MetricsCollector := mkCollector at_ns 0 0 ∅ 0 0 0 0 0 false.

(** [x += 1] on a [u64] in a release build. *)
Definition bump (x : Z) : Z := as_u64 (x + 1).

(** The key a tool name is counted under. *)
Definition tool_key (breakdown : gmap string Z) (name : string) : string :=
  if decide ((String.length name ≤ MAX_TOOL_NAME_LEN)%nat
             ∧ (is_Some (breakdown !! name) ∨ (size breakdown < MAX_DISTINCT_TOOLS)%nat))
  then name else TOOL_OVERFLOW_KEY.

Definition observe (c : MetricsCollector) (ev : TranscriptEvent) : MetricsCollector :=
  match ev with
  | ModelTurn _ usage busy =>
    let used f := from_option f 0 usage in
    mkCollector (born c) (bump (model_turns c)) (tool_calls c) (tool_breakdown c)
      (active_ms c +sat busy) (input c +sat used u_input) (output c +sat used u_output)
      (cache_read c +sat used u_cache_read) (cache_write c +sat used u_cache_write) (finalized c)
  | ToolCall name _ busy =>
    let key := tool_key (tool_breakdown c) name in
    mkCollector (born c) (model_turns c) (bump (tool_calls c))
      (<[key := bump (default 0 (tool_breakdown c !! key))]> (tool_breakdown c))
      (active_ms c +sat busy) (input c) (output c) (cache_read c) (cache_write c) (finalized c)
  | ToolResult _ _ | SystemPrompt _ => c
  end.

(** [fn class_cost_micros], a [u128]. *)
Definition class_cost_micros (toks per_mtok_micros : Z) : Z := toks * per_mtok_micros / 1000000.

(** [u64::try_from(d.as_millis()).unwrap_or(u64::MAX)] of a saturating difference. *)
Definition millis_between (from to : Z) : Z := Z.min U64_MAX (Z.max 0 (to - from) / 1000000).

Definition project (c : MetricsCollector) (at_ns : Z) (price : PriceCard) : IntentMetrics :=
  let wall := millis_between (born c) at_ns in
  mkMetrics
    (mkTokens (input c) (output c) (cache_read c) (cache_write c)
       (input c +sat output c +sat cache_read c +sat cache_write c))
    wall (Z.min (active_ms c) wall) (tool_calls c)
    (sort_by_key tool ((λ kv, mkToolCount kv.1 kv.2) <$> map_to_list (tool_breakdown c)))
    (model_turns c)
    (Z.min U64_MAX
       (class_cost_micros (input c) (input_per_mtok_micros price)
        + class_cost_micros (output c) (output_per_mtok_micros price)
        + class_cost_micros (cache_read c) (cache_read_per_mtok_micros price)
        + class_cost_micros (cache_write c) (cache_write_per_mtok_micros price))).

Definition snapshot (c : MetricsCollector) (now_ns : Z) (price : PriceCard) : IntentMetrics :=
  project c now_ns price.

Definition finalize (died : Z) (price : PriceCard) (c : MetricsCollector) :
    MetricsCollector * option IntentMetrics :=
  if finalized c then (c, None)
  else (mkCollector (born c) (model_turns c) (tool_calls c) (tool_breakdown c) (active_ms c)
          (input c) (output c) (cache_read c) (cache_write c) true, Some (project c died price)).
End Collector.
Import Collector (MetricsCollector).

(** ** Outcomes: [mod.rs] and [close.rs] *)
Inductive JobStatus : Type := Succeeded | Failed | Killed.
Inductive AbnormalKind : Type := Expiry | Crash.
Inductive CloseReason : Type := Normal | ReasonExpired | ReasonCrashed.

Record CloseSignal : Type := mkSignal { sig_status : JobStatus; sig_metrics : IntentMetrics }.
Record CloseOutcome : Type := mkOutcome {
  out_status : JobStatus;
  out_metrics : IntentMetrics;
  capture_incomplete : bool;
  close_reason : CloseReason;
}.

(** ** The hook: [hook.rs] *)
Module Hook.

Record TurnMeta : Type := mkMeta {
  turn_index : Z;
  timestamp_ms : Z;
  meta_tool : option string;
  meta_tokens : option Z;
}.

Inductive HookPhase : Type := NotOpen | Open | Closed.

#[export] Instance HookPhase_eq_dec : EqDecision HookPhase.
Proof. solve_decision. Defined.

Record Inner : Type := mkHook {
  buffer_capacity : nat;
  expected_credential : string;
  opened_at : Z;
  phase : HookPhase;
  raw : list string;
  meta : list TurnMeta;
  raw_overflow : bool;
  meta_overflow : bool;
  next_turn_index : Z;
  collector : MetricsCollector;
  close_signal : option CloseSignal;
  ack_window_open : bool;
  acked : bool;
  close_done : bool;
  released : bool;
}.

Inductive HookError : Type :=
| WriteNotOpen | WriteClosed | CredentialMismatch | AlreadySignalled | FinalizedTwice
| NoSignalYet | AckInert.

Abbreviation HookM := (M Inner HookError).

Definition byte_at (s : string) (i : nat) : Z :=
  from_option (λ c, Z.of_nat (nat_of_ascii c)) 0 (String.get i s).

(** [fn credential_matches]: the differences OR-folded over the longer length. *)
Definition credential_matches (expected presented : string) : bool :=
  let le := Z.of_nat (String.length expected) in
  let lp := Z.of_nat (String.length presented) in
  Z.eqb 0 (foldl (λ diff i, Z.lor diff (Z.lxor (byte_at expected i) (byte_at presented i)))
             (Z.lxor le lp) (seq 0 (Nat.max (String.length expected) (String.length presented)))).

(** [CaptureHook::pending], [complete_open] and [open]. *)
Definition pending (capacity : nat) (credential : string) (c : MetricsCollector) (now_ns : Z) : Inner :=
  mkHook capacity credential now_ns NotOpen [] [] false false 0 c None false false false false.

Definition complete_open (now_ns : Z) (h : Inner) : Inner :=
  if decide (phase h = NotOpen) then
    mkHook (buffer_capacity h) (expected_credential h) now_ns Open (raw h) (meta h) (raw_overflow h)
      (meta_overflow h) (next_turn_index h) (collector h) (close_signal h) (ack_window_open h)
      (acked h) (close_done h) (released h)
  else h.

Definition open (capacity : nat) (credential : string) (c : MetricsCollector) (now_ns : Z) : Inner :=
  complete_open now_ns (pending capacity credential c now_ns).

Definition event_bytes (ev : TranscriptEvent) : string :=
  match ev with
  | ModelTurn bytes _ _ | ToolCall _ bytes _ | ToolResult _ bytes | SystemPrompt bytes => bytes
  end.
Definition event_tool (ev : TranscriptEvent) : option string :=
  match ev with ToolCall name _ _ => Some name | _ => None end.
Definition event_tokens (ev : TranscriptEvent) : option Z :=
  match ev with
  | ModelTurn _ (Some u) _ => Some (u_input u +sat u_output u +sat u_cache_read u +sat u_cache_write u)
  | _ => None
  end.

(** Push on a bounded queue; a full one drops the new entry and raises its flag. *)
Definition push_bounded {A} (cap : nat) (x : A) (q : list A) (overflow : bool) : list A * bool :=
  if decide (length q < cap)%nat then (q ++ [x], overflow) else (q, true).

Definition write (now_ns : Z) (ev : TranscriptEvent) : HookM unit := λ h,
  match phase h with
  | NotOpen => (h, Err WriteNotOpen)
  | Closed => (h, Err WriteClosed)
  | Open =>
    let m := mkMeta (next_turn_index h) (Collector.millis_between (opened_at h) now_ns)
               (event_tool ev) (event_tokens ev) in
    let '(raw', raw_over) := push_bounded (buffer_capacity h) (event_bytes ev) (raw h) (raw_overflow h) in
    let '(meta', meta_over) := push_bounded (buffer_capacity h) m (meta h) (meta_overflow h) in
    (mkHook (buffer_capacity h) (expected_credential h) (opened_at h) Open raw' meta' raw_over
       meta_over (next_turn_index h +sat 1) (Collector.observe (collector h) ev) (close_signal h)
       (ack_window_open h) (acked h) (close_done h) (released h), Ok ())
  end.

Definition subscribe (credential : string) (h : Inner) : result HookError unit :=
  if credential_matches (expected_credential h) credential then Ok () else Err CredentialMismatch.

Definition with_queues (raw' : list string) (meta' : list TurnMeta) (h : Inner) : Inner :=
  mkHook (buffer_capacity h) (expected_credential h) (opened_at h) (phase h) raw' meta'
    (raw_overflow h) (meta_overflow h) (next_turn_index h) (collector h) (close_signal h)
    (ack_window_open h) (acked h) (close_done h) (released h).

(** [Subscriber::next_event] and [next_meta]. *)
Definition next_event (h : Inner) : Inner * option string :=
  (with_queues (tail (raw h)) (meta h) h, head (raw h)).
Definition next_meta (h : Inner) : Inner * option TurnMeta :=
  (with_queues (raw h) (tail (meta h)) h, head (meta h)).

Definition snapshot_metrics (now_ns : Z) (price : PriceCard) (h : Inner) : IntentMetrics :=
  Collector.snapshot (collector h) now_ns price.

(** ** The close machine: [close.rs] *)
Definition closing (c : MetricsCollector) (sig : option CloseSignal) (window done : bool) (h : Inner) : Inner :=
  mkHook (buffer_capacity h) (expected_credential h) (opened_at h) Closed (raw h) (meta h)
    (raw_overflow h) (meta_overflow h) (next_turn_index h) c sig window (acked h) done (done || released h).

(** The check and the finalization both closes start with: a collector that was
    finalized before leaves the surfaces closed and no signal. *)
Definition finalize_once (died : Z) (price : PriceCard) : HookM IntentMetrics := λ h,
  if close_done h || bool_decide (is_Some (close_signal h)) then (h, Err AlreadySignalled)
  else
    match Collector.finalize died price (collector h) with
    | (c, Some metrics) => (closing c (close_signal h) (ack_window_open h) (close_done h) h, Ok metrics)
    | (c, None) => (closing c (close_signal h) (ack_window_open h) (close_done h) h, Err FinalizedTwice)
    end.

(** [JobClose::close] up to the wait: close, finalize, signal, arm the window. *)
Definition close_begin (status : JobStatus) (died : Z) (price : PriceCard) : HookM IntentMetrics :=
  metrics ← finalize_once died price;
  modify (λ h, closing (collector h) (Some (mkSignal status metrics)) true (close_done h) h);;
  mret metrics.

(** The rest, after the acknowledgement or the timeout. *)
Definition close_finish (status : JobStatus) (metrics : IntentMetrics) (h : Inner) : Inner * CloseOutcome :=
  let residue := negb (bool_decide (raw h = [])) || negb (bool_decide (meta h = [])) in
  let lossy := residue || raw_overflow h || meta_overflow h in
  (mkHook (buffer_capacity h) (expected_credential h) (opened_at h) (phase h) (raw h) (meta h)
     (raw_overflow h) (meta_overflow h) (next_turn_index h) (collector h) (close_signal h)
     false (acked h) true true,
   mkOutcome status metrics (lossy || negb (acked h)) Normal).

Definition abnormal_status (kind : AbnormalKind) : JobStatus :=
  match kind with Expiry => Killed | Crash => Failed end.
Definition reason_of (kind : AbnormalKind) : CloseReason :=
  match kind with Expiry => ReasonExpired | Crash => ReasonCrashed end.

Definition close_abnormal (kind : AbnormalKind) (died : Z) (price : PriceCard) : HookM CloseOutcome :=
  metrics ← finalize_once died price;
  modify (λ h, closing (collector h) (Some (mkSignal (abnormal_status kind) metrics))
                 (ack_window_open h) true h);;
  mret (mkOutcome (abnormal_status kind) metrics true (reason_of kind)).

Definition ack (credential : string) : HookM unit := λ h,
  if negb (credential_matches (expected_credential h) credential) then (h, Err CredentialMismatch)
  else if negb (bool_decide (is_Some (close_signal h))) then (h, Err NoSignalYet)
  else if negb (ack_window_open h) then (h, Err AckInert)
  else (mkHook (buffer_capacity h) (expected_credential h) (opened_at h) (phase h) (raw h) (meta h)
          (raw_overflow h) (meta_overflow h) (next_turn_index h) (collector h) (close_signal h)
          (ack_window_open h) true (close_done h) (released h), Ok ()).
End Hook.
