(* ===== verification/EnvelopeProofs.v ===== *)
(** * The capture envelope: properties

    The metrics are the saturated sums of what was observed and stay within
    their bounds whatever a job writes; the credential comparison is equality;
    and over any sequence of writes, drains, acknowledgements and closes, there
    is at most one outcome, it carries the metrics of all accepted events, and
    it claims a complete capture only if every one of them was delivered. *)
From S2P Require Import Prelude Envelope.
Import Collector (MetricsCollector, mkCollector, observe, project, tool_key, bump).
Import Hook.

(** ** The collector *)
Definition sum_of (f : TranscriptEvent → Z) (evs : list TranscriptEvent) : Z :=
  foldr Z.add 0 (f <$> evs).

Definition ev_busy (ev : TranscriptEvent) : Z :=
  match ev with ModelTurn _ _ b | ToolCall _ _ b => b | _ => 0 end.
Definition ev_usage (f : TurnUsage → Z) (ev : TranscriptEvent) : Z :=
  match ev with ModelTurn _ (Some u) _ => f u | _ => 0 end.
Definition ev_is_turn (ev : TranscriptEvent) : Z :=
  match ev with ModelTurn _ _ _ => 1 | _ => 0 end.
Definition ev_is_call (ev : TranscriptEvent) : Z :=
  match ev with ToolCall _ _ _ => 1 | _ => 0 end.

(** The numbers of an event are [u64]s. *)
Definition ev_ok (ev : TranscriptEvent) : Prop :=
  is_u64 (ev_busy ev) ∧ is_u64 (ev_usage u_input ev) ∧ is_u64 (ev_usage u_output ev)
  ∧ is_u64 (ev_usage u_cache_read ev) ∧ is_u64 (ev_usage u_cache_write ev).

Definition sum_counts (m : gmap string Z) : Z := map_sum (λ _ n, n) m.

(** What a collector knows after the events. *)
Record collected (at_ns : Z) (evs : list TranscriptEvent) (c : MetricsCollector) : Prop := {
  col_born : Collector.born c = at_ns;
  col_turns : Collector.model_turns c = sum_of ev_is_turn evs;
  col_calls : Collector.tool_calls c = sum_of ev_is_call evs;
  col_counts : sum_counts (Collector.tool_breakdown c) = sum_of ev_is_call evs;
  col_each : map_Forall (λ _ n, 0 < n) (Collector.tool_breakdown c);
  col_keys : (size (delete TOOL_OVERFLOW_KEY (Collector.tool_breakdown c)) ≤ MAX_DISTINCT_TOOLS)%nat;
  col_names : map_Forall (λ k _, (String.length k ≤ MAX_TOOL_NAME_LEN)%nat) (Collector.tool_breakdown c);
  col_active : Collector.active_ms c = Z.min U64_MAX (sum_of ev_busy evs);
  col_input : Collector.input c = Z.min U64_MAX (sum_of (ev_usage u_input) evs);
  col_output : Collector.output c = Z.min U64_MAX (sum_of (ev_usage u_output) evs);
  col_cache_read : Collector.cache_read c = Z.min U64_MAX (sum_of (ev_usage u_cache_read) evs);
  col_cache_write : Collector.cache_write c = Z.min U64_MAX (sum_of (ev_usage u_cache_write) evs);
}.

Lemma sum_of_app f evs evs' : sum_of f (evs ++ evs') = sum_of f evs + sum_of f evs'.
Proof. unfold sum_of. induction evs as [|ev evs IH]; [done|]. cbn in *. lia. Qed.

Lemma sum_of_snoc f evs ev : sum_of f (evs ++ [ev]) = sum_of f evs + f ev.
Proof. rewrite sum_of_app. unfold sum_of. cbn. lia. Qed.

Lemma sum_of_nonneg f evs : (∀ ev, ev ∈ evs → 0 ≤ f ev) → 0 ≤ sum_of f evs.
Proof.
  unfold sum_of. induction evs as [|ev evs IH]; intros Hf; [done|]. cbn.
  specialize (IH ltac:(set_solver)). specialize (Hf ev ltac:(set_solver)). lia.
Qed.

Lemma sum_of_bit f evs : (∀ ev, 0 ≤ f ev ≤ 1) → 0 ≤ sum_of f evs ≤ Z.of_nat (length evs).
Proof.
  intros Hf. unfold sum_of. induction evs as [|ev evs IH]; [done|]. cbn -[Z.of_nat].
  specialize (Hf ev). lia.
Qed.

Lemma sums_nonneg evs :
  Forall ev_ok evs →
  0 ≤ sum_of ev_busy evs ∧ 0 ≤ sum_of (ev_usage u_input) evs ∧ 0 ≤ sum_of (ev_usage u_output) evs
  ∧ 0 ≤ sum_of (ev_usage u_cache_read) evs ∧ 0 ≤ sum_of (ev_usage u_cache_write) evs.
Proof.
  rewrite Forall_forall. intros Hok. split_and!; apply sum_of_nonneg; intros ev Hev;
    destruct (Hok ev Hev) as (?&?&?&?&?); unfold is_u64 in *; lia.
Qed.

Lemma bump_small x : 0 ≤ x < U64_MAX → bump x = x + 1.
Proof. intros. unfold bump, as_u64. apply Z.mod_small. mlia. Qed.

Lemma tool_key_length m name : (String.length (tool_key m name) ≤ MAX_TOOL_NAME_LEN)%nat.
Proof. unfold tool_key. case_decide as Hd; [tauto|]. cbn. unfold MAX_TOOL_NAME_LEN. lia. Qed.

Lemma tool_key_size m name n :
  (size (delete TOOL_OVERFLOW_KEY m) ≤ MAX_DISTINCT_TOOLS)%nat →
  (size (delete TOOL_OVERFLOW_KEY (<[tool_key m name := n]> m)) ≤ MAX_DISTINCT_TOOLS)%nat.
Proof.
  intros Hm. unfold tool_key. case_decide as Hd.
  - destruct (decide (name = TOOL_OVERFLOW_KEY)) as [->|Hne]; [by rewrite delete_insert_eq|].
    rewrite delete_insert_ne by done. destruct Hd as [_ [Hin|Hlt]].
    + rewrite map_size_insert, lookup_delete_ne by done.
      destruct Hin as [v ->]. cbn. lia.
    + rewrite map_size_insert. pose proof (map_size_delete TOOL_OVERFLOW_KEY m) as Hsz.
      destruct (m !! TOOL_OVERFLOW_KEY), (delete TOOL_OVERFLOW_KEY m !! name);
        unfold id, MAX_DISTINCT_TOOLS in *; lia.
  - by rewrite delete_insert_eq.
Qed.

Lemma collected_new at_ns : collected at_ns [] (Collector.new at_ns).
Proof.
  split; try done; try match goal with |- map_Forall _ _ => apply map_Forall_empty end.
  cbn [Collector.new Collector.tool_breakdown]. rewrite delete_empty, map_size_empty. lia.
Qed.

Lemma sat_add_min x s : is_u64 x → 0 ≤ s → Z.min U64_MAX s +sat x = Z.min U64_MAX (s + x).
Proof. intros. mlia. Qed.

Lemma collected_observe at_ns evs c ev :
  ev_ok ev → Forall ev_ok evs → Z.of_nat (length evs) < U64_MAX →
  collected at_ns evs c → collected at_ns (evs ++ [ev]) (observe c ev).
Proof.
  intros Hev Hevs Hlen [].
  destruct (sums_nonneg evs Hevs) as (?&?&?&?&?).
  pose proof (sum_of_bit ev_is_turn evs ltac:(intros []; cbn; lia)).
  pose proof (sum_of_bit ev_is_call evs ltac:(intros []; cbn; lia)).
  destruct Hev as (?&?&?&?&?).
  destruct ev as [by' [u|] b|name by' b|name by'|by']; split;
    cbn [observe Collector.born Collector.model_turns Collector.tool_calls Collector.tool_breakdown
      Collector.active_ms Collector.input Collector.output Collector.cache_read Collector.cache_write
      from_option ev_busy ev_usage ev_is_turn ev_is_call] in *;
    rewrite ?sum_of_snoc; cbn [ev_busy ev_usage ev_is_turn ev_is_call]; try done;
    try (rewrite bump_small by mlia; mlia); try mlia.
  - set (key := tool_key _ _). unfold sum_counts. rewrite map_sum_insert. unfold at_key, sum_counts in *.
    assert (default 0 (Collector.tool_breakdown c !! key)
      = from_option (λ n, n) 0 (Collector.tool_breakdown c !! key)) as -> by by destruct (_ !! key).
    pose proof (map_sum_at_key_le (λ _ n, n) key (Collector.tool_breakdown c)
      ltac:(intros k v Hk; apply col_each0 in Hk; lia)) as Hle. unfold at_key in Hle.
    assert (0 ≤ from_option (λ n, n) 0 (Collector.tool_breakdown c !! key)).
    { destruct (_ !! key) eqn:E; cbn; [apply col_each0 in E; lia|lia]. }
    rewrite bump_small by lia. lia.
  - apply map_Forall_insert_2; [|done]. rewrite bump_small; [|].
    + destruct (_ !! tool_key _ _) eqn:E; cbn; [apply col_each0 in E; lia|lia].
    + pose proof (map_sum_at_key_le (λ _ n, n) (tool_key (Collector.tool_breakdown c) name)
        (Collector.tool_breakdown c) ltac:(intros k v Hk; apply col_each0 in Hk; lia)) as Hle.
      unfold at_key, sum_counts in *.
      destruct (_ !! tool_key _ _) eqn:E; cbn in *; [apply col_each0 in E; lia|unfold U64_MAX; lia].
  - by apply tool_key_size.
  - apply map_Forall_insert_2; [apply tool_key_length|done].
Qed.

Lemma collected_all at_ns evs :
  Forall ev_ok evs → Z.of_nat (length evs) ≤ U64_MAX →
  collected at_ns evs (foldl observe (Collector.new at_ns) evs).
Proof.
  induction evs as [|ev evs IH] using rev_ind; intros Hok Hlen; [apply collected_new|].
  apply Forall_app in Hok as [Hok [Hev _]%Forall_cons_1].
  rewrite length_app in Hlen. cbn [length] in Hlen. rewrite foldl_app. cbn.
  apply collected_observe; [done..|lia|]. apply IH; [done|lia].
Qed.

(** The rows of a breakdown. *)
Lemma breakdown_sum m :
  foldr Z.add 0 (count <$> sort_by_key tool ((λ kv, mkToolCount kv.1 kv.2) <$> map_to_list m)) = sum_counts m.
Proof.
  unfold sum_counts, map_sum.
  assert (∀ l l' : list ToolCount, l ≡ₚ l' → foldr Z.add 0 (count <$> l) = foldr Z.add 0 (count <$> l'))
    as Hperm by (induction 1; cbn in *; lia).
  rewrite (Hperm _ _ (sort_by_key_perm tool _)).
  induction (map_to_list m) as [|[k n] l IH]; [done|]. cbn in *. lia.
Qed.

Lemma breakdown_length m :
  length (sort_by_key tool ((λ kv, mkToolCount kv.1 kv.2) <$> map_to_list m)) = size m.
Proof. by rewrite sort_by_key_perm, length_fmap, length_map_to_list. Qed.

Lemma breakdown_names m :
  tool <$> sort_by_key tool ((λ kv, mkToolCount kv.1 kv.2) <$> map_to_list m) ≡ₚ (map_to_list m).*1.
Proof. by rewrite sort_by_key_perm, <-list_fmap_compose. Qed.

Lemma class_cost_nonneg t p : 0 ≤ t → 0 ≤ p → 0 ≤ Collector.class_cost_micros t p.
Proof. intros. unfold Collector.class_cost_micros. apply Z.div_pos; lia. Qed.

Definition price_ok (p : PriceCard) : Prop :=
  is_u64 (input_per_mtok_micros p) ∧ is_u64 (output_per_mtok_micros p)
  ∧ is_u64 (cache_read_per_mtok_micros p) ∧ is_u64 (cache_write_per_mtok_micros p).

(** The metrics of a job are what its events add up to, each meter saturated
    once, the total the saturated sum of the four classes, busy time cut at the
    wall time, and the breakdown a table of the tool calls with distinct,
    sorted names that adds up to their number. *)
Theorem metrics_are_sums at_ns died price evs :
  Forall ev_ok evs → Z.of_nat (length evs) ≤ U64_MAX →
  let m := project (foldl observe (Collector.new at_ns) evs) died price in
  input (tokens m) = Z.min U64_MAX (sum_of (ev_usage u_input) evs)
  ∧ output (tokens m) = Z.min U64_MAX (sum_of (ev_usage u_output) evs)
  ∧ cache_read (tokens m) = Z.min U64_MAX (sum_of (ev_usage u_cache_read) evs)
  ∧ cache_write (tokens m) = Z.min U64_MAX (sum_of (ev_usage u_cache_write) evs)
  ∧ total (tokens m) = Z.min U64_MAX
      (input (tokens m) + output (tokens m) + cache_read (tokens m) + cache_write (tokens m))
  ∧ active_ms m = Z.min (Z.min U64_MAX (sum_of ev_busy evs)) (wall_ms m)
  ∧ model_turns m = sum_of ev_is_turn evs
  ∧ tool_calls m = sum_of ev_is_call evs
  ∧ foldr Z.add 0 (count <$> tool_breakdown m) = tool_calls m
  ∧ StronglySorted (key_le tool) (tool_breakdown m) ∧ NoDup (tool <$> tool_breakdown m).
Proof.
  intros Hok Hlen m. destruct (collected_all at_ns evs Hok Hlen).
  unfold m. cbn [project tokens input output cache_read cache_write total active_ms wall_ms
    model_turns tool_calls tool_breakdown].
  destruct (sums_nonneg evs Hok) as (?&?&?&?&?).
  split_and!; try done; [mlia|congruence|rewrite breakdown_sum; congruence| |].
  - apply sort_by_key_sorted.
  - rewrite breakdown_names. apply NoDup_fst_map_to_list.
Qed.

Definition sample_events : list TranscriptEvent :=
  [ModelTurn "t" (Some (mkUsage U64_MAX 3 5 7)) 20; ToolCall "Bash" "c" 30; ToolResult "Bash" "r";
   ToolCall "Edit" "c" 1; ModelTurn "u" (Some (mkUsage 2 1 0 0)) 4; ToolCall "Bash" "d" 9].

Lemma sample_events_ok : Forall ev_ok sample_events ∧ Z.of_nat (length sample_events) ≤ U64_MAX.
Proof. split; [|by vm_compute]. repeat constructor; by vm_compute. Defined.

Lemma metrics_are_sums_witness :
  Forall ev_ok sample_events ∧ Z.of_nat (length sample_events) ≤ U64_MAX
  ∧ foldr Z.add 0 (count <$> tool_breakdown
      (project (foldl observe (Collector.new 0) sample_events) 50000000 (mkPrice 1 1 1 1))) = 3.
Proof.
  destruct sample_events_ok as [Hok Hlen]. split; [done|]. split; [done|].
  destruct (metrics_are_sums 0 50000000 (mkPrice 1 1 1 1) sample_events Hok Hlen)
    as (_&_&_&_&_&_&_&Hcalls&Hsum&_).
  rewrite Hsum, Hcalls. reflexivity.
Defined.

(** Whatever a job writes, its metrics stay small and in range: at most 257
    breakdown rows with names of at most 128 bytes, every number a [u64], and
    busy time at most wall time. *)
Theorem metrics_bounded at_ns died price evs :
  Forall ev_ok evs → Z.of_nat (length evs) ≤ U64_MAX → price_ok price →
  let m := project (foldl observe (Collector.new at_ns) evs) died price in
  (length (tool_breakdown m) ≤ S MAX_DISTINCT_TOOLS)%nat
  ∧ Forall (λ row, (String.length (tool row) ≤ MAX_TOOL_NAME_LEN)%nat ∧ is_u64 (count row)) (tool_breakdown m)
  ∧ is_u64 (total (tokens m)) ∧ is_u64 (tool_calls m) ∧ is_u64 (model_turns m)
  ∧ is_u64 (cost_usd_micros m) ∧ 0 ≤ active_ms m ≤ wall_ms m ∧ is_u64 (wall_ms m).
Proof.
  intros Hok Hlen (?&?&?&?) m. destruct (collected_all at_ns evs Hok Hlen).
  set (c := foldl observe (Collector.new at_ns) evs) in *.
  destruct (sums_nonneg evs Hok) as (?&?&?&?&?).
  pose proof (sum_of_bit ev_is_turn evs ltac:(intros []; cbn; lia)).
  pose proof (sum_of_bit ev_is_call evs ltac:(intros []; cbn; lia)).
  assert (0 ≤ Collector.millis_between (Collector.born c) died ≤ U64_MAX).
  { unfold Collector.millis_between. pose proof (Z.div_pos (Z.max 0 (died - Collector.born c)) 1000000).
    mlia. }
  unfold m. cbn [project tokens total tool_calls tool_breakdown model_turns cost_usd_micros active_ms wall_ms].
  split_and!; try mlia.
  - rewrite breakdown_length. rewrite map_size_delete in col_keys0.
    case_match; unfold id in *; lia.
  - apply Forall_forall. intros row Hrow. rewrite elem_of_sort_by_key in Hrow.
    apply list_elem_of_fmap in Hrow as ([k n] & -> & Hk%elem_of_map_to_list). cbn.
    split; [by apply col_names0 in Hk|]. pose proof (col_each0 _ _ Hk) as Hn. cbn in Hn.
    pose proof (map_sum_at_key_le (λ _ n, n) k (Collector.tool_breakdown c)
      ltac:(intros ? v Hv; apply col_each0 in Hv; lia)) as Hle.
    unfold at_key in Hle. rewrite Hk in Hle. cbn in Hle. unfold sum_counts, is_u64 in *. lia.
  - pose proof (class_cost_nonneg (Collector.input c) (input_per_mtok_micros price)).
    pose proof (class_cost_nonneg (Collector.output c) (output_per_mtok_micros price)).
    pose proof (class_cost_nonneg (Collector.cache_read c) (cache_read_per_mtok_micros price)).
    pose proof (class_cost_nonneg (Collector.cache_write c) (cache_write_per_mtok_micros price)).
    mlia.
Qed.

Lemma metrics_bounded_witness :
  Forall ev_ok sample_events ∧ price_ok (mkPrice U64_MAX U64_MAX 0 0)
  ∧ is_u64 (cost_usd_micros (project (foldl observe (Collector.new 0) sample_events) 7 (mkPrice U64_MAX U64_MAX 0 0))).
Proof.
  destruct sample_events_ok as [Hok Hlen].
  assert (price_ok (mkPrice U64_MAX U64_MAX 0 0)) as Hp by (split_and!; by vm_compute).
  split; [done|]. split; [done|].
  destruct (metrics_bounded 0 7 (mkPrice U64_MAX U64_MAX 0 0) sample_events Hok Hlen Hp)
    as (_&_&_&_&_&Hcost&_). exact Hcost.
Defined.

(** ** Credentials *)
Lemma lor_zero a b : Z.lor a b = 0 ↔ a = 0 ∧ b = 0.
Proof.
  split; [|by intros [-> ->]]. intros H%Z.lor_eq_0_iff. done.
Qed.

Lemma foldl_lor_zero {A} (f : A → Z) l a :
  foldl (λ d i, Z.lor d (f i)) a l = 0 ↔ a = 0 ∧ Forall (λ i, f i = 0) l.
Proof.
  revert a. induction l as [|x l IH]; intros a; cbn.
  - split; [done|tauto].
  - rewrite IH, lor_zero, Forall_cons. tauto.
Qed.

Lemma string_ext (s t : string) :
  String.length s = String.length t →
  (∀ i, (i < String.length s)%nat → String.get i s = String.get i t) → s = t.
Proof.
  revert t. induction s as [|a s IH]; intros [|b t] Hlen Hget; try done.
  pose proof (Hget O ltac:(cbn; lia)) as H0. cbn in H0. simplify_eq. f_equal.
  apply IH; [cbn in Hlen; lia|]. intros i Hi. apply (Hget (S i)). cbn. lia.
Qed.

Lemma get_Some (s : string) i : (i < String.length s)%nat → ∃ c, String.get i s = Some c.
Proof.
  revert i. induction s as [|a s IH]; intros [|i] Hi; cbn in *; [lia..|eauto|].
  apply IH. lia.
Qed.

(** The comparison that never exits early is equality. *)
Theorem credential_matches_iff expected presented :
  credential_matches expected presented = true ↔ presented = expected.
Proof.
  unfold credential_matches. rewrite Z.eqb_eq. split.
  - intros H%symmetry. apply foldl_lor_zero in H as [Hlen%Z.lxor_eq Hall].
    apply Nat2Z.inj in Hlen. rewrite <-Hlen, Nat.max_id in Hall.
    apply string_ext; [done|]. rewrite <-Hlen. intros i Hi.
    rewrite Forall_forall in Hall. specialize (Hall i ltac:(apply elem_of_seq; lia)).
    apply Z.lxor_eq in Hall. unfold byte_at in Hall.
    destruct (get_Some expected i Hi) as [c Hc], (get_Some presented i ltac:(lia)) as [d Hd].
    rewrite Hc, Hd in *. cbn in Hall. apply Nat2Z.inj in Hall.
    f_equal. rewrite <-(ascii_nat_embedding c), <-(ascii_nat_embedding d). by rewrite Hall.
  - intros ->. symmetry. apply foldl_lor_zero. split; [apply Z.lxor_nilpotent|].
    apply Forall_forall. intros. apply Z.lxor_nilpotent.
Qed.

(** ** Runs of a hook *)
Inductive hook_op : Type :=
| OpWrite (now_ns : Z) (ev : TranscriptEvent)
| OpNextEvent
| OpNextMeta
| OpClose (status : JobStatus) (died : Z) (price : PriceCard)
| OpTimeout
| OpAbnormal (kind : AbnormalKind) (died : Z) (price : PriceCard)
| OpAck (credential : string).

(** The hook, the close that waits for its acknowledgement, and a record of
    what was accepted, what was delivered and what the closes answered. *)
Record Run : Type := mkRun {
  hook : Inner;
  closer : option (JobStatus * IntentMetrics);
  accepted : list TranscriptEvent;
  metas : list TurnMeta;
  delivered : list string;
  delivered_meta : list TurnMeta;
  outcomes : list CloseOutcome;
}.

Definition start (capacity : nat) (credential : string) (now_ns : Z) : Run :=
  mkRun (open capacity credential (Collector.new now_ns) now_ns) None [] [] [] [] [].

Definition run_op (r : Run) (op : hook_op) : Run :=
  let h := hook r in
  match op with
  | OpWrite now ev =>
    match write now ev h with
    | (h', Ok _) => mkRun h' (closer r) (accepted r ++ [ev])
        (metas r ++ [mkMeta (next_turn_index h) (Collector.millis_between (opened_at h) now)
                       (event_tool ev) (event_tokens ev)])
        (delivered r) (delivered_meta r) (outcomes r)
    | (h', Err _) => mkRun h' (closer r) (accepted r) (metas r) (delivered r) (delivered_meta r) (outcomes r)
    end
  | OpNextEvent =>
    let '(h', e) := next_event h in
    mkRun h' (closer r) (accepted r) (metas r) (delivered r ++ option_list e) (delivered_meta r) (outcomes r)
  | OpNextMeta =>
    let '(h', m) := next_meta h in
    mkRun h' (closer r) (accepted r) (metas r) (delivered r) (delivered_meta r ++ option_list m) (outcomes r)
  | OpClose status died price =>
    match close_begin status died price h with
    | (h', Ok ms) => mkRun h' (Some (status, ms)) (accepted r) (metas r) (delivered r) (delivered_meta r) (outcomes r)
    | (h', Err _) => mkRun h' (closer r) (accepted r) (metas r) (delivered r) (delivered_meta r) (outcomes r)
    end
  | OpTimeout =>
    match closer r with
    | Some (status, ms) =>
      let '(h', o) := close_finish status ms h in
      mkRun h' None (accepted r) (metas r) (delivered r) (delivered_meta r) (outcomes r ++ [o])
    | None => r
    end
  | OpAbnormal kind died price =>
    match close_abnormal kind died price h with
    | (h', Ok o) => mkRun h' (closer r) (accepted r) (metas r) (delivered r) (delivered_meta r) (outcomes r ++ [o])
    | (h', Err _) => mkRun h' (closer r) (accepted r) (metas r) (delivered r) (delivered_meta r) (outcomes r)
    end
  | OpAck credential => mkRun (ack credential h).1 (closer r) (accepted r) (metas r) (delivered r)
                          (delivered_meta r) (outcomes r)
  end.

Definition run_ops (r : Run) (ops : list hook_op) : Run := foldl run_op r ops.

(** A collector and whether it was finalized. *)
Definition sealed (b : bool) (c : MetricsCollector) : MetricsCollector :=
  mkCollector (Collector.born c) (Collector.model_turns c) (Collector.tool_calls c)
    (Collector.tool_breakdown c) (Collector.active_ms c) (Collector.input c) (Collector.output c)
    (Collector.cache_read c) (Collector.cache_write c) b.

Lemma observe_sealed b c ev : observe (sealed b c) ev = sealed b (observe c ev).
Proof. by destruct ev as [? [?|] ?| | |]. Qed.

Definition observed (at_ns : Z) (evs : list TranscriptEvent) : MetricsCollector :=
  foldl observe (Collector.new at_ns) evs.

(** What holds along every run that began with [start _ credential at_ns]:
    of the queues, and of the close machine. *)
Record queues_ok (r : Run) : Prop := {
  ro_raw : raw_overflow (hook r) = false → delivered r ++ raw (hook r) = event_bytes <$> accepted r;
  ro_meta : meta_overflow (hook r) = false → delivered_meta r ++ meta (hook r) = metas r;
}.

Record close_ok (credential : string) (at_ns : Z) (ops : list hook_op) (r : Run) : Prop := {
  ro_cred : expected_credential (hook r) = credential;
  ro_collector : collector (hook r) =
    sealed (bool_decide (is_Some (close_signal (hook r)))) (observed at_ns (accepted r));
  ro_phase : match close_signal (hook r) with
    | Some _ => phase (hook r) = Closed
    | None => phase (hook r) = Open ∧ close_done (hook r) = false ∧ acked (hook r) = false
              ∧ closer r = None ∧ outcomes r = []
    end;
  ro_acked : acked (hook r) = true → OpAck credential ∈ ops;
  ro_one : (length (outcomes r) + length (option_list (closer r)) ≤ 1)%nat;
  ro_closed : Forall (λ o, capture_incomplete o = false →
      raw (hook r) = [] ∧ meta (hook r) = [] ∧ raw_overflow (hook r) = false
      ∧ meta_overflow (hook r) = false ∧ acked (hook r) = true) (outcomes r);
  ro_signal : ∀ status ms,
    closer r = Some (status, ms) ∨ (∃ o, o ∈ outcomes r ∧ out_status o = status ∧ out_metrics o = ms) →
    close_signal (hook r) = Some (mkSignal status ms);
  ro_metrics : ∀ sig, close_signal (hook r) = Some sig →
    ∃ died price, sig_metrics sig = project (observed at_ns (accepted r)) died price;
}.

Lemma start_ok capacity credential at_ns :
  queues_ok (start capacity credential at_ns) ∧ close_ok credential at_ns [] (start capacity credential at_ns).
Proof.
  split; split; try done; cbn; [lia|].
  intros status ms [|(o & Ho & _)]; [done|by apply not_elem_of_nil in Ho].
Qed.

Lemma push_bounded_spec {A} cap (x : A) q b q' b' :
  push_bounded cap x q b = (q', b') → b' = false → q' = q ++ [x] ∧ b = false.
Proof. unfold push_bounded. case_decide; intros; simplify_eq; naive_solver. Qed.

Lemma queues_ok_step r op : queues_ok r → queues_ok (run_op r op).
Proof.
  intros [Hraw Hmeta]. destruct op as [now ev| | |status died price| |kind died price|cred]; cbn [run_op].
  - unfold write. destruct (phase (hook r)); [by split| |by split].
    destruct (push_bounded _ (event_bytes ev) _ _) as [raw' over] eqn:E1.
    destruct (push_bounded _ (mkMeta _ _ _ _) _ _) as [meta' over'] eqn:E2.
    split; cbn; intros ->.
    + apply push_bounded_spec in E1 as [-> ?]; [|done].
      rewrite (assoc_L (++)), Hraw, fmap_app; done.
    + apply push_bounded_spec in E2 as [-> ?]; [|done]. by rewrite (assoc_L (++)), Hmeta.
  - split; cbn; [|done]. intros Ho. rewrite <-Hraw by done. destruct (raw (hook r)); cbn;
      by rewrite <-?(assoc_L (++)), ?app_nil_r.
  - split; cbn; [done|]. intros Ho. rewrite <-Hmeta by done. destruct (meta (hook r)); cbn;
      by rewrite <-?(assoc_L (++)), ?app_nil_r.
  - unfold close_begin, finalize_once. run_M. repeat case_match; simplify_eq/=; by split.
  - destruct (closer r) as [[status ms]|]; by split.
  - unfold close_abnormal, finalize_once. run_M. repeat case_match; simplify_eq/=; by split.
  - unfold ack. repeat case_match; by split.
Qed.

(** Both closes succeed exactly while there is no signal. *)
Lemma finalize_once_ok credential at_ns ops r died price :
  close_ok credential at_ns ops r →
  finalize_once died price (hook r) =
    match close_signal (hook r) with
    | Some _ => (hook r, Err AlreadySignalled)
    | None => let obs := observed at_ns (accepted r) in
      (closing (sealed true obs) None (ack_window_open (hook r)) false (hook r), Ok (project obs died price))
    end.
Proof.
  intros []. unfold finalize_once. destruct (close_signal (hook r)) eqn:E; [by rewrite orb_true_r|].
  destruct ro_phase0 as (_ & -> & _). cbn -[observed]. by rewrite ro_collector0.
Qed.

Lemma ops_grow (op : hook_op) cred ops : OpAck cred ∈ ops → OpAck cred ∈ ops ++ [op].
Proof. set_solver. Qed.
#[local] Hint Resolve ops_grow : core.

(** A refused operation changes nothing. *)
Lemma refused_keeps credential at_ns ops op r :
  close_ok credential at_ns ops r →
  close_ok credential at_ns (ops ++ [op])
    (mkRun (hook r) (closer r) (accepted r) (metas r) (delivered r) (delivered_meta r) (outcomes r)).
Proof. intros []. split; eauto. Qed.

Lemma write_keeps credential at_ns ops r now ev :
  close_ok credential at_ns ops r → close_ok credential at_ns (ops ++ [OpWrite now ev]) (run_op r (OpWrite now ev)).
Proof.
  intros Hok. pose proof (refused_keeps _ _ _ (OpWrite now ev) _ Hok) as Hsame.
  destruct Hok. cbn [run_op]. unfold write.
  destruct (close_signal (hook r)) as [sig|] eqn:Es.
  - by rewrite ro_phase0.
  - destruct ro_phase0 as (-> & Hdone & Hack & Hc & Ho).
    destruct (push_bounded _ (event_bytes ev) _ _) as [raw' over].
    destruct (push_bounded _ (mkMeta _ _ _ _) _ _) as [meta' over'].
    split; cbn -[observed]; rewrite ?Es; eauto.
    + rewrite ro_collector0, observe_sealed. unfold observed. by rewrite foldl_app.
    + by rewrite Ho.
    + done.
Qed.

Lemma drain_keeps credential at_ns ops r op :
  op = OpNextEvent ∨ op = OpNextMeta →
  close_ok credential at_ns ops r → close_ok credential at_ns (ops ++ [op]) (run_op r op).
Proof.
  intros [-> | ->] []; split; cbn -[observed]; eauto;
    apply (Forall_impl _ _ _ ro_closed0); intros o Ho Hi;
    destruct (Ho Hi) as (-> & -> & ?); done.
Qed.

Lemma close_keeps credential at_ns ops r status died price :
  close_ok credential at_ns ops r →
  close_ok credential at_ns (ops ++ [OpClose status died price]) (run_op r (OpClose status died price)).
Proof.
  intros Hok. cbn [run_op]. unfold close_begin. unfold mbind, M_bind, mret, M_ret, modify.
  rewrite (finalize_once_ok _ _ _ _ _ _ Hok).
  destruct (close_signal (hook r)) as [sig|] eqn:Es; [by apply refused_keeps|].
  destruct Hok. rewrite Es in *. destruct ro_phase0 as (_ & Hdone & Hack & Hc & Ho).
  split; cbn -[observed]; rewrite ?Ho, ?Hack; eauto; try done.
  - intros st ms [?|(o & Hin & _)]; [by simplify_eq|by apply not_elem_of_nil in Hin].
  - intros sig ?. simplify_eq/=. eauto.
Qed.

Lemma timeout_keeps credential at_ns ops r :
  close_ok credential at_ns ops r → close_ok credential at_ns (ops ++ [OpTimeout]) (run_op r OpTimeout).
Proof.
  intros []. cbn [run_op].
  destruct (closer r) as [[status ms]|] eqn:Ec; [|split; rewrite ?Ec; eauto].
  pose proof (ro_signal0 status ms (or_introl eq_refl)) as Hsig. rewrite Hsig in ro_phase0.
  destruct (outcomes r) as [|o os] eqn:Eo; [|cbn in ro_one0; lia].
  split; cbn -[observed]; rewrite ?Hsig; eauto.
  - by rewrite Hsig in ro_collector0.
  - apply Forall_singleton. cbn. rewrite !orb_false_iff, !negb_false_iff, !bool_decide_eq_true. tauto.
  - intros st ms' [|(o & Ho & <- & <-)]; [done|]. apply list_elem_of_singleton in Ho as ->. done.
  - by rewrite Hsig in ro_metrics0.
Qed.

Lemma abnormal_keeps credential at_ns ops r kind died price :
  close_ok credential at_ns ops r →
  close_ok credential at_ns (ops ++ [OpAbnormal kind died price]) (run_op r (OpAbnormal kind died price)).
Proof.
  intros Hok. cbn [run_op]. unfold close_abnormal. unfold mbind, M_bind, mret, M_ret, modify.
  rewrite (finalize_once_ok _ _ _ _ _ _ Hok).
  destruct (close_signal (hook r)) as [sig|] eqn:Es; [by apply refused_keeps|].
  destruct Hok. rewrite Es in *. destruct ro_phase0 as (_ & Hdone & Hack & Hc & Ho).
  split; cbn -[observed]; rewrite ?Ho, ?Hack, ?Hc; cbn -[observed]; eauto; try done.
  - apply Forall_singleton. done.
  - intros st ms [?|(o & Hin & <- & <-)]; [done|]. apply list_elem_of_singleton in Hin as ->. done.
  - intros sig ?. simplify_eq/=. eauto.
Qed.

Lemma ack_keeps credential at_ns ops r presented :
  close_ok credential at_ns ops r →
  close_ok credential at_ns (ops ++ [OpAck presented]) (run_op r (OpAck presented)).
Proof.
  intros Hok. pose proof (refused_keeps _ _ _ (OpAck presented) _ Hok) as Hsame.
  destruct Hok. cbn [run_op]. unfold ack.
  destruct (credential_matches _ _) eqn:Em; cbn [negb fst]; [|done].
  apply credential_matches_iff in Em. rewrite ro_cred0 in Em. subst presented.
  case_bool_decide as Hsig; cbn [negb fst]; [|done].
  destruct (ack_window_open (hook r)); cbn [negb fst]; [|done].
  destruct Hsig as [sig Hsig]. rewrite Hsig in ro_phase0.
  split; cbn -[observed]; rewrite ?Hsig; eauto.
  - set_solver.
  - apply (Forall_impl _ _ _ ro_closed0). intros o Ho Hi. naive_solver.
  - rewrite Hsig in ro_signal0. done.
  - by rewrite Hsig in ro_metrics0.
Qed.

Lemma runs_ok capacity credential at_ns ops :
  queues_ok (run_ops (start capacity credential at_ns) ops)
  ∧ close_ok credential at_ns ops (run_ops (start capacity credential at_ns) ops).
Proof.
  induction ops as [|op ops [IHq IHc]] using rev_ind; [apply start_ok|].
  unfold run_ops in *. rewrite foldl_app. cbn [foldl]. split; [by apply queues_ok_step|].
  destruct op; [by apply write_keeps|apply drain_keeps; [tauto|done]..|by apply close_keeps
    |by apply timeout_keeps|by apply abnormal_keeps|by apply ack_keeps].
Qed.

(** A close that reports a complete capture is right: the acknowledgement came
    with the hook's own credential, and everything the job wrote, transcript and
    metadata, was delivered, in order and unchanged. *)
Theorem complete_capture_is_complete capacity credential at_ns ops o :
  let r := run_ops (start capacity credential at_ns) ops in
  o ∈ outcomes r → capture_incomplete o = false →
  delivered r = event_bytes <$> accepted r
  ∧ delivered_meta r = metas r
  ∧ OpAck credential ∈ ops.
Proof.
  intros r Ho Hcap. destruct (runs_ok capacity credential at_ns ops) as [[Hraw Hmeta] []].
  fold r in Hraw, Hmeta, ro_closed0, ro_acked0.
  rewrite Forall_forall in ro_closed0.
  destruct (ro_closed0 o Ho Hcap) as (Er & Em & Eo & Emo & Ha).
  rewrite Er, app_nil_r in Hraw. rewrite Em, app_nil_r in Hmeta. auto.
Qed.

Definition sample_ops : list hook_op :=
  [OpWrite 0 (ToolCall "Bash" "ls" 3); OpNextEvent; OpWrite 9 (SystemPrompt "p");
   OpClose Succeeded 2000000 (mkPrice 0 0 0 0); OpWrite 9 (SystemPrompt "late");
   OpNextEvent; OpNextMeta; OpNextMeta; OpAck "pat"; OpTimeout; OpAbnormal Crash 0 (mkPrice 0 0 0 0)].

Lemma complete_capture_is_complete_witness :
  ∃ o, o ∈ outcomes (run_ops (start 2 "pat" 0) sample_ops) ∧ capture_incomplete o = false
  ∧ delivered (run_ops (start 2 "pat" 0) sample_ops) = ["ls"; "p"].
Proof.
  set (o := mkOutcome Succeeded
    (project (observed 0 [ToolCall "Bash" "ls" 3; SystemPrompt "p"]) 2000000 (mkPrice 0 0 0 0)) false Normal).
  exists o.
  assert (o ∈ outcomes (run_ops (start 2 "pat" 0) sample_ops)) as Ho by (vm_compute; apply list_elem_of_here).
  split; [exact Ho|]. split; [reflexivity|].
  destruct (complete_capture_is_complete 2 "pat" 0 sample_ops o Ho eq_refl) as (-> & _ & _).
  vm_compute. reflexivity.
Defined.

(** C35: A hook is closed once, whatever closes race: there is at most one outcome,
    its metrics are those of the accepted events, and the signal a subscriber
    sees carries the same status and metrics. *)
Theorem close_is_exactly_once capacity credential at_ns ops :
  let r := run_ops (start capacity credential at_ns) ops in
  (length (outcomes r) ≤ 1)%nat
  ∧ ∀ o, o ∈ outcomes r →
    close_signal (hook r) = Some (mkSignal (out_status o) (out_metrics o))
    ∧ phase (hook r) = Closed
    ∧ ∃ died price, out_metrics o = project (foldl observe (Collector.new at_ns) (accepted r)) died price.
Proof.
  intros r. destruct (runs_ok capacity credential at_ns ops) as [_ []]. fold r in ro_one0, ro_signal0, ro_phase0, ro_metrics0.
  split; [lia|]. intros o Ho.
  pose proof (ro_signal0 (out_status o) (out_metrics o) ltac:(eauto)) as Hsig.
  rewrite Hsig in ro_phase0. split_and!; [done..|]. by apply ro_metrics0 in Hsig.
Qed.
