(* ===== verification/Attest.v ===== *)
(** * Attestation: [runner/src/attest], [fabric-server/src/attestation.rs], [exec.rs]

    The byte strings the fabric key signs, the memo key, the signatures a close
    returns and their verification.  Signing, hashing and base64 are the
    crates' own; the pre-images they are applied to are built here, byte by byte. *)
From S2P Require Import Prelude Lease Envelope.

(** ** Framing *)

(** The [n] big-endian bytes of a number, [to_be_bytes]. *)
Fixpoint be (n : nat) (z : Z) : string :=
  match n with
  | O => ""
  | S n => String (ascii_of_nat (Z.to_nat (z / 256 ^ Z.of_nat n mod 256))) (be n z)
  end.

(** [u32::try_from(len).expect(..)]: [None] is the panic. *)
Definition u32_len (n : nat) : option Z :=
  if decide (Z.of_nat n ≤ U32_MAX) then Some (Z.of_nat n) else None.

(** [fn lp]: length prefix and bytes. *)
Definition lp (s : string) : option string :=
  n ← u32_len (String.length s); Some (be 4 n +:+ s).

(** The frames one after the other. *)
Fixpoint frames (parts : list (option string)) : option string :=
  match parts with
  | [] => Some ""
  | p :: parts => x ← p; y ← frames parts; Some (x +:+ y)
  end.

(** A counted vector of frames. *)
Definition vec {A} (frame : A → option string) (l : list A) : option string :=
  n ← u32_len (length l); body ← frames (frame <$> l); Some (be 4 n +:+ body).

(** ** Contracts *)
Record Artifact : Type := mkArtifact { a_path : string; a_digest : string }.

Record CheckResult : Type := mkResult {
  memo_key : string;
  tree_hash : string;
  def_digest : string;
  toolchain_digest : string;
  exit : Z;
  artifacts : list Artifact;
  stdout_ref : string;
  stderr_ref : string;
  duration_ms : Z;
  runner_ref : string;
  produced_at : Z;
}.

Record AttestationChain : Type := mkChain {
  ch_tree : string;
  ch_def : string;
  ch_runner : string;
  ch_model : string;
  ch_principal : list string;
  ch_sig : string;
}.

Record CheckDef : Type := mkDef { d_command : string; d_def_digest : string; d_toolchain_ref : string }.

(** ** Pre-images *)
Definition sig_preimage (tree def runner model : string) (principal : list string) : option string :=
  frames [lp tree; lp def; lp runner; lp model; vec lp principal].

Definition result_binding_preimage (memo out err : string) : option string :=
  frames [lp memo; lp out; lp err].

(** [exit.to_be_bytes()], two's complement. *)
Definition i32_be (z : Z) : string := be 4 (z mod 2 ^ 32).

Definition artifact_frame (a : Artifact) : option string := frames [lp (a_path a); lp (a_digest a)].

Definition result_binding_preimage_v2 (r : CheckResult) : option string :=
  frames [lp (memo_key r); lp (stdout_ref r); lp (stderr_ref r); Some (i32_be (exit r));
          vec artifact_frame (artifacts r)].

Definition tool_frame (t : ToolCount) : option string := frames [lp (tool t); Some (be 8 (count t))].

Definition intent_metrics_preimage (lease_id tenant : string) (m : IntentMetrics) : option string :=
  frames [lp lease_id; lp tenant;
          Some (be 8 (input (tokens m))); Some (be 8 (output (tokens m)));
          Some (be 8 (cache_read (tokens m))); Some (be 8 (cache_write (tokens m)));
          Some (be 8 (total (tokens m))); Some (be 8 (wall_ms m)); Some (be 8 (active_ms m));
          Some (be 8 (tool_calls m)); vec tool_frame (tool_breakdown m);
          Some (be 8 (model_turns m)); Some (be 8 (cost_usd_micros m))].

(** What [compute_memo_key] hashes. *)
Definition memo_preimage (tree def toolchain : string) : option string :=
  frames [lp tree; lp def; lp toolchain].

(** ** Signatures *)

(** SHA-256, Ed25519 and base64 as the crates offer them. *)
Class Crypto : Type := {
  sha256 : string → string;
  ed_public : string → string;
  ed_sign : string → string → string;
  ed_valid_key : string → bool;
  ed_verify_strict : string → string → string → bool;
  b64_encode : string → string;
  b64_decode : string → option string;
}.

Definition hex_digit (n : nat) : Ascii.ascii :=
  ascii_of_nat (if (n <? 10)%nat then 48 + n else 87 + n).
Fixpoint lower_hex (s : string) : string :=
  match s with
  | EmptyString => EmptyString
  | String c s => String (hex_digit (nat_of_ascii c / 16)) (String (hex_digit (nat_of_ascii c mod 16)) (lower_hex s))
  end.

Section signatures.
Context {crypto : Crypto}.

Definition compute_memo_key (tree def toolchain : string) : option string :=
  p ← memo_preimage tree def toolchain; Some (lower_hex (sha256 p)).

Definition content_ref (bytes : string) : string := "sha256:" +:+ lower_hex (sha256 bytes).

Definition sign_raw (key msg : string) : string := b64_encode (ed_sign key msg).

Definition sign_chain (key tree def runner model : string) (principal : list string) : option string :=
  p ← sig_preimage tree def runner model principal; Some (sign_raw key p).

Definition public_key_b64 (key : string) : string := b64_encode (ed_public key).

(** [key_id]: the first 8 bytes of the key's hash. *)
Definition key_id (key : string) : string := lower_hex (String.substring 0 8 (sha256 (ed_public key))).

Inductive VerifyError : Type := BadKeyBase64 | BadKeyLength | InvalidKey | BadSigBase64 | BadSigLength.

Definition verify_raw (msg sig_b64 pubkey_b64 : string) : result VerifyError bool :=
  match b64_decode pubkey_b64 with
  | None => Err BadKeyBase64
  | Some pk =>
    if negb (String.length pk =? 32)%nat then Err BadKeyLength
    else if negb (ed_valid_key pk) then Err InvalidKey
    else match b64_decode sig_b64 with
      | None => Err BadSigBase64
      | Some sig =>
        if negb (String.length sig =? 64)%nat then Err BadSigLength
        else Ok (ed_verify_strict pk msg sig)
      end
  end.

(** [None] is the panic of an oversized field. *)
Definition verify_chain (c : AttestationChain) (pubkey_b64 : string) : option (result VerifyError bool) :=
  p ← sig_preimage (ch_tree c) (ch_def c) (ch_runner c) (ch_model c) (ch_principal c);
  Some (verify_raw p (ch_sig c) pubkey_b64).

Definition chain_over (key tree def runner : string) (principal : list string) : option AttestationChain :=
  sig ← sign_chain key tree def runner "" principal;
  Some (mkChain tree def runner "" principal sig).

Definition sign_result_binding (key : string) (r : CheckResult) : option string :=
  p ← result_binding_preimage (memo_key r) (stdout_ref r) (stderr_ref r); Some (sign_raw key p).
Definition sign_result_binding_v2 (key : string) (r : CheckResult) : option string :=
  p ← result_binding_preimage_v2 r; Some (sign_raw key p).
Definition sign_intent_metrics (key lease_id tenant : string) (m : IntentMetrics) : option string :=
  p ← intent_metrics_preimage lease_id tenant m; Some (sign_raw key p).

Definition attest_close_result (key : string) (r : CheckResult) (principal : list string) :
    option (AttestationChain * string * string) :=
  chain ← chain_over key (tree_hash r) (def_digest r) (runner_ref r) principal;
  v1 ← sign_result_binding key r;
  v2 ← sign_result_binding_v2 key r;
  Some (chain, v1, v2).

Definition empty_result : CheckResult := mkResult "" "" "" "" 0 [] "" "" 0 "" 0.

Definition attest_no_result (key : string) (principal : list string) :
    option (AttestationChain * string * string) :=
  chain ← chain_over key "" "" "" principal;
  v1 ← (p ← result_binding_preimage "" "" ""; Some (sign_raw key p));
  v2 ← (p ← result_binding_preimage_v2 empty_result; Some (sign_raw key p));
  Some (chain, v1, v2).

(** Both verdicts of an attested execution. *)
Definition both (a b : option (result VerifyError bool)) : option (result VerifyError bool) :=
  x ← a; match x with
  | Err e => Some (Err e)
  | Ok chain_ok => y ← b; match y with
    | Err e => Some (Err e)
    | Ok binding_ok => Some (Ok (chain_ok && binding_ok))
    end
  end.

Definition verify_execution (c : AttestationChain) (sig : string) (r : CheckResult) (pk : string) :=
  both (verify_chain c pk)
    (p ← result_binding_preimage (memo_key r) (stdout_ref r) (stderr_ref r); Some (verify_raw p sig pk)).

Definition verify_execution_v2 (c : AttestationChain) (sig : string) (r : CheckResult) (pk : string) :=
  both (verify_chain c pk) (p ← result_binding_preimage_v2 r; Some (verify_raw p sig pk)).

(** [run_check] (exec.rs) over the execution port: what the process printed and
    its exit code become a result; a refusal or a signal does not. *)
Definition run_check (exec_captured_for : string → list string → option CmdOutput)
    (lease_id : string) (def : CheckDef) (tree : string) (started produced : Z)
    (runner : string) : option CheckResult :=
  out ← exec_captured_for lease_id ["sh"; "-lc"; d_command def];
  exit_code ← code out;
  memo ← compute_memo_key tree (d_def_digest def) (d_toolchain_ref def);
  Some (mkResult memo tree (d_def_digest def) (d_toolchain_ref def) exit_code []
    (content_ref (stdout out)) (content_ref (stderr out)) (produced -sat started) runner produced).
End signatures.
