(* ===== verification/AttestProofs.v ===== *)
(** * Attestation: properties

    Every pre-image determines the fields it was built from, so a signature
    over it covers each of them; the two result bindings are never the same
    message; what a close returns verifies.  Two of the messages the one key
    signs are not told apart from a third, which is shown with the fields that
    make them equal. *)
From S2P Require Import Prelude Envelope Attest.

(** ** Bytes *)
Lemma be_length n z : String.length (be n z) = n.
Proof. induction n as [|n IH]; cbn; [done|]. by rewrite IH. Qed.

Lemma string_app_inj (a b x y : string) :
  String.length a = String.length b → a +:+ x = b +:+ y → a = b ∧ x = y.
Proof.
  revert b. induction a as [|c a IH]; intros [|d b] Hlen H; try done.
  autorewrite with strings in H. simplify_eq. cbn in Hlen.
  destruct (IH b) as [-> ->]; [lia|done..].
Qed.

Lemma byte_inj x y : ascii_of_nat (Z.to_nat (x mod 256)) = ascii_of_nat (Z.to_nat (y mod 256)) → x mod 256 = y mod 256.
Proof.
  intros H%(f_equal nat_of_ascii).
  pose proof (Z.mod_pos_bound x 256). pose proof (Z.mod_pos_bound y 256).
  rewrite !nat_ascii_embedding in H by lia. lia.
Qed.

Lemma be_inj n a b : be n a = be n b → a mod 256 ^ Z.of_nat n = b mod 256 ^ Z.of_nat n.
Proof.
  induction n as [|n IH]; intros H.
  - change (Z.of_nat 0) with 0. by rewrite Z.pow_0_r, !Z.mod_1_r.
  - cbn [be] in H. injection H as Hhd Htl. apply IH in Htl. apply byte_inj in Hhd.
    replace (Z.of_nat (S n)) with (Z.of_nat n + 1) by lia.
    rewrite Z.pow_add_r, Z.pow_1_r by lia.
    rewrite !Z.rem_mul_r by (try apply Z.pow_nonzero; lia). by rewrite Hhd, Htl.
Qed.

Lemma be_inj_range n a b :
  0 ≤ a < 256 ^ Z.of_nat n → 0 ≤ b < 256 ^ Z.of_nat n → be n a = be n b → a = b.
Proof. intros Ha Hb H%be_inj. by rewrite !Z.mod_small in H. Qed.

(** ** Frames that can be read back *)

(** On the values of [P], the frame of [a] followed by anything says what [a] was. *)
Definition framed {A} (P : A → Prop) (f : A → option string) : Prop :=
  ∀ a b p q x y, P a → P b → f a = Some p → f b = Some q → p +:+ x = q +:+ y → a = b ∧ x = y.

Lemma u32_len_range n z : u32_len n = Some z → z = Z.of_nat n ∧ 0 ≤ z < 256 ^ Z.of_nat 4.
Proof. unfold u32_len. case_decide; intros; simplify_eq. change (256 ^ Z.of_nat 4) with (2 ^ 32). mlia. Qed.

Lemma counted_inj n m (p q x y : string) zn zm :
  u32_len n = Some zn → u32_len m = Some zm →
  be 4 zn +:+ p = be 4 zm +:+ q → n = m ∧ p = q.
Proof.
  intros [-> Hn]%u32_len_range [-> Hm]%u32_len_range H.
  apply string_app_inj in H as [H ->]; [|by rewrite !be_length].
  apply be_inj_range in H; [|done..]. split; [lia|done].
Qed.

Lemma lp_framed : framed (λ _, True) lp.
Proof.
  intros a b p q x y _ _ Ha Hb H. unfold lp in *.
  destruct (u32_len (String.length a)) as [n|] eqn:En; [|done]. injection Ha as <-.
  destruct (u32_len (String.length b)) as [m|] eqn:Em; [|done]. injection Hb as <-.
  rewrite !string_app_assoc in H.
  destruct (counted_inj _ _ _ _ x y _ _ En Em H) as [Hlen Happ].
  by apply string_app_inj in Happ.
Qed.

Lemma be_framed n : framed (λ z, 0 ≤ z < 256 ^ Z.of_nat n) (λ z, Some (be n z)).
Proof.
  intros a b p q x y Ha Hb [= <-] [= <-] H.
  apply string_app_inj in H as [H ->]; [|by rewrite !be_length]. split; [|done].
  by apply be_inj_range in H.
Qed.

Lemma i32_framed : framed (λ z, - 2 ^ 31 ≤ z < 2 ^ 31) (λ z, Some (i32_be z)).
Proof.
  intros a b p q x y Ha Hb [= <-] [= <-] H. unfold i32_be in H.
  apply string_app_inj in H as [H ->]; [|by rewrite !be_length]. split; [|done].
  apply be_inj in H. change (256 ^ Z.of_nat 4) with (2 ^ 32) in H.
  rewrite !Zmod_mod in H. destruct (Z.lt_ge_cases a 0), (Z.lt_ge_cases b 0).
  - rewrite <-(Z.mod_add a 1), <-(Z.mod_add b 1), !Z.mod_small in H; lia.
  - rewrite <-(Z.mod_add a 1), !Z.mod_small in H; lia.
  - rewrite <-(Z.mod_add b 1), !Z.mod_small in H; lia.
  - rewrite !Z.mod_small in H; lia.
Qed.

Lemma frames_cons p ps w : frames (p :: ps) = Some w → ∃ x y, p = Some x ∧ frames ps = Some y ∧ w = x +:+ y.
Proof.
  cbn. destruct p as [x|]; [|done]. cbn. destruct (frames ps) as [y|]; [|done].
  intros [= <-]. eauto 10.
Qed.

(** The first frames agree, and the rest goes on. *)
Lemma frames_step {A} (P : A → Prop) f (a b : A) ps qs w v x y :
  framed P f → P a → P b →
  frames (f a :: ps) = Some w → frames (f b :: qs) = Some v → w +:+ x = v +:+ y →
  a = b ∧ ∃ w' v', frames ps = Some w' ∧ frames qs = Some v' ∧ w' +:+ x = v' +:+ y.
Proof.
  intros Hf Ha Hb (p & w' & Hp & Hw' & ->)%frames_cons (q & v' & Hq & Hv' & ->)%frames_cons H.
  rewrite !string_app_assoc in H. destruct (Hf a b p q _ _ Ha Hb Hp Hq H) as [-> ?]. eauto 10.
Qed.

Lemma frames_nil w : frames [] = Some w → w = "".
Proof. cbn. congruence. Qed.

Lemma frames_map_framed {A} (P : A → Prop) f (l k : list A) w v x y :
  framed P f → Forall P l → Forall P k → length l = length k →
  frames (f <$> l) = Some w → frames (f <$> k) = Some v → w +:+ x = v +:+ y → l = k ∧ x = y.
Proof.
  intros Hf. revert k w v. induction l as [|a l IH]; intros [|b k] w v Hl Hk Hlen Hw Hv H; try done.
  - apply frames_nil in Hw, Hv. by subst.
  - apply Forall_cons_1 in Hl as [Ha Hl]. apply Forall_cons_1 in Hk as [Hb Hk].
    rewrite fmap_cons in Hw, Hv.
    destruct (frames_step P f a b _ _ w v x y Hf Ha Hb Hw Hv H) as [-> (w' & v' & Hw' & Hv' & H')].
    cbn in Hlen. destruct (IH k w' v') as [-> ->]; [done..|lia|done|done|done|done].
Qed.

Lemma vec_framed {A} (P : A → Prop) f : framed P f → framed (Forall P) (vec f).
Proof.
  intros Hf l k p q x y Hl Hk Hp Hq H. unfold vec in *.
  destruct (u32_len (length l)) as [n|] eqn:En; [|done]. cbn [mbind option_bind] in Hp.
  destruct (frames (f <$> l)) as [w|] eqn:Ew; [|done]. injection Hp as <-.
  destruct (u32_len (length k)) as [m|] eqn:Em; [|done]. cbn [mbind option_bind] in Hq.
  destruct (frames (f <$> k)) as [v|] eqn:Ev; [|done]. injection Hq as <-.
  rewrite !string_app_assoc in H.
  destruct (counted_inj _ _ _ _ x y _ _ En Em H) as [Hlen Happ].
  by apply (frames_map_framed P f l k w v).
Qed.

(** Reads the next frame off two equal messages. *)
Ltac next_frame F :=
  match goal with
  | Hw : frames (_ :: _) = Some ?w, Hv : frames (_ :: _) = Some ?v, H : ?w +:+ _ = ?v +:+ _ |- _ =>
    let E := fresh "E" in
    assert (E := λ Pa Pb, frames_step _ _ _ _ _ _ _ _ _ _ F Pa Pb Hw Hv H);
    destruct E as [E (? & ? & ? & ? & ?)]; [solve [auto]|solve [auto]|];
    clear Hw Hv H; try subst
  end.

Lemma no_more_frames w v x y :
  frames [] = Some w → frames [] = Some v → w +:+ x = v +:+ y → x = y.
Proof. intros [= <-] [= <-]. done. Qed.

Ltac end_frames :=
  match goal with
  | Hw : frames [] = Some ?w, Hv : frames [] = Some ?v, H : ?w +:+ _ = ?v +:+ _ |- _ =>
    exact (no_more_frames _ _ _ _ Hw Hv H)
  end.

Lemma artifact_framed : framed (λ _, True) artifact_frame.
Proof.
  intros [p d] [p' d'] w v x y _ _ Hw Hv H. unfold artifact_frame in *. cbn [a_path a_digest] in *.
  next_frame lp_framed. next_frame lp_framed. split; [done|]. end_frames.
Qed.

Definition u64_range (z : Z) : Prop := 0 ≤ z < 256 ^ Z.of_nat 8.

Lemma tool_framed : framed (λ t, u64_range (count t)) tool_frame.
Proof.
  intros [t n] [t' n'] w v x y Hn Hn' Hw Hv H. unfold tool_frame in *. cbn [tool count] in *.
  next_frame lp_framed. next_frame (be_framed 8). split; [done|]. end_frames.
Qed.

(** What the types of the code give: an [i32] exit code and [u64] meters. *)
Definition result_ok (r : CheckResult) : Prop := - 2 ^ 31 ≤ exit r < 2 ^ 31.

Record metrics_ok (m : IntentMetrics) : Prop := {
  mo_input : u64_range (input (tokens m)); mo_output : u64_range (output (tokens m));
  mo_read : u64_range (cache_read (tokens m)); mo_write : u64_range (cache_write (tokens m));
  mo_total : u64_range (total (tokens m)); mo_wall : u64_range (wall_ms m);
  mo_active : u64_range (active_ms m); mo_calls : u64_range (tool_calls m);
  mo_tools : Forall (λ t, u64_range (count t)) (tool_breakdown m);
  mo_turns : u64_range (model_turns m); mo_cost : u64_range (cost_usd_micros m);
}.

Lemma all_true {A} (l : list A) : Forall (λ _, True) l.
Proof. by apply Forall_true. Qed.
#[local] Hint Resolve all_true : core.
#[local] Hint Resolve mo_input mo_output mo_read mo_write mo_total mo_wall mo_active mo_calls mo_tools
  mo_turns mo_cost : core.

Lemma chain_message_inj t d r m p t' d' r' m' p' w :
  sig_preimage t d r m p = Some w → sig_preimage t' d' r' m' p' = Some w →
  t = t' ∧ d = d' ∧ r = r' ∧ m = m' ∧ p = p'.
Proof.
  unfold sig_preimage. intros Hw Hv. pose proof (eq_refl (w +:+ "")) as H.
  do 4 next_frame lp_framed. next_frame (vec_framed _ _ lp_framed). done.
Qed.

Lemma binding_message_inj m o e m' o' e' w :
  result_binding_preimage m o e = Some w → result_binding_preimage m' o' e' = Some w →
  m = m' ∧ o = o' ∧ e = e'.
Proof.
  unfold result_binding_preimage. intros Hw Hv. pose proof (eq_refl (w +:+ "")) as H.
  by do 3 next_frame lp_framed.
Qed.

Lemma binding_v2_message_inj r r' w :
  result_ok r → result_ok r' →
  result_binding_preimage_v2 r = Some w → result_binding_preimage_v2 r' = Some w →
  memo_key r = memo_key r' ∧ stdout_ref r = stdout_ref r' ∧ stderr_ref r = stderr_ref r'
  ∧ exit r = exit r' ∧ artifacts r = artifacts r'.
Proof.
  unfold result_binding_preimage_v2, result_ok. intros Ho Ho' Hw Hv. pose proof (eq_refl (w +:+ "")) as H.
  do 3 next_frame lp_framed. next_frame i32_framed. next_frame (vec_framed _ _ artifact_framed). done.
Qed.

Lemma metrics_message_inj l t m l' t' m' w :
  metrics_ok m → metrics_ok m' →
  intent_metrics_preimage l t m = Some w → intent_metrics_preimage l' t' m' = Some w →
  l = l' ∧ t = t' ∧ m = m'.
Proof.
  unfold intent_metrics_preimage. intros [] [] Hw Hv. pose proof (eq_refl (w +:+ "")) as H.
  do 2 next_frame lp_framed. do 8 next_frame (be_framed 8).
  next_frame (vec_framed _ _ tool_framed). do 2 next_frame (be_framed 8).
  destruct m as [[]], m' as [[]]; cbn in *. by simplify_eq.
Qed.

(** C36: A signature covers every field: two of the same kind of message are equal
    only if all the fields they are built from are, for the chain, both result
    bindings, the metrics binding and the memo key. *)
Theorem signed_messages_determine_fields :
  (∀ t d r m p t' d' r' m' p' w,
    sig_preimage t d r m p = Some w → sig_preimage t' d' r' m' p' = Some w →
    t = t' ∧ d = d' ∧ r = r' ∧ m = m' ∧ p = p')
  ∧ (∀ m o e m' o' e' w,
    result_binding_preimage m o e = Some w → result_binding_preimage m' o' e' = Some w →
    m = m' ∧ o = o' ∧ e = e')
  ∧ (∀ r r' w, result_ok r → result_ok r' →
    result_binding_preimage_v2 r = Some w → result_binding_preimage_v2 r' = Some w →
    memo_key r = memo_key r' ∧ stdout_ref r = stdout_ref r' ∧ stderr_ref r = stderr_ref r'
    ∧ exit r = exit r' ∧ artifacts r = artifacts r')
  ∧ (∀ l t m l' t' m' w, metrics_ok m → metrics_ok m' →
    intent_metrics_preimage l t m = Some w → intent_metrics_preimage l' t' m' = Some w →
    l = l' ∧ t = t' ∧ m = m')
  ∧ (∀ t d c t' d' c' w,
    memo_preimage t d c = Some w → memo_preimage t' d' c' = Some w → t = t' ∧ d = d' ∧ c = c').
Proof.
  split_and!; [apply chain_message_inj|apply binding_message_inj|apply binding_v2_message_inj
    |apply metrics_message_inj|apply binding_message_inj].
Qed.

(** A version-1 result binding is never a version-2 one. *)
Theorem binding_versions_are_disjoint m o e r w :
  result_binding_preimage m o e = Some w → ¬ result_binding_preimage_v2 r = Some w.
Proof.
  unfold result_binding_preimage, result_binding_preimage_v2. intros Hw Hv.
  pose proof (eq_refl (w +:+ "")) as H. do 3 next_frame lp_framed.
  match goal with Hw : frames [] = Some _, Hv : frames (_ :: _) = Some _ |- _ =>
    apply frames_cons in Hv as (p & q & [= <-] & _ & ->); injection Hw as <- end.
  done.
Qed.

Lemma binding_versions_are_disjoint_witness :
  result_binding_preimage "m" "o" "e" = Some (default "" (result_binding_preimage "m" "o" "e"))
  ∧ ¬ result_binding_preimage_v2 (mkResult "m" "" "" "" 0 [] "o" "e" 0 "" 0)
      = Some (default "" (result_binding_preimage "m" "o" "e")).
Proof.
  split; [reflexivity|]. apply (binding_versions_are_disjoint "m" "o" "e"). reflexivity.
Defined.

(** ** What a close returns verifies *)

(** Documented behaviour of the crates: base64 decodes what it encoded, keys and
    signatures have 32 and 64 bytes, and a key verifies its own signatures. *)
Class CryptoLaws (crypto : Crypto) : Prop := {
  b64_roundtrip x : b64_decode (b64_encode x) = Some x;
  public_length k : String.length (ed_public k) = 32%nat;
  signature_length k m : String.length (ed_sign k m) = 64%nat;
  public_valid k : ed_valid_key (ed_public k) = true;
  own_signature k m : ed_verify_strict (ed_public k) m (ed_sign k m) = true;
}.

Section verification.
Context {crypto : Crypto} {laws : CryptoLaws crypto}.

Lemma verify_own key msg : verify_raw msg (sign_raw key msg) (public_key_b64 key) = Ok true.
Proof.
  unfold verify_raw, sign_raw, public_key_b64.
  by rewrite !b64_roundtrip, public_length, public_valid, signature_length, own_signature.
Qed.

Lemma verify_own_chain key t d r m p sig :
  sign_chain key t d r m p = Some sig →
  verify_chain (mkChain t d r m p sig) (public_key_b64 key) = Some (Ok true).
Proof.
  unfold sign_chain, verify_chain. cbn [ch_tree ch_def ch_runner ch_model ch_principal ch_sig].
  destruct (sig_preimage t d r m p) as [w|]; [|done]. intros [= <-]. cbn. by rewrite verify_own.
Qed.

Lemma attested_verifies key r principal chain v1 v2 :
  attest_close_result key r principal = Some (chain, v1, v2) →
  verify_execution chain v1 r (public_key_b64 key) = Some (Ok true)
  ∧ verify_execution_v2 chain v2 r (public_key_b64 key) = Some (Ok true)
  ∧ ch_tree chain = tree_hash r ∧ ch_principal chain = principal.
Proof.
  unfold attest_close_result, chain_over. intros H.
  destruct (sign_chain _ _ _ _ _ _) as [sig|] eqn:Ec; [|done]. cbn [mbind option_bind] in H.
  destruct (sign_result_binding key r) as [s1|] eqn:E1; [|done]. cbn [mbind option_bind] in H.
  destruct (sign_result_binding_v2 key r) as [s2|] eqn:E2; [|done]. injection H as <- <- <-.
  unfold verify_execution, verify_execution_v2, both. rewrite (verify_own_chain _ _ _ _ _ _ _ Ec).
  unfold sign_result_binding, sign_result_binding_v2 in *.
  destruct (result_binding_preimage _ _ _) as [w1|]; [|done]. injection E1 as <-.
  destruct (result_binding_preimage_v2 r) as [w2|]; [|done]. injection E2 as <-.
  cbn [mbind option_bind ch_tree ch_principal]. by rewrite !verify_own.
Qed.

(** The chain and both bindings a close answers with verify under the published key. *)
Theorem close_attestation_verifies key r principal chain v1 v2 :
  attest_close_result key r principal = Some (chain, v1, v2) →
  verify_execution chain v1 r (public_key_b64 key) = Some (Ok true)
  ∧ verify_execution_v2 chain v2 r (public_key_b64 key) = Some (Ok true)
  ∧ ch_tree chain = tree_hash r ∧ ch_principal chain = principal.
Proof. apply attested_verifies. Qed.

Lemma be_lp n s : u32_len (String.length s) = Some n → lp s = Some (be 4 n +:+ s).
Proof. unfold lp. by intros ->. Qed.

(** The artifact whose frame reads as two principals. *)
Definition smuggled (victim : string) : string :=
  be 4 2 +:+ be 4 (Z.of_nat (String.length victim)) +:+ victim.

Definition smuggling_result (memo tree def toolchain out err victim : string) : CheckResult :=
  mkResult memo tree def toolchain 8 [mkArtifact (smuggled victim) ""] out err 0 "" 0.

Lemma smuggled_message memo tree def toolchain out err victim :
  Z.of_nat (String.length victim) ≤ U32_MAX - 8 →
  result_binding_preimage_v2 (smuggling_result memo tree def toolchain out err victim) =
  sig_preimage memo out err (be 4 1 +:+ be 4 (Z.of_nat (String.length victim) + 8)) [victim; ""].
Proof.
  intros Hlen. unfold result_binding_preimage_v2, sig_preimage, smuggling_result.
  cbn [memo_key stdout_ref stderr_ref exit artifacts].
  assert (frames [Some (i32_be 8); vec artifact_frame [mkArtifact (smuggled victim) ""]] =
          frames [lp (be 4 1 +:+ be 4 (Z.of_nat (String.length victim) + 8)); vec lp [victim; ""]]) as E.
  { unfold vec, artifact_frame, smuggled. cbn [fmap list_fmap length a_path a_digest].
    assert (lp victim = Some (be 4 (Z.of_nat (String.length victim)) +:+ victim)) as Hv.
    { apply be_lp. unfold u32_len. by rewrite decide_True by mlia. }
    assert (lp (be 4 2 +:+ be 4 (Z.of_nat (String.length victim)) +:+ victim) =
      Some (be 4 (Z.of_nat (String.length victim) + 8) +:+ be 4 2 +:+ be 4 (Z.of_nat (String.length victim)) +:+ victim)) as Hp.
    { apply be_lp. rewrite !string_length_app, !be_length. unfold u32_len.
      rewrite decide_True by mlia. f_equal. lia. }
    unfold frames. rewrite Hv, Hp. cbn [mbind option_bind].
    unfold lp, u32_len. rewrite string_length_app, !be_length. cbn [Nat.add length String.length].
    rewrite !decide_True by mlia. cbn [mbind option_bind].
    f_equal. rewrite !string_app_assoc, !string_app_nil_r. reflexivity. }
  cbn [frames] in E |- *. by rewrite E.
Qed.

(** The key does not say what it signed: whoever closes a lease with a result of
    their making gets a version-2 binding that verifies as an attestation chain
    naming any other principal, over the memo key as its tree. *)
Theorem binding_verifies_as_foreign_chain key tree def toolchain out err victim memo v2 :
  Z.of_nat (String.length victim) ≤ U32_MAX - 8 →
  compute_memo_key tree def toolchain = Some memo →
  let r := smuggling_result memo tree def toolchain out err victim in
  sign_result_binding_v2 key r = Some v2 →
  verify_chain
    (mkChain memo out err (be 4 1 +:+ be 4 (Z.of_nat (String.length victim) + 8)) [victim; ""] v2)
    (public_key_b64 key) = Some (Ok true).
Proof.
  intros Hlen _ r Hsign. apply verify_own_chain. unfold sign_chain, sign_result_binding_v2 in *.
  by rewrite <-(smuggled_message memo tree def toolchain out err victim Hlen).
Qed.
End verification.

(** ** Witnesses: a signature scheme in which the signature is a constant *)
Definition zeros (n : nat) : string := Nat.iter n (String "0") "".
#[local] Instance toy_crypto : Crypto :=
  Build_Crypto (λ s, s) (λ _, zeros 32) (λ _ _, zeros 64) (λ _, true) (λ _ _ sig, String.eqb sig (zeros 64))
    (λ s, s) Some.
#[local] Instance toy_crypto_laws : CryptoLaws toy_crypto.
Proof. split; intros; reflexivity. Qed.

Lemma close_attestation_verifies_witness :
  ∃ chain v1 v2,
    attest_close_result "key" (mkResult "m" "t" "d" "c" (-1) [mkArtifact "a" "b"] "o" "e" 0 "r" 0) ["tenant:a"]
      = Some (chain, v1, v2)
    ∧ verify_execution_v2 chain v2 (mkResult "m" "t" "d" "c" (-1) [mkArtifact "a" "b"] "o" "e" 0 "r" 0)
        (public_key_b64 "key") = Some (Ok true).
Proof.
  eexists _, _, _. split; [vm_compute; reflexivity|].
  refine (proj1 (proj2 (close_attestation_verifies (laws := toy_crypto_laws) "key" _ ["tenant:a"] _ _ _ _))).
  vm_compute. reflexivity.
Defined.

Lemma binding_verifies_as_foreign_chain_witness :
  ∃ memo v2, compute_memo_key "t" "d" "c" = Some memo
  ∧ verify_chain (mkChain memo "o" "e" (be 4 1 +:+ be 4 21) ["tenant:victim"; ""] v2) (public_key_b64 "key")
    = Some (Ok true).
Proof.
  eexists _, _. split; [vm_compute; reflexivity|].
  apply (binding_verifies_as_foreign_chain (laws := toy_crypto_laws) "key" "t" "d" "c" "o" "e" "tenant:victim");
    [vm_compute; discriminate|vm_compute; reflexivity..].
Defined.

(** Nor is the metrics binding a message of its own: with enough input tokens it
    is a version-1 result binding of the same lease and tenant names. *)
Theorem metrics_message_can_be_a_binding :
  ∃ m err, metrics_ok m ∧ ∀ lease_id tenant,
    intent_metrics_preimage lease_id tenant m = result_binding_preimage lease_id tenant err.
Proof.
  exists (mkMetrics (mkTokens (80 * 2 ^ 32) 0 0 0 (80 * 2 ^ 32)) 1 0 0 [] 1 0).
  exists (be 4 0 +:+ be 8 0 +:+ be 8 0 +:+ be 8 0 +:+ be 8 (80 * 2 ^ 32) +:+ be 8 1 +:+ be 8 0 +:+ be 8 0
          +:+ be 4 0 +:+ be 8 1 +:+ be 8 0).
  split; [split; try (split; [discriminate|reflexivity]); constructor|].
  intros lease_id tenant. unfold intent_metrics_preimage, result_binding_preimage.
  assert (∀ a b ps qs, frames ps = frames qs → frames (a :: b :: ps) = frames (a :: b :: qs)) as Hf
    by (intros a b ps qs H; cbn; by rewrite H).
  apply Hf. by vm_compute.
Qed.
