(* ===== verification/Engine.v ===== *)
(** * The runner's box: [isolation.rs], [teardown.rs], [expiry], [recovery], [concurrency]

    A job runs in a container on a box that is driven by commands; a command
    changes the box and answers with an exit code and output, or the box is not
    reached.  The engine starts a container only after its image is verified;
    teardown destroys it and scans the box for what is left; expiry, recovery and
    the batch runner end in the same teardown.  The batch runner's jobs are
    threads, so their calls interleave. *)
From S2P Require Import Prelude Tenant Ledger Journal Text Lease Task Attest.

(** ** Containers and commands *)
Record RunningContainer : Type := mkContainer { rc_name : string }.
#[export] Instance RunningContainer_eq_dec : EqDecision RunningContainer.
Proof. solve_decision. Defined.

Inductive EngineError : Type :=
| NetworkOpen | NotPinned (e : SpecError) | Unverified (e : PinError) | DockerRunFailed | Unreachable.

Record IsolationProbe : Type := mkProbe { tmp_is_private : bool; net_is_isolated : bool }.
Definition fully_isolated (p : IsolationProbe) : bool := tmp_is_private p && net_is_isolated p.

(** [trait Engine]: what the schedulers call. *)
Class Engine (B : Type) : Type := {
  eng_spawn : ContainerSpec → B → B * result EngineError RunningContainer;
  eng_probe : RunningContainer → ContainerSpec → B → B * result EngineError IsolationProbe;
  eng_exec : RunningContainer → list string → B → B * result EngineError (option Z);
  eng_exec_captured : RunningContainer → list string → B → B * result EngineError CmdOutput;
  eng_is_alive : RunningContainer → B → B * result EngineError bool;
}.

Definition TMPFS_SIZE : string := "64m".
Definition IDLE_SLEEP_SECS : string := "3600".
Definition MEMORY_LIMIT : string := "12g".
Definition PIDS_LIMIT : string := "4096".

Definition run_argv (spec : ContainerSpec) : list string :=
  ["docker"; "run"; "-d"; "--rm"; "--name"; spec_name spec; "--network"; "none";
   "--cap-drop"; "ALL"; "--security-opt"; "no-new-privileges"; "--pids-limit"; PIDS_LIMIT;
   "--memory"; MEMORY_LIMIT; "--memory-swap"; MEMORY_LIMIT;
   "--tmpfs"; spec_tmp_root spec +:+ ":rw,size=" +:+ TMPFS_SIZE; "--label"; "hugit.job=1";
   spec_image spec; "sleep"; IDLE_SLEEP_SECS].
Definition ps_argv (n : string) : list string :=
  ["docker"; "ps"; "--filter"; "name=" +:+ n; "--format"; "{{.Names}}"].

(** [str::parse::<i64>]. *)
Fixpoint parse_nat_i64 (acc : Z) (s : string) : option Z :=
  match s with
  | EmptyString => Some acc
  | String c s => if is_ascii_digit c then parse_nat_i64 (acc * 10 + (byte c - 48)) s else None
  end.
Definition parse_i64 (s : string) : option Z :=
  let '(neg, ds) := match s with
                    | String "-" ds => (true, ds)
                    | String "+" ds => (false, ds)
                    | _ => (false, s)
                    end in
  if String.eqb ds "" then None
  else n ← parse_nat_i64 0 ds;
       let z := if neg : bool then - n else n in
       if (- 2 ^ 63 <=? z) && (z <=? I64_MAX) then Some z else None.

(** A double quote, for the scripts that have one. *)
Definition QUOTE : string := String "034" EmptyString.

(** A box that keeps a log of what was run on it. *)
Definition logged {B} (run : list string → B → B * result unit CmdOutput) (argv : list string)
    (b : list (list string) * B) : (list (list string) * B) * result unit CmdOutput :=
  let '(b', r) := run argv b.2 in ((b.1 ++ [argv], b'), r).

(** ** [DockerEngine] *)
Section docker.
Context {B : Type} (run : list string → B → B * result unit CmdOutput).

(** A command whose failure to reach the box is the caller's failure. *)
Definition on_box {E} (e : E) (argv : list string) : M B E CmdOutput := λ b,
  match run argv b with
  | (b, Ok o) => (b, Ok o)
  | (b, Err _) => (b, Err e)
  end.

Definition docker_spawn (spec : ContainerSpec) : M B EngineError RunningContainer :=
  if negb (no_network spec) then throw NetworkOpen
  else match pin_parse (spec_image spec) with
  | Err e => throw (NotPinned e)
  | Ok pinned =>
    (λ b, match verify_on_box run pinned b with
          | (b, Ok _) => (b, Ok ())
          | (b, Err e) => (b, Err (Unverified e))
          end);;
    out ← on_box Unreachable (run_argv spec);
    if out_ok out then mret (mkContainer (spec_name spec)) else throw DockerRunFailed
  end.

Definition docker_probe (c : RunningContainer) (spec : ContainerSpec) : M B EngineError IsolationProbe :=
  let sh script := ["docker"; "exec"; rc_name c; "sh"; "-c"; script] in
  let marker := "hugit-isolation-" +:+ rc_name c in
  let root := spec_tmp_root spec in
  write ← on_box Unreachable (sh ("mount | grep -q 'on " +:+ root +:+ " type tmpfs' && echo " +:+ marker
    +:+ " > " +:+ root +:+ "/" +:+ marker +:+ " && echo OK"));
  host_leak ← on_box Unreachable ["sh"; "-c"; "find / -name " +:+ marker +:+ " 2>/dev/null | head -1"];
  no_eth ← on_box Unreachable (sh ("n=$(ip -o link show 2>/dev/null | grep -vc ' lo:'); printf '%s' "
    +:+ QUOTE +:+ "$n" +:+ QUOTE));
  connect ← on_box Unreachable (sh
    "timeout 4 sh -c 'echo > /dev/tcp/1.1.1.1/53 && echo REACHED' 2>/dev/null || echo BLOCKED");
  let tmp_is_tmpfs := out_ok write && contains "OK" (stdout write) in
  let eth_count := default I64_MAX (parse_i64 (trim (stdout no_eth))) in
  mret (mkProbe (tmp_is_tmpfs && String.eqb (trim (stdout host_leak)) "")
    ((eth_count =? 0) && contains "BLOCKED" (stdout connect) && negb (contains "REACHED" (stdout connect)))).

Definition docker_exec_captured (c : RunningContainer) (argv : list string) : M B EngineError CmdOutput :=
  on_box Unreachable (["docker"; "exec"; rc_name c] ++ argv).
Definition docker_exec (c : RunningContainer) (argv : list string) : M B EngineError (option Z) :=
  out ← docker_exec_captured c argv; mret (code out).

(** A line of the output is the name. *)
Definition lists_name (n : string) (out : string) : bool := existsb (λ l, String.eqb (trim l) n) (lines out).
Definition docker_is_alive (c : RunningContainer) : M B EngineError bool :=
  out ← on_box Unreachable (ps_argv (rc_name c)); mret (lists_name (rc_name c) (stdout out)).

#[local] Instance DockerEngine : Engine B := {|
  eng_spawn := docker_spawn;
  eng_probe := docker_probe;
  eng_exec := docker_exec;
  eng_exec_captured := docker_exec_captured;
  eng_is_alive := docker_is_alive;
|}.
End docker.

(** ** [teardown.rs] *)
Inductive ScanFailure : Type := ScanExited (surface : string) (code : option Z) | ScanStderr (surface err : string).
Record ForensicReport : Type := mkForensic {
  containers : list string;
  processes : list string;
  mounts : list string;
  network : list string;
  scan_failures : list ScanFailure;
}.
Definition forensic_default : ForensicReport := mkForensic [] [] [] [] [].
Definition is_clean (r : ForensicReport) : bool :=
  match r with mkForensic [] [] [] [] [] => true | _ => false end.

Definition nonempty_lines (s : string) : list string :=
  filter (λ l, l ≠ "") (trim <$> lines s).

Definition scan_failure (surface : string) (out : CmdOutput) : option ScanFailure :=
  if negb (out_ok out) then Some (ScanExited surface (code out))
  else if negb (String.eqb (trim (stderr out)) "") then Some (ScanStderr surface (trim (stderr out)))
  else None.
Definition grep_scan_failure (surface : string) (out : CmdOutput) : option ScanFailure :=
  if negb (bool_decide (code out = Some 0) || bool_decide (code out = Some 1))
  then Some (ScanExited surface (code out))
  else if negb (String.eqb (trim (stderr out)) "") then Some (ScanStderr surface (trim (stderr out)))
  else None.

Inductive TeardownError : Type := BoxLost | RemoveFailed (err : string) | KillFailed (err : string).

Definition rm_argv (n : string) : list string := ["docker"; "rm"; "-f"; n].
Definition ps_all_argv (n : string) : list string :=
  ["docker"; "ps"; "-a"; "--filter"; "name=" +:+ n; "--format"; "{{.Names}}"].
Definition processes_argv (n : string) : list string :=
  ["sh"; "-c"; "ps -eo args | grep -F " +:+ n +:+ " | grep -v grep"].
Definition mounts_argv (n : string) : list string := ["sh"; "-c"; "mount | grep -F " +:+ n].
Definition network_argv (n : string) : list string :=
  ["sh"; "-c"; "set -o pipefail; { ip -o link show; ip netns list; } | grep -F " +:+ n].

Section teardown.
Context {B : Type} (run : list string → B → B * result unit CmdOutput).

Definition teardown (c : RunningContainer) : M B TeardownError ForensicReport :=
  let n := rc_name c in
  rm ← on_box run BoxLost (rm_argv n);
  if negb (out_ok rm) && negb (contains "No such container" (stderr rm))
  then throw (RemoveFailed (trim (stderr rm)))
  else
    containers ← on_box run BoxLost (ps_all_argv n);
    processes ← on_box run BoxLost (processes_argv n);
    mounts ← on_box run BoxLost (mounts_argv n);
    network ← on_box run BoxLost (network_argv n);
    mret (mkForensic (nonempty_lines (stdout containers)) (nonempty_lines (stdout processes))
      (nonempty_lines (stdout mounts)) (nonempty_lines (stdout network))
      (omap id [scan_failure "containers" containers; grep_scan_failure "processes" processes;
                grep_scan_failure "mounts" mounts; grep_scan_failure "network" network])).

(** ** [expiry/mod.rs] *)
Record ExpiryOutcome : Type := mkExpiry { killed : bool; was_running : bool; expiry_residue : ForensicReport }.

Definition is_expired (lease : RunnerLease) (now_ms : Z) : bool :=
  if expiry lease =? U64_MAX then false else expiry lease <=? now_ms.

Definition hard_kill (c : RunningContainer) : M B TeardownError ExpiryOutcome :=
  kill ← on_box run BoxLost ["docker"; "kill"; "--signal"; "KILL"; rc_name c];
  if negb (out_ok kill) && negb (contains "is not running" (stderr kill))
     && negb (contains "No such container" (stderr kill)) && negb (contains "Cannot kill" (stderr kill))
  then throw (KillFailed (trim (stderr kill)))
  else residue ← teardown c; mret (mkExpiry true (out_ok kill) residue).

Definition enforce_expiry (lease : RunnerLease) (c : RunningContainer) (now_ms : Z) :
    M B TeardownError ExpiryOutcome :=
  if is_expired lease now_ms then hard_kill c else mret (mkExpiry false true forensic_default).

(** ** [recovery/mod.rs] *)
Inductive Liveness : Type := Alive | Lost.
Inductive LostDisposition : Type := Requeued | Surfaced.
Record LostJob : Type := mkLost {
  lost_container : string;
  lost_lease_id : string;
  disposition : LostDisposition;
  lost_state : RunnerState;
  lost_residue : ForensicReport;
}.
Definition is_surfaced_not_green (j : LostJob) : bool :=
  bool_decide (lost_state j = Crashed) && is_clean (lost_residue j).

Definition probe_liveness (c : RunningContainer) : M B TeardownError Liveness :=
  out ← on_box run BoxLost (ps_argv (rc_name c));
  mret (if lists_name (rc_name c) (stdout out) then Alive else Lost).
Definition recover_lost (lease : RunnerLease) (c : RunningContainer) (d : LostDisposition) :
    M B TeardownError LostJob :=
  residue ← teardown c; mret (mkLost (rc_name c) (rl_lease_id lease) d Crashed residue).
Definition detect_and_recover (lease : RunnerLease) (c : RunningContainer) (d : LostDisposition) :
    M B TeardownError (option LostJob) :=
  alive ← probe_liveness c;
  match alive with
  | Alive => mret None
  | Lost => job ← recover_lost lease c d; mret (Some job)
  end.
End teardown.

(** ** [concurrency/mod.rs] *)
Definition CENSUS_POLL_ITERATIONS : nat := 40.
Definition C2B_PREFIX : string := "hugit-c2b-".

Inductive JobError : Type := JobSpawn (e : EngineError) | JobExit (code : option Z) | JobExec (e : EngineError).
Record JobOutcome : Type := mkOutcome {
  job_name : string;
  job_ok : bool;
  job_code : option Z;
  job_error : option JobError;
}.
Record TeardownFailure : Type := mkTeardownFailure { failed_name : string; failed_error : TeardownError }.
Record BatchReport : Type := mkBatch {
  outcomes : list JobOutcome;
  peak_concurrency : nat;
  residue : ForensicReport;
  teardown_failures : list TeardownFailure;
}.
Definition ok_count (r : BatchReport) : nat := length (filter (λ o, job_ok o = true) (outcomes r)).
Definition all_torn_down (r : BatchReport) : bool := match teardown_failures r with [] => true | _ => false end.

Inductive BatchError : Type := NoLeases | BadLease (e : SpecError).

Section batch.
(** The box, the engine on it, and the SHA-256 of [sha2]. *)
Context {B : Type} (run : list string → B → B * result unit CmdOutput) `{Engine B} (sha256 : string → string).

Definition c2b_container_name (lease_id : string) : string :=
  C2B_PREFIX +:+ sanitize lease_id +:+ "-" +:+ lower_hex (String.substring 0 8 (sha256 lease_id)).
Definition c2b_spec (lease : RunnerLease) (image : string) : result SpecError ContainerSpec :=
  spec ← from_lease lease image;
  Ok (mkSpec (c2b_container_name (rl_lease_id lease)) (spec_image spec) (spec_tmp_root spec) (no_network spec)
        (allow_egress spec) (run_on_create spec) (spec_path_set spec) (spec_env spec)).
Fixpoint c2b_specs (leases : list (RunnerLease * string)) : result SpecError (list ContainerSpec) :=
  match leases with
  | [] => Ok []
  | (l, image) :: leases => spec ← c2b_spec l image; specs ← c2b_specs leases; Ok (spec :: specs)
  end.

Definition census : M B unit nat :=
  out ← on_box run () (ps_argv C2B_PREFIX);
  mret (length (filter (λ l, starts_with C2B_PREFIX l = true) (trim <$> lines (stdout out)))).

(** One worker thread. *)
Definition run_one (spec : ContainerSpec) (argv : list string) : Task B JobOutcome :=
  spawned ← atomic (eng_spawn spec);
  match spawned with
  | Err e => mret (mkOutcome (spec_name spec) false None (Some (JobSpawn e)))
  | Ok c =>
    ran ← atomic (eng_exec c (match argv with [] => ["true"] | _ => argv end));
    mret (match ran with
          | Ok code =>
            let ok := bool_decide (code = Some 0) in
            mkOutcome (spec_name spec) ok code (if ok then None else Some (JobExit code))
          | Err e => mkOutcome (spec_name spec) false None (Some (JobExec e))
          end)
  end.

Definition is_finished (t : Task B JobOutcome) : bool := match t with Now _ => true | Later _ _ => false end.
Fixpoint steps (js : list nat) (ts : list (Task B JobOutcome)) (b : B) : list (Task B JobOutcome) * B :=
  match js with
  | [] => (ts, b)
  | j :: js => let '(ts, b) := advance j ts b in steps js ts b
  end.

(** The census while jobs are in flight; [sched] gives the steps the workers make
    before each poll. *)
Fixpoint poll_loop (n : nat) (sched : list (list nat)) (peak : nat) (ts : list (Task B JobOutcome)) (b : B) :
    nat * list (Task B JobOutcome) * B :=
  match n with
  | O => (peak, ts, b)
  | S n =>
    let '(now, later) := match sched with [] => ([], []) | s :: sched => (s, sched) end in
    let '(ts, b) := steps now ts b in
    if forallb is_finished ts then (peak, ts, b)
    else
      let '(b, seen) := census b in
      poll_loop n later (match seen with Ok k => Nat.max peak k | Err _ => peak end) ts b
  end.

Fixpoint join_all (ts : list (Task B JobOutcome)) : option (list JobOutcome) :=
  match ts with
  | [] => Some []
  | Now o :: ts => cons o <$> join_all ts
  | Later _ _ :: _ => None
  end.

Definition extend (r r' : ForensicReport) : ForensicReport :=
  mkForensic (containers r ++ containers r') (processes r ++ processes r') (mounts r ++ mounts r')
    (network r ++ network r') (scan_failures r ++ scan_failures r').
Fixpoint teardown_all (specs : list ContainerSpec) (res : ForensicReport) (fs : list TeardownFailure) (b : B) :
    B * (ForensicReport * list TeardownFailure) :=
  match specs with
  | [] => (b, (res, fs))
  | spec :: specs =>
    match teardown run (mkContainer (spec_name spec)) b with
    | (b, Ok r) => teardown_all specs (extend res r) fs b
    | (b, Err e) => teardown_all specs res (fs ++ [mkTeardownFailure (spec_name spec) e]) b
    end
  end.

(** [run_batch]; [rest] is what the workers still do while they are joined.
    [None] is a batch whose workers have not finished. *)
Definition run_batch (sched : list (list nat)) (rest : list nat) (leases : list (RunnerLease * string))
    (argv : list string) (b : B) : B * option (result BatchError BatchReport) :=
  if bool_decide (leases = []) then (b, Some (Err NoLeases))
  else match c2b_specs leases with
  | Err e => (b, Some (Err (BadLease e)))
  | Ok specs =>
    let ts := (λ spec, run_one spec argv) <$> specs in
    let '(peak, ts, b) := poll_loop CENSUS_POLL_ITERATIONS sched 0 ts b in
    let '(ts, b) := steps rest ts b in
    match join_all ts with
    | None => (b, None)
    | Some outcomes =>
      let '(b, seen) := census b in
      let peak := match seen with Ok k => Nat.max peak k | Err _ => peak end in
      let '(b, (res, fs)) := teardown_all specs forensic_default [] b in
      (b, Some (Ok (mkBatch outcomes peak res fs)))
    end
  end.
End batch.
