(* ===== verification/EngineProofs.v ===== *)
(** * The runner's box: proofs

    No container is started from an image that was not verified.  What reports
    a clean teardown has left no container: of docker this needs that a listing
    of all containers is complete and that the commands of a teardown start
    none. *)
From S2P Require Import Prelude Tenant Ledger Journal Text Lease Task Attest Engine.

(** ** Verification comes first *)
Definition starts_container (argv : list string) : Prop := take 2 argv = ["docker"; "run"].

Section spawn.
Context {B : Type} (run : list string → B → B * result unit CmdOutput).
Implicit Types (b : B) (log : list (list string)).

Lemma run_box_logged argv log b :
  run_box (logged run) argv (log, b) = ((log ++ [argv], (run_box run argv b).1), (run_box run argv b).2).
Proof. unfold run_box, logged. cbn. by destruct (run argv b) as [? []]. Qed.
Lemma on_box_logged {E} (e : E) argv log b :
  on_box (logged run) e argv (log, b) = ((log ++ [argv], (on_box run e argv b).1), (on_box run e argv b).2).
Proof. unfold on_box, logged. cbn. by destruct (run argv b) as [? []]. Qed.

Lemma pull_logged n p log b :
  ∃ l, pull_loop (logged run) n p (log, b) = ((log ++ l, (pull_loop run n p b).1), (pull_loop run n p b).2) ∧
    Forall (λ argv, ¬ starts_container argv) l.
Proof.
  revert log b. induction n as [|n IH]; intros log b; cbn [pull_loop].
  { exists []. rewrite app_nil_r. done. }
  unfold mbind, M_bind. rewrite run_box_logged.
  destruct (run_box run ["docker"; "pull"; reference p] b) as [b1 [out|]]; cbn [fst snd].
  - assert (∀ r : result PinError (), ∃ l, (log ++ [["docker"; "pull"; reference p]], b1, r) = (log ++ l, b1, r) ∧
      Forall (λ argv, ¬ starts_container argv) l) as Hstop by (intros r; eexists; split; [done|by repeat constructor]).
    destruct (out_ok out); [apply Hstop|]. destruct (is_permanent_pull_failure _); [apply Hstop|].
    destruct (IH (log ++ [["docker"; "pull"; reference p]]) b1) as (l & -> & Hl).
    eexists. rewrite <-app_assoc. split; [done|]. by constructor.
  - eexists. split; [done|]. by repeat constructor.
Qed.

Lemma verify_logged p log b :
  ∃ l, verify_on_box (logged run) p (log, b) = ((log ++ l, (verify_on_box run p b).1), (verify_on_box run p b).2) ∧
    Forall (λ argv, ¬ starts_container argv) l.
Proof.
  unfold verify_on_box, pull_with_retry, mbind, M_bind.
  destruct (pull_logged PULL_MAX_ATTEMPTS p log b) as (l & -> & Hl).
  destruct (pull_loop run PULL_MAX_ATTEMPTS p b) as [b1 [[]|e]]; cbn [fst snd]; [|by exists l].
  rewrite run_box_logged. exists (l ++ [inspect_argv p]). rewrite app_assoc.
  destruct (run_box run (inspect_argv p) b1) as [b2 [out|]]; cbn [fst snd]; (split; [|by apply Forall_app; split; [|repeat constructor]]); [|done].
  destruct (out_ok out); [|done]. cbn [negb]. by destruct (contains _ _).
Qed.

(** The box after some commands. *)
Definition box_after (argvs : list (list string)) b : B := foldl (λ b argv, (run argv b).1) b argvs.

Lemma pull_ok_logged n p b b1 :
  pull_loop run n p b = (b1, Ok ()) →
  ∃ k o, let pulls := replicate k ["docker"; "pull"; reference p] in
    run ["docker"; "pull"; reference p] (box_after pulls b) = (b1, Ok o) ∧ code o = Some 0 ∧
    ∀ log, pull_loop (logged run) n p (log, b) = ((log ++ pulls ++ [["docker"; "pull"; reference p]], b1), Ok ()).
Proof.
  revert b. induction n as [|n IH]; intros b; cbn [pull_loop]; [done|]. unfold mbind, M_bind.
  destruct (run_box run ["docker"; "pull"; reference p] b) as [b2 [out|]] eqn:Hr; [|done].
  assert (run ["docker"; "pull"; reference p] b = (b2, Ok out)) as Hrun
    by (unfold run_box in Hr; by destruct (run _ b) as [? []]; simplify_eq).
  destruct (out_ok out) eqn:Ho.
  - intros [= <-]. exists 0%nat, out. cbn. split_and!; [done|by apply bool_decide_eq_true in Ho|].
    intros log. rewrite run_box_logged, Hr. cbn. by rewrite Ho.
  - destruct (is_permanent_pull_failure _) eqn:Hp; [done|]. intros (k & o & Hk & Hc & Hlog)%IH.
    exists (S k), o. cbn [replicate]. unfold box_after. cbn [foldl]. rewrite Hrun. split_and!; [done..|]. intros log.
    rewrite run_box_logged, Hr. cbn [fst snd]. rewrite Ho, Hp, Hlog. by rewrite <-app_assoc.
Qed.

(** What a verified image leaves in the log. *)
Lemma verified_log p b b1 l :
  verify_on_box run p b = (b1, Ok ()) →
  verify_on_box (logged run) p ([], b) = ((l, b1), Ok ()) →
  ∃ k pulled out, let pull := ["docker"; "pull"; reference p] in
    l = replicate (S k) pull ++ [inspect_argv p] ∧
    (run pull (box_after (replicate k pull) b)).2 = Ok pulled ∧ code pulled = Some 0 ∧
    (run (inspect_argv p) (box_after (replicate (S k) pull) b)).2 = Ok out ∧ code out = Some 0 ∧
    contains ("sha256:" +:+ digest_hex p) (stdout out) = true.
Proof.
  unfold verify_on_box, pull_with_retry, mbind, M_bind.
  destruct (pull_loop run PULL_MAX_ATTEMPTS p b) as [b2 [[]|e]] eqn:Hpull; [|done].
  destruct (pull_ok_logged _ _ _ _ Hpull) as (k & pulled & Hk & Hc & Hlog). rewrite Hlog, run_box_logged. cbn [fst snd app].
  destruct (run_box run (inspect_argv p) b2) as [b3 [out|]] eqn:Hi; [|done].
  assert (run (inspect_argv p) b2 = (b3, Ok out)) as Hrun
    by (unfold run_box in Hi; by destruct (run _ b2) as [? []]; simplify_eq).
  cbn [fst snd]. destruct (out_ok out) eqn:Ho; [|done]. cbn [negb]. destruct (contains _ _) eqn:Hd; [|done]. cbn [negb].
  intros _ [= <-]. exists k, pulled, out. cbn zeta. rewrite replicate_S_end. unfold box_after. rewrite foldl_app. cbn [foldl].
  fold (box_after (replicate k ["docker"; "pull"; reference p]) b). rewrite Hk. cbn [fst]. rewrite Hrun.
  split_and!; try done. by apply bool_decide_eq_true in Ho.
Qed.

Lemma contains_split needle s : contains needle s = true → ∃ x y, s = x +:+ needle +:+ y.
Proof.
  induction s as [|c s IH]; cbn [contains]; intros [H|H]%orb_true_iff; try done.
  - apply starts_with_iff in H as [y E]. by exists "", y.
  - apply starts_with_iff in H as [y E]. by exists "", y.
  - destruct (IH H) as (x & y & ->). by exists (String c x), y.
Qed.

Lemma pinned_image image p :
  pin_parse image = Ok p →
  reference p = trim image ∧
  (∃ repository, trim image = repository +:+ "@sha256:" +:+ digest_hex p) ∧
  String.length (digest_hex p) = 64%nat ∧
  all_bytes (λ c, is_ascii_hexdigit c && negb (is_ascii_uppercase c)) (digest_hex p) = true.
Proof.
  unfold pin_parse. set (r := trim image). destruct (String.eqb r ""); [done|].
  destruct (split_once "@" r) as [[repository digest]|] eqn:Hs; [|done].
  apply split_once_spec in Hs as [Hs _]. destruct (String.eqb repository ""); [done|]. destruct (negb _); [done|].
  destruct (strip_prefix "sha256:" digest) as [hex|] eqn:Hp; [|done]. apply strip_prefix_Some in Hp as ->.
  destruct (negb (Nat.eqb (String.length hex) 64) || _) eqn:Hlen; [done|].
  destruct (all_bytes (λ c : ascii, negb (is_ascii_uppercase c)) hex) eqn:Hup; [|done]. cbn [negb].
  intros [= <-]. cbn [reference digest_hex]. apply orb_false_iff in Hlen as [Hlen%negb_false_iff Hhex%negb_false_iff].
  apply Nat.eqb_eq in Hlen. split_and!; [done|by exists repository|done|].
  clear -Hhex Hup. induction hex as [|c hex IH]; [done|]. cbn in *.
  apply andb_true_iff in Hhex as [-> ?], Hup as [-> ?]. by apply IH.
Qed.

(** C27: No container is started unverified.  Whatever the box answers, a spawn starts a
    container at most once and as its last command.  The command is the one of the
    fixed policy: no network, no capabilities, no new privileges, at most 4096
    processes and 12 gigabytes, a private temporary directory.  Its image is pinned
    by a digest of 64 hexadecimal digits in lower case; before it the box was only
    asked to pull this image, the last time with success, and then for the digests
    of the image, and its answer contains this digest.  A spawn that reports a
    container has started it. *)
Theorem no_container_unverified spec b :
  let started := ["docker"; "run"; "-d"; "--rm"; "--name"; spec_name spec; "--network"; "none"; "--cap-drop"; "ALL";
    "--security-opt"; "no-new-privileges"; "--pids-limit"; "4096"; "--memory"; "12g"; "--memory-swap"; "12g";
    "--tmpfs"; spec_tmp_root spec +:+ ":rw,size=64m"; "--label"; "hugit.job=1"; spec_image spec; "sleep"; "3600"] in
  let pull := ["docker"; "pull"; trim (spec_image spec)] in
  let inspect := ["docker"; "image"; "inspect"; trim (spec_image spec); "--format";
    "{{range .RepoDigests}}{{.}}" +:+ String LF "{{end}}"] in
  let '(log, b', r) := docker_spawn (logged run) spec ([], b) in
  (∀ argv, argv ∈ log → starts_container argv →
    no_network spec = true ∧ argv = started ∧
    ∃ repository hex k pulled out,
      trim (spec_image spec) = repository +:+ "@sha256:" +:+ hex ∧ String.length hex = 64%nat ∧
      all_bytes (λ c, is_ascii_hexdigit c && negb (is_ascii_uppercase c)) hex = true ∧
      log = replicate (S k) pull ++ [inspect; started] ∧
      (run pull (box_after (replicate k pull) b)).2 = Ok pulled ∧ code pulled = Some 0 ∧
      (run inspect (box_after (replicate (S k) pull) b)).2 = Ok out ∧ code out = Some 0 ∧
      ∃ x y, stdout out = x +:+ ("sha256:" +:+ hex) +:+ y) ∧
  (length (filter starts_container log) ≤ 1)%nat ∧
  (∀ c, r = Ok c → last log = Some started ∧ rc_name c = spec_name spec).
Proof.
  intros started pull inspect. unfold docker_spawn.
  destruct (no_network spec) eqn:Hnet; cbn [negb]; [|cbn; by split_and!; [set_solver|lia|]].
  destruct (pin_parse (spec_image spec)) as [p|e] eqn:Hp; [|cbn; by split_and!; [set_solver|lia|]].
  apply pinned_image in Hp as (Href & (repository & Himg) & Hlen & Hhex).
  unfold mbind, M_bind. destruct (verify_logged p [] b) as (l & Hl & Hno).
  rewrite Hl. cbn [app].
  assert (filter starts_container l = []) as Hf.
  { destruct (filter starts_container l) as [|a fs] eqn:E; [done|]. exfalso.
    assert (a ∈ filter starts_container l) as [? ?]%list_elem_of_filter by (rewrite E; left).
    rewrite Forall_forall in Hno. by eapply Hno. }
  assert (∀ argv, argv ∈ l → ¬ starts_container argv) as Hno' by by apply Forall_forall.
  destruct (verify_on_box run p b) as [b1 [[]|e]] eqn:Hv; cbn [fst snd];
    [|rewrite Hf; split_and!; [naive_solver|cbn; lia|done]].
  apply (verified_log p b b1 l Hv) in Hl as (k & pulled & out & El & Hpull & Hpc & Hins & Hic & Hd%contains_split).
  rewrite Href in El, Hpull. unfold inspect_argv in El, Hins. rewrite Href in El, Hins.
  fold pull in El, Hpull, Hins. fold inspect in El, Hins.
  rewrite on_box_logged. change (run_argv spec) with started. unfold mret, M_ret, throw.
  destruct (on_box run Unreachable started b1) as [b2 [o|]]; cbn [fst snd]; [destruct (out_ok o)|];
    rewrite filter_app, Hf, last_snoc;
    (split_and!; [|apply length_filter|intros c; try done; by intros [= <-]]);
    (intros argv [Hin| ->%list_elem_of_singleton]%elem_of_app Hs; [by destruct (Hno' argv)|]);
    (split_and!; [done..|]); exists repository, (digest_hex p), k, pulled, out; rewrite El, <-app_assoc; done.
Qed.
End spawn.

(** ** A clean report *)

(** The commands of a teardown. *)
Definition teardown_argvs (n : string) : list (list string) :=
  [rm_argv n; ps_all_argv n; processes_argv n; mounts_argv n; network_argv n].

(** What is needed of docker: [docker ps -a] with a name lists the container of
    that name, and none of the teardown's commands starts one. *)
Class DockerLaws {B} (run : list string → B → B * result unit CmdOutput) (names : B → list string) : Prop := {
  law_ps_complete n b b' out :
    run (ps_all_argv n) b = (b', Ok out) → code out = Some 0 → n ∈ names b' → n ∈ trim <$> lines (stdout out);
  law_teardown_starts_none n argv b b' r :
    argv ∈ teardown_argvs n → run argv b = (b', r) → names b' ⊆ names b;
}.

Section teardown.
Context {B : Type} (run : list string → B → B * result unit CmdOutput) (names : B → list string).
Context `{!DockerLaws run names}.
Implicit Types (b : B).

Lemma on_box_starts_none {E} (e : E) n argv b b' r :
  argv ∈ teardown_argvs n → on_box run e argv b = (b', r) → names b' ⊆ names b.
Proof.
  unfold on_box. intros Hin Hr. destruct (run argv b) as [b1 [out|]] eqn:Hrun; injection Hr as <- <-;
    by eapply law_teardown_starts_none.
Qed.

Lemma clean_parts r :
  is_clean r = true ↔ containers r = [] ∧ processes r = [] ∧ mounts r = [] ∧ network r = [] ∧ scan_failures r = [].
Proof. destruct r as [[] [] [] [] []]; cbn; naive_solver. Qed.

Lemma scan_failure_none surface out : scan_failure surface out = None → code out = Some 0.
Proof.
  unfold scan_failure, out_ok. case_bool_decide; [done|]. done.
Qed.

(** Whatever a teardown answers, it starts no container; if its report is clean,
    the container is gone. *)
Lemma teardown_spec c b b' r :
  teardown run c b = (b', r) →
  names b' ⊆ names b ∧
  (rc_name c ≠ "" → ∀ rep, r = Ok rep → is_clean rep = true → rc_name c ∉ names b').
Proof.
  unfold teardown, mbind, M_bind, throw, mret, M_ret. set (n := rc_name c).
  assert (∀ argv x x' (a : result TeardownError CmdOutput), argv ∈ teardown_argvs n →
    on_box run BoxLost argv x = (x', a) → names x' ⊆ names x) as Hstep by (intros; by eapply on_box_starts_none).
  destruct (on_box run BoxLost (rm_argv n) b) as [b1 rm] eqn:H1. apply Hstep in H1; [|by left].
  destruct rm as [rm|e]; [|by intros [= <- <-]].
  destruct (negb (out_ok rm) && _); [by intros [= <- <-]|].
  destruct (on_box run BoxLost (ps_all_argv n) b1) as [b2 ps] eqn:Hps. pose proof Hps as H2. apply Hstep in H2; [|by right; left].
  destruct ps as [ps|e]; [|intros [= <- <-]; split; [set_solver|done]].
  destruct (on_box run BoxLost (processes_argv n) b2) as [b3 procs] eqn:H3. apply Hstep in H3; [|by do 2 right; left].
  destruct procs as [procs|e]; [|intros [= <- <-]; split; [set_solver|done]].
  destruct (on_box run BoxLost (mounts_argv n) b3) as [b4 mnts] eqn:H4. apply Hstep in H4; [|by do 3 right; left].
  destruct mnts as [mnts|e]; [|intros [= <- <-]; split; [set_solver|done]].
  destruct (on_box run BoxLost (network_argv n) b4) as [b5 net] eqn:H5. apply Hstep in H5; [|by do 4 right; left].
  destruct net as [net|e]; [|intros [= <- <-]; split; [set_solver|done]].
  intros [= <- <-]. split; [set_solver|]. intros Hn rep [= <-] (Hc & _ & _ & _ & Hf)%clean_parts Hin.
  cbn [containers scan_failures] in Hc, Hf. cbn [omap list_omap id] in Hf.
  destruct (scan_failure "containers" ps) eqn:Hs; [done|]. apply scan_failure_none in Hs.
  unfold on_box in Hps. destruct (run (ps_all_argv n) b1) as [b2' [ps'|]] eqn:Hrun; [|done]. injection Hps as -> ->.
  assert (n ∈ trim <$> lines (stdout ps)) as Hl by (eapply law_ps_complete; [done..|set_solver]).
  assert (n ∈ nonempty_lines (stdout ps)) as Hl' by by apply list_elem_of_filter. rewrite Hc in Hl'. set_solver.
Qed.

Lemma clean_extend r r' : is_clean (extend r r') = true ↔ is_clean r = true ∧ is_clean r' = true.
Proof. rewrite !clean_parts. cbn. rewrite !app_nil. naive_solver. Qed.

(** The teardowns of a batch: what was gone stays gone, and if none failed and
    the collected report is clean, every container of the batch is gone. *)
Lemma teardown_all_spec specs res fs b b' res' fs' :
  teardown_all run specs res fs b = (b', (res', fs')) →
  names b' ⊆ names b ∧ (∃ more, fs' = fs ++ more) ∧ (is_clean res' = true → is_clean res = true) ∧
  (fs' = [] → is_clean res' = true → ∀ spec, spec ∈ specs → spec_name spec ≠ "" → spec_name spec ∉ names b').
Proof.
  revert res fs b. induction specs as [|spec specs IH]; intros res fs b; cbn [teardown_all].
  { intros [= <- <- <-]. split_and!; [done|by exists []; rewrite app_nil_r|done|set_solver]. }
  destruct (teardown run (mkContainer (spec_name spec)) b) as [b1 r] eqn:Ht. apply teardown_spec in Ht as [Hs Ht].
  destruct r as [rep|e]; intros H; apply IH in H as (Hsub & (more & ->) & Hcl & Hgone).
  - split_and!; [set_solver|by exists more|intros; by apply Hcl, clean_extend in H as []|].
    intros Hfs Hc spec' [->|Hin]%elem_of_cons Hn; [|by apply Hgone].
    apply Hcl, clean_extend in Hc as [_ Hc]. cbn in Ht. specialize (Ht Hn rep eq_refl Hc). set_solver.
  - split_and!; [set_solver|eexists; by rewrite <-app_assoc|done|]. intros [[_ [=]]%app_eq_nil _]%app_eq_nil.
Qed.
End teardown.

(** ** The batch *)
Section batch.
Context {B : Type} (run : list string → B → B * result unit CmdOutput) `{!Engine B} (sha256 : string → string).
Implicit Types (b : B) (ts : list (Task B JobOutcome)).

(** A worker reports under its own name, however it is scheduled. *)
Fixpoint reports_as (n : string) (t : Task B JobOutcome) : Prop :=
  match t with Now o => job_name o = n | Later _ next => ∀ b, reports_as n (next b) end.

Lemma run_one_reports spec argv : reports_as (spec_name spec) (run_one spec argv).
Proof. intros b. cbn. destruct (eng_spawn spec b) as [b1 [c|e]]; cbn; [|done]. intros b2. by destruct (eng_exec _ _ _) as [? []]. Qed.

Lemma advance_reports i ns ts b : Forall2 reports_as ns ts → Forall2 reports_as ns (advance i ts b).1.
Proof.
  intros Hts. unfold advance. destruct (ts !! i) as [[o|write next]|] eqn:Hi; [done| |done].
  destruct (Forall2_lookup_r _ _ _ _ _ Hts Hi) as (n & Hn & Hr). cbn in Hr.
  rewrite <-(list_insert_id ns i n Hn). by apply Forall2_insert.
Qed.
Lemma steps_reports js ns ts b : Forall2 reports_as ns ts → Forall2 reports_as ns (steps js ts b).1.
Proof.
  revert ts b. induction js as [|j js IH]; intros ts b Hts; [done|]. cbn.
  pose proof (advance_reports j ns ts b Hts). destruct (advance j ts b) as [ts' b']. by apply IH.
Qed.
Lemma poll_loop_reports n sched peak ns ts b :
  Forall2 reports_as ns ts → Forall2 reports_as ns (poll_loop run n sched peak ts b).1.2.
Proof.
  revert sched peak ts b. induction n as [|n IH]; intros sched peak ts b Hts; [done|]. cbn.
  destruct (match sched with [] => _ | _ => _ end) as [now later].
  pose proof (steps_reports now ns ts b Hts) as H. destruct (steps now ts b) as [ts' b']. cbn in H.
  destruct (forallb is_finished ts'); [done|]. destruct (census run b') as [b'' [k|]]; by apply IH.
Qed.
Lemma join_all_reports ns ts os : Forall2 reports_as ns ts → join_all ts = Some os → job_name <$> os = ns.
Proof.
  intros Hts. revert os. induction Hts as [|n t ns ts Ht Hts IH]; intros os; cbn; [by intros [= <-]|].
  destruct t as [o|]; [|done]. destruct (join_all ts) as [os'|]; [|done]. intros [= <-]. cbn. by rewrite Ht, (IH os').
Qed.

Lemma c2b_specs_names leases specs :
  c2b_specs sha256 leases = Ok specs →
  spec_name <$> specs = (λ l, c2b_container_name sha256 (rl_lease_id l.1)) <$> leases.
Proof.
  revert specs. induction leases as [|[l image] leases IH]; intros specs; cbn [c2b_specs]; [by intros [= <-]|].
  unfold mbind, result_bind, c2b_spec. destruct (from_lease l image); [|done]. cbn [mbind result_bind].
  destruct (c2b_specs sha256 leases) as [specs'|]; [|done]. intros [= <-]. cbn. f_equal. by apply IH.
Qed.

(** C28: A batch that reports clean has left nothing.  However the workers interleave
    with each other and with the census, a batch that returns a report has one
    outcome per lease, in the order of the leases and under the container names
    derived from them; and if no teardown failed and the collected residue is
    clean, none of the batch's containers is on the box any more. *)
Theorem clean_batch_leaves_nothing (names : B → list string) `{!DockerLaws run names} sched rest leases argv b b' rep :
  run_batch run sha256 sched rest leases argv b = (b', Some (Ok rep)) →
  job_name <$> outcomes rep = (λ l, c2b_container_name sha256 (rl_lease_id l.1)) <$> leases ∧
  (all_torn_down rep = true → is_clean (residue rep) = true →
    ∀ l image, (l, image) ∈ leases → c2b_container_name sha256 (rl_lease_id l) ∉ names b').
Proof.
  unfold run_batch. case_bool_decide; [done|]. destruct (c2b_specs sha256 leases) as [specs|] eqn:Hspecs; [|done].
  apply c2b_specs_names in Hspecs. rewrite <-Hspecs.
  assert (Forall2 reports_as (spec_name <$> specs) ((λ spec, run_one spec argv) <$> specs)) as Hts.
  { rewrite Forall2_fmap. apply Forall_Forall2_diag, Forall_true. intros spec. apply run_one_reports. }
  apply (poll_loop_reports CENSUS_POLL_ITERATIONS sched 0 _ _ b) in Hts.
  destruct (poll_loop _ _ _ _ _ _) as [[peak ts] b1]. cbn [fst snd] in Hts.
  apply (steps_reports rest _ _ b1) in Hts. destruct (steps rest ts b1) as [ts' b2]. cbn [fst] in Hts.
  destruct (join_all ts') as [os|] eqn:Hj; [|done]. destruct (census run b2) as [b3 seen].
  destruct (teardown_all run specs forensic_default [] b3) as [b4 [res fs]] eqn:Ht.
  intros [= <- <-]. cbn [outcomes residue]. split; [by eapply join_all_reports|].
  apply (teardown_all_spec run names) in Ht as (_ & _ & _ & Hgone). intros Hall Hc l image Hl.
  assert (fs = []) as -> by (unfold all_torn_down in Hall; cbn in Hall; by destruct fs).
  assert (c2b_container_name sha256 (rl_lease_id l) ∈ spec_name <$> specs) as Hin.
  { rewrite Hspecs. apply list_elem_of_fmap. by exists (l, image). }
  apply list_elem_of_fmap in Hin as (spec & Heq & Hin). rewrite Heq. apply Hgone; [done..|]. rewrite <-Heq. done.
Qed.
End batch.

(** ** A box with room for one container *)
Definition only_name : string := c2b_container_name (λ _, "01234567") (rl_lease_id sample_lease).
Definition says (s : string) : result unit CmdOutput := Ok (mkOut (Some 0) s "").
Definition small_run (argv : list string) (b : bool) : bool * result unit CmdOutput :=
  let does cmd := bool_decide (take 2 argv = ["docker"; cmd]) in
  if does "run" then (true, says "")
  else if does "rm" then (false, says "")
  else if does "ps" then (b, says (if b then only_name else ""))
  else if does "image" then (b, says sample_image)
  else if does "pull" then (b, says "")
  else if does "exec" then (b, says "")
  else (b, Ok (mkOut (Some 1) "" "")).
Definition small_names (b : bool) : list string := if b then [only_name] else [].

#[export] Instance small_docker_laws : DockerLaws small_run small_names.
Proof.
  split.
  - intros n b b' out Hr _ Hn. change (small_run (ps_all_argv n) b) with (b, says (if b then only_name else "")) in Hr.
    injection Hr as <- <-. destruct b; [|set_solver]. cbn in Hn. apply list_elem_of_singleton in Hn as ->. vm_compute. left.
  - intros n argv b b' r Hin Hr. unfold teardown_argvs in Hin.
    repeat (apply elem_of_cons in Hin as [->|Hin]; [unfold small_run in Hr; cbn in Hr; injection Hr as <- <-; set_solver|]).
    set_solver.
Qed.

Definition small_batch : bool * option (result BatchError BatchReport) :=
  run_batch (H := DockerEngine small_run) small_run (λ _, "01234567") [[0%nat]; [0%nat]] [] [(sample_lease, sample_image)]
    ["make"] false.

Lemma clean_batch_leaves_nothing_witness : only_name ∉ small_names small_batch.1.
Proof.
  refine (proj2 (clean_batch_leaves_nothing (Engine0 := DockerEngine small_run) small_run (λ _, "01234567") small_names
    [[0%nat]; [0%nat]] [] [(sample_lease, sample_image)] ["make"] false small_batch.1
    (mkBatch [mkOutcome only_name true (Some 0) None] 1 forensic_default []) _) _ _ sample_lease sample_image _);
    [vm_compute; reflexivity|reflexivity|reflexivity|left].
Defined.
