(* ===== verification/CloudEngine.v ===== *)
(** * The cloud engines: [http.rs], [cloudflare.rs], [cloudflare/control_auth.rs], [northflank.rs]

    The two provider clients behind the box provisioners.  The transport is a
    parameter: a state and what sending a request does to it.  JSON text is
    written and read by parameters, the values in between are built and taken
    apart here.  Every operation is the whole exchange it makes: the floors a
    spec must pass, the credential of the request, the request, and what is
    concluded from the answer. *)
From stdpp Require Import pretty.
From S2P Require Import Prelude Ledger Journal Decimal Text Lease Boxes Task Attest Engine.

(** ** [http.rs] *)
Inductive Method : Type := Get | Post | Patch | Delete.
#[export] Instance Method_eq_dec : EqDecision Method.
Proof. solve_decision. Defined.

Record HttpRequest : Type := mkRequest {
  rq_method : Method;
  rq_url : string;
  bearer_token : string;
  json_body : option string;
}.
#[export] Instance HttpRequest_eq_dec : EqDecision HttpRequest.
Proof. solve_decision. Defined.
Record HttpResponse : Type := mkResponse { rs_status : Z; rs_body : string }.

Definition is_success (r : HttpResponse) : bool := (200 <=? rs_status r) && (rs_status r <? 300).

Class HttpTransport (H : Type) : Type := http_send : HttpRequest → H → H * result unit HttpResponse.

(** serde_json on values. *)
Class JsonText : Type := {
  json_to_string : Value → string;
  json_of_string : string → option Value;
}.

(** [str::parse] to an unsigned integer with a bound. *)
Definition parse_unsigned (max : Z) (s : string) : option Z :=
  let ds := match s with String "+" ds => ds | _ => s end in
  if String.eqb ds "" then None
  else n ← parse_nat_i64 0 ds; if n <=? max then Some n else None.

(** [get(key)] trimmed and parsed, if it is positive. *)
Definition positive_env (max : Z) (o : option string) : option Z :=
  s ← o; n ← parse_unsigned max (trim s); if 0 <? n then Some n else None.

Definition nonempty (o : option string) : option string :=
  s ← o; if String.eqb s "" then None else Some s.

(** A JSON number, an object under a new key, and the map of an environment: the
    last value of a key stays. *)
Definition jnum (z : Z) : Value := JNumber (pretty z) (Some z).
Fixpoint obj_insert (k : string) (v : Value) (fields : list (string * Value)) : list (string * Value) :=
  match fields with
  | [] => [(k, v)]
  | (k', v') :: fields => if String.eqb k' k then (k, v) :: fields else (k', v') :: obj_insert k v fields
  end.
Definition env_map (env : list (string * string)) : Value :=
  JObject (foldl (λ m kv, obj_insert kv.1 (JString kv.2) m) [] env).

(** Why a cloud operation failed.  Only the lack of capacity is told apart by the
    callers. *)
Inductive CloudError : Type :=
| NotIsolated | ImageNotPinned | DiskTooSmall | PlainCheckSpec | BadConfig | UnsupportedOperation
| TransportFailed | HttpFailed (status : Z) | MalformedAnswer | UnsafeHandle | ExecUnsupported
| ProviderCapacityError (status : Z) | NeverTerminal.

Definition url_path_safe (s : string) : bool := all_bytes (λ b, is_ascii_alphanumeric b || one_of "-_" b) s.

Definition RUNNER_EPHEMERAL_STORAGE_FLOOR_MB : Z := 4096.

(** ** [cloudflare.rs] and [control_auth.rs] *)
Definition CLOUDFLARE_SPAWN_WORKER_URL_ENV : string := "CLOUDFLARE_SPAWN_WORKER_URL".
Definition CLOUDFLARE_RUNNER_LABELS_ENV : string := "CLOUDFLARE_RUNNER_LABELS".
Definition CLOUDFLARE_EXPIRY_MS_ENV : string := "CLOUDFLARE_EXPIRY_MS".
Definition CLOUDFLARE_RUNNER_STORAGE_MB_ENV : string := "CLOUDFLARE_RUNNER_STORAGE_MB".
Definition CLOUDFLARE_SPAWN_AUTH_TOKEN_ENV : string := "CLOUDFLARE_SPAWN_AUTH_TOKEN".
Definition CLOUDFLARE_EXEC_AUTH_TOKEN_ENV : string := "CLOUDFLARE_EXEC_AUTH_TOKEN".
Definition CLOUDFLARE_LIFECYCLE_AUTH_TOKEN_ENV : string := "CLOUDFLARE_LIFECYCLE_AUTH_TOKEN".
Definition DEFAULT_EXPIRY_MS : Z := 3600000.
Definition DEFAULT_RUNNER_STORAGE_MB : Z := 20480.
Definition JITCONFIG_ENV_KEY : string := "CORELINK_RUNNER_JITCONFIG".
Definition TOOLCHAIN_DIGEST_ENV_KEY : string := "TOOLCHAIN_DIGEST".

(** The first value of a key. *)
Definition env_get (k : string) (env : list (string * string)) : option string :=
  snd <$> find (λ kv, String.eqb kv.1 k) env.

Definition check_host_toolchain_digest (spec : ContainerSpec) : option string :=
  if allow_egress spec then None else nonempty (env_get TOOLCHAIN_DIGEST_ENV_KEY (spec_env spec)).
Definition is_check_spec (spec : ContainerSpec) : bool :=
  bool_decide (is_Some (check_host_toolchain_digest spec)).

Record CloudflareConfig : Type := mkCloudflare {
  spawn_worker_url : string;
  auth_token : string;
  exec_auth_token : string;
  lifecycle_auth_token : string;
  cf_runner_storage_mb : Z;
  expiry_ms : Z;
  labels : list string;
}.

Definition cloudflare_config_new (url token : string) : CloudflareConfig :=
  mkCloudflare url token "" "" DEFAULT_RUNNER_STORAGE_MB DEFAULT_EXPIRY_MS [].
Definition with_scoped_tokens (exec lifecycle : string) (c : CloudflareConfig) : CloudflareConfig :=
  mkCloudflare (spawn_worker_url c) (auth_token c) exec lifecycle (cf_runner_storage_mb c) (expiry_ms c) (labels c).

Definition valid_token (token : string) : bool := negb (String.eqb token "") && String.eqb (trim token) token.

Definition validate_tokens (spawn exec lifecycle : string) : bool :=
  valid_token spawn && valid_token exec && valid_token lifecycle
  && negb (String.eqb spawn exec || String.eqb spawn lifecycle || String.eqb exec lifecycle).

Definition tokens_from_env (get : string → option string) : option (string * string * string) :=
  spawn ← get CLOUDFLARE_SPAWN_AUTH_TOKEN_ENV;
  exec ← get CLOUDFLARE_EXEC_AUTH_TOKEN_ENV;
  lifecycle ← get CLOUDFLARE_LIFECYCLE_AUTH_TOKEN_ENV;
  if validate_tokens spawn exec lifecycle then Some (spawn, exec, lifecycle) else None.

Definition is_http_url (s : string) : bool := starts_with "http://" s || starts_with "https://" s.

Definition cloudflare_from_env (get : string → option string) : option CloudflareConfig :=
  url ← nonempty (get CLOUDFLARE_SPAWN_WORKER_URL_ENV);
  if negb (is_http_url url) then None
  else
    '(spawn, exec, lifecycle) ← tokens_from_env get;
    Some (mkCloudflare url spawn exec lifecycle
      (default DEFAULT_RUNNER_STORAGE_MB (positive_env U32_MAX (get CLOUDFLARE_RUNNER_STORAGE_MB_ENV)))
      (default DEFAULT_EXPIRY_MS (positive_env U64_MAX (get CLOUDFLARE_EXPIRY_MS_ENV)))
      (match nonempty (get CLOUDFLARE_RUNNER_LABELS_ENV) with
       | None => []
       | Some ls => List.filter (λ s, negb (String.eqb s "")) (trim <$> split "," ls)
       end)).

Definition cf_validate (c : CloudflareConfig) : bool :=
  validate_tokens (auth_token c) (exec_auth_token c) (lifecycle_auth_token c)
  && is_http_url (spawn_worker_url c)
  && (RUNNER_EPHEMERAL_STORAGE_FLOOR_MB <=? cf_runner_storage_mb c).

Inductive AuthScope : Type := ScopeSpawn | ScopeExec | ScopeLifecycle.
#[export] Instance AuthScope_eq_dec : EqDecision AuthScope.
Proof. solve_decision. Defined.

Definition scope_for (method : Method) (url base : string) : option AuthScope :=
  let post := bool_decide (method = Post) in
  if post && String.eqb url (base +:+ "/v1/spawn") then Some ScopeSpawn
  else if post && String.eqb url (base +:+ "/v1/exec") then Some ScopeExec
  else if (post && (String.eqb url (base +:+ "/v1/teardown") || String.eqb url (base +:+ "/v1/egress-cutoff")))
          || (bool_decide (method = Get)
              && match strip_prefix (base +:+ "/v1/status/") url with
                 | Some handle => negb (String.eqb handle "")
                 | None => false
                 end)
  then Some ScopeLifecycle
  else None.

Definition scope_token (c : CloudflareConfig) (s : AuthScope) : string :=
  match s with
  | ScopeSpawn => auth_token c
  | ScopeExec => exec_auth_token c
  | ScopeLifecycle => lifecycle_auth_token c
  end.

Section cloudflare.
Context {H : Type} {http : HttpTransport H} {jt : JsonText} (cfg : CloudflareConfig).
Abbreviation C A := (M H CloudError A).

Definition transport (r : HttpRequest) : C HttpResponse := λ h,
  let '(h, x) := http_send r h in (h, match x with Ok resp => Ok resp | Err _ => Err TransportFailed end).

(** [CloudflareEngine::send]: a valid configuration, a known operation, its own
    token. *)
Definition cf_send (method : Method) (url : string) (body : option string) : C HttpResponse :=
  if negb (cf_validate cfg) then throw BadConfig
  else match scope_for method url (spawn_worker_url cfg) with
  | None => throw UnsupportedOperation
  | Some scope =>
    if negb (valid_token (scope_token cfg scope)) then throw BadConfig
    else transport (mkRequest method url (scope_token cfg scope) body)
  end.

Definition cf_send_2xx (method : Method) (url : string) (body : option string) : C HttpResponse :=
  resp ← cf_send method url body;
  if is_success resp then mret resp else throw (HttpFailed (rs_status resp)).

Definition spawn_url : string := spawn_worker_url cfg +:+ "/v1/spawn".
Definition status_url (handle : string) : string := spawn_worker_url cfg +:+ "/v1/status/" +:+ handle.
Definition teardown_url : string := spawn_worker_url cfg +:+ "/v1/teardown".
Definition exec_url : string := spawn_worker_url cfg +:+ "/v1/exec".
Definition egress_cutoff_url : string := spawn_worker_url cfg +:+ "/v1/egress-cutoff".

Definition is_alive_with_mode (c : RunningContainer) (check_mode : bool) : C bool :=
  resp ← cf_send Get (status_url (rc_name c) +:+ if check_mode then "?mode=check" else "") None;
  if is_success resp then mret true
  else if rs_status resp =? 404 then mret false
  else throw (HttpFailed (rs_status resp)).

(** The body that names a container and its mode. *)
Definition handle_body (c : RunningContainer) (check_mode : bool) : Value :=
  JObject (("handle", JString (rc_name c)) :: if check_mode then [("mode", JString "check")] else []).

(** A 2xx or a 404: done, or already gone. *)
Definition gone_ok (resp : HttpResponse) : bool := is_success resp || (rs_status resp =? 404).

Definition teardown_with_mode (c : RunningContainer) (check_mode : bool) : C unit :=
  resp ← cf_send Post teardown_url (Some (json_to_string (handle_body c check_mode)));
  if gone_ok resp then mret () else throw (HttpFailed (rs_status resp)).

Definition egress_cutoff (c : RunningContainer) (check_mode : bool) : C unit :=
  resp ← cf_send Post egress_cutoff_url (Some (json_to_string (handle_body c check_mode)));
  if gone_ok resp then mret () else throw (HttpFailed (rs_status resp)).

Definition spawn_value (spec : ContainerSpec) : Value :=
  JObject ([("image_digest", JString (spec_image spec));
            ("jitconfig", JString (default "" (env_get JITCONFIG_ENV_KEY (spec_env spec))));
            ("env", env_map (spec_env spec));
            ("labels", JArray (JString <$> labels cfg));
            ("expiry_ms", jnum (expiry_ms cfg))]
           ++ match check_host_toolchain_digest spec with
              | Some d => [("mode", JString "check"); ("toolchain_digest", JString d)]
              | None => []
              end).
Definition spawn_body (spec : ContainerSpec) : string := json_to_string (spawn_value spec).

Definition parse_handle (body : string) : result CloudError string :=
  match json_of_string body with
  | None => Err MalformedAnswer
  | Some v =>
    match nonempty (get v "handle" ≫= as_string) with
    | None => Err MalformedAnswer
    | Some handle => if url_path_safe handle then Ok handle else Err UnsafeHandle
    end
  end.

(** The floors of a spawn, checked before the Worker is contacted. *)
Definition spawn_floors (spec : ContainerSpec) : result CloudError unit :=
  if negb (no_network spec) && negb (allow_egress spec) then Err NotIsolated
  else if negb (is_ok (pin_parse (spec_image spec))) then Err ImageNotPinned
  else if allow_egress spec && (cf_runner_storage_mb cfg <? RUNNER_EPHEMERAL_STORAGE_FLOOR_MB) then Err DiskTooSmall
  else if negb (allow_egress spec) && negb (is_check_spec spec) then Err PlainCheckSpec
  else Ok ().

Definition cloudflare_spawn (spec : ContainerSpec) : C RunningContainer :=
  lift (spawn_floors spec);;
  resp ← cf_send_2xx Post spawn_url (Some (spawn_body spec));
  handle ← lift (parse_handle (rs_body resp));
  mret (mkContainer handle).

Definition cloudflare_probe (c : RunningContainer) (spec : ContainerSpec) : C IsolationProbe :=
  alive ← is_alive_with_mode c (is_check_spec spec);
  mret (mkProbe alive alive).

Definition exec_value (c : RunningContainer) (argv : list string) : Value :=
  JObject [("handle", JString (rc_name c)); ("argv", JArray (JString <$> argv)); ("timeout_ms", jnum (expiry_ms cfg))].

(** An absent or null exit code is none; any other must be an integer of 32 bits.
    The text of a number is the one it prints, so [as_i64] is its parse. *)
Definition exit_code (v : Value) : result CloudError (option Z) :=
  match get v "exit_code" with
  | None | Some JNull => Ok None
  | Some (JNumber text _) =>
    match parse_i64 text with
    | Some i => if (- 2 ^ 31 <=? i) && (i <=? I32_MAX) then Ok (Some i) else Err MalformedAnswer
    | None => Err MalformedAnswer
    end
  | Some _ => Err MalformedAnswer
  end.

Definition cloudflare_exec_captured (c : RunningContainer) (argv : list string) : C CmdOutput :=
  resp ← cf_send_2xx Post exec_url (Some (json_to_string (exec_value c argv)));
  match json_of_string (rs_body resp) with
  | None => throw MalformedAnswer
  | Some v =>
    code ← lift (exit_code v);
    mret (mkOut code (default "" (get v "stdout" ≫= as_string)) (default "" (get v "stderr" ≫= as_string)))
  end.

Definition cloudflare_exec (_ : RunningContainer) (_ : list string) : C (option Z) := throw ExecUnsupported.
End cloudflare.

(** ** [northflank.rs] *)
Record NorthflankConfig : Type := mkNorthflank {
  base_url : string;
  project_id : string;
  nf_token : string;
  deployment_plan : string;
  ephemeral_storage_mb : Z;
  runner_deployment_plan : option string;
  runner_ephemeral_storage_mb : option Z;
  active_deadline_secs : Z;
  max_poll_attempts : nat;
}.

Definition northflank_config_new (project_id token : string) : NorthflankConfig :=
  mkNorthflank "https://api.northflank.com/v1" project_id token "nf-compute-20" 1024 None None 3600 600.

Definition northflank_from_env (get : string → option string) : option NorthflankConfig :=
  token ← nonempty (get "NORTHFLANK_API_TOKEN");
  project ← nonempty (get "NORTHFLANK_PROJECT_ID");
  let d := northflank_config_new project token in
  Some (mkNorthflank
    (match nonempty (get "NORTHFLANK_BASE_URL"), nonempty (get "NORTHFLANK_TEAM_ID") with
     | Some url, _ => url
     | None, Some team => "https://api.northflank.com/v1/teams/" +:+ team
     | None, None => base_url d
     end)
    project token (default (deployment_plan d) (nonempty (get "NORTHFLANK_DEPLOYMENT_PLAN")))
    (ephemeral_storage_mb d) (nonempty (get "NORTHFLANK_RUNNER_DEPLOYMENT_PLAN"))
    (positive_env U32_MAX (get "NORTHFLANK_RUNNER_EPHEMERAL_STORAGE_MB"))
    (active_deadline_secs d) (max_poll_attempts d)).

Definition runner_storage_mb (c : NorthflankConfig) : Z :=
  default (ephemeral_storage_mb c) (runner_ephemeral_storage_mb c).

Inductive RunnerDiskStatus : Type := DiskOk | SubFloor (resolved_mb : Z) | CheckOnly.
Definition validate_runner_disk (c : NorthflankConfig) : RunnerDiskStatus :=
  match runner_deployment_plan c with
  | None => CheckOnly
  | Some _ =>
    if runner_storage_mb c <? RUNNER_EPHEMERAL_STORAGE_FLOOR_MB then SubFloor (runner_storage_mb c) else DiskOk
  end.

Inductive RunState : Type := RunRunning | RunSucceeded | RunFailed.

Definition to_ascii_upper (c : ascii) : ascii :=
  if is_ascii_lowercase c then Ascii.ascii_of_nat (Ascii.nat_of_ascii c - 32) else c.
Fixpoint to_ascii_uppercase (s : string) : string :=
  match s with EmptyString => EmptyString | String c s => String (to_ascii_upper c) (to_ascii_uppercase s) end.

Fixpoint json_string_values (v : Value) : list string :=
  match v with
  | JString s => [to_ascii_uppercase s]
  | JArray l => flat_map json_string_values l
  | JObject fields => flat_map (λ kv, json_string_values kv.2) fields
  | _ => []
  end.

Definition SUCCESS_STATUS : string := "SUCCESS".
Definition FAIL_TOKENS : list string := ["FAILED"; "FAILURE"; "ERROR"; "CRASHED"; "CANCELLED"].

(** The readable part of a job name: what is not a letter or a digit becomes a
    dash, dashes are not repeated, and do not start or end it. *)
Definition slug_char (c : ascii) : ascii := if is_ascii_alphanumeric c then to_ascii_lower c else "-"%char.
Fixpoint slug (s : string) : string :=
  match s with EmptyString => EmptyString | String c s => String (slug_char c) (slug s) end.
Fixpoint collapse (prev_dash : bool) (s : string) : string :=
  match s with
  | EmptyString => EmptyString
  | String c s =>
    if bool_decide (c = "-"%char) then if prev_dash then collapse true s else String c (collapse true s)
    else String c (collapse false s)
  end.
Definition trim_matches (c : ascii) (s : string) : string := trim_end_matches c (drop_leading c s).
Definition READABLE_BUDGET : nat := 52 - 3 - 1 - 16.

Definition nf_shell_join (argv : list string) : string :=
  join " " ((λ a, "'" +:+ replace_char "'" "'\''" a +:+ "'") <$> argv).

Definition nf_is_capacity_error (status : Z) (body : string) : bool :=
  (status =? 429) || (status =? 503)
  || ((status =? 400) && contains "exceeds your project resource allowance" body).

(** [str::splitn(4, ' ')] of a log line: the second and the fourth part. *)
Definition cri_fields (log : string) : option string * option string :=
  match split_once " " log with
  | None => (None, None)
  | Some (_, r1) =>
    match split_once " " r1 with
    | None => (Some r1, None)
    | Some (stream, r2) => (Some stream, snd <$> split_once " " r2)
    end
  end.

Section northflank.
Context {H : Type} {http : HttpTransport H} {jt : JsonText} (sha256 : string → string) (cfg : NorthflankConfig).
Abbreviation N A := (M H CloudError A).

Definition classify_run_status (body : string) : RunState :=
  match json_of_string body with
  | None => RunRunning
  | Some v =>
    let values := json_string_values v in
    if existsb (λ s, existsb (String.eqb s) FAIL_TOKENS) values then RunFailed
    else if existsb (String.eqb SUCCESS_STATUS) values then RunSucceeded
    else RunRunning
  end.

Definition parse_id (body : string) : result CloudError string :=
  match json_of_string body with
  | None => Err MalformedAnswer
  | Some v =>
    match d ← get v "data"; id ← get d "id"; as_string id with
    | None => Err MalformedAnswer
    | Some id => if String.eqb id "" || negb (url_path_safe id) then Err UnsafeHandle else Ok id
    end
  end.

Definition northflank_job_name (spec_name : string) : string :=
  let suffix := lower_hex (String.substring 0 8 (sha256 spec_name)) in
  let readable := trim_matches "-" (collapse false (slug spec_name)) in
  let readable := trim_matches "-" (String.substring 0 READABLE_BUDGET readable) in
  if String.eqb readable "" then "nf-" +:+ suffix else "nf-" +:+ readable +:+ "-" +:+ suffix.

Definition provider_domain : result CloudError string :=
  if String.eqb (project_id cfg) "" || Nat.ltb 256 (String.length (project_id cfg))
     || negb (url_path_safe (project_id cfg)) then Err BadConfig
  else Ok (base_url cfg +:+ "/projects/" +:+ project_id cfg).

Definition jobs_url : string := base_url cfg +:+ "/projects/" +:+ project_id cfg +:+ "/jobs".
Definition job_url (job : string) : string := jobs_url +:+ "/" +:+ job.

Definition nf_send (method : Method) (url : string) (body : option string) : N HttpResponse :=
  transport (mkRequest method url (nf_token cfg) body).

Definition nf_send_2xx (method : Method) (url : string) (body : option string) : N HttpResponse :=
  resp ← nf_send method url body;
  if is_success resp then mret resp
  else if nf_is_capacity_error (rs_status resp) (rs_body resp) then throw (ProviderCapacityError (rs_status resp))
  else throw (HttpFailed (rs_status resp)).

Definition create_job_value (spec : ContainerSpec) (job_name : string) : Value :=
  let plan := if allow_egress spec then default (deployment_plan cfg) (runner_deployment_plan cfg)
              else deployment_plan cfg in
  let storage := if allow_egress spec then runner_storage_mb cfg else ephemeral_storage_mb cfg in
  JObject ([("name", JString job_name);
            ("billing", JObject [("deploymentPlan", JString plan)]);
            ("deployment", JObject
               [("external", JObject [("imagePath", JString (spec_image spec))]);
                ("docker", JObject [("configType", JString "default")]);
                ("storage", JObject [("ephemeralStorage", JObject [("storageSize", jnum storage)])])]);
            ("runOnCreate", JBool false);
            ("backoffLimit", jnum 0);
            ("activeDeadlineSeconds", jnum (active_deadline_secs cfg))]
           ++ match spec_env spec with [] => [] | env => [("runtimeEnvironment", env_map env)] end).

Definition command_value (command : string) : Value :=
  JObject [("deployment", JObject [("docker", JObject
    [("configType", JString "customCommand"); ("customCommand", JString command)])])].
Definition set_command (job : string) (argv : list string) : N unit :=
  nf_send_2xx Patch (job_url job) (Some (json_to_string (command_value (nf_shell_join argv))));;
  mret ().

(** The loop of [run_to_completion], with the polls that are left. *)
Fixpoint poll_run (polls : nat) (run_url : string) : N (option Z) :=
  match polls with
  | O => throw NeverTerminal
  | S polls =>
    resp ← nf_send_2xx Get run_url None;
    match classify_run_status (rs_body resp) with
    | RunRunning => poll_run polls run_url
    | RunSucceeded => mret (Some 0)
    | RunFailed => mret (Some 1)
    end
  end.

Definition runs_url (job : string) : string := job_url job +:+ "/runs".
Definition run_to_completion (job : string) : N (option Z) :=
  started ← nf_send_2xx Post (runs_url job) None;
  run_id ← lift (parse_id (rs_body started));
  poll_run (max_poll_attempts cfg) (runs_url job +:+ "/" +:+ run_id).

(** The log lines of one answer, split by stream. *)
Fixpoint split_streams (entries : list Value) : list string * list string :=
  match entries with
  | [] => ([], [])
  | entry :: entries =>
    let '(out, err) := split_streams entries in
    match get entry "log" ≫= as_string with
    | None => (out, err)
    | Some log =>
      match cri_fields log with
      | (Some "stdout", Some msg) => (msg :: out, err)
      | (Some "stderr", Some msg) => (out, msg :: err)
      | _ => (log :: out, err)
      end
    end
  end.

Definition NEWLINE : string := String "010" EmptyString.
Definition fetch_logs (job : string) : N (string * string) :=
  resp ← nf_send_2xx Get (job_url job +:+ "/logs") None;
  match v ← json_of_string (rs_body resp); get v "data" with
  | Some (JArray entries) =>
    let '(out, err) := split_streams entries in mret (join NEWLINE out, join NEWLINE err)
  | _ => mret (rs_body resp, "")
  end.

Definition delete_job (c : RunningContainer) : N unit :=
  resp ← nf_send Delete (job_url (rc_name c)) None;
  if gone_ok resp then mret () else throw (HttpFailed (rs_status resp)).

Definition nf_floors (spec : ContainerSpec) : result CloudError unit :=
  if negb (no_network spec) && negb (allow_egress spec) then Err NotIsolated
  else if negb (is_ok (pin_parse (spec_image spec))) then Err ImageNotPinned
  else if allow_egress spec && (runner_storage_mb cfg <? RUNNER_EPHEMERAL_STORAGE_FLOOR_MB) then Err DiskTooSmall
  else Ok ().

Definition northflank_spawn (spec : ContainerSpec) : N RunningContainer :=
  lift (nf_floors spec);;
  let job_name := northflank_job_name (spec_name spec) in
  nf_send_2xx Post jobs_url (Some (json_to_string (create_job_value spec job_name)));;
  (if run_on_create spec then nf_send_2xx Post (runs_url job_name) None;; mret () else mret ());;
  mret (mkContainer job_name).

Definition northflank_probe (c : RunningContainer) (_ : ContainerSpec) : N IsolationProbe :=
  resp ← nf_send Get (job_url (rc_name c)) None;
  mret (mkProbe (is_success resp) (is_success resp)).

Definition northflank_exec (c : RunningContainer) (argv : list string) : N (option Z) :=
  set_command (rc_name c) argv;;
  run_to_completion (rc_name c).

Definition northflank_exec_captured (c : RunningContainer) (argv : list string) : N CmdOutput :=
  set_command (rc_name c) argv;;
  code ← run_to_completion (rc_name c);
  logs ← fetch_logs (rc_name c);
  mret (mkOut code logs.1 logs.2).

Definition northflank_is_alive (c : RunningContainer) : N bool :=
  resp ← nf_send Get (job_url (rc_name c)) None;
  if is_success resp then mret true
  else if rs_status resp =? 404 then mret false
  else throw (HttpFailed (rs_status resp)).
End northflank.
