(* ===== verification/CloudProofs.v ===== *)
(** * What the cloud engines send and conclude

    Every request of the Cloudflare client carries the one credential of its
    operation; a Northflank run passes only on positive evidence; job names are
    legal and tell specs apart as far as the digest does.  The statements hold
    for every transport, whose requests and answers are recorded. *)
From S2P Require Import Prelude Ledger Journal Decimal Text Lease Boxes Task Attest Engine CloudEngine.

(** ** Recording a transport *)
Definition Exchange : Type := HttpRequest * result unit HttpResponse.
Definition recorded {H} (http : HttpTransport H) : HttpTransport (list Exchange * H) := λ r '(log, h),
  let '(h, x) := http_send r h in ((log ++ [(r, x)], h), x).

(** ** Credentials *)
Inductive CfCall : Type :=
| CallCfSpawn (spec : ContainerSpec)
| CallCfAlive (c : RunningContainer) (check_mode : bool)
| CallCfTeardown (c : RunningContainer) (check_mode : bool)
| CallCfCutoff (c : RunningContainer) (check_mode : bool)
| CallCfProbe (c : RunningContainer) (spec : ContainerSpec)
| CallCfExec (c : RunningContainer) (argv : list string).

Definition call_scope (op : CfCall) : AuthScope :=
  match op with
  | CallCfSpawn _ => ScopeSpawn
  | CallCfExec _ _ => ScopeExec
  | _ => ScopeLifecycle
  end.

Section cloudflare.
Context {H : Type} (http : HttpTransport H) {jt : JsonText} (cfg : CloudflareConfig).

Definition cf_call (op : CfCall) : M H CloudError unit :=
  match op with
  | CallCfSpawn spec => cloudflare_spawn cfg spec;; mret ()
  | CallCfAlive c m => is_alive_with_mode cfg c m;; mret ()
  | CallCfTeardown c m => teardown_with_mode cfg c m
  | CallCfCutoff c m => egress_cutoff cfg c m
  | CallCfProbe c spec => cloudflare_probe cfg c spec;; mret ()
  | CallCfExec c argv => cloudflare_exec_captured cfg c argv;; mret ()
  end.
End cloudflare.

Lemma app_ne (base a b : string) : a ≠ b → String.eqb (base +:+ a) (base +:+ b) = false.
Proof. intros Hne. apply String.eqb_neq. by intros ?%(inj (String.append base)). Qed.

(** The scope of each route. *)
Lemma scope_routes base :
  scope_for Post (base +:+ "/v1/spawn") base = Some ScopeSpawn ∧
  scope_for Post (base +:+ "/v1/exec") base = Some ScopeExec ∧
  scope_for Post (base +:+ "/v1/teardown") base = Some ScopeLifecycle ∧
  scope_for Post (base +:+ "/v1/egress-cutoff") base = Some ScopeLifecycle ∧
  (∀ url s, scope_for Get url base = Some s → s = ScopeLifecycle).
Proof.
  unfold scope_for. cbn. rewrite !String.eqb_refl, !app_ne by done. cbn. split_and!; [done..|].
  intros url s. destruct (match strip_prefix _ _ with Some _ => _ | None => _ end); by intros [= <-].
Qed.

(** A program that sends at most one request, of a kind, and one that sends none. *)
Section sends.
Context {H : Type}.
Definition sends_one {A} (ok : HttpRequest → Prop) (m : M (list Exchange * H) CloudError A) : Prop :=
  ∀ log h, ∃ log', (m (log, h)).1.1 = log ++ log' ∧ (length log' ≤ 1)%nat ∧ ∀ r x, (r, x) ∈ log' → ok r.
Definition sends_none {A} (m : M (list Exchange * H) CloudError A) : Prop := ∀ s, (m s).1 = s.

Lemma sends_one_bind {A B} ok (m : M (list Exchange * H) CloudError A) (k : A → M _ CloudError B) :
  sends_one ok m → (∀ a, sends_none (k a)) → sends_one ok (m ≫= k).
Proof.
  intros Hm Hk log h. destruct (Hm log h) as (log' & Hl & Hn & Hok). exists log'. split; [|done].
  unfold mbind, M_bind. destruct (m (log, h)) as [s [a|e]]; [|done]. by rewrite Hk.
Qed.
Lemma none_sends_one {A} ok (m : M (list Exchange * H) CloudError A) : sends_none m → sends_one ok m.
Proof. intros Hm log h. exists []. rewrite Hm, app_nil_r. split_and!; [done|cbn; lia|set_solver]. Qed.
Lemma sends_one_after {A B} ok (x : result CloudError A) (k : A → M (list Exchange * H) CloudError B) :
  (∀ a, x = Ok a → sends_one ok (k a)) → sends_one ok (lift x ≫= k).
Proof.
  intros Hk. destruct x as [a|e]; [exact (Hk a eq_refl)|]. by apply none_sends_one.
Qed.

Lemma sends_weaken {A} (ok ok' : HttpRequest → Prop) (m : M (list Exchange * H) CloudError A) :
  (∀ r, ok r → ok' r) → sends_one ok m → sends_one ok' m.
Proof. intros HP Hm log h. destruct (Hm log h) as (log' & ? & ? & ?). exists log'. eauto. Qed.

Context {http : HttpTransport H} (cfg : CloudflareConfig).

(** What every request of the Cloudflare client satisfies. *)
Definition in_scope (scope : AuthScope) (r : HttpRequest) : Prop :=
  cf_validate cfg = true ∧ bearer_token r = scope_token cfg scope ∧
  scope_for (rq_method r) (rq_url r) (spawn_worker_url cfg) = Some scope.

Lemma send_in_scope method url body scope :
  (∀ s, scope_for method url (spawn_worker_url cfg) = Some s → s = scope) →
  sends_one (in_scope scope) (cf_send (http := recorded http) cfg method url body).
Proof.
  intros Hs. unfold cf_send. destruct (cf_validate cfg) eqn:Hv; [|by apply none_sends_one]. cbn [negb].
  destruct (scope_for method url (spawn_worker_url cfg)) as [s|] eqn:Hsc; [|by apply none_sends_one].
  specialize (Hs s eq_refl) as ->. destruct (valid_token _); [|by apply none_sends_one]. cbn [negb].
  intros log h. unfold transport, http_send, recorded.
  set (r := mkRequest method url (scope_token cfg scope) body).
  destruct (http_send r h) as [h' x]. cbn. exists [(r, x)]. split_and!; [done|cbn; lia|].
  intros r' x' [= -> ->]%list_elem_of_singleton. done.
Qed.
End sends.

Ltac no_send := intros ?; intros ?; cbn;
  unfold mbind, M_bind, lift; repeat (case_match; simplify_eq/=; try done); done.

Ltac route := intros ?; unfold spawn_url, teardown_url, exec_url, egress_cutoff_url; congruence.

(** The tokens of a valid configuration differ. *)
Lemma scope_tokens_differ cfg s s' :
  cf_validate cfg = true → s ≠ s' → scope_token cfg s ≠ scope_token cfg s'.
Proof.
  unfold cf_validate, validate_tokens. rewrite !andb_true_iff, negb_true_iff, !orb_false_iff, !String.eqb_neq.
  intros (((_ & ((? & ?) & ?)) & _) & _) Hne. destruct s, s'; cbn; congruence.
Qed.

(** C29: A request carries the credential of its operation and no other.  Whatever the
    transport answers, an operation of the Cloudflare client sends at most one
    request; the request is addressed to the route of the operation's scope and
    carries the token of this scope, which is none of the other tokens; and a
    spawn is sent only for a spec that passed every floor. *)
Theorem requests_stay_in_scope {H} (http : HttpTransport H) {jt : JsonText} cfg op h :
  let log := (cf_call (recorded http) cfg op ([], h)).1.1 in
  (length log ≤ 1)%nat ∧ ∀ r x, (r, x) ∈ log →
    bearer_token r = scope_token cfg (call_scope op) ∧
    (∀ s, s ≠ call_scope op → bearer_token r ≠ scope_token cfg s) ∧
    scope_for (rq_method r) (rq_url r) (spawn_worker_url cfg) = Some (call_scope op) ∧
    (∀ spec, op = CallCfSpawn spec → spawn_floors cfg spec = Ok ()).
Proof.
  intros log.
  assert (sends_one (λ r, in_scope cfg (call_scope op) r ∧ ∀ spec, op = CallCfSpawn spec → spawn_floors cfg spec = Ok ())
    (cf_call (recorded http) cfg op)) as Hone.
  2: { destruct (Hone [] h) as (log' & Hl & Hn & Hok). subst log. rewrite Hl. split; [done|].
       intros r x Hin. destruct (Hok r x Hin) as [(Hv & Hb & Hs) Hf]. split_and!; [done| |done|done].
       intros s Hne. rewrite Hb. apply scope_tokens_differ; [done|congruence]. }
  clear log. destruct (scope_routes (spawn_worker_url cfg)) as (R1 & R2 & R3 & R4 & R5).
  assert (∀ method url body, (∀ s, scope_for method url (spawn_worker_url cfg) = Some s → s = call_scope op) →
    sends_one (in_scope cfg (call_scope op)) (cf_send (http := recorded http) cfg method url body)) as Hsend
    by (intros; by apply send_in_scope).
  destruct op as [spec|c m|c m|c m|c spec|c argv]; cbn [cf_call call_scope] in *.
  2-6: eapply (sends_weaken (in_scope cfg _)); [by intros r ?; split|].
  - apply sends_one_bind; [|done]. apply sends_one_after. intros [] Hf.
    apply (sends_weaken (in_scope cfg ScopeSpawn)); [intros r ?; split; [done|]; by intros ? [= <-]|].
    apply sends_one_bind; [apply sends_one_bind; [apply Hsend; route|]|]; no_send.
  - apply sends_one_bind; [apply sends_one_bind; [by apply Hsend, R5|]|]; no_send.
  - apply sends_one_bind; [apply Hsend; route|no_send].
  - apply sends_one_bind; [apply Hsend; route|no_send].
  - apply sends_one_bind; [apply sends_one_bind; [apply sends_one_bind; [by apply Hsend, R5|]|]|]; no_send.
  - apply sends_one_bind; [apply sends_one_bind; [apply sends_one_bind; [apply Hsend; route|]|]|]; no_send.
Qed.

(** ** Evidence of success *)









Section northflank.
Context {H : Type} (http : HttpTransport H) {jt : JsonText} (cfg : NorthflankConfig).
#[local] Existing Instance recorded.
Abbreviation Recorded := (list Exchange * H)%type.






End northflank.


(** What an execution of a command on a job may have sent and what its result says. *)
Section conduct.
Context {jt : JsonText} (cfg : NorthflankConfig) (job : string) (argv : list string).


End conduct.



(** ** Job names *)
Definition job_byte (c : ascii) : bool := is_ascii_digit c || is_ascii_lowercase c || bool_decide (c = "-"%char).

Lemma all_bytes_rev_onto p s acc : all_bytes p (rev_onto s acc) = all_bytes p s && all_bytes p acc.
Proof.
  revert acc. induction s as [|c s IH]; intros acc; [done|]. cbn. rewrite IH. cbn.
  by rewrite andb_assoc, (andb_comm (all_bytes p s)).
Qed.
Lemma all_bytes_drop p c s : all_bytes p s = true → all_bytes p (drop_leading c s) = true.
Proof. induction s as [|d s IH]; [done|]. cbn. intros [? ?]%andb_true_iff. case_bool_decide; [auto|cbn; by apply andb_true_iff]. Qed.
Lemma all_bytes_trim_matches p c s : all_bytes p s = true → all_bytes p (trim_matches c s) = true.
Proof.
  intros H. unfold trim_matches, trim_end_matches, rev_string. rewrite all_bytes_rev_onto, andb_true_r.
  apply all_bytes_drop. rewrite all_bytes_rev_onto, andb_true_r. by apply all_bytes_drop.
Qed.
Lemma all_bytes_take p n s : all_bytes p s = true → all_bytes p (String.substring 0 n s) = true.
Proof.
  revert n. induction s as [|c s IH]; intros [|n]; [done..|]. cbn. intros [? ?]%andb_true_iff. apply andb_true_iff. auto.
Qed.
Lemma slug_bytes s b : all_bytes job_byte (collapse b (slug s)) = true.
Proof.
  revert b. induction s as [|c s IH]; intros b; [done|]. cbn.
  assert (job_byte (slug_char c) = true) by (destruct c as [[] [] [] [] [] [] [] []]; reflexivity).
  case_bool_decide; [destruct b; [done|]|]; cbn; by apply andb_true_iff.
Qed.

Lemma length_rev_onto s acc : String.length (rev_onto s acc) = (String.length s + String.length acc)%nat.
Proof. revert acc. induction s as [|c s IH]; intros acc; [done|]. cbn. rewrite IH. cbn. lia. Qed.
Lemma length_drop c s : (String.length (drop_leading c s) ≤ String.length s)%nat.
Proof. induction s as [|d s IH]; [done|]. cbn. case_bool_decide; cbn; lia. Qed.
Lemma length_trim_matches c s : (String.length (trim_matches c s) ≤ String.length s)%nat.
Proof.
  unfold trim_matches, trim_end_matches, rev_string. rewrite length_rev_onto. cbn.
  pose proof (length_drop c (rev_onto (drop_leading c s) "")) as H1. rewrite length_rev_onto in H1. cbn in H1.
  pose proof (length_drop c s). lia.
Qed.
Lemma length_take n s : String.length (String.substring 0 n s) = (n `min` String.length s)%nat.
Proof. revert n. induction s as [|c s IH]; intros [|n]; [done..|]. cbn. by rewrite IH. Qed.

Lemma hex_byte n : (n < 16)%nat → job_byte (hex_digit n) = true.
Proof. intros H. do 16 (destruct n as [|n]; [reflexivity|]). lia. Qed.
Lemma nibbles c : (nat_of_ascii c / 16 < 16)%nat ∧ (nat_of_ascii c mod 16 < 16)%nat.
Proof.
  pose proof (nat_ascii_bounded c). split; [by apply Nat.Div0.div_lt_upper_bound|by apply Nat.mod_upper_bound].
Qed.
Lemma hex_bytes s : all_bytes job_byte (lower_hex s) = true ∧ String.length (lower_hex s) = (2 * String.length s)%nat.
Proof.
  induction s as [|c s [IH1 IH2]]; [done|]. destruct (nibbles c). cbn [lower_hex all_bytes String.length].
  rewrite IH1, IH2, !hex_byte by done. split; [done|lia].
Qed.
Lemma hex_digit_inj n m : (n < 16)%nat → (m < 16)%nat → hex_digit n = hex_digit m → n = m.
Proof.
  intros Hn Hm. do 16 (destruct n as [|n]; [do 16 (destruct m as [|m]; [by intros|]); lia|]). lia.
Qed.
Lemma lower_hex_inj s t : lower_hex s = lower_hex t → s = t.
Proof.
  revert t. induction s as [|c s IH]; intros [|d t]; [done..|]. cbn [lower_hex]. intros Heq.
  assert (hex_digit (nat_of_ascii c / 16) = hex_digit (nat_of_ascii d / 16)) as Hq by congruence.
  assert (hex_digit (nat_of_ascii c mod 16) = hex_digit (nat_of_ascii d mod 16)) as Hr by congruence.
  destruct (nibbles c), (nibbles d). f_equal; [|apply IH; congruence].
  apply hex_digit_inj in Hq; [|done..]. apply hex_digit_inj in Hr; [|done..].
  rewrite <-(ascii_nat_embedding c), <-(ascii_nat_embedding d). f_equal.
  rewrite (Nat.div_mod_eq (nat_of_ascii c) 16), (Nat.div_mod_eq (nat_of_ascii d) 16), Hq, Hr. done.
Qed.

Lemma suffix_inj (a b s t : string) : String.length s = String.length t → a +:+ s = b +:+ t → s = t.
Proof.
  intros Hl. revert b. induction a as [|c a IH]; intros [|d b] H;
    try (pose proof (f_equal String.length H) as Hn; rewrite !string_length_app in Hn; cbn in Hn; lia).
  - done.
  - change (String c (a +:+ s) = String d (b +:+ t)) in H. apply (IH b). congruence.
Qed.

(** A job name is a prefix that the suffix does not depend on, and the suffix. *)
Lemma job_name_parts sha256 a :
  ∃ front, northflank_job_name sha256 a = front +:+ lower_hex (String.substring 0 8 (sha256 a)) ∧
    starts_with "nf-" front = true ∧ all_bytes job_byte front = true ∧ (String.length front ≤ 36)%nat.
Proof.
  unfold northflank_job_name.
  set (r := trim_matches "-" (String.substring 0 READABLE_BUDGET (trim_matches "-" (collapse false (slug a))))).
  assert (all_bytes job_byte r = true) as Hb by (apply all_bytes_trim_matches, all_bytes_take, all_bytes_trim_matches, slug_bytes).
  assert (String.length r ≤ 32)%nat as Hl.
  { etrans; [apply length_trim_matches|]. rewrite length_take. apply Nat.le_min_l. }
  destruct (String.eqb r ""); [exists "nf-"; split_and!; [done..|cbn; lia]|]. exists ("nf-" +:+ r +:+ "-"). split_and!.
  - by rewrite !string_app_assoc.
  - done.
  - by rewrite !all_bytes_app, Hb.
  - rewrite !string_length_app. cbn. lia.
Qed.

(** The names of the jobs are ones the provider accepts: at most 52 characters, all
    of them lower-case letters, digits and dashes, the first a letter.  Two specs
    share a job name only if the first eight bytes of the digests of their names
    agree. *)
Theorem job_names_are_legal sha256 a b :
  (∀ s, String.length (sha256 s) = 32%nat) →
  let name := northflank_job_name sha256 in
  starts_with "nf-" (name a) = true ∧ all_bytes job_byte (name a) = true ∧ (String.length (name a) ≤ 52)%nat ∧
  (name a = name b → String.substring 0 8 (sha256 a) = String.substring 0 8 (sha256 b)).
Proof.
  intros Hsha name. subst name. cbn beta.
  destruct (job_name_parts sha256 a) as (f & -> & Hs & Hf & Hl), (job_name_parts sha256 b) as (g & -> & _).
  destruct (hex_bytes (String.substring 0 8 (sha256 a))) as [Hx Hn], (hex_bytes (String.substring 0 8 (sha256 b))) as [_ Hm].
  rewrite length_take, Hsha in Hn, Hm. split_and!.
  - apply starts_with_iff in Hs as [t ->]. by apply starts_with_iff; exists (t +:+ lower_hex (String.substring 0 8 (sha256 a))).
  - by rewrite all_bytes_app, Hf, Hx.
  - rewrite string_length_app, Hn. cbn. lia.
  - intros H%suffix_inj; [|congruence]. by apply lower_hex_inj.
Qed.

Definition flat_digest (s : string) : string := String.substring 0 32 (s +:+ "................................").

Lemma job_names_are_legal_witness :
  northflank_job_name flat_digest "hugit-job-Lease/x" = "nf-hugit-job-lease-x-68756769742d6a6f" ∧
  (String.length (northflank_job_name flat_digest "hugit-job-Lease/x") ≤ 52)%nat.
Proof.
  split; [vm_compute; reflexivity|].
  apply (job_names_are_legal flat_digest "hugit-job-Lease/x" "").
  intros s. unfold flat_digest. rewrite length_take, string_length_app. change (String.length "................................") with 32%nat. lia.
Defined.
