(* ===== verification/CloudBoxes.v ===== *)
(** * The cloud engines as providers of boxes

    The provisioners of [cloud_exec.rs] over the engines of [cloudflare.rs] and
    [northflank.rs]: the interfaces the provisioners ask for, with the promises
    behind them derived from what the routes of the spawn Worker and the job API do
    with a request.  Which spec a container was started for is not in the
    provider's state; it is kept beside the transport. *)
From S2P Require Import Prelude Ledger Journal Decimal Text Lease Boxes BoxLaws Task Attest Engine CloudEngine.

(** What the callers tell apart of an error. *)
Definition prov_error (e : CloudError) : ProvError :=
  match e with ProviderCapacityError _ => ProvCapacity | _ => ProvFailed end.

(** A transport, with the spec every container was started for. *)
Record Traced (H : Type) : Type := mkTraced { tr_http : H; tr_owner : gmap string string }.
Arguments mkTraced {H}.
Arguments tr_http {H}.
Arguments tr_owner {H}.

Section traced.
Context {H X : Type} (boxes_of : H → gmap string X) (names_of : H → gset string).

(** The names that were not in use before belong to the spec. *)
Definition credit (n : string) (h h' : H) (owner : gmap string string) : gmap string string :=
  gset_to_gmap n (names_of h' ∖ names_of h) ∪ owner.

Definition traced {A} (owner : option string) (m : M H CloudError A) : M (Traced H) ProvError A := λ t,
  let '(h, r) := m (tr_http t) in
  (mkTraced h (match owner with Some n => credit n (tr_http t) h (tr_owner t) | None => tr_owner t end),
   match r with Ok a => Ok a | Err e => Err (prov_error e) end).

(** The containers with an owner. *)
Definition attributed (t : Traced H) : gmap string (string * X) :=
  map_zip_with pair (tr_owner t) (boxes_of (tr_http t)).

Lemma attributed_lookup t c n x :
  attributed t !! c = Some (n, x) ↔ tr_owner t !! c = Some n ∧ boxes_of (tr_http t) !! c = Some x.
Proof. unfold attributed. rewrite map_lookup_zip_with_Some. naive_solver. Qed.

Lemma credit_new n h h' owner c :
  c ∈ names_of h' → c ∉ names_of h → credit n h h' owner !! c = Some n.
Proof. intros H1 H2. apply lookup_union_Some_l, lookup_gset_to_gmap_Some. set_solver. Qed.
Lemma credit_old n h h' owner c : c ∈ names_of h → credit n h h' owner !! c = owner !! c.
Proof. intros H1. apply lookup_union_r, lookup_gset_to_gmap_None. set_solver. Qed.

(** Fewer containers, fewer with an owner. *)
Lemma attributed_fewer h h' owner : boxes_of h' ⊆ boxes_of h → attributed (mkTraced h' owner) ⊆ attributed (mkTraced h owner).
Proof.
  intros Hsub. apply map_subseteq_spec. intros c [n x] [? ?]%attributed_lookup. apply attributed_lookup.
  split; [done|]. by eapply lookup_weaken.
Qed.

(** What is new after a spawn belongs to its spec. *)
Lemma attributed_spawned n h h' owner c y :
  (∀ h, dom (boxes_of h) ⊆ names_of h) →
  (∀ x, boxes_of h' !! c = Some x → boxes_of h !! c = None → c ∉ names_of h) →
  attributed (mkTraced h' (credit n h h' owner)) !! c = Some y →
  (∃ x, y = (n, x) ∧ boxes_of h' !! c = Some x ∧ boxes_of h !! c = None) ∨
  (∃ x, boxes_of h !! c = Some x ∧ boxes_of h' !! c = Some y.2 ∧ owner !! c = Some y.1).
Proof.
  intros Hn Hnew. destruct y as [m x]. intros [Ho Hx]%attributed_lookup. cbn in *. destruct (boxes_of h !! c) as [x0|] eqn:Hc.
  - right. exists x0. rewrite credit_old in Ho; [done|]. by apply Hn, elem_of_dom.
  - left. exists x. rewrite credit_new in Ho; [by injection Ho as ->| |by eapply Hnew]. by apply Hn, elem_of_dom.
Qed.
End traced.

(** ** The spawn Worker *)

(** The mode a body asks for. *)
Definition body_mode (v : Value) : bool :=
  match get v "mode" with Some (JString "check") => true | _ => false end.

(** A body with each key once. *)
Definition wf_body (v : Value) : Prop := match v with JObject fields => NoDup fields.*1 | _ => False end.

(** What the client relies on of the routes of the Worker.  The Worker has tried to
    start containers under some handles, and answers for those of them it has not
    given up, each in the namespace of its mode.  A spawn adds at most one of these,
    in the mode of its body and under a handle that was not tried before; its
    answer names it.  A teardown answered with a success, or with 404, has left no
    such container under the handle in the mode of its body.  Only a spawn adds
    any. *)
Class SpawnWorker (H : Type) {http : HttpTransport H} {jt : JsonText} (cfg : CloudflareConfig) : Type := {
  worker_boxes : H → gmap string bool;
  worker_attempts : H → gset string;
  worker_tried h : dom (worker_boxes h) ⊆ worker_attempts h;
  worker_spawn v token h h' x :
    wf_body v →
    http_send (mkRequest Post (spawn_url cfg) token (Some (json_to_string v))) h = (h', x) →
    (∀ c m, worker_boxes h' !! c = Some m →
       worker_boxes h !! c = Some m ∨ (c ∉ worker_attempts h ∧ m = body_mode v)) ∧
    (∀ resp c, x = Ok resp → is_success resp = true → parse_handle (rs_body resp) = Ok c →
       c ∉ worker_attempts h ∧ worker_boxes h' ⊆ <[c := body_mode v]> (worker_boxes h));
  worker_teardown v c token h h' x :
    wf_body v →
    http_send (mkRequest Post (teardown_url cfg) token (Some (json_to_string v))) h = (h', x) →
    get v "handle" = Some (JString c) →
    worker_boxes h' ⊆ worker_boxes h ∧
    (∀ resp, x = Ok resp → gone_ok resp = true → worker_boxes h' !! c ≠ Some (body_mode v));
  worker_status handle token h h' x :
    http_send (mkRequest Get (status_url cfg handle) token None) h = (h', x) →
    worker_boxes h' ⊆ worker_boxes h;
}.

Section worker.
Context {H : Type} {http : HttpTransport H} {jt : JsonText} (cfg : CloudflareConfig) {worker : SpawnWorker H cfg}.

Lemma untried h c : c ∉ worker_attempts h → worker_boxes h !! c = None.
Proof. intros Hc. apply not_elem_of_dom. intros ?%worker_tried. done. Qed.
Lemma spawn_value_wf spec : wf_body (spawn_value cfg spec).
Proof. unfold spawn_value. destruct (check_host_toolchain_digest spec); cbn; apply (bool_decide_unpack _); vm_compute; done. Qed.
Lemma handle_body_wf c mode : wf_body (handle_body c mode).
Proof. destruct mode; cbn; apply (bool_decide_unpack _); vm_compute; done. Qed.

#[export] Instance CloudflareEngineApi : CloudflareApi (Traced H) := {|
  cf_spawn spec := traced worker_attempts (Some (spec_name spec)) (c ← cloudflare_spawn cfg spec; mret (rc_name c));
  cf_teardown_with_mode c mode := traced worker_attempts None (teardown_with_mode cfg (mkContainer c) mode);
  cf_is_alive_with_mode c mode := traced worker_attempts None (is_alive_with_mode cfg (mkContainer c) mode);
  cf_provider_domain _ := spawn_worker_url cfg;
|}.

(** A request is sent, or nothing happens. *)
Lemma cf_send_cases method url body h :
  (∃ e, cf_send cfg method url body h = (h, Err e)) ∨
  (∃ token h' x, http_send (mkRequest method url token body) h = (h', x) ∧
     cf_send cfg method url body h = (h', match x with Ok resp => Ok resp | Err _ => Err TransportFailed end)).
Proof.
  unfold cf_send. destruct (negb _); [left; by eexists|]. destruct (scope_for _ _ _) as [s|]; [|left; by eexists].
  destruct (negb _); [left; by eexists|]. right. unfold transport.
  destruct (http_send (mkRequest method url (scope_token cfg s) body) h) as [h' x] eqn:Hs. by exists (scope_token cfg s), h', x.
Qed.

(** Past the floors the mode is that of the egress grant. *)
Lemma floors_mode spec :
  spawn_floors cfg spec = Ok () → body_mode (spawn_value cfg spec) = negb (allow_egress spec).
Proof.
  assert (body_mode (spawn_value cfg spec) = is_check_spec spec) as ->.
  { unfold spawn_value, is_check_spec. by destruct (check_host_toolchain_digest spec). }
  unfold spawn_floors. destruct (negb (no_network spec) && _); [done|]. destruct (negb (is_ok _)); [done|].
  destruct (allow_egress spec && _); [done|].
  assert (allow_egress spec = true → is_check_spec spec = false) as Hn.
  { unfold is_check_spec, check_host_toolchain_digest. by intros ->. }
  destruct (allow_egress spec), (is_check_spec spec); try done. by rewrite Hn.
Qed.

(** What a spawn does to the containers, and what a success says. *)
Lemma cloudflare_spawn_boxes spec h h' r :
  cloudflare_spawn cfg spec h = (h', r) →
  (∀ c m, worker_boxes h' !! c = Some m →
     worker_boxes h !! c = Some m ∨ (c ∉ worker_attempts h ∧ m = negb (allow_egress spec))) ∧
  (∀ c, r = Ok c → rc_name c ∉ worker_attempts h ∧
     worker_boxes h' ⊆ <[rc_name c := negb (allow_egress spec)]> (worker_boxes h)).
Proof.
  unfold cloudflare_spawn, cf_send_2xx, mbind, M_bind, lift, mret, M_ret, throw.
  destruct (spawn_floors cfg spec) as [[]|e] eqn:Hf; [|intros [= <- <-]; by split; [left|]].
  rewrite <-(floors_mode spec Hf). unfold spawn_body.
  destruct (cf_send_cases Post (spawn_url cfg) (Some (json_to_string (spawn_value cfg spec))) h)
    as [[e ->]|(token & h1 & x & Hs & ->)]; [intros [= <- <-]; by split; [left|]|].
  apply worker_spawn in Hs as [Hnew Hok]; [|apply spawn_value_wf]. destruct x as [resp|[]]; [|by intros [= <- <-]].
  destruct (is_success resp) eqn:Hsucc; [|by intros [= <- <-]].
  destruct (parse_handle (rs_body resp)) as [handle|e] eqn:Hh; [|by intros [= <- <-]].
  intros [= <- <-]. split; [done|]. intros c [= <-]. by eapply Hok.
Qed.

#[export, program] Instance CloudflareEngineLaws : CloudflareLaws (Traced H) := {|
  cf_running := attributed worker_boxes;
|}.
Next Obligation.
  intros spec t t' c. cbn. unfold traced, mbind, M_bind, mret, M_ret.
  destruct (cloudflare_spawn cfg spec (tr_http t)) as [h' [c'|e]] eqn:Hs; [|done]. intros [= <- <-].
  apply cloudflare_spawn_boxes in Hs as [Hnew Hok]. destruct (Hok c' eq_refl) as [Hnone%untried Hsub]. split.
  - destruct (attributed worker_boxes t !! rc_name c') as [[n m]|] eqn:Ho; [|done].
    apply attributed_lookup in Ho as [_ ?]. congruence.
  - apply map_subseteq_spec. intros c y Hy. apply attributed_spawned in Hy as [(m & -> & Hm & Hno)|(m & Hm & Hm' & Ho)];
      [| |apply worker_tried|by intros m [?|[? _]]%Hnew; congruence].
    + eapply lookup_weaken in Hm; [|exact Hsub]. rewrite lookup_insert_Some in Hm.
      destruct Hm as [[<- <-]|[_ ?]]; [by rewrite lookup_insert_eq|congruence].
    + rewrite lookup_insert_ne by congruence. destruct y as [n m']. apply attributed_lookup. split; [done|].
      cbn in Hm'. eapply lookup_weaken in Hm'; [|exact Hsub]. by rewrite lookup_insert_ne in Hm' by congruence.
Qed.
Next Obligation.
  intros spec t t' x c y. cbn. unfold traced, mbind, M_bind, mret, M_ret.
  destruct (cloudflare_spawn cfg spec (tr_http t)) as [h' [c'|e]] eqn:Hs; [done|]. intros [= <- _].
  apply cloudflare_spawn_boxes in Hs as [Hnew _].
  intros [(m & -> & Hm & Hno)|(m & Hm & Hm' & Ho)]%attributed_spawned;
    [| |apply worker_tried|by intros m [?|[? _]]%Hnew; congruence].
  - right. destruct (Hnew c m Hm) as [?|[_ ->]]; [congruence|done].
  - left. destruct y as [n m']. apply attributed_lookup. split; [done|].
    destruct (Hnew _ _ Hm') as [?|[?%untried _]]; [done|congruence].
Qed.
Next Obligation.
  intros c mode t. cbn. unfold traced, teardown_with_mode, mbind, M_bind, mret, M_ret, throw. destruct t as [h owner].
  cbn [tr_http tr_owner].
  destruct (cf_send_cases Post (teardown_url cfg) (Some (json_to_string (handle_body (mkContainer c) mode))) h)
    as [[e ->]|(token & h1 & x & Hs & ->)]; [by split|].
  apply (worker_teardown _ c) in Hs as [Hsub Hgone]; [|apply handle_body_wf|done].
  assert (body_mode (handle_body (mkContainer c) mode) = mode) as Hm by by destruct mode. rewrite Hm in Hgone.
  pose proof (attributed_fewer worker_boxes h h1 owner Hsub) as Hfew.
  destruct x as [resp|[]]; [|by split]. destruct (gone_ok resp) eqn:Hg; [|by split]. split; [done|].
  intros _ n [_ Hc]%attributed_lookup. by eapply Hgone.
Qed.
Next Obligation.
  intros c mode [h owner]. cbn. unfold traced, is_alive_with_mode, mbind, M_bind, mret, M_ret, throw.
  cbn [tr_http tr_owner rc_name].
  set (url := (status_url cfg c +:+ if mode then "?mode=check" else "")).
  assert (∃ handle, url = status_url cfg handle) as [handle Hu].
  { exists (c +:+ if mode then "?mode=check" else ""). unfold url, status_url. by rewrite !string_app_assoc. }
  destruct (cf_send_cases Get url None h) as [[e ->]|(token & h1 & x & Hs & ->)]; [done|].
  rewrite Hu in Hs. apply worker_status in Hs as Hsub. pose proof (attributed_fewer worker_boxes h h1 owner Hsub) as Hfew.
  destruct x as [resp|[]]; [|done]. destruct (is_success resp); [done|]. by destruct (_ =? _).
Qed.
End worker.

(** ** The job API *)

(** A job exists from its creation to its deletion, whether it runs or not.  A
    creation makes at most the job it names, and is refused for a name in use; a
    deletion answered with a success, or with 404, has left no job under the name;
    no other request makes a job. *)
Class JobApi (H : Type) {http : HttpTransport H} {jt : JsonText} (cfg : NorthflankConfig) : Type := {
  jobs : H → gmap string unit;
  api_create v j token h h' x :
    http_send (mkRequest Post (jobs_url cfg) token (Some (json_to_string v))) h = (h', x) →
    get v "name" = Some (JString j) →
    jobs h' ⊆ <[j := ()]> (jobs h) ∧ (∀ resp, x = Ok resp → is_success resp = true → jobs h !! j = None);
  api_trigger j token h h' x :
    http_send (mkRequest Post (runs_url cfg j) token None) h = (h', x) → jobs h' ⊆ jobs h;
  api_read url token h h' x :
    http_send (mkRequest Get url token None) h = (h', x) → jobs h' ⊆ jobs h;
  api_delete j token h h' x :
    http_send (mkRequest Delete (job_url cfg j) token None) h = (h', x) →
    jobs h' ⊆ jobs h ∧ (∀ resp, x = Ok resp → gone_ok resp = true → jobs h' !! j = None);
}.

Lemma insert_unit_subseteq (m : gmap string unit) k : m ⊆ <[k := ()]> m.
Proof. apply map_subseteq_spec. intros c [] Hc. rewrite lookup_insert. by case_decide. Qed.

Section job_api.
Context {H : Type} {http : HttpTransport H} {jt : JsonText} (sha256 : string → string) (cfg : NorthflankConfig).
Context {api : JobApi H cfg}.
Definition job_names (h : H) : gset string := dom (jobs h).

#[export] Instance NorthflankEngineApi : NorthflankApi (Traced H) := {|
  nf_spawn spec := traced job_names (Some (spec_name spec)) (c ← northflank_spawn sha256 cfg spec; mret (rc_name c));
  nf_delete_job c := traced job_names None (delete_job cfg (mkContainer c));
  nf_is_alive c := traced job_names None (northflank_is_alive cfg (mkContainer c));
  nf_provider_domain _ := match provider_domain cfg with Ok d => Ok d | Err e => Err (prov_error e) end;
|}.

Lemma nf_send_2xx_case method url body h :
  ∃ h' x r, http_send (mkRequest method url (nf_token cfg) body) h = (h', x) ∧
    nf_send_2xx cfg method url body h = (h', r) ∧ ∀ resp, r = Ok resp → x = Ok resp ∧ is_success resp = true.
Proof.
  unfold nf_send_2xx, nf_send, transport, mbind, M_bind, mret, M_ret, throw.
  destruct (http_send _ h) as [h' x]. exists h', x. destruct x as [resp|[]]; [|by eexists].
  destruct (is_success resp) eqn:Hs; [eexists; split_and!; [done..|by intros ? [= <-]]|].
  destruct (nf_is_capacity_error _ _); by eexists.
Qed.

(** What a spawn does to the jobs, and what a success says. *)
Lemma northflank_spawn_jobs spec h h' r :
  northflank_spawn sha256 cfg spec h = (h', r) →
  let j := northflank_job_name sha256 (spec_name spec) in
  jobs h' ⊆ <[j := ()]> (jobs h) ∧ (∀ c, r = Ok c → rc_name c = j ∧ jobs h !! j = None).
Proof.
  intros Hs j. revert Hs. unfold northflank_spawn, mbind, M_bind, lift, mret, M_ret, throw. fold j.
  destruct (nf_floors cfg spec) as [[]|e]; [|intros [= <- <-]; by split; [apply insert_unit_subseteq|]].
  destruct (nf_send_2xx_case Post (jobs_url cfg) (Some (json_to_string (create_job_value cfg spec j))) h)
    as (h1 & x1 & r1 & Hc & -> & Hx1).
  apply (api_create _ j) in Hc as [Hsub Hnone]; [|done].
  destruct r1 as [resp|e]; [|by intros [= <- <-]]. destruct (Hx1 resp eq_refl) as [-> Hok].
  destruct (run_on_create spec); [|intros [= <- <-]; split; [done|]; intros c [= <-]; eauto].
  destruct (nf_send_2xx_case Post (runs_url cfg j) None h1) as (h2 & x2 & r2 & Ht & -> & _).
  apply api_trigger in Ht. assert (jobs h2 ⊆ <[j := ()]> (jobs h)) by by transitivity (jobs h1).
  destruct r2 as [?|e]; intros [= <- <-]; (split; [done|]); intros c [= <-]; eauto.
Qed.

Definition job_owners (t : Traced H) : gmap string string := fst <$> attributed jobs t.
Lemma job_owners_lookup t c n :
  job_owners t !! c = Some n ↔ tr_owner t !! c = Some n ∧ is_Some (jobs (tr_http t) !! c).
Proof.
  unfold job_owners. rewrite lookup_fmap, fmap_Some. split.
  - intros ([n' x] & [? ?]%attributed_lookup & ->). eauto.
  - intros [? [x ?]]. exists (n, x). split; [by apply attributed_lookup|done].
Qed.
Lemma job_owners_fewer h h' owner : jobs h' ⊆ jobs h → job_owners (mkTraced h' owner) ⊆ job_owners (mkTraced h owner).
Proof. intros. by apply map_fmap_mono, attributed_fewer. Qed.

#[export, program] Instance NorthflankEngineLaws : NorthflankLaws (Traced H) := {|
  nf_running := job_owners;
|}.
Next Obligation.
  intros spec t t' c. cbn. unfold traced, mbind, M_bind, mret, M_ret.
  destruct (northflank_spawn sha256 cfg spec (tr_http t)) as [h' [c'|e]] eqn:Hs; [|done]. intros [= <- <-].
  apply northflank_spawn_jobs in Hs as [Hsub Hok]. destruct (Hok c' eq_refl) as [-> Hnone].
  set (j := northflank_job_name sha256 (spec_name spec)) in *. split.
  - destruct (job_owners t !! j) as [n|] eqn:Ho; [|done]. apply job_owners_lookup in Ho as [_ [? ?]]. congruence.
  - apply map_subseteq_spec. unfold job_owners. intros c y. rewrite lookup_fmap, fmap_Some. intros (z & Hz & ->).
    apply attributed_spawned in Hz as [(m & -> & Hm & Hno)|(m & Hm & Hm' & Ho)];
      [| |done|by intros m _ ?%not_elem_of_dom].
    + eapply lookup_weaken in Hm; [|exact Hsub]. rewrite lookup_insert_Some in Hm.
      destruct Hm as [[<- _]|[_ ?]]; [by rewrite lookup_insert_eq|congruence].
    + rewrite lookup_insert_ne by congruence. apply job_owners_lookup. eauto.
Qed.
Next Obligation.
  intros spec t t' x c y. cbn. unfold traced, mbind, M_bind, mret, M_ret.
  destruct (northflank_spawn sha256 cfg spec (tr_http t)) as [h' [c'|e]] eqn:Hs; [done|]. intros [= <- _].
  unfold job_owners at 1. rewrite lookup_fmap, fmap_Some. intros (z & Hz & ->).
  apply attributed_spawned in Hz as [(m & -> & Hm & Hno)|(m & Hm & Hm' & Ho)];
    [by right|left|done|by intros m _ ?%not_elem_of_dom].
  apply job_owners_lookup. eauto.
Qed.
Next Obligation.
  intros c [h owner]. cbn. unfold traced, delete_job, nf_send, transport, mbind, M_bind, mret, M_ret, throw.
  cbn [tr_http tr_owner rc_name].
  destruct (http_send (mkRequest Delete (job_url cfg c) (nf_token cfg) None) h) as [h1 x] eqn:Hs.
  apply api_delete in Hs as [Hsub Hgone]. pose proof (job_owners_fewer h h1 owner Hsub) as Hfew.
  destruct x as [resp|[]]; [|by split]. destruct (gone_ok resp) eqn:Hg; [|by split]. split; [done|]. intros _. cbn.
  destruct (job_owners (mkTraced h1 owner) !! c) as [n|] eqn:Ho; [|done].
  apply job_owners_lookup in Ho as [_ [? Hj]]. cbn in Hj. by rewrite (Hgone resp) in Hj.
Qed.
Next Obligation.
  intros t. cbn. unfold provider_domain. by destruct (_ || _).
Qed.
Next Obligation.
  intros c [h owner]. cbn. unfold traced, northflank_is_alive, nf_send, transport, mbind, M_bind, mret, M_ret, throw.
  cbn [tr_http tr_owner rc_name].
  destruct (http_send (mkRequest Get (job_url cfg c) (nf_token cfg) None) h) as [h1 x] eqn:Hs.
  apply api_read in Hs. pose proof (job_owners_fewer h h1 owner Hs) as Hfew.
  destruct x as [resp|[]]; [|done]. destruct (is_success resp); [done|]. by destruct (_ =? _).
Qed.
End job_api.
