(* ===== verification/Worker.v ===== *)
(** * The spawn Worker: [deploy/cloudflare/src/index.ts]

    The control routes of the Worker that the Cloudflare client talks to, as far as
    they start and end containers: authentication by scope, the spawn with its
    retries, the liveness and the teardown of a handle, the cut of its egress, and
    what runs beside the requests, the sweep of abandoned containers and the idle
    backstop of a runner.  Every [await] may give a value, throw, or not come back;
    only the race of a start with its timeout goes on after the last of these.

    What the Worker stands on is a parameter: the containers of the two Durable
    Object namespaces and their SDK, the storage of an object, the KV namespace,
    the clock and the random identifiers.  The lines the Worker logs and the
    counters it bumps are left out, and a request to a route that is not modelled
    here gets no answer.

    The second half says what the platform is documented to do with containers, and
    shows that the routes of the Worker, with what runs beside them, then behave as
    the Cloudflare client needs: the interface [SpawnWorker] of the client is
    implemented by the Worker, reached over a way that may lose requests and
    answers. *)
From stdpp Require Import pretty.
From S2P Require Import Prelude Ledger Journal Decimal Text Lease Boxes Task Attest Engine CloudEngine CloudBoxes.

(** How an [await] goes wrong. *)
Inductive JsError : Type := Threw (message : string) | Hung.

(** [{ envVars }]: a value as it is, or [{...value, ...more}]. *)
Inductive EnvVars : Type :=
| EnvIs (v : option Value)
| EnvSpread (v : option Value) (more : list (string * Value)).

(** [JSON.parse] and [JSON.stringify], and whether a number is other than zero. *)
Class JsJson : Type := {
  js_parse : string → result string Value;
  js_stringify : Value → string;
  js_nonzero : string → bool;
}.

(** The platform.  A container is found by its namespace, [true] for check hosts,
    and its handle; the storage is that of a runner's object. *)
Class ContainerPlatform (P : Type) : Type := {
  random_uuid : P → P * string;
  date_now : P → P * Z;
  wait_ms : Z → P → P;
  object_name : Value → result JsError string;
  container_start : bool → string → EnvVars → M P JsError unit;
  container_stop : bool → string → M P JsError unit;
  container_destroy : bool → string → M P JsError unit;
  container_status : bool → string → M P JsError string;
  set_denied_hosts : bool → string → list string → M P JsError unit;
  super_alarm : string → M P JsError unit;
  storage_get : string → string → M P JsError (option Z);
  storage_put : string → string → Z → M P JsError unit;
  storage_delete : string → string → M P JsError unit;
  kv_put : string → string → Z → M P JsError unit;
  kv_list : string → M P JsError (list string);
  kv_get : string → M P JsError (option string);
  kv_delete : string → M P JsError unit;
}.

(** ** Values of the language *)

(** [!!v]. *)
Definition truthy {js : JsJson} (v : option Value) : bool :=
  match v with
  | None | Some JNull => false
  | Some (JBool b) => b
  | Some (JNumber text _) => js_nonzero text
  | Some (JString s) => negb (String.eqb s "")
  | Some (JArray _) | Some (JObject _) => true
  end.

(** [v.k]. *)
Definition property (v : Value) (k : string) : result JsError (option Value) :=
  match v with JNull => Err (Threw "cannot read a property of null") | _ => Ok (get v k) end.

Definition is_string (v : option Value) (s : string) : bool :=
  match v with Some (JString s') => String.eqb s' s | _ => false end.

(** [new URL(url)]: the path and the query of a URL with an origin. *)
Fixpoint cut_at (stop : ascii → bool) (s : string) : string * string :=
  match s with
  | "" => ("", "")
  | String c s' => if stop c then ("", s) else let '(a, b) := cut_at stop s' in (String c a, b)
  end.
Definition past_origin (url : string) : string :=
  match strip_prefix "https://" url, strip_prefix "http://" url with
  | Some rest, _ | None, Some rest => (cut_at (one_of "/?#") rest).2
  | None, None => ""
  end.
Definition pathname (url : string) : string :=
  let p := (cut_at (one_of "?#") (past_origin url)).1 in if String.eqb p "" then "/" else p.
Definition search (url : string) : string :=
  match (cut_at (one_of "?#") (past_origin url)).2 with
  | String "?" q => (cut_at (one_of "#") q).1
  | _ => ""
  end.
Definition search_param (k url : string) : option string :=
  let entry e := match split_once "=" e with Some kv => kv | None => (e, "") end in
  snd <$> find (λ kv, String.eqb kv.1 k) (entry <$> split "&" (search url)).

(** [safeEqual]: the bytes are compared without an early end. *)
Fixpoint utf8_bytes (s : string) : list Z :=
  match s with "" => [] | String c s => byte c :: utf8_bytes s end.
Definition safeEqual (a b : string) : bool :=
  if negb (Nat.eqb (String.length a) (String.length b)) then false
  else foldl Z.lor 0 (zip_with Z.lxor (utf8_bytes a) (utf8_bytes b)) =? 0.

(** ** [lib/control_auth.ts] *)

(** The bindings and secrets of a deployment that the control routes read. *)
Record WorkerEnv : Type := mkWorkerEnv {
  CLOUDFLARE_SPAWN_AUTH_TOKEN : option string;
  CLOUDFLARE_EXEC_AUTH_TOKEN : option string;
  CLOUDFLARE_LIFECYCLE_AUTH_TOKEN : option string;
  EXEC_SERVER_AUTH_TOKEN : option string;
  PINNED_IMAGE_DIGEST : option string;
  has_RUNNER_JOB_PATS : bool;
}.

(** The whitespace at the ends of a token is that of ASCII. *)
Definition configured (value : option string) : option string :=
  v ← value; if negb (String.eqb v "") && safeEqual v (trim v) then Some v else None.

(** [/^\/v1\/dir\/([^/]+)\/leaf$/]. *)
Definition matches_segment (dir leaf path : string) : bool :=
  match split "/" path with
  | [""; "v1"; d; x; l] => String.eqb d dir && negb (String.eqb x "") && String.eqb l leaf
  | _ => false
  end.

Definition STATUS_PATH : string := "/v1/status/".

Definition routeDomain (method : Method) (path : string) : option AuthScope :=
  let post := bool_decide (method = Post) in
  let get := bool_decide (method = Get) in
  if post && String.eqb path "/v1/spawn" then Some ScopeSpawn
  else if post && String.eqb path "/v1/exec" then Some ScopeExec
  else if post && String.eqb path "/v1/status" then Some ScopeLifecycle
  else if get && matches_segment "jobs" "status" path then Some ScopeLifecycle
  else if get && starts_with STATUS_PATH path then
    match strip_prefix STATUS_PATH path with
    | Some handle => if String.eqb handle "" then None else Some ScopeLifecycle
    | None => None
    end
  else if post && String.eqb path "/v1/teardown" then Some ScopeLifecycle
  else if post && String.eqb path "/v1/egress-cutoff" then Some ScopeLifecycle
  else if post && String.eqb path "/internal/v1/tenant-suspension" then Some ScopeLifecycle
  else None.

Definition controlAuthed (env : WorkerEnv) (rq : HttpRequest) : bool :=
  match configured (CLOUDFLARE_SPAWN_AUTH_TOKEN env), configured (CLOUDFLARE_EXEC_AUTH_TOKEN env),
        configured (CLOUDFLARE_LIFECYCLE_AUTH_TOKEN env) with
  | Some spawn, Some exec, Some lifecycle =>
    if safeEqual spawn exec || safeEqual spawn lifecycle || safeEqual exec lifecycle then false
    else
      match routeDomain (rq_method rq) (pathname (rq_url rq)) with
      | None => false
      | Some domain =>
        let token := match domain with ScopeSpawn => spawn | ScopeExec => exec | ScopeLifecycle => lifecycle end in
        safeEqual ("Bearer " +:+ bearer_token rq) ("Bearer " +:+ token)
      end
  | _, _, _ => false
  end.

(** ** The state

    The platform, and beside it the history of the handles the Worker has tried to
    start a container under: the namespace of each, and whether the Worker has
    answered for it or has given it up.  Nothing reads the history. *)
Record WorkerState (P : Type) : Type := mkWorker {
  platform : P;
  attempts : gmap string (bool * bool);
}.
Arguments mkWorker {P}.
Arguments platform {P}.
Arguments attempts {P}.

Section worker.
Context {P : Type} {plat : ContainerPlatform P} {js : JsJson} (env : WorkerEnv).
Abbreviation W := (M (WorkerState P) JsError).

Definition on_platform {A} (m : M P JsError A) : W A := λ w,
  let '(p, r) := m (platform w) in (mkWorker p (attempts w), r).
Definition asks_platform {A} (f : P → P * A) : W A := on_platform (λ p, let '(p, a) := f p in (p, Ok a)).
Definition note (handle : string) (ns answered : bool) : W unit := λ w,
  (mkWorker (platform w) (<[handle := (ns, answered)]> (attempts w)), Ok ()).

(** [try { m } catch (e) { h(e.message) }]. *)
Definition try_catch {A} (m : W A) (h : string → W A) : W A := λ w,
  match m w with
  | (w, Err (Threw message)) => h message w
  | x => x
  end.

(** ** [RunnerContainer] and [CheckHostContainer] *)
Definition DURABLE_IDLE_BACKSTOP_MS : Z := 45 * 60 * 1000.
Definition LAST_ACTIVITY_KEY : string := "corelink:lastActivityAt".
Definition SOFT_STOP_COUNT_KEY : string := "corelink:softStopCount".
Definition MAX_SOFT_STOPS_BEFORE_DESTROY : Z := 2.
Definition METADATA_DENYLIST : list string := ["169.254.169.254"; "metadata.google.internal"].

(** Both storage operations are issued; the first that fails decides. *)
Definition noteActivity (handle : string) : W unit := λ w,
  let '(w, now) := asks_platform date_now w in
  match now with
  | Err e => (w, Err e)
  | Ok now =>
    let '(w, a) := on_platform (storage_put handle LAST_ACTIVITY_KEY now) w in
    let '(w, b) := on_platform (storage_delete handle SOFT_STOP_COUNT_KEY) w in
    (w, match a, b with
        | Err (Threw m), _ | _, Err (Threw m) => Err (Threw m)
        | Err Hung, _ | _, Err Hung => Err Hung
        | Ok _, Ok _ => Ok ()
        end)
  end.

Definition startWithEnv (handle : string) (envVars : EnvVars) : W unit :=
  on_platform (container_start false handle envVars);;
  noteActivity handle.

Definition isAlive (ns : bool) (handle : string) : W bool :=
  status ← on_platform (container_status ns handle);
  mret (String.eqb status "running" || String.eqb status "healthy").

Definition cutEgress (ns : bool) (handle : string) : W unit :=
  on_platform (set_denied_hosts ns handle (METADATA_DENYLIST ++ ["*"])).

Definition teardownContainer (ns : bool) (handle : string) : W unit :=
  on_platform (container_destroy ns handle).

Definition enforceDurableIdleBackstop (handle : string) : W unit :=
  last ← on_platform (storage_get handle LAST_ACTIVITY_KEY);
  now ← asks_platform date_now;
  match last with
  | None => on_platform (storage_put handle LAST_ACTIVITY_KEY now)
  | Some last =>
    if now - last <? DURABLE_IDLE_BACKSTOP_MS then mret ()
    else
      running ← try_catch (isAlive false handle) (λ _, mret false);
      if negb running then mret ()
      else
        count ← on_platform (storage_get handle SOFT_STOP_COUNT_KEY);
        let softStops := default 0 count in
        if MAX_SOFT_STOPS_BEFORE_DESTROY <=? softStops then
          on_platform (container_destroy false handle);;
          on_platform (storage_delete handle SOFT_STOP_COUNT_KEY)
        else
          on_platform (storage_put handle SOFT_STOP_COUNT_KEY (softStops + 1));;
          try_catch (on_platform (container_stop false handle)) (λ _, mret ())
  end.

Definition alarm (handle : string) : W unit :=
  try_catch (enforceDurableIdleBackstop handle) (λ _, mret ());;
  on_platform (super_alarm handle).

(** ** Abandoned containers *)
Definition GHOST_KEY_PREFIX : string := "ghost:".
Definition ghostKey (handle : string) : string := GHOST_KEY_PREFIX +:+ handle.
Definition GHOST_TTL_S : Z := 3600.
Definition ghost_ns (ns : bool) : string := if ns then "check" else "runner".

Definition recordGhostContainer (handle : string) (ns : bool) (reason : string) : W unit :=
  if negb (has_RUNNER_JOB_PATS env) then mret ()
  else
    try_catch
      (on_platform (kv_put (ghostKey handle)
        (js_stringify (JObject [("ns", JString (ghost_ns ns)); ("reason", JString reason)])) GHOST_TTL_S))
      (λ _, mret ()).

Definition abandonContainer (handle : string) (ns : bool) (reason : string) : W unit :=
  recordGhostContainer handle ns reason;;
  try_catch (teardownContainer ns handle) (λ _, mret ()).

(** The namespace of a record; a runner's when there is none to read. *)
Definition ghost_record_ns (raw : option string) : result JsError bool :=
  match raw with
  | None | Some "" => Ok false
  | Some raw =>
    match js_parse raw with
    | Err message => Err (Threw message)
    | Ok v => ns ← property v "ns"; mret (is_string ns "check")
    end
  end.

(** One listed key: whether the container is confirmed to be down. *)
Definition sweep_ghost (name : string) : W bool :=
  let handle := String.substring (String.length GHOST_KEY_PREFIX) (String.length name) name in
  ns ← try_catch (raw ← on_platform (kv_get name); lift (ghost_record_ns raw)) (λ _, mret false);
  try_catch (teardownContainer ns handle) (λ _, mret ());;
  alive ← try_catch (isAlive ns handle) (λ _, mret false);
  if (alive : bool) then mret false
  else try_catch (on_platform (kv_delete name)) (λ _, mret ());; mret true.

Fixpoint sweep_ghosts (names : list string) (reaped : nat) : W nat :=
  match names with
  | [] => mret reaped
  | name :: names =>
    down ← sweep_ghost name;
    sweep_ghosts names (if (down : bool) then S reaped else reaped)
  end.

Definition sweepGhostContainers : W nat :=
  if negb (has_RUNNER_JOB_PATS env) then mret 0%nat
  else
    listed ← try_catch (keys ← on_platform (kv_list GHOST_KEY_PREFIX); mret (Some keys)) (λ _, mret None);
    match listed with
    | None => mret 0%nat
    | Some keys => sweep_ghosts keys 0
    end.

(** ** The start of a container *)
Definition SPAWN_MAX_ATTEMPTS : nat := 3.
Definition SPAWN_ATTEMPT_TIMEOUT_MS : Z := 8000.

(** [Promise.race] with the timeout: what does not come back has timed out. *)
Definition race_timeout (m : W unit) : W (result string unit) := λ w,
  match m w with
  | (w, Ok _) => (w, Ok (Ok ()))
  | (w, Err (Threw message)) => (w, Ok (Err message))
  | (w, Err Hung) => (w, Ok (Err ("start timed out after " +:+ pretty SPAWN_ATTEMPT_TIMEOUT_MS +:+ "ms")))
  end.

Section retry.
Context {T : Type} (ns : bool) (provision : Z → W T) (start : string → T → W unit).
Context (abandon : string → T → string → W unit) (maxAttempts : nat).

Fixpoint start_attempts (budget : nat) (attempt : Z) (lastErr : string) : W (string * T * Z) :=
  match budget with
  | 0%nat =>
    throw (Threw ("container start failed after " +:+ pretty (N.of_nat maxAttempts) +:+ " attempts: " +:+ lastErr))
  | S budget =>
    provisioned ← provision attempt;
    handle ← asks_platform random_uuid;
    outcome ← race_timeout (start handle provisioned);
    match outcome with
    | Ok _ => note handle ns true;; mret (handle, provisioned, attempt)
    | Err message =>
      note handle ns false;;
      abandon handle provisioned message;;
      (if Nat.ltb 0 budget then asks_platform (λ p, (wait_ms (300 * attempt) p, ())) else mret ());;
      start_attempts budget (attempt + 1) message
    end
  end.

Definition startWithRetry : W (string * T * Z) := start_attempts maxAttempts 1 "undefined".
End retry.

(** ** The routes *)
Definition json_reply (v : Value) (status : Z) : HttpResponse := mkResponse status (js_stringify v).
Definition error_reply (message : string) (status : Z) : HttpResponse :=
  json_reply (JObject [("error", JString message)]) status.
Definition unauthorized : HttpResponse := error_reply "unauthorized" 401.

(** [includes]. *)
Fixpoint includes (needle s : string) : bool :=
  starts_with needle s || match s with "" => false | String _ s => includes needle s end.

Definition EXEC_SERVER_AUTH_TOKEN_FILE : string := "/run/corelink/exec-server-auth-token".

(** [env.X] as a condition. *)
Definition secret (o : option string) : option string := nonempty o.

(** The two ways to start a container; the rest of the route answers. *)
Definition spawn_check (body : Value) : W HttpResponse :=
  digest ← lift (property body "toolchain_digest");
  if negb (truthy digest) then mret (error_reply "toolchain_digest required when mode==check" 400)
  else
    match secret (EXEC_SERVER_AUTH_TOKEN env) with
    | None => mret (error_reply "EXEC_SERVER_AUTH_TOKEN is not configured; check-host spawn refused" 503)
    | Some execAuthToken =>
      vars ← lift (property body "env");
      started ← startWithRetry true (λ _, mret ())
        (λ h _, on_platform (container_start true h (EnvSpread vars
          [("TOOLCHAIN_DIGEST", default JNull digest);
           ("EXEC_SERVER_AUTH_TOKEN", JString execAuthToken);
           ("EXEC_SERVER_AUTH_TOKEN_FILE", JString EXEC_SERVER_AUTH_TOKEN_FILE)])))
        (λ h _ reason, abandonContainer h true reason) SPAWN_MAX_ATTEMPTS;
      mret (json_reply (JObject [("handle", JString started.1.1)]) 201)
    end.

Definition spawn_runner (body : Value) (image_digest : string) : W HttpResponse :=
  if match secret (PINNED_IMAGE_DIGEST env) with
     | Some pinned => negb (String.eqb image_digest pinned)
     | None => false
     end
  then mret (error_reply "image_digest does not match the deployed pinned image" 409)
  else
    vars ← lift (property body "env");
    started ← startWithRetry false (λ _, mret ()) (λ h _, startWithEnv h (EnvIs vars))
      (λ h _ reason, abandonContainer h false reason) SPAWN_MAX_ATTEMPTS;
    mret (json_reply (JObject [("handle", JString started.1.1)]) 201).

Definition spawn_route (body : Value) : W HttpResponse :=
  image ← lift (property body "image_digest");
  match image with
  | Some (JString image_digest) =>
    if negb (includes "@sha256:" image_digest)
    then mret (error_reply "image_digest must be a content-pinned string (@sha256:)" 400)
    else
      try_catch
        (mode ← lift (property body "mode");
         if is_string mode "check" then spawn_check body else spawn_runner body image_digest)
        (λ message, mret (error_reply ("spawn failed: " +:+ message) 502))
  | _ => mret (error_reply "image_digest must be a content-pinned string (@sha256:)" 400)
  end.

Definition status_route (url : string) : W HttpResponse :=
  match strip_prefix STATUS_PATH (pathname url) with
  | None | Some "" => mret (error_reply "missing handle" 400)
  | Some handle =>
    alive ← isAlive (bool_decide (search_param "mode" url = Some "check")) handle;
    mret (if (alive : bool) then json_reply (JObject [("status", JString "alive")]) 200
          else json_reply (JObject [("status", JString "gone")]) 404)
  end.

(** What [/v1/teardown] and [/v1/egress-cutoff] read of a body. *)
Definition handle_of (body : Value) : result JsError (option Value) := property body "handle".
Definition mode_of (body : Value) : result JsError bool := mode ← property body "mode"; mret (is_string mode "check").

Definition teardown_route (body : Value) : W HttpResponse :=
  handle ← lift (handle_of body);
  match handle with
  | Some h =>
    if negb (truthy handle) then mret (error_reply "missing handle" 400)
    else
      try_catch
        (check ← lift (mode_of body);
         name ← lift (object_name h);
         teardownContainer check name;;
         mret (mkResponse 204 ""))
        (λ _, mret (error_reply "provider teardown unconfirmed" 503))
  | None => mret (error_reply "missing handle" 400)
  end.

Definition egress_cutoff_route (body : Value) : W HttpResponse :=
  handle ← lift (handle_of body);
  match handle with
  | Some h =>
    if negb (truthy handle) then mret (error_reply "missing handle" 400)
    else
      check ← lift (mode_of body);
      name ← lift (object_name h);
      try_catch (cutEgress check name) (λ _, mret ());;
      mret (mkResponse 204 "")
  | None => mret (error_reply "missing handle" 400)
  end.

(** [request.json()] in front of a route. *)
Definition with_json (rq : HttpRequest) (route : Value → W HttpResponse) : W HttpResponse :=
  match js_parse (default "" (json_body rq)) with
  | Err message => mret (error_reply ("invalid JSON body: " +:+ message) 400)
  | Ok body => route body
  end.

(** The routes in front of the control routes. *)
Definition front_route (method : Method) (path : string) : bool :=
  match method with
  | Get => bool_decide (path ∈ ["/internal/v1/normal-intake/uncertain"; "/internal/v1/normal-intake";
                                "/internal/v1/metrics"; "/internal/v1/fleet/busy"])
  | Post => bool_decide (path ∈ ["/internal/v1/normal-intake/reconcile"; "/internal/v1/tenant-suspension";
                                 "/internal/v1/containment/drain"; "/webhook"])
            || matches_segment "leases" "cas-cred" path || matches_segment "leases" "runner-diag" path
  | _ => false
  end.

(** [handleFetch], from the control routes on. *)
Definition handleFetch (rq : HttpRequest) : W HttpResponse :=
  let path := pathname (rq_url rq) in
  let post := bool_decide (rq_method rq = Post) in
  let get := bool_decide (rq_method rq = Get) in
  if front_route (rq_method rq) path then throw Hung
  else if negb (controlAuthed env rq) then mret unauthorized
  else if get && matches_segment "jobs" "status" path then throw Hung
  else if post && String.eqb path "/v1/spawn" then with_json rq spawn_route
  else if post && String.eqb path "/v1/exec" then throw Hung
  else if get && starts_with STATUS_PATH path then status_route (rq_url rq)
  else if post && String.eqb path "/v1/teardown" then with_json rq teardown_route
  else if post && String.eqb path "/v1/egress-cutoff" then with_json rq egress_cutoff_route
  else mret (error_reply "not found" 404).

(** [fetch]: what a route does not catch is an internal error. *)
Definition fetch (rq : HttpRequest) : W HttpResponse :=
  try_catch (handleFetch rq) (λ _, mret (error_reply "internal error" 500)).

(** ** The way to the Worker

    Before a request arrives the cron and the alarms of runners may have run; the
    request may be lost, and so may be its answer. *)
Inductive Background : Type := CronSweep | RunnerAlarm (handle : string).
Definition in_background (b : Background) (w : WorkerState P) : WorkerState P :=
  match b with
  | CronSweep => (sweepGhostContainers w).1
  | RunnerAlarm handle => (alarm handle w).1
  end.

Record Fate : Type := mkFate { before : list Background; arrives : bool; answered : bool }.
Definition no_fault : Fate := mkFate [] true true.

Definition deliver (f : Fate) (rq : HttpRequest) (w : WorkerState P) : WorkerState P * result unit HttpResponse :=
  let w := foldl (λ w b, in_background b w) w (before f) in
  if negb (arrives f) then (w, Err ())
  else
    let '(w, r) := fetch rq w in
    (w, match r with Ok resp => if answered f then Ok resp else Err () | Err _ => Err () end).
End worker.

(** * What the client relies on

    ** What the platform does *)

(** From one state of the platform to the next, for the handles drawn so far: what
    is up was up or on its way, and what is on its way was so already, with one
    container excepted.  What happens under other handles is not restricted. *)
Record dwindles {P} (up coming_up : P → gset (bool * string)) (drawn : P → gset string)
    (but : option (bool * string)) (p p' : P) : Prop := mkDwindles {
  dw_up x : x.2 ∈ drawn p → but ≠ Some x → x ∈ up p' → x ∈ up p ∨ x ∈ coming_up p;
  dw_coming x : x.2 ∈ drawn p → but ≠ Some x → x ∈ coming_up p' → x ∈ coming_up p;
  dw_drawn : drawn p ⊆ drawn p';
}.

(** The containers that are up, those a start was issued for that may still come up,
    and the random identifiers drawn so far.  An identifier is drawn once.  A
    container comes up because of a start of its own, which is over when the start
    has returned; when it fails or does not come back it is not.  A destroy that
    has returned has ended a container that is not on its way up. *)
Class PlatformLaws (P : Type) {plat : ContainerPlatform P} : Type := {
  up : P → gset (bool * string);
  coming_up : P → gset (bool * string);
  drawn : P → gset string;
  law_uuid p :
    dwindles up coming_up drawn None p (random_uuid p).1 ∧
    ((random_uuid p).2 ∉ drawn p) ∧ (random_uuid p).2 ∈ drawn (random_uuid p).1;
  law_start ns c vars p :
    dwindles up coming_up drawn (Some (ns, c)) p (container_start ns c vars p).1 ∧
    (is_ok (container_start ns c vars p).2 = true → (ns, c) ∉ coming_up (container_start ns c vars p).1);
  law_destroy ns c p :
    dwindles up coming_up drawn None p (container_destroy ns c p).1 ∧
    (is_ok (container_destroy ns c p).2 = true → (ns, c) ∉ coming_up p → (ns, c) ∉ up (container_destroy ns c p).1);
  law_name s : object_name (JString s) = Ok s;
  law_now p : dwindles up coming_up drawn None p (date_now p).1;
  law_wait ms p : dwindles up coming_up drawn None p (wait_ms ms p);
  law_stop ns c p : dwindles up coming_up drawn None p (container_stop ns c p).1;
  law_status ns c p : dwindles up coming_up drawn None p (container_status ns c p).1;
  law_deny ns c hosts p : dwindles up coming_up drawn None p (set_denied_hosts ns c hosts p).1;
  law_alarm c p : dwindles up coming_up drawn None p (super_alarm c p).1;
  law_storage_get c k p : dwindles up coming_up drawn None p (storage_get c k p).1;
  law_storage_put c k z p : dwindles up coming_up drawn None p (storage_put c k z p).1;
  law_storage_delete c k p : dwindles up coming_up drawn None p (storage_delete c k p).1;
  law_kv_put k v ttl p : dwindles up coming_up drawn None p (kv_put k v ttl p).1;
  law_kv_list prefix p : dwindles up coming_up drawn None p (kv_list prefix p).1;
  law_kv_get k p : dwindles up coming_up drawn None p (kv_get k p).1;
  law_kv_delete k p : dwindles up coming_up drawn None p (kv_delete k p).1;
}.

(** The strings in an object that one side writes and the other reads. *)
Definition same_strings (v v' : Value) : Prop := ∀ k s, get v' k = Some (JString s) ↔ get v k = Some (JString s).
Class JsonAgrees {jt : JsonText} {js : JsJson} : Prop := {
  worker_reads v : wf_body v → ∃ v', js_parse (json_to_string v) = Ok v' ∧ same_strings v v';
  client_reads v : wf_body v → ∃ v', json_of_string (js_stringify v) = Some v' ∧ same_strings v v';
}.

(** ** Calm operations *)
Create HintDb calm.

Section calm.
Context {P : Type} {plat : ContainerPlatform P} {laws : PlatformLaws P} {js : JsJson} (env : WorkerEnv).
Implicit Types (w : WorkerState P) (p : P).
Abbreviation dwindle := (dwindles up coming_up drawn).

Lemma dwindle_refl but p : dwindle but p p.
Proof. by constructor; auto. Qed.
Lemma dwindle_trans p1 p2 p3 : dwindle None p1 p2 → dwindle None p2 p3 → dwindle None p1 p3.
Proof.
  intros [U1 C1 D1] [U2 C2 D2]. constructor; [| |set_solver].
  - intros x Hx _ Hu. destruct (U2 x) as [?|?]; eauto.
  - intros x Hx _ Hu. eauto.
Qed.
(** A start under a fresh handle does not concern the handles before it. *)
Lemma dwindle_fresh ns c p1 p2 p3 :
  c ∉ drawn p1 → dwindle None p1 p2 → dwindle (Some (ns, c)) p2 p3 → dwindle None p1 p3.
Proof.
  intros Hc [U1 C1 D1] [U2 C2 D2]. assert (∀ x, x.2 ∈ drawn p1 → Some (ns, c) ≠ Some x) as Hne.
  { intros x Hx [= <-]. done. }
  constructor; [| |set_solver].
  - intros x Hx _ Hu. destruct (U2 x) as [?|?]; eauto.
  - intros x Hx _ Hu. eauto.
Qed.

Definition calm w w' : Prop := dwindle None (platform w) (platform w') ∧ attempts w' = attempts w.
Definition calmly {A} (m : M (WorkerState P) JsError A) : Prop := ∀ w, calm w (m w).1.

Lemma calm_refl w : calm w w.
Proof. split; [apply dwindle_refl|done]. Qed.
Lemma calm_trans w1 w2 w3 : calm w1 w2 → calm w2 w3 → calm w1 w3.
Proof. intros [H1 E1] [H2 E2]. split; [by eapply dwindle_trans|congruence]. Qed.

Lemma calmly_ret {A} (a : A) : calmly (mret a).
Proof. intros w. apply calm_refl. Qed.
Lemma calmly_throw {A} e : calmly (A := A) (throw e).
Proof. intros w. apply calm_refl. Qed.
Lemma calmly_lift {A} (r : result JsError A) : calmly (lift r).
Proof. intros w. apply calm_refl. Qed.
Lemma calmly_bind {A B} (m : M (WorkerState P) JsError A) (f : A → M (WorkerState P) JsError B) :
  calmly m → (∀ a, calmly (f a)) → calmly (m ≫= f).
Proof.
  intros Hm Hf w. specialize (Hm w). unfold mbind, M_bind. destruct (m w) as [w1 [a|e]]; [|done].
  eapply calm_trans; [exact Hm|apply Hf].
Qed.
Lemma calmly_try {A} (m : M (WorkerState P) JsError A) h : calmly m → (∀ e, calmly (h e)) → calmly (try_catch m h).
Proof.
  intros Hm Hh w. specialize (Hm w). unfold try_catch. destruct (m w) as [w1 [a|[e|]]]; [done| |done].
  eapply calm_trans; [exact Hm|apply Hh].
Qed.
Lemma calmly_platform {A} (m : M P JsError A) : (∀ p, dwindle None p (m p).1) → calmly (on_platform m).
Proof. intros Hm w. unfold on_platform. specialize (Hm (platform w)). destruct (m (platform w)). done. Qed.
Lemma calmly_asks {A} (f : P → P * A) : (∀ p, dwindle None p (f p).1) → calmly (asks_platform f).
Proof. intros Hf. apply calmly_platform. intros p. specialize (Hf p). by destruct (f p). Qed.
End calm.
#[export] Hint Resolve law_now law_wait law_stop law_status law_deny law_alarm law_storage_get law_storage_put
  law_storage_delete law_kv_put law_kv_list law_kv_get law_kv_delete : calm.
#[export] Hint Resolve calmly_ret calmly_throw calmly_lift calm_refl : calm.

(** Cuts a program into its steps. *)
Ltac calms := repeat first
  [ progress intros
  | apply calmly_bind | apply calmly_try | apply calmly_asks | apply calmly_platform
  | solve [auto with calm] | case_match ].

Section worker_laws.
Context {P : Type} {plat : ContainerPlatform P} {laws : PlatformLaws P} {js : JsJson} (env : WorkerEnv).
Implicit Types (w : WorkerState P) (p : P).
Abbreviation dwindle := (dwindles up coming_up drawn).

Lemma destroy_calm ns c p : dwindle None p (container_destroy ns c p).1.
Proof. apply law_destroy. Qed.
#[local] Hint Resolve destroy_calm : calm.

Lemma isAlive_calm ns c : calmly (P := P) (isAlive ns c).
Proof. unfold isAlive. calms. Qed.
Lemma teardown_calm ns c : calmly (P := P) (teardownContainer ns c).
Proof. unfold teardownContainer. calms. Qed.
#[local] Hint Resolve isAlive_calm teardown_calm : calm.

Lemma noteActivity_calm c : calmly (P := P) (noteActivity c).
Proof.
  intros w. unfold noteActivity. pose proof (calmly_asks date_now law_now w) as H1.
  destruct (asks_platform date_now w) as [w1 [now|e]]; [|done].
  pose proof (calmly_platform _ (law_storage_put c LAST_ACTIVITY_KEY now) w1) as H2.
  destruct (on_platform (storage_put _ _ _) w1) as [w2 a].
  pose proof (calmly_platform _ (law_storage_delete c SOFT_STOP_COUNT_KEY) w2) as H3.
  destruct (on_platform (storage_delete _ _) w2) as [w3 b]. cbn in *. eauto using calm_trans.
Qed.

Lemma abandon_calm c ns reason : calmly (P := P) (abandonContainer env c ns reason).
Proof. unfold abandonContainer, recordGhostContainer. calms. Qed.

Lemma sweep_calm : calmly (P := P) (sweepGhostContainers env).
Proof.
  assert (∀ names n, calmly (P := P) (sweep_ghosts names n)) as Hs.
  { induction names as [|name names IH]; intros n; cbn; [calms|]. apply calmly_bind; [|intros; apply IH].
    unfold sweep_ghost. calms. }
  unfold sweepGhostContainers. case_match; [calms|]. apply calmly_bind; [calms|]. intros [keys|]; [apply Hs|calms].
Qed.

Lemma alarm_calm c : calmly (P := P) (alarm c).
Proof. unfold alarm, enforceDurableIdleBackstop. calms. Qed.

Lemma background_calm bs w : calm w (foldl (λ w b, in_background env b w) w bs).
Proof.
  revert w. induction bs as [|b bs IH]; intros w; [apply calm_refl|]. cbn. eapply calm_trans; [|apply IH].
  destruct b; [apply sweep_calm|apply alarm_calm].
Qed.

(** ** The invariant *)

(** Every handle that was tried is drawn, and a container the Worker answers for is
    not on its way up: its start has returned. *)
Definition worker_ok w : Prop := ∀ c ns k,
  attempts w !! c = Some (ns, k) →
  c ∈ drawn (platform w) ∧ (k = true → (ns, c) ∉ coming_up (platform w)).

(** The containers that are up and that the Worker answers for. *)
Definition containers w : gmap string bool :=
  map_imap (λ c a, if a.2 && bool_decide ((a.1, c) ∈ up (platform w)) then Some a.1 else None) (attempts w).

Lemma containers_lookup w c ns :
  containers w !! c = Some ns ↔ attempts w !! c = Some (ns, true) ∧ (ns, c) ∈ up (platform w).
Proof.
  unfold containers. rewrite map_lookup_imap. destruct (attempts w !! c) as [[ns' []]|]; cbn; [|naive_solver..].
  case_bool_decide; naive_solver.
Qed.

Lemma dwindle_ok w w' : worker_ok w → calm w w' → worker_ok w'.
Proof.
  intros Hok [[_ C D] E] c ns k Hc. rewrite E in Hc. destruct (Hok c ns k Hc) as [Hd Hk]. split; [set_solver|].
  intros ->. intros Hu. apply Hk; [done|]. by apply C.
Qed.

Lemma calm_fewer w w' : worker_ok w → calm w w' → containers w' ⊆ containers w.
Proof.
  intros Hok [[U _ _] E]. apply map_subseteq_spec. intros c ns [Ha Hu]%containers_lookup. rewrite E in Ha.
  apply containers_lookup. split; [done|]. destruct (Hok _ _ _ Ha) as [Hd Hk].
  destruct (U (ns, c)) as [?|?]; [done..|]. by destruct Hk.
Qed.

(** ** A spawn *)

(** The attempts of one spawn: all under fresh handles, and given up but for the one
    that is answered. *)
Record tries (ns : bool) (w w' : WorkerState P) (kept : option string) : Prop := mkTries {
  tr_dwindle : dwindle None (platform w) (platform w');
  tr_ok : worker_ok w';
  tr_new c a : attempts w' !! c = Some a →
    attempts w !! c = Some a ∨ (c ∉ drawn (platform w)) ∧ a = (ns, bool_decide (kept = Some c));
  tr_kept c : kept = Some c → c ∉ drawn (platform w);
}.

Lemma calm_tries ns w w' : worker_ok w → calm w w' → tries ns w w' None.
Proof.
  intros Hok Hc. constructor; [apply Hc|by eapply dwindle_ok| |done]. destruct Hc as [_ ->]. by left.
Qed.

Lemma tries_trans ns w1 w2 w3 kept : tries ns w1 w2 None → tries ns w2 w3 kept → tries ns w1 w3 kept.
Proof.
  intros [D1 O1 N1 _] [D2 O2 N2 K2]. pose proof (dw_drawn _ _ _ _ _ _ D1) as Hd. constructor.
  - by eapply dwindle_trans.
  - done.
  - intros c a Ha. destruct (N2 c a Ha) as [Ha2|[Hf ->]]; [|right; split; [set_solver|done]].
    destruct (N1 c a Ha2) as [?|[Hf ->]]; [by left|right]. split; [done|]. cbn. destruct (decide (kept = Some c)) as [Hk|Hk].
    + exfalso. apply (K2 c Hk). by destruct (O1 _ _ _ Ha2).
    + by rewrite (bool_decide_false (None = _)), (bool_decide_false (kept = _)).
  - intros c Hk. specialize (K2 c Hk). set_solver.
Qed.

(** One attempt, from the drawing of its handle to the note about it. *)
Lemma one_attempt ns w p1 p2 c (k : bool) :
  worker_ok w → c ∉ drawn (platform w) → dwindle None (platform w) p1 → c ∈ drawn p1 →
  dwindle (Some (ns, c)) p1 p2 → (k = true → (ns, c) ∉ coming_up p2) →
  tries ns w (mkWorker p2 (<[c := (ns, k)]> (attempts w))) (if k then Some c else None).
Proof.
  intros Hok Hc D1 Hc1 D2 Hk. assert (dwindle None (platform w) p2) as D by by eapply dwindle_fresh.
  constructor; cbn; [done| | |].
  - intros c' ns' k'. cbn. rewrite lookup_insert_Some. intros [[<- [= <- <-]]|[Hne Ha]].
    + split; [|done]. apply (dw_drawn _ _ _ _ _ _ D2). done.
    + apply (dwindle_ok w (mkWorker p2 (attempts w))) in Ha; [done|done|by split].
  - intros c' a. rewrite lookup_insert_Some. intros [[<- <-]|[Hne Ha]]; [right|by left]. split; [done|].
    destruct k; [by rewrite bool_decide_true|by rewrite bool_decide_false].
  - intros c'. destruct k; [by intros [= <-]|done].
Qed.

Lemma race_run (m : M (WorkerState P) JsError unit) w :
  ∃ r, race_timeout m w = ((m w).1, Ok r) ∧ (is_ok r = true → is_ok (m w).2 = true).
Proof. unfold race_timeout. destruct (m w) as [w1 [[]|[e|]]]; eexists; by split. Qed.

Section retry_laws.
Context {T : Type} (ns : bool) (provision : Z → M (WorkerState P) JsError T).
Context (start : string → T → M (WorkerState P) JsError unit).
Context (abandon : string → T → string → M (WorkerState P) JsError unit) (maxAttempts : nat).
Context (Hprovision : ∀ k, calmly (provision k)) (Habandon : ∀ h t e, calmly (abandon h t e)).
Context (Hstart : ∀ h t w, h ∈ drawn (platform w) →
  dwindle (Some (ns, h)) (platform w) (platform (start h t w).1) ∧ attempts (start h t w).1 = attempts w ∧
  (is_ok (start h t w).2 = true → (ns, h) ∉ coming_up (platform (start h t w).1))).

Lemma start_attempts_tries budget k last w w' r :
  worker_ok w → start_attempts ns provision start abandon maxAttempts budget k last w = (w', r) →
  tries ns w w' (match r with Ok x => Some x.1.1 | Err _ => None end).
Proof.
  revert k last w. induction budget as [|budget IH]; intros k last w Hok; cbn.
  { intros [= <- <-]. apply calm_tries; [done|apply calm_refl]. }
  unfold mbind, M_bind. pose proof (Hprovision k w) as Hp. destruct (provision k w) as [w1 [t|e]];
    [|intros [= <- <-]; by apply calm_tries]. cbn in Hp.
  assert (worker_ok w1) as Hok1 by by eapply dwindle_ok. intros Hr. eapply tries_trans; [by apply calm_tries|].
  revert Hr. unfold asks_platform, on_platform. destruct (law_uuid (platform w1)) as (D1 & Hc & Hc1).
  destruct (random_uuid (platform w1)) as [p1 c]. cbn in *.
  set (w2 := mkWorker p1 (attempts w1)). destruct (race_run (start c t) w2) as (o & -> & Ho).
  destruct (Hstart c t w2 Hc1) as (D2 & Ea & Hcom). destruct (start c t w2) as [w3 r3]. cbn in *.
  pose proof (one_attempt ns w1 p1 (platform w3) c (is_ok o) Hok1 Hc D1 Hc1 D2 (λ H, Hcom (Ho H))) as Hone.
  rewrite <-Ea in Hone. destruct o as [[]|e]; cbn in *.
  { intros [= <- <-]. exact Hone. }
  pose proof (Habandon c t e (mkWorker (platform w3) (<[c := (ns, false)]> (attempts w3)))) as Ha.
  destruct (abandon c t e _) as [w4 [[]|e']]; cbn in Ha.
  2: { intros [= <- <-]. eapply tries_trans; [exact Hone|]. apply calm_tries; [apply (tr_ok _ _ _ _ Hone)|done]. }
  intros Hr. eapply tries_trans; [exact Hone|].
  assert (∃ w5, calm w4 w5 ∧ start_attempts ns provision start abandon maxAttempts budget (k + 1) e w5 = (w', r)) as (w5 & H5 & Hr5).
  { clear IH. destruct budget as [|budget]; [exists w4; split; [apply calm_refl|exact Hr]|].
    eexists. split; [|exact Hr]. split; [apply law_wait|done]. }
  pose proof (calm_trans _ _ _ Ha H5) as Hc5. pose proof (dwindle_ok _ _ (tr_ok _ _ _ _ Hone) Hc5) as Hok5.
  eapply tries_trans; [apply calm_tries; [apply (tr_ok _ _ _ _ Hone)|exact Hc5]|]. by eapply IH.
Qed.
End retry_laws.

(** What a spawn did, and what a success says of it. *)
Definition spawned (ns : bool) w (x : WorkerState P * result JsError HttpResponse) : Prop :=
  ∃ kept, tries ns w x.1 kept ∧
    ∀ resp, x.2 = Ok resp → is_success resp = true →
      ∃ c, kept = Some c ∧ rs_body resp = js_stringify (JObject [("handle", JString c)]).

Lemma spawned_calm ns w x :
  worker_ok w → calm w x.1 → (∀ resp, x.2 = Ok resp → is_success resp = false) → spawned ns w x.
Proof.
  intros Hok Hc Hr. exists None. split; [by apply calm_tries|]. intros resp Hx Hs. by rewrite (Hr resp Hx) in Hs.
Qed.
Lemma spawned_refused ns w message status :
  worker_ok w → is_success (error_reply message status) = false → spawned ns w (w, Ok (error_reply message status)).
Proof. intros Hok Hs. apply spawned_calm; [done|apply calm_refl|]. by intros resp [= <-]. Qed.

(** A failure that a route catches is still one. *)
Lemma spawned_try ns w (m : M (WorkerState P) JsError HttpResponse) h :
  (∀ e, is_success (h e) = false) → spawned ns w (m w) → spawned ns w (try_catch m (λ e, mret (h e)) w).
Proof.
  intros Hh (kept & Ht & Hr). unfold try_catch. destruct (m w) as [w1 [resp|[e|]]]; exists kept; (split; [done|]);
    cbn in *; [done| |done]. intros resp [= <-] Hs. by rewrite Hh in Hs.
Qed.

Lemma startWithEnv_start h vars w :
  h ∈ drawn (platform w) →
  dwindle (Some (false, h)) (platform w) (platform (startWithEnv h vars w).1) ∧
  attempts (startWithEnv h vars w).1 = attempts w ∧
  (is_ok (startWithEnv h vars w).2 = true → (false, h) ∉ coming_up (platform (startWithEnv h vars w).1)).
Proof.
  intros Hh. unfold startWithEnv, mbind, M_bind, on_platform. destruct (law_start false h vars (platform w)) as [D Hc].
  destruct (container_start false h vars (platform w)) as [p1 [[]|e]]; cbn in *; [|done].
  destruct (noteActivity_calm h (mkWorker p1 (attempts w))) as [D2 ->].
  destruct (noteActivity h _) as [w2 r2]. cbn in *. pose proof (dw_drawn _ _ _ _ _ _ D _ Hh) as Hh1. split_and!; [|done|].
  - destruct D as [U C D], D2 as [U2 C2 D2]. constructor; [| |set_solver].
    + intros x Hx Hn Hu. destruct (U2 x) as [?|?]; eauto.
    + eauto.
  - intros _ Hu. apply (Hc eq_refl). by apply (dw_coming _ _ _ _ _ _ D2).
Qed.

Lemma container_start_start ns h vars w :
  dwindle (Some (ns, h)) (platform w) (platform (on_platform (container_start ns h vars) w).1) ∧
  attempts (on_platform (container_start ns h vars) w).1 = attempts w ∧
  (is_ok (on_platform (container_start ns h vars) w).2 = true →
     (ns, h) ∉ coming_up (platform (on_platform (container_start ns h vars) w).1)).
Proof.
  unfold on_platform. destruct (law_start ns h vars (platform w)) as [D Hc]. by destruct (container_start _ _ _ _).
Qed.

(** The start of either route, with the answer that names the handle. *)
Lemma retry_spawned ns (start : string → unit → M (WorkerState P) JsError unit) w :
  worker_ok w →
  (∀ h t w, h ∈ drawn (platform w) →
    dwindle (Some (ns, h)) (platform w) (platform (start h t w).1) ∧ attempts (start h t w).1 = attempts w ∧
    (is_ok (start h t w).2 = true → (ns, h) ∉ coming_up (platform (start h t w).1))) →
  spawned ns w ((started ← startWithRetry ns (λ _, mret ()) start
                   (λ h _ reason, abandonContainer env h ns reason) SPAWN_MAX_ATTEMPTS;
                 mret (json_reply (JObject [("handle", JString started.1.1)]) 201)) w).
Proof.
  intros Hok Hs. unfold mbind, M_bind.
  destruct (startWithRetry _ _ _ _ _ w) as [w' r] eqn:E.
  apply start_attempts_tries in E as Ht; [|by intros; apply calmly_ret|by intros; apply abandon_calm|done..].
  destruct r as [[[c t] k]|e]; eexists; (split; [exact Ht|]); intros resp [= <-] _. by exists c.
Qed.

Lemma spawn_runner_spawned body image w : worker_ok w → spawned false w (spawn_runner env body image w).
Proof.
  intros Hok. unfold spawn_runner. destruct (match secret _ with Some _ => _ | None => _ end); [by apply spawned_refused|].
  unfold lift. unfold mbind at 1, M_bind at 1. destruct (property body "env") as [vars|e].
  - apply retry_spawned; [done|]. intros h _ w1 Hh. by apply startWithEnv_start.
  - apply spawned_calm; [done|apply calm_refl|done].
Qed.

Lemma spawn_check_spawned body w : worker_ok w → spawned true w (spawn_check env body w).
Proof.
  intros Hok. unfold spawn_check, lift. unfold mbind at 1, M_bind at 1.
  destruct (property body "toolchain_digest") as [digest|e]; [|apply spawned_calm; [done|apply calm_refl|done]].
  destruct (negb (truthy digest)); [by apply spawned_refused|].
  destruct (secret _) as [token|]; [|by apply spawned_refused].
  unfold mbind at 1, M_bind at 1. destruct (property body "env") as [vars|e].
  - apply retry_spawned; [done|]. intros h _ w1 Hh. apply container_start_start.
  - apply spawned_calm; [done|apply calm_refl|done].
Qed.

Lemma spawn_route_spawned body w :
  worker_ok w → spawned (is_string (get body "mode") "check") w (spawn_route env body w).
Proof.
  intros Hok. unfold spawn_route, lift. unfold mbind at 1, M_bind at 1.
  destruct (property body "image_digest") as [image|e]; [|apply spawned_calm; [done|apply calm_refl|done]].
  destruct image as [[| | |image| |]|]; try by apply spawned_refused.
  destruct (negb _); [by apply spawned_refused|]. apply spawned_try; [done|].
  unfold mbind, M_bind. destruct body; cbn; [apply spawned_calm; [done|apply calm_refl|done]|by apply spawn_runner_spawned..|].
  destruct (is_string _ _); [by apply spawn_check_spawned|by apply spawn_runner_spawned].
Qed.

(** ** The other routes *)
Lemma teardown_route_calm body : calmly (P := P) (teardown_route body).
Proof. unfold teardown_route. calms; apply teardown_calm. Qed.

(** A teardown that is confirmed, and no other answer reads as one. *)
Lemma teardown_route_gone body c w resp :
  worker_ok w → get body "handle" = Some (JString c) →
  (teardown_route body w).2 = Ok resp → gone_ok resp = true →
  containers (teardown_route body w).1 !! c ≠ Some (is_string (get body "mode") "check").
Proof.
  intros Hok Hh. destruct body as [| | | | |fields]; try done. set (ns := is_string (get (JObject fields) "mode") "check").
  unfold teardown_route, handle_of, mode_of, lift, mbind, M_bind, try_catch, mret, M_ret, result_bind, result_ret.
  cbn [property]. rewrite Hh, law_name. destruct (negb _); [by intros [= <-]|]. fold ns.
  unfold teardownContainer, on_platform. destruct (law_destroy ns c (platform w)) as [_ Hgone].
  destruct (container_destroy ns c (platform w)) as [p1 [[]|[e|]]]; cbn in *; [|by intros [= <-]|done].
  intros _ _ [Ha Hu]%containers_lookup. destruct (Hok _ _ _ Ha) as [_ Hc]. by apply (Hgone eq_refl (Hc eq_refl)).
Qed.

Lemma egress_calm body : calmly (P := P) (egress_cutoff_route body).
Proof. unfold egress_cutoff_route, cutEgress. calms. Qed.
Lemma status_calm url : calmly (P := P) (status_route url).
Proof. unfold status_route. destruct (strip_prefix _ _) as [[]|]; calms; apply isAlive_calm. Qed.

(** ** Requests *)
Lemma with_json_calm rq route : (∀ v, calmly (P := P) (route v)) → calmly (with_json rq route).
Proof. intros Hr. unfold with_json. destruct (js_parse _); [apply Hr|apply calmly_ret]. Qed.

Lemma handleFetch_calm rq :
  ¬ (rq_method rq = Post ∧ pathname (rq_url rq) = "/v1/spawn") → calmly (P := P) (handleFetch env rq).
Proof.
  intros Hn. unfold handleFetch.
  destruct (bool_decide (rq_method rq = Post) && (pathname (rq_url rq) =? "/v1/spawn")%string) eqn:E.
  { apply andb_true_iff in E as [?%bool_decide_eq_true ?%String.eqb_eq]. by destruct Hn. }
  repeat case_match; try by (apply calmly_throw || apply calmly_ret).
  - apply status_calm.
  - apply with_json_calm, teardown_route_calm.
  - apply with_json_calm, egress_calm.
Qed.

Lemma fetch_calm rq :
  ¬ (rq_method rq = Post ∧ pathname (rq_url rq) = "/v1/spawn") → calmly (P := P) (fetch env rq).
Proof. intros Hn. apply calmly_try; [by apply handleFetch_calm|intros; apply calmly_ret]. Qed.

Lemma fetch_spawned rq w :
  worker_ok w → rq_method rq = Post → pathname (rq_url rq) = "/v1/spawn" →
  ∃ ns, spawned ns w (fetch env rq w) ∧
    ∀ v, js_parse (default "" (json_body rq)) = Ok v → ns = is_string (get v "mode") "check".
Proof.
  intros Hok Hm Hp. unfold fetch.
  assert (∃ ns, spawned ns w (handleFetch env rq w) ∧
    ∀ v, js_parse (default "" (json_body rq)) = Ok v → ns = is_string (get v "mode") "check") as (ns & Hs & Hv).
  { unfold handleFetch. rewrite Hm, Hp. cbn -[spawn_route unauthorized]. unfold with_json.
    destruct (js_parse _) as [v|e].
    - exists (is_string (get v "mode") "check"). split; [|by intros ? [= <-]].
      destruct (controlAuthed env rq); [by apply spawn_route_spawned|by apply spawned_refused].
    - exists false. split; [|done]. destruct (controlAuthed env rq); by apply spawned_refused. }
  exists ns. split; [|done]. by apply spawned_try.
Qed.

Lemma fetch_teardown rq v c w resp :
  worker_ok w → rq_method rq = Post → pathname (rq_url rq) = "/v1/teardown" →
  js_parse (default "" (json_body rq)) = Ok v → get v "handle" = Some (JString c) →
  (fetch env rq w).2 = Ok resp → gone_ok resp = true →
  containers (fetch env rq w).1 !! c ≠ Some (is_string (get v "mode") "check").
Proof.
  intros Hok Hm Hp Hv Hc. unfold fetch, try_catch.
  assert (∀ resp, (handleFetch env rq w).2 = Ok resp → gone_ok resp = true →
    containers (handleFetch env rq w).1 !! c ≠ Some (is_string (get v "mode") "check")) as Hh.
  { intros r. unfold handleFetch. rewrite Hm, Hp. cbn -[teardown_route unauthorized]. unfold with_json. rewrite Hv.
    destruct (controlAuthed env rq); cbn -[teardown_route]; [by apply teardown_route_gone|by intros [= <-]]. }
  destruct (handleFetch env rq w) as [w1 [r|[e|]]]; cbn in *; [|by intros [= <-]|done].
  intros [= <-]. by apply Hh.
Qed.

Lemma fetch_ok rq w : worker_ok w → worker_ok (fetch env rq w).1.
Proof.
  intros Hok. destruct (decide (rq_method rq = Post ∧ pathname (rq_url rq) = "/v1/spawn")) as [[Hm Hp]|Hn].
  - destruct (fetch_spawned rq w Hok Hm Hp) as (ns & (kept & Ht & _) & _). apply Ht.
  - eapply dwindle_ok; [done|]. by apply fetch_calm.
Qed.

(** A request on its way. *)
Lemma deliver_cases f rq w :
  ∃ w1, calm w w1 ∧
    (deliver env f rq w = (w1, Err ()) ∨
     ∃ x, deliver env f rq w = ((fetch env rq w1).1, x) ∧ ∀ resp, x = Ok resp → (fetch env rq w1).2 = Ok resp).
Proof.
  unfold deliver. exists (foldl (λ w b, in_background env b w) w (before f)). split; [apply background_calm|].
  destruct (negb (arrives f)); [by left|]. right. destruct (fetch env rq _) as [w2 [resp|e]]; [|by eexists].
  eexists. split; [done|]. intros resp'. by destruct (answered f); intros [= <-].
Qed.

Lemma deliver_ok f rq w : worker_ok w → worker_ok (deliver env f rq w).1.
Proof.
  intros Hok. destruct (deliver_cases f rq w) as (w1 & Hc & [->|(x & -> & _)]); [by eapply dwindle_ok|].
  apply fetch_ok. by eapply dwindle_ok.
Qed.
End worker_laws.

(** ** The Worker behind the client *)

(** A Worker in a state that the invariant holds in, and what will become of the
    requests to it. *)
Record WorkerLink (P : Type) {plat : ContainerPlatform P} {laws : PlatformLaws P} : Type := mkLink {
  link_worker : WorkerState P;
  link_fates : list Fate;
  link_ok : worker_ok link_worker;
}.
Arguments mkLink {P plat laws}.
Arguments link_worker {P plat laws}.
Arguments link_fates {P plat laws}.
Arguments link_ok {P plat laws}.

Definition worker_http {P} {plat : ContainerPlatform P} {laws : PlatformLaws P} {js : JsJson} (env : WorkerEnv) :
    HttpTransport (WorkerLink P) := λ rq l,
  let f := default no_fault (head (link_fates l)) in
  (mkLink (deliver env f rq (link_worker l)).1 (tail (link_fates l)) (deliver_ok env f rq _ (link_ok l)),
   (deliver env f rq (link_worker l)).2).

Lemma cut_at_app stop a c t :
  all_bytes (λ c, negb (stop c)) a = true → stop c = true → cut_at stop (a +:+ String c t) = (a, String c t).
Proof.
  intros Ha Hc. induction a as [|b a IH]; [rewrite string_app_nil_l; cbn; by rewrite Hc|]. rewrite string_app_cons. cbn in *.
  apply andb_true_iff in Ha as [Hb%negb_true_iff Ha]. by rewrite Hb, IH.
Qed.
Lemma cut_at_none stop a : all_bytes (λ c, negb (stop c)) a = true → cut_at stop a = (a, "").
Proof.
  induction a as [|b a IH]; [done|]. cbn. intros [Hb%negb_true_iff Ha]%andb_true_iff. by rewrite Hb, IH.
Qed.

(** A URL that is an origin: a scheme and a host. *)
Definition is_origin (url : string) : bool :=
  match strip_prefix "https://" url, strip_prefix "http://" url with
  | Some host, _ | None, Some host => all_bytes (λ c, negb (one_of "/?#" c)) host
  | None, None => false
  end.

Lemma pathname_at_origin base t :
  is_origin base = true → all_bytes (λ c, negb (one_of "?#" c)) t = true →
  pathname (base +:+ String "/" t) = String "/" t.
Proof.
  intros Hb Ht. assert (past_origin (base +:+ String "/" t) = String "/" t) as Hp.
  { unfold is_origin, past_origin in *. destruct (strip_prefix "https://" base) as [host|] eqn:E1.
    - apply strip_prefix_Some in E1 as ->. rewrite string_app_assoc, strip_prefix_app. by rewrite cut_at_app.
    - destruct (strip_prefix "http://" base) as [host|] eqn:E2; [|done]. apply strip_prefix_Some in E2 as ->.
      rewrite string_app_assoc, strip_prefix_app. cbn -[cut_at one_of]. by rewrite cut_at_app. }
  unfold pathname. rewrite Hp, cut_at_none; [done|]. exact Ht.
Qed.

Lemma is_string_same v v' k s : same_strings v v' → is_string (get v' k) s = is_string (get v k) s.
Proof.
  intros Hs. apply eq_true_iff_eq. unfold is_string.
  assert (∀ o, match o with Some (JString s') => String.eqb s' s | _ => false end = true ↔ o = Some (JString s)) as Ho.
  { intros [[]|]; try done. rewrite String.eqb_eq. naive_solver. }
  by rewrite !Ho.
Qed.
Lemma body_mode_string v : body_mode v = is_string (get v "mode") "check".
Proof. unfold body_mode, is_string. repeat case_match; by simplify_eq/=. Qed.

Section link.
Context {P : Type} {plat : ContainerPlatform P} {laws : PlatformLaws P} {jt : JsonText} {js : JsJson} {agree : JsonAgrees}.
Context (env : WorkerEnv) (cfg : CloudflareConfig) (Horigin : is_origin (spawn_worker_url cfg) = true).
#[local] Instance link_http : HttpTransport (WorkerLink P) := worker_http env.

Lemma parse_handle_told c c' : parse_handle (js_stringify (JObject [("handle", JString c)])) = Ok c' → c' = c.
Proof.
  unfold parse_handle. destruct (client_reads (JObject [("handle", JString c)])) as (v & -> & Hs).
  { cbn. apply NoDup_singleton. }
  rewrite (proj2 (Hs "handle" c)) by done. cbn. destruct (String.eqb c ""); [done|]. cbn. destruct (url_path_safe c); congruence.
Qed.

(** What a spawn adds to the containers the Worker answers for. *)
Lemma tries_containers ns (w w' : WorkerState P) kept :
  worker_ok w → tries ns w w' kept →
  ∀ c m, containers w' !! c = Some m →
    containers w !! c = Some m ∨ (attempts w !! c = None ∧ m = ns ∧ kept = Some c).
Proof.
  intros Hok [[U _ _] _ N _] c m [Ha Hu]%containers_lookup. destruct (N _ _ Ha) as [Ha0|[Hf [= -> Hk]]].
  - left. apply containers_lookup. split; [done|]. destruct (Hok _ _ _ Ha0) as [Hd Hk].
    destruct (U (m, c)) as [?|?]; [done..|]. by destruct Hk.
  - right. split_and!; [|done|by apply (bool_decide_eq_true_1 _)]. destruct (attempts w !! c) as [[ns' k]|] eqn:E; [|done].
    by destruct (Hok _ _ _ E).
Qed.

Lemma kept_untried ns (w w' : WorkerState P) c : worker_ok w → tries ns w w' (Some c) → attempts w !! c = None.
Proof.
  intros Hok [_ _ _ K]. destruct (attempts w !! c) as [[ns' k]|] eqn:E; [|done].
  destruct (Hok _ _ _ E). by destruct (K c).
Qed.

(** The spawn of a body, wherever the request gets to. *)
Lemma deliver_spawn f v token (w : WorkerState P) :
  worker_ok w → wf_body v →
  let rq := mkRequest Post (spawn_url cfg) token (Some (json_to_string v)) in
  ∃ kept, tries (body_mode v) w (deliver env f rq w).1 kept ∧
    ∀ resp c, (deliver env f rq w).2 = Ok resp → is_success resp = true → parse_handle (rs_body resp) = Ok c → kept = Some c.
Proof.
  intros Hok Hv rq. destruct (deliver_cases env f rq w) as (w1 & Hc & [->|(x & -> & Hx)]).
  { exists None. split; [by apply calm_tries|done]. }
  destruct (worker_reads v Hv) as (v' & Hp & Hs). pose proof (dwindle_ok _ _ Hok Hc) as Hok1.
  destruct (fetch_spawned env rq w1) as (ns & (kept & Ht & Hr) & Hns); [done|done|by apply pathname_at_origin|].
  rewrite (Hns v') in Ht by done. rewrite (is_string_same v v' "mode" "check" Hs), <-body_mode_string in Ht.
  exists kept. split; [eapply tries_trans; [by apply calm_tries|done]|].
  intros resp c Hresp%Hx Hsucc. destruct (Hr resp Hresp Hsucc) as (c' & -> & ->). by intros ->%parse_handle_told.
Qed.

#[export, program] Instance worker_implements : SpawnWorker (WorkerLink P) cfg := {|
  worker_boxes l := containers (link_worker l);
  worker_attempts l := dom (attempts (link_worker l));
|}.
Next Obligation. intros l c [m [Ha _]%containers_lookup]%elem_of_dom. by apply elem_of_dom. Qed.
Next Obligation.
  intros v token l l' x Hv. unfold http_send, link_http, worker_http. intros [= <- <-]. cbn.
  set (f := default no_fault (head (link_fates l))).
  destruct (deliver_spawn f v token (link_worker l) (link_ok l) Hv) as (kept & Ht & Hr).
  pose proof (tries_containers _ _ _ _ (link_ok l) Ht) as Hn. split.
  - intros c m Hm. destruct (Hn c m Hm) as [?|(? & -> & _)]; [by left|right]. by rewrite not_elem_of_dom.
  - intros resp c Hx Hs Hc. specialize (Hr resp c Hx Hs Hc) as ->. split.
    { rewrite not_elem_of_dom. eapply kept_untried; [apply link_ok|exact Ht]. }
    apply map_subseteq_spec. intros c' m Hm. destruct (Hn c' m Hm) as [Hold|(_ & -> & [= ->])]; [|by rewrite lookup_insert_eq].
    rewrite lookup_insert_ne; [done|]. intros <-. apply containers_lookup in Hold as [Ha _].
    by rewrite (kept_untried _ _ _ _ (link_ok l) Ht) in Ha.
Qed.
Next Obligation.
  intros v c token l l' x Hv. unfold http_send, link_http, worker_http. intros [= <- <-] Hc. cbn.
  set (f := default no_fault (head (link_fates l))). pose proof (link_ok l) as Hok.
  set (rq := mkRequest Post (teardown_url cfg) token (Some (json_to_string v))).
  assert (pathname (rq_url rq) = "/v1/teardown") as Hp by by apply pathname_at_origin.
  destruct (deliver_cases env f rq (link_worker l)) as (w1 & H1 & [->|(x & -> & Hx)]).
  { split; [by apply calm_fewer|done]. }
  pose proof (dwindle_ok _ _ Hok H1) as Hok1. destruct (worker_reads v Hv) as (v' & Hv' & Hs). cbn. split.
  - apply calm_fewer; [done|]. eapply calm_trans; [done|]. apply fetch_calm. rewrite Hp. by intros [_ ?].
  - intros resp Hresp%Hx Hg. rewrite body_mode_string, <-(is_string_same v v' "mode" "check" Hs).
    eapply fetch_teardown; [done|done|exact Hp|exact Hv'|by apply Hs|exact Hresp|exact Hg].
Qed.
Next Obligation.
  intros handle token l l' x. unfold http_send, link_http, worker_http. intros [= <- <-]. cbn.
  apply calm_fewer; [apply link_ok|]. set (rq := mkRequest Get _ _ _).
  destruct (deliver_cases env (default no_fault (head (link_fates l))) rq (link_worker l)) as (w1 & H1 & [->|(x & -> & _)]); [done|].
  eapply calm_trans; [done|]. apply fetch_calm. by intros [? _].
Qed.
End link.
