(* ===== verification/BillingPush.v ===== *)
(** * The usage push: [corelink_billing.rs], [billing_target.rs]

    Every slot event is handed to the billing target, which pairs an acquisition
    with the end of its lease into one usage record and buffers it; a periodic
    flush posts the buffer in batches and drops a batch only when its receipt
    accounts for every record.  Exports run in the handlers and the flush in its
    own loop, so they interleave at every lock of the target.  The transport is a
    parameter: a state and what a post does to it. *)
From stdpp Require Import pretty.
From S2P Require Import Prelude Tenant ComputeMeter Decimal Text Lease Task CloudEngine.

Definition RUNNER_SLOT_SECONDS_KIND : string := "runner_slot_seconds".
Definition BILLING_SOURCE : string := "corelink-runners/fabricd".

Record UsageEventData : Type := mkUsage {
  u_tenant_id : string;
  u_event_kind : string;
  u_qty : Z;
  u_billing_period : string;
  u_region : string;
  u_source : string;
  u_time_ms : Z;
  u_idem_key : string;
}.
#[export] Instance UsageEventData_eq_dec : EqDecision UsageEventData.
Proof. solve_decision. Defined.

(** The derived serialization, field by field. *)
Definition usage_value (u : UsageEventData) : Value :=
  JObject [("tenant_id", JString (u_tenant_id u)); ("event_kind", JString (u_event_kind u));
           ("qty", jnum (u_qty u)); ("billing_period", JString (u_billing_period u));
           ("region", JString (u_region u)); ("source", JString (u_source u));
           ("time_ms", jnum (u_time_ms u)); ("idem_key", JString (u_idem_key u))].

Record BillingPostResponse : Type := mkPostResponse { ps_status : Z; ps_body : string }.

(** [format!("{:0w}")]. *)
Definition zero_padded (width : nat) (z : Z) : string :=
  let s := pretty z in Nat.iter (width - String.length s) (String "0") s.

(** [None] is the panic of [period_key]. *)
Definition billing_period (at_ms : Z) : option string :=
  key ← period_key at_ms;
  Some (zero_padded 4 (key `div` 100) +:+ "-" +:+ zero_padded 2 (key `mod` 100)).

(** ** The receipt *)
Definition has_exact_json_keys (v : Value) (required optional : list string) : bool :=
  match v with
  | JObject fields =>
    forallb (λ k, bool_decide (is_Some (assoc_get k fields))) required
    && forallb (λ kv, existsb (String.eqb kv.1) required || existsb (String.eqb kv.1) optional) fields
  | _ => false
  end.

Record AckCounts : Type := mkCounts { n_accepted : nat; n_deduped : nat; n_rejected : nat; n_conflicts : nat }.

(** One outcome against its event. *)
Definition check_outcome (index : nat) (outcome : Value) (event : UsageEventData) (n : AckCounts) : option AckCounts :=
  if negb (has_exact_json_keys outcome ["index"; "idem_key"; "outcome"] ["reason"]) then None
  else if negb (bool_decide (get outcome "index" ≫= as_u64_view = Some (Z.of_nat index))) then None
  else if negb (bool_decide (get outcome "idem_key" ≫= as_string = Some (u_idem_key event))) then None
  else
    let reason_present := bool_decide (is_Some (get outcome "reason")) in
    let reasoned := match get outcome "reason" ≫= as_string with Some r => negb (String.eqb r "") | None => false end in
    kind ← get outcome "outcome" ≫= as_string;
    if String.eqb kind "accepted" then
      if reason_present then None
      else Some (mkCounts (S (n_accepted n)) (n_deduped n) (n_rejected n) (n_conflicts n))
    else if String.eqb kind "deduped" then
      if reason_present then None
      else Some (mkCounts (n_accepted n) (S (n_deduped n)) (n_rejected n) (n_conflicts n))
    else if String.eqb kind "rejected" then
      if reasoned then Some (mkCounts (n_accepted n) (n_deduped n) (S (n_rejected n)) (n_conflicts n)) else None
    else if String.eqb kind "conflict" then
      if reasoned then Some (mkCounts (n_accepted n) (n_deduped n) (n_rejected n) (S (n_conflicts n))) else None
    else None.

Fixpoint check_outcomes (index : nat) (outcomes : list Value) (events : list UsageEventData) (n : AckCounts) :
    option AckCounts :=
  match outcomes, events with
  | o :: outcomes, e :: events => n ← check_outcome index o e n; check_outcomes (S index) outcomes events n
  | _, _ => Some n
  end.

(** [read_count]: a count that does not exceed the batch. *)
Definition read_count (v : Value) (name : string) (len : nat) : option nat :=
  c ← get v name ≫= as_u64_view;
  if bool_decide (0 ≤ c ≤ Z.of_nat len) then Some (Z.to_nat c) else None.

Section push.
Context {jt : JsonText}.

(** [validate_billing_ack]. *)
Definition validate_billing_ack (response : BillingPostResponse) (events : list UsageEventData) : bool :=
  match json_of_string (ps_body response) with
  | None => false
  | Some v =>
    has_exact_json_keys v ["outcomes"; "accepted"; "deduped"; "rejected"; "total"] [] &&
    match get v "outcomes" with
    | Some (JArray outcomes) =>
      bool_decide (length outcomes = length events) &&
      match read_count v "accepted" (length events), read_count v "deduped" (length events),
            read_count v "rejected" (length events), read_count v "total" (length events) with
      | Some accepted, Some deduped, Some rejected, Some total =>
        match check_outcomes 0 outcomes events (mkCounts 0 0 0 0) with
        | None => false
        | Some n =>
          bool_decide (accepted = n_accepted n) && bool_decide (deduped = n_deduped n) &&
          bool_decide (rejected = n_rejected n) && bool_decide (total = accepted + deduped)%nat &&
          (ps_status response =?
             (if bool_decide (0 < n_conflicts n)%nat then 409
              else if bool_decide (n_rejected n = length events) then 422 else 202)) &&
          bool_decide (n_rejected n = 0%nat) && bool_decide (n_conflicts n = 0%nat)
        end
      | _, _, _, _ => false
      end
    | _ => false
    end
  end.
End push.

(** ** The target *)
Class BillingPoster (O : Type) : Type :=
  post_batch : string → string → string → O → O * result unit BillingPostResponse.

Record TargetConfig : Type := mkTargetConfig { t_url : string; t_auth : string; t_event_kind : string; t_region : string }.
Definition with_event_kind (url auth region event_kind : string) : TargetConfig := mkTargetConfig url auth event_kind region.
Definition target_new (url auth region : string) : TargetConfig := with_event_kind url auth region RUNNER_SLOT_SECONDS_KIND.

(** [CorelinkBillingTarget::from_env]. *)
Definition target_from_env (get : string → option string) : option TargetConfig :=
  url ← nonempty (get "BILLING_INGEST_URL");
  auth ← nonempty (get "BILLING_INGEST_AUTH_KEY");
  region ← to_ascii_lowercase <$> get "BILLING_REGION";
  if bool_decide (String.length region = 3%nat) && all_bytes is_ascii_lowercase region
  then Some (target_new url auth region) else None.

(** The locked fields, the transport, and all usage buffered so far. *)
Record BillingTarget (O : Type) : Type := mkTarget {
  open_leases : gmap string Z;
  buffer : list UsageEventData;
  flush_locked : bool;
  poster : O;
  enqueued : list UsageEventData;
}.
Arguments mkTarget {O}.
Arguments open_leases {O}.
Arguments buffer {O}.
Arguments flush_locked {O}.
Arguments poster {O}.
Arguments enqueued {O}.

Definition MAX_BATCH : nat := 1024.
Definition MAX_BILLING_BUFFER : N := 100000.

Inductive FlushError : Type := PostFailed | BadStatus (status : Z) | BadReceipt | BufferChanged.

Section target.
Context {P : Type} {http : BillingPoster P} {jt : JsonText} (blake3_hex : string → string) (cfg : TargetConfig).
Abbreviation W := (BillingTarget P).
Implicit Types (w : W).

Definition idem_key (lease_id period : string) : string := blake3_hex (lease_id +:+ "|" +:+ period).

(** The record of a lease that ended. *)
Definition usage_of (ev : SlotOccupancyEvent) (acquired_at_ms : Z) : option UsageEventData :=
  period ← billing_period (ev_at_ms ev);
  Some (mkUsage (as_str (ev_tenant ev)) (t_event_kind cfg) ((ev_at_ms ev -sat acquired_at_ms) `div` 1000)
          period (t_region cfg) BILLING_SOURCE (ev_at_ms ev) (idem_key (ev_lease_id ev) period)).

(** [enqueue_terminal]; a panic leaves the buffer as it was. *)
Definition push_usage (u : UsageEventData) w : W :=
  let full := bool_decide (MAX_BILLING_BUFFER ≤ N.of_nat (length (buffer w)))%N in
  mkTarget (open_leases w) ((if full then tail (buffer w) else buffer w) ++ [u]) (flush_locked w) (poster w) (enqueued w ++ [u]).
Definition enqueue_terminal (ev : SlotOccupancyEvent) (acquired_at_ms : Z) : Task W unit :=
  match usage_of ev acquired_at_ms with
  | None => mret ()
  | Some u => update (push_usage u)
  end.

Definition with_open (f : gmap string Z → gmap string Z) w : W :=
  mkTarget (f (open_leases w)) (buffer w) (flush_locked w) (poster w) (enqueued w).

(** [export]. *)
Definition export (ev : SlotOccupancyEvent) : Task W unit :=
  match ev_kind ev with
  | Acquired => update (with_open (<[ev_lease_id ev := ev_at_ms ev]>))
  | SlotReleased | SlotExpired | SlotCrashed =>
    cached ← atomic (λ w, (with_open (delete (ev_lease_id ev)) w, open_leases w !! ev_lease_id ev));
    match (match cached with Some a => Some a | None => ev_acquired_at_ms ev end) with
    | Some acquired_at_ms => enqueue_terminal ev acquired_at_ms
    | None => mret ()
    end
  end.

(** The flush lock, taken when it is free at one of [waits] looks. *)
Definition set_lock (b : bool) w : W := mkTarget (open_leases w) (buffer w) b (poster w) (enqueued w).
Fixpoint lock_flush (waits : nat) : Task W bool :=
  match waits with
  | O => mret false
  | S waits =>
    free ← atomic (λ w, if flush_locked w then (w, false) else (set_lock true w, true));
    if free : bool then mret true else lock_flush waits
  end.

Definition batch_body (batch : list UsageEventData) : string := json_to_string (JArray (usage_value <$> batch)).

(** The end of a round: the batch is dropped if it still is what the buffer starts
    with. *)
Definition drop_batch (batch : list UsageEventData) w : W * bool :=
  if bool_decide (take (length batch) (buffer w) = batch)
  then (mkTarget (open_leases w) (drop (length batch) (buffer w)) (flush_locked w) (poster w) (enqueued w), true)
  else (w, false).

(** The loop of [flush_now], with at most [rounds] rounds. *)
Fixpoint flush_rounds (rounds : nat) : Task W (option (result FlushError unit)) :=
  match rounds with
  | O => mret None
  | S rounds =>
    batch ← read (λ w, take MAX_BATCH (buffer w));
    match batch with
    | [] => mret (Some (Ok ()))
    | _ =>
      posted ← atomic (λ w,
        let '(o, r) := post_batch (t_url cfg) (t_auth cfg) (batch_body batch) (poster w) in
        (mkTarget (open_leases w) (buffer w) (flush_locked w) o (enqueued w), r));
      match posted with
      | Err _ => mret (Some (Err PostFailed))
      | Ok response =>
        if negb ((ps_status response =? 202) || (ps_status response =? 409) || (ps_status response =? 422))
        then mret (Some (Err (BadStatus (ps_status response))))
        else if negb (validate_billing_ack response batch) then mret (Some (Err BadReceipt))
        else
          dropped ← atomic (drop_batch batch);
          if dropped : bool then flush_rounds rounds else mret (Some (Err BufferChanged))
      end
    end
  end.

(** [flush_now]; [None] is a thread that is still waiting for the lock or still
    flushing. *)
Definition flush_now (waits rounds : nat) : Task W (option (result FlushError unit)) :=
  locked ← lock_flush waits;
  if locked : bool then
    r ← flush_rounds rounds;
    match r with
    | Some r => update (set_lock false);; mret (Some r)
    | None => mret None
    end
  else mret None.

(** Arrivals and schedules. *)
Inductive TargetEvent : Type := Exports (ev : SlotOccupancyEvent) | Flushes (waits rounds : nat) | TargetRuns (k : nat).
Definition target_event (e : TargetEvent) : event W (option (result FlushError unit)) :=
  match e with
  | Exports ev => Spawn (export ev;; mret (Some (Ok ())))
  | Flushes waits rounds => Spawn (flush_now waits rounds)
  | TargetRuns k => Sched k
  end.
Definition target_run (es : list TargetEvent) (o : P) : W :=
  (runtime (target_event <$> es) ([], mkTarget ∅ [] false o [])).2.
End target.
