(* ===== verification/BillingPushProofs.v ===== *)
(** * The usage push: proofs

    A receipt that passes says of every record of its batch, under its key, that
    it was taken.  In every interleaving of exports and flushes the buffer is the
    end of all usage that was ever buffered, and what is no longer there has such a
    receipt, or was pushed out by a full buffer of newer records.  A flush comes to
    an end, and with a service that takes what it is sent it empties the buffer. *)
From stdpp Require Import gmultiset.
From S2P Require Import Prelude Tenant ComputeMeter Decimal Text Lease Task CloudEngine BillingPush.

(** ** The receipt *)

(** An outcome that says the record was taken. *)
Definition vouches (index : nat) (o : Value) (e : UsageEventData) : Prop :=
  get o "index" ≫= as_u64_view = Some (Z.of_nat index) ∧
  get o "idem_key" ≫= as_string = Some (u_idem_key e) ∧
  (get o "outcome" ≫= as_string = Some "accepted" ∨ get o "outcome" ≫= as_string = Some "deduped") ∧
  get o "reason" = None.

Lemma check_outcome_cases index o e n n' :
  check_outcome index o e n = Some n' →
  (n_rejected n ≤ n_rejected n')%nat ∧ (n_conflicts n ≤ n_conflicts n')%nat ∧
  (n_rejected n' = 0%nat → n_conflicts n' = 0%nat → vouches index o e).
Proof.
  unfold check_outcome, vouches. destruct (has_exact_json_keys _ _ _); [|done]. cbn [negb].
  case_bool_decide as Hi; [|done]. case_bool_decide as Hk; [|done]. cbn [negb].
  destruct (get o "outcome" ≫= as_string) as [kind|] eqn:Hkind; [|done]. cbn [mbind option_bind].
  case_bool_decide as Hr.
  - destruct (String.eqb kind "accepted"), (String.eqb kind "deduped"); try done.
    destruct (String.eqb kind "rejected"); [case_match; intros [= <-]; cbn; split_and!; lia|].
    destruct (String.eqb kind "conflict"); [case_match; intros [= <-]; cbn; split_and!; lia|done].
  - assert (get o "reason" = None) as Hn by (destruct (get o "reason"); [by destruct Hr|done]).
    destruct (String.eqb_spec kind "accepted") as [->|]; [intros [= <-]; cbn; naive_solver|].
    destruct (String.eqb_spec kind "deduped") as [->|]; [intros [= <-]; cbn; naive_solver|].
    rewrite Hn. cbn. by destruct (String.eqb kind "rejected"), (String.eqb kind "conflict").
Qed.

Lemma check_outcomes_cases index os es n n' :
  check_outcomes index os es n = Some n' → length os = length es →
  (n_rejected n ≤ n_rejected n')%nat ∧ (n_conflicts n ≤ n_conflicts n')%nat ∧
  (n_rejected n' = 0%nat → n_conflicts n' = 0%nat →
   ∀ i e, es !! i = Some e → ∃ o, os !! i = Some o ∧ vouches (index + i) o e).
Proof.
  revert index es n. induction os as [|o os IH]; intros index [|e es] n; cbn; try done; [by intros [= <-]|].
  destruct (check_outcome index o e n) as [n1|] eqn:H1; [|done]. cbn. intros H2 [= Hl].
  destruct (check_outcome_cases _ _ _ _ _ H1) as (? & ? & Hv), (IH _ _ _ H2 Hl) as (? & ? & Hall).
  split_and!; [lia..|]. intros Hr Hc [|i] e' He.
  - injection He as <-. exists o. rewrite Nat.add_0_r. split; [done|]. apply Hv; lia.
  - destruct (Hall Hr Hc i e' He) as (o' & ? & ?). exists o'. by replace (index + S i)%nat with (S index + i)%nat by lia.
Qed.

Section receipts.
Context {jt : JsonText}.

(** The receipt of a batch that was taken. *)
Definition receipt_for (batch : list UsageEventData) (r : BillingPostResponse) : Prop :=
  ps_status r = 202 ∧ ∃ v outcomes, json_of_string (ps_body r) = Some v ∧
    get v "outcomes" = Some (JArray outcomes) ∧ length outcomes = length batch ∧
    ∀ i e, batch !! i = Some e → ∃ o, outcomes !! i = Some o ∧ vouches i o e.

Lemma valid_ack_is_receipt r batch : batch ≠ [] → validate_billing_ack r batch = true → receipt_for batch r.
Proof.
  intros Hne. unfold validate_billing_ack. destruct (json_of_string (ps_body r)) as [v|] eqn:Hj; [|done].
  destruct (has_exact_json_keys _ _ _); [|done]. cbn [andb].
  destruct (get v "outcomes") as [[| | | |outcomes|]|] eqn:Ho; try done.
  case_bool_decide as Hl; [|done]. cbn [andb].
  destruct (read_count v "accepted" (length batch)) as [a|], (read_count v "deduped" (length batch)) as [d|],
    (read_count v "rejected" (length batch)) as [rj|], (read_count v "total" (length batch)) as [t|]; try done.
  destruct (check_outcomes 0 outcomes batch (mkCounts 0 0 0 0)) as [n|] eqn:Hc; [|done].
  rewrite !andb_true_iff, !bool_decide_eq_true. intros (([_ Hst] & Hrej) & Hcon).
  destruct (check_outcomes_cases _ _ _ _ _ Hc Hl) as (_ & _ & Hv). rewrite Hcon, Hrej in Hst.
  rewrite bool_decide_false in Hst by lia.
  rewrite bool_decide_false in Hst by (destruct batch; [done|cbn; lia]).
  split; [by apply Z.eqb_eq|]. exists v, outcomes. split_and!; [done..|]. by apply Hv.
Qed.
End receipts.

(** ** Every run *)

(** A transport that keeps what was posted and answered. *)
Definition Post : Type := string * string * string * result unit BillingPostResponse.
Definition logged {P} (http : BillingPoster P) : BillingPoster (list Post * P) := λ url auth body '(log, o),
  let '(o, r) := post_batch url auth body o in ((log ++ [(url, auth, body, r)], o), r).

Section runs.
Context {P : Type} (http : BillingPoster P) {jt : JsonText} (blake3_hex : string → string) (cfg : TargetConfig).
Abbreviation W := (BillingTarget (list Post * P)).
Abbreviation Tok := (gmultiset ()).
Implicit Types (w : W) (R : Tok).
#[local] Instance logged_poster : BillingPoster (list Post * P) := logged http.

(** A batch with the record was posted and answered with its receipt. *)
Definition taken (log : list Post) (u : UsageEventData) : Prop :=
  ∃ batch r, (t_url cfg, t_auth cfg, batch_body batch, Ok r) ∈ log ∧ u ∈ batch ∧ receipt_for batch r.

Definition accounted (log : list Post) (buf all : list UsageEventData) : Prop :=
  ∃ n, (n ≤ length all)%nat ∧ buf = drop n all ∧
    ∀ k u, (k < n)%nat → all !! k = Some u → taken log u ∨ (N.of_nat k + MAX_BILLING_BUFFER < N.of_nat (length all))%N.

Definition push_inv w R : Prop := accounted (poster w).1 (buffer w) (enqueued w).
Definition push_rely w R w' R' : Prop := (poster w).1 `prefix_of` (poster w').1.

Lemma taken_mono log log' u : log `prefix_of` log' → taken log u → taken log' u.
Proof.
  intros [t ->] (batch & r & Hin & ? & ?). exists batch, r. split; [|done]. apply elem_of_app. by left.
Qed.

Lemma accounted_log log log' buf all : log `prefix_of` log' → accounted log buf all → accounted log' buf all.
Proof.
  intros Hp (n & Hn & Hb & Hall). exists n. split_and!; [done..|]. intros k u Hk Hu.
  destruct (Hall k u Hk Hu); [left; by eapply taken_mono|by right].
Qed.

(** A record is buffered; the oldest goes when the buffer is full. *)
Lemma accounted_push u w R : push_inv w R → push_inv (push_usage u w) R.
Proof.
  intros (n & Hn & Hb & Hall). unfold push_inv, push_usage, accounted. cbn [poster buffer enqueued].
  pose proof (f_equal length Hb) as Hlen. rewrite length_drop in Hlen. case_bool_decide as Hfull.
  - exists (S n). rewrite length_app. cbn [length]. unfold MAX_BILLING_BUFFER in *. split_and!; [lia| |].
    + rewrite drop_app_le by lia. rewrite Hb. f_equal. rewrite <-Nat.add_1_r, <-drop_drop. by destruct (drop n (enqueued w)).
    + intros k v Hk Hv. rewrite lookup_app_l in Hv by lia. destruct (decide (k = n)) as [->|]; [right; lia|].
      destruct (Hall k v) as [?|?]; [lia|done|by left|right; lia].
  - exists n. rewrite length_app. cbn [length]. unfold MAX_BILLING_BUFFER in *. split_and!; [lia| |].
    + rewrite drop_app_le by lia. by rewrite Hb.
    + intros k v Hk Hv. rewrite lookup_app_l in Hv by lia. destruct (Hall k v Hk Hv) as [?|?]; [by left|right; lia].
Qed.

(** A batch with a receipt is dropped. *)
Lemma accounted_drop batch log buf all :
  (∀ u, u ∈ batch → taken log u) → take (length batch) buf = batch →
  accounted log buf all → accounted log (drop (length batch) buf) all.
Proof.
  intros Ht Hpre (n & Hn & -> & Hall). rewrite drop_drop.
  assert (length batch ≤ length all - n)%nat as Hle.
  { rewrite <-length_drop, <-Hpre at 1. rewrite length_take. lia. }
  exists (n + length batch)%nat. split_and!; [lia|done|]. intros k u Hk Hu.
  destruct (decide (k < n)%nat); [by eapply Hall|]. left. apply Ht. rewrite <-Hpre.
  apply (list_elem_of_lookup_2 _ (k - n)). rewrite lookup_take_lt, lookup_drop by lia.
  by replace (n + (k - n))%nat with k by lia.
Qed.

Abbreviation push_safe t := (handler_ok push_inv push_rely (λ _ : Tok, True) t).
Abbreviation quietly t := (safe push_inv push_rely (λ _ _ _ _, True) (λ _ _, True) ∅ t).

(** An access that keeps the buffer and what was ever buffered. *)
Lemma quiet_access {A} (g : W → W * A) :
  (∀ w, buffer (g w).1 = buffer w ∧ enqueued (g w).1 = enqueued w ∧ poster (g w).1 = poster w) → quietly (atomic g).
Proof.
  intros Hg. apply safe_atomic; [done|]. intros w f w' a E Hi _. exists ∅. destruct (Hg w) as (Hb & He & Hp).
  rewrite E in Hb, He, Hp. cbn in *. unfold push_inv, push_rely. by rewrite Hb, He, Hp.
Qed.
Lemma safe_any {A} r (t : Task W A) : quietly t → safe push_inv push_rely (λ _ _ _ _, True) (λ _ _, True) r t.
Proof.
  intros Ht. eapply safe_post; [|apply (safe_frame _ _ _ _ _ r) in Ht; by rewrite (left_id_L ∅ (⊎)) in Ht]. done.
Qed.
Lemma quiet_seq {A B} (t : Task W A) (k : A → Task W B) : quietly t → (∀ a, quietly (k a)) → quietly (t ≫= k).
Proof. intros Ht Hk. eapply safe_bind; [exact Ht|]. intros a r. by apply safe_any. Qed.

Lemma export_ok ev : quietly (export blake3_hex cfg ev).
Proof.
  assert (∀ a, quietly (enqueue_terminal blake3_hex cfg ev a)) as Ht.
  { intros a. unfold enqueue_terminal. destruct (usage_of _ _ _ _) as [u|]; [|done].
    apply safe_atomic; [done|]. intros w f w' x [= <- <-] Hi _. exists ∅. split_and!; [by apply (accounted_push u w ∅)|by unfold push_rely; cbn|done]. }
  unfold export. destruct (ev_kind ev); [by apply quiet_access|..];
    (apply quiet_seq; [by apply quiet_access|]; intros [a|]; [apply Ht|]; destruct (ev_acquired_at_ms ev); [apply Ht|done]).
Qed.

Lemma stable_taken (batch : list UsageEventData) : stable push_inv push_rely (λ w (_ : Tok), ∀ u, u ∈ batch → taken (poster w).1 u).
Proof. intros w R w' R' Hr _ HK u Hu. eapply taken_mono; [exact Hr|by apply HK]. Qed.

Lemma flush_rounds_ok rounds : quietly (flush_rounds cfg rounds).
Proof.
  induction rounds as [|rounds IH]; [done|]. cbn [flush_rounds]. apply quiet_seq; [by apply quiet_access|].
  intros [|u0 batch']; [done|]. set (batch := u0 :: batch').
  eapply (safe_bind _ _ (λ x (_ : Tok) w (_ : Tok), ∀ r, x = Ok r → validate_billing_ack r batch = true →
    ∀ u, u ∈ batch → taken (poster w).1 u)).
  { apply safe_atomic; [intros x _ w R w' R' Hr Hi HK r Hx Hv; eapply stable_taken; eauto|].
    intros w f w' x Hg Hi _. unfold post_batch, logged_poster, logged in Hg. destruct (poster w) as [log o] eqn:Hp.
    destruct (http (t_url cfg) (t_auth cfg) (batch_body batch) o) as [o' r] eqn:Hh. unfold post_batch in Hg. rewrite Hh in Hg.
    injection Hg as <- <-. exists ∅. unfold push_inv, push_rely in *. rewrite Hp in *. cbn in *.
    split_and!; [eapply accounted_log; [|exact Hi]; by apply prefix_app_r|by apply prefix_app_r|].
    intros r0 -> Hv u Hu. exists batch, r0. split_and!; [apply elem_of_app; right; by apply list_elem_of_singleton|done|].
    by apply valid_ack_is_receipt. }
  intros x r1. destruct x as [response|]; [|done]. destruct (negb _); [done|].
  destruct (validate_billing_ack response batch) eqn:Hv; [cbn [negb]|done].
  eapply (safe_bind _ _ (λ _ _ _ _, True)); [|intros [] r2; [by apply safe_any|done]].
  apply safe_atomic; [done|]. intros w f w' b Hg Hi HK. exists ∅. unfold drop_batch in Hg.
  case_bool_decide as Hpre; injection Hg as <- <-; (split_and!; [|by unfold push_rely; cbn|done]); [|exact Hi].
  change (accounted (poster w).1 (drop (length batch) (buffer w)) (enqueued w)).
  apply accounted_drop; [|done|exact Hi]. by eapply HK.
Qed.

Lemma flush_now_ok waits rounds : quietly (flush_now cfg waits rounds).
Proof.
  unfold flush_now. apply quiet_seq.
  - induction waits as [|waits IH]; [done|]. cbn [lock_flush]. apply quiet_seq; [|by intros []].
    apply quiet_access. intros w. by destruct (flush_locked w).
  - intros []; [|done]. apply quiet_seq; [apply flush_rounds_ok|]. intros [r|]; [|done].
    apply quiet_seq; [by apply quiet_access|done].
Qed.

(** C17: Usage is delivered or kept.  In every interleaving of exports and flushes, with
    any answers of the billing service: the buffer is the end of all usage that
    was ever buffered, in order; and a record that is no longer in it was in a batch
    that the service acknowledged record by record under its key, or at least
    100000 newer records have been buffered since. *)
Theorem usage_is_delivered_or_kept es o :
  let w := target_run blake3_hex cfg es ([], o) in
  ∃ n, buffer w = drop n (enqueued w) ∧
    ∀ k u, (k < n)%nat → enqueued w !! k = Some u →
      (∃ batch r, (t_url cfg, t_auth cfg, batch_body batch, Ok r) ∈ (poster w).1 ∧ u ∈ batch ∧ receipt_for batch r) ∨
      (N.of_nat k + MAX_BILLING_BUFFER < N.of_nat (length (enqueued w)))%N.
Proof.
  intros w. destruct (runtime_invariant push_inv push_rely (λ _ : Tok, True) (target_event blake3_hex cfg <$> es)
    (mkTarget ∅ [] false ([], o) [])) as (R & (n & _ & Hb & Hall) & _).
  - induction es as [|[ev|waits rounds|k] es IH]; cbn; [constructor|constructor; [|done]..|done].
    + eapply safe_post; [done|]. apply quiet_seq; [apply export_ok|done].
    + eapply safe_post; [done|]. apply flush_now_ok.
  - exists 0%nat. split_and!; [done..|]. intros k u Hk. lia.
  - by exists n.
Qed.
End runs.

(** ** One flush *)
Lemma period_key_total z : 0 ≤ z → is_Some (period_key z).
Proof.
  intros Hz. unfold period_key. rewrite Z.quot_div_nonneg by lia. pose proof (civil_from_days_range (z / 86400000)) as Hr.
  destruct (civil_from_days _) as [y m]. destruct Hr as [Hm _]; [apply Z.div_pos; lia|].
  rewrite (proj2 (Z.leb_le _ _)), (proj2 (Z.leb_le _ _)) by lia. eauto.
Qed.

Section alone.
Context {P : Type} {http : BillingPoster P} {jt : JsonText} (blake3_hex : string → string) (cfg : TargetConfig).
Abbreviation W := (BillingTarget P).
Implicit Types (w : W).

(** A service that takes every batch of the buffer. *)
Definition takes_batches (buf : list UsageEventData) : Prop := ∀ n (o : P),
  let batch := take MAX_BATCH (drop n buf) in batch ≠ [] →
  ∃ o' resp, post_batch (t_url cfg) (t_auth cfg) (batch_body batch) o = (o', Ok resp) ∧ validate_billing_ack resp batch = true.

Lemma flush_rounds_run rounds w :
  (length (buffer w) < rounds)%nat →
  ∃ w' r, run_alone (flush_rounds cfg rounds) w = (w', Some r) ∧ (∃ n, buffer w' = drop n (buffer w)) ∧
    (r = Ok () → buffer w' = []) ∧ (takes_batches (buffer w) → r = Ok ()).
Proof.
  revert w. induction rounds as [|rounds IH]; intros w Hlen; [lia|]. cbn [flush_rounds].
  rewrite run_alone_bind. unfold read. rewrite run_alone_atomic. cbn [fst snd].
  destruct (take MAX_BATCH (buffer w)) as [|u batch'] eqn:Hb.
  { exists w, (Ok ()). split_and!; [done|by exists 0%nat|intros _; by destruct (buffer w)|done]. }
  set (batch := u :: batch') in *. rewrite run_alone_bind, run_alone_atomic.
  destruct (post_batch (t_url cfg) (t_auth cfg) (batch_body batch) (poster w)) as [o' posted] eqn:Hp. cbn [fst snd].
  set (w1 := mkTarget _ _ _ _ _).
  assert (takes_batches (buffer w) → ∃ resp, posted = Ok resp ∧ validate_billing_ack resp batch = true) as Htake.
  { intros Ht. specialize (Ht 0%nat (poster w)). cbn zeta in Ht. rewrite drop_0, Hb in Ht.
    destruct Ht as (o2 & resp & Hp2 & Hv); [done|]. rewrite Hp in Hp2. injection Hp2 as _ ->. eauto. }
  assert (∀ e, (takes_batches (buffer w) → False) → ∃ w' r, (w1, Some (Err e : result FlushError unit)) = (w', Some r) ∧
    (∃ n, buffer w' = drop n (buffer w)) ∧ (r = Ok () → buffer w' = []) ∧ (takes_batches (buffer w) → r = Ok ())) as Hfail.
  { intros e Hno. exists w1, (Err e). split_and!; [done|by exists 0%nat|done|done]. }
  destruct posted as [resp|]; [|apply Hfail; intros (? & ? & ?)%Htake; done].
  destruct (validate_billing_ack resp batch) eqn:Hv; cycle 1.
  { destruct (negb (_ || _ || _)); apply Hfail; intros (? & [= <-] & ?)%Htake; congruence. }
  destruct (valid_ack_is_receipt resp batch ltac:(done) Hv) as [Hst _]. rewrite Hst. cbn [Z.eqb Pos.eqb orb negb].
  rewrite run_alone_bind, run_alone_atomic. unfold drop_batch. change (buffer w1) with (buffer w).
  rewrite bool_decide_true; cycle 1.
  { rewrite <-Hb, length_take. destruct (decide (MAX_BATCH ≤ length (buffer w))%nat); [by rewrite Nat.min_l|].
    by rewrite !take_ge by lia. }
  cbn [fst snd]. match goal with |- context [run_alone _ ?x] => set (w2 := x) end.
  destruct (IH w2) as (w' & r & -> & (n & Hn) & Hr).
  { subst w2. cbn [buffer]. rewrite length_drop. assert (0 < length (buffer w))%nat by (destruct (buffer w); [done|cbn; lia]).
    subst batch. cbn [length]. lia. }
  exists w', r. split_and!; [done| |apply Hr|].
  - exists (length batch + n)%nat. rewrite Hn. subst w2. cbn [buffer]. by rewrite drop_drop.
  - intros Ht. apply Hr. intros k o. subst w2. cbn [buffer]. rewrite drop_drop. apply Ht.
Qed.

(** A flush comes to an end.  With more rounds than records it returns, whatever the
    service answers; the lock is free again, and what is left is the end of what was
    there.  It says success only with an empty buffer, and does so if the service
    takes what it is sent. *)
Theorem flush_comes_to_an_end rounds w :
  flush_locked w = false → (length (buffer w) < rounds)%nat →
  ∃ w' r, run_alone (flush_now cfg 1 rounds) w = (w', Some r) ∧ flush_locked w' = false ∧
    (∃ n, buffer w' = drop n (buffer w)) ∧ (r = Ok () → buffer w' = []) ∧
    ((∀ n (o : P), let batch := take MAX_BATCH (drop n (buffer w)) in batch ≠ [] →
        ∃ o' resp, post_batch (t_url cfg) (t_auth cfg) (batch_body batch) o = (o', Ok resp) ∧
          validate_billing_ack resp batch = true) → r = Ok ()).
Proof.
  intros Hfree Hlen. unfold flush_now. rewrite run_alone_bind.
  assert (run_alone (lock_flush 1) w = (set_lock true w, true)) as -> by (cbn; by rewrite Hfree). cbn [fst snd].
  rewrite run_alone_bind.
  destruct (flush_rounds_run rounds (set_lock true w) Hlen) as (w1 & r & Hrun & Hn & Hr & Ht). rewrite Hrun. cbn [fst snd].
  rewrite run_alone_bind. unfold update. rewrite run_alone_atomic. cbn. exists (set_lock false w1), r. by split_and!.
Qed.

(** What is billed is the time the slot was held.  A lease that was acquired under
    this process is billed from that event to its end, whatever other leases did
    in between; after a restart it is billed from the acquisition in the ledger; and
    an end without either is not billed. *)
Theorem usage_measures_the_slot ev w a :
  ev_kind ev ≠ Acquired →
  (open_leases w !! ev_lease_id ev = Some a ∨ (open_leases w !! ev_lease_id ev = None ∧ ev_acquired_at_ms ev = Some a)) →
  (N.of_nat (length (buffer w)) < MAX_BILLING_BUFFER)%N → 0 ≤ ev_at_ms ev →
  ∃ w' u, run_alone (export blake3_hex cfg ev) w = (w', ()) ∧ buffer w' = buffer w ++ [u] ∧
    open_leases w' = delete (ev_lease_id ev) (open_leases w) ∧
    u_tenant_id u = as_str (ev_tenant ev) ∧ u_qty u = Z.max 0 (ev_at_ms ev - a) `div` 1000 ∧
    billing_period (ev_at_ms ev) = Some (u_billing_period u) ∧
    u_idem_key u = blake3_hex (ev_lease_id ev +:+ "|" +:+ u_billing_period u).
Proof.
  intros Hk Hopen Hlen Hat. unfold export.
  assert (∃ u, usage_of blake3_hex cfg ev a = Some u ∧ u_tenant_id u = as_str (ev_tenant ev) ∧
    u_qty u = Z.max 0 (ev_at_ms ev - a) `div` 1000 ∧ billing_period (ev_at_ms ev) = Some (u_billing_period u) ∧
    u_idem_key u = blake3_hex (ev_lease_id ev +:+ "|" +:+ u_billing_period u)) as (u & Hu & Hf).
  { unfold usage_of, billing_period. destruct (period_key_total (ev_at_ms ev)) as [key Hkey]; [lia|]. rewrite Hkey.
    cbn. eexists. by split_and!. }
  assert (run_alone (enqueue_terminal blake3_hex cfg ev a) (with_open (delete (ev_lease_id ev)) w) =
    (push_usage u (with_open (delete (ev_lease_id ev)) w), ())) as Hrun by (unfold enqueue_terminal; by rewrite Hu).
  exists (push_usage u (with_open (delete (ev_lease_id ev)) w)), u. split_and!; [|cbn|done|apply Hf..].
  - destruct (ev_kind ev); [done|..]; rewrite run_alone_bind, run_alone_atomic; cbn [fst snd];
      (destruct Hopen as [->|[-> ->]]; exact Hrun).
  - by rewrite bool_decide_false by (lia).
Qed.
End alone.

(** ** A small service

    Its receipts are read off the length of what was posted. *)
Definition short_receipt (s : string) : Value :=
  let n := String.length s in
  let outcome i := JObject [("index", jnum (Z.of_nat i)); ("idem_key", JString "k"); ("outcome", JString "accepted")] in
  JObject [("outcomes", JArray (outcome <$> seq 0 n)); ("accepted", jnum (Z.of_nat n)); ("deduped", jnum 0);
           ("rejected", jnum 0); ("total", jnum (Z.of_nat n))].
#[local] Instance counting_json : JsonText := {|
  json_to_string v := match v with JArray l => Nat.iter (length l) (String "x") "" | _ => "" end;
  json_of_string s := Some (short_receipt s);
|}.

(** It is down for the first post. *)
#[local] Instance small_service : BillingPoster nat := λ _ _ body n,
  (S n, if bool_decide (n = 0%nat) then Err () else Ok (mkPostResponse 202 body)).
Definition small_target : TargetConfig := target_new "https://billing" "key" "iad".
Definition one_key (s : string) : string := "k".
Definition slot_event (kind : SlotEventKind) (id : string) (at_ms : Z) : SlotOccupancyEvent :=
  mkSlotEvent (mkTenantId "acme") id kind at_ms None.

Definition push_events : list TargetEvent :=
  [Exports (slot_event Acquired "a" 1000); TargetRuns 0; Exports (slot_event SlotReleased "a" 63000); TargetRuns 1; TargetRuns 1;
   Flushes 1 5] ++ replicate 10 (TargetRuns 2) ++
  [Flushes 1 5; TargetRuns 3; TargetRuns 3; Exports (slot_event Acquired "b" 2000); TargetRuns 4] ++ replicate 10 (TargetRuns 3).

Lemma push_events_run :
  let w := target_run (http := logged small_service) one_key small_target push_events ([], 0%nat) in
  (u_qty <$> enqueued w) = [62] ∧ buffer w = [] ∧ length (poster w).1 = 2%nat ∧ open_leases w = {["b" := 2000]}.
Proof. vm_compute. done. Qed.

Definition full_buffer : BillingTarget nat :=
  mkTarget ∅ [mkUsage "acme" "kind" 62 "1970-01" "iad" BILLING_SOURCE 63000 "k"] false 1%nat [].

Lemma flush_comes_to_an_end_witness :
  ∃ w', run_alone (flush_now small_target 1 5) full_buffer = (w', Some (Ok ())) ∧ buffer w' = [].
Proof.
  destruct (flush_comes_to_an_end small_target 5 full_buffer) as (w' & r & Hrun & _ & _ & He & Ht); [done|cbn; lia|].
  assert (r = Ok ()) as ->; [|exists w'; split; [exact Hrun|by apply He]].
  vm_compute in Hrun. by injection Hrun as _ <-.
Defined.

Lemma usage_measures_the_slot_witness :
  ∃ w' u, run_alone (export one_key small_target (slot_event SlotExpired "a" 63000))
      (mkTarget {["a" := 1000]} [] false 1%nat []) = (w', ()) ∧ u_qty u = 62 ∧ buffer w' = [u].
Proof.
  destruct (usage_measures_the_slot one_key small_target (slot_event SlotExpired "a" 63000)
    (mkTarget {["a" := 1000]} [] false 1%nat []) 1000) as (w' & u & Hrun & Hb & _ & _ & Hq & _);
    [done|left; vm_compute; reflexivity|vm_compute; reflexivity|cbn; lia|].
  exists w', u. split_and!; [exact Hrun|rewrite Hq; vm_compute; reflexivity|exact Hb].
Defined.
