(* ===== verification/Fence.v ===== *)
(** * The fence: [enforce/mod.rs], [materialize/mod.rs], [util.rs], [ws/mod.rs]

    A fence manifest names the paths a job may see.  Materialization writes only
    the candidate files the fence admits into the job's container, each by one
    shell command on the box; a workspace is resumed only under a fence within
    the one it was started with.  The classifier compares normalized segments,
    the resume check compares strings; both are the functions below. *)
From S2P Require Import Prelude Ledger Journal Text Lease.

(** ** The manifest *)
Record MaterializedEntry : Type := mkEntry { entry_path : string; entry_digest : string }.
Record FenceManifest : Type := mkFence {
  path_set : list string;
  deny_default : bool;
  materialized : list MaterializedEntry;
}.
#[export] Instance MaterializedEntry_eq_dec : EqDecision MaterializedEntry.
Proof. solve_decision. Defined.
#[export] Instance FenceManifest_eq_dec : EqDecision FenceManifest.
Proof. solve_decision. Defined.

(** ** [enforce/mod.rs] *)
Inductive FenceVerdict : Type := Inside | Outside.

(** [s.ends_with(c)]. *)
Fixpoint ends_with (c : ascii) (s : string) : bool :=
  match s with
  | EmptyString => false
  | String d EmptyString => bool_decide (d = c)
  | String _ s => ends_with c s
  end.

(** The loop of [normalize_segments]: empty and current-directory segments are
    dropped, a parent segment escapes. *)
Fixpoint keep_segments (segs : list string) : option (list string) :=
  match segs with
  | [] => Some []
  | seg :: segs =>
    if String.eqb seg "" || String.eqb seg "." then keep_segments segs
    else if String.eqb seg ".." then None
    else cons seg <$> keep_segments segs
  end.
Definition normalize_segments (path : string) : option (list string) :=
  if starts_with "/" path then None else keep_segments (split "/" path).

(** What one entry of the path set covers. *)
Definition entry_covers (segs : list string) (entry : string) : bool :=
  match normalize_segments entry with
  | None => false
  | Some want =>
    if ends_with "/" entry then bool_decide (want = []) || bool_decide (take (length want) segs = want)
    else bool_decide (segs = want)
  end.

Definition classify (m : FenceManifest) (path : string) : FenceVerdict :=
  match normalize_segments path with
  | None => Outside
  | Some segs => if existsb (entry_covers segs) (path_set m) then Inside else Outside
  end.

Definition check_access (m : FenceManifest) (path : string) : option string :=
  match classify m path with Inside => None | Outside => Some path end.
Definition is_admitted (m : FenceManifest) (path : string) : bool :=
  match check_access m path with None => true | Some _ => false end.

(** ** [util.rs] *)
Definition shell_quote (s : string) : string := "'" +:+ replace_char "'" "'\''" s +:+ "'".

Definition BASE64 : string := "ABCDEFGHIJKLMNOPQRSTUVWXYZabcdefghijklmnopqrstuvwxyz0123456789+/".
Definition base64_char (i : Z) : ascii := default "="%char (String.get (Z.to_nat i) BASE64).

(** One chunk; [None] where the chunk is shorter. *)
Definition base64_chunk (c0 : ascii) (c1 c2 : option ascii) : string :=
  let b0 := byte c0 in
  let b1 := from_option byte 0 c1 in
  let b2 := from_option byte 0 c2 in
  let n := Z.lor (Z.lor (Z.shiftl b0 16) (Z.shiftl b1 8)) b2 in
  String (base64_char (Z.land (Z.shiftr n 18) 63))
    (String (base64_char (Z.land (Z.shiftr n 12) 63))
      (String (if c1 then base64_char (Z.land (Z.shiftr n 6) 63) else "="%char)
        (String (if c2 then base64_char (Z.land n 63) else "="%char) EmptyString))).
Fixpoint base64_encode (bytes : string) : string :=
  match bytes with
  | EmptyString => EmptyString
  | String a EmptyString => base64_chunk a None None
  | String a (String b EmptyString) => base64_chunk a (Some b) None
  | String a (String b (String c rest)) => base64_chunk a (Some b) (Some c) +:+ base64_encode rest
  end.

(** ** [materialize/mod.rs] *)
Record CandidateEntry : Type := mkCand { cand_path : string; cand_content : string }.
Inductive MaterializeError : Type :=
| DenyDefaultRequired | AllowAllEntry (entry : string) | BoxFailed | PathEscapes | EmptyPath.

Definition entry_is_allow_all (entry : string) : bool := bool_decide (normalize_segments entry = Some []).
Definition validate_manifest (m : FenceManifest) : result MaterializeError unit :=
  if negb (deny_default m) then Err DenyDefaultRequired
  else match List.find entry_is_allow_all (path_set m) with
       | Some entry => Err (AllowAllEntry entry)
       | None => Ok ()
       end.

(** [s.trim_start_matches("./")], and of one character. *)
Fixpoint trim_start_dots (s : string) : string :=
  match s with
  | String a (String b s') =>
    if bool_decide (a = "."%char) && bool_decide (b = "/"%char) then trim_start_dots s' else s
  | _ => s
  end.
Definition trim_start_matches (c : ascii) (s : string) : string := drop_leading c s.

(** [s.rsplit_once(c)]. *)
Fixpoint rsplit_once (c : ascii) (s : string) : option (string * string) :=
  match s with
  | EmptyString => None
  | String d s =>
    match rsplit_once c s with
    | Some (a, b) => Some (String d a, b)
    | None => if bool_decide (d = c) then Some (EmptyString, s) else None
    end
  end.

(** Where a candidate is written, and the command that writes it. *)
Definition place_rel (path : string) : string := trim_start_matches "/" (trim_start_dots path).
Definition place_target (root path : string) : string := root +:+ "/" +:+ place_rel path.
Definition place_script (root : string) (c : CandidateEntry) : string :=
  let full := place_target root (cand_path c) in
  let dir := match rsplit_once "/" full with Some (d, _) => d | None => root end in
  "mkdir -p " +:+ shell_quote dir +:+ " && printf %s " +:+ shell_quote (base64_encode (cand_content c))
  +:+ " | base64 -d > " +:+ shell_quote full.
Definition place_argv (container root : string) (c : CandidateEntry) : list string :=
  ["docker"; "exec"; container; "sh"; "-c"; place_script root c].

Section materialize.
(** The box, and the SHA-256 of [sha2] as lowercase hex. *)
Context {B : Type} (run : list string → B → B * result unit CmdOutput) (sha256_hex : string → string).

Definition content_digest (bytes : string) : string := sha256_hex bytes.

Definition select_in_fence (m : FenceManifest) (cands : list CandidateEntry) :
    list (CandidateEntry * MaterializedEntry) :=
  (λ c, (c, mkEntry (cand_path c) (content_digest (cand_content c)))) <$>
    filter (λ c, is_admitted m (cand_path c) = true) cands.

Definition place_file (container root : string) (c : CandidateEntry) : M B MaterializeError unit :=
  match normalize_segments (cand_path c) with
  | None => throw PathEscapes
  | Some _ =>
    if String.eqb (place_rel (cand_path c)) "" then throw EmptyPath
    else λ b,
      match run (place_argv container root c) b with
      | (b, Ok out) => if out_ok out then (b, Ok ()) else (b, Err BoxFailed)
      | (b, Err _) => (b, Err BoxFailed)
      end
  end.

Fixpoint place_all (container root : string) (sel : list (CandidateEntry * MaterializedEntry)) :
    M B MaterializeError (list MaterializedEntry) :=
  match sel with
  | [] => mret []
  | (c, e) :: sel => place_file container root c;; es ← place_all container root sel; mret (e :: es)
  end.

Definition materialize_sparse (container workspace_root : string) (m : FenceManifest)
    (cands : list CandidateEntry) : M B MaterializeError FenceManifest :=
  match validate_manifest m with
  | Err e => throw e
  | Ok _ =>
    es ← place_all container (trim_end_matches "/" workspace_root) (select_in_fence m cands);
    mret (mkFence (path_set m) (deny_default m) es)
  end.
End materialize.

(** ** The resume check of [ws/mod.rs] *)
Definition path_covered_by (path : string) (ceiling : list string) : bool :=
  if starts_with "/" path || contains ".." path then false
  else existsb (λ entry,
    if ends_with "/" entry then
      let prefix := trim_end_matches "/" entry in
      String.eqb path prefix || starts_with (prefix +:+ "/") path
    else String.eqb path entry) ceiling.

(** The loop of [resume_workspace]: every path of the new fence is covered. *)
Definition within_ceiling (original new : FenceManifest) : bool :=
  forallb (λ p, path_covered_by p (path_set original)) (path_set new).
