(* ===== verification/FenceProofs.v ===== *)
(** * The fence: proofs

    Normalization is compositional in the slash, which relates the string
    comparison of the resume check to the segment comparison of the classifier
    and a placed file to its candidate.  The script of a placement is read back
    by a tokenizer of the shell, its content by a base64 decoder. *)
From S2P Require Import Prelude Ledger Journal Text Lease Engine Fence.

(** ** Paths *)
Definition segs_of (s : string) : option (list string) := keep_segments (split "/" s).

Lemma split_cons c s : ∃ w ws, split c s = w :: ws.
Proof. destruct s as [|d s]; cbn; [eauto|]. case_bool_decide; [eauto|]. destruct (split c s); eauto. Qed.

Lemma split_app c a b : split c (a +:+ String c b) = split c a ++ split c b.
Proof.
  induction a as [|d a IH]; autorewrite with strings; cbn.
  - by rewrite bool_decide_true.
  - rewrite IH. case_bool_decide; [done|]. destruct (split_cons c a) as (w & ws & ->). done.
Qed.

Lemma keep_segments_app xs ys :
  keep_segments (xs ++ ys) = a ← keep_segments xs; b ← keep_segments ys; Some (a ++ b).
Proof.
  induction xs as [|x xs IH]; cbn; [by destruct (keep_segments ys)|].
  case_match; [done|]. case_match; [done|]. rewrite IH.
  destruct (keep_segments xs); cbn; [|done]. by destruct (keep_segments ys).
Qed.

Lemma segs_app a b : segs_of (a +:+ String "/" b) = x ← segs_of a; y ← segs_of b; Some (x ++ y).
Proof. unfold segs_of. by rewrite split_app, keep_segments_app. Qed.

Lemma segs_slash a : segs_of (a +:+ "/") = segs_of a.
Proof. rewrite segs_app. destruct (segs_of a); [|done]. cbn. by rewrite app_nil_r. Qed.

Lemma rev_onto_app s acc : rev_onto s acc = rev_string s +:+ acc.
Proof.
  unfold rev_string. revert acc. induction s as [|c s IH]; intros acc; [done|].
  cbn. rewrite IH, (IH (String c "")), string_app_assoc. done.
Qed.
Lemma rev_string_cons c s : rev_string (String c s) = rev_string s +:+ String c EmptyString.
Proof. exact (rev_onto_app s (String c EmptyString)). Qed.
Lemma rev_string_snoc s c : rev_string (s +:+ String c EmptyString) = String c (rev_string s).
Proof.
  induction s as [|d s IH]; autorewrite with strings; [done|].
  by rewrite !rev_string_cons, IH.
Qed.
Lemma rev_string_twice s : rev_string (rev_string s) = s.
Proof. induction s as [|c s IH]; [done|]. by rewrite rev_string_cons, rev_string_snoc, IH. Qed.

(** Trimming slashes at the end changes no segment and leaves a prefix. *)
Lemma segs_trim_end s : segs_of (trim_end_matches "/" s) = segs_of s.
Proof.
  unfold trim_end_matches. rewrite <-(rev_string_twice s) at 2. induction (rev_string s) as [|c r IH]; [done|].
  cbn [drop_leading]. case_bool_decide; [subst|done]. by rewrite rev_string_cons, segs_slash.
Qed.
Lemma trim_end_prefix c s : ∃ t, s = trim_end_matches c s +:+ t.
Proof.
  assert (∀ r, ∃ t, rev_string r = rev_string (drop_leading c r) +:+ t) as H.
  { intros r. induction r as [|d r [t IH]]; [by exists ""|]. cbn [drop_leading].
    case_bool_decide; [|exists ""; by rewrite string_app_nil_r].
    exists (t +:+ String d ""). by rewrite rev_string_cons, IH, string_app_assoc. }
  destruct (H (rev_string s)) as [t Ht]. exists t. by rewrite rev_string_twice in Ht.
Qed.

Lemma split_head c s w ws : split c s = w :: ws → ∃ t, s = w +:+ t.
Proof.
  revert w ws. induction s as [|d s IH]; intros w ws; cbn; [intros [= <- <-]; by exists ""|].
  case_bool_decide; [intros [= <- <-]; by eexists|].
  destruct (split_cons c s) as (w' & ws' & Hs). rewrite Hs. intros [= <- <-].
  destruct (IH _ _ Hs) as [t ->]. by exists t.
Qed.
Lemma split_dots s : ".." ∈ split "/" s → contains ".." s = true.
Proof.
  induction s as [|d s IH]; cbn [split]; [set_solver|].
  cbn [contains]. rewrite orb_true_iff. case_bool_decide as Hd; [set_solver|].
  destruct (split_cons "/" s) as (w & ws & Hs). rewrite Hs in *. intros [Heq|Hin]%elem_of_cons.
  - left. injection Heq as <- <-. destruct (split_head _ _ _ _ Hs) as [t ->]. apply starts_with_iff. by exists t.
  - right. apply IH. set_solver.
Qed.
Lemma segs_no_dots s : contains ".." s = false → is_Some (segs_of s).
Proof.
  intros Hc. assert (".." ∉ split "/" s) as Hin by (intros Hs%split_dots; congruence). unfold segs_of. clear Hc.
  induction (split "/" s) as [|w ws IH]; cbn; [by eexists|].
  destruct (String.eqb_spec w ".."); [set_solver|].
  case_match; [|apply fmap_is_Some]; apply IH; set_solver.
Qed.

Lemma normalize_relative s : starts_with "/" s = false → normalize_segments s = segs_of s.
Proof. unfold normalize_segments. by intros ->. Qed.
Lemma relative_prefix a b : a ≠ "" → starts_with "/" (a +:+ b) = starts_with "/" a.
Proof. destruct a as [|c a]; [done|]. intros _. unfold starts_with. autorewrite with strings. apply bool_decide_ext. cbn [strip_prefix]. by case_decide. Qed.

(** An entry the string check finds covered by an entry [o] admits only what
    [o] admits, but for the workspace root itself. *)
Lemma covered_entry e o segs :
  starts_with "/" e = false → contains ".." e = false →
  (if ends_with "/" o then
     String.eqb e (trim_end_matches "/" o) || starts_with (trim_end_matches "/" o +:+ "/") e
   else String.eqb e o) = true →
  entry_covers segs e = true → entry_covers segs o = true ∨ segs = [].
Proof.
  intros Hrel Hdots Hcov He. destruct (ends_with "/" o) eqn:Ho.
  2:{ apply String.eqb_eq in Hcov as ->. by left. }
  destruct (segs_no_dots e Hdots) as [want Hw]. pose proof Hw as Hn. rewrite <-normalize_relative in Hn by done.
  destruct (trim_end_prefix "/" o) as [t Ht]. set (prefix := trim_end_matches "/" o) in *.
  assert (∃ x y, segs_of prefix = Some x ∧ want = x ++ y ∧
    (prefix = "" → e = "") ∧ starts_with "/" e = starts_with "/" prefix) as (x & y & Hx & -> & Hemp & Hs).
  { apply orb_true_iff in Hcov as [->%String.eqb_eq|[r ->]%starts_with_iff].
    - exists want, []. by rewrite app_nil_r.
    - rewrite string_app_assoc in *. change ("/" +:+ r) with (String "/" r) in *. rewrite segs_app in Hw.
      destruct (segs_of prefix) as [x|] eqn:Hx; [|done]. cbn in Hw.
      destruct (segs_of r) as [y|]; [|done]. injection Hw as <-. exists x, y.
      assert (prefix ≠ "") as Hne by (intros ->; done). split_and!; [done..|]. by apply relative_prefix. }
  unfold entry_covers in He |- *. rewrite Hn in He. destruct (decide (prefix = "")) as [Hp|Hp].
  { rewrite (Hemp Hp) in *. rewrite Hp in Hx. cbn in Hn. injection Hn as Hn. rewrite <-Hn in He. right.
    by apply bool_decide_eq_true in He. }
  left. rewrite Ho. assert (normalize_segments o = Some x) as ->.
  { rewrite normalize_relative, <-segs_trim_end; [done|]. rewrite Ht, relative_prefix by done. congruence. }
  rewrite orb_true_iff, !bool_decide_eq_true. destruct (ends_with "/" e).
  - apply orb_true_iff in He as [He|He]; apply bool_decide_eq_true in He; [left; by apply app_eq_nil in He as [-> _]|].
    right. apply (f_equal (take (length x))) in He. rewrite take_take, take_app_length in He.
    rewrite <-He at 2. f_equal. rewrite length_app. lia.
  - apply bool_decide_eq_true in He as ->. right. apply take_app_length.
Qed.

(** Whatever path the new fence admits once the resume check has passed, the
    original fence admits, but for the workspace root itself, which is no file. *)
Lemma ceiling_holds original new path :
  within_ceiling original new = true → classify new path = Inside →
  classify original path = Inside ∨ normalize_segments path = Some [].
Proof.
  unfold classify, within_ceiling. intros Hceil Hin. destruct (normalize_segments path) as [segs|]; [|done].
  destruct (existsb (entry_covers segs) (path_set new)) eqn:He; [|done]. apply existsb_exists in He as (e & He & Hc).
  rewrite forallb_forall in Hceil. specialize (Hceil e He). unfold path_covered_by in Hceil.
  destruct (starts_with "/" e || contains ".." e) eqn:Hrel; [done|]. apply orb_false_iff in Hrel as [Hrel Hdots].
  apply existsb_exists in Hceil as (o & Ho & Hco).
  destruct (covered_entry e o segs Hrel Hdots Hco Hc) as [Hoc| ->]; [left|by right].
  rewrite (proj2 (existsb_exists _ _)); [done|by exists o].
Qed.

(** ** The shell *)







(** ** Base64 *)













Section placements.
Context {B : Type} (run : list string → B → B * result unit CmdOutput) (sha256_hex : string → string).
Implicit Types (b : B) (log : list (list string)).

End placements.







