(* ===== verification/Workspace.v ===== *)
(** * Workspaces: [ws/mod.rs]

    A workspace is a container started under a lease and a fence.  The
    deduplicating spawner keeps a slot per container name, guarded by one lock
    that is not held across a spawn, a probe or a teardown; calls are threads, so
    they interleave between the critical sections.  A thread that waits on the
    condition variable looks at its slot again whenever it is woken. *)
From S2P Require Import Prelude Tenant Ledger Journal Text Lease Task Attest Engine Fence.

Definition WS_PREFIX : string := "corelink-ws-".
Definition ws_container_name (workspace_id : string) : string := WS_PREFIX +:+ sanitize workspace_id.

#[export] Instance RunnerLease_eq_dec : EqDecision RunnerLease.
Proof. solve_decision. Defined.

Inductive WorkspaceOrigin : Type := Spawned | Attached | Resumed.
Record WorkspaceHandle : Type := mkHandle {
  ws_container : RunningContainer;
  ws_lease : RunnerLease;
  ws_fence : FenceManifest;
  ws_origin : WorkspaceOrigin;
}.
Inductive WsError : Type :=
| BadSpec (e : SpecError) | EngineFailed (e : EngineError) | ReuseRefused | ProbeFailed (e : EngineError)
| SpawnFailed (e : WsError) | NotRunning | FenceWidened (path : string) | RestoreFailed | WsBoxLost.

(** ** Spawning, attaching, resuming *)
Section workspace.
Context {B : Type} `{Engine B}.

Definition spawn_workspace (lease : RunnerLease) (fence : FenceManifest) (image : string) :
    M B WsError WorkspaceHandle :=
  match from_lease lease image with
  | Err e => throw (BadSpec e)
  | Ok s =>
    let spec := mkSpec (ws_container_name (rl_lease_id lease)) (spec_image s) (spec_tmp_root s) (no_network s)
                  (allow_egress s) (run_on_create s) (spec_path_set s) (spec_env s) in
    λ b, match eng_spawn spec b with
         | (b, Ok c) => (b, Ok (mkHandle c lease fence Spawned))
         | (b, Err e) => (b, Err (EngineFailed e))
         end
  end.

(** [run], and [run_with_stdin] of the box transport. *)
Context (run : list string → B → B * result unit CmdOutput)
  (run_with_stdin : list string → string → B → B * result unit CmdOutput).

Definition attach_workspace (workspace_id : string) (lease : RunnerLease) (fence : FenceManifest) :
    M B WsError WorkspaceHandle :=
  let n := ws_container_name workspace_id in
  out ← on_box run WsBoxLost (ps_argv n);
  if lists_name n (stdout out) then mret (mkHandle (mkContainer n) lease fence Attached) else throw NotRunning.

Record WorkspaceState : Type := mkWsState {
  workspace_id : string;
  original_fence : FenceManifest;
  state_payload : string;
}.
Definition STATE_RESTORE_PATH : string := "/hugit/tmp/state_restore_marker".
Definition restore_state_payload (c : RunningContainer) (payload : string) : M B WsError unit := λ b,
  match run_with_stdin ["docker"; "exec"; "-i"; rc_name c; "sh"; "-c"; "cat > " +:+ STATE_RESTORE_PATH] payload b with
  | (b, Ok out) => (b, if out_ok out then Ok () else Err RestoreFailed)
  | (b, Err _) => (b, Err WsBoxLost)
  end.

(** The first path of the new fence that is outside the ceiling. *)
Definition first_widening (original new : FenceManifest) : option string :=
  List.find (λ p, negb (path_covered_by p (path_set original))) (path_set new).
Definition resume_workspace (st : WorkspaceState) (new_fence : FenceManifest) (lease : RunnerLease) (image : string) :
    M B WsError WorkspaceHandle :=
  match first_widening (original_fence st) new_fence with
  | Some p => throw (FenceWidened p)
  | None =>
    h ← spawn_workspace lease new_fence image;
    (if String.eqb (state_payload st) "" then mret () else restore_state_payload (ws_container h) (state_payload st));;
    mret (mkHandle (ws_container h) (ws_lease h) new_fence Resumed)
  end.
End workspace.

(** ** The deduplicating spawner *)
Inductive SpawnEntry : Type := SlotPending | SlotReady (h : WorkspaceHandle) (at_ : Z) | SlotFailed.

(** [instant] reads the monotonic clock. *)
Record DedupConfig (B : Type) : Type := mkDedup {
  dedup_window : Z;
  max_entries : nat;
  teardown_hook : option (RunningContainer → B → B * result unit unit);
  instant : B → B * Z;
}.
Arguments mkDedup {B}.
Arguments dedup_window {B} d.
Arguments max_entries {B} d.
Arguments teardown_hook {B} d.
Arguments instant {B} d.
Definition DEFAULT_MAX_DEDUP_ENTRIES : nat := 1024.

(** The slots, the box, and what the calls returned to their callers. *)
Record Spawner (B : Type) : Type := mkSpawner {
  entries : gmap string SpawnEntry;
  ws_box : B;
  returned : list (RunnerLease * FenceManifest * result WsError WorkspaceHandle);
}.
Arguments mkSpawner {B}.
Arguments entries {B} s.
Arguments ws_box {B} s.
Arguments returned {B} s.

Definition slot_key (lease : RunnerLease) : string := ws_container_name (rl_lease_id lease).

(** What a look at the slot decides. *)
Inductive Look : Type := Joined (h : WorkspaceHandle) | Refused | Claimed | MustWait.

Section dedup.
Context {B : Type} `{Engine B} (cfg : DedupConfig B).
Abbreviation W := (Spawner B).

Definition is_fresh (now at_ : Z) : bool := Z.max 0 (now - at_) <? dedup_window cfg.

(** [reap_locked]: the sweep, then the cap; the containers to tear down. *)
Definition swept (now : Z) (keep : string) (ke : string * SpawnEntry) : bool :=
  negb (String.eqb ke.1 keep) &&
  match ke.2 with SlotFailed => true | SlotReady _ at_ => negb (is_fresh now at_) | SlotPending => false end.
Definition container_of (e : SpawnEntry) : option RunningContainer :=
  match e with SlotReady h _ => Some (ws_container h) | _ => None end.
Fixpoint oldest (keep : string) (es : list (string * SpawnEntry)) : option (string * Z) :=
  match es with
  | [] => None
  | (id, SlotReady _ at_) :: es =>
    if String.eqb id keep then oldest keep es
    else match oldest keep es with
         | Some (id', at') => if at' <? at_ then Some (id', at') else Some (id, at_)
         | None => Some (id, at_)
         end
  | _ :: es => oldest keep es
  end.
Fixpoint enforce_cap (fuel : nat) (keep : string) (m : gmap string SpawnEntry) (out : list RunningContainer) :
    gmap string SpawnEntry * list RunningContainer :=
  match fuel with
  | O => (m, out)
  | S fuel =>
    if (size m <? max_entries cfg)%nat then (m, out)
    else match oldest keep (map_to_list m) with
         | None => (m, out)
         | Some (id, _) => enforce_cap fuel keep (delete id m) (out ++ option_list (m !! id ≫= container_of))
         end
  end.
Definition reap_locked (now : Z) (keep : string) (m : gmap string SpawnEntry) :
    gmap string SpawnEntry * list RunningContainer :=
  let gone := filter (λ ke, swept now keep ke = true) (map_to_list m) in
  let m' := filter (λ ke, swept now keep ke = false) m in
  enforce_cap (size m') keep m' (omap (λ ke, container_of ke.2) gone).

(** An access under the lock that reads the clock. *)
Definition locked_at {A} (f : Z → gmap string SpawnEntry → gmap string SpawnEntry * A) : Task W A :=
  atomic (λ w,
    let '(b, now) := instant cfg (ws_box w) in
    let '(m, a) := f now (entries w) in (mkSpawner m b (returned w), a)).
Definition on_ws_box {A} (f : B → B * A) : Task W A :=
  atomic (λ w, let '(b, a) := f (ws_box w) in (mkSpawner (entries w) b (returned w), a)).

Fixpoint teardown_reaped (cs : list RunningContainer) : Task W unit :=
  match cs, teardown_hook cfg with
  | c :: cs, Some hook => on_ws_box (hook c);; teardown_reaped cs
  | _, _ => mret ()
  end.

Definition look (lease : RunnerLease) (fence : FenceManifest) (now : Z) (m : gmap string SpawnEntry) :
    gmap string SpawnEntry * Look :=
  match m !! slot_key lease with
  | Some (SlotReady h at_) =>
    if is_fresh now at_ then
      if bool_decide (ws_lease h = lease) && bool_decide (ws_fence h = fence) then (m, Joined h) else (m, Refused)
    else (<[slot_key lease := SlotPending]> m, Claimed)
  | Some SlotPending => (m, MustWait)
  | Some SlotFailed | None => (<[slot_key lease := SlotPending]> m, Claimed)
  end.
(** Back from a probe that found a corpse: the slot is dropped if it is [Ready],
    and looked at under the same lock. *)
Definition drop_corpse (lease : RunnerLease) (m : gmap string SpawnEntry) : gmap string SpawnEntry :=
  match m !! slot_key lease with Some (SlotReady _ _) => delete (slot_key lease) m | _ => m end.

(** Phase 1 with at most [fuel] looks; [None] is a thread that is still waiting. *)
Fixpoint claim_loop (fuel : nat) (corpse : bool) (lease : RunnerLease) (fence : FenceManifest) :
    Task W (option (option (result WsError WorkspaceHandle))) :=
  match fuel with
  | O => mret None
  | S fuel =>
    seen ← locked_at (λ now m, look lease fence now (if corpse then drop_corpse lease m else m));
    match seen with
    | Refused => mret (Some (Some (Err ReuseRefused)))
    | Claimed => mret (Some None)
    | MustWait => claim_loop fuel false lease fence
    | Joined h =>
      alive ← on_ws_box (eng_is_alive (ws_container h));
      match alive with
      | Ok true => mret (Some (Some (Ok h)))
      | Ok false => claim_loop fuel true lease fence
      | Err e => mret (Some (Some (Err (ProbeFailed e))))
      end
    end
  end.

Definition publish (lease : RunnerLease) (r : result WsError WorkspaceHandle) : Task W unit :=
  locked_at (λ now m,
    (<[slot_key lease := match r with Ok h => SlotReady h now | Err _ => SlotFailed end]> m, ())).

Definition spawn_or_join (fuel : nat) (lease : RunnerLease) (fence : FenceManifest) (image : string) :
    Task W (option (result WsError WorkspaceHandle)) :=
  reaped ← locked_at (λ now m, reap_locked now (slot_key lease) m);
  teardown_reaped reaped;;
  claim ← claim_loop fuel false lease fence;
  match claim with
  | None => mret None
  | Some (Some r) => mret (Some r)
  | Some None =>
    r ← on_ws_box (spawn_workspace lease fence image);
    publish lease r;;
    mret (Some (match r with Ok h => Ok h | Err e => Err (SpawnFailed e) end))
  end.

(** [evict_checked]; the error is that of the hook. *)
Definition evict_checked (lease : RunnerLease) : Task W (result unit unit) :=
  removed ← locked_at (λ _ m, (delete (slot_key lease) m, m !! slot_key lease));
  match removed ≫= container_of, teardown_hook cfg with
  | Some c, Some hook => on_ws_box (hook c)
  | _, _ => mret (Ok ())
  end.

(** The threads: a call whose answer reaches its caller, and an eviction. *)
Inductive WsCall : Type :=
| CallSpawn (fuel : nat) (lease : RunnerLease) (fence : FenceManifest) (image : string)
| CallEvict (lease : RunnerLease).
Definition ws_thread (c : WsCall) : Task W unit :=
  match c with
  | CallSpawn fuel lease fence image =>
    r ← spawn_or_join fuel lease fence image;
    match r with
    | Some r => update (λ w, mkSpawner (entries w) (ws_box w) (returned w ++ [(lease, fence, r)]))
    | None => mret ()
    end
  | CallEvict lease => evict_checked lease;; mret ()
  end.

(** A run: calls arrive, threads make their next access. *)
Inductive WsEvent : Type := WsStart (c : WsCall) | WsStep (i : nat).
Definition ws_event (e : WsEvent) : event W unit :=
  match e with WsStart c => Spawn (ws_thread c) | WsStep i => Sched i end.
Definition ws_run (es : list WsEvent) (b : B) : Spawner B :=
  (runtime (ws_event <$> es) ([], mkSpawner ∅ b [])).2.
End dedup.
