(* ===== verification/WorkspaceProofs.v ===== *)
(** * Workspaces: proofs

    A handle is its caller's own, identical concurrent spawns share one
    container, and a resumed workspace stays within its original fence.  Two runs
    show where the spawner loses a live container. *)
From stdpp Require Import gmultiset.
From S2P Require Import Prelude Tenant Ledger Journal Text Lease Task Attest Engine Fence FenceProofs Workspace.

(** Any token may be dropped. *)
(** A container is named as its spec says: the contract of [RunningContainer]. *)
Class NamingLaw (B : Type) `{Engine B} : Prop :=
  law_spawn_name spec (b b' : B) c : eng_spawn spec b = (b', Ok c) → rc_name c = spec_name spec.

Section handles.
Context {B : Type} `{!Engine B, !NamingLaw B} (cfg : DedupConfig B).
Abbreviation W := (Spawner B).

(** ** Whose handle *)
Definition handle_for (l : RunnerLease) (f : FenceManifest) (h : WorkspaceHandle) : Prop :=
  ws_lease h = l ∧ ws_fence h = f ∧ rc_name (ws_container h) = ws_container_name (rl_lease_id l).

Record handles_ok (w : W) : Prop := {
  slots_ok k h at_ : entries w !! k = Some (SlotReady h at_) →
    k = slot_key (ws_lease h) ∧ handle_for (ws_lease h) (ws_fence h) h;
  returned_ok l f h : (l, f, Ok h) ∈ returned w → handle_for l f h;
}.

Abbreviation inv1 := (λ (w : W) (_ : gmultiset ()), handles_ok w).
Abbreviation rely1 := (λ (_ : W) (_ : gmultiset ()) (_ : W) (_ : gmultiset ()), True).
Abbreviation quiet1 := (quiet inv1 rely1).

Lemma quiet_locked {A} (φ : A → Prop) (f : Z → gmap string SpawnEntry → gmap string SpawnEntry * A) :
  (∀ now m m' a, f now m = (m', a) → (∀ b rs, handles_ok (mkSpawner m b rs) → handles_ok (mkSpawner m' b rs)) ∧
    ((∃ b rs, handles_ok (mkSpawner m b rs)) → φ a)) →
  quiet1 φ (locked_at cfg f).
Proof.
  intros Hf. apply quiet_atom. intros w R w' a. destruct w as [m b rs]. cbn [entries ws_box returned].
  destruct (instant cfg b) as [b' now]. destruct (f now m) as [m' x] eqn:E. intros [= <- <-] Hi.
  assert (handles_ok (mkSpawner m b' rs)) as Hi' by (by destruct Hi; constructor).
  destruct (Hf _ _ _ _ E) as [Hk Hφ]. split_and!; [by apply Hk|done|]. apply Hφ. eauto.
Qed.
Lemma quiet_ws_box {A} (φ : A → Prop) (f : B → B * A) :
  (∀ b b' a, f b = (b', a) → φ a) → quiet1 φ (on_ws_box f).
Proof.
  intros Hf. apply quiet_atom. intros w R w' a. destruct (f (ws_box w)) as [b' x] eqn:E. intros [= <- <-] Hi.
  split_and!; [by destruct Hi; constructor|done|by eapply Hf].
Qed.

(** Slots that disappear, and slots that are not [Ready], are fine. *)
Lemma handles_sub m m' b rs :
  (∀ k h at_, m' !! k = Some (SlotReady h at_) → m !! k = Some (SlotReady h at_)) →
  handles_ok (mkSpawner (B := B) m b rs) → handles_ok (mkSpawner (B := B) m' b rs).
Proof. intros Hm [Hs Hr]. constructor; [|exact Hr]. cbn in *. eauto. Qed.

Lemma enforce_cap_sub fuel keep m out : (enforce_cap cfg fuel keep m out).1 ⊆ m.
Proof.
  revert m out. induction fuel as [|fuel IH]; intros m out; cbn [enforce_cap]; [done|].
  case_match; [done|]. destruct (oldest keep (map_to_list m)) as [[id at_]|]; [|done].
  etrans; [apply IH|apply delete_subseteq].
Qed.
Lemma reap_sub now keep m : (reap_locked cfg now keep m).1 ⊆ m.
Proof. unfold reap_locked. etrans; [apply enforce_cap_sub|]. apply map_filter_subseteq. Qed.

Lemma look_sub lease fence now m m' s k h at_ :
  look cfg lease fence now m = (m', s) → m' !! k = Some (SlotReady h at_) → m !! k = Some (SlotReady h at_).
Proof.
  unfold look. intros Hl Hk.
  assert (<[slot_key lease := SlotPending]> m !! k = Some (SlotReady h at_) → m !! k = Some (SlotReady h at_)) as Hins.
  { rewrite lookup_insert. by case_decide. }
  destruct (m !! slot_key lease) as [[|h0 at0|]|]; [by injection Hl as <- _| |injection Hl as <- _; by apply Hins..].
  destruct (is_fresh cfg now at0); [|injection Hl as <- _; by apply Hins].
  by destruct (bool_decide _ && bool_decide _); injection Hl as <- _.
Qed.

Lemma quiet_claim fuel corpse lease fence :
  quiet1 (λ a, ∀ h, a = Some (Some (Ok h)) → handle_for lease fence h) (claim_loop cfg fuel corpse lease fence).
Proof.
  revert corpse. induction fuel as [|fuel IH]; intros corpse; cbn [claim_loop]; [by apply quiet_ret|].
  apply (quiet_bind _ _ (λ s, ∀ h, s = Joined h → handle_for lease fence h)).
  - apply quiet_locked. intros now m m' s Hl. set (m0 := if corpse then drop_corpse lease m else m) in Hl.
    assert (∀ k h at_, m0 !! k = Some (SlotReady h at_) → m !! k = Some (SlotReady h at_)) as H0.
    { intros k h at_. subst m0. destruct corpse; [|done]. unfold drop_corpse.
      destruct (m !! slot_key lease) as [[| |]|]; [done| |done..]. by intros [_ ?]%lookup_delete_Some. }
    split; [intros b rs; apply handles_sub; intros k h at_ Hk; by eapply H0, look_sub|].
    intros (b & rs & [Hs _]) h ->. unfold look in Hl.
    destruct (m0 !! slot_key lease) as [[|h0 at0|]|] eqn:Hm; [done| |done..].
    destruct (is_fresh cfg now at0); [|done]. destruct (bool_decide (ws_lease h0 = lease)) eqn:E1; [|done].
    destruct (bool_decide (ws_fence h0 = fence)) eqn:E2; [|done]. injection Hl as _ ->.
    apply bool_decide_eq_true in E1, E2. subst. apply H0 in Hm. by destruct (Hs _ _ _ Hm).
  - intros s Hs. destruct s as [h| | |]; [|by apply quiet_ret|by apply quiet_ret|apply IH].
    apply (quiet_bind _ _ (λ _, True)); [by apply quiet_ws_box|]. intros [[]|e] _; [|apply IH|by apply quiet_ret].
    apply quiet_ret. intros h' [= <-]. by apply Hs.
Qed.

Lemma quiet_spawn_or_join fuel lease fence image :
  quiet1 (λ a, ∀ h, a = Some (Ok h) → handle_for lease fence h) (spawn_or_join cfg fuel lease fence image).
Proof.
  unfold spawn_or_join. apply (quiet_bind _ _ (λ _, True)).
  { apply quiet_locked. intros now m m' cs Hr. split; [|done]. intros b rs. apply handles_sub. intros k h at_ Hk.
    eapply lookup_weaken; [exact Hk|]. pose proof (reap_sub now (slot_key lease) m) as H. by rewrite Hr in H. }
  intros cs _. apply (quiet_bind _ _ (λ _, True)).
  { induction cs as [|c cs IH]; cbn [teardown_reaped]; [by apply quiet_ret|].
    destruct (teardown_hook cfg); [|by apply quiet_ret].
    apply (quiet_bind _ _ (λ _, True)); [by apply quiet_ws_box|]. intros _ _. apply IH. }
  intros _ _. eapply quiet_bind; [apply quiet_claim|]. intros [[r|]|] Hc.
  { apply quiet_ret. intros h [= ->]. by apply Hc. } 2:{ by apply quiet_ret. }
  apply (quiet_bind _ _ (λ r, ∀ h, r = Ok h → handle_for lease fence h)).
  { apply quiet_ws_box. intros b b' r. unfold spawn_workspace. destruct (from_lease lease image); [|by intros [= <- <-]].
    set (spec := mkSpec _ _ _ _ _ _ _ _). destruct (eng_spawn spec b) as [b1 [c|e]] eqn:He; intros [= <- <-]; [|done].
    intros h [= <-]. split_and!; [done..|]. by apply law_spawn_name in He. }
  intros r Hr. apply (quiet_bind _ _ (λ _, True)).
  - apply quiet_locked. intros now m m' a [= <- <-]. split; [|done]. intros b rs [Hs Hret]. constructor; [|exact Hret].
    cbn in *. intros k h at_. rewrite lookup_insert. case_decide; [|by apply Hs]. subst k. destruct r as [h0|]; [|done].
    intros [= <- _]. destruct (Hr h0 eq_refl) as (E1 & E2 & E3). unfold handle_for, slot_key. by rewrite E1.
  - intros _ _. apply quiet_ret. destruct r as [h0|]; [|done]. intros h [= <-]. by apply Hr.
Qed.
End handles.

Section handles_run.
Context {B : Type} `{!Engine B, !NamingLaw B} (cfg : DedupConfig B).

Lemma thread_ok c : handler_ok (λ (w : Spawner B) (_ : gmultiset ()), handles_ok w) (λ _ _ _ _, True) (λ _, True)
  (ws_thread cfg c).
Proof.
  eapply safe_post; [done|]. destruct c as [fuel lease fence image|lease].
  - eapply (quiet_bind _ _ _ (λ _, True)); [apply quiet_spawn_or_join|]. intros [r|] Hr; [|by apply quiet_ret].
    apply quiet_atom. intros w R w' a [= <- <-] [Hs Hret]. split_and!; [|done..]. constructor; [exact Hs|].
    cbn. intros l f h [Hin|[= -> -> <-]%list_elem_of_singleton]%elem_of_app; [by apply Hret|by apply Hr].
  - apply (quiet_bind _ _ (λ _, True)); [|by intros; apply quiet_ret]. unfold evict_checked.
    apply (quiet_bind _ _ (λ _, True)).
    + apply quiet_locked. intros now m m' a [= <- <-]. split; [|done]. intros b rs. apply handles_sub.
      by intros k h at_ [_ ?]%lookup_delete_Some.
    + intros a _. destruct (a ≫= container_of); [|by apply quiet_ret].
      destruct (teardown_hook cfg); [by apply quiet_ws_box|by apply quiet_ret].
Qed.

(** A handle is its caller's own.  However calls and evictions for any leases
    interleave, and whatever the engine and the clock answer, a call returns only a
    handle for the very lease and fence it presented, and the container of the
    handle carries the name of that lease. *)
Theorem handle_is_the_callers es b l f h :
  (l, f, Ok h) ∈ returned (ws_run cfg es b) →
  ws_lease h = l ∧ ws_fence h = f ∧ rc_name (ws_container h) = ws_container_name (rl_lease_id l).
Proof.
  intros Hin. destruct (runtime_invariant (λ (w : Spawner B) (_ : gmultiset ()), handles_ok w) (λ _ _ _ _, True) (λ _, True)
    (ws_event cfg <$> es) (mkSpawner ∅ b [])) as (R & Hinv & _).
  - clear Hin. induction es as [|[c|i] es IH]; [constructor|constructor; [apply thread_ok|exact IH]|exact IH].
  - constructor; cbn; [by intros k h0 at_; rewrite lookup_empty|set_solver].
  - by apply (returned_ok _ Hinv).
Qed.
End handles_run.

(** ** One container for identical spawns *)

(** A box on which a started container stays up, with the number of containers
    it has started, and a clock that stays within one window. *)
Class SteadyBox (B : Type) `{Engine B} (cfg : DedupConfig B) (live : B → RunningContainer → Prop)
    (spawns : B → nat) : Prop := {
  steady_name : NamingLaw B;
  steady_spawn spec b b' r : eng_spawn spec b = (b', r) →
    (∀ c, live b c → live b' c) ∧
    match r with Ok c => live b' c ∧ spawns b' = S (spawns b) | Err _ => spawns b' = spawns b end;
  steady_alive c b b' r : eng_is_alive c b = (b', r) →
    (∀ c', live b c' → live b' c') ∧ spawns b' = spawns b ∧ (live b c → r = Ok true);
  steady_clock : ∃ t0, ∀ b b' t, instant cfg b = (b', t) →
    (∀ c, live b c → live b' c) ∧ spawns b' = spawns b ∧ t0 ≤ t < t0 + dedup_window cfg;
}.

Inductive ws_token : Type := Claiming | Materialized.
#[export] Instance ws_token_eq_dec : EqDecision ws_token.
Proof. solve_decision. Defined.
#[export] Instance ws_token_countable : Countable ws_token.
Proof.
  refine (inj_countable' (λ t, match t with Claiming => true | Materialized => false end)
    (λ b, if b : bool then Claiming else Materialized) _). by intros [].
Defined.

Lemma one_token (x y : ws_token) (r : gmultiset ws_token) : {[+ x +]} ⊎ r = {[+ y +]} → x = y ∧ r = ∅.
Proof. intros Hr. assert (x = y) as -> by multiset_solver. split; [done|multiset_solver]. Qed.
Lemma no_token (x : ws_token) (r : gmultiset ws_token) : {[+ x +]} ⊎ r ≠ ∅.
Proof. multiset_solver. Qed.

Section shared.
Context {B : Type} `{!Engine B} (cfg : DedupConfig B) (live : B → RunningContainer → Prop) (spawns : B → nat).
Context `{!SteadyBox B cfg live spawns} (l : RunnerLease) (f : FenceManifest) (n0 : nat) (t0 : Z).
Context (clock : ∀ b b' t, instant cfg b = (b', t) →
  (∀ c, live b c → live b' c) ∧ spawns b' = spawns b ∧ t0 ≤ t < t0 + dedup_window cfg).
Abbreviation W := (Spawner B).
Abbreviation Res := (gmultiset ws_token).
Abbreviation k := (slot_key l).

#[local] Instance steady_naming : NamingLaw B := steady_name (cfg := cfg) (live := live) (spawns := spawns).
Definition the_handle : WorkspaceHandle := mkHandle (mkContainer k) l f Spawned.
Definition up (b : B) : Prop := live b (mkContainer k).

(** Where the one slot is, who owns it, and what has been started for it. *)
Inductive slot_phase (b : B) : gmap string SpawnEntry → Res → Prop :=
| phase_empty : spawns b = n0 → slot_phase b ∅ ∅
| phase_failed : spawns b = n0 → slot_phase b {[k := SlotFailed]} ∅
| phase_claimed : spawns b = n0 → slot_phase b {[k := SlotPending]} {[+ Claiming +]}
| phase_started : spawns b = S n0 → up b → slot_phase b {[k := SlotPending]} {[+ Materialized +]}
| phase_ready at_ : spawns b = S n0 → up b → t0 ≤ at_ < t0 + dedup_window cfg →
    slot_phase b {[k := SlotReady the_handle at_]} ∅.

Record shared_ok (w : W) (R : Res) : Prop := {
  shared_phase : slot_phase (ws_box w) (entries w) R;
  shared_returned l' f' h : (l', f', Ok h) ∈ returned w → h = the_handle ∧ up (ws_box w);
}.
Definition keeps_up (w : W) (_ : Res) (w' : W) (_ : Res) : Prop := up (ws_box w) → up (ws_box w').

Abbreviation triple2 := (triple shared_ok keeps_up (λ _ : Res, True)).

(** A change of the box that keeps what is up and starts nothing. *)
Lemma phase_box b b' m R :
  (∀ c, live b c → live b' c) → spawns b' = spawns b → slot_phase b m R → slot_phase b' m R.
Proof. intros Hl Hs Hp. destruct Hp; constructor; try congruence; try done; by apply Hl. Qed.

Lemma stable_up : stable shared_ok keeps_up (λ w _, up (ws_box w)).
Proof. intros w R w' R' Hr _. exact Hr. Qed.
Lemma ws_stable_true φ : stable shared_ok keeps_up (λ _ _, φ).
Proof. by intros w R w' R' _ _. Qed.

Lemma triple_locked {A} (K : W → Res → Prop) r (g : Z → gmap string SpawnEntry → gmap string SpawnEntry * A)
    (ρ : A → Res) (K' : A → W → Res → Prop) :
  (∀ a, stable shared_ok keeps_up (K' a)) →
  (∀ now m m' a b rs fr, g now m = (m', a) → t0 ≤ now < t0 + dedup_window cfg → slot_phase b m (r ⊎ fr) →
    slot_phase b m' (ρ a ⊎ fr) ∧ K' a (mkSpawner m' b rs) (ρ a ⊎ fr)) →
  triple2 K r (locked_at cfg g) ρ K'.
Proof.
  intros Hst Hg. apply triple_atom; [apply _|done|]. intros [m b rs] fr w' a. cbn [entries ws_box returned].
  destruct (instant cfg b) as [b1 now] eqn:Hi. destruct (g now m) as [m' x] eqn:E. intros [= <- <-] [Hp Hr] _.
  destruct (clock _ _ _ Hi) as (Hl & Hs & Ht). cbn in Hp, Hr. apply (phase_box _ b1) in Hp; [|done..].
  destruct (Hg now m m' x b1 rs fr E Ht Hp) as [Hp' HK]. split_and!; [|by intros ?; apply Hl|done].
  constructor; [done|]. cbn. intros l' f' h Hin. destruct (Hr _ _ _ Hin) as [-> ?]. split; [done|by apply Hl].
Qed.

Lemma reap_keeps now m R b : slot_phase b m R → reap_locked cfg now k m = (m, []).
Proof.
  intros Hp. assert (m = ∅ ∨ ∃ e, m = {[k := e]}) as Hm by (destruct Hp; eauto). unfold reap_locked.
  assert (filter (λ ke, swept cfg now k ke = false) m = m ∧ filter (λ ke, swept cfg now k ke = true) (map_to_list m) = []) as [-> ->].
  { destruct Hm as [->|[e ->]]; [by rewrite map_filter_empty|]. rewrite map_to_list_singleton.
    assert (swept cfg now k (k, e) = false) as He by (unfold swept; cbn; by rewrite String.eqb_refl).
    rewrite map_filter_singleton_True by done. split; [done|]. by rewrite filter_cons, He. }
  cbn. destruct Hm as [->|[e ->]]; [done|]. rewrite map_size_singleton. cbn.
  case_match; [done|]. rewrite map_to_list_singleton. cbn.
  destruct e; [done| |done]. by rewrite String.eqb_refl.
Qed.

(** A look, by a thread that owns nothing. *)
Lemma look_phase now m m' s b fr :
  look cfg l f now m = (m', s) → t0 ≤ now < t0 + dedup_window cfg → slot_phase b m (∅ ⊎ fr) →
  slot_phase b m' ((if s is Claimed then {[+ Claiming +]} else ∅) ⊎ fr) ∧
  (s = Refused → False) ∧ (∀ h, s = Joined h → h = the_handle ∧ up b).
Proof.
  rewrite (left_id_L ∅ (⊎) fr). unfold look. intros Hl Ht Hp. destruct Hp as [Hs|Hs|Hs|Hs Hu|at_ Hs Hu Ha].
  - rewrite lookup_empty in Hl. injection Hl as <- <-. rewrite (right_id_L ∅ (⊎)). by split_and!; [apply phase_claimed|..].
  - rewrite lookup_singleton_eq in Hl. injection Hl as <- <-. rewrite insert_singleton_eq, (right_id_L ∅ (⊎)).
    by split_and!; [apply phase_claimed|..].
  - rewrite lookup_singleton_eq in Hl. injection Hl as <- <-. rewrite (left_id_L ∅ (⊎)). by split_and!; [apply phase_claimed|..].
  - rewrite lookup_singleton_eq in Hl. injection Hl as <- <-. rewrite (left_id_L ∅ (⊎)). by split_and!; [apply phase_started|..].
  - rewrite lookup_singleton_eq in Hl. unfold is_fresh in Hl.
    rewrite (proj2 (Z.ltb_lt _ _)) in Hl by lia. cbn in Hl. rewrite !bool_decide_true in Hl by done. injection Hl as <- <-.
    rewrite (left_id_L ∅ (⊎)). split_and!; [by constructor|done|]. by intros h [= <-].
Qed.

Lemma claim_triple fuel :
  triple2 (λ _ _, True) ∅ (claim_loop cfg fuel false l f)
    (λ a, if a is Some None then {[+ Claiming +]} else ∅)
    (λ a w _, ∀ h, a = Some (Some (Ok h)) → h = the_handle ∧ up (ws_box w)).
Proof.
  induction fuel as [|fuel IH]; cbn [claim_loop]; [by apply triple_ret; [apply _|..]|].
  eapply (triple_seq _ _ _ (λ _ _, True) (λ _ _, True)); [by intros w R w' R' _ _|..].
  { apply (triple_locked _ _ _ (λ s, if s is Claimed then {[+ Claiming +]} else ∅)
      (λ s w _, (s = Refused → False) ∧ ∀ h, s = Joined h → h = the_handle ∧ up (ws_box w))).
    - intros s w R w' R' Hr _ [? Hj]. split; [done|]. intros h Hh. destruct (Hj h Hh). auto.
    - intros now m m' s b rs fr Hl Ht Hp. destruct (look_phase now m m' s b fr Hl Ht Hp) as (? & ? & ?). auto. }
  { done. }
  intros [h| | |]; cbn beta iota.
  - apply (safe_pure _ _ (h = the_handle)); [by intros w R (_ & _ & Hj); apply (Hj h)|]. intros ->.
    eapply (triple_conseq _ _ _ (λ w _, up (ws_box w))); [by intros w R (_ & _ & Hj); apply (Hj the_handle)|intros a w R HK; exact HK|].
    eapply (triple_seq _ _ _ (λ w _, up (ws_box w)) (λ w _, up (ws_box w)) _ _ (λ _, ∅) (λ a w _, a = Ok true)).
    + apply stable_up.
    + apply triple_atom; [apply _|intros a; apply ws_stable_true|]. intros w fr w' a. unfold on_ws_box.
      destruct (eng_is_alive (ws_container the_handle) (ws_box w)) as [b' r] eqn:He. intros [= <- <-] [Hp Hr] Hu.
      destruct (steady_alive _ _ _ _ He) as (Hl & Hs & Hup). split_and!; [|by intros ?; apply Hl|by apply Hup].
      constructor; [by apply (phase_box (ws_box w))|]. cbn. intros l' f' h Hin. destruct (Hr _ _ _ Hin). split; [done|by apply Hl].
    + done.
    + intros a. apply (safe_pure _ _ (a = Ok true)); [by intros w R [_ ?]|]. intros ->.
      apply triple_ret; [apply _|done|]. intros w R [Hu _] h [= <-]. done.
  - apply (safe_pure _ _ False); [by intros w R (_ & Hf & _); apply Hf|done].
  - by apply triple_ret; [apply _|..].
  - eapply (triple_conseq _ _ _ (λ _ _, True)); [done|intros a w R HK; exact HK|apply IH].
Qed.

(** A spawn, by the thread that claimed the slot, and its publication. *)
Definition spawn_tokens (r : result WsError WorkspaceHandle) : Res :=
  match r with Ok _ => {[+ Materialized +]} | Err _ => {[+ Claiming +]} end.
Definition spawned_ok (r : result WsError WorkspaceHandle) (w : W) (_ : Res) : Prop :=
  ∀ h, r = Ok h → h = the_handle ∧ up (ws_box w).
Lemma stable_spawned r : stable shared_ok keeps_up (spawned_ok r).
Proof. intros w R w' R' Hr _ Hs h Hh. destruct (Hs h Hh). auto. Qed.

Lemma spawn_triple image :
  triple2 (λ _ _, True) {[+ Claiming +]} (on_ws_box (spawn_workspace l f image)) spawn_tokens spawned_ok.
Proof.
  apply triple_atom; [apply _|apply stable_spawned|]. intros w fr w' r. unfold spawn_workspace.
  destruct (from_lease l image) as [s|e]; [|intros [= <- <-] [Hp Hr] _; split_and!; [done|by intros ?|done]].
  set (spec := mkSpec _ _ _ _ _ _ _ _). destruct (eng_spawn spec (ws_box w)) as [b' a] eqn:He.
  destruct (steady_spawn _ _ _ _ He) as [Hl Ha].
  assert (∀ l' f' h, (l', f', Ok h) ∈ returned w → shared_ok w ({[+ Claiming +]} ⊎ fr) → h = the_handle ∧ up b') as Hret.
  { intros l' f' h Hin [_ Hr]. destruct (Hr _ _ _ Hin). split; [done|by apply Hl]. }
  destruct a as [c|e]; intros [= <- <-] Hi _; pose proof Hi as [Hp _].
  - destruct Ha as [Hc Hn]. apply law_spawn_name in He as Hname. destruct c as [n]. cbn in Hname. subst n.
    assert (slot_phase b' (entries w) ({[+ Materialized +]} ⊎ fr)) as Hp'.
    { inversion Hp as [? Hm HR|? Hm HR|Hs Hm HR|? ? Hm HR|? ? ? ? Hm HR];
        try (symmetry in HR; first [by apply no_token in HR|by apply one_token in HR as [[=] _]]).
      symmetry in HR. apply one_token in HR as [_ ->]. rewrite (right_id_L ∅ (⊎)). by constructor; [congruence|]. }
    split_and!; [|by intros ?; apply Hl|by intros h [= <-]]. constructor; [done|]. intros l' f' h Hin. by eapply Hret.
  - split_and!; [|by intros ?; apply Hl|done]. constructor; [by apply (phase_box (ws_box w))|].
    intros l' f' h Hin. by eapply Hret.
Qed.

Lemma publish_triple r :
  triple2 (spawned_ok r) (spawn_tokens r) (publish cfg l r) (λ _, ∅) (λ _ _ _, True).
Proof.
  apply (safe_pure _ _ (∀ h, r = Ok h → h = the_handle)); [intros w R Hs h Hh; by apply Hs|]. intros Hr.
  apply triple_locked; [by intros a w R w' R' _ _|]. intros now m m' a b rs fr [= <- <-] Ht Hp. split; [|done].
  rewrite (left_id_L ∅ (⊎) fr). unfold spawn_tokens in Hp. destruct r as [h|e].
  - rewrite (Hr h eq_refl). inversion Hp as [? Hm HR|? Hm HR|? Hm HR|Hs Hu Hm HR|? ? ? ? Hm HR];
      symmetry in HR; try (first [by apply no_token in HR|by apply one_token in HR as [[=] _]]).
    apply one_token in HR as [_ ->]. rewrite insert_singleton_eq. by constructor.
  - inversion Hp as [? Hm HR|? Hm HR|Hs Hm HR|? ? Hm HR|? ? ? ? Hm HR];
      symmetry in HR; try (first [by apply no_token in HR|by apply one_token in HR as [[=] _]]).
    apply one_token in HR as [_ ->]. rewrite insert_singleton_eq. by constructor.
Qed.

Lemma shared_thread_ok fuel image :
  handler_ok shared_ok keeps_up (λ _ : Res, True) (ws_thread cfg (CallSpawn fuel l f image)).
Proof.
  apply (triple_handler _ _ _ _ (λ _ _ _, True)). cbn [ws_thread].
  eapply (triple_seq _ _ _ (λ _ _, True) (λ _ _, True) _ _ (λ _, ∅)
    (λ a w _, ∀ h, a = Some (Ok h) → h = the_handle ∧ up (ws_box w))); [apply ws_stable_true| |done|].
  - unfold spawn_or_join. eapply (triple_seq _ _ _ (λ _ _, True) (λ _ _, True) _ _ (λ _, ∅) (λ cs _ _, cs = []));
      [apply ws_stable_true| |done|].
    + apply triple_locked; [intros a; apply ws_stable_true|]. intros now m m' cs b rs fr Hr Ht Hp.
      rewrite (reap_keeps now m _ b Hp) in Hr. injection Hr as <- <-. done.
    + intros cs. apply (safe_pure _ _ (cs = [])); [by intros w R [_ ?]|]. intros ->. cbn [teardown_reaped].
      eapply (triple_conseq _ _ _ (λ _ _, True)); [done|intros a w R HK; exact HK|].
      match goal with |- context [mret () ≫= ?k] => change (mret () ≫= k) with (k ()) end. cbn beta.
      eapply (triple_seq _ _ _ (λ _ _, True)); [apply ws_stable_true|apply claim_triple|done|]. intros [[r|]|]; cbn beta iota.
      * apply triple_ret; [apply _|done|]. intros w R [_ Hc] h [= ->]. by apply Hc.
      * eapply (triple_conseq _ _ _ (λ _ _, True)); [done|intros a w R HK; exact HK|].
        eapply (triple_seq _ _ _ (λ _ _, True)); [apply ws_stable_true|apply spawn_triple|done|]. intros r.
        eapply (triple_conseq _ _ _ (spawned_ok r)); [by intros w R [_ ?]|intros a w R HK; exact HK|].
        eapply (triple_seq _ _ _ (spawned_ok r)); [apply stable_spawned|apply publish_triple|done|].
        intros []. apply triple_ret; [apply _|done|]. intros w R [Hs _] h Hh. destruct r as [h'|]; [|done].
        injection Hh as <-. by apply Hs.
      * by apply triple_ret; [apply _|..].
  - intros [r|]; [|by apply triple_ret; [apply _|..]].
    apply triple_atom; [apply _|intros a; apply ws_stable_true|]. intros w fr w' a [= <- <-] [Hp Hr] [_ Hk].
    split_and!; [|by intros ?|done]. constructor; [done|]. cbn.
    intros l' f' h [Hin|[= -> -> <-]%list_elem_of_singleton]%elem_of_app; [by eapply Hr|by apply Hk].
Qed.
End shared.

Definition spawns_for (l : RunnerLease) (f : FenceManifest) (e : WsEvent) : Prop :=
  match e with WsStart (CallSpawn _ l' f' _) => l' = l ∧ f' = f | WsStart (CallEvict _) => False | WsStep _ => True end.

(** Identical spawns share one container.  Any number of calls for one lease and
    fence, arriving and interleaving in any way within one window on a box whose
    containers stay up, start at most one container between them; every call that
    returned a handle returned the same one, and its container is up. *)
Theorem identical_spawns_share_one_box {B} `{!Engine B} (cfg : DedupConfig B) live spawns
    `{!SteadyBox B cfg live spawns} l f es b :
  Forall (spawns_for l f) es →
  let w := ws_run cfg es b in
  (spawns (ws_box w) ≤ S (spawns b))%nat ∧
  (∀ h h' l1 f1 l2 f2, (l1, f1, Ok h) ∈ returned w → (l2, f2, Ok h') ∈ returned w →
    h = h' ∧ live (ws_box w) (ws_container h)).
Proof.
  intros Hes w. destruct (steady_clock (cfg := cfg) (live := live) (spawns := spawns)) as [t0 Ht].
  destruct (runtime_invariant (shared_ok cfg live spawns l f (spawns b) t0) (keeps_up live l) (λ _, True)
    (ws_event cfg <$> es) (mkSpawner ∅ b [])) as (R & [Hp Hr] & _).
  - clear w. induction Hes as [|[c|i] es He Hes IH]; [constructor| |exact IH]. constructor; [|exact IH].
    destruct c as [fuel l' f' image|]; [|done]. destruct He as [-> ->]. by eapply shared_thread_ok.
  - constructor; [by constructor|]. cbn. set_solver.
  - split.
    + unfold w, ws_run. destruct Hp; lia.
    + intros h h' l1 f1 l2 f2 H1 H2. destruct (Hr _ _ _ H1) as [-> Hup], (Hr _ _ _ H2) as [-> _]. done.
Qed.

(** ** Resuming *)

(** A resumed workspace sees no more than the original one.  If resuming returns a
    handle, whatever the engine and the box answered, every path its fence admits
    was admitted by the fence of the state it resumes, but for the workspace root
    itself, which is no file; the handle runs under the presented lease. *)
Theorem resume_never_widens {B} `{!Engine B} run_with_stdin st new_fence lease image (b b' : B) h path :
  resume_workspace run_with_stdin st new_fence lease image b = (b', Ok h) →
  classify (ws_fence h) path = Inside →
  ws_lease h = lease ∧ (classify (original_fence st) path = Inside ∨ normalize_segments path = Some []).
Proof.
  unfold resume_workspace, mbind, M_bind, throw, mret, M_ret.
  destruct (first_widening (original_fence st) new_fence) eqn:Hw; [done|].
  destruct (spawn_workspace lease new_fence image b) as [b1 [h1|e]] eqn:Hs; [|done].
  assert (ws_lease h1 = lease) as Hl.
  { unfold spawn_workspace in Hs. destruct (from_lease lease image); [|done].
    destruct (eng_spawn _ b) as [? [c|]]; [|done]. by injection Hs as _ <-. }
  match goal with |- match ?r with _ => _ end = _ → _ => destruct r as [b2 [[]|e]] end; [|done].
  intros [= _ <-]. cbn. intros Hin.
  split; [done|]. apply (ceiling_holds _ new_fence); [|done]. apply forallb_forall. intros p Hp.
  apply find_none with (x := p) in Hw; [|done]. by destruct (path_covered_by p _).
Qed.

(** ** Runs on a small box

    Containers with the time they die at; a name that is up cannot be started
    again.  The clock stands still, or moves by one at each reading. *)
Record ToyBox : Type := mkToy { toy_up : list (string * Z); toy_time : Z; toy_started : nat }.
Definition toy_alive (n : string) (b : ToyBox) : bool :=
  existsb (λ nd, String.eqb nd.1 n && (toy_time b <? nd.2)) (toy_up b).
Definition toy_spawn (life : Z) (spec : ContainerSpec) (b : ToyBox) : ToyBox * result EngineError RunningContainer :=
  if toy_alive (spec_name spec) b then (b, Err DockerRunFailed)
  else (mkToy ((spec_name spec, toy_time b + life) :: toy_up b) (toy_time b) (S (toy_started b)),
        Ok (mkContainer (spec_name spec))).
Definition toy_engine (life : Z) : Engine ToyBox := {|
  eng_spawn := toy_spawn life;
  eng_probe _ _ b := (b, Ok (mkProbe true true));
  eng_exec _ _ b := (b, Ok (Some 0));
  eng_exec_captured _ _ b := (b, Ok (mkOut (Some 0) "" ""));
  eng_is_alive c b := (b, Ok (toy_alive (rc_name c) b));
|}.
Definition toy_remove (c : RunningContainer) (b : ToyBox) : ToyBox * result unit unit :=
  (mkToy (filter (λ nd, nd.1 ≠ rc_name c) (toy_up b)) (toy_time b) (toy_started b), Ok ()).
Definition still (b : ToyBox) : ToyBox * Z := (b, 0).
Definition ticking (b : ToyBox) : ToyBox * Z :=
  (mkToy (toy_up b) (toy_time b + 1) (toy_started b), toy_time b + 1).
Definition toy_dedup (window : Z) (clock : ToyBox → ToyBox * Z) : DedupConfig ToyBox :=
  mkDedup window DEFAULT_MAX_DEDUP_ENTRIES (Some toy_remove) clock.
Definition toy_fence : FenceManifest := mkFence ["src/"] true [].
Definition toy_call : WsEvent := WsStart (CallSpawn 10 sample_lease toy_fence sample_image).
Definition ws_steps (i n : nat) : list WsEvent := replicate n (WsStep i).

Definition steady_live (b : ToyBox) (c : RunningContainer) : Prop := toy_alive (rc_name c) b = true.
Lemma toy_steady : SteadyBox (H := toy_engine 9) ToyBox (toy_dedup 5 still) steady_live toy_started.
Proof.
  split.
  - intros spec b b' c. cbn. unfold toy_spawn. destruct (toy_alive _ _); [done|]. by intros [= <- <-].
  - intros spec b b' r. cbn. unfold toy_spawn. destruct (toy_alive (spec_name spec) b) eqn:Ha; intros [= <- <-]; [done|].
    assert (∀ c, steady_live b c → steady_live (mkToy ((spec_name spec, toy_time b + 9) :: toy_up b) (toy_time b) (S (toy_started b))) c) as Hk.
    { intros c Hc. unfold steady_live, toy_alive in *. cbn. by rewrite Hc, orb_true_r. }
    split; [exact Hk|]. split; [|done]. unfold steady_live, toy_alive. cbn.
    rewrite String.eqb_refl, (proj2 (Z.ltb_lt _ _)) by lia. done.
  - intros c b b' r. cbn. intros [= <- <-]. split_and!; [done|done|]. unfold steady_live. by intros ->.
  - exists 0. intros b b' t [= <- <-]. cbn. split_and!; [done|done|lia..].
Qed.

Definition two_calls : list WsEvent :=
  [toy_call; toy_call] ++ ws_steps 0 2 ++ ws_steps 1 3 ++ ws_steps 0 5 ++ ws_steps 1 5.
Lemma identical_spawns_share_one_box_witness :
  (toy_started (ws_box (ws_run (H := toy_engine 9) (toy_dedup 5 still) two_calls (mkToy [] 0 0))) ≤ 1)%nat.
Proof.
  refine (proj1 (identical_spawns_share_one_box (Engine0 := toy_engine 9) (toy_dedup 5 still) steady_live toy_started
    (SteadyBox0 := toy_steady) sample_lease toy_fence two_calls (mkToy [] 0 0) _)).
  repeat constructor.
Defined.

#[local] Instance toy_naming life : NamingLaw (H := toy_engine life) ToyBox.
Proof. intros spec b b' c. cbn. unfold toy_spawn. destruct (toy_alive _ _); [done|]. by intros [= <- <-]. Qed.
Definition toy_handle : WorkspaceHandle :=
  mkHandle (mkContainer (slot_key sample_lease)) sample_lease toy_fence Spawned.

Lemma handle_is_the_callers_witness :
  rc_name (ws_container toy_handle) = ws_container_name (rl_lease_id sample_lease).
Proof.
  refine (proj2 (proj2 (handle_is_the_callers (Engine0 := toy_engine 9) (NamingLaw0 := toy_naming 9) (toy_dedup 5 still)
    two_calls (mkToy [] 0 0) sample_lease toy_fence toy_handle _))).
  vm_compute. left.
Defined.

Definition toy_resume : ToyBox * result WsError WorkspaceHandle :=
  resume_workspace (H := toy_engine 9) (λ _ _ b, (b, Ok (mkOut (Some 0) "" "")))
    (mkWsState "w" (mkFence ["src/"; "Cargo.toml"] true []) "state") (mkFence ["src/bin/"] true []) sample_lease
    sample_image (mkToy [] 0 0).
Lemma resume_never_widens_witness :
  classify (mkFence ["src/"; "Cargo.toml"] true []) "src/./bin/main.rs" = Inside ∨
  normalize_segments "src/./bin/main.rs" = Some [].
Proof.
  refine (proj2 (resume_never_widens (Engine0 := toy_engine 9) (λ _ _ b, (b, Ok (mkOut (Some 0) "" "")))
    (mkWsState "w" (mkFence ["src/"; "Cargo.toml"] true []) "state") (mkFence ["src/bin/"] true []) sample_lease
    sample_image (mkToy [] 0 0) toy_resume.1
    (mkHandle (mkContainer (slot_key sample_lease)) sample_lease (mkFence ["src/bin/"] true []) Resumed)
    "src/./bin/main.rs" _ _)); vm_compute; reflexivity.
Defined.

(** An expired slot loses its container.  One call starts a container; after the
    window a second call for the same lease finds its slot expired, drops it
    without a teardown and tries to start the same name, which is up: the second
    call fails, the slot is [Failed], the container runs on, and the teardown
    hook was never called for it. *)
Theorem expired_slot_loses_its_box :
  let w := ws_run (H := toy_engine 99) (toy_dedup 2 ticking)
    ([toy_call] ++ ws_steps 0 10 ++ [toy_call] ++ ws_steps 1 10) (mkToy [] 0 0) in
  returned w = [(sample_lease, toy_fence, Ok toy_handle);
                (sample_lease, toy_fence, Err (SpawnFailed (EngineFailed DockerRunFailed)))] ∧
  entries w !! slot_key sample_lease = Some SlotFailed ∧
  toy_alive (slot_key sample_lease) (ws_box w) = true.
Proof. vm_compute. done. Qed.

(** A late probe evicts a live container.  Two calls find the same dead
    container; the first drops the slot, starts a new container and returns it; the
    second, back from its probe, drops the new slot, although it is not the one
    it probed, and fails to start the name again.  The container of the first
    caller is up, and no slot knows it. *)
Theorem late_probe_evicts_live_box :
  let w := ws_run (H := toy_engine 4) (toy_dedup 100 ticking)
    ([toy_call] ++ ws_steps 0 10 ++ [toy_call; toy_call] ++ ws_steps 1 2 ++ ws_steps 2 2 ++
     ws_steps 1 1 ++ ws_steps 2 1 ++ ws_steps 1 10 ++ ws_steps 2 10) (mkToy [] 0 0) in
  returned w = [(sample_lease, toy_fence, Ok toy_handle); (sample_lease, toy_fence, Ok toy_handle);
                (sample_lease, toy_fence, Err (SpawnFailed (EngineFailed DockerRunFailed)))] ∧
  entries w !! slot_key sample_lease = Some SlotFailed ∧
  toy_alive (slot_key sample_lease) (ws_box w) = true ∧ toy_started (ws_box w) = 2%nat.
Proof. vm_compute. done. Qed.
