(* ===== verification/Shard.v ===== *)
(** * Routing of leases to instances: [fabric-server/src/shard.rs]

    The hash every instance and the proxy agree on, the identity an instance
    reads from the proxy's headers, and the choice of a lease id that routes
    back to the instance that mints it. *)
From S2P Require Import Prelude Ledger Journal Text Task.

Definition FNV_OFFSET_BASIS : Z := 2166136261.
Definition FNV_PRIME : Z := 16777619.

Fixpoint fnv1a_32_from (hash : Z) (bytes : string) : Z :=
  match bytes with
  | EmptyString => hash
  | String b bytes => fnv1a_32_from (as_u32 (Z.lxor hash (byte b) * FNV_PRIME)) bytes
  end.
Definition fnv1a_32 (bytes : string) : Z := fnv1a_32_from FNV_OFFSET_BASIS bytes.

Definition shard_of (lease_id : string) (num_shards : Z) : Z :=
  fnv1a_32 lease_id mod Z.max num_shards 1.

(** [mint_lease_id_for_shard] with [tries] mints after the first. *)
Section mint.
Context {W : Type} (mint : Task W string).

Fixpoint mint_rest (n target : Z) (tries : nat) (last : string) : Task W string :=
  match tries with
  | O => mret last
  | S tries =>
    id ← mint;
    if shard_of id n =? target then mret id else mint_rest n target tries id
  end.

Definition mint_lease_id_for_shard (target_shard num_shards : Z) (max_tries : nat) : Task W string :=
  let n := Z.max num_shards 1 in
  let target := target_shard mod n in
  last ← mint;
  if (n =? 1) || (shard_of last n =? target) then mret last
  else mint_rest n target (Nat.max max_tries 1 - 1) last.
End mint.

(** ** Headers *)

(** [str::parse::<u32>]: an optional plus sign and digits that fit. *)
Fixpoint parse_digits (acc : Z) (s : string) : option Z :=
  match s with
  | EmptyString => Some acc
  | String c s =>
    if is_ascii_digit c then
      let acc := acc * 10 + (byte c - 48) in
      if acc <=? U32_MAX then parse_digits acc s else None
    else None
  end.
Definition parse_u32 (s : string) : option Z :=
  match s with
  | EmptyString => None
  | String "+" EmptyString => None
  | String "+" s => parse_digits 0 s
  | s => parse_digits 0 s
  end.

(** The values of [x-fabricd-num-shards] and [x-fabricd-shard], when they are text. *)
Record ShardHeaders : Type := mkHeaders { hdr_num_shards : option string; hdr_shard : option string }.

Definition header_u32 (v : option string) : option Z := s ← v; parse_u32 (trim s).

Definition parse_shard_headers (h : ShardHeaders) : option (Z * Z) :=
  n ← header_u32 (hdr_num_shards h);
  let num_shards := Z.max n 1 in
  Some (default 0 (header_u32 (hdr_shard h)) mod num_shards, num_shards).

(** ** Properties *)
Lemma fnv1a_32_from_range hash bytes : is_u32 hash → is_u32 (fnv1a_32_from hash bytes).
Proof.
  revert hash. induction bytes as [|b bytes IH]; intros hash Hh; [done|].
  cbn. apply IH, as_u32_range.
Qed.

Lemma shard_of_range id n : 0 ≤ shard_of id n < Z.max n 1.
Proof. unfold shard_of. apply Z.mod_pos_bound. lia. Qed.

Lemma parse_digits_range acc s z : is_u32 acc → parse_digits acc s = Some z → is_u32 z.
Proof.
  revert acc. induction s as [|c s IH]; intros acc Ha H; cbn in H; [by simplify_eq|].
  destruct (is_ascii_digit c) eqn:Ec; [|done].
  case_match eqn:El; [|done]. apply IH in H; [done|]. apply Z.leb_le in El.
  unfold is_ascii_digit, in_range in Ec. apply andb_true_iff in Ec as [E1 _]. apply Z.leb_le in E1.
  split; [|done]. unfold is_u32 in Ha. lia.
Qed.

Lemma parse_u32_range s z : parse_u32 s = Some z → is_u32 z.
Proof.
  assert (is_u32 0) as H0 by (split; unfold U32_MAX; lia).
  unfold parse_u32. repeat case_match; try done; intros Hd; by apply parse_digits_range in Hd.
Qed.

(** The identity read from the headers is one of the shards, whatever the
    headers say, and both numbers are [u32]s. *)
Theorem shard_identity_in_range h k n :
  parse_shard_headers h = Some (k, n) → 0 ≤ k < n ∧ 1 ≤ n ∧ is_u32 n.
Proof.
  unfold parse_shard_headers. destruct (header_u32 (hdr_num_shards h)) as [m|] eqn:E; [|done].
  cbn. intros [= <- <-]. unfold header_u32 in E. destruct (hdr_num_shards h) as [s|]; [|done].
  cbn in E. apply parse_u32_range in E. pose proof (Z.mod_pos_bound (default 0 (header_u32 (hdr_shard h))) (Z.max m 1)).
  mlia.
Qed.

Lemma shard_identity_in_range_witness :
  parse_shard_headers (mkHeaders (Some " 3") (Some "+7 ")) = Some (1, 3) ∧ 0 ≤ 1 < 3.
Proof.
  assert (parse_shard_headers (mkHeaders (Some " 3") (Some "+7 ")) = Some (1, 3)) as H by reflexivity.
  split; [exact H|]. exact (proj1 (shard_identity_in_range (mkHeaders (Some " 3") (Some "+7 ")) 1 3 H)).
Defined.

(** ** The minted id routes home

    [ids] are what the generator returns, in order. *)
Section routes.
Definition next_id : Task (list string) string :=
  atomic (λ ids, match ids with id :: ids => (ids, id) | [] => ([], "") end).

Lemma run_next_id x ids : run_alone next_id (x :: ids) = (ids, x).
Proof. done. Qed.

Lemma mint_rest_spec n target tries last ids :
  (tries ≤ length ids)%nat →
  let id := (run_alone (mint_rest next_id n target tries last) ids).2 in
  (∀ i x, (i < tries)%nat → ids !! i = Some x → shard_of x n = target → shard_of id n = target)
  ∧ (id = last ∨ id ∈ take tries ids).
Proof.
  revert last ids. induction tries as [|tries IH]; intros last ids Hlen; [split; [lia|by left]|].
  destruct ids as [|x ids]; [cbn in Hlen; lia|].
  cbn [mint_rest]. rewrite run_alone_bind, run_next_id. cbn beta iota zeta delta [fst snd].
  destruct (shard_of x n =? target) eqn:E.
  - apply Z.eqb_eq in E. cbn. split; [done|right; apply list_elem_of_here].
  - destruct (IH x ids ltac:(cbn in Hlen; lia)) as [IH1 IH2]. split.
    + intros [|i] y Hi Hy Hs; cbn in Hy; [simplify_eq; by rewrite Z.eqb_refl in E|].
      apply (IH1 i y); [lia|done..].
    + right. cbn. destruct IH2 as [->|IH2]; [apply list_elem_of_here|by apply list_elem_of_further].
Qed.

(** If any of the ids that may be drawn routes to the instance, the one that is
    chosen does; it is one of them in any case. *)
Theorem minted_id_routes_home target n tries ids :
  (1 ≤ tries ≤ length ids)%nat →
  let id := (run_alone (mint_lease_id_for_shard next_id target n tries) ids).2 in
  id ∈ take tries ids
  ∧ (∀ x, x ∈ take tries ids → shard_of x (Z.max n 1) = target mod Z.max n 1 →
     shard_of id (Z.max n 1) = target mod Z.max n 1).
Proof.
  intros [Ht Hlen]. destruct ids as [|x ids]; [cbn in Hlen; lia|]. destruct tries as [|tries]; [lia|].
  unfold mint_lease_id_for_shard. rewrite run_alone_bind, run_next_id.
  cbn beta iota zeta delta [fst snd]. set (m := Z.max n 1).
  destruct ((m =? 1) || (shard_of x m =? target mod m)) eqn:E.
  - cbn. split; [apply list_elem_of_here|]. intros y Hy Hs. apply orb_true_iff in E as [E|E]; [|by apply Z.eqb_eq].
    apply Z.eqb_eq in E. pose proof (shard_of_range x m). pose proof (Z.mod_pos_bound target m). lia.
  - replace (Nat.max (S tries) 1 - 1)%nat with tries by lia.
    destruct (mint_rest_spec m (target mod m) tries x ids ltac:(cbn in Hlen; lia)) as [H1 H2].
    split.
    + cbn. destruct H2 as [->|H2]; [apply list_elem_of_here|by apply list_elem_of_further].
    + intros y Hy Hs. cbn in Hy. apply elem_of_cons in Hy as [->|Hy].
      * rewrite Hs, Z.eqb_refl, orb_true_r in E. done.
      * apply list_elem_of_lookup in Hy as [i Hi]. apply lookup_take_Some in Hi as [Hi ?].
        apply (H1 i y); done.
Qed.
End routes.

Lemma minted_id_routes_home_witness :
  (1 ≤ 3 ≤ length ["lease-a"; "lease-b"; "lease-c"])%nat
  ∧ shard_of (run_alone (mint_lease_id_for_shard next_id 5 4 3) ["lease-a"; "lease-b"; "lease-c"]).2 4 = 1.
Proof.
  assert (1 ≤ 3 ≤ length ["lease-a"; "lease-b"; "lease-c"])%nat as Hlen by (cbn; lia).
  split; [exact Hlen|].
  refine (proj2 (minted_id_routes_home 5 4 3 ["lease-a"; "lease-b"; "lease-c"] Hlen) "lease-c" _ _).
  - cbn. set_solver.
  - vm_compute. reflexivity.
Defined.
