(* ===== verification/State.v ===== *)
(** * The shared state of the server: [app.rs]

    [AppState] as the handlers and sweeps share it: the lease ledger, the slot
    meter and the billing export, the rate windows, the side tables keyed by
    lease, the admission queue, and the two things the code only talks to, the
    box provisioner and the outside world (clock, mint, broker, plan source).
    An access is an atomic step of a [Task]; these are the accesses. *)
From S2P Require Import Prelude Tenant Ledger Journal Text Lease Boxes Caps Billing Scheduler Interference PgQueue Task ComputeMeter Envelope Attest.

(** ** Requests and answers *)
Inductive RunnerTarget : Type := TargetRepo (owner repo : string) | TargetOrg (org : string).
Record RunnerScope : Type := mkScope { scope_target : RunnerTarget; scope_labels : list string }.

(** [struct AcquireRequest]; a runner request carries its scope. *)
Record AcquireRequest : Type := mkAcquire {
  req_image_digest : string;
  req_net_policy : string;
  req_tmp_root : string;
  req_expiry_ms : Z;
  req_runner : option RunnerScope;
  req_toolchain_digest : option string;
  req_agent : bool;
  req_repo_full_name : option string;
  req_installation_id : option string;
}.

Inductive ApiError : Type := Unauthorized | NotFound | OverCap | FailClosed | Invalid.

Record MintedLease : Type := mkMinted {
  minted_id : string;
  minted_lease : RunnerLease;
  minted_spec : ContainerSpec;
}.

Record MintedPat : Type := mkPat { pat_token : string; pat_id : string; pat_expires_ms : Z }.
Record StashedCred : Type := mkCred { cred_token : string; cred_endpoint : string; cred_tenant : string }.

(** [struct CloseRequest]. *)
Record CloseRequest : Type := mkClose {
  close_status : string;
  close_check_result : option CheckResult;
  close_cost : option Z;
}.

(** [RPanicked] is a handler that died: an oversized field of an attestation. *)
Inductive Response : Type :=
| RAcquired (lease : RunnerLease) (ingest : option string)
| RCached
| RStatus (id : string) (st : RunnerState)
| RReleased (id : string)
| RClosed (id : string) (incomplete : bool) (metrics : IntentMetrics)
    (attestation : AttestationChain * string * string) (metrics_sig : option string)
| RIngested
| REvents (events : list string)
| RMeta (events : list Hook.TurnMeta)
| RError (e : ApiError)
| RPanicked.

Inductive AcPreLeaseOutcome : Type := AcHit | AcMiss | AcFailClosed.
Inductive PlanResolve : Type := PlanOk (plan : option TenantPlan) | PlanUnreachable | PlanShed | PlanPanicked.

(** ** The outside world

    Everything the handlers ask that is not theirs: each question may change
    the outside and gets an answer. *)
Class External (O : Type) : Type := {
  ext_now : O → O * Z;
  ext_mint_ready : O → O * bool;
  ext_ledger_up : O → O * bool;
  ext_task_panics : O → O * bool;
  ext_suspended : TenantId → O → O * bool;
  ext_ac_lookup : TenantId → string → O → O * AcPreLeaseOutcome;
  ext_resolve_plan : TenantId → string → O → O * PlanResolve;
  ext_plan_of : TenantId → O → O * option TenantPlan;
  ext_ceiling : TenantId → O → O * Z;
  ext_lease_id : O → O * string;
  ext_mint_jit : RunnerScope → O → O * option string;
  ext_mint_pat : string → option string → string → string → Z → Z → O → O * option MintedPat;
  ext_revoke_pat : string → O → O * bool;
  ext_instant : O → O * Z;
  ext_queue_up : O → O * bool;
  ext_queue_scan : O → O * (gset string * (string → Z));
}.

(** Unicode case mapping, [str::to_lowercase]. *)
Class Unicode : Type := to_lowercase : string → string.

(** serde_json on the metrics of a checkpoint, and on the body of a turn feed. *)
Record IngestEvent : Type := mkIngest {
  ie_kind : string;
  ie_bytes_b64 : string;
  ie_tool : option string;
  ie_usage : option TurnUsage;
  ie_busy_ms : Z;
}.
Class EnvelopeJson : Type := {
  metrics_to_json : IntentMetrics → option string;
  metrics_of_json : string → option IntentMetrics;
  ingest_body_of_json : string → option (list IngestEvent);
  ingest_line_of_json : string → option IngestEvent;
}.

(** ** The admission queue *)
Record QueuedAcquire : Type := mkQueued {
  q_tenant : TenantId;
  q_pat : string;
  q_req : AcquireRequest;
  q_lease : RunnerLease;
  q_spec : ContainerSpec;
  q_ttl_ms : Z;
  q_pending : LeaseRecord;
}.

(** A [oneshot] channel while its receiver lives: empty, or with the answer. *)
Inductive Channel : Type := Waiting | Answered (r : Response).

(** [struct AdmissionQueue]; a semaphore, which the parked requests share with
    the table, is the number of its free permits, and the durable queue, if there
    is one, is the tables it has in the database. *)
Record AdmissionQueue : Type := mkAdmission {
  aq_scheduler : FairScheduler;
  aq_waiters : gmap string QueuedAcquire;
  aq_channels : gmap string Channel;
  aq_permits : gmap TenantId nat;
  aq_semaphores : list nat;
  aq_park_cap : nat;
  aq_durable : option AdmissionTables;
}.

(** ** Side tables *)

(** [struct HookEntry]; the hook behind the handle, which the handles share, is
    in the table [hooks] under the same lease. *)
Record HookEntry : Type := mkHookEntry {
  he_tenant : TenantId;
  he_credential : string;
  he_price : PriceCard;
}.

(** The steps of an agent lease: [AgentExecResult], [AgentStepState] and
    [AgentStepEntry]. *)
Record AgentExecResult : Type := mkExecResult {
  er_step_id : string;
  er_exit_code : Z;
  er_stdout : string;
  er_stderr : string;
  er_duration_ms : Z;
  er_truncated : bool;
}.
Inductive AgentStepState : Type := StepRunning | StepDone (r : AgentExecResult) | StepFailed.
Record AgentStepEntry : Type := mkStep { step_lease : string; step_state : AgentStepState }.

Record SideTables : Type := mkTables {
  images : gmap string string;
  runner_leases : gset string;
  agent_leases : gset string;
  agent_steps : gmap string AgentStepEntry;
  toolchain_digests : gmap string string;
  pat_ids : gmap string string;
  pending_cred : gmap string StashedCred;
  hook_registry : gmap string HookEntry;
  hooks : gmap string Hook.Inner;
}.
Definition no_tables : SideTables := mkTables ∅ ∅ ∅ ∅ ∅ ∅ ∅ ∅ ∅.

Inductive Counter : Type :=
| leases_acquired | leases_closed | leases_expired | leases_crashed
| rejected_suspended | rejected_bad_request | rejected_no_plan | rejected_rate
| rejected_invalid_image | rejected_over_cap | rejected_compute_ceiling | rejected_lease_invalid
| provision_capacity_503 | mint_attempts | mint_failures | revoke_attempts | revoke_failures
| agent_exec_started | agent_exec_done | agent_exec_failed | suspend_actions.

#[export] Instance Counter_eq_dec : EqDecision Counter.
Proof. solve_decision. Defined.

(** ** [AppState] *)
Record AppState (P O : Type) : Type := mkApp {
  ledger : InMemoryInner;
  slot_meter : SlotMeter;
  exported : list SlotOccupancyEvent;
  rate_windows : gmap TenantId RateWindow;
  tables : SideTables;
  counted : list Counter;
  observed_shard : Z * Z;
  admission_queue : option AdmissionQueue;
  wait_stats : gmap TenantId (list Z);
  provisioner : P;
  outside : O;
}.
Arguments mkApp {P O}.
Arguments ledger {P O}.
Arguments slot_meter {P O}.
Arguments exported {P O}.
Arguments rate_windows {P O}.
Arguments tables {P O}.
Arguments counted {P O}.
Arguments observed_shard {P O}.
Arguments admission_queue {P O}.
Arguments wait_stats {P O}.
Arguments provisioner {P O}.
Arguments outside {P O}.

(** What the composition root fixed. *)
Inductive AdmissionMode : Type := Reject | Queue.

Record Config : Type := mkConfig {
  runner_vcpu : option Z;
  admission_mode : AdmissionMode;
  has_runner_broker : bool;
  has_cas_pat_mint : bool;
  has_cred_signer : bool;
  clw_endpoint : option string;
  cross_instance_safe : bool;
  public_base_url : option string;
  ingest_token : string → string;
  cred_ticket : string → string;
  signer_key : string;
  emit_intent_metrics_sig : bool;
}.

(** ** Accesses *)
Section accesses.
Context {P O : Type} {prov : BoxProvisioner P} {ext : External O}.
Context {json : SerdeJson} {codec : BindingCodec}.
Abbreviation W := (AppState P O).

Definition set_ledger (s : InMemoryInner) (w : W) : W :=
  mkApp s (slot_meter w) (exported w) (rate_windows w) (tables w) (counted w) (observed_shard w)
    (admission_queue w) (wait_stats w) (provisioner w) (outside w).
Definition set_meter (m : SlotMeter) (w : W) : W :=
  mkApp (ledger w) m (exported w) (rate_windows w) (tables w) (counted w) (observed_shard w)
    (admission_queue w) (wait_stats w) (provisioner w) (outside w).
Definition set_exported (evs : list SlotOccupancyEvent) (w : W) : W :=
  mkApp (ledger w) (slot_meter w) evs (rate_windows w) (tables w) (counted w) (observed_shard w)
    (admission_queue w) (wait_stats w) (provisioner w) (outside w).
Definition set_windows (ws : gmap TenantId RateWindow) (w : W) : W :=
  mkApp (ledger w) (slot_meter w) (exported w) ws (tables w) (counted w) (observed_shard w)
    (admission_queue w) (wait_stats w) (provisioner w) (outside w).
Definition set_tables (t : SideTables) (w : W) : W :=
  mkApp (ledger w) (slot_meter w) (exported w) (rate_windows w) t (counted w) (observed_shard w)
    (admission_queue w) (wait_stats w) (provisioner w) (outside w).
Definition set_counted (cs : list Counter) (w : W) : W :=
  mkApp (ledger w) (slot_meter w) (exported w) (rate_windows w) (tables w) cs (observed_shard w)
    (admission_queue w) (wait_stats w) (provisioner w) (outside w).
Definition set_shard (kn : Z * Z) (w : W) : W :=
  mkApp (ledger w) (slot_meter w) (exported w) (rate_windows w) (tables w) (counted w) kn
    (admission_queue w) (wait_stats w) (provisioner w) (outside w).
Definition set_queue (q : option AdmissionQueue) (w : W) : W :=
  mkApp (ledger w) (slot_meter w) (exported w) (rate_windows w) (tables w) (counted w)
    (observed_shard w) q (wait_stats w) (provisioner w) (outside w).
Definition set_waits (ws : gmap TenantId (list Z)) (w : W) : W :=
  mkApp (ledger w) (slot_meter w) (exported w) (rate_windows w) (tables w) (counted w)
    (observed_shard w) (admission_queue w) ws (provisioner w) (outside w).
Definition set_prov (p : P) (w : W) : W :=
  mkApp (ledger w) (slot_meter w) (exported w) (rate_windows w) (tables w) (counted w)
    (observed_shard w) (admission_queue w) (wait_stats w) p (outside w).
Definition set_outside (o : O) (w : W) : W :=
  mkApp (ledger w) (slot_meter w) (exported w) (rate_windows w) (tables w) (counted w)
    (observed_shard w) (admission_queue w) (wait_stats w) (provisioner w) o.

(** A question to the outside. *)
Definition asks {A} (f : O → O * A) (w : W) : W * A :=
  let '(o, a) := f (outside w) in (set_outside o w, a).
Definition ask {A} (f : O → O * A) : Task W A := atomic (asks f).

(** A call of the ledger: it answers, or it cannot be reached and nothing happened. *)
Definition calls_ledger {A} (m : MemM A) (w : W) : W * result LedgerError A :=
  let '(w, up) := asks ext_ledger_up w in
  if (up : bool) then let '(s, r) := m (ledger w) in (set_ledger s w, r) else (w, Err Poisoned).
Definition ledger_op {A} (m : MemM A) : Task W (result LedgerError A) := atomic (calls_ledger m).
Definition ledger_read {A} (f : InMemoryInner → A) : Task W (result LedgerError A) :=
  ledger_op (λ s, (s, Ok (f s))).

(** A call of the provisioner. *)
Definition calls_prov {A} (f : P → P * A) (w : W) : W * A :=
  let '(p, a) := f (provisioner w) in (set_prov p w, a).
Definition prov_op {A} (f : P → P * A) : Task W A := atomic (calls_prov f).

Definition incr (c : Counter) : Task W unit := update (λ w, set_counted (counted w ++ [c]) w).
Definition on_tables (f : SideTables → SideTables) : Task W unit :=
  update (λ w, set_tables (f (tables w)) w).

Definition now_ms : Task W Z := ask ext_now.

(** ** Side tables *)
Definition with_images f t := mkTables (f (images t)) (runner_leases t) (agent_leases t)
  (agent_steps t) (toolchain_digests t) (pat_ids t) (pending_cred t) (hook_registry t) (hooks t).
Definition with_runner_leases f t := mkTables (images t) (f (runner_leases t)) (agent_leases t)
  (agent_steps t) (toolchain_digests t) (pat_ids t) (pending_cred t) (hook_registry t) (hooks t).
Definition with_agent_leases f t := mkTables (images t) (runner_leases t) (f (agent_leases t))
  (agent_steps t) (toolchain_digests t) (pat_ids t) (pending_cred t) (hook_registry t) (hooks t).
Definition with_agent_steps f t := mkTables (images t) (runner_leases t) (agent_leases t)
  (f (agent_steps t)) (toolchain_digests t) (pat_ids t) (pending_cred t) (hook_registry t) (hooks t).
Definition with_toolchain_digests f t := mkTables (images t) (runner_leases t) (agent_leases t)
  (agent_steps t) (f (toolchain_digests t)) (pat_ids t) (pending_cred t) (hook_registry t) (hooks t).
Definition with_pat_ids f t := mkTables (images t) (runner_leases t) (agent_leases t)
  (agent_steps t) (toolchain_digests t) (f (pat_ids t)) (pending_cred t) (hook_registry t) (hooks t).
Definition with_pending_cred f t := mkTables (images t) (runner_leases t) (agent_leases t)
  (agent_steps t) (toolchain_digests t) (pat_ids t) (f (pending_cred t)) (hook_registry t) (hooks t).
Definition with_hooks f t := mkTables (images t) (runner_leases t) (agent_leases t)
  (agent_steps t) (toolchain_digests t) (pat_ids t) (pending_cred t) (f (hook_registry t)) (hooks t).
Definition with_hook_store f t := mkTables (images t) (runner_leases t) (agent_leases t)
  (agent_steps t) (toolchain_digests t) (pat_ids t) (pending_cred t) (hook_registry t) (f (hooks t)).

Definition stash_cred (id : string) (c : StashedCred) : Task W unit :=
  on_tables (with_pending_cred <[id := c]>).
Definition take_cred (id : string) : Task W (option StashedCred) :=
  atomic (λ w, (set_tables (with_pending_cred (delete id) (tables w)) w, pending_cred (tables w) !! id)).
Definition record_pat (id pat : string) : Task W unit := on_tables (with_pat_ids <[id := pat]>).
Definition take_pat (id : string) : Task W (option string) :=
  atomic (λ w, (set_tables (with_pat_ids (delete id) (tables w)) w, pat_ids (tables w) !! id)).
Definition mark_runner_lease (id : string) : Task W unit := on_tables (with_runner_leases (λ s, {[id]} ∪ s)).
Definition is_runner_lease (id : string) : Task W bool :=
  read (λ w, bool_decide (id ∈ runner_leases (tables w))).
Definition mark_agent_lease (id : string) : Task W unit := on_tables (with_agent_leases (λ s, {[id]} ∪ s)).
Definition is_agent_lease (id : string) : Task W bool :=
  read (λ w, bool_decide (id ∈ agent_leases (tables w))).
Definition mark_toolchain_digest (id digest : string) : Task W unit :=
  on_tables (with_toolchain_digests <[id := digest]>).
Definition toolchain_digest_of (id : string) : Task W (option string) :=
  read (λ w, toolchain_digests (tables w) !! id).
Definition image_of (id : string) : Task W (option string) := read (λ w, images (tables w) !! id).
Definition agent_step_get (step : string) : Task W (option AgentStepEntry) :=
  read (λ w, agent_steps (tables w) !! step).
Definition record_image (id image : string) : Task W unit := on_tables (with_images <[id := image]>).
Definition agent_step_begin (step id : string) : Task W unit :=
  on_tables (with_agent_steps <[step := mkStep id StepRunning]>).

(** [HookRegistry::register], at the price of nothing, and the lookups. *)
Definition ZERO_PRICE : PriceCard := mkPrice 0 0 0 0.
Definition register_hook (id : string) (t : TenantId) (hook : Hook.Inner) (credential : string) : Task W unit :=
  on_tables (λ tb, with_hooks <[id := mkHookEntry t credential ZERO_PRICE]>
                     (with_hook_store <[id := hook]> tb)).
Definition hook_entry (id : string) : Task W (option HookEntry) :=
  read (λ w, hook_registry (tables w) !! id).
Definition close_handle (id : string) (t : TenantId) : Task W (option HookEntry) :=
  e ← hook_entry id;
  mret (e ← e; if decide (he_tenant e = t) then Some e else None).

(** One locked operation of a hook. *)
Definition hook_op {A} (id : string) (f : Hook.Inner → Hook.Inner * A) : Task W (option A) :=
  atomic (λ w, match hooks (tables w) !! id with
    | Some h => let '(h, a) := f h in
        (set_tables (with_hook_store <[id := h]> (tables w)) w, Some a)
    | None => (w, None)
    end).
Definition unregister_hook (id : string) : Task W unit := on_tables (with_hooks (delete id)).

(** [revoke_pat_for]: the stash goes first, the mint is asked at most once. *)
Definition revoke_pat_for (cfg : Config) (id : string) : Task W unit :=
  take_cred id;;
  pat ← take_pat id;
  match pat with
  | Some pat =>
    if has_cas_pat_mint cfg then
      incr revoke_attempts;;
      ok ← ask (ext_revoke_pat pat);
      if (ok : bool) then mret () else incr revoke_failures
    else mret ()
  | None => mret ()
  end.

(** [forget_lease]. *)
Definition forget_lease (id : string) : Task W unit :=
  prov_op (λ p, (forget_pending_cleanup id p, ()));;
  on_tables (with_images (delete id));;
  on_tables (with_runner_leases (λ s, s ∖ {[id]}));;
  on_tables (with_agent_leases (λ s, s ∖ {[id]}));;
  on_tables (with_agent_steps (filter (λ kv, step_lease kv.2 ≠ id)));;
  on_tables (with_toolchain_digests (delete id));;
  unregister_hook id;;
  on_tables (with_pat_ids (delete id));;
  on_tables (with_pending_cred (delete id)).

(** [record_slot_inner]: the meter, then the billing export. *)
Definition record_slot_inner (id : string) (t : TenantId) (kind : SlotEventKind)
    (acquired_at_ms : option Z) : Task W unit :=
  now ← now_ms;
  let ev := mkSlotEvent t id kind now acquired_at_ms in
  update (λ w, set_meter (record (slot_meter w) ev) w);;
  update (λ w, set_exported (exported w ++ [ev]) w).
Definition record_slot id t kind := record_slot_inner id t kind None.
Definition record_slot_terminal id t kind acquired_at_ms := record_slot_inner id t kind acquired_at_ms.

(** ** Boxes *)

(** [provider_binding::restore_for_operation]. *)
Definition restore_for_operation (id : string) : Task W (result ProvError unit) :=
  rec ← ledger_read (λ s, Mem.get s id);
  match rec with
  | Err _ => mret (Err LedgerUnreadable)
  | Ok None => mret (Err LeaseMissing)
  | Ok (Some rec) =>
    if String.eqb (box_ref rec) ("box:" +:+ id) then mret (Ok ())
    else match decode (box_ref rec) with
    | Err e => mret (Err e)
    | Ok b =>
      if negb (String.eqb (b_lease_id b) id) then mret (Err LeaseMismatch)
      else prov_op (restore_provider_ref id (box_ref rec))
    end
  end.

(** A step of a [spawn_blocking] closure, which may panic instead. *)
Definition blocking {A} (t : Task W (result ProvError A)) : Task W (result ProvError A) :=
  panics ← ask ext_task_panics;
  if (panics : bool) then mret (Err ProvFailed) else t.

(** [provision_lease]. *)
Definition provision_lease (id : string) (spec : ContainerSpec) : Task W (result ProvError unit) :=
  r ← blocking (prov_op (provision id spec));
  match r with
  | Err e => mret (Err e)
  | Ok _ =>
    ref ← blocking (prov_op (λ p, (p, provider_ref id p)));
    match ref with
    | Err e => mret (Err e)
    | Ok ref =>
      bound ← ledger_op (Mem.bind_provider_ref id ref);
      mret (match bound with Ok _ => Ok () | Err _ => Err LedgerRefused end)
    end
  end.

(** [teardown_lease]: whether the box is confirmed gone. *)
Definition teardown_lease (id : string) : Task W bool :=
  r ← blocking (restore_for_operation id);
  match r with
  | Err _ => mret false
  | Ok _ =>
    r ← blocking (prov_op (teardown id));
    mret (is_ok r)
  end.

(** [teardown_pending_lease]. *)
Definition teardown_pending_lease (id : string) : Task W CleanupTeardown :=
  panics ← ask ext_task_panics;
  if (panics : bool) then mret Retryable
  else
    r ← restore_for_operation id;
    match r with
    | Err _ => mret Unconfirmed
    | Ok _ =>
      panics ← ask ext_task_panics;
      if (panics : bool) then mret Retryable else prov_op (teardown_pending id)
    end.

(** [probe_lease]. *)
Definition probe_lease (id : string) : Task W (result ProvError ProbeStatus) :=
  r ← blocking (restore_for_operation id);
  match r with
  | Err e => mret (Err e)
  | Ok _ => blocking (prov_op (probe id))
  end.
End accesses.
