(* ===== verification/Service.v ===== *)
(** * The lease service: [handlers/leases.rs], [close.rs], [envelope.rs], [pending_cleanup.rs], [reaper.rs]

    The handlers and sweeps that move leases, as tasks over the shared state:
    admission and provisioning, rollback, status, cancel, close, the turn feed,
    the deadline and crash sweeps and the kill of a suspended tenant.  Each
    statement that takes a lock, calls the ledger, the provisioner or another
    service is one access; between two of them any other task may run. *)
From S2P Require Import Prelude Tenant Ledger Journal Text Lease Boxes Caps Billing Task ComputeMeter Envelope Attest Shard State.

(** ** What is injected into a box: [runner_inject.rs], [envelope_inject.rs] *)
Definition inject_runner_jitconfig (jitconfig : string) (spec : ContainerSpec) : ContainerSpec :=
  push_env "CORELINK_RUNNER_JITCONFIG" jitconfig spec.

Definition inject_clw_env (token endpoint tenant : string) (spec : ContainerSpec) : ContainerSpec :=
  push_env "CLW_REF_DOMAIN" "runner"
    (push_env "CLW_TOKEN" token (push_env "CLW_TENANT" tenant (push_env "CLW_ENDPOINT" endpoint spec))).

(** [get(FABRIC_PUBLIC_BASE_URL).filter(|s| !s.trim().is_empty())]. *)
Definition public_base (base : option string) : option string :=
  b ← base; if String.eqb (trim b) "" then None else Some b.

Definition inject_cred_ticket_env_with (ticket lease_id endpoint tenant : string) (base : option string)
    (spec : ContainerSpec) : ContainerSpec :=
  let spec := push_env "CLW_REF_DOMAIN" "runner"
    (push_env "CLW_LEASE_ID" lease_id (push_env "CLW_CRED_TICKET" ticket
      (push_env "CLW_TENANT" tenant (push_env "CLW_ENDPOINT" endpoint spec)))) in
  match public_base base with
  | Some base => push_env "CLW_FABRIC_ENDPOINT" (trim_end_matches "/" base) spec
  | None => spec
  end.

Definition ingest_path (lease_id : string) : string := "/v1/leases/" +:+ lease_id +:+ "/envelope/ingest".

Definition inject_ingest_env_with (lease_id credential : string) (base : option string)
    (spec : ContainerSpec) : ContainerSpec :=
  let path := ingest_path lease_id in
  push_env "CORELINK_ENVELOPE_INGEST_CREDENTIAL" credential
    match public_base base with
    | Some base => push_env "CORELINK_ENVELOPE_INGEST_URL" (trim_end_matches "/" base +:+ path) spec
    | None => push_env "CORELINK_ENVELOPE_INGEST_BASE_URL" ""
                (push_env "CORELINK_ENVELOPE_INGEST_URL" path spec)
    end.

(** ** Parts of the handlers *)
Definition MAX_EXPIRY_MS : Z := 3600000.
Definition SHARD_UNKNOWN : Z := U32_MAX.
Definition SHARD_MINT_MAX_TRIES : nat := 64.

Inductive FinalizeOutcome : Type := Done (r : Response) | CapacityError.

(** [enum PendingRollbackPhase]. *)
Inductive PendingRollbackPhase : Type := BeforeProvision | AfterProvision.

Definition not_found : Response := RError NotFound.
Definition fail_closed : Response := RError FailClosed.
Definition capacity_exhausted_503 : Response := RError FailClosed.

(** [RunnerTarget::canonical]. *)
Definition canonical {unicode : Unicode} (t : RunnerTarget) : string :=
  match t with
  | TargetRepo owner repo => "repo:" +:+ to_lowercase owner +:+ "/" +:+ to_lowercase repo
  | TargetOrg org => "org:" +:+ to_lowercase org
  end.

(** What the period and the reservation of an admission come to: [None] is the
    panic of the calendar, [Some (Err _)] a reservation the ledger cannot hold. *)
Definition compute_gate (vcpu : option Z) (ceiling ttl now : Z) : option (result () (option ComputeGate)) :=
  match vcpu with
  | None => Some (Ok None)
  | Some vcpu =>
    period ← period_key now;
    let reserved := vcpu_ms vcpu ttl in
    Some (if negb (fits_ledger reserved) then Err ()
          else Ok (Some (mkGate period ceiling vcpu reserved)))
  end.

(** [div_ceil] of the rate ceiling over the shards. *)
Definition effective_ceiling (rate num_shards : Z) : Z :=
  if 1 <? num_shards then (rate + num_shards - 1) / num_shards else rate.

(** The rate window of one tenant: prune the idle ones, count, push. *)
Definition rate_check (t : TenantId) (ceiling now : Z) (ws : gmap TenantId RateWindow) :
    gmap TenantId RateWindow * bool :=
  let ws := filter (λ kw, kw.1 = t ∨ is_idle_at kw.2 now = false) ws in
  let window := default window_new (ws !! t) in
  (<[t := push window now]> ws, ceiling <=? count_within_60s window now).

Definition build_lease (tenant : TenantId) (id : string) (req : AcquireRequest) (now : Z) : RunnerLease :=
  let policy := if bool_decide (is_Some (req_runner req)) then "egress-runner"
                else if req_agent req then "egress-agent" else req_net_policy req in
  mkRunnerLease id ["tenant:" +:+ as_str tenant] [req_tmp_root req] (now +sat req_expiry_ms req)
    policy (req_tmp_root req) Held.

Definition build_spec (lease : RunnerLease) (req : AcquireRequest) : result SpecError ContainerSpec :=
  if bool_decide (is_Some (req_runner req)) then from_runner_lease lease (req_image_digest req)
  else if req_agent req then from_agent_lease lease (req_image_digest req)
  else from_lease lease (req_image_digest req).

Definition pending_record (tenant : TenantId) (id : string) (now deadline : Z) : LeaseRecord :=
  mkLease id tenant Pending ("box:" +:+ id) now now (Some deadline) None.

Definition with_expiry (ms : Z) (req : AcquireRequest) : AcquireRequest :=
  mkAcquire (req_image_digest req) (req_net_policy req) (req_tmp_root req) ms (req_runner req)
    (req_toolchain_digest req) (req_agent req) (req_repo_full_name req) (req_installation_id req).

Section service.
Context {P O : Type} {prov : BoxProvisioner P} {ext : External O}.
Context {json : SerdeJson} {codec : BindingCodec} {unicode : Unicode} {ejson : EnvelopeJson} {crypto : Crypto}.
Context (cfg : Config).
Abbreviation W := (AppState P O).

(** ** Pending cleanup: [pending_cleanup.rs] *)

(** [rollback_pending_admission]: whether the reservation is gone. *)
Definition rollback_pending_admission (id : string) (ph : PendingRollbackPhase) : Task W bool :=
  now ← now_ms;
  claimed ← ledger_op (Mem.claim_pending_cleanup id now);
  match claimed with
  | Err _ | Ok None => mret false
  | Ok (Some row) =>
    gone ← match ph with
           | BeforeProvision => mret true
           | AfterProvision =>
             r ← teardown_pending_lease (lease_id row);
             mret (bool_decide (r = ConfirmedDestroyed))
           end;
    if (gone : bool) then
      finished ← ledger_op (Mem.finish_pending_cleanup (lease_id row));
      match finished with
      | Ok true => prov_op (λ p, (forget_pending_cleanup (lease_id row) p, ()));; mret true
      | _ => mret false
      end
    else mret false
  end.

(** The body of the loop of [sweep_stale_pending]. *)
Definition sweep_row (row : LeaseRecord) : Task W nat :=
  r ← teardown_pending_lease (lease_id row);
  if negb (bool_decide (r = ConfirmedDestroyed)) then mret 0%nat
  else
    finished ← ledger_op (Mem.finish_pending_cleanup (lease_id row));
    match finished with
    | Ok true =>
      prov_op (λ p, (forget_pending_cleanup (lease_id row) p, ()));;
      revoke_pat_for cfg (lease_id row);;
      forget_lease (lease_id row);;
      mret 1%nat
    | _ => mret 0%nat
    end.

Definition sweep_stale_pending (max_age_ms : Z) : Task W nat :=
  now ← now_ms;
  claimed ← ledger_op (Mem.claim_stale_pending_cleanup now max_age_ms);
  match claimed with
  | Err _ => mret 0%nat
  | Ok rows => for_each sweep_row rows
  end.

(** ** Finalizing an admitted lease *)

(** The runner registration: a config to inject, nothing to do, or a refusal. *)
Definition register_runner (req : AcquireRequest) (spec : ContainerSpec) : Task W (option ContainerSpec) :=
  match req_runner req with
  | None => mret (Some spec)
  | Some scope =>
    if negb (has_runner_broker cfg) then mret None
    else
      panics ← ask ext_task_panics;
      if (panics : bool) then mret None
      else
        jit ← ask (ext_mint_jit scope);
        mret ((λ j, inject_runner_jitconfig j spec) <$> jit)
  end.

(** The per-job credential. *)
Definition mint_credential (t : TenantId) (pat id : string) (lease : RunnerLease) (req : AcquireRequest)
    (spec : ContainerSpec) : Task W (option ContainerSpec) :=
  if negb (has_cas_pat_mint cfg) then mret (Some spec)
  else match req_repo_full_name req, req_installation_id req with
  | None, None => mret (Some spec)
  | None, Some _ => mret None
  | Some repo, inst =>
    revoke_pat_for cfg id;;
    incr mint_attempts;;
    now ← now_ms;
    minted ← ask (ext_mint_pat repo inst pat id (expiry lease) now);
    match minted with
    | None => incr mint_failures;; mret None
    | Some m =>
      let endpoint := default "" (clw_endpoint cfg) in
      spec ← (if has_cred_signer cfg then
                stash_cred id (mkCred (pat_token m) endpoint (as_str t));;
                mret (inject_cred_ticket_env_with (cred_ticket cfg id) id endpoint (as_str t)
                        (public_base_url cfg) spec)
              else mret (inject_clw_env (pat_token m) endpoint (as_str t) spec));
      record_pat id (pat_id m);;
      mret (Some spec)
    end
  end.

(** [finalize_admitted_lease]. *)
Definition finalize_admitted_lease (t : TenantId) (pat : string) (m : MintedLease) (req : AcquireRequest) :
    Task W FinalizeOutcome :=
  let id := minted_id m in
  now ← now_ms;
  spec ← register_runner req (minted_spec m);
  match spec with
  | None => rollback_pending_admission id BeforeProvision;; mret (Done fail_closed)
  | Some spec =>
    spec ← mint_credential t pat id (minted_lease m) req spec;
    match spec with
    | None => rollback_pending_admission id BeforeProvision;; mret (Done fail_closed)
    | Some spec =>
      provisioned ← provision_lease id spec;
      match provisioned with
      | Err e =>
        cleaned ← rollback_pending_admission id AfterProvision;
        if is_capacity_error e && cleaned then mret CapacityError
        else revoke_pat_for cfg id;; mret (Done fail_closed)
      | Ok _ =>
        moved ← ledger_op (Mem.transition id Held now);
        match moved with
        | Err _ =>
          incr rejected_lease_invalid;;
          rollback_pending_admission id AfterProvision;;
          revoke_pat_for cfg id;;
          mret (Done fail_closed)
        | Ok _ =>
          record_slot id t Acquired;;
          incr leases_acquired;;
          record_image id (req_image_digest req);;
          (if bool_decide (is_Some (req_runner req)) then mark_runner_lease id else mret ());;
          (if req_agent req then mark_agent_lease id else mret ());;
          at_ns ← ask ext_instant;
          opened ← ask ext_instant;
          register_hook id t (Hook.open 256 pat (Collector.new at_ns) opened) pat;;
          mret (Done (RAcquired (minted_lease m)
            (if bool_decide (is_Some (req_runner req)) then None else Some (ingest_token cfg id))))
        end
      end
    end
  end.

(** ** Acquire *)

(** [observe_shard_from_headers] and [acquire_shard_target]. *)
Definition observe_shard (k n : Z) : Task W unit := update (λ w, set_shard (k, Z.max n 1) w).
Definition observe_shard_from_headers (h : ShardHeaders) : Task W unit :=
  match parse_shard_headers h with Some (k, n) => observe_shard k n | None => mret () end.
Definition acquire_shard_target (h : ShardHeaders) : Task W (Z * Z) :=
  match parse_shard_headers h with
  | Some kn => mret kn
  | None => read (λ w, let '(k, n) := observed_shard w in (if k =? SHARD_UNKNOWN then 0 else k, n))
  end.

Definition mint_lease_id_for (target n : Z) : Task W string :=
  mint_lease_id_for_shard (ask ext_lease_id) target n SHARD_MINT_MAX_TRIES.

(** [build_compute_gate]. *)
Definition build_compute_gate (t : TenantId) (ttl now : Z) : Task W (option (result () (option ComputeGate))) :=
  match runner_vcpu cfg with
  | None => mret (Some (Ok None))
  | Some vcpu =>
    ceiling ← ask (ext_ceiling t);
    mret (compute_gate (Some vcpu) ceiling ttl now)
  end.

Definition reject (c : Counter) (e : ApiError) : Task W Response := incr c;; mret (RError e).

(** The gates before the plan is known; [None] lets the request pass. *)
Definition acquire_gates (t : TenantId) (req : AcquireRequest) (num_shards : Z) : Task W (option Response) :=
  if (1 <? num_shards) && negb (cross_instance_safe cfg) then mret (Some fail_closed)
  else
    suspended ← ask (ext_suspended t);
    if (suspended : bool) then r ← reject rejected_suspended OverCap; mret (Some r)
    else if bool_decide (is_Some (req_runner req)) && negb (has_runner_broker cfg)
    then r ← reject rejected_bad_request Invalid; mret (Some r)
    else
      binds ← read (λ w, binds_boxes (provisioner w));
      if bool_decide (is_Some (req_runner req)) && negb binds
      then r ← reject rejected_bad_request Invalid; mret (Some r)
      else if req_agent req && bool_decide (is_Some (req_runner req))
      then r ← reject rejected_bad_request Invalid; mret (Some r)
      else if req_agent req && negb binds
      then r ← reject rejected_bad_request Invalid; mret (Some r)
      else
        hit ← ask (ext_ac_lookup t (req_image_digest req));
        mret (match hit with
              | AcHit => Some RCached
              | AcMiss => None
              | AcFailClosed => Some fail_closed
              end).

(** The plan, and whether it permits the runner target. *)
Definition acquire_plan (t : TenantId) (pat : string) (req : AcquireRequest) :
    Task W (Response + TenantPlan) :=
  resolved ← ask (ext_resolve_plan t pat);
  match resolved with
  | PlanOk None => r ← reject rejected_no_plan OverCap; mret (inl r)
  | PlanUnreachable | PlanShed | PlanPanicked => mret (inl fail_closed)
  | PlanOk (Some plan) =>
    match req_runner req with
    | Some scope =>
      if bool_decide (Exists (λ e, to_lowercase (trim e) = canonical (scope_target scope)) (repo_allowlist plan))
      then mret (inr plan)
      else r ← reject rejected_bad_request Invalid; mret (inl r)
    | None => mret (inr plan)
    end
  end.

(** The spec of a minted lease, with what a plain check lease carries. *)
Definition acquire_spec (id : string) (lease : RunnerLease) (req : AcquireRequest) :
    Task W (option ContainerSpec) :=
  let is_runner := bool_decide (is_Some (req_runner req)) in
  match build_spec lease req with
  | Err _ => mret None
  | Ok spec =>
    let spec := if negb is_runner && negb (req_agent req)
                then inject_ingest_env_with id (ingest_token cfg id) (public_base_url cfg) spec else spec in
    match req_toolchain_digest req with
    | Some d =>
      if is_runner then mret (Some spec)
      else mark_toolchain_digest id d;; mret (Some (push_env "TOOLCHAIN_DIGEST" d spec))
    | None => mret (Some spec)
    end
  end.

(** Admission of a minted lease and what follows from its outcome. *)
Definition acquire_admit (enqueue : TenantId → string → AcquireRequest → MintedLease → Z → Task W Response)
    (t : TenantId) (pat : string) (req : AcquireRequest) (plan : TenantPlan) (m : MintedLease) (now : Z) :
    Task W Response :=
  let id := minted_id m in
  gate ← build_compute_gate t (req_expiry_ms req) now;
  match gate with
  | None => mret RPanicked
  | Some (Err _) => mret fail_closed
  | Some (Ok gate) =>
    admitted ← ledger_op (Mem.try_admit_with_compute
      (pending_record t id now (expiry (minted_lease m))) (max_concurrency plan) gate);
    match admitted with
    | Err _ => reject rejected_lease_invalid FailClosed
    | Ok OverCompute => reject rejected_compute_ceiling OverCap
    | Ok OverConcurrency =>
      match admission_mode cfg with
      | Reject => reject rejected_over_cap OverCap
      | Queue => enqueue t pat req m now
      end
    | Ok LeaseAdmitted =>
      outcome ← finalize_admitted_lease t pat m req;
      match outcome with
      | Done resp => mret resp
      | CapacityError =>
        incr provision_capacity_503;;
        revoke_pat_for cfg id;;
        mret capacity_exhausted_503
      end
    end
  end.

(** [acquire]. *)
Definition acquire (enqueue : TenantId → string → AcquireRequest → MintedLease → Z → Task W Response)
    (t : TenantId) (pat : string) (headers : ShardHeaders) (req : AcquireRequest) : Task W Response :=
  ready ← ask ext_mint_ready;
  if negb ready then mret fail_closed
  else
    now ← now_ms;
    observe_shard_from_headers headers;;
    target ← acquire_shard_target headers;
    let '(shard_target, num_shards) := target in
    let req := with_expiry (Z.min (req_expiry_ms req) MAX_EXPIRY_MS) req in
    stop ← acquire_gates t req num_shards;
    match stop with
    | Some r => mret r
    | None =>
      plan ← acquire_plan t pat req;
      match plan with
      | inl r => mret r
      | inr plan =>
        over ← atomic (λ w, let '(ws, over) := rate_check t
                   (effective_ceiling (rate_ceiling_per_min plan) num_shards) now (rate_windows w) in
                 (set_windows ws w, over));
        if (over : bool) then reject rejected_rate OverCap
        else
          id ← mint_lease_id_for shard_target num_shards;
          let lease := build_lease t id req now in
          spec ← acquire_spec id lease req;
          match spec with
          | None => reject rejected_invalid_image Invalid
          | Some spec => acquire_admit enqueue t pat req plan (mkMinted id lease spec) now
          end
      end
    end.

(** ** Status and cancel *)
Definition status (t : TenantId) (id : string) : Task W Response :=
  rec ← ledger_read (λ s, Mem.get s id);
  mret (match rec with
        | Err _ => fail_closed
        | Ok None => not_found
        | Ok (Some r) =>
          if decide (tenant r = t) then
            match state r with Pending => not_found | Wire st => RStatus (lease_id r) st end
          else not_found
        end).

Definition cancel (t : TenantId) (id : string) : Task W Response :=
  rec ← ledger_read (λ s, Mem.get s id);
  match rec with
  | Err _ => mret fail_closed
  | Ok None => mret not_found
  | Ok (Some r) =>
    if negb (bool_decide (tenant r = t)) then mret not_found
    else match state r with
    | Pending => mret not_found
    | Wire Released => mret (RReleased (lease_id r))
    | Wire Expired | Wire Crashed => mret (RError Invalid)
    | Wire Held =>
      torn ← teardown_lease id;
      if negb torn then mret fail_closed
      else
        now ← now_ms;
        moved ← ledger_op (Mem.transition id Released now);
        match moved with
        | Ok _ =>
          record_slot id t SlotReleased;;
          incr leases_closed;;
          revoke_pat_for cfg id;;
          forget_lease id;;
          mret (RReleased id)
        | Err _ =>
          again ← ledger_read (λ s, Mem.get s id);
          mret (match again with
                | Ok (Some r) => if decide (state r = Wire Released) then RReleased (lease_id r) else fail_closed
                | _ => fail_closed
                end)
        end
    end
  end.

(** ** Close *)

(** The memo key of a delivered result must be that of its own axes: [None] is
    a result that lies, [Some None] the panic of an oversized axis. *)
Definition check_memo (result : option CheckResult) : option (option ()) :=
  match result with
  | None => Some (Some ())
  | Some r =>
    match compute_memo_key (tree_hash r) (def_digest r) (toolchain_digest r) with
    | None => Some None
    | Some expected => if String.eqb (memo_key r) expected then Some (Some ()) else None
    end
  end.

Definition zero_metrics : IntentMetrics := mkMetrics (mkTokens 0 0 0 0 0) 0 0 0 [] 0 0.

(** The close machinery of a hooked lease; [None] is a refusal or a panic. *)
Definition drive_close (id : string) (e : HookEntry) (status : JobStatus) : Task W (option CloseOutcome) :=
  panics ← ask ext_task_panics;
  if (panics : bool) then mret None
  else
    died ← ask ext_instant;
    begun ← hook_op id (Hook.close_begin status died (he_price e));
    match begun with
    | Some (Ok metrics) => hook_op id (Hook.close_finish status metrics)
    | _ => mret None
    end.

Definition with_cost (cost : option Z) (m : IntentMetrics) : IntentMetrics :=
  match cost with
  | None => m
  | Some c => mkMetrics (tokens m) (wall_ms m) (active_ms m) (tool_calls m) (tool_breakdown m)
                (model_turns m) c
  end.

Definition attest_close (t : TenantId) (result : option CheckResult) :
    option (AttestationChain * string * string) :=
  let principal := ["tenant:" +:+ as_str t] in
  match result with
  | Some r => attest_close_result (signer_key cfg) r principal
  | None => attest_no_result (signer_key cfg) principal
  end.

(** After the machinery: release, free the slot, forget, attest. *)
Definition close_release (t : TenantId) (id : string) (req : CloseRequest) (metrics : IntentMetrics)
    (incomplete : bool) : Task W Response :=
  let metrics := with_cost (close_cost req) metrics in
  now ← now_ms;
  moved ← ledger_op (Mem.transition id Released now);
  match moved with
  | Err _ => mret fail_closed
  | Ok released =>
    unregister_hook id;;
    record_slot_terminal id t SlotReleased (billing_acquired_at_ms released);;
    incr leases_closed;;
    revoke_pat_for cfg id;;
    forget_lease id;;
    mret (match attest_close t (close_check_result req) with
          | None => RPanicked
          | Some att =>
            if emit_intent_metrics_sig cfg then
              match sign_intent_metrics (signer_key cfg) id (as_str t) metrics with
              | Some sig => RClosed id incomplete metrics att (Some sig)
              | None => RPanicked
              end
            else RClosed id incomplete metrics att None
          end)
  end.

Definition close (t : TenantId) (id : string) (req : CloseRequest) : Task W Response :=
  rec ← ledger_read (λ s, Mem.get s id);
  match rec with
  | Err _ => mret fail_closed
  | Ok None => mret not_found
  | Ok (Some r) =>
    if negb (bool_decide (tenant r = t)) then mret not_found
    else match state r with
    | Pending => mret not_found
    | Wire Released | Wire Expired | Wire Crashed => mret (RError Invalid)
    | Wire Held =>
      let status := if String.eqb (close_status req) "succeeded" then Some Succeeded
                    else if String.eqb (close_status req) "failed" then Some Failed else None in
      match status, check_memo (close_check_result req) with
      | None, _ | Some _, None => mret (RError Invalid)
      | Some _, Some None => mret RPanicked
      | Some status, Some (Some _) =>
        torn ← teardown_lease id;
        if negb torn then mret fail_closed
        else
          handle ← close_handle id t;
          match handle with
          | None => close_release t id req zero_metrics false
          | Some e =>
            outcome ← drive_close id e status;
            match outcome with
            | None => mret fail_closed
            | Some o => close_release t id req (out_metrics o) (capture_incomplete o)
            end
          end
      end
    end
  end.

(** ** The turn feed: [handlers/envelope.rs] *)
Definition into_transcript_event (e : IngestEvent) : option TranscriptEvent :=
  bytes ← b64_decode (ie_bytes_b64 e);
  if String.eqb (ie_kind e) "model_turn" then Some (ModelTurn bytes (ie_usage e) (ie_busy_ms e))
  else if String.eqb (ie_kind e) "tool_call" then tool ← ie_tool e; Some (ToolCall tool bytes (ie_busy_ms e))
  else if String.eqb (ie_kind e) "tool_result" then tool ← ie_tool e; Some (ToolResult tool bytes)
  else if String.eqb (ie_kind e) "prompt" then Some (SystemPrompt bytes)
  else None.

(** [parse_ndjson]: the lines that are not blank, all of them events. *)
Definition parse_ndjson (body : string) : option (list IngestEvent) :=
  evs ← mapM ingest_line_of_json (filter (λ l, l ≠ "") (trim <$> split "010" body));
  match evs with [] => None | _ => Some evs end.

Definition parse_events (body : string) : option (list IngestEvent) :=
  match ingest_body_of_json body with Some evs => Some evs | None => parse_ndjson body end.

(** The loop: the response that stops it, or whether a turn was written. *)
Fixpoint write_events (id : string) (evs : list IngestEvent) (wrote_turn : bool) : Task W (Response + bool) :=
  match evs with
  | [] => mret (inr wrote_turn)
  | ev :: evs =>
    match into_transcript_event ev with
    | None => mret (inl (RError Invalid))
    | Some te =>
      now ← ask ext_instant;
      r ← hook_op id (Hook.write now te);
      match r with
      | Some (Ok _) =>
        write_events id evs (wrote_turn || match te with ModelTurn _ _ _ => true | _ => false end)
      | _ => mret (inl fail_closed)
      end
    end
  end.

(** [checkpoint_turn]. *)
Definition checkpoint_turn (id : string) (e : HookEntry) : Task W unit :=
  now ← ask ext_instant;
  m ← hook_op id (λ h, (h, Hook.snapshot_metrics now (he_price e) h));
  match m with
  | Some m => match metrics_to_json m with
    | Some j => ledger_op (Mem.set_envelope_checkpoint id j);; mret ()
    | None => mret ()
    end
  | None => mret ()
  end.

(** [ingest], given the bearer the request presented. *)
Definition ingest (presented : option string) (id body : string) : Task W Response :=
  match presented with
  | None => mret (RError Unauthorized)
  | Some presented =>
    if negb (String.eqb presented (ingest_token cfg id)) then mret (RError Unauthorized)
    else
      e ← hook_entry id;
      match e with
      | None => mret not_found
      | Some e =>
        match parse_events body with
        | None | Some [] => mret (RError Invalid)
        | Some evs =>
          r ← write_events id evs false;
          match r with
          | inl resp => mret resp
          | inr wrote_turn =>
            (if (wrote_turn : bool) then checkpoint_turn id e else mret ());;
            mret RIngested
          end
        end
      end
  end.

(** [subscribe] and the drains, of at most [fuel] entries. *)
Definition subscribe (t : TenantId) (id : string) : Task W (Response + unit) :=
  e ← hook_entry id;
  match e with
  | None => mret (inl not_found)
  | Some e =>
    if negb (bool_decide (he_tenant e = t)) then mret (inl not_found)
    else
      ok ← hook_op id (λ h, (h, Hook.subscribe (he_credential e) h));
      mret (match ok with Some (Ok _) => inr () | _ => inl fail_closed end)
  end.

Fixpoint drain {A} (id : string) (next : Hook.Inner → Hook.Inner * option A) (fuel : nat) (acc : list A) :
    Task W (list A) :=
  match fuel with
  | 0%nat => mret acc
  | S fuel =>
    x ← hook_op id next;
    match x with
    | Some (Some a) => drain id next fuel (acc ++ [a])
    | _ => mret acc
    end
  end.

Definition poll_events (fuel : nat) (t : TenantId) (id : string) : Task W Response :=
  sub ← subscribe t id;
  match sub with
  | inl r => mret r
  | inr _ => evs ← drain id Hook.next_event fuel []; mret (REvents (b64_encode <$> evs))
  end.

Definition poll_meta (fuel : nat) (t : TenantId) (id : string) : Task W Response :=
  sub ← subscribe t id;
  match sub with
  | inl r => mret r
  | inr _ => ms ← drain id Hook.next_meta fuel []; mret (RMeta ms)
  end.

(** ** The sweeps: [reaper.rs] *)

(** [flush_partial_envelope]: what is left of the envelope of a lease that ended
    abnormally, from its hook, else from its checkpoint, else a zero marker. *)
Definition flush_partial_envelope (id : string) (kind : AbnormalKind) (died : Z) : Task W (option CloseOutcome) :=
  e ← hook_entry id;
  match e with
  | Some e =>
    r ← hook_op id (Hook.close_abnormal kind died (he_price e));
    mret (match r with Some (Ok o) => Some o | _ => None end)
  | None =>
    checkpoint ← ledger_read (λ s, Mem.get_envelope_checkpoint s id);
    let stored := match checkpoint with Ok (Some j) => metrics_of_json j | _ => None end in
    mret (Some (mkOutcome Killed (default zero_metrics stored) true (Hook.reason_of kind)))
  end.

(** The end of a swept lease, after its box is gone: the sweep that wins the
    transition revokes, flushes, forgets and frees the slot. *)
Definition terminalize (rec : LeaseRecord) (to : RunnerState) (kind : SlotEventKind) (why : AbnormalKind)
    (c : Counter) (now : Z) : Task W nat :=
  moved ← ledger_op (Mem.transition (lease_id rec) to now);
  match moved with
  | Err _ => mret 0%nat
  | Ok _ =>
    revoke_pat_for cfg (lease_id rec);;
    died ← ask ext_instant;
    flush_partial_envelope (lease_id rec) why died;;
    forget_lease (lease_id rec);;
    record_slot_terminal (lease_id rec) (tenant rec) kind (billing_acquired_at_ms rec);;
    incr c;;
    mret 1%nat
  end.

Definition reap_row (now : Z) (rec : LeaseRecord) : Task W nat :=
  torn ← teardown_lease (lease_id rec);
  if (torn : bool) then terminalize rec Expired SlotExpired Expiry leases_expired now else mret 0%nat.

Definition is_overdue (now : Z) (rec : LeaseRecord) : Prop := default U64_MAX (deadline_ms rec) ≤ now.
#[global] Instance is_overdue_dec now rec : Decision (is_overdue now rec).
Proof. unfold is_overdue. apply _. Defined.

(** [reap_once]. *)
Definition reap_once : Task W nat :=
  now ← now_ms;
  rows ← ledger_read Mem.held;
  for_each (reap_row now) (filter (is_overdue now) (match rows with Ok rs => rs | Err _ => [] end)).

Definition crash_row (now : Z) (rec : LeaseRecord) : Task W nat :=
  status ← probe_lease (lease_id rec);
  match status with
  | Ok ProbeDead =>
    torn ← teardown_lease (lease_id rec);
    if (torn : bool) then terminalize rec Crashed SlotCrashed Crash leases_crashed now else mret 0%nat
  | _ => mret 0%nat
  end.

(** [surface_crashes]. *)
Definition surface_crashes : Task W nat :=
  now ← now_ms;
  rows ← ledger_read Mem.held;
  for_each (crash_row now) (match rows with Ok rs => rs | Err _ => [] end).

(** [kill_tenant_leases] (app.rs). *)
Definition kill_row (t : TenantId) (id : string) : Task W nat :=
  torn ← teardown_lease id;
  revoke_pat_for cfg id;;
  if negb torn then mret 0%nat
  else
    now ← now_ms;
    moved ← ledger_op (Mem.transition id Crashed now);
    match moved with
    | Err _ => mret 0%nat
    | Ok _ => record_slot id t SlotCrashed;; forget_lease id;; mret 1%nat
    end.

Definition kill_tenant_leases (t : TenantId) : Task W nat :=
  rows ← ledger_read (λ s, Mem.by_tenant s t);
  for_each (kill_row t)
    (lease_id <$> filter (λ r, is_held (state r) = true) (match rows with Ok rs => rs | Err _ => [] end)).
End service.
