(* ===== verification/ServiceLogic.v ===== *)
(** * The lease service: the invariant

    What holds between any two accesses, whatever tasks are under way, with the
    tokens the tasks own: the right to admit and to provision a minted lease,
    and the slot events still to be recorded.  The second half shows, access by
    access, that the ledger calls, the provider calls and the slot events keep it. *)
From stdpp Require Import gmultiset.
From S2P Require Import Prelude Tenant Ledger LedgerSpec LedgerSafety Journal Text Lease Boxes BoxLaws Scheduler Interference Billing Task Shard State.

(** ** Tokens *)
(** The right to admit a minted lease, the same while the lease has been put
    into the waiting room, the right to provision an admitted one, the knowledge
    that the provider refused it for lack of capacity, and the slot events still
    owed. *)
Inductive token : Type :=
| Mint (id : string) | Queued (id : string) | Adm (id : string) | Ref (id : string)
| OweUp (t : TenantId) | OweDown (t : TenantId).

#[export] Instance token_eq_dec : EqDecision token.
Proof. solve_decision. Defined.
#[export] Instance token_countable : Countable token.
Proof.
  apply (inj_countable'
    (λ k, match k with Mint id => inl (inl id) | Adm id => inl (inr (inl id)) | Queued id => inl (inr (inr (inl id)))
                     | Ref id => inl (inr (inr (inr id))) | OweUp t => inr (inl t) | OweDown t => inr (inr t) end)
    (λ x, match x with inl (inl id) => Mint id | inl (inr (inl id)) => Adm id | inl (inr (inr (inl id))) => Queued id
                     | inl (inr (inr (inr id))) => Ref id | inr (inl t) => OweUp t | inr (inr t) => OweDown t end)).
  by intros [].
Defined.
Abbreviation Res := (gmultiset token).

(** A right that is not used may be dropped, a debt may not. *)
Definition droppable (r : Res) : Prop := ∀ t, multiplicity (OweUp t) r = 0%nat ∧ multiplicity (OweDown t) r = 0%nat.

#[export] Instance droppable_leak : Leak droppable.
Proof.
  split; [intros t; by rewrite !multiplicity_empty|]. intros r r' H H' t.
  rewrite !multiplicity_disj_union. destruct (H t), (H' t). lia.
Qed.
Lemma droppable_mint id : droppable {[+ Mint id +]}.
Proof. intros t. by rewrite !multiplicity_singleton_ne. Qed.
Lemma droppable_queued id : droppable {[+ Queued id +]}.
Proof. intros t. by rewrite !multiplicity_singleton_ne. Qed.
Lemma droppable_adm id : droppable {[+ Adm id +]}.
Proof. intros t. by rewrite !multiplicity_singleton_ne. Qed.
Lemma droppable_ref id : droppable {[+ Ref id +]}.
Proof. intros t. by rewrite !multiplicity_singleton_ne. Qed.

(** ** What the outside promises *)

(** Generated lease ids are new and can be part of a path; no other question
    to the outside makes one. *)
Class ExternalLaws (O : Type) {ext : External O} : Type := {
  issued : O → string → Prop;
  lease_id_new o :
    let '(o', id) := ext_lease_id o in
    ¬ issued o id ∧ plain_id id ∧ ∀ j, issued o' j ↔ issued o j ∨ j = id;
  keeps_issued {A} (f : O → O * A) : Prop := ∀ o j, issued (f o).1 j ↔ issued o j;
  keep_now : keeps_issued ext_now;
  keep_mint_ready : keeps_issued ext_mint_ready;
  keep_ledger_up : keeps_issued ext_ledger_up;
  keep_task_panics : keeps_issued ext_task_panics;
  keep_suspended t : keeps_issued (ext_suspended t);
  keep_ac_lookup t d : keeps_issued (ext_ac_lookup t d);
  keep_resolve_plan t p : keeps_issued (ext_resolve_plan t p);
  keep_plan_of t : keeps_issued (ext_plan_of t);
  keep_ceiling t : keeps_issued (ext_ceiling t);
  keep_mint_jit s : keeps_issued (ext_mint_jit s);
  keep_mint_pat a b c d e f : keeps_issued (ext_mint_pat a b c d e f);
  keep_revoke_pat p : keeps_issued (ext_revoke_pat p);
  keep_instant : keeps_issued ext_instant;
  keep_queue_up : keeps_issued ext_queue_up;
  keep_queue_scan : keeps_issued ext_queue_scan;
}.
Create HintDb outside.
Create HintDb stable.
#[export] Hint Resolve keep_now keep_mint_ready keep_ledger_up keep_task_panics keep_suspended
  keep_ac_lookup keep_resolve_plan keep_plan_of keep_ceiling keep_mint_jit keep_mint_pat
  keep_revoke_pat keep_instant keep_queue_up keep_queue_scan : outside.

(** ** Slot events *)
Definition ev_delta (kind : SlotEventKind) : Z :=
  match kind with Acquired => 1 | SlotReleased | SlotExpired | SlotCrashed => -1 end.

(** Slots a list of events says a tenant holds. *)
Definition slots_of (evs : list SlotOccupancyEvent) (t : TenantId) : Z :=
  foldr Z.add 0 ((λ ev, if decide (ev_tenant ev = t) then ev_delta (ev_kind ev) else 0) <$> evs).

Definition held_ind (t : TenantId) (r : LeaseRecord) : Z :=
  if decide (tenant r = t ∧ state r = Wire Held) then 1 else 0.
Definition held_of (s : InMemoryInner) (t : TenantId) : Z := map_sum (λ _, held_ind t) (records s).

Lemma slots_of_snoc evs ev t :
  slots_of (evs ++ [ev]) t = slots_of evs t + (if decide (ev_tenant ev = t) then ev_delta (ev_kind ev) else 0).
Proof.
  unfold slots_of. rewrite fmap_app. cbn.
  induction (_ <$> evs) as [|z zs IH]; cbn; lia.
Qed.

(** ** The queue's rights *)
Definition queued_items (q : option AdmissionQueue) : list WorkItem :=
  match q with Some q => concat (map_values (queues (aq_scheduler q))) | None => [] end.
Definition tokens_for (items : list WorkItem) : Res := list_to_set_disj ((λ i, Queued (work_id i)) <$> items).
Definition queue_tokens (q : option AdmissionQueue) : Res := tokens_for (queued_items q).
Definition waiter_of (q : option AdmissionQueue) (id : string) : option QueuedAcquire :=
  q ≫= λ q, aq_waiters q !! id.

(** What waits is what was minted, and its record is ready to be admitted. *)
Record waiter_ok (id : string) (q : QueuedAcquire) : Prop := {
  wo_id : lease_id (q_pending q) = id;
  wo_state : state (q_pending q) = Pending;
  wo_box : box_ref (q_pending q) = "box:" +:+ id;
  wo_tenant : tenant (q_pending q) = q_tenant q;
  wo_spec : spec_name (q_spec q) = container_name id;
}.

(** ** What is said of one lease *)
Record view : Type := mkView {
  v_rec : option LeaseRecord;
  v_issued : Prop;
  v_mints : nat;
  v_unqueued : nat;
  v_waiter : option QueuedAcquire;
  v_adms : nat;
  v_refs : nat;
  v_fresh : Prop;
  v_untraced : Prop;
  v_live : Prop;
  v_certified : string → Prop;
}.

(** The right to admit or provision it, or that its provisioning was refused, is
    still somewhere. *)
Definition v_rights (v : view) : nat := (v_mints v + v_adms v + v_refs v)%nat.

Record lease_ok (id : string) (v : view) : Prop := {
  ok_rec rec : v_rec v = Some rec → lease_id rec = id ∧ v_issued v ∧
    (box_ref rec = "box:" +:+ id ∨ v_certified v (box_ref rec));
  ok_rights : (0 < v_rights v)%nat →
    v_rights v = 1%nat ∧ v_issued v ∧ plain_id id ∧ (v_refs v = 0%nat → v_fresh v);
  ok_refused : (0 < v_refs v)%nat → v_untraced v;
  ok_mint : (0 < v_mints v)%nat → v_rec v = None;
  ok_adm : (0 < v_adms v + v_refs v)%nat →
    ∃ rec, v_rec v = Some rec ∧ state rec = Pending ∧ box_ref rec = "box:" +:+ id;
  ok_new : ¬ v_issued v → v_fresh v;
  ok_live : v_live v → ∃ rec, v_rec v = Some rec ∧ is_active rec;
  ok_unqueued : (0 < v_unqueued v)%nat → v_waiter v = None;
  ok_waiter q : v_waiter v = Some q →
    v_issued v ∧ waiter_ok id q ∧ ∀ rec, v_rec v = Some rec → tenant rec = q_tenant q;
}.

(** What every access leaves to the tasks that do not run. *)
Record lease_step (v v' : view) : Prop := {
  st_issued : v_issued v → v_issued v';
  st_mint : v_issued v → v_mints v = 0%nat → v_mints v' = 0%nat;
  st_rights : v_issued v → v_rights v = 0%nat → v_rights v' = 0%nat;
  st_record rec' : v_issued v → v_mints v = 0%nat → v_rec v' = Some rec' →
    ∃ rec, v_rec v = Some rec ∧ tenant rec' = tenant rec;
  st_settled rec : v_rec v = Some rec → state rec ≠ Pending →
    ∃ rec', v_rec v' = Some rec' ∧ state rec' ≠ Pending ∧ tenant rec' = tenant rec;
  st_live : v_issued v → v_rights v = 0%nat → ¬ v_live v → ¬ v_live v';
  st_certified ref : v_issued v → v_rights v = 0%nat → v_certified v ref → v_certified v' ref;
  st_unqueued : v_issued v → v_unqueued v = 0%nat → v_unqueued v' = 0%nat;
  st_waiter q : v_issued v → v_unqueued v = 0%nat → v_waiter v' = Some q → v_waiter v = Some q;
}.

(** A lease the access is not about; its box may end. *)
Record untouched (v v' : view) : Prop := {
  un_rec : v_rec v' = v_rec v;
  un_issued : v_issued v' ↔ v_issued v;
  un_mints : v_mints v' = v_mints v;
  un_unqueued : v_unqueued v' = v_unqueued v;
  un_waiter : v_waiter v' = v_waiter v;
  un_adms : v_adms v' = v_adms v;
  un_refs : v_refs v' = v_refs v;
  un_fresh : v_fresh v → v_fresh v';
  un_untraced : v_untraced v → v_untraced v';
  un_live : v_live v' → v_live v;
  un_certified ref : v_certified v ref → v_certified v' ref;
}.

Lemma untouched_refl v : untouched v v.
Proof. by constructor. Qed.

Lemma untouched_ok id v v' : untouched v v' → lease_ok id v → lease_ok id v'.
Proof.
  intros [Hrec Hiss Hm Hu Hw Ha Hrf Hf Hun Hl Hc] []. unfold v_rights in *.
  constructor; unfold v_rights; rewrite ?Hrec, ?Hm, ?Ha, ?Hrf, ?Hiss, ?Hu, ?Hw; [|naive_solver..].
  intros rec Hr. destruct (ok_rec0 rec Hr) as (? & ? & [?|?]); rewrite Hiss; auto.
Qed.

Lemma lease_step_trans v1 v2 v3 : lease_step v1 v2 → lease_step v2 v3 → lease_step v1 v3.
Proof.
  intros [] []. constructor; eauto.
  - intros rec' Hi Hm Hr. destruct (st_record1 rec') as (rec & ? & ->); eauto.
  - intros rec Hr Hp. destruct (st_settled0 rec Hr Hp) as (rec1 & H1 & Hp1 & <-). eauto.
Qed.

Lemma untouched_step v v' : untouched v v' → lease_step v v'.
Proof.
  intros [Hrec Hiss Hm Hu Hw Ha Hrf Hf Hun Hl Hc].
  constructor; unfold v_rights; rewrite ?Hrec, ?Hm, ?Ha, ?Hrf, ?Hiss, ?Hu, ?Hw; eauto.
Qed.

(** What one access does to the lease it is about: a ledger call, a provider call. *)
Definition in_ledger (rec : option LeaseRecord) (m u a : nat) (v : view) : view :=
  mkView rec (v_issued v) m u (v_waiter v) a (v_refs v) (v_fresh v) (v_untraced v) (v_live v) (v_certified v).
Definition in_box (a rf : nat) (fr un lv : Prop) (cert : string → Prop) (v : view) : view :=
  mkView (v_rec v) (v_issued v) (v_mints v) (v_unqueued v) (v_waiter v) a rf fr un lv cert.
Definition in_room (u : nat) (q : option QueuedAcquire) (v : view) : view :=
  mkView (v_rec v) (v_issued v) (v_mints v) u q (v_adms v) (v_refs v) (v_fresh v) (v_untraced v) (v_live v)
    (v_certified v).

Definition keeps_lease (id : string) (v v' : view) : Prop := lease_ok id v' ∧ lease_step v v'.

Ltac lease_cases := unfold keeps_lease, v_rights in *; split; constructor; unfold v_rights; cbn;
  try (intros; exfalso; (lia || done)); try done; try (intros; lia);
  try (intros; split_and!; solve [lia|done]); try (by intros; simplify_eq; eauto 6); try (intros; exfalso; congruence).

Lemma record_no_mint id v rec : lease_ok id v → v_rec v = Some rec → v_mints v = 0%nat.
Proof. intros [] Hr. destruct (v_mints v); [done|]. rewrite ok_mint0 in Hr by lia. done. Qed.

Lemma admitted_lease id v rec u :
  lease_ok id v → (0 < v_mints v)%nat → lease_id rec = id → state rec = Pending →
  box_ref rec = "box:" +:+ id → (u ≤ v_unqueued v)%nat → (∀ q, v_waiter v = Some q → tenant rec = q_tenant q) →
  keeps_lease id v (in_ledger (Some rec) (v_mints v - 1) u (v_adms v + 1) v).
Proof.
  intros [Hrec Hright Href Hmint Hadm Hnew Hlive Hunq Hwait] Hm Hid Hp Hb Hu Hq.
  destruct Hright as (Hone & Hiss & Hsafe & Hfresh); [unfold v_rights; lia|]. pose proof (Hmint Hm) as Hnone.
  lease_cases.
  - intros Hl. destruct (Hlive Hl) as (? & ? & _). congruence.
  - intros ?. apply Hunq. lia.
  - intros q Hw. destruct (Hwait q Hw) as (? & ? & _). split_and!; [done..|]. intros ? [= <-]. auto.
Qed.

Lemma updated_lease id v r0 rec :
  lease_ok id v → v_rights v = 0%nat → v_rec v = Some r0 →
  lease_id rec = lease_id r0 → tenant rec = tenant r0 →
  (state r0 ≠ Pending → state rec ≠ Pending) → (v_live v → is_active rec) →
  box_ref rec = box_ref r0 ∨ v_certified v (box_ref rec) →
  keeps_lease id v (in_ledger (Some rec) (v_mints v) (v_unqueued v) (v_adms v) v).
Proof.
  intros [Hrec Hright Href Hmint Hadm Hnew Hlive Hunq Hwait] Hz Hr Hid Ht Hp Ha Hb.
  destruct (Hrec r0 Hr) as (? & ? & Hr0). lease_cases.
  - intros rec0 [= <-]. split_and!; [congruence|done|]. destruct Hb as [->|?]; auto.
  - intros q Hw. destruct (Hwait q Hw) as (? & ? & Hq). split_and!; [done..|]. intros ? [= <-]. rewrite Ht. auto.
Qed.

Lemma finished_lease id v r0 :
  lease_ok id v → v_rec v = Some r0 → state r0 = Pending → ¬ v_live v → v_refs v = 0%nat →
  keeps_lease id v (in_ledger None 0 (v_unqueued v) 0 v).
Proof.
  intros Hok Hr Hp Hl Hz. pose proof (record_no_mint _ _ _ Hok Hr). destruct Hok as [Hrec Hright Href Hmint Hadm Hnew Hlive Hunq Hwait].
  lease_cases. intros q Hw. by destruct (Hwait q Hw) as (? & ? & _).
Qed.

Lemma new_lease id v :
  lease_ok id v → ¬ v_issued v → plain_id id →
  keeps_lease id v (mkView (v_rec v) True (v_mints v + 1) (v_unqueued v + 1) (v_waiter v) (v_adms v) (v_refs v) (v_fresh v)
    (v_untraced v) (v_live v) (v_certified v)).
Proof.
  intros [Hrec Hright Href Hmint Hadm Hnew Hlive Hunq Hwait] Hi Hs.
  assert (v_rec v = None) as Hr by (destruct (v_rec v) as [rec|] eqn:E; [by destruct (Hrec rec eq_refl) as (_ & ? & _)|done]).
  assert (v_rights v = 0)%nat as Hz by (destruct (v_rights v) eqn:E; [done|]; destruct Hright as (_ & ? & _); [lia|done]).
  assert (v_waiter v = None) as Hw by (destruct (v_waiter v) as [q|] eqn:E; [by destruct (Hwait q eq_refl) as (? & _)|done]).
  rewrite Hr, Hw in *. unfold v_rights in *. lease_cases.
  - intros _. split_and!; [lia|done..|intros _; by apply Hnew].
Qed.

Lemma provisioned_lease id v (refused : bool) fr un lv cert :
  lease_ok id v → (0 < v_adms v)%nat → (refused = true → un) →
  keeps_lease id v (in_box (v_adms v - 1) (if refused then 1 else 0) fr un lv cert v).
Proof.
  intros [Hrec Hright Href Hmint Hadm Hnew Hlive Hunq Hwait] Ha Hun. destruct Hadm as (rec & Hr & Hp & Hb); [lia|].
  destruct Hright as (Hone & Hiss & Hsafe & Hfresh); [unfold v_rights; lia|].
  lease_cases.
  - intros rec' Hr'. destruct (Hrec rec' Hr') as (? & ? & _). split_and!; [done..|]. left. congruence.
  - intros Hz. destruct refused; [|lia]. by split_and!; [lia|..].
  - intros Hz. destruct refused; [auto|lia].
  - intros _. exists rec. split; [done|]. unfold is_active. rewrite Hp. naive_solver.
Qed.

Lemma boxed_lease id v (fr un lv : Prop) (cert : string → Prop) :
  lease_ok id v → v_issued v → (lv → v_live v) →
  ((0 < v_rights v)%nat → (v_fresh v → fr) ∧ (v_untraced v → un)) →
  (v_rights v = 0%nat → ∀ ref, v_certified v ref → cert ref) →
  keeps_lease id v (in_box (v_adms v) (v_refs v) fr un lv cert v).
Proof.
  intros Hok Hiss Hl Hf Hc. destruct Hok as [Hrec Hright Href Hmint Hadm Hnew Hlive Hunq Hwait].
  lease_cases.
  - intros rec Hr. destruct (Hrec rec Hr) as (? & _ & [?|?]); split_and!; auto.
    destruct (v_adms v + v_refs v)%nat as [|n] eqn:Ea.
    + right. apply Hc; [|done]. destruct (v_mints v); [lia|]. rewrite Hmint in Hr by lia. done.
    + left. destruct Hadm as (rec' & ? & _ & ?); [lia|congruence].
  - intros Hz. destruct (Hright Hz) as (? & _ & ? & Hfr). split_and!; [done..|]. intros Hz'. apply Hf; auto.
  - intros Hz. apply Hf; [lia|]. auto.
Qed.

(** A lease enters the waiting room, and leaves it. *)
Lemma parked_lease id v o :
  lease_ok id v → v_unqueued v = 1%nat → (0 < v_mints v)%nat → (∀ q, o = Some q → waiter_ok id q) →
  keeps_lease id v (in_room 0 o v).
Proof.
  intros [Hrec Hright Href Hmint Hadm Hnew Hlive Hunq Hwait] Hu Hm Hq. pose proof (Hmint Hm) as Hnone.
  destruct Hright as (Hone & Hiss & Hsafe & Hfresh); [unfold v_rights; lia|]. lease_cases.
  intros q ->. split_and!; [done|by apply Hq|]. congruence.
Qed.
Lemma unparked_lease id v : lease_ok id v → keeps_lease id v (in_room (v_unqueued v) None v).
Proof. intros [Hrec Hright Href Hmint Hadm Hnew Hlive Hunq Hwait]. lease_cases; eauto. Qed.

Lemma keeps_untouched id v v1 v2 : keeps_lease id v v1 → untouched v1 v2 → keeps_lease id v v2.
Proof.
  intros [Hok Hst] Hu. split; [by eapply untouched_ok|].
  eapply lease_step_trans; [done|]. by apply untouched_step.
Qed.

Section invariant.
Context {P O : Type} {prov : BoxProvisioner P} {ext : External O}.
Context {json : SerdeJson} {codec : BindingCodec}.
Context {blaws : BoxLaws P} {xlaws : ExternalLaws O}.
Abbreviation W := (AppState P O).
Implicit Types (w : W) (R r f : Res).

Definition tokens_of w R : Res := R ⊎ queue_tokens (admission_queue w).
Definition view_of w R (id : string) : view :=
  mkView (records (ledger w) !! id) (issued (outside w) id)
    (multiplicity (Mint id) (tokens_of w R) + multiplicity (Queued id) (tokens_of w R))
    (multiplicity (Mint id) (tokens_of w R)) (waiter_of (admission_queue w) id)
    (multiplicity (Adm id) (tokens_of w R)) (multiplicity (Ref id) (tokens_of w R))
    (fresh (provisioner w) id) (untraced (provisioner w) id) (live (provisioner w) id) (certified (provisioner w) id).

Definition debt R t : Z := Z.of_nat (multiplicity (OweUp t) R) - Z.of_nat (multiplicity (OweDown t) R).

Record inv w R : Prop := {
  inv_lease id : lease_ok id (view_of w R id);
  inv_prov : prov_ok (provisioner w);
  inv_slots t : held_of (ledger w) t - slots_of (exported w) t = debt R t;
  inv_capacity : provision_capacity_503 ∉ counted w;
}.
Definition rely w R w' R' : Prop := ∀ id, lease_step (view_of w R id) (view_of w' R' id).

Lemma rely_trans w1 R1 w2 R2 w3 R3 : rely w1 R1 w2 R2 → rely w2 R2 w3 R3 → rely w1 R1 w3 R3.
Proof. intros H1 H2 id. by eapply lease_step_trans. Qed.

(** ** Facts that stay true *)
Definition known id w R : Prop := v_issued (view_of w R id).
Definition spent id w R : Prop := known id w R ∧ v_rights (view_of w R id) = 0%nat.
Definition dead id w R : Prop := spent id w R ∧ ¬ v_live (view_of w R id).
Definition holds_ref id ref w R : Prop := spent id w R ∧ v_certified (view_of w R id) ref.
Definition of_tenant id t w R : Prop :=
  known id w R ∧ v_mints (view_of w R id) = 0%nat ∧
  ∀ rec, v_rec (view_of w R id) = Some rec → tenant rec = t.
Definition settled id t w R : Prop :=
  spent id w R ∧ ∃ rec, v_rec (view_of w R id) = Some rec ∧ state rec ≠ Pending ∧ tenant rec = t.
(** It went to the waiting room, for that tenant. *)
Definition parked id t w R : Prop :=
  known id w R ∧ v_unqueued (view_of w R id) = 0%nat ∧
  ∀ q, v_waiter (view_of w R id) = Some q → q_tenant q = t.

Abbreviation stable := (Task.stable inv rely).

Lemma stable_true : stable (λ _ _, True).
Proof. done. Qed.
Lemma stable_pure (φ : Prop) : stable (λ _ _, φ).
Proof. by intros w R w' R' _ _ ?. Qed.
Lemma stable_imp (φ : Prop) K : stable K → stable (λ w R, φ → K w R).
Proof. intros H w R w' R' Hr Hi HK Hφ. eapply H; eauto. Qed.
Lemma stable_or K J : stable K → stable J → stable (λ w R, K w R ∨ J w R).
Proof. intros H H' w R w' R' Hr Hi [?|?]; [left; by eapply H|right; by eapply H']. Qed.
Lemma stable_all {X} (K : X → W → Res → Prop) : (∀ x, stable (K x)) → stable (λ w R, ∀ x, K x w R).
Proof. intros H w R w' R' Hr Hi HK x. eapply H; eauto. Qed.
Lemma stable_known id : stable (known id).
Proof. intros w R w' R' Hr _ ?. by apply (st_issued _ _ (Hr id)). Qed.
Lemma stable_spent id : stable (spent id).
Proof. intros w R w' R' Hr Hi [? ?]. split; [by eapply stable_known|]. by apply (st_rights _ _ (Hr id)). Qed.
Lemma stable_dead id : stable (dead id).
Proof. intros w R w' R' Hr Hi [[? ?] ?]. split; [eapply stable_spent; eauto; by split|]. by apply (st_live _ _ (Hr id)). Qed.
Lemma stable_holds_ref id ref : stable (holds_ref id ref).
Proof. intros w R w' R' Hr Hi [[? ?] ?]. split; [eapply stable_spent; eauto; by split|]. by apply (st_certified _ _ (Hr id)). Qed.
Lemma stable_of_tenant id t : stable (of_tenant id t).
Proof.
  intros w R w' R' Hr Hi (? & ? & Ht). split_and!; [by eapply stable_known|by apply (st_mint _ _ (Hr id))|].
  intros rec' Hrec'. edestruct (st_record _ _ (Hr id)) as (rec & ? & ->); eauto.
Qed.
Lemma stable_settled id t : stable (settled id t).
Proof.
  intros w R w' R' Hr Hi (Hs & rec & Hrec & Hp & <-). split; [by eapply stable_spent|].
  destruct (st_settled _ _ (Hr id) rec Hrec Hp) as (rec' & ? & ? & ?). by exists rec'.
Qed.
Lemma stable_parked id t : stable (parked id t).
Proof.
  intros w R w' R' Hr Hi (? & ? & Ht). split_and!; [by eapply stable_known|by apply (st_unqueued _ _ (Hr id))|].
  intros q Hq. eapply Ht, (st_waiter _ _ (Hr id)); eauto.
Qed.

Lemma record_spent id rec w R :
  inv w R → v_rec (view_of w R id) = Some rec → state rec ≠ Pending → spent id w R.
Proof.
  intros Hi Hrec Hp. destruct (inv_lease _ _ Hi id). split; [by eapply ok_rec0|]. destruct (v_rights (view_of w R id)) as [|n] eqn:E; [done|].
  exfalso. unfold v_rights in E. destruct (v_mints (view_of w R id)).
  - destruct ok_adm0 as (rec' & Hrec' & ? & _); [lia|congruence].
  - rewrite ok_mint0 in Hrec by lia. done.
Qed.

(** ** Accesses *)

(** An access about one lease. *)
Lemma at_lease id w R w' R' :
  inv w R →
  (∀ j, j ≠ id → untouched (view_of w R j) (view_of w' R' j)) →
  keeps_lease id (view_of w R id) (view_of w' R' id) →
  prov_ok (provisioner w') →
  (∀ t, held_of (ledger w') t - slots_of (exported w') t = debt R' t) → counted w' = counted w →
  inv w' R' ∧ rely w R w' R'.
Proof.
  intros Hi Hj [Hok Hst] Hp Hs Hc. split; [constructor; [intros j|done|done|rewrite Hc; apply Hi]|intros j];
    (destruct (decide (j = id)) as [->|]; [done|]).
  - eapply untouched_ok; [by apply Hj|]. apply Hi.
  - by apply untouched_step, Hj.
Qed.

(** An access about none. *)
Lemma at_no_lease w R w' R' :
  inv w R → (∀ j, untouched (view_of w R j) (view_of w' R' j)) → prov_ok (provisioner w') →
  (∀ t, held_of (ledger w') t - slots_of (exported w') t = debt R' t) →
  provision_capacity_503 ∉ counted w' →
  inv w' R' ∧ rely w R w' R'.
Proof.
  intros Hi Hj Hp Hs Hc. split; [constructor; [intros j|done|done|done]|intros j].
  - eapply untouched_ok; [by apply Hj|]. apply Hi.
  - by apply untouched_step.
Qed.

Record same_core w w' : Prop := {
  core_records : records (ledger w') = records (ledger w);
  core_exported : exported w' = exported w;
  core_queue : queue_tokens (admission_queue w') = queue_tokens (admission_queue w);
  core_waiters id : waiter_of (admission_queue w') id = waiter_of (admission_queue w) id;
  core_counted : provision_capacity_503 ∈ counted w' → provision_capacity_503 ∈ counted w;
  core_provisioner : provisioner w' = provisioner w;
  core_outside id : issued (outside w') id ↔ issued (outside w) id;
}.

Lemma same_core_untouched w w' R id : same_core w w' → untouched (view_of w R id) (view_of w' R id).
Proof. intros [Hr _ Hq Hw _ Hp Ho]. constructor; cbn; unfold tokens_of; rewrite ?Hr, ?Hq, ?Hw, ?Hp; auto. Qed.

Lemma core_keeps w w' R : same_core w w' → inv w R → inv w' R ∧ rely w R w' R.
Proof.
  intros Hc Hi. apply at_no_lease; [done|..].
  - intros j. by apply same_core_untouched.
  - rewrite (core_provisioner _ _ Hc). apply Hi.
  - intros t. unfold held_of. rewrite (core_records _ _ Hc), (core_exported _ _ Hc). apply Hi.
  - intros Hin. by apply (inv_capacity _ _ Hi), (core_counted _ _ Hc).
Qed.
End invariant.
#[export] Hint Resolve stable_true stable_pure stable_imp stable_or stable_all stable_known stable_spent stable_dead
  stable_holds_ref stable_of_tenant stable_settled stable_parked stable_both : stable.

(** The rules for tasks at this invariant. *)
Module Rules.
Abbreviation stable := (Task.stable inv rely).
Abbreviation triple := (Task.triple inv rely droppable).
Abbreviation quiet := (Task.quiet inv rely).
Abbreviation quiet_bind := (Task.quiet_bind inv rely).
Abbreviation triple_atom := (Task.triple_atom inv rely droppable).
Abbreviation triple_ret := (Task.triple_ret inv rely droppable).
Abbreviation triple_drop := (Task.triple_drop inv rely droppable).
Abbreviation triple_bind := (Task.triple_bind inv rely droppable).
Abbreviation triple_seq := (Task.triple_seq inv rely droppable).
Abbreviation triple_call := (Task.triple_call inv rely droppable).
Abbreviation triple_conseq := (Task.triple_conseq inv rely droppable).
Abbreviation triple_quiet := (Task.triple_quiet inv rely droppable).
Abbreviation triple_quiet_bind := (Task.triple_quiet_bind inv rely droppable).
Abbreviation triple_for_each := (Task.triple_for_each inv rely droppable).
End Rules.

(** Evaluate a view, and count tokens. *)
Ltac views := unfold known, spent, dead, holds_ref, of_tenant, settled, parked, v_rights, in_ledger, in_box, in_room, view_of, tokens_of in *;
  cbn [v_rec v_issued v_mints v_unqueued v_waiter v_adms v_refs v_fresh v_untraced v_live v_certified] in *;
  unfold set_ledger, set_prov, set_exported, set_outside, set_queue in *;
  cbn [ledger exported admission_queue provisioner outside] in *.
Ltac tokens := unfold debt, at_key in *; cbn [from_option] in *;
  rewrite ?multiplicity_disj_union, ?multiplicity_singleton, ?multiplicity_empty in *;
  repeat case_decide; try congruence; try lia.

(** The rights to a lease are where they were. *)
Definition same_rights (j : string) (R R' : Res) : Prop :=
  multiplicity (Mint j) R' = multiplicity (Mint j) R ∧ multiplicity (Queued j) R' = multiplicity (Queued j) R ∧
  multiplicity (Adm j) R' = multiplicity (Adm j) R ∧ multiplicity (Ref j) R' = multiplicity (Ref j) R.
Lemma same_rights_frame j r r' f : same_rights j r r' → same_rights j (r ⊎ f) (r' ⊎ f).
Proof. intros (? & ? & ? & ?). unfold same_rights. rewrite !multiplicity_disj_union. lia. Qed.
Ltac rights := unfold same_rights; split_and!; tokens.
