(* ===== verification/ServiceSpecs.v ===== *)
(** * The lease service: what each access does

    For every ledger call, provider call and slot event the handlers make, the
    tokens it needs and leaves and the facts it needs and adds; and the tasks
    that make no difference to leases at all. *)
From stdpp Require Import gmultiset.
From S2P Require Import Prelude Tenant Ledger LedgerSpec Journal Text Lease Boxes BoxLaws Billing Task Shard State Service ServiceLogic.

#[export] Hint Resolve droppable_mint droppable_queued droppable_adm droppable_ref : stable.

Import Rules.

Section specs.
Context {P O : Type} {prov : BoxProvisioner P} {ext : External O}.
Context {json : SerdeJson} {codec : BindingCodec}.
Context {blaws : BoxLaws P} {xlaws : ExternalLaws O}.
Abbreviation W := (AppState P O).
Implicit Types (w : W) (R f : Res).


(** ** Accesses that make no difference *)
Lemma quiet_core {A} (φ : A → Prop) (g : W → W * A) :
  (∀ w R, inv w R → same_core w (g w).1 ∧ φ (g w).2) → quiet φ (atomic g).
Proof.
  intros Hg. apply quiet_atom. intros w R w' a E Hi. destruct (Hg w R Hi) as [Hc Hφ].
  rewrite E in Hc, Hφ. destruct (core_keeps w w' R Hc Hi). auto.
Qed.

Lemma quiet_any {A} φ (t : Task W A) : quiet φ t → quiet (λ _, True) t.
Proof. by apply quiet_weaken. Qed.

Lemma asks_core {A} (f : O → O * A) w : keeps_issued f → same_core w (asks f w).1.
Proof.
  intros Hf. unfold asks. specialize (Hf (outside w)). destruct (f (outside w)). by constructor.
Qed.

Lemma quiet_ask {A} (f : O → O * A) : keeps_issued f → quiet (λ _, True) (ask f).
Proof. intros Hf. apply quiet_core. intros w R _. split; [by apply asks_core|done]. Qed.

Lemma quiet_read {A} (f : W → A) : quiet (λ _, True) (read f).
Proof. apply quiet_core. intros w R _. by split. Qed.

Lemma quiet_incr c : c ≠ provision_capacity_503 → quiet (λ _, True) (incr c).
Proof. intros Hc. apply quiet_core. intros w R _. split; [|done]. constructor; cbn; set_solver. Qed.

Lemma quiet_on_tables g : quiet (λ _, True) (on_tables g).
Proof. apply quiet_core. intros w R _. by split. Qed.

Lemma quiet_hook_op {A} id (g : Envelope.Hook.Inner → Envelope.Hook.Inner * A) : quiet (λ _, True) (hook_op id g).
Proof.
  apply quiet_core. intros w R _. destruct (hooks (tables w) !! id) as [h|]; [|by split].
  destruct (g h). by split.
Qed.

(** A ledger call that keeps the records. *)
Lemma quiet_ledger {A} (φ : result LedgerError A → Prop) (m : MemM A) :
  φ (Err Poisoned) →
  (∀ w R, inv w R → records (m (ledger w)).1 = records (ledger w) ∧ φ (m (ledger w)).2) →
  quiet φ (ledger_op m).
Proof.
  intros Hp Hm. apply quiet_core. intros w R Hi. unfold calls_ledger.
  pose proof (asks_core ext_ledger_up w keep_ledger_up) as Hc.
  destruct (asks ext_ledger_up w) as [w1 up] eqn:E. cbn in Hc.
  assert (ledger w1 = ledger w) as Hl by (unfold asks in E; by destruct (ext_ledger_up _); simplify_eq).
  destruct up; [|done]. destruct (Hm w R Hi) as [Hr Hφ]. rewrite Hl. destruct (m (ledger w)) as [s a].
  split; [|done]. destruct Hc. by constructor.
Qed.
(** ** The ledger *)
Lemma triple_ledger {A} (K : W → Res → Prop) r (m : MemM A) ρ K' :
  stable K → (∀ a, stable (K' a)) → ρ (Err Poisoned) = r → (∀ w R, K w R → K' (Err Poisoned) w R) →
  (∀ w f s a, m (ledger w) = (s, a) → inv w (r ⊎ f) → K w (r ⊎ f) →
     (inv (set_ledger s w) (ρ a ⊎ f) ∧ rely w (r ⊎ f) (set_ledger s w) (ρ a ⊎ f)) ∧
     K' a (set_ledger s w) (ρ a ⊎ f)) →
  triple K r (ledger_op m) ρ K'.
Proof.
  intros HK HK' Hρ Herr Hm. apply triple_atom; [done|]. intros w f w' a E Hi Hk. unfold calls_ledger in E.
  pose proof (asks_core ext_ledger_up w keep_ledger_up) as Hc.
  destruct (asks ext_ledger_up w) as [w1 up]. cbn in Hc.
  destruct (core_keeps w w1 _ Hc Hi) as [Hi1 Hr1]. pose proof (HK _ _ _ _ Hr1 Hi1 Hk) as Hk1.
  destruct up; [|injection E as <- <-; rewrite Hρ; auto].
  destruct (m (ledger w1)) as [s b] eqn:Em. injection E as <- <-.
  destruct (Hm w1 f s b Em Hi1 Hk1) as [[? ?] ?]. split_and!; [done|by eapply rely_trans|done].
Qed.

(** A call that changed nothing. *)
Lemma ledger_unchanged w R s :
  records s = records (ledger w) → inv w R → inv (set_ledger s w) R ∧ rely w R (set_ledger s w) R.
Proof. intros Hs. apply core_keeps. by constructor. Qed.

Lemma held_of_insert s0 s id rec t :
  records s = <[id := rec]> (records s0) →
  held_of s t = held_of s0 t - at_key (λ _, held_ind t) id (records s0) + held_ind t rec.
Proof. intros E. unfold held_of. by rewrite E, map_sum_insert. Qed.

Lemma held_of_delete s0 s id t :
  records s = delete id (records s0) →
  held_of s t = held_of s0 t - at_key (λ _, held_ind t) id (records s0).
Proof. intros E. unfold held_of. by rewrite E, map_sum_delete. Qed.

Lemma not_held rec t : state rec ≠ Wire Held → held_ind t rec = 0.
Proof. intros Hp. unfold held_ind. rewrite decide_False; [done|naive_solver]. Qed.
Lemma pending_not_held rec t : state rec = Pending → held_ind t rec = 0.
Proof. intros Hp. apply not_held. congruence. Qed.
Lemma held_owed rec t : state rec = Wire Held → held_ind t rec = debt {[+ OweUp (tenant rec) +]} t.
Proof. intros Hp. unfold held_ind. rewrite Hp. tokens; naive_solver. Qed.
Lemma debt_down t t' : debt {[+ OweDown t +]} t' = - debt {[+ OweUp t +]} t'.
Proof. tokens. Qed.
Lemma debt_empty t : debt ∅ t = 0.
Proof. tokens. Qed.

(** A ledger call that changed the record of one lease. *)
Lemma ledger_at w R R' s id :
  inv w R →
  (∀ j, j ≠ id → records s !! j = records (ledger w) !! j) →
  (∀ j, j ≠ id → same_rights j R R') →
  keeps_lease id (view_of w R id) (view_of (set_ledger s w) R' id) →
  (∀ t, held_of s t - debt R' t = held_of (ledger w) t - debt R t) →
  inv (set_ledger s w) R' ∧ rely w R (set_ledger s w) R'.
Proof.
  intros Hi Hs Ht Hk Hh. apply (at_lease id); [done| |done|apply Hi| |done].
  - intros j Hj. destruct (Ht j Hj) as (Hm & Hq & Ha & Hrf). constructor; views; rewrite ?Hs by done; tokens; done.
  - intros t. pose proof (inv_slots _ _ Hi t). specialize (Hh t). views. lia.
Qed.

Definition admitted_ok (r : result LedgerError AdmitOutcome) : bool :=
  match r with Ok LeaseAdmitted => true | _ => false end.

(** What an admission does to the records. *)
Lemma admit_records rec cap gate s s' a :
  Mem.try_admit_with_compute rec cap gate s = (s', a) →
  if admitted_ok a then records s !! lease_id rec = None ∧ records s' = <[lease_id rec := rec]> (records s)
  else records s' = records s.
Proof.
  assert (∀ s' a, Mem.concurrency_only_admit rec cap s = (s', a) →
    if admitted_ok a then records s !! lease_id rec = None ∧ records s' = <[lease_id rec := rec]> (records s)
    else records s' = records s) as Honly.
  { intros s1 a1. unfold Mem.concurrency_only_admit, mbind, M_bind, mret, M_ret.
    destruct (try_admit_cases rec cap s) as [(_&?&->)|[(_&_&->)|(_&->)]]; by intros [= <- <-]. }
  destruct gate as [g|]; [|apply Honly]. destruct (decide (gate_ceiling_vcpu_ms g = 0)) as [Hz|Hz].
  - unfold Mem.try_admit_with_compute. apply Z.eqb_eq in Hz. rewrite Hz. apply Honly.
  - destruct (gated_admit_cases rec cap g s Hz) as [[_ ->]|[(_&_&->)|[(_&_&_&->)|(_&_&?&->)]]];
      by intros [= <- <-].
Qed.

(** Admission of a minted lease, from the request that minted it or from the
    waiting room. *)
Definition right_to_admit (queued : bool) (id : string) : Res :=
  if queued then {[+ Queued id +]} else {[+ Mint id +]}.
Definition ready (queued : bool) id t w R : Prop := if queued then parked id t w R else True.

Lemma stable_ready queued id t : stable (ready queued id t).
Proof. destruct queued; [apply stable_parked|done]. Qed.

Lemma admit_step queued w f s id t (rec : LeaseRecord) :
  lease_id rec = id → state rec = Pending → box_ref rec = "box:" +:+ id → tenant rec = t →
  records (ledger w) !! id = None → records s = <[id := rec]> (records (ledger w)) →
  inv w (right_to_admit queued id ⊎ f) → ready queued id t w (right_to_admit queued id ⊎ f) →
  (inv (set_ledger s w) ({[+ Adm id +]} ⊎ f) ∧
   rely w (right_to_admit queued id ⊎ f) (set_ledger s w) ({[+ Adm id +]} ⊎ f)) ∧
  of_tenant id t (set_ledger s w) ({[+ Adm id +]} ⊎ f).
Proof.
  intros Hid Hp Hb Ht Hnone Hs Hi Hk. pose proof (inv_lease _ _ Hi id) as Hok.
  pose (v := view_of w (right_to_admit queued id ⊎ f) id).
  assert (view_of (set_ledger s w) ({[+ Adm id +]} ⊎ f) id = in_ledger (Some rec) (v_mints v - 1)
    (if queued then v_unqueued v else v_unqueued v - 1) (v_adms v + 1) v) as Hv.
  { unfold v. views. rewrite Hs, lookup_insert_eq. destruct queued; cbn [right_to_admit]; f_equal; tokens. }
  assert (0 < v_mints v)%nat as Hm by (unfold v; views; destruct queued; cbn [right_to_admit]; tokens).
  split; [apply (ledger_at _ _ _ _ id)|].
  - done.
  - intros j Hj. by rewrite Hs, lookup_insert_ne.
  - intros j Hj. destruct queued; cbn [right_to_admit]; rights.
  - rewrite Hv. apply admitted_lease; try done; [destruct queued; lia|]. intros q Hq. destruct queued.
    + rewrite Ht. symmetry. by apply Hk.
    + unfold v in Hq. rewrite (ok_unqueued _ _ Hok) in Hq; [done|]. views. cbn [right_to_admit]. tokens.
  - intros t'. erewrite held_of_insert by exact Hs. unfold at_key. rewrite Hnone, pending_not_held by done.
    destruct queued; cbn [right_to_admit]; tokens.
  - unfold of_tenant, known. rewrite Hv.
    destruct (ok_rights _ _ Hok) as (Hone & Hiss & _); [change (0 < v_mints v + v_adms v + v_refs v)%nat; lia|].
    change (v_mints v + v_adms v + v_refs v = 1)%nat in Hone. split_and!; [done|cbn [v_mints in_ledger]; lia|]. by intros ? [= <-].
Qed.

Lemma spec_admit queued id t rec cap gate :
  lease_id rec = id → state rec = Pending → box_ref rec = "box:" +:+ id → tenant rec = t →
  triple (ready queued id t) (right_to_admit queued id) (ledger_op (Mem.try_admit_with_compute rec cap gate))
    (λ a, if admitted_ok a then {[+ Adm id +]} else right_to_admit queued id)
    (λ a w R, admitted_ok a = true → of_tenant id t w R).
Proof.
  intros Hid Hp Hb Ht. apply triple_ledger; [apply stable_ready|auto with stable|done|done|].
  intros w f s a E Hi Hk. apply admit_records in E. rewrite Hid in E. destruct (admitted_ok a).
  - destruct E as [Hnone Hs].
    destruct (admit_step queued w f s id t rec Hid Hp Hb Ht Hnone Hs Hi Hk) as [? ?]. by split.
  - split; [by apply ledger_unchanged|done].
Qed.

(** A record that changes while no right to the lease is left. *)
Lemma update_step w r r' f s id (r0 : LeaseRecord) rec :
  records (ledger w) !! id = Some r0 → records s = <[id := rec]> (records (ledger w)) →
  lease_id rec = lease_id r0 → tenant rec = tenant r0 →
  (state r0 ≠ Pending → state rec ≠ Pending) →
  box_ref rec = box_ref r0 ∨ certified (provisioner w) id (box_ref rec) →
  (∀ j, same_rights j r r') →
  (∀ t, held_ind t rec - debt r' t = held_ind t r0 - debt r t) →
  inv w (r ⊎ f) → spent id w (r ⊎ f) → (live (provisioner w) id → is_active rec) →
  inv (set_ledger s w) (r' ⊎ f) ∧ rely w (r ⊎ f) (set_ledger s w) (r' ⊎ f).
Proof.
  intros Hr0 Hs Hid Ht Hp Hb Htok Hh Hi [_ Hz] Hl. apply (ledger_at _ _ _ _ id); [done|..].
  - intros j Hj. by rewrite Hs, lookup_insert_ne.
  - intros j _. apply same_rights_frame, Htok.
  - destruct (Htok id) as (Hm & Hq & Ha & Hrf).
    assert (view_of (set_ledger s w) (r' ⊎ f) id = in_ledger (Some rec) (v_mints (view_of w (r ⊎ f) id))
      (v_unqueued (view_of w (r ⊎ f) id)) (v_adms (view_of w (r ⊎ f) id)) (view_of w (r ⊎ f) id)) as ->.
    { unfold in_ledger. views. rewrite Hs, lookup_insert_eq. f_equal; tokens. }
    by eapply updated_lease; [apply Hi|..].
  - intros t. erewrite held_of_insert by exact Hs. specialize (Hh t). unfold at_key. rewrite Hr0. tokens.
Qed.

Lemma accrue_records id (rec : LeaseRecord) to now s :
  ∃ s' e, Mem.accrue_on_terminal id (tenant rec) (created_at_ms rec) to now s = (s', Ok e) ∧
          records s' = records s.
Proof.
  destruct (decide (to = Held)) as [->|Hto]; [by exists s, None|].
  destruct (accrue_settle id rec to now s Hto) as [e ->]. exists (settle id rec now s), e.
  by rewrite settle_records.
Qed.

(** What a transition does. *)
Lemma transition_records id to now s s' a :
  Mem.transition id to now s = (s', a) →
  match a with
  | Err _ => records s' = records s
  | Ok rec => ∃ r0, records s !! id = Some r0 ∧ transition_is_legal (state r0) to = true ∧
      records s' = <[id := rec]> (records s) ∧ lease_id rec = lease_id r0 ∧ tenant rec = tenant r0 ∧
      box_ref rec = box_ref r0 ∧ state rec = Wire to
  end.
Proof.
  unfold Mem.transition, Mem.transition_capturing, mbind, M_bind, get_state, lift, bail_if, mret, M_ret, throw, modify.
  case_bool_decide; [by intros [= <- <-]|].
  destruct (records s !! id) as [r0|] eqn:Hr; [|by intros [= <- <-]].
  destruct (apply_transition r0 to now) as [rec|] eqn:Ha; [|by intros [= <- <-]].
  apply apply_transition_ok in Ha as [Hl ->].
  match goal with |- context [Mem.accrue_on_terminal _ _ _ _ _ ?s1] =>
    destruct (accrue_records id r0 to now s1) as (s2 & e & -> & Hs2) end.
  intros [= <- <-]. by exists r0.
Qed.

(** A provisioned lease is held, and its slot must be counted. *)
Lemma spec_hold id t now :
  triple (λ w R, spent id w R ∧ of_tenant id t w R) ∅ (ledger_op (Mem.transition id Held now))
    (λ a, if is_ok a then {[+ OweUp t +]} else ∅) (λ a w R, is_ok a = true → settled id t w R).
Proof.
  apply triple_ledger; [auto with stable..|done|done|].
  intros w f s a E Hi [Hsp (_ & _ & Ht)]. apply transition_records in E. destruct a as [rec|e]; cbn [is_ok].
  - destruct E as (r0 & Hr0 & Hl & Hs & Hid & Htn & Hb & Hst).
    pose proof (Ht r0 Hr0). assert (state r0 = Pending) as Hp by (by destruct (state r0) as [|[]]).
    assert (inv (set_ledger s w) ({[+ OweUp t +]} ⊎ f) ∧ rely w (∅ ⊎ f) (set_ledger s w) ({[+ OweUp t +]} ⊎ f)) as [Hi' Hr'].
    { apply (update_step w ∅ _ f s id r0 rec Hr0 Hs Hid Htn);
        [congruence|by left|intros; rights| |done|done|by right].
      intros t'. rewrite (pending_not_held r0), held_owed, debt_empty, Htn by done. subst t. lia. }
    split; [done|]. intros _. split; [by eapply stable_spent|].
    exists rec. views. rewrite Hs, lookup_insert_eq. split_and!; congruence.
  - split; [by apply ledger_unchanged|done].
Qed.

(** A held lease whose box is gone ends, and its slot must be given back. *)
Lemma spec_terminal id t to now :
  to ≠ Held →
  triple (λ w R, dead id w R ∧ settled id t w R) ∅ (ledger_op (Mem.transition id to now))
    (λ a, if is_ok a then {[+ OweDown t +]} else ∅) (λ _ _ _, True).
Proof.
  intros Hto. apply triple_ledger; [auto with stable..|done|done|].
  intros w f s a E Hi [[Hsp Hd] (_ & r1 & Hr1 & Hp & Ht)]. apply transition_records in E.
  destruct a as [rec|e]; cbn [is_ok]; [|split; [by apply ledger_unchanged|done]].
  destruct E as (r0 & Hr0 & Hl & Hs & Hid & Htn & Hb & Hst). cbn in Hr1.
  assert (r1 = r0) as -> by congruence.
  assert (state r0 = Wire Held) as Hh by (by destruct (state r0) as [|[]], to).
  split; [|done]. apply (update_step w ∅ _ f s id r0 rec Hr0 Hs Hid Htn);
    [congruence|by left|intros; rights| |done|done|done].
  intros t'. rewrite (held_owed r0), (not_held rec), debt_down, debt_empty by congruence. subst t. lia.
Qed.

(** The provider of a lease is recorded. *)
Lemma bind_records id ref s s' a :
  Mem.bind_provider_ref id ref s = (s', a) →
  match a with
  | Err _ => records s' = records s
  | Ok rec => ∃ r0, records s !! id = Some r0 ∧ state r0 = Pending ∧
      records s' = <[id := rec]> (records s) ∧ rec = set_box_ref r0 ref
  end.
Proof.
  unfold Mem.bind_provider_ref, mbind, M_bind, get_state, lift, bail_if, mret, M_ret, throw, modify.
  destruct (validate_provider_ref ref); [|by intros [= <- <-]].
  case_bool_decide; [by intros [= <- <-]|].
  destruct (records s !! id) as [r0|] eqn:Hr; [|by intros [= <- <-]].
  destruct (bind_ref r0 ref) as [rec|] eqn:Hb; [|by intros [= <- <-]].
  apply bind_ref_ok in Hb as (Hp & -> & _). intros [= <- <-]. by exists r0.
Qed.

Lemma spec_bind id ref :
  triple (holds_ref id ref) ∅ (ledger_op (Mem.bind_provider_ref id ref)) (λ _, ∅) (λ _ _ _, True).
Proof.
  apply triple_ledger; [auto with stable..|done|done|].
  intros w f s a E Hi [Hsp Hc]. apply bind_records in E. split; [|done].
  destruct a as [rec|e]; [|by apply ledger_unchanged].
  destruct E as (r0 & Hr0 & Hp & Hs & ->).
  apply (update_step w ∅ ∅ f s id r0 _ Hr0 Hs); [done|done|done|by right|done| |done|done|by left].
  intros t. unfold held_ind. cbn. lia.
Qed.

(** The end of a cleanup. *)
Definition finished (a : result LedgerError bool) : bool := match a with Ok b => b | Err _ => false end.

Lemma finish_records id s s' a :
  Mem.finish_pending_cleanup id s = (s', a) →
  if finished a
  then ∃ r0, records s !! id = Some r0 ∧ state r0 = Pending ∧ records s' = delete id (records s)
  else records s' = records s.
Proof.
  unfold Mem.finish_pending_cleanup, mbind, M_bind, get_state, mret, M_ret, modify.
  case_bool_decide; [|by intros [= <- <-]]. cbn [negb orb].
  destruct (Mem.is_pending_at s id) eqn:Hp; [|by intros [= <- <-]]. cbn [negb].
  apply is_pending_at_Some in Hp as (r0 & Hr0 & Hp). rewrite Hr0.
  intros [= <- <-]. cbn. by exists r0.
Qed.

Lemma finish_step w r r' f s id r0 :
  records (ledger w) !! id = Some r0 → state r0 = Pending → records s = delete id (records (ledger w)) →
  (∀ j, j ≠ id → same_rights j r r') →
  (∀ t, debt r' t = debt r t) →
  inv w (r ⊎ f) → v_refs (view_of w (r ⊎ f) id) = 0%nat → v_rights (view_of w (r' ⊎ f) id) = 0%nat → ¬ live (provisioner w) id →
  inv (set_ledger s w) (r' ⊎ f) ∧ rely w (r ⊎ f) (set_ledger s w) (r' ⊎ f).
Proof.
  intros Hr0 Hp Hs Htok Hd Hi Hrf Hz Hl. apply (ledger_at _ _ _ _ id); [done|..].
  - intros j Hj. by rewrite Hs, lookup_delete_ne.
  - intros j Hj. by apply same_rights_frame, Htok.
  - assert (view_of (set_ledger s w) (r' ⊎ f) id = in_ledger None 0 (v_unqueued (view_of w (r ⊎ f) id)) 0 (view_of w (r ⊎ f) id)) as ->.
    { views. rewrite Hs, lookup_delete_eq. pose proof (record_no_mint _ _ _ (inv_lease _ _ Hi id) Hr0) as Hm. views.
      f_equal; lia. }
    by eapply finished_lease; [apply Hi|..].
  - intros t. erewrite held_of_delete by exact Hs. specialize (Hd t). unfold at_key. rewrite Hr0.
    cbn [from_option]. rewrite pending_not_held by done. tokens.
Qed.

Lemma spec_finish id :
  triple (dead id) ∅ (ledger_op (Mem.finish_pending_cleanup id)) (λ _, ∅) (λ _ _ _, True).
Proof.
  apply triple_ledger; [auto with stable..|done|done|].
  intros w f s a E Hi [[Hk Hz] Hd]. apply finish_records in E. split; [|done].
  destruct (finished a); [|by apply ledger_unchanged]. destruct E as (r0 & Hr0 & Hp & Hs).
  apply (finish_step w ∅ ∅ f s id r0 Hr0 Hp Hs); try done. unfold v_rights in Hz. lia.
Qed.

(** The end of an admission that was never provisioned, by the task that owns it. *)
Lemma spec_finish_own id :
  triple (λ _ _, True) {[+ Adm id +]} (ledger_op (Mem.finish_pending_cleanup id))
    (λ a, if finished a then ∅ else {[+ Adm id +]}) (λ a w R, finished a = true → dead id w R).
Proof.
  apply triple_ledger; [auto with stable..|done|done|].
  intros w f s a E Hi _. apply finish_records in E.
  destruct (finished a); [|by split; [apply ledger_unchanged|]]. destruct E as (r0 & Hr0 & Hp & Hs).
  destruct (ok_rights _ _ (inv_lease _ _ Hi id)) as (Hone & Hiss & _ & Hfr); [views; tokens|].
  assert (v_rights (view_of w (∅ ⊎ f) id) = 0%nat) as Hz by (views; tokens).
  assert (v_refs (view_of w ({[+ Adm id +]} ⊎ f) id) = 0%nat) as Hrf by (views; tokens).
  pose proof (law_fresh _ _ (Hfr Hrf)) as Hl. split; [|done].
  apply (finish_step w {[+ Adm id +]} ∅ f s id r0 Hr0 Hp Hs); try done.
  intros j Hj. rights.
Qed.

(** Calls that keep the records, and what they tell. *)
Lemma spec_keep {A} (m : MemM A) (K' : result LedgerError A → W → Res → Prop) :
  (∀ a, stable (K' a)) → (∀ w R, K' (Err Poisoned) w R) → (∀ s, records (m s).1 = records s) →
  (∀ w R, inv w R → K' (m (ledger w)).2 w R) →
  triple (λ _ _, True) ∅ (ledger_op m) (λ _, ∅) K'.
Proof.
  intros Hst Herr Hm HK. apply triple_ledger; [auto with stable|done|done|done|].
  intros w f s a E Hi _. specialize (Hm (ledger w)). specialize (HK w _ Hi). rewrite E in Hm, HK.
  destruct (ledger_unchanged w (∅ ⊎ f) s Hm Hi) as [? ?]. split; [done|]. by eapply Hst.
Qed.

(** What is known of a lease from its record. *)
Definition told (id : string) (rec : LeaseRecord) w R : Prop :=
  lease_id rec = id ∧ of_tenant id (tenant rec) w R ∧
  (state rec ≠ Pending → settled id (tenant rec) w R) ∧
  (box_ref rec = "box:" +:+ id ∨ holds_ref id (box_ref rec) w R).

Lemma stable_told id rec : stable (told id rec).
Proof. unfold told. auto 10 with stable. Qed.

Lemma record_told id rec w R : inv w R → records (ledger w) !! id = Some rec → told id rec w R.
Proof.
  intros Hi Hr. pose proof (inv_lease _ _ Hi id) as Hok. pose proof (record_no_mint _ _ _ Hok Hr) as Hm.
  destruct (ok_rec _ _ Hok rec Hr) as (? & Hiss & Hb). split_and!; [done| |intros; split; [by eapply record_spent|by exists rec]|].
  - split_and!; [done|done|]. cbn. intros rec' Hr'. congruence.
  - destruct (decide (box_ref rec = "box:" +:+ id)) as [|Hne]; [by left|right]. destruct Hb as [?|Hc]; [done|].
    split; [|done]. split; [done|]. unfold v_rights. rewrite Hm.
    destruct (v_adms (view_of w R id) + v_refs (view_of w R id))%nat eqn:Ea; [lia|].
    destruct (ok_adm _ _ Hok) as (rec' & Hr' & _ & ?); [lia|]. cbn in Hr'. congruence.
Qed.

Lemma spec_get id :
  triple (λ _ _, True) ∅ (ledger_read (λ s, Mem.get s id)) (λ _, ∅)
    (λ a w R, ∀ rec, a = Ok (Some rec) → told id rec w R).
Proof.
  apply spec_keep; [auto using stable_told with stable|done|done|].
  intros w R Hi rec [= Hr]. by apply record_told.
Qed.

(** The rows of an enumeration. *)
Definition rows (a : result LedgerError (list LeaseRecord)) : list LeaseRecord :=
  match a with Ok rs => rs | Err _ => [] end.

Lemma spec_rows (φ : LeaseRecord → Prop) (m : MemM (list LeaseRecord)) :
  (∀ s, records (m s).1 = records s) →
  (∀ s rec, rec ∈ rows (m s).2 → rec ∈ Mem.values s ∧ φ rec) →
  triple (λ _ _, True) ∅ (ledger_op m) (λ _, ∅)
    (λ a w R, ∀ rec, rec ∈ rows a → told (lease_id rec) rec w R ∧ φ rec).
Proof.
  intros Hm Hv. apply spec_keep; [auto using stable_told with stable| |done|].
  { intros w R rec Hin. by apply elem_of_nil in Hin. }
  intros w R Hi rec Hin. apply Hv in Hin as [[k Hk]%elem_of_map_values Hφ].
  destruct (record_told k rec w R Hi Hk) as [Hid Ht]. rewrite Hid. by split.
Qed.

Lemma spec_held :
  triple (λ _ _, True) ∅ (ledger_read Mem.held) (λ _, ∅)
    (λ a w R, ∀ rec, rec ∈ rows a → told (lease_id rec) rec w R ∧ is_held (state rec) = true).
Proof.
  apply spec_rows; [done|]. cbn. intros s rec. unfold Mem.held.
  rewrite elem_of_sort_by_key, list_elem_of_filter. tauto.
Qed.

Lemma spec_by_tenant t :
  triple (λ _ _, True) ∅ (ledger_read (λ s, Mem.by_tenant s t)) (λ _, ∅)
    (λ a w R, ∀ rec, rec ∈ rows a → told (lease_id rec) rec w R ∧ tenant rec = t).
Proof.
  apply spec_rows; [done|]. cbn. intros s rec. unfold Mem.by_tenant.
  rewrite elem_of_sort_by_key, list_elem_of_filter. tauto.
Qed.

Lemma spec_claim_stale now age :
  triple (λ _ _, True) ∅ (ledger_op (Mem.claim_stale_pending_cleanup now age)) (λ _, ∅)
    (λ a w R, ∀ rec, rec ∈ rows a → told (lease_id rec) rec w R ∧ True).
Proof.
  apply spec_rows; [done|]. intros s rec. change (rec ∈ Mem.candidates s now age → rec ∈ Mem.values s ∧ True).
  unfold Mem.candidates. rewrite elem_of_sort_by_key, list_elem_of_filter. tauto.
Qed.

Lemma spec_claim id now :
  triple (λ _ _, True) ∅ (ledger_op (Mem.claim_pending_cleanup id now)) (λ _, ∅)
    (λ a w R, ∀ rec, a = Ok (Some rec) → told id rec w R).
Proof.
  apply spec_keep; [auto using stable_told with stable|done|..].
  - intros s. unfold Mem.claim_pending_cleanup, mbind, M_bind, get_state, mret, M_ret, modify.
    destruct (records s !! id) as [r|]; [|done]. by case_bool_decide.
  - intros w R Hi rec. unfold Mem.claim_pending_cleanup, mbind, M_bind, get_state, mret, M_ret, modify.
    destruct (records (ledger w) !! id) as [r|] eqn:Hr; [|done]. case_bool_decide; [|done].
    intros [= <-]. by apply record_told.
Qed.

(** ** Slot events *)
Definition owed (kind : SlotEventKind) (t : TenantId) : token :=
  match kind with Acquired => OweUp t | _ => OweDown t end.

Lemma owed_not_right kind t id :
  Mint id ≠ owed kind t ∧ Queued id ≠ owed kind t ∧ Adm id ≠ owed kind t ∧ Ref id ≠ owed kind t.
Proof. by destruct kind. Qed.

Lemma spec_export id t kind now at_ms :
  let ev := mkSlotEvent t id kind now at_ms in
  triple (λ _ _, True) {[+ owed kind t +]} (update (λ w, set_exported (exported w ++ [ev]) w))
    (λ _, ∅) (λ _ _ _, True).
Proof.
  intros ev. apply triple_atom; [auto with stable|]. intros w f w' [] [= <-] Hi _.
  rewrite (assoc (∧)). split; [|done]. apply at_no_lease; [done| |apply Hi| |apply Hi].
  - intros j. destruct (owed_not_right kind t j) as (? & ? & ? & ?).
    constructor; views; try done; rewrite !multiplicity_disj_union, multiplicity_singleton_ne by done; tokens.
  - intros t'. pose proof (inv_slots _ _ Hi t') as Hs. views. rewrite slots_of_snoc.
    cbn [ev_tenant ev_kind ev]. destruct kind; cbn [owed ev_delta] in *; tokens; naive_solver lia.
Qed.

(** ** The provisioner *)
Lemma triple_prov {A} (K : W → Res → Prop) r (g : P → P * A) ρ K' :
  (∀ a, stable (K' a)) →
  (∀ w f p a, g (provisioner w) = (p, a) → inv w (r ⊎ f) → K w (r ⊎ f) →
     (inv (set_prov p w) (ρ a ⊎ f) ∧ rely w (r ⊎ f) (set_prov p w) (ρ a ⊎ f)) ∧ K' a (set_prov p w) (ρ a ⊎ f)) →
  triple K r (prov_op g) ρ K'.
Proof.
  intros HK' Hg. apply triple_atom; [done|]. intros w f w' a E Hi Hk. unfold calls_prov in E.
  destruct (g (provisioner w)) as [p b] eqn:Eg. injection E as <- <-.
  destruct (Hg w f p b Eg Hi Hk) as [[? ?] ?]. done.
Qed.

Lemma prov_at w R R' p id :
  inv w R → prov_ok p → others live fresh untraced placed certified id (provisioner w) p →
  (∀ j, j ≠ id → same_rights j R R') →
  keeps_lease id (view_of w R id) (view_of (set_prov p w) R' id) → (∀ t, debt R' t = debt R t) →
  inv (set_prov p w) R' ∧ rely w R (set_prov p w) R'.
Proof.
  intros Hi Hp [] Ht Hk Hd. apply (at_lease id); [done| |done|done| |done].
  - intros j Hj. destruct (Ht j Hj) as (Hm & Hq & Ha & Hrf). constructor; views; eauto; tokens.
  - intros t. rewrite Hd. apply (inv_slots _ _ Hi t).
Qed.

(** A provider call that starts no box. *)
Lemma prov_settles w R p id :
  inv w R → known id w R → prov_ok p → settles live fresh untraced placed certified id (provisioner w) p →
  ((0 < v_rights (view_of w R id))%nat → traceless fresh untraced id (provisioner w) p) →
  inv (set_prov p w) R ∧ rely w R (set_prov p w) R.
Proof.
  intros Hi Hk Hp [Ho Hl _ Hc] Hf. apply (prov_at _ _ _ _ id); [done..| |done].
  apply (boxed_lease id (view_of w R id) (fresh p id) (untraced p id) (live p id) (certified p id));
    [apply Hi|done|exact Hl|exact Hf|]. intros _. exact Hc.
Qed.

(** Whoever has a right to a lease, no trace of a box for it is there. *)
Lemma rights_traceless w R id :
  inv w R → (0 < v_rights (view_of w R id))%nat → fresh (provisioner w) id ∨ untraced (provisioner w) id.
Proof.
  intros Hi Hz. pose proof (inv_lease _ _ Hi id) as Hok. destruct (v_refs (view_of w R id)) eqn:Hr.
  - left. by apply (ok_rights _ _ Hok).
  - right. apply (ok_refused _ _ Hok). lia.
Qed.

Definition refused (a : result ProvError unit) : bool := match a with Err ProvCapacity => true | _ => false end.

Lemma spec_provision id spec :
  spec_name spec = container_name id →
  triple (λ _ _, True) {[+ Adm id +]} (prov_op (provision id spec))
    (λ a, if refused a then {[+ Ref id +]} else ∅) (λ a w R, refused a = false → spent id w R).
Proof.
  intros Hn. apply triple_prov; [auto with stable|]. intros w f p a E Hi _.
  destruct (ok_rights _ _ (inv_lease _ _ Hi id)) as (Hone & Hiss & Hsafe & Hfr); [views; tokens|].
  specialize (Hfr ltac:(views; tokens)).
  pose proof (law_provision (provisioner w) id spec (inv_prov _ _ Hi) Hfr Hsafe Hn) as Hlaw.
  pose proof (law_capacity (provisioner w) id spec (inv_prov _ _ Hi) Hfr) as Hcap.
  rewrite E in Hlaw, Hcap. cbn in Hlaw, Hcap. destruct Hlaw as (Hp & Ho & _).
  pose (R' := (if refused a then {[+ Ref id +]} else ∅) : Res).
  assert (view_of (set_prov p w) (R' ⊎ f) id =
    in_box (v_adms (view_of w ({[+ Adm id +]} ⊎ f) id) - 1) (if refused a then 1 else 0)
      (fresh p id) (untraced p id) (live p id) (certified p id) (view_of w ({[+ Adm id +]} ⊎ f) id)) as Hv.
  { unfold R'. views. destruct (refused a); f_equal; tokens. }
  split; [apply (prov_at _ _ _ _ id); [done|done|done| | |]|]; fold R'.
  - intros j Hj. unfold R'. destruct (refused a); rights.
  - rewrite Hv. apply provisioned_lease; [apply Hi|views; tokens|]. intros Hr. apply Hcap. by destruct a as [|[]].
  - intros t. unfold R'. destruct (refused a); tokens.
  - intros Hr. unfold spent, known. rewrite Hv, Hr. views. split; [done|]. tokens.
Qed.

Lemma spec_provider_ref id :
  triple (spent id) ∅ (prov_op (λ p, (p, provider_ref id p))) (λ _, ∅)
    (λ a w R, a ≠ Err ProvCapacity ∧ ∀ ref, a = Ok ref → holds_ref id ref w R).
Proof.
  apply triple_prov; [auto with stable|]. intros w f p a [= <- <-] Hi Hsp.
  assert (same_core w (set_prov (provisioner w) w)) as Hc by by constructor.
  destruct (core_keeps _ _ _ Hc Hi) as [Hi' Hr]. split; [done|]. split; [apply law_ref_class|].
  intros ref Href. split; [by eapply stable_spent|]. cbn. apply (law_ref _ _ _ (inv_prov _ _ Hi) Href).
Qed.

Lemma spec_restore id ref :
  triple (holds_ref id ref) ∅ (prov_op (restore_provider_ref id ref)) (λ _, ∅) (λ _ _ _, True).
Proof.
  apply triple_prov; [auto with stable|]. intros w f p a E Hi [[Hk Hz] Hc]. split; [|done].
  pose proof (law_restore _ id ref (inv_prov _ _ Hi) Hc) as Hlaw. rewrite E in Hlaw.
  destruct Hlaw as (Hp & Hs & _). apply (prov_settles _ _ _ id); [done..|]. rewrite Hz. lia.
Qed.

Lemma spec_teardown id :
  triple (spent id) ∅ (prov_op (teardown id)) (λ _, ∅) (λ a w R, is_ok a = true → dead id w R).
Proof.
  apply triple_prov; [auto with stable|]. intros w f p a E Hi Hsp.
  pose proof (law_teardown _ id (inv_prov _ _ Hi)) as Hlaw. rewrite E in Hlaw.
  destruct Hlaw as (Hp & Hs & Hf & Hd).
  destruct (prov_settles w (∅ ⊎ f) p id Hi (proj1 Hsp) Hp Hs) as [Hi' Hr]; [done|].
  split; [done|]. intros Ha. split; [by eapply stable_spent|]. by apply Hd.
Qed.

Lemma spec_teardown_pending id :
  triple (known id) ∅ (prov_op (teardown_pending id)) (λ _, ∅)
    (λ a w R, a = ConfirmedDestroyed → dead id w R).
Proof.
  apply triple_prov; [auto with stable|]. intros w f p a E Hi Hk.
  pose proof (law_teardown_pending _ id (inv_prov _ _ Hi)) as Hlaw. rewrite E in Hlaw.
  destruct Hlaw as (Hp & Hs & Hf & Hne & Hd).
  destruct (prov_settles w (∅ ⊎ f) p id Hi Hk Hp Hs) as [Hi' Hr]; [done|].
  split; [done|]. intros ->. split; [|by apply Hd].
  eapply stable_spent; [done|done|]. split; [done|].
  destruct (v_rights (view_of w (∅ ⊎ f) id)) eqn:Hz; [done|].
  destruct Hne; [|done]. eapply rights_traceless; [done|]. rewrite Hz. lia.
Qed.

(** A lease that was refused is never confirmed to be gone. *)
Lemma spec_teardown_unused id :
  triple (λ _ _, True) {[+ Ref id +]} (prov_op (teardown_pending id)) (λ _, {[+ Ref id +]})
    (λ a _ _, a ≠ ConfirmedDestroyed).
Proof.
  apply triple_prov; [auto with stable|]. intros w f p a E Hi _.
  pose proof (law_teardown_pending _ id (inv_prov _ _ Hi)) as Hlaw. rewrite E in Hlaw.
  destruct Hlaw as (Hp & Hs & Hf & Hne & Hd).
  assert (0 < v_rights (view_of w ({[+ Ref id +]} ⊎ f) id))%nat as Hz by (views; tokens).
  destruct (ok_rights _ _ (inv_lease _ _ Hi id) Hz) as (_ & Hiss & _ & _).
  split; [by apply (prov_settles _ _ _ id)|]. by eapply Hne, rights_traceless.
Qed.

Lemma spec_forget id :
  triple (dead id) ∅ (prov_op (λ p, (forget_pending_cleanup id p, ()))) (λ _, ∅) (λ _ _ _, True).
Proof.
  apply triple_prov; [auto with stable|]. intros w f p [] [= <-] Hi [[Hk Hz] Hl]. split; [|done].
  destruct (law_forget _ id (inv_prov _ _ Hi) Hl) as (Hp & Hs & Hf).
  apply (prov_settles _ _ _ id); [done..|]. rewrite Hz. lia.
Qed.

Lemma spec_probe id :
  triple (known id) ∅ (prov_op (probe id)) (λ _, ∅) (λ _ _ _, True).
Proof.
  apply triple_prov; [auto with stable|]. intros w f p a E Hi Hk. split; [|done].
  pose proof (law_probe _ id (inv_prov _ _ Hi)) as Hlaw. rewrite E in Hlaw. cbn in Hlaw.
  destruct Hlaw as (Hp & Hs & Hf). by apply (prov_settles _ _ _ id).
Qed.

(** ** New leases *)
Lemma spec_mint :
  triple (λ _ _, True) ∅ (ask ext_lease_id) (λ id, {[+ Mint id +]}) (λ _ _ _, True).
Proof.
  apply triple_atom; [auto with stable|]. intros w f w' id E Hi _. unfold asks in E.
  pose proof (lease_id_new (outside w)) as Hnew. destruct (ext_lease_id (outside w)) as [o id'].
  injection E as <- <-. destruct Hnew as (Hni & Hsafe & Hiss). rewrite (assoc (∧)). split; [|done].
  apply (at_lease id'); [done| | |apply Hi| |done].
  - intros j Hj. constructor; views; try done; [rewrite Hiss; naive_solver|tokens..].
  - eapply keeps_untouched; [apply (new_lease id' (view_of w (∅ ⊎ f) id')); [apply Hi|done|done]|].
    constructor; views; try done; [rewrite Hiss; naive_solver|tokens..].
  - intros t. pose proof (inv_slots _ _ Hi t). views. tokens.
Qed.
End specs.
