(* ===== verification/ServiceProofs.v ===== *)
(** * The lease service: every handler keeps the invariant

    Each handler and sweep, from the accesses it makes: what it needs and
    leaves, and that between any two accesses the invariant holds. *)
From stdpp Require Import gmultiset.
From S2P Require Import Prelude Tenant Ledger LedgerSpec Journal Text Lease Boxes BoxLaws Billing Task Envelope Attest Shard State Service ServiceLogic ServiceSpecs.

Import Rules.

(** One access of the outside or of a table, or several, in front. *)
Create HintDb quiet.
#[export] Hint Extern 1 (_ ≠ provision_capacity_503) => discriminate : quiet.
Ltac quiet_task := repeat first
  [ progress intros
  | apply quiet_ret; done
  | (apply quiet_incr; congruence) | apply quiet_on_tables | apply quiet_read | apply quiet_hook_op
  | (apply quiet_ask; eauto 2 with outside)
  | (solve [eauto 2 with quiet])
  | (apply (quiet_bind (λ _, True)); [|intros ? _])
  | match goal with |- Task.quiet _ _ _ (match ?x with _ => _ end) => destruct x end ].
Ltac stably := solve [eauto 12 with stable].
Ltac quietly := apply (triple_quiet_bind _ _ (λ _, True)); [stably|solve [quiet_task]|intros ? _].

Section proofs.
Context {P O : Type} {prov : BoxProvisioner P} {ext : External O}.
Context {json : SerdeJson} {codec : BindingCodec} {unicode : Unicode} {ejson : EnvelopeJson} {crypto : Crypto}.
Context {blaws : BoxLaws P} {xlaws : ExternalLaws O}.
Context (cfg : Config).
Abbreviation W := (AppState P O).
Implicit Types (w : W) (R : Res).

(** ** Rules of use *)
Lemma triple_forget {A} (K : W → Res → Prop) r (t : Task W A) ρ K' :
  droppable r → triple K ∅ t ρ K' → triple K r t ρ K'.
Proof. intros Hr Ht. rewrite <-(left_id_L ∅ (⊎) r). by apply triple_drop. Qed.

Lemma triple_weaken {A} (K1 K2 : W → Res → Prop) r (t : Task W A) ρ K' :
  (∀ w R, K2 w R → K1 w R) → triple K1 r t ρ K' → triple K2 r t ρ K'.
Proof. intros H. by apply triple_conseq. Qed.

Lemma triple_pure {A} (φ : Prop) (K : W → Res → Prop) r (t : Task W A) ρ K' :
  (∀ w R, K w R → φ) → (φ → triple K r t ρ K') → triple K r t ρ K'.
Proof. apply safe_pure. Qed.

Lemma triple_last {A} (K : W → Res → Prop) (t : Task W A) :
  stable K → quiet (λ _, True) t → triple K ∅ t (λ _, ∅) (λ _ _ _, True).
Proof. intros HK Ht. eapply triple_conseq; [| |by apply triple_quiet]; done. Qed.

(** ** Boxes *)
Lemma quiet_now : quiet (λ _, True) (now_ms (P := P)).
Proof. quiet_task. Qed.
Hint Resolve quiet_now : quiet.

Lemma spec_restore_for_operation id :
  triple (λ _ _, True) ∅ (restore_for_operation id) (λ _, ∅) (λ _ _ _, True).
Proof.
  unfold restore_for_operation. eapply triple_call; [stably|apply spec_get|done|]. intros [[rec|]|e]; cbn beta.
  2,3: by apply triple_ret.
  destruct (String.eqb_spec (box_ref rec) ("box:" +:+ id)); [by apply triple_ret|].
  destruct (decode (box_ref rec)) as [b|]; [|by apply triple_ret].
  destruct (negb _); [by apply triple_ret|].
  eapply triple_weaken; [|apply spec_restore]. intros w R [_ Ht].
  destruct (Ht rec eq_refl) as (_ & _ & _ & [?|?]); done.
Qed.

Lemma spec_blocking {A} K (t : Task W (result ProvError A)) K' :
  stable K → (∀ w R, K w R → K' (Err ProvFailed) w R) →
  triple K ∅ t (λ _, ∅) K' → triple K ∅ (blocking t) (λ _, ∅) K'.
Proof.
  intros HK Herr Ht. unfold blocking. quietly. destruct a; [by apply triple_ret|done].
Qed.

Lemma spec_teardown_lease id :
  triple (spent id) ∅ (teardown_lease id) (λ _, ∅) (λ b w R, b = true → dead id w R).
Proof.
  unfold teardown_lease.
  eapply triple_call; [stably|apply spec_blocking; [apply stable_true| |apply spec_restore_for_operation]|done|]; [done|].
  intros [[]|e]; cbn beta; [|by apply triple_ret].
  eapply triple_seq; [stably|apply spec_blocking; [apply stable_spent| |apply spec_teardown]|by intros w R [? _]|]; [done|].
  intros a. cbn beta. apply triple_ret; [done|]. by intros w R [_ ?].
Qed.

Lemma spec_teardown_pending_lease id :
  triple (known id) ∅ (teardown_pending_lease id) (λ _, ∅) (λ a w R, a = ConfirmedDestroyed → dead id w R).
Proof.
  unfold teardown_pending_lease. quietly. destruct a; [by apply triple_ret|].
  eapply triple_call; [stably|apply spec_restore_for_operation|done|].
  intros [[]|e]; cbn beta; [|by apply triple_ret]. quietly. destruct a; [by apply triple_ret|].
  eapply triple_weaken; [|apply spec_teardown_pending]. by intros w R [? _].
Qed.

Lemma spec_probe_lease id : triple (known id) ∅ (probe_lease id) (λ _, ∅) (λ _ _ _, True).
Proof.
  unfold probe_lease.
  eapply triple_call; [stably|apply spec_blocking; [apply stable_true| |apply spec_restore_for_operation]|done|]; [done|].
  intros [[]|e]; cbn beta; [|by apply triple_ret].
  eapply triple_weaken; [|apply spec_blocking; [apply stable_known| |apply spec_probe]]; [by intros w R [? _]|done].
Qed.

(** Nothing is confirmed of a lease that was refused. *)
Lemma spec_teardown_unused_lease id :
  triple (λ _ _, True) {[+ Ref id +]} (teardown_pending_lease id) (λ _, {[+ Ref id +]})
    (λ a _ _, a ≠ ConfirmedDestroyed).
Proof.
  unfold teardown_pending_lease. quietly. destruct a; [by apply triple_ret|].
  eapply triple_call; [stably|apply spec_restore_for_operation|done|].
  intros [[]|e]; cbn beta; [|by apply triple_ret]. quietly. destruct a; [by apply triple_ret|].
  eapply triple_weaken; [|apply spec_teardown_unused]. done.
Qed.

(** A box for an admitted lease; a refusal for lack of capacity is kept in mind,
    though a box may have been started. *)
Lemma spec_provision_lease id spec :
  spec_name spec = container_name id →
  triple (λ _ _, True) {[+ Adm id +]} (provision_lease id spec) (λ a, if refused a then {[+ Ref id +]} else ∅)
    (λ a w R, is_ok a = true → spent id w R).
Proof.
  intros Hn. unfold provision_lease, blocking at 1.
  apply (triple_seq _ (λ _ _, True) _ _ (λ a, if refused a then {[+ Ref id +]} else ∅)
           (λ a w R, is_ok a = true → spent id w R)); [stably| |done|].
  - apply (triple_quiet_bind _ _ (λ _, True)); [stably|quiet_task|]. intros [] _.
    { cbn [refused]. apply triple_forget; [stably|]. by apply triple_ret. }
    eapply triple_conseq; [| |apply spec_provision, Hn]; [done|]. intros a w R H Ha. apply H. by destruct a.
  - intros [[]|e]; cbn [refused]; [|apply triple_ret; [done|]; by intros w R [_ ?]].
    eapply triple_call; [stably| |..].
    { apply (spec_blocking _ _ (λ a w R, a ≠ Err ProvCapacity ∧ ∀ ref, a = Ok ref → holds_ref id ref w R));
        [apply (stable_spent id)|done|]. apply spec_provider_ref. }
    { intros w R [_ H]. by apply H. }
    intros [ref|e]; cbn beta iota.
    + eapply triple_call; [stably|apply spec_bind|..].
      { intros w R [_ [_ H]]. by apply H. }
      intros b. cbn beta. apply triple_ret; [by destruct b|]. intros w R [[[_ H] _] _] _. by apply H.
    + apply (triple_pure (e ≠ ProvCapacity)); [intros w R [_ [? _]]; congruence|intros He].
      apply triple_ret; [by destruct e|done].
Qed.

(** ** Side tables and slots *)
Lemma quiet_revoke id : quiet (λ _, True) (revoke_pat_for (P := P) cfg id).
Proof.
  unfold revoke_pat_for, take_cred, take_pat. apply (quiet_bind (λ _, True)); [by apply quiet_core|intros ? _].
  apply (quiet_bind (λ _, True)); [by apply quiet_core|intros pat _]. quiet_task.
Qed.
Hint Resolve quiet_revoke : quiet.

Lemma spec_forget_lease id : triple (dead id) ∅ (forget_lease id) (λ _, ∅) (λ _ _ _, True).
Proof.
  unfold forget_lease, unregister_hook. eapply triple_call; [stably|apply spec_forget|done|].
  intros []. cbn beta. do 7 quietly. apply triple_last; [stably|quiet_task].
Qed.

Lemma spec_slot id t kind at_ms :
  triple (λ _ _, True) {[+ owed kind t +]} (record_slot_inner id t kind at_ms) (λ _, ∅) (λ _ _ _, True).
Proof.
  unfold record_slot_inner. quietly.
  apply (triple_quiet_bind _ _ (λ _, True)); [stably|by apply quiet_core|intros _ _].
  apply spec_export.
Qed.

(** ** Pending cleanup *)
Lemma spec_rollback_before id :
  triple (λ _ _, True) {[+ Adm id +]} (rollback_pending_admission id BeforeProvision) (λ _, ∅) (λ _ _ _, True).
Proof.
  unfold rollback_pending_admission. quietly.
  eapply triple_call; [stably|apply spec_claim|done|]. intros [[row|]|e]; cbn beta.
  2,3: apply triple_forget; [stably|by apply triple_ret].
  apply (triple_pure (lease_id row = id)); [intros w R [_ Ht]; by destruct (Ht row eq_refl)|intros ->].
  quietly. destruct a0; [|apply triple_forget; [stably|by apply triple_ret]].
  eapply triple_seq; [stably|apply spec_finish_own|done|].
  intros [[]|e]; cbn [finished]; cbn beta iota; [|apply triple_forget; [stably|by apply triple_ret]..].
  eapply triple_call; [stably|apply (spec_forget id)|intros w R [_ Hd]; by apply Hd|].
  intros []. by apply triple_ret.
Qed.

Lemma spec_rollback_after id :
  triple (λ _ _, True) ∅ (rollback_pending_admission id AfterProvision) (λ _, ∅) (λ _ _ _, True).
Proof.
  unfold rollback_pending_admission. quietly.
  eapply triple_call; [stably|apply spec_claim|done|]. intros [[row|]|e]; cbn beta.
  2,3: by apply triple_ret.
  apply (triple_pure (lease_id row = id)); [intros w R [_ Ht]; by destruct (Ht row eq_refl)|intros ->].
  eapply (triple_weaken (known id)); [intros w R [_ Ht]; by destruct (Ht row eq_refl) as (_ & [? _] & _)|].
  apply (triple_seq _ (known id) _ _ (λ _, ∅) (λ b w R, b = true → dead id w R)); [stably| |done|].
  - eapply triple_seq; [stably|apply spec_teardown_pending_lease|done|].
    intros a'. cbn beta. apply triple_ret; [done|]. intros w R [_ Hd] Hb%bool_decide_eq_true. auto.
  - intros []; cbn beta; [|by apply triple_ret].
    eapply triple_call; [stably|apply (spec_finish id)|intros w R [_ Hd]; by apply Hd|].
    intros [[]|e]; cbn beta iota; [|by apply triple_ret..].
    eapply triple_call; [stably|apply (spec_forget id)|intros w R [[_ Hd] _]; by apply Hd|].
    intros []. by apply triple_ret.
Qed.

(** Without a trace of a box there is nothing to confirm, so the reservation stays. *)
Lemma spec_rollback_unused id :
  triple (λ _ _, True) {[+ Ref id +]} (rollback_pending_admission id AfterProvision) (λ _, ∅) (λ b _ _, b = false).
Proof.
  unfold rollback_pending_admission. quietly.
  eapply triple_call; [stably|apply spec_claim|done|]. intros [[row|]|e]; cbn beta.
  2,3: apply triple_forget; [stably|by apply triple_ret].
  apply (triple_pure (lease_id row = id)); [intros w R [_ Ht]; by destruct (Ht row eq_refl)|intros ->].
  apply (triple_seq _ (λ _ _, True) _ _ (λ _, ∅) (λ b _ _, b = false)); [stably| |done|].
  - eapply triple_seq; [stably|apply spec_teardown_unused_lease|done|]. intros a'. cbn beta.
    apply triple_forget; [stably|]. apply triple_ret; [done|]. intros w R [_ Hne]. by apply bool_decide_eq_false.
  - intros b; cbn beta. apply (triple_pure (b = false)); [by intros w R [_ ?]|intros ->]. by apply triple_ret.
Qed.

Lemma spec_sweep_row row :
  triple (known (lease_id row)) ∅ (sweep_row cfg row) (λ _, ∅) (λ _ _ _, True).
Proof.
  unfold sweep_row. eapply triple_call; [stably|apply spec_teardown_pending_lease|done|].
  intros a. cbn beta. case_bool_decide as Ha; cbn [negb]; [|by apply triple_ret]. subst a.
  eapply (triple_weaken (dead (lease_id row))); [intros w R [_ Hd]; by apply Hd|].
  eapply triple_call; [stably|apply spec_finish|done|].
  intros [[]|e]; cbn beta iota; [|by apply triple_ret..].
  eapply triple_call; [stably|apply spec_forget|by intros w R [? _]|]. intros []. quietly.
  eapply triple_call; [stably|apply spec_forget_lease|by intros w R [[? _] _]|]. intros []. by apply triple_ret.
Qed.

Lemma sweep_stale_pending_ok age :
  triple (λ _ _, True) ∅ (sweep_stale_pending cfg age) (λ _, ∅) (λ _ _ _, True).
Proof.
  unfold sweep_stale_pending. quietly.
  eapply triple_call; [stably|apply spec_claim_stale|done|]. intros [rs|e]; cbn beta; [|by apply triple_ret].
  eapply triple_weaken; [|apply (triple_for_each (λ w R, ∀ rec, rec ∈ rs → known (lease_id rec) w R))].
  - intros w R [_ Ht] rec Hin. by destruct (Ht rec Hin) as [(_ & [? _] & _) _].
  - stably.
  - intros rec Hin. eapply triple_weaken; [|apply spec_sweep_row]. eauto.
Qed.

(** ** Finalizing *)
Lemma quiet_register_runner req spec :
  quiet (λ o, ∀ spec', o = Some spec' → spec_name spec' = spec_name spec) (register_runner (P := P) cfg req spec).
Proof.
  unfold register_runner. destruct (req_runner req) as [scope|]; [|apply quiet_ret; congruence].
  destruct (negb _); [by apply quiet_ret|].
  apply (quiet_bind (λ _, True)); [quiet_task|]. intros [] _; [by apply quiet_ret|].
  apply (quiet_bind (λ _, True)); [quiet_task|]. intros jit _. apply quiet_ret.
  intros spec'. destruct jit; [|done]. by intros [= <-].
Qed.

Lemma inject_cred_name ticket id endpoint t base spec :
  spec_name (inject_cred_ticket_env_with ticket id endpoint t base spec) = spec_name spec.
Proof. unfold inject_cred_ticket_env_with. by destruct (public_base base). Qed.

Lemma quiet_mint_credential t pat id lease req spec :
  quiet (λ o, ∀ spec', o = Some spec' → spec_name spec' = spec_name spec)
    (mint_credential (P := P) cfg t pat id lease req spec).
Proof.
  unfold mint_credential. destruct (negb _); [apply quiet_ret; congruence|].
  destruct (req_repo_full_name req) as [repo|]; [|destruct (req_installation_id req); apply quiet_ret; congruence].
  do 3 (apply (quiet_bind (λ _, True)); [quiet_task|intros ? _]).
  apply (quiet_bind (λ _, True)); [quiet_task|intros [m|] _].
  - apply (quiet_bind (λ s, spec_name s = spec_name spec)).
    + destruct (has_cred_signer cfg); [|by apply quiet_ret].
      apply (quiet_bind (λ _, True)); [quiet_task|intros _ _]. apply quiet_ret, inject_cred_name.
    + intros spec' Hs. apply (quiet_bind (λ _, True)); [quiet_task|intros _ _].
      apply quiet_ret. by intros ? [= <-].
  - apply (quiet_bind (λ _, True)); [quiet_task|intros _ _]. by apply quiet_ret.
Qed.

Lemma spec_finalize t pat m req :
  spec_name (minted_spec m) = container_name (minted_id m) →
  triple (of_tenant (minted_id m) t) {[+ Adm (minted_id m) +]} (finalize_admitted_lease cfg t pat m req)
    (λ _, ∅) (λ o _ _, o ≠ CapacityError).
Proof.
  intros Hn. unfold finalize_admitted_lease. set (id := minted_id m) in *. quietly.
  eapply triple_quiet_bind; [stably|apply quiet_register_runner|]. intros [spec|] Hs; cbn beta.
  2: { eapply triple_seq; [stably|apply spec_rollback_before|done|]. intros ?. by apply triple_ret. }
  eapply triple_quiet_bind; [stably|apply quiet_mint_credential|]. intros [spec'|] Hs'; cbn beta.
  2: { eapply triple_seq; [stably|apply spec_rollback_before|done|]. intros ?. by apply triple_ret. }
  specialize (Hs _ eq_refl). specialize (Hs' _ eq_refl).
  eapply triple_seq; [stably|apply (spec_provision_lease id spec'); congruence|done|].
  intros [[]|e]; cbn beta iota.
  2: { destruct (is_capacity_error e) eqn:He.
       - assert (refused (Err e) = true) as -> by (by destruct e).
         eapply triple_seq; [stably|apply spec_rollback_unused|done|]. intros cleaned; cbn beta.
         apply (triple_pure (cleaned = false)); [by intros w R [_ ?]|intros ->]. cbn [andb]. quietly. by apply triple_ret.
       - assert (refused (Err e) = false) as -> by (by destruct e).
         eapply triple_seq; [stably|apply spec_rollback_after|done|]. intros cleaned; cbn [andb].
         quietly. by apply triple_ret. }
  cbn [refused].
  eapply triple_seq; [stably|apply (spec_hold id t)|intros w R [Hs0 Hd0]; split; [by apply Hd0|done]|].
  intros [rec|e]; cbn [is_ok].
  2: { quietly. eapply triple_seq; [stably|apply spec_rollback_after|done|]. intros ?; cbn beta.
       quietly. by apply triple_ret. }
  eapply triple_seq; [stably|apply (spec_slot id t Acquired)|done|]. intros []; cbn beta.
  quietly. quietly. quietly. quietly. quietly. quietly. quietly. by apply triple_ret.
Qed.

(** ** Acquire *)
Lemma spec_mint_rest n target tries last :
  triple (λ _ _, True) {[+ Mint last +]} (mint_rest (ask (P := P) ext_lease_id) n target tries last)
    (λ id, {[+ Mint id +]}) (λ _ _ _, True).
Proof.
  revert last. induction tries as [|tries IH]; intros last; cbn [mint_rest]; [by apply triple_ret|].
  apply triple_forget; [stably|]. eapply triple_seq; [stably|apply spec_mint|done|].
  intros id. destruct (_ =? _); [by apply triple_ret|]. eapply triple_weaken; [|apply IH]. done.
Qed.

Lemma spec_mint_for target n :
  triple (λ _ _, True) ∅ (mint_lease_id_for target n) (λ id, {[+ Mint id +]}) (λ _ _ _, True).
Proof.
  unfold mint_lease_id_for, mint_lease_id_for_shard.
  eapply triple_seq; [stably|apply spec_mint|done|]. intros id.
  destruct (_ || _); [by apply triple_ret|]. eapply triple_weaken; [|apply spec_mint_rest]. done.
Qed.

Lemma quiet_reject c e : c ≠ provision_capacity_503 → quiet (λ _, True) (reject (P := P) c e).
Proof. intros Hc. unfold reject. quiet_task. Qed.
Hint Resolve quiet_reject : quiet.

Lemma quiet_gates t req n : quiet (λ _, True) (acquire_gates (P := P) cfg t req n).
Proof. unfold acquire_gates. quiet_task. Qed.

Lemma quiet_plan t pat req : quiet (λ _, True) (acquire_plan (P := P) t pat req).
Proof. unfold acquire_plan. quiet_task. Qed.

Lemma quiet_gate t ttl now : quiet (λ _, True) (build_compute_gate (P := P) cfg t ttl now).
Proof. unfold build_compute_gate. quiet_task. Qed.

Lemma build_spec_name lease req spec :
  build_spec lease req = Ok spec → spec_name spec = container_name (rl_lease_id lease).
Proof.
  unfold build_spec. intros H. apply (specs_named lease (req_image_digest req)).
  case_bool_decide; [by auto|]. destruct (req_agent req); auto.
Qed.

Lemma quiet_acquire_spec t id req now :
  quiet (λ o, ∀ spec, o = Some spec → spec_name spec = container_name id)
    (acquire_spec (P := P) cfg id (build_lease t id req now) req).
Proof.
  unfold acquire_spec. destruct (build_spec _ _) as [spec|] eqn:Hb; [|by apply quiet_ret].
  apply build_spec_name in Hb. cbn [rl_lease_id build_lease] in Hb.
  assert (∀ b : bool, spec_name (if b then inject_ingest_env_with id (ingest_token cfg id)
    (public_base_url cfg) spec else spec) = container_name id) as Hs.
  { intros []; [|done]. unfold inject_ingest_env_with. by destruct (public_base (public_base_url cfg)). }
  destruct (req_toolchain_digest req) as [d|]; [|apply quiet_ret; intros ? [= <-]; apply Hs].
  destruct (bool_decide _); [apply quiet_ret; intros ? [= <-]; exact Hb|].
  apply (quiet_bind (λ _, True)); [quiet_task|intros _ _]. apply quiet_ret. intros ? [= <-]. apply Hs.
Qed.

Section acquire.
(** What the waiting room must do with a minted lease: take it over. *)
Context (enqueue : TenantId → string → AcquireRequest → MintedLease → Z → Task W Response).
Context (enqueue_ok : ∀ t pat req m now,
  spec_name (minted_spec m) = container_name (minted_id m) →
  triple (λ _ _, True) {[+ Mint (minted_id m) +]} (enqueue t pat req m now) (λ _, ∅) (λ _ _ _, True)).

Lemma spec_acquire_admit t pat req plan m now :
  spec_name (minted_spec m) = container_name (minted_id m) →
  triple (λ _ _, True) {[+ Mint (minted_id m) +]} (acquire_admit cfg enqueue t pat req plan m now)
    (λ _, ∅) (λ _ _ _, True).
Proof.
  intros Hn. unfold acquire_admit. apply (triple_quiet_bind _ _ (λ _, True)); [stably|apply quiet_gate|].
  intros [[gate|e]|] _; [|apply triple_forget; [stably|by apply triple_ret]..].
  eapply triple_seq; [stably|by apply (spec_admit false (minted_id m) t)|done|].
  intros [[]|e]; cbn [admitted_ok]; cbn beta iota.
  - eapply triple_seq; [stably|by apply spec_finalize|intros w R [_ H]; by apply H|].
    intros []; [by apply triple_ret|]. apply (triple_pure False); [by intros w R [_ ?]|done].
  - destruct (admission_mode cfg).
    + apply triple_forget; [stably|]. apply triple_last; [stably|by apply quiet_reject].
    + eapply triple_weaken; [|by apply enqueue_ok]. done.
  - apply triple_forget; [stably|]. apply triple_last; [stably|by apply quiet_reject].
  - apply triple_forget; [stably|]. apply triple_last; [stably|by apply quiet_reject].
Qed.

Lemma acquire_ok t pat headers req :
  triple (λ _ _, True) ∅ (acquire cfg enqueue t pat headers req) (λ _, ∅) (λ _ _ _, True).
Proof.
  unfold acquire. quietly. destruct (negb _); [by apply triple_ret|]. quietly.
  apply (triple_quiet_bind _ _ (λ _, True)); [stably| |intros _ _].
  { unfold observe_shard_from_headers, observe_shard. destruct (parse_shard_headers headers) as [[]|]; [|quiet_task].
    by apply quiet_core. }
  apply (triple_quiet_bind _ _ (λ _, True)); [stably| |intros [shard_target num_shards] _].
  { unfold acquire_shard_target. quiet_task. }
  apply (triple_quiet_bind _ _ (λ _, True)); [stably|apply quiet_gates|]. intros [] _; [by apply triple_ret|].
  apply (triple_quiet_bind _ _ (λ _, True)); [stably|apply quiet_plan|]. intros [|plan] _; [by apply triple_ret|].
  apply (triple_quiet_bind _ _ (λ _, True)); [stably| |].
  { apply quiet_core. intros w R _. destruct (rate_check _ _ _ _). by split. }
  intros [] _; [apply triple_last; [stably|by apply quiet_reject]|].
  eapply triple_seq; [stably|apply spec_mint_for|done|]. intros id; cbn beta.
  eapply triple_quiet_bind; [stably|apply quiet_acquire_spec|]. intros [spec|] Hs.
  - apply (triple_weaken (λ _ _, True)); [done|].
    apply (spec_acquire_admit _ _ _ _ (mkMinted id _ spec)). cbn. auto.
  - apply triple_forget; [stably|]. apply triple_last; [stably|by apply quiet_reject].
Qed.
End acquire.

(** ** Status and cancel *)
Lemma quiet_ledger_read {A} (g : InMemoryInner → A) : quiet (λ _, True) (ledger_read (P := P) g).
Proof. by apply quiet_ledger. Qed.
Hint Resolve quiet_ledger_read : quiet.

Lemma quiet_status t id : quiet (λ _, True) (status (P := P) t id).
Proof. unfold status. quiet_task. Qed.

(** A lease read as held by its tenant. *)
Lemma told_settled id rec t w R :
  told id rec w R → tenant rec = t → state rec ≠ Pending → settled id t w R.
Proof. intros (_ & _ & H & _) <- ?. auto. Qed.

Lemma cancel_ok t id : triple (λ _ _, True) ∅ (cancel cfg t id) (λ _, ∅) (λ _ _ _, True).
Proof.
  unfold cancel. eapply triple_call; [stably|apply spec_get|done|].
  intros [[rec|]|e]; cbn beta iota; [|by apply triple_ret..].
  case_bool_decide as Ht; cbn [negb]; [|by apply triple_ret].
  destruct (state rec) as [|[]] eqn:Hst; try by apply triple_ret.
  eapply (triple_weaken (settled id t)).
  { intros w R [_ H]. eapply told_settled; [by apply H|done|congruence]. }
  eapply triple_call; [stably|apply (spec_teardown_lease id)|by intros w R [? _]|].
  intros []; cbn [negb]; [|by apply triple_ret]. quietly.
  eapply triple_seq; [stably|by apply (spec_terminal id t Released)|intros w R [Hs0 Hd0]; split; [by apply Hd0|done]|].
  intros [rec'|e]; cbn [is_ok].
  - eapply triple_seq; [stably|apply (spec_slot id t SlotReleased)|done|]. intros []. quietly. quietly.
    eapply triple_call; [stably|apply (spec_forget_lease id)|intros w R [[[_ H] _] _]; by apply H|].
    intros []. by apply triple_ret.
  - quietly. by apply triple_ret.
Qed.

(** ** Close *)
Lemma quiet_drive_close id e st : quiet (λ _, True) (drive_close (P := P) id e st).
Proof. unfold drive_close. quiet_task. Qed.

Lemma close_release_ok t id req m incomplete :
  triple (λ w R, settled id t w R ∧ dead id w R) ∅ (close_release cfg t id req m incomplete) (λ _, ∅) (λ _ _ _, True).
Proof.
  unfold close_release. quietly.
  eapply triple_seq; [stably|by apply (spec_terminal id t Released)|by intros w R [? ?]|].
  intros [rec'|e]; cbn [is_ok]; [|by apply triple_ret]. quietly.
  eapply triple_seq; [stably|apply (spec_slot id t SlotReleased)|done|]. intros []. quietly. quietly.
  eapply triple_call; [stably|apply (spec_forget_lease id)|by intros w R [[[_ H] _] _]|].
  intros []. by apply triple_ret.
Qed.

Lemma close_ok t id req : triple (λ _ _, True) ∅ (close cfg t id req) (λ _, ∅) (λ _ _ _, True).
Proof.
  unfold close. eapply triple_call; [stably|apply spec_get|done|].
  intros [[rec|]|e]; cbn beta iota; [|by apply triple_ret..].
  case_bool_decide as Ht; cbn [negb]; [|by apply triple_ret].
  destruct (state rec) as [|[]] eqn:Hst; try by apply triple_ret.
  eapply (triple_weaken (settled id t)).
  { intros w R [_ H]. eapply told_settled; [by apply H|done|congruence]. }
  match goal with |- context [match ?x with Some _ => _ | None => _ end] => destruct x as [st|] end; [|by apply triple_ret].
  destruct (check_memo _) as [[[]|]|]; [|by apply triple_ret..].
  eapply triple_call; [stably|apply (spec_teardown_lease id)|by intros w R [? _]|].
  intros []; cbn [negb]; [|by apply triple_ret].
  eapply (triple_weaken (λ w R, settled id t w R ∧ dead id w R)); [intros w R [Hs0 Hd0]; auto|].
  apply (triple_quiet_bind _ _ (λ _, True)); [stably|unfold close_handle, hook_entry; quiet_task|].
  intros [e|] _; [|apply close_release_ok].
  apply (triple_quiet_bind _ _ (λ _, True)); [stably|apply quiet_drive_close|].
  intros [o|] _; [|by apply triple_ret]. apply close_release_ok.
Qed.

(** ** The turn feed *)
Lemma quiet_write_events id evs wrote : quiet (λ _, True) (write_events (P := P) id evs wrote).
Proof. revert wrote. induction evs as [|ev evs IH]; intros wrote; cbn [write_events]; quiet_task; apply IH. Qed.

Lemma quiet_checkpoint id e : quiet (λ _, True) (checkpoint_turn (P := P) id e).
Proof.
  unfold checkpoint_turn. do 2 (apply (quiet_bind (λ _, True)); [quiet_task|intros ? _]).
  destruct a0 as [m|]; [|quiet_task]. destruct (metrics_to_json m); [|quiet_task].
  apply (quiet_bind (λ _, True)); [|quiet_task]. apply quiet_ledger; [done|]. intros w R _.
  unfold Mem.set_envelope_checkpoint, mbind, M_bind, get_state, bail_if, throw, mret, M_ret, modify.
  by destruct (negb _).
Qed.

Lemma quiet_ingest presented id body : quiet (λ _, True) (ingest (P := P) cfg presented id body).
Proof.
  unfold ingest, hook_entry. destruct presented; [|quiet_task]. destruct (negb _); [quiet_task|].
  apply (quiet_bind (λ _, True)); [quiet_task|]. intros [e|] _; [|quiet_task].
  destruct (parse_events body) as [[|ev evs]|]; [quiet_task| |quiet_task].
  apply (quiet_bind (λ _, True)); [apply quiet_write_events|]. intros [r|wrote] _; [quiet_task|].
  apply (quiet_bind (λ _, True)); [|quiet_task]. destruct wrote; [apply quiet_checkpoint|quiet_task].
Qed.

Lemma quiet_subscribe t id : quiet (λ _, True) (subscribe (P := P) t id).
Proof. unfold subscribe, hook_entry. quiet_task. Qed.

Lemma quiet_drain {A} id (next : Hook.Inner → Hook.Inner * option A) fuel acc :
  quiet (λ _, True) (drain (P := P) id next fuel acc).
Proof. revert acc. induction fuel as [|fuel IH]; intros acc; cbn [drain]; quiet_task; apply IH. Qed.

Lemma quiet_polls fuel t id :
  quiet (λ _, True) (poll_events (P := P) fuel t id) ∧ quiet (λ _, True) (poll_meta (P := P) fuel t id).
Proof.
  split; (apply (quiet_bind (λ _, True)); [apply quiet_subscribe|]; intros [] _; [quiet_task|];
    apply (quiet_bind (λ _, True)); [apply quiet_drain|quiet_task]).
Qed.

(** ** The sweeps *)
Lemma quiet_flush id kind died : quiet (λ _, True) (flush_partial_envelope (P := P) id kind died).
Proof. unfold flush_partial_envelope, hook_entry. quiet_task. Qed.
Hint Resolve quiet_flush : quiet.

Lemma terminalize_ok rec to kind why c now :
  to ≠ Held → kind ≠ Acquired → c ≠ provision_capacity_503 →
  triple (λ w R, dead (lease_id rec) w R ∧ settled (lease_id rec) (tenant rec) w R) ∅
    (terminalize cfg rec to kind why c now) (λ _, ∅) (λ _ _ _, True).
Proof.
  intros Hto Hk Hc. unfold terminalize. eapply triple_seq; [stably|by apply (spec_terminal _ (tenant rec))|done|].
  intros [rec'|e]; cbn [is_ok]; [|by apply triple_ret]. quietly. quietly. quietly.
  eapply triple_call; [stably|apply spec_forget_lease|by intros w R [[? _] _]|]. intros [].
  assert (owed kind (tenant rec) = OweDown (tenant rec)) as <- by (by destruct kind).
  eapply triple_seq; [stably|apply spec_slot|done|]. intros []. quietly. by apply triple_ret.
Qed.

Lemma reap_row_ok now rec :
  triple (settled (lease_id rec) (tenant rec)) ∅ (reap_row cfg now rec) (λ _, ∅) (λ _ _ _, True).
Proof.
  unfold reap_row. eapply triple_call; [stably|apply spec_teardown_lease|by intros w R [? _]|].
  intros []; [|by apply triple_ret]. eapply triple_weaken; [|by apply terminalize_ok]. intros w R [Hs0 Hd0]. auto.
Qed.

Lemma crash_row_ok now rec :
  triple (settled (lease_id rec) (tenant rec)) ∅ (crash_row cfg now rec) (λ _, ∅) (λ _ _ _, True).
Proof.
  unfold crash_row. eapply triple_call; [stably|apply spec_probe_lease|by intros w R [[? _] _]|].
  intros [[]|e]; try by apply triple_ret.
  eapply triple_call; [stably|apply spec_teardown_lease|by intros w R [[? _] _]|].
  intros []; [|by apply triple_ret]. eapply triple_weaken; [|by apply terminalize_ok].
  intros w R [[Hs0 _] Hd0]. auto.
Qed.

Lemma held_settled rec w R :
  told (lease_id rec) rec w R → is_held (state rec) = true → settled (lease_id rec) (tenant rec) w R.
Proof. intros Ht Hh. eapply told_settled; [done|done|]. by destruct (state rec). Qed.

(** A sweep over some of the held leases. *)
Lemma held_loop (body : LeaseRecord → Task W nat) (pick : list LeaseRecord → list LeaseRecord) :
  (∀ rs rec, rec ∈ pick rs → rec ∈ rs) →
  (∀ rec, triple (settled (lease_id rec) (tenant rec)) ∅ (body rec) (λ _, ∅) (λ _ _ _, True)) →
  triple (λ _ _, True) ∅ (rs ← ledger_read Mem.held; for_each body (pick (rows rs)))
    (λ _, ∅) (λ _ _ _, True).
Proof.
  intros Hp Hb. eapply triple_call; [stably|apply spec_held|done|]. intros a; cbn beta.
  eapply triple_weaken; [|apply (triple_for_each
    (λ w R, ∀ rec, rec ∈ rows a → settled (lease_id rec) (tenant rec) w R)); [stably|]].
  - intros w R [_ H] rec Hin. destruct (H rec Hin). by apply held_settled.
  - intros rec Hin%Hp. eapply triple_weaken; [|apply Hb]. eauto.
Qed.

Lemma reap_once_ok : triple (λ _ _, True) ∅ (reap_once cfg) (λ _, ∅) (λ _ _ _, True).
Proof.
  unfold reap_once. quietly. apply (held_loop _ (filter (is_overdue a))); [|apply reap_row_ok].
  intros rs rec. rewrite list_elem_of_filter. tauto.
Qed.

Lemma surface_crashes_ok : triple (λ _ _, True) ∅ (surface_crashes cfg) (λ _, ∅) (λ _ _ _, True).
Proof. unfold surface_crashes. quietly. by apply (held_loop _ id); [|apply crash_row_ok]. Qed.

(** ** The kill of a suspended tenant *)
Lemma kill_row_ok t id : triple (settled id t) ∅ (kill_row cfg t id) (λ _, ∅) (λ _ _ _, True).
Proof.
  unfold kill_row. eapply triple_call; [stably|apply (spec_teardown_lease id)|by intros w R [? _]|].
  intros torn. quietly. destruct torn; cbn [negb]; [|by apply triple_ret]. quietly.
  eapply triple_seq; [stably|by apply (spec_terminal id t Crashed)|intros w R [Hs0 Hd0]; auto|].
  intros [rec'|e]; cbn [is_ok]; [|by apply triple_ret].
  eapply triple_seq; [stably|apply (spec_slot id t SlotCrashed)|done|]. intros [].
  eapply triple_call; [stably|apply (spec_forget_lease id)|intros w R [[[_ H] _] _]; by apply H|].
  intros []. by apply triple_ret.
Qed.

Lemma kill_tenant_leases_ok t :
  triple (λ _ _, True) ∅ (kill_tenant_leases cfg t) (λ _, ∅) (λ _ _ _, True).
Proof.
  unfold kill_tenant_leases. eapply triple_call; [stably|apply (spec_by_tenant t)|done|]. intros rs; cbn beta.
  eapply triple_weaken; [|apply (triple_for_each (λ w R, ∀ rec, rec ∈ rows rs →
    is_held (state rec) = true → settled (lease_id rec) t w R)); [stably|]].
  - intros w R [_ H] rec Hin Hh. destruct (H rec Hin) as [? <-]. by apply held_settled.
  - intros id (rec & -> & [Hh Hin]%list_elem_of_filter)%list_elem_of_fmap.
    eapply triple_weaken; [|apply kill_row_ok]. eauto.
Qed.
End proofs.
#[export] Hint Resolve quiet_now quiet_revoke quiet_reject quiet_gate quiet_ledger_read : quiet.
