(* ===== verification/Admission.v ===== *)
(** * The waiting room: [admission.rs]

    Queue mode of an acquire: a request over its tenant's concurrency parks,
    and the admission tick hands out turns with the fair scheduler, admits,
    provisions and answers.  A request that is answered reads its channel; the
    access that finds it empty is the one that times out, and the channel is gone
    after either.  With a durable queue the turns of a tick are claimed from the
    database that all instances share.  The requester's connection stays open. *)
From S2P Require Import Prelude Tenant Ledger Journal Text Lease Boxes Caps Billing Scheduler Interference PgQueue Task ComputeMeter Envelope Attest Shard State Service.

(** [AdmissionQueue::new] and [with_park_cap]. *)
Definition DEFAULT_ADMISSION_PARK_CAP : nat := 8.
Definition admission_queue_new (tick_slots : nat) : AdmissionQueue :=
  mkAdmission (sched_new (Nat.max tick_slots 1)) ∅ ∅ ∅ [] DEFAULT_ADMISSION_PARK_CAP None.
Definition with_park_cap (park_cap : nat) (q : AdmissionQueue) : AdmissionQueue :=
  mkAdmission (aq_scheduler q) (aq_waiters q) (aq_channels q) (aq_permits q) (aq_semaphores q)
    (Nat.max park_cap 1) (aq_durable q).
Definition with_durable_queue (db : AdmissionTables) (q : AdmissionQueue) : AdmissionQueue :=
  mkAdmission (aq_scheduler q) (aq_waiters q) (aq_channels q) (aq_permits q) (aq_semaphores q) (aq_park_cap q)
    (Some db).

Definition with_scheduler (f : FairScheduler → FairScheduler) (q : AdmissionQueue) : AdmissionQueue :=
  mkAdmission (f (aq_scheduler q)) (aq_waiters q) (aq_channels q) (aq_permits q) (aq_semaphores q) (aq_park_cap q) (aq_durable q).
Definition with_waiters (f : gmap string QueuedAcquire → gmap string QueuedAcquire) (q : AdmissionQueue) : AdmissionQueue :=
  mkAdmission (aq_scheduler q) (f (aq_waiters q)) (aq_channels q) (aq_permits q) (aq_semaphores q) (aq_park_cap q) (aq_durable q).
Definition with_channels (f : gmap string Channel → gmap string Channel) (q : AdmissionQueue) : AdmissionQueue :=
  mkAdmission (aq_scheduler q) (aq_waiters q) (f (aq_channels q)) (aq_permits q) (aq_semaphores q) (aq_park_cap q) (aq_durable q).
Definition with_permits (f : gmap TenantId nat → gmap TenantId nat) (q : AdmissionQueue) : AdmissionQueue :=
  mkAdmission (aq_scheduler q) (aq_waiters q) (aq_channels q) (f (aq_permits q)) (aq_semaphores q) (aq_park_cap q) (aq_durable q).
Definition with_semaphores (f : list nat → list nat) (q : AdmissionQueue) : AdmissionQueue :=
  mkAdmission (aq_scheduler q) (aq_waiters q) (aq_channels q) (aq_permits q) (f (aq_semaphores q)) (aq_park_cap q) (aq_durable q).

(** [park_semaphore]: the tenant's semaphore, made when there is none. *)
Definition get_semaphore (t : TenantId) (q : AdmissionQueue) : AdmissionQueue * nat :=
  match aq_permits q !! t with
  | Some i => (q, i)
  | None =>
    let i := length (aq_semaphores q) in
    (with_permits <[t := i]> (with_semaphores (λ l, l ++ [aq_park_cap q]) q), i)
  end.

(** [try_acquire_owned] and the drop of the permit. *)
Definition take_permit (i : nat) (q : AdmissionQueue) : AdmissionQueue * bool :=
  match aq_semaphores q !! i with
  | Some (S n) => (with_semaphores <[i := n]> q, true)
  | _ => (q, false)
  end.
Definition give_permit (i : nat) : AdmissionQueue → AdmissionQueue := with_semaphores (alter S i).

(** The second half of [maybe_prune_park_semaphore]. *)
Definition drop_idle_semaphore (t : TenantId) (q : AdmissionQueue) : AdmissionQueue :=
  match aq_permits q !! t ≫= λ i, aq_semaphores q !! i with
  | Some free => if Nat.leb (aq_park_cap q) free then with_permits (delete t) q else q
  | None => q
  end.

(** [oneshot]: the answer is delivered if the receiver is there. *)
Definition send_answer (id : string) (r : Response) (q : AdmissionQueue) : AdmissionQueue * bool :=
  match aq_channels q !! id with
  | Some Waiting => (with_channels <[id := Answered r]> q, true)
  | _ => (q, false)
  end.
(** [timeout(wait, rx)]: the answer, or the time is up; the receiver is gone. *)
Definition take_answer (id : string) (q : AdmissionQueue) : AdmissionQueue * option Response :=
  (with_channels (delete id) q,
   match aq_channels q !! id with Some (Answered r) => Some r | _ => None end).

Definition enqueue_item (item : WorkItem) (q : AdmissionQueue) : AdmissionQueue * bool :=
  let '(s, r) := enqueue (aq_scheduler q) item in (with_scheduler (λ _, s) q, is_ok r).
Definition add_waiter (id : string) (a : QueuedAcquire) : AdmissionQueue → AdmissionQueue :=
  with_waiters <[id := a]>.
Definition remove_waiter (id : string) (q : AdmissionQueue) : AdmissionQueue * option QueuedAcquire :=
  (with_waiters (delete id) q, aq_waiters q !! id).

(** A turn that the tick has taken from the scheduler, with the record and the
    lifetime its request wants, if the request still waits. *)
Record Candidate : Type := mkCandidate { cand_item : WorkItem; cand_pending : option (LeaseRecord * Z) }.

Definition candidate (waiters : gmap string QueuedAcquire) (item : WorkItem) : Candidate :=
  mkCandidate item ((λ a, (q_pending a, q_ttl_ms a)) <$> waiters !! work_id item).

(** [tenant_cap], of the tenant's plan. *)
Definition tenant_cap (plan : option TenantPlan) : Z := from_option max_concurrency 0 plan.

(** [under_cap]: [None] is a ledger that cannot be read, [usize::MAX as u32]. *)
Definition under_cap (cap : Z) (rows : option (list LeaseRecord)) : bool :=
  if cap =? 0 then false
  else (match rows with
        | Some rows => as_u32 (Z.of_nat (length (filter is_active rows)))
        | None => U32_MAX
        end) <? cap.

(** The admission clock starts when the turn comes. *)
Definition restamp (now : Z) (rec : LeaseRecord) : LeaseRecord :=
  mkLease (lease_id rec) (tenant rec) (state rec) (box_ref rec) now now (deadline_ms rec)
    (billing_acquired_at_ms rec).

Section admission.
Context {P O : Type} {prov : BoxProvisioner P} {ext : External O}.
Context {json : SerdeJson} {codec : BindingCodec} {unicode : Unicode} {ejson : EnvelopeJson} {crypto : Crypto}.
Context (cfg : Config).
Abbreviation W := (AppState P O).

(** An access to the queue; the queue is wired once and for all, and who finds
    none does nothing. *)
Definition calls_queue {A} (none : A) (f : AdmissionQueue → AdmissionQueue * A) (w : W) : W * A :=
  match admission_queue w with
  | Some q => let '(q, a) := f q in (set_queue (Some q) w, a)
  | None => (w, none)
  end.
Definition on_queue {A} (none : A) (f : AdmissionQueue → AdmissionQueue * A) : Task W A :=
  atomic (calls_queue none f).
Definition change_queue (f : AdmissionQueue → AdmissionQueue) : Task W unit := on_queue () (λ q, (f q, ())).
Definition has_queue : Task W bool := read (λ w, bool_decide (is_Some (admission_queue w))).

(** A call of the durable queue: nothing when there is none, and it may not be
    reached. *)
Definition calls_durable {A} (m : gset string → (string → Z) → QueueM A) (w : W) :
    W * option (result QueueError A) :=
  match admission_queue w ≫= aq_durable with
  | None => (w, None)
  | Some _ =>
    let '(w, up) := asks ext_queue_up w in
    let '(w, scan) := asks ext_queue_scan w in
    match admission_queue w, admission_queue w ≫= aq_durable with
    | Some q, Some db =>
      if (up : bool) then
        let '(db, r) := m scan.1 scan.2 db in (set_queue (Some (with_durable_queue db q)) w, Some r)
      else (w, Some (Err QueueUnreachable))
    | _, _ => (w, None)
    end
  end.
Definition durable_op {A} (m : gset string → (string → Z) → QueueM A) : Task W (option (result QueueError A)) :=
  atomic (calls_durable m).
Definition has_durable : Task W bool :=
  read (λ w, bool_decide (is_Some (admission_queue w ≫= aq_durable))).

(** [maybe_prune_park_semaphore]. *)
Definition maybe_prune_park_semaphore (t : TenantId) : Task W unit :=
  n ← on_queue 0%nat (λ q, (q, pending (queues (aq_scheduler q)) t));
  if Nat.ltb 0 n then mret () else change_queue (drop_idle_semaphore t).

(** [evict_waiter]: the item stays in the scheduler and is skipped when its
    turn comes. *)
Definition evict_waiter (id : string) : Task W unit :=
  change_queue (with_waiters (delete id));;
  durable_op (λ _ _, AdmissionDb.remove id);;
  mret ().

(** [acquire_queued]. *)
Definition acquire_queued (t : TenantId) (pat : string) (req : AcquireRequest) (m : MintedLease) (now : Z) :
    Task W Response :=
  let id := minted_id m in
  wired ← has_queue;
  if negb wired then reject rejected_lease_invalid FailClosed
  else
    sem ← on_queue 0%nat (get_semaphore t);
    permit ← on_queue false (take_permit sem);
    if negb permit then reject rejected_over_cap FailClosed
    else
      let queued := mkQueued t pat req (minted_lease m) (minted_spec m) (req_expiry_ms req)
                      (pending_record t id now (expiry (minted_lease m))) in
      change_queue (λ q, add_waiter id queued (with_channels <[id := Waiting]> q));;
      accepted ← on_queue false (enqueue_item (mkWork id t now));
      if negb accepted then
        on_queue None (remove_waiter id);;
        r ← reject rejected_over_cap FailClosed;
        change_queue (give_permit sem);;
        mret r
      else
        queued ← durable_op (λ _ _, AdmissionDb.enqueue t id (as_i64 now));
        match queued with
        | Some (Err _) =>
          on_queue None (remove_waiter id);;
          evict_waiter id;;
          r ← reject rejected_over_cap FailClosed;
          change_queue (give_permit sem);;
          mret r
        | _ =>
          answer ← on_queue None (take_answer id);
          r ← match answer with
              | Some r => mret r
              | None =>
                revoke_pat_for cfg id;;
                evict_waiter id;;
                reject rejected_over_cap FailClosed
              end;
          change_queue (give_permit sem);;
          maybe_prune_park_semaphore t;;
          mret r
        end.

(** [rollback_undispatched_lease]: nobody took the lease. *)
Definition rollback_undispatched_lease (t : TenantId) (id : string) (ph : PendingRollbackPhase) : Task W unit :=
  current ← ledger_read (λ s, Mem.get s id);
  match current with
  | Ok (Some rec) =>
    match state rec with
    | Wire Held =>
      torn ← teardown_lease id;
      revoke_pat_for cfg id;;
      if negb torn then mret ()
      else
        now ← now_ms;
        crashed ← ledger_op (Mem.transition id Crashed now);
        if is_ok crashed then forget_lease id;; record_slot id t SlotCrashed else mret ()
    | Pending => rollback_pending_admission id ph;; revoke_pat_for cfg id
    | _ => mret ()
    end
  | _ => mret ()
  end.

(** *** The tick *)

(** The turns of one tick, under the scheduler's lock.  The cap check in front
    of them reads plans and the ledger; the admission decides again. *)
Definition can_start (w : W) (t : TenantId) : bool :=
  under_cap (tenant_cap (ext_plan_of t (outside w)).2)
    (if (ext_ledger_up (outside w)).2 then Some (Mem.by_tenant (ledger w) t) else None).

Definition take_turns (now : Z) (w : W) : W * (list Candidate * TickReport) :=
  match admission_queue w with
  | None => (w, ([], mkReport [] 0 []))
  | Some q =>
    let '(s, cands, report) := tick (λ _ t, can_start w t)
      (λ item cands, (cands ++ [candidate (aq_waiters q) item], true)) now (aq_scheduler q) [] in
    (set_queue (Some (with_scheduler (λ _, s) q)) w, (cands, report))
  end.

(** With a durable queue the turns are claimed from it, in the order all
    instances share; a turn that is not claimed is not taken in this tick. *)
Definition by_id (cands : list Candidate) : gmap string Candidate :=
  foldl (λ m c, <[work_id (cand_item c) := c]> m) ∅ cands.
Definition local_ids (cands : list Candidate) : list string :=
  (λ c, work_id (cand_item c)) <$> filter (λ c, is_Some (cand_pending c)) cands.

Fixpoint claim_turns (n : nat) (ids : list string) (left : gmap string Candidate) (fair : list Candidate) :
    Task W (list Candidate) :=
  match n with
  | 0%nat => mret fair
  | S n =>
    claimed ← durable_op (λ locked rank, AdmissionDb.dequeue_next_local locked rank ids);
    match claimed with
    | Some (Ok (Some row)) =>
      match left !! lease_request_id row with
      | Some c => claim_turns n ids (delete (lease_request_id row) left) (fair ++ [c])
      | None => claim_turns n ids left fair
      end
    | _ => mret fair
    end
  end.

Definition fair_turns (cands : list Candidate) : Task W (list Candidate) :=
  durable ← has_durable;
  if (durable : bool) then claim_turns (length (local_ids cands)) (local_ids cands) (by_id cands) []
  else mret cands.

(** What the loop over the candidates collects: ids to finalize, and requests
    to refuse, with the counter and the answer. *)
Definition Refusal : Type := string * Counter * Response.

(** The loop over the candidates; [None] is the calendar's panic. *)
Fixpoint admit_candidates (now : Z) (cands : list Candidate) (to_finalize : list string)
    (reject_waiters : list Refusal) : Task W (option (list string * list Refusal)) :=
  match cands with
  | [] => mret (Some (to_finalize, reject_waiters))
  | c :: cands =>
    let item := cand_item c in
    let refuse counter e :=
      admit_candidates now cands to_finalize (reject_waiters ++ [(work_id item, counter, RError e)]) in
    match cand_pending c with
    | None => admit_candidates now cands to_finalize reject_waiters
    | Some (rec, ttl_ms) =>
      plan ← ask (ext_plan_of (work_tenant item));
      gate ← build_compute_gate cfg (work_tenant item) ttl_ms now;
      match gate with
      | None => mret None
      | Some (Err _) => refuse rejected_lease_invalid FailClosed
      | Some (Ok gate) =>
        outcome ← ledger_op (Mem.try_admit_with_compute (restamp now rec) (tenant_cap plan) gate);
        match outcome with
        | Ok LeaseAdmitted =>
          durable_op (λ _ _, AdmissionDb.admit_won (work_tenant item));;
          admit_candidates now cands (to_finalize ++ [work_id item]) reject_waiters
        | Ok OverCompute => refuse rejected_compute_ceiling OverCap
        | Err _ => refuse rejected_lease_invalid FailClosed
        | Ok OverConcurrency =>
          durable_op (λ _ _, AdmissionDb.enqueue (work_tenant item) (work_id item) (as_i64 (enqueued_at_ms item)));;
          on_queue false (enqueue_item item);;
          admit_candidates now cands to_finalize reject_waiters
        end
      end
    end
  end.

(** The loop over the refused requests. *)
Fixpoint refuse_waiters (rs : list Refusal) : Task W unit :=
  match rs with
  | [] => mret ()
  | (id, counter, resp) :: rs =>
    waiter ← on_queue None (remove_waiter id);
    evict_waiter id;;
    match waiter with
    | Some _ =>
      sent ← on_queue false (send_answer id resp);
      if (sent : bool) then incr counter else mret ()
    | None => mret ()
    end;;
    refuse_waiters rs
  end.

(** The request goes back to the waiting room when there was no capacity. *)
Definition requeue (id : string) (a : QueuedAcquire) : Task W unit :=
  change_queue (add_waiter id a);;
  ok ← on_queue false (enqueue_item (mkWork id (q_tenant a) (created_at_ms (q_pending a))));
  if (ok : bool) then mret ()
  else
    shed ← on_queue None (remove_waiter id);
    match shed with
    | Some _ =>
      revoke_pat_for cfg id;;
      sent ← on_queue false (send_answer id capacity_exhausted_503);
      if (sent : bool) then incr provision_capacity_503 else mret ()
    | None => mret ()
    end.

(** One admitted id: whether its request was there to take the answer. *)
Definition finalize_one (id : string) : Task W bool :=
  waiter ← on_queue None (remove_waiter id);
  match waiter with
  | None =>
    rec ← ledger_read (λ s, Mem.get s id);
    match rec with
    | Ok (Some rec) => rollback_undispatched_lease (tenant rec) id BeforeProvision;; mret false
    | _ => mret false
    end
  | Some a =>
    outcome ← finalize_admitted_lease cfg (q_tenant a) (q_pat a) (mkMinted id (q_lease a) (q_spec a)) (q_req a);
    match outcome with
    | CapacityError => requeue id a;; mret false
    | Done resp =>
      sent ← on_queue false (send_answer id resp);
      if (sent : bool) then mret true
      else rollback_undispatched_lease (q_tenant a) id AfterProvision;; mret false
    end
  end.

Fixpoint finalize_all (ids : list string) (dispatched : gset string) : Task W (gset string) :=
  match ids with
  | [] => mret dispatched
  | id :: ids =>
    sent ← finalize_one id;
    finalize_all ids (if (sent : bool) then {[id]} ∪ dispatched else dispatched)
  end.

(** [run_admission_tick]: how many requests got their lease. *)
Definition run_admission_tick (now : Z) : Task W (option nat) :=
  wired ← has_queue;
  if negb wired then mret (Some 0%nat)
  else
    ready ← ask ext_mint_ready;
    if negb ready then mret (Some 0%nat)
    else
      turns ← atomic (take_turns now);
      let report := turns.2 in
      cands ← fair_turns turns.1;
      round ← admit_candidates now cands [] [];
      match round with
      | None => mret None
      | Some (to_finalize, reject_waiters) =>
        refuse_waiters reject_waiters;;
        done ← finalize_all to_finalize ∅;
        let waits := (filter (λ iw, iw.1 ∈ done) (zip (Scheduler.dispatched report) (waits_ms report))).*2 in
        update (λ w, set_waits (foldl (λ rings tw, record_wait rings tw.1 tw.2) (wait_stats w) waits) w);;
        change_queue (with_scheduler (λ s, foldl (λ s tw, record_dispatch_wait s tw.1 tw.2) s waits));;
        mret (Some (size done))
      end.
End admission.
