(* ===== verification/AdmissionProofs.v ===== *)
(** * The waiting room: a lease that waits is admitted at most once

    The right to admit a minted lease goes into the scheduler's queue with its
    item and comes out with its turn: what the queue holds before a tick is
    what the tick hands out and what it leaves.  The request in queue mode and
    the tick keep the invariant of the lease service. *)
From stdpp Require Import gmultiset.
From S2P Require Import Prelude Tenant Ledger LedgerSpec Journal Text Lease Boxes BoxLaws Billing Scheduler Interference PgQueue Task Envelope Attest Shard State Service ServiceLogic ServiceSpecs ServiceProofs Admission.

(** ** Everything that is queued *)
Definition all_items (q : TenantQueues) : list WorkItem := concat (map_values q).

Lemma all_items_delete q t : all_items q ≡ₚ queue q t ++ all_items (delete t q).
Proof.
  unfold all_items, queue, map_values. destruct (q !! t) as [fifo|] eqn:E; cbn [default].
  - rewrite <-(insert_delete_id q t fifo E) at 1. rewrite map_to_list_insert by apply lookup_delete_eq. done.
  - by rewrite delete_id.
Qed.

Lemma all_items_insert q t fifo : all_items (<[t := fifo]> q) ≡ₚ fifo ++ all_items (delete t q).
Proof.
  rewrite (all_items_delete _ t). unfold queue. rewrite lookup_insert_eq, delete_insert_eq. done.
Qed.

Lemma enqueue_items s item :
  let '(s', r) := enqueue s item in
  all_items (queues s') ≡ₚ (if is_ok r then [item] else []) ++ all_items (queues s).
Proof.
  unfold enqueue, try_enqueue. set (t := work_tenant item). pose proof (all_items_delete (queues s) t) as Hd.
  case_bool_decide; cbn [is_ok queues].
  - destruct (queue (queues s) t); [by rewrite Hd|done].
  - rewrite all_items_insert, Hd, <-app_assoc. cbn. by rewrite <-Permutation_middle.
Qed.

Lemma pop_items q t item q' : pop_front q t = (Some item, q') → all_items q ≡ₚ item :: all_items q'.
Proof.
  unfold pop_front. rewrite (all_items_delete q t). unfold queue.
  destruct (q !! t) as [[|x [|y fifo]]|]; [done| | |done]; intros [= -> <-]; cbn [default tail].
  - done.
  - by rewrite all_items_insert.
Qed.

(** A tick that takes every turn it is offered and notes it. *)
Section noted.
Context {X : Type} (f : WorkItem → X) (cap_check : TenantId → bool) (now : Z).
Abbreviation dispatch := (λ item (xs : list X), (xs ++ [f item], true)).
Abbreviation check := (λ (_ : list X) t, cap_check t).

Definition noted (q : TenantQueues) (st : TickState (E := list X)) : Prop :=
  ∃ items, ts_env st = f <$> items ∧ all_items q ≡ₚ items ++ all_items (queues (ts_sched st)).

Lemma noted_tenant q st tn : noted q st → noted q (tick_tenant check dispatch now st tn).
Proof.
  intros (items & He & Hq). unfold tick_tenant. case_bool_decide; [by exists items|].
  destruct (cap_check tn); cbn [negb]; [|by exists items].
  destruct (front (queues (ts_sched st)) tn) as [item|] eqn:Hf; [|by exists items].
  unfold dispatched_step. destruct (pop_front (queues (ts_sched st)) tn) as [[item'|] q'] eqn:Hp; [|by exists items].
  assert (item' = item) as ->.
  { unfold pop_front, front, queue in *. destruct (queues (ts_sched st) !! tn); [|done]. cbn in *. congruence. }
  exists (items ++ [item]). cbn. rewrite He, fmap_app. split; [done|].
  by rewrite Hq, (pop_items _ _ _ _ Hp), <-app_assoc.
Qed.

Lemma noted_pass q order st : noted q st → noted q (tick_pass check dispatch now order st).
Proof.
  revert st. induction order as [|tn order IH]; intros st Hst; cbn [tick_pass]; [done|].
  destruct (ts_remaining st); [done|]. by apply IH, noted_tenant.
Qed.

Lemma noted_loop q fuel st : noted q st → noted q (tick_loop check dispatch now fuel st).
Proof.
  revert st. induction fuel as [|fuel IH]; intros st Hst; cbn [tick_loop]; [done|].
  destruct (ts_remaining st); [done|]. destruct (rotation_order _ _); [done|].
  match goal with |- context [tick_pass _ _ _ ?order ?st0] =>
    assert (noted q (tick_pass check dispatch now order st0)) as Hp by (by apply noted_pass) end.
  destruct (ts_progressed _); [by apply IH|done].
Qed.

Lemma tick_notes s s' xs report :
  tick check dispatch now s [] = (s', xs, report) →
  ∃ items, xs = f <$> items ∧ all_items (queues s) ≡ₚ items ++ all_items (queues s').
Proof.
  pose proof (noted_loop (queues s) (S (global_slots s)) (tick_init s []) ltac:(by exists [])) as Hn.
  unfold tick, tick_fueled. destruct (tick_loop _ _ _ _ _) as [s1 env rep rem pk pr]. by intros [= <- <- <-].
Qed.
End noted.

Import Rules.

(** ** Tokens *)
Lemma tokens_for_cons item items : tokens_for (item :: items) = {[+ Queued (work_id item) +]} ⊎ tokens_for items.
Proof. done. Qed.
Lemma tokens_for_app items items' : tokens_for (items ++ items') = tokens_for items ⊎ tokens_for items'.
Proof. unfold tokens_for. by rewrite fmap_app, list_to_set_disj_app. Qed.
Lemma tokens_for_perm items items' : items ≡ₚ items' → tokens_for items = tokens_for items'.
Proof. intros Hp. apply list_to_set_disj_perm. by rewrite Hp. Qed.
Lemma queue_tokens_all q : queue_tokens (Some q) = tokens_for (all_items (queues (aq_scheduler q))).
Proof. done. Qed.
Lemma tokens_for_droppable items : droppable (tokens_for items).
Proof.
  induction items as [|item items IH]; [apply leak_empty|]. rewrite tokens_for_cons.
  apply leak_union; [apply droppable_queued|done].
Qed.

Definition adms (ids : list string) : Res := list_to_set_disj (Adm <$> ids).
Lemma adms_cons id ids : adms (id :: ids) = {[+ Adm id +]} ⊎ adms ids.
Proof. done. Qed.
Lemma adms_one id : adms [id] = {[+ Adm id +]}.
Proof. rewrite adms_cons. apply (right_id_L ∅ (⊎)). Qed.
Lemma adms_app ids ids' : adms (ids ++ ids') = adms ids ⊎ adms ids'.
Proof. unfold adms. by rewrite fmap_app, list_to_set_disj_app. Qed.
Lemma adms_droppable ids : droppable (adms ids).
Proof.
  induction ids as [|id ids IH]; [apply leak_empty|]. rewrite adms_cons.
  apply leak_union; [apply droppable_adm|done].
Qed.
#[export] Hint Resolve tokens_for_droppable adms_droppable : stable.

Section proofs.
Context {P O : Type} {prov : BoxProvisioner P} {ext : External O}.
Context {json : SerdeJson} {codec : BindingCodec} {unicode : Unicode} {ejson : EnvelopeJson} {crypto : Crypto}.
Context {blaws : BoxLaws P} {xlaws : ExternalLaws O}.
Context (cfg : Config).
Abbreviation W := (AppState P O).
Implicit Types (w : W) (R : Res).

(** ** Accesses to the queue *)
Lemma quiet_queue {A} (none : A) (f : AdmissionQueue → AdmissionQueue * A) :
  (∀ q, queues (aq_scheduler (f q).1) = queues (aq_scheduler q) ∧ aq_waiters (f q).1 = aq_waiters q) →
  quiet (λ _, True) (on_queue (P := P) none f).
Proof.
  intros Hf. apply quiet_core. intros w R _. split; [|done]. unfold calls_queue.
  destruct (admission_queue w) as [q|] eqn:E; [|by constructor].
  specialize (Hf q). destruct (f q) as [q' a]. destruct Hf as [Hq Hw]. cbn in Hq, Hw.
  constructor; cbn; try done; rewrite E.
  - unfold queue_tokens, queued_items. by rewrite Hq.
  - intros id. unfold waiter_of. cbn. by rewrite Hw.
Qed.

(** The durable queue has no part in who may admit. *)
Lemma quiet_durable {A} (m : gset string → (string → Z) → QueueM A) :
  quiet (λ _, True) (durable_op (P := P) m).
Proof.
  apply quiet_core. intros w R _. split; [|done]. unfold calls_durable.
  destruct (admission_queue w ≫= aq_durable) as [db0|]; [|by constructor].
  unfold asks at 1. pose proof (keep_queue_up (outside w)) as Hup. destruct (ext_queue_up (outside w)) as [o up].
  unfold asks at 1. cbn [outside set_outside].
  pose proof (keep_queue_scan o) as Hscan. destruct (ext_queue_scan o) as [o' scan]. cbn [fst snd admission_queue set_outside] in *.
  assert (∀ j, issued o' j ↔ issued (outside w) j) as Ho by (intros j; by rewrite Hscan, Hup).
  destruct (admission_queue w) as [q|] eqn:Eq; cbn [mbind option_bind]; [|by constructor; cbn; rewrite ?Eq].
  destruct (aq_durable q) as [db|]; [|by constructor; cbn; rewrite ?Eq].
  destruct up; [|by constructor; cbn; rewrite ?Eq]. destruct (m scan.1 scan.2 db) as [db' r].
  constructor; cbn; rewrite ?Eq; done.
Qed.

(** The tokens stay, and the waiters of the other leases. *)
Lemma queue_step w q0 q R R' :
  admission_queue w = Some q0 →
  tokens_of (set_queue (Some q) w) R' = tokens_of w R → aq_waiters q = aq_waiters q0 →
  (∀ t, debt R' t = debt R t) → inv w R →
  inv (set_queue (Some q) w) R' ∧ rely w R (set_queue (Some q) w) R'.
Proof.
  intros Eq Htok Hw Hd Hi. apply at_no_lease; [done| |apply Hi| |apply Hi].
  - intros j. unfold view_of. rewrite Htok. constructor; cbn; try done. unfold waiter_of. by rewrite Eq; cbn; rewrite Hw.
  - intros t. rewrite Hd. apply (inv_slots _ _ Hi t).
Qed.

Lemma set_queue_id w : set_queue (admission_queue w) w = w.
Proof. by destruct w. Qed.

(** The waiter of one lease, and the right to it. *)
Lemma room_at w q R R' id :
  inv w R → queue_tokens q = queue_tokens (admission_queue w) →
  (∀ j, j ≠ id → waiter_of q j = waiter_of (admission_queue w) j) →
  (∀ j, j ≠ id → same_rights j R R') →
  keeps_lease id (view_of w R id) (view_of (set_queue q w) R' id) → (∀ t, debt R' t = debt R t) →
  inv (set_queue q w) R' ∧ rely w R (set_queue q w) R'.
Proof.
  intros Hi Hq Hw Ht Hk Hd. apply (at_lease id); [done| |done|apply Hi| |done].
  - intros j Hj. destruct (Ht j Hj) as (Hm & Hu & Ha). constructor; views; rewrite ?Hq, ?Hw by done; tokens; done.
  - intros t. rewrite Hd. apply (inv_slots _ _ Hi t).
Qed.

(** A request goes to the waiting room. *)
Lemma spec_park id a :
  waiter_ok id a →
  triple (λ _ _, True) {[+ Mint id +]} (change_queue (P := P) (O := O)
    (λ q, add_waiter id a (with_channels <[id := Waiting]> q))) (λ _, {[+ Queued id +]}) (λ _ _ _, True).
Proof.
  intros Ha. apply triple_atom; [stably|]. intros w f w' [] E Hi _. rewrite (assoc (∧)). split; [|done].
  assert (∃ q, w' = set_queue q w ∧ queue_tokens q = queue_tokens (admission_queue w) ∧
    (∀ j, j ≠ id → waiter_of q j = waiter_of (admission_queue w) j) ∧ ∀ b, waiter_of q id = Some b → b = a)
    as (q & -> & Hq & Hw & Hid).
  { unfold calls_queue in E. destruct (admission_queue w) as [q|] eqn:Eq; injection E as <-.
    - eexists. split; [done|]. split_and!; [done|intros j Hj; by apply lookup_insert_ne|].
      intros b. cbn. rewrite lookup_insert_eq. congruence.
    - exists None. split; [by rewrite <-Eq, set_queue_id|done]. }
  apply (room_at _ _ _ _ id); [done|done|done|intros j Hj; rights| |intros t; tokens].
  destruct (ok_rights _ _ (inv_lease _ _ Hi id)) as (Hone & _); [views; tokens|].
  assert (view_of (set_queue q w) ({[+ Queued id +]} ⊎ f) id =
    in_room 0 (waiter_of q id) (view_of w ({[+ Mint id +]} ⊎ f) id)) as ->.
  { views. rewrite Hq. f_equal; tokens. }
  apply parked_lease; [apply Hi|views; tokens|views; tokens|]. intros b ->%Hid. done.
Qed.

(** The room is left. *)
Lemma remove_step w R id :
  inv w R → let w' := (calls_queue None (remove_waiter id) w).1 in inv w' R ∧ rely w R w' R.
Proof.
  intros Hi. unfold calls_queue. destruct (admission_queue w) as [q|] eqn:Eq; cbn.
  - apply (room_at _ _ _ _ id); [done|by rewrite Eq| |done| |done].
    + intros j Hj. rewrite Eq. cbn. by apply lookup_delete_ne.
    + assert (view_of (set_queue (Some (with_waiters (delete id) q)) w) R id =
        in_room (v_unqueued (view_of w R id)) None (view_of w R id)) as ->.
      { views. rewrite Eq. f_equal. cbn. by rewrite lookup_delete_eq. }
      apply unparked_lease, Hi.
  - apply core_keeps; [by constructor|done].
Qed.

Lemma quiet_remove id : quiet (λ _, True) (on_queue (P := P) None (remove_waiter id)).
Proof.
  apply quiet_atom. intros w R w' a E Hi. pose proof (remove_step w R id Hi) as Hs.
  rewrite E in Hs. cbn in Hs. tauto.
Qed.
Lemma quiet_evict id : quiet (λ _, True) (evict_waiter (P := P) (O := O) id).
Proof.
  unfold evict_waiter. apply (quiet_bind (λ _, True)); [|intros _ _; apply (quiet_bind (λ _, True));
    [apply quiet_durable|by intros; apply quiet_ret]].
  apply quiet_atom. intros w R w' [] E Hi. pose proof (remove_step w R id Hi) as Hs.
  unfold calls_queue in *. destruct (admission_queue w); injection E as <-; cbn in Hs; tauto.
Qed.

(** The tick takes the request of a lease it has admitted. *)
Lemma spec_take_waiter id :
  triple (λ _ _, True) {[+ Adm id +]} (on_queue None (remove_waiter id)) (λ _, {[+ Adm id +]})
    (λ o w R, ∀ a, o = Some a → spec_name (q_spec a) = container_name id ∧ of_tenant id (q_tenant a) w R).
Proof.
  apply triple_atom; [stably|]. intros w f w' o E Hi _. pose proof (remove_step w _ id Hi) as Hs.
  rewrite E in Hs. destruct Hs as [Hi' Hr]. split_and!; [done|done|]. intros a ->.
  assert (waiter_of (admission_queue w) id = Some a) as Ha.
  { unfold calls_queue in E. destruct (admission_queue w) as [q|]; [|done]. by injection E. }
  destruct (ok_waiter _ _ (inv_lease _ _ Hi id) a Ha) as (Hiss & Hok & Ht). split; [apply Hok|].
  eapply stable_of_tenant; [done|done|]. split_and!; [done| |done].
  destruct (ok_rights _ _ (inv_lease _ _ Hi id)) as (Hone & _); views; tokens.
Qed.

(** An item goes to the scheduler. *)
Lemma spec_enqueue item :
  triple (λ _ _, True) {[+ Queued (work_id item) +]} (on_queue (P := P) (O := O) false (enqueue_item item))
    (λ ok, if (ok : bool) then ∅ else {[+ Queued (work_id item) +]}) (λ _ _ _, True).
Proof.
  apply triple_atom; [stably|]. intros w f w' ok E Hi _. rewrite (assoc (∧)). split; [|done].
  unfold calls_queue in E. destruct (admission_queue w) as [q|] eqn:Eq.
  - unfold enqueue_item in E. pose proof (enqueue_items (aq_scheduler q) item) as Hp.
    destruct (enqueue (aq_scheduler q) item) as [s r]. injection E as <- <-.
    apply (queue_step w q); [done| |done|intros t; destruct (is_ok r); tokens|done].
    unfold tokens_of. rewrite Eq. change (admission_queue (set_queue ?q w)) with q.
    rewrite !queue_tokens_all. change (aq_scheduler (with_scheduler (λ _, s) q)) with s.
    rewrite (tokens_for_perm _ _ Hp), tokens_for_app.
    apply gmultiset_eq. intros x. destruct (is_ok r); rewrite ?tokens_for_cons; change (tokens_for []) with (∅ : Res);
      rewrite !multiplicity_disj_union, ?multiplicity_empty; lia.
  - injection E as <- <-. by apply core_keeps; [constructor|].
Qed.

(** What is known of a turn. *)
Definition turn_ok (c : Candidate) w R : Prop :=
  ∀ rec ttl, cand_pending c = Some (rec, ttl) →
    lease_id rec = work_id (cand_item c) ∧ state rec = Pending ∧
    box_ref rec = "box:" +:+ work_id (cand_item c) ∧ parked (work_id (cand_item c)) (tenant rec) w R.

Lemma stable_turn_ok c : stable (turn_ok c).
Proof. unfold turn_ok. eauto 15 with stable. Qed.

Lemma waiter_turn_ok w R q item :
  inv w R → admission_queue w = Some q → turn_ok (candidate (aq_waiters q) item) w R.
Proof.
  intros Hi Eq rec ttl. cbn. destruct (aq_waiters q !! work_id item) as [a|] eqn:Ha; [|done].
  intros [= <- <-]. assert (v_waiter (view_of w R (work_id item)) = Some a) as Hw.
  { cbn. unfold waiter_of. by rewrite Eq. }
  destruct (inv_lease _ _ Hi (work_id item)) as [_ _ _ _ _ _ _ Hunq Hwait].
  destruct (Hwait a Hw) as (Hiss & [Hid Hst Hb Ht Hsp] & _). split_and!; [done..|].
  split_and!; [done| |intros b; congruence].
  destruct (v_unqueued (view_of w R (work_id item))); [done|]. rewrite Hunq in Hw by lia. done.
Qed.

Lemma candidate_items ws (items : list WorkItem) : cand_item <$> (candidate ws <$> items) = items.
Proof. induction items as [|item items IH]; [done|]. rewrite !fmap_cons. by f_equal. Qed.

(** The tick takes its turns: the rights come with them. *)
Lemma spec_take_turns now :
  triple (λ _ _, True) ∅ (atomic (take_turns now)) (λ a, tokens_for (cand_item <$> a.1))
    (λ a w R, ∀ c, c ∈ a.1 → turn_ok c w R).
Proof.
  apply triple_atom; [intros a; apply stable_all; intros c; apply stable_imp, stable_turn_ok|].
  intros w f w' [cands report] E Hi _. unfold take_turns in E. destruct (admission_queue w) as [q|] eqn:Eq.
  - destruct (tick _ _ now (aq_scheduler q) []) as [[s cands'] report'] eqn:Et.
    apply (tick_notes (candidate (aq_waiters q)) (can_start w)) in Et as (items & -> & Hp).
    injection E as <- <- <-. cbn [fst]. rewrite candidate_items.
    assert (inv (set_queue (Some (with_scheduler (λ _, s) q)) w) (tokens_for items ⊎ f) ∧
      rely w (∅ ⊎ f) (set_queue (Some (with_scheduler (λ _, s) q)) w) (tokens_for items ⊎ f)) as [Hi' Hr].
    { apply (queue_step w q); [done| |done| |done].
      - unfold tokens_of. rewrite Eq. change (admission_queue (set_queue ?q w)) with q.
        rewrite !queue_tokens_all, (tokens_for_perm _ _ Hp), tokens_for_app.
        apply gmultiset_eq. intros x. rewrite !multiplicity_disj_union, multiplicity_empty. cbn [aq_scheduler with_scheduler]. lia.
      - intros t. destruct (tokens_for_droppable items t). tokens. }
    split_and!; [done|done|]. intros c (item & -> & _)%list_elem_of_fmap.
    eapply stable_turn_ok; [done|done|]. by apply waiter_turn_ok.
  - injection E as <- <- <-. destruct (core_keeps w w (∅ ⊎ f) ltac:(by constructor) Hi) as [? ?].
    split_and!; [done|done|]. intros c Hc. by apply elem_of_nil in Hc.
Qed.

(** A lease read by who knows its tenant. *)
Lemma spec_get_of id t :
  triple (of_tenant id t) ∅ (ledger_read (λ s, Mem.get s id)) (λ _, ∅)
    (λ a w R, ∀ rec, a = Ok (Some rec) → told id rec w R ∧ tenant rec = t).
Proof.
  apply triple_ledger; [stably|eauto using stable_told with stable|done|done|].
  intros w f s a [= <- <-] Hi (_ & _ & Ht). destruct (ledger_unchanged w _ (ledger w) eq_refl Hi) as [Hi' Hr].
  split; [done|]. intros rec [= Hrec]. split; [|by apply Ht]. eapply stable_told; [done|done|]. by apply record_told.
Qed.

(** ** The request in queue mode *)
Ltac queue_access := solve [apply quiet_queue; intros q; cbn; repeat case_match; done].
Hint Extern 1 (Task.quiet _ _ _ (on_queue _ _)) => queue_access : quiet.
Hint Extern 1 (Task.quiet _ _ _ (change_queue _)) => queue_access : quiet.
Hint Resolve quiet_remove quiet_evict : quiet.

Lemma quiet_semaphore t : quiet (λ _, True) (on_queue (P := P) (O := O) 0%nat (get_semaphore t)).
Proof. apply quiet_queue. intros q. unfold get_semaphore. by destruct (aq_permits q !! t). Qed.
Lemma quiet_take_permit i : quiet (λ _, True) (on_queue (P := P) (O := O) false (take_permit i)).
Proof. apply quiet_queue. intros q. unfold take_permit. by destruct (aq_semaphores q !! i) as [[]|]. Qed.
Lemma quiet_answer id r : quiet (λ _, True) (on_queue (P := P) (O := O) false (send_answer id r)).
Proof. apply quiet_queue. intros q. unfold send_answer. by destruct (aq_channels q !! id) as [[]|]. Qed.
Lemma quiet_prune t : quiet (λ _, True) (maybe_prune_park_semaphore (P := P) (O := O) t).
Proof.
  unfold maybe_prune_park_semaphore. apply (quiet_bind (λ _, True)); [by apply quiet_queue|intros n _].
  destruct (Nat.ltb 0 n); [by apply quiet_ret|]. apply quiet_queue. intros q. cbn. unfold drop_idle_semaphore.
  destruct (_ ≫= _) as [free|]; [|done]. by destruct (Nat.leb _ _).
Qed.
Hint Resolve quiet_semaphore quiet_take_permit quiet_answer quiet_prune quiet_durable : quiet.

Lemma acquire_queued_ok t pat req m now :
  spec_name (minted_spec m) = container_name (minted_id m) →
  triple (λ _ _, True) {[+ Mint (minted_id m) +]} (acquire_queued cfg t pat req m now) (λ _, ∅) (λ _ _ _, True).
Proof.
  intros Hn. unfold acquire_queued, has_queue. set (id := minted_id m) in *. quietly. destruct (negb a).
  { apply triple_forget; [stably|]. apply triple_last; [stably|quiet_task]. }
  quietly. quietly. destruct (negb a1).
  { apply triple_forget; [stably|]. apply triple_last; [stably|quiet_task]. }
  eapply triple_seq; [stably|by apply (spec_park id)|done|]. intros []; cbn beta.
  eapply triple_seq; [stably|apply (spec_enqueue (mkWork id t now))|done|]. intros [].
  - cbn [negb]. apply triple_last; [stably|].
    apply (quiet_bind (λ _, True)); [quiet_task|intros [[row|e]|] _]; quiet_task.
  - cbn [negb work_id]. apply triple_forget; [stably|]. apply triple_last; [stably|]. quiet_task.
Qed.

(** ** The tick *)

(** Nobody took the lease: it is undone, by who may still own the admission. *)
Definition owned (ph : PendingRollbackPhase) (id : string) : Res :=
  match ph with BeforeProvision => {[+ Adm id +]} | AfterProvision => ∅ end.
Lemma owned_droppable ph id : droppable (owned ph id).
Proof. destruct ph; [apply droppable_adm|apply leak_empty]. Qed.

Lemma spec_rollback ph id :
  triple (λ _ _, True) (owned ph id) (rollback_pending_admission id ph) (λ _, ∅) (λ _ _ _, True).
Proof. destruct ph; [apply spec_rollback_before|apply spec_rollback_after]. Qed.

Lemma rollback_undispatched_ok t id ph :
  triple (of_tenant id t) (owned ph id) (rollback_undispatched_lease cfg t id ph) (λ _, ∅) (λ _ _ _, True).
Proof.
  unfold rollback_undispatched_lease. eapply triple_call; [stably|apply (spec_get_of id t)|done|].
  pose proof (owned_droppable ph id) as Hown.
  intros [[rec|]|e]; cbn beta iota; [|by apply triple_forget, triple_ret..].
  destruct (state rec) as [|[]] eqn:Hst; [| |by apply triple_forget, triple_ret..].
  - eapply triple_seq; [|apply spec_rollback|done|]; [eauto 10 using stable_told with stable|]. intros b. cbn beta.
    apply triple_last; [eauto 10 using stable_told with stable|quiet_task].
  - apply triple_forget; [done|]. eapply (triple_weaken (settled id t)).
    { intros w R [_ H]. destruct (H rec eq_refl). eapply told_settled; [done|done|congruence]. }
    eapply triple_call; [stably|apply (spec_teardown_lease id)|by intros w R [? _]|]. intros torn. cbn beta.
    quietly. destruct torn; cbn [negb]; [|by apply triple_ret]. quietly.
    eapply triple_seq; [stably|by apply (spec_terminal id t Crashed)|intros w R [Hs0 Hd0]; auto|].
    intros [rec'|e]; cbn [is_ok]; [|by apply triple_ret].
    eapply triple_call; [stably|apply (spec_forget_lease id)|intros w R [[_ H] _]; by apply H|]. intros [].
    eapply triple_weaken; [|apply (spec_slot id t SlotCrashed)]. done.
Qed.

(** The loop over the candidates turns rights to admit into rights to provision,
    and refuses for other reasons than capacity. *)
Definition refusal_ok (r : Refusal) : Prop := r.1.2 ≠ provision_capacity_503.
Definition round_ok (o : option (list string * list Refusal)) : Prop :=
  match o with Some (_, rs) => Forall refusal_ok rs | None => True end.
Definition round_tokens (o : option (list string * list Refusal)) : Res :=
  match o with Some (fin, _) => adms fin | None => ∅ end.
Definition turns_ok (cands : list Candidate) w R : Prop := ∀ c, c ∈ cands → turn_ok c w R.

Lemma stable_turns (cands : list Candidate) : stable (turns_ok cands).
Proof. apply stable_all. intros c. apply stable_imp, stable_turn_ok. Qed.

(** One candidate that does not become a lease now. *)
Lemma admit_skip now c cands t fin rs :
  droppable t →
  triple (turns_ok cands) (tokens_for (cand_item <$> cands) ⊎ adms fin)
    (admit_candidates cfg now cands fin rs) round_tokens (λ o _ _, round_ok o) →
  triple (turns_ok (c :: cands)) (t ⊎ tokens_for (cand_item <$> cands) ⊎ adms fin)
    (admit_candidates cfg now cands fin rs) round_tokens (λ o _ _, round_ok o).
Proof.
  intros Ht Hgo. rewrite <-(assoc_L (⊎)), (comm_L (⊎) t). apply triple_drop; [done|].
  eapply triple_weaken; [|exact Hgo]. intros w R H c' Hc'. apply H. set_solver.
Qed.

Lemma admit_candidates_ok now cands fin rs :
  Forall refusal_ok rs →
  triple (turns_ok cands) (tokens_for (cand_item <$> cands) ⊎ adms fin)
    (admit_candidates cfg now cands fin rs) round_tokens (λ o _ _, round_ok o).
Proof.
  revert fin rs. induction cands as [|c cands IH]; intros fin rs Hrs; cbn [admit_candidates].
  { apply triple_ret; [|done]. change (tokens_for (cand_item <$> [])) with (∅ : Res). by rewrite (left_id_L ∅ (⊎)). }
  rewrite fmap_cons, tokens_for_cons. set (id := work_id (cand_item c)).
  assert (∀ counter e, counter ≠ provision_capacity_503 →
    Forall refusal_ok (rs ++ [(id, counter, RError e)])) as Hrs'.
  { intros counter e Hne. apply Forall_app. split; [done|]. by constructor. }
  destruct (cand_pending c) as [[rec ttl]|] eqn:Hc; [|apply admit_skip; [apply droppable_queued|auto]].
  apply (triple_pure (lease_id rec = id ∧ state rec = Pending ∧ box_ref rec = "box:" +:+ id)).
  { intros w R H. destruct (H c ltac:(set_solver) rec ttl Hc) as (? & ? & ? & _). done. }
  intros (Hid & Hp & Hb).
  apply (triple_quiet_bind _ _ (λ _, True)); [apply stable_turns|quiet_task|intros plan _].
  apply (triple_quiet_bind _ _ (λ _, True)); [apply stable_turns|quiet_task|].
  intros [[gate|e]|] _; [|apply admit_skip; [apply droppable_queued|auto]|].
  2: { apply triple_forget; [|by apply triple_ret]. apply leak_union; [apply leak_union|]; stably. }
  rewrite <-(assoc_L (⊎)).
  eapply triple_bind; [apply stable_turns|by apply (spec_admit true id (tenant rec))| |].
  { intros w R H. by destruct (H c ltac:(set_solver) rec ttl Hc) as (_ & _ & _ & ?). }
  intros [[]|e]; cbn [admitted_ok right_to_admit];
    (eapply (triple_weaken (turns_ok (c :: cands))); [by intros w R [? _]|]); rewrite ?(assoc_L (⊎));
    [|rewrite <-(assoc_L (⊎))|apply admit_skip; [apply droppable_queued|auto]..].
  - rewrite (comm_L (⊎) {[+ Adm id +]}), <-(assoc_L (⊎)), (comm_L (⊎) {[+ Adm id +]}), <-adms_one, <-adms_app.
    apply (triple_quiet_bind _ _ (λ _, True)); [apply stable_turns|quiet_task|intros _ _].
    eapply triple_weaken; [|by apply IH]. intros w R H c' Hc'. apply H. set_solver.
  - apply (triple_quiet_bind _ _ (λ _, True)); [apply stable_turns|quiet_task|intros _ _].
    eapply triple_bind; [apply stable_turns|apply spec_enqueue|done|]. intros ok; cbn beta.
    eapply (triple_weaken (turns_ok (c :: cands))); [by intros w R [? _]|].
    rewrite (assoc_L (⊎)). apply admit_skip; [|auto]. destruct ok; [apply leak_empty|apply droppable_queued].
Qed.

(** The turns that are claimed are turns of the tick, each at most once. *)
Lemma map_values_insert (m : gmap string Candidate) k c :
  map_values (<[k := c]> m) ≡ₚ c :: map_values (delete k m).
Proof.
  unfold map_values. rewrite <-insert_delete_eq, map_to_list_insert by apply lookup_delete_eq. done.
Qed.
Lemma map_values_delete (m : gmap string Candidate) k c :
  m !! k = Some c → map_values m ≡ₚ c :: map_values (delete k m).
Proof. intros Hm. rewrite <-(insert_id m k c Hm) at 1. apply map_values_insert. Qed.

Lemma by_id_values (cands : list Candidate) : ∃ rest, cands ≡ₚ map_values (by_id cands) ++ rest.
Proof.
  assert (∀ m, ∃ rest, map_values m ++ cands ≡ₚ
    map_values (foldl (λ m c, <[work_id (cand_item c) := c]> m) m cands) ++ rest) as H.
  { induction cands as [|c cands IH]; intros m; cbn [foldl]; [by exists []|].
    destruct (IH (<[work_id (cand_item c) := c]> m)) as [rest Hr]. rewrite map_values_insert in Hr.
    destruct (m !! work_id (cand_item c)) as [old|] eqn:Hm.
    - exists (old :: rest). etrans; [|apply Permutation_middle]. rewrite <-Hr, (map_values_delete m _ _ Hm). cbn.
      apply perm_skip. symmetry. apply Permutation_middle.
    - exists rest. rewrite delete_id in Hr by done. rewrite <-Hr. cbn. symmetry. apply Permutation_middle. }
  destruct (H ∅) as [rest Hr]. exists rest. exact Hr.
Qed.

Lemma claim_turns_ok n ids (left : gmap string Candidate) fair :
  triple (turns_ok (fair ++ map_values left)) (tokens_for (cand_item <$> fair ++ map_values left))
    (claim_turns n ids left fair) (λ cands, tokens_for (cand_item <$> cands)) (λ cands, turns_ok cands).
Proof.
  revert left fair. induction n as [|n IH]; intros left fair; cbn [claim_turns].
  { rewrite fmap_app, tokens_for_app. apply triple_drop; [stably|]. apply triple_ret; [done|].
    intros w R H c Hc. apply H. set_solver. }
  apply (triple_quiet_bind _ _ (λ _, True)); [apply stable_turns|quiet_task|].
  assert (triple (turns_ok (fair ++ map_values left)) (tokens_for (cand_item <$> fair ++ map_values left))
    (mret fair : Task W _) (λ cands, tokens_for (cand_item <$> cands)) (λ cands, turns_ok cands)) as Hstop.
  { rewrite fmap_app, tokens_for_app. apply triple_drop; [stably|]. apply triple_ret; [done|].
    intros w R H c Hc. apply H. set_solver. }
  intros [[[row|]|e]|] _; try exact Hstop. destruct (left !! lease_request_id row) as [c|] eqn:Hc; [|apply IH].
  assert (fair ++ map_values left ≡ₚ (fair ++ [c]) ++ map_values (delete (lease_request_id row) left)) as Hp.
  { by rewrite (map_values_delete left _ _ Hc), <-app_assoc. }
  rewrite (tokens_for_perm (cand_item <$> _) _ (fmap_Permutation cand_item _ _ Hp)).
  eapply triple_weaken; [|apply IH]. intros w R H c' Hc'. apply H. by rewrite Hp.
Qed.

Lemma fair_turns_ok cands :
  triple (turns_ok cands) (tokens_for (cand_item <$> cands)) (fair_turns cands)
    (λ cands, tokens_for (cand_item <$> cands)) (λ cands, turns_ok cands).
Proof.
  unfold fair_turns, has_durable. apply (triple_quiet_bind _ _ (λ _, True)); [apply stable_turns|quiet_task|].
  intros [] _; [|by apply triple_ret]. destruct (by_id_values cands) as [rest Hp].
  rewrite (tokens_for_perm (cand_item <$> _) _ (fmap_Permutation cand_item _ _ Hp)), fmap_app, tokens_for_app.
  apply triple_drop; [stably|]. eapply triple_weaken; [|apply (claim_turns_ok _ _ (by_id cands) [])].
  intros w R H c Hc. apply H. rewrite Hp. set_solver.
Qed.

Lemma quiet_refuse rs : Forall refusal_ok rs → quiet (λ _, True) (refuse_waiters (P := P) (O := O) rs).
Proof.
  induction 1 as [|[[id counter] resp] rs Hc Hrs IH]; cbn [refuse_waiters]; [by apply quiet_ret|].
  unfold refusal_ok in Hc. cbn in Hc.
  apply (quiet_bind (λ _, True)); [quiet_task|intros waiter _].
  apply (quiet_bind (λ _, True)); [quiet_task|intros _ _].
  apply (quiet_bind (λ _, True)); [destruct waiter; quiet_task|intros _ _]. apply IH.
Qed.

Lemma finalize_one_ok id :
  triple (λ _ _, True) {[+ Adm id +]} (finalize_one cfg id) (λ _, ∅) (λ _ _ _, True).
Proof.
  unfold finalize_one. eapply triple_seq; [stably|apply spec_take_waiter|done|]. intros [a|]; cbn beta iota.
  - apply (triple_pure (spec_name (q_spec a) = container_name id)); [intros w R [_ H]; by destruct (H a eq_refl)|].
    intros Hn. eapply (triple_weaken (of_tenant id (q_tenant a))); [intros w R [_ H]; by destruct (H a eq_refl)|].
    eapply triple_seq; [stably|by apply (spec_finalize cfg (q_tenant a) (q_pat a) (mkMinted id (q_lease a) (q_spec a)))|done|].
    intros [resp|]; cbn beta iota.
    + quietly. destruct a0; [by apply triple_ret|].
      eapply triple_seq; [stably|apply (rollback_undispatched_ok (q_tenant a) id AfterProvision)|by intros w R [? _]|].
      intros []. by apply triple_ret.
    + apply (triple_pure False); [by intros w R [_ ?]|done].
  - eapply triple_call; [stably|apply spec_get|done|]. intros [[rec|]|e]; cbn beta iota.
    2, 3: apply triple_forget; [stably|by apply triple_ret].
    eapply (triple_weaken (of_tenant id (tenant rec))); [intros w R [_ H]; by destruct (H rec eq_refl) as (_ & ? & _)|].
    eapply triple_seq; [stably|apply (rollback_undispatched_ok (tenant rec) id BeforeProvision)|done|].
    intros []. by apply triple_ret.
Qed.

Lemma finalize_all_ok ids dispatched :
  triple (λ _ _, True) (adms ids) (finalize_all cfg ids dispatched) (λ _, ∅) (λ _ _ _, True).
Proof.
  revert dispatched. induction ids as [|id ids IH]; intros dispatched; cbn [finalize_all]; [by apply triple_ret|].
  rewrite adms_cons. eapply triple_bind; [stably|apply finalize_one_ok|done|]. intros sent. cbn beta.
  rewrite (left_id_L ∅ (⊎)). eapply triple_weaken; [|apply IH]. done.
Qed.

Lemma run_admission_tick_ok now :
  triple (λ _ _, True) ∅ (run_admission_tick cfg now) (λ _, ∅) (λ _ _ _, True).
Proof.
  unfold run_admission_tick, has_queue. quietly. destruct (negb a); [by apply triple_ret|]. quietly.
  destruct (negb a0); [by apply triple_ret|].
  eapply triple_seq; [stably|apply spec_take_turns|done|]. intros [cands report]; cbn [fst snd].
  eapply (triple_seq _ (turns_ok cands)); [apply stable_both; [stably|apply stable_turns]|apply fair_turns_ok|by intros w R [_ ?]|].
  intros fair. cbn beta.
  eapply (triple_seq _ (turns_ok fair)); [|rewrite <-(right_id_L ∅ (⊎) (tokens_for _)); by apply (admit_candidates_ok now fair [] [])|by intros w R [_ ?]|].
  { apply stable_both; [apply stable_both; [stably|]|]; apply stable_turns. }
  intros [[fin rs]|]; cbn beta iota; [|by apply triple_ret].
  apply (triple_pure (Forall refusal_ok rs)); [by intros w R [_ ?]|intros Hrs].
  eapply (triple_weaken (λ _ _, True)); [done|].
  apply (triple_quiet_bind _ _ (λ _, True)); [stably|by apply quiet_refuse|intros _ _].
  eapply triple_seq; [stably|apply finalize_all_ok|done|]. intros sent. cbn beta.
  apply (triple_quiet_bind _ _ (λ _, True)); [stably|by apply quiet_core|intros _ _].
  apply (triple_quiet_bind _ _ (λ _, True)); [stably| |by intros; apply triple_ret].
  apply quiet_queue. intros q. cbn. split; [|done]. generalize (aq_scheduler q).
  induction ((filter _ (zip _ _)).*2) as [|tw tws IH]; intros s; cbn; [done|]. by rewrite IH.
Qed.
End proofs.
