(* ===== verification/ServiceTheorems.v ===== *)
(** * The lease service: theorems

    The server as a whole: requests arrive in any order, each handler is a task
    and any schedule of their accesses is a run.  For every run, from the
    invariant of the handlers: slot events and held leases balance, no box runs
    without an active lease, a lease that was given out keeps its tenant and
    never goes back, and the answer for exhausted capacity is never given. *)
From stdpp Require Import gmultiset.
From S2P Require Import Prelude Tenant Ledger LedgerSpec Journal Text Lease Boxes BoxLaws BoxTheorems Caps Billing Scheduler Interference PgQueue Task ComputeMeter Envelope Attest Shard State Service ServiceLogic ServiceSpecs ServiceProofs Admission AdmissionProofs.

Import Rules.

(** ** The server *)
Inductive Request : Type :=
| ReqAcquire (t : TenantId) (pat : string) (headers : ShardHeaders) (req : AcquireRequest)
| ReqStatus (t : TenantId) (id : string)
| ReqCancel (t : TenantId) (id : string)
| ReqClose (t : TenantId) (id : string) (req : CloseRequest)
| ReqIngest (presented : option string) (id body : string)
| ReqEvents (fuel : nat) (t : TenantId) (id : string)
| ReqMeta (fuel : nat) (t : TenantId) (id : string)
| SweepReap
| SweepCrashes
| SweepPending (max_age_ms : Z)
| KillTenant (t : TenantId)
| AdmissionTick (now : Z).

Inductive Reply : Type := Answer (r : Response) | Swept (n : option nat).

Inductive ServerEvent : Type := Arrive (r : Request) | Runs (i : nat).

Section server.
Context {P O : Type} {prov : BoxProvisioner P} {ext : External O}.
Context {json : SerdeJson} {codec : BindingCodec} {unicode : Unicode} {ejson : EnvelopeJson} {crypto : Crypto}.
Context (cfg : Config).
Abbreviation W := (AppState P O).

(** The routes and the periodic sweeps. *)
Definition handler (r : Request) : Task W Reply :=
  match r with
  | ReqAcquire t pat headers req => a ← acquire cfg (acquire_queued cfg) t pat headers req; mret (Answer a)
  | ReqStatus t id => a ← status t id; mret (Answer a)
  | ReqCancel t id => a ← cancel cfg t id; mret (Answer a)
  | ReqClose t id req => a ← close cfg t id req; mret (Answer a)
  | ReqIngest presented id body => a ← ingest cfg presented id body; mret (Answer a)
  | ReqEvents fuel t id => a ← poll_events fuel t id; mret (Answer a)
  | ReqMeta fuel t id => a ← poll_meta fuel t id; mret (Answer a)
  | SweepReap => n ← reap_once cfg; mret (Swept (Some n))
  | SweepCrashes => n ← surface_crashes cfg; mret (Swept (Some n))
  | SweepPending age => n ← sweep_stale_pending cfg age; mret (Swept (Some n))
  | KillTenant t => n ← kill_tenant_leases cfg t; mret (Swept (Some n))
  | AdmissionTick now => n ← run_admission_tick cfg now; mret (Swept n)
  end.

Definition to_event (e : ServerEvent) : event W Reply :=
  match e with Arrive r => Spawn (handler r) | Runs i => Sched i end.
Definition serve (es : list ServerEvent) (w : W) : list (Task W Reply) * W := runtime (to_event <$> es) ([], w).
End server.

Section theorems.
Context {P O : Type} {prov : BoxProvisioner P} {ext : External O}.
Context {json : SerdeJson} {codec : BindingCodec} {unicode : Unicode} {ejson : EnvelopeJson} {crypto : Crypto}.
Context {blaws : BoxLaws P} {xlaws : ExternalLaws O}.
Context (cfg : Config).
Abbreviation W := (AppState P O).
Implicit Types (w : W) (es : list ServerEvent).

(** A server that starts: no lease, no box, nobody waits. *)
Record starts w : Prop := {
  start_records : records (ledger w) = ∅;
  start_exported : exported w = [];
  start_queued : queued_items (admission_queue w) = [];
  start_waiters id : waiter_of (admission_queue w) id = None;
  start_counted : counted w = [];
  start_prov : prov_ok (provisioner w);
  start_boxes id : fresh (provisioner w) id;
}.

Lemma starts_inv w : starts w → inv w ∅.
Proof.
  intros [Hr He Hq Hw Hc Hp Hf]. constructor.
  - intros id. assert (∀ tk, multiplicity tk (tokens_of w ∅) = 0%nat) as Hz.
    { intros tk. unfold tokens_of, queue_tokens. rewrite Hq. change (tokens_for []) with (∅ : Res).
      by rewrite multiplicity_disj_union, multiplicity_empty. }
    constructor; unfold v_rights; cbn; rewrite ?Hz, ?Hr, ?Hw, ?lookup_empty; try done; try lia.
    intros Hl. by destruct (law_fresh _ _ (Hf id)).
  - done.
  - intros t. unfold held_of. by rewrite Hr, He.
  - rewrite Hc. set_solver.
Qed.

Lemma handler_safe r : handler_ok inv rely droppable (handler cfg r).
Proof.
  assert (∀ A (t : Task W A) K' (f : A → Reply), triple (λ _ _, True) ∅ t (λ _, ∅) K' →
    handler_ok inv rely droppable (a ← t; mret (f a))) as Ht.
  { intros A t K' f Ht. apply (triple_handler _ _ _ _ (λ _ _ _, True)).
    eapply (triple_seq (λ _ _, True)); [done|exact Ht|done|].
    intros a. by apply triple_ret. }
  assert (∀ A (t : Task W A) (f : A → Reply), quiet (λ _, True) t →
    handler_ok inv rely droppable (a ← t; mret (f a))) as Hq.
  { intros A t f Hq. eapply Ht, triple_last; done. }
  destruct r; cbn [handler].
  - eapply Ht, acquire_ok. apply acquire_queued_ok.
  - apply Hq, quiet_status.
  - eapply Ht, cancel_ok.
  - eapply Ht, close_ok.
  - apply Hq, quiet_ingest.
  - apply Hq, quiet_polls.
  - apply Hq, quiet_polls.
  - eapply Ht, reap_once_ok.
  - eapply Ht, surface_crashes_ok.
  - eapply Ht, sweep_stale_pending_ok.
  - eapply Ht, kill_tenant_leases_ok.
  - eapply Ht, run_admission_tick_ok.
Qed.

Lemma events_safe es : Forall (handler_ok inv rely droppable) (spawned_by (to_event cfg <$> es)).
Proof.
  induction es as [|[r|i] es IH]; cbn; [constructor| |done]. constructor; [apply handler_safe|done].
Qed.

Lemma serve_inv es w :
  starts w → ∃ R, inv (serve cfg es w).2 R ∧ (quiescent (serve cfg es w).1 → droppable R).
Proof. intros Hs. apply (runtime_invariant inv rely droppable); [apply events_safe|by apply starts_inv]. Qed.

Lemma tokens_elem item items : item ∈ items → (0 < multiplicity (Queued (work_id item)) (tokens_for items))%nat.
Proof.
  induction items as [|i items IH]; [by intros ?%elem_of_nil|]. rewrite tokens_for_cons, multiplicity_disj_union.
  intros [<-|Hin]%elem_of_cons; [rewrite multiplicity_singleton, decide_True by done; lia|]. specialize (IH Hin). lia.
Qed.

Lemma tokens_once items :
  (∀ id, (multiplicity (Queued id) (tokens_for items) ≤ 1)%nat) → NoDup (work_id <$> items).
Proof.
  induction items as [|i items IH]; intros Hm; [constructor|]. rewrite fmap_cons.
  assert (∀ id, (multiplicity (Queued id) {[+ Queued (work_id i) +]} +
    multiplicity (Queued id) (tokens_for items) ≤ 1)%nat) as Hm'.
  { intros id. by rewrite <-multiplicity_disj_union, <-tokens_for_cons. }
  constructor; [|apply IH; intros id; specialize (Hm' id); lia].
  intros (j & Hj & Hin)%list_elem_of_fmap. specialize (Hm' (work_id i)). rewrite multiplicity_singleton, decide_True in Hm' by done.
  apply tokens_elem in Hin. rewrite Hj in Hm'. lia.
Qed.

(** What the invariant says of the books and of the boxes. *)
Lemma inv_balance w R t : inv w R → droppable R → slots_of (exported w) t = held_of (ledger w) t.
Proof.
  intros Hi Hd. destruct (Hd t) as [Hup Hdown]. pose proof (inv_slots _ _ Hi t) as Hb. unfold debt in Hb. lia.
Qed.

Lemma inv_box w R id :
  inv w R → live (provisioner w) id → ∃ rec, records (ledger w) !! id = Some rec ∧ lease_id rec = id ∧ is_active rec.
Proof.
  intros Hi Hl. pose proof (inv_lease _ _ Hi id) as Hok. destruct (ok_live _ _ Hok Hl) as (rec & Hr & Ha).
  exists rec. by destruct (ok_rec _ _ Hok rec Hr).
Qed.

(** ** Every run *)

(** C1: The books balance.  Whatever requests arrive and however their accesses
    interleave, once every handler has finished, the slots a tenant holds
    according to the exported events are the leases it holds according to the
    ledger. *)
Theorem slot_events_balance es w t :
  starts w → quiescent (serve cfg es w).1 →
  slots_of (exported (serve cfg es w).2) t = held_of (ledger (serve cfg es w).2) t.
Proof.
  intros Hs Hq. destruct (serve_inv es w Hs) as (R & Hi & Hd). apply (inv_balance _ R); auto.
Qed.

(** C2: No box runs without a lease that pays for it.  At every moment of every
    run a running box belongs to a lease whose record is pending or held: a
    lease that ended has no box, and no box survives its record. *)
Theorem every_box_has_a_lease es w id :
  starts w → live (provisioner (serve cfg es w).2) id →
  ∃ rec, records (ledger (serve cfg es w).2) !! id = Some rec ∧ lease_id rec = id ∧ is_active rec.
Proof.
  intros Hs Hl. destruct (serve_inv es w Hs) as (R & Hi & _). by apply (inv_box _ R).
Qed.

(** C10: A lease that was given out stays on the books.  If at some moment a
    lease is recorded as no longer pending, then at every later moment it still
    is, for the same tenant, and once its box is gone no box runs for it again. *)
Theorem given_out_lease_stays es es' w id rec :
  starts w → let w1 := (serve cfg es w).2 in let w2 := (serve cfg (es ++ es') w).2 in
  records (ledger w1) !! id = Some rec → state rec ≠ Pending →
  (∃ rec', records (ledger w2) !! id = Some rec' ∧ state rec' ≠ Pending ∧ tenant rec' = tenant rec) ∧
  (¬ live (provisioner w1) id → ¬ live (provisioner w2) id).
Proof.
  intros Hs w1 w2 Hrec Hp. unfold w1, w2, serve. rewrite fmap_app.
  destruct (runtime_history inv rely droppable (to_event cfg <$> es) (to_event cfg <$> es') w)
    as (R & Hi & Hlater); [rewrite <-fmap_app; apply events_safe|by apply starts_inv|].
  pose proof (record_spent id rec _ _ Hi Hrec Hp) as Hsp. split.
  - destruct (Hlater (settled id (tenant rec))) as (R' & _ & _ & rec' & H); [stably| |by exists rec'].
    split; [done|by exists rec].
  - intros Hl. destruct (Hlater (dead id)) as (R' & _ & _ & H); [stably| |done]. by split.
Qed.

(** The answer for exhausted capacity is never given.  In no run does a
    request end with the distinct capacity error: a provider that reports a lack
    of capacity leaves a reservation whose cleanup is never confirmed, so
    [finalize_admitted_lease] always takes the other branch and the request is
    never put back into the queue either. *)
Theorem capacity_degrade_is_dead es w :
  starts w → provision_capacity_503 ∉ counted (serve cfg es w).2.
Proof. intros Hs. destruct (serve_inv es w Hs) as (R & Hi & _). apply Hi. Qed.

(** C12: A lease in the waiting room is admitted at most once.  At every moment of
    every run no id is queued twice, and a queued id has no record and no box
    yet; and what the room holds for an id is the request that minted it. *)
Theorem queued_lease_waits_once es w :
  starts w → let w' := (serve cfg es w).2 in
  NoDup (work_id <$> queued_items (admission_queue w')) ∧
  (∀ item, item ∈ queued_items (admission_queue w') →
     records (ledger w') !! work_id item = None ∧ ¬ live (provisioner w') (work_id item)) ∧
  (∀ id a rec, waiter_of (admission_queue w') id = Some a →
     lease_id (q_pending a) = id ∧ (records (ledger w') !! id = Some rec → tenant rec = q_tenant a)).
Proof.
  intros Hs w'. destruct (serve_inv es w Hs) as (R & Hi & _). fold w' in Hi.
  assert (∀ id, (multiplicity (Queued id) (tokens_for (queued_items (admission_queue w'))) ≤
    v_mints (view_of w' R id))%nat) as Hm by (intros id; unfold view_of, tokens_of; cbn [v_mints]; unfold queue_tokens; rewrite !multiplicity_disj_union; lia).
  split_and!.
  - apply tokens_once. intros id. specialize (Hm id). pose proof (ok_rights _ _ (inv_lease _ _ Hi id)) as Hr.
    unfold v_rights in Hr. destruct (v_mints (view_of w' R id)); [lia|]. destruct Hr as [? _]; lia.
  - intros item Hin%tokens_elem. specialize (Hm (work_id item)).
    destruct (inv_lease _ _ Hi (work_id item)) as [_ Hr _ Hmint _ _ _ _ _]. split; [apply Hmint; lia|].
    unfold v_rights in Hr. destruct Hr as (Hone & _ & _ & Hf); [lia|]. apply law_fresh, Hf. lia.
  - intros id a rec Ha. destruct (ok_waiter _ _ (inv_lease _ _ Hi id) a Ha) as (_ & Hw & Ht).
    split; [apply Hw|]. apply Ht.
Qed.
End theorems.

(** ** One request *)
Section requests.
Context {P O : Type} {prov : BoxProvisioner P} {ext : External O}.
Context {json : SerdeJson} {codec : BindingCodec} {unicode : Unicode} {ejson : EnvelopeJson} {crypto : Crypto}.
Context (cfg : Config).
Abbreviation W := (AppState P O).
Implicit Types (w : W).

(** The state after the ledger was asked whether it can be reached. *)
Definition asked w : W := set_outside (ext_ledger_up (outside w)).1 w.

Lemma run_ledger_read {A B} (g : InMemoryInner → A) (k : result LedgerError A → Task W B) w :
  run_alone (ledger_read g ≫= k) w =
  run_alone (k (if (ext_ledger_up (outside w)).2 then Ok (g (ledger w)) else Err Poisoned)) (asked w).
Proof.
  rewrite run_alone_bind. unfold ledger_read, ledger_op. rewrite run_alone_atomic.
  unfold calls_ledger, asks, asked. destruct (ext_ledger_up (outside w)) as [o []]; done.
Qed.

(** C32: Another tenant's lease looks like no lease at all.  For a tenant that
    does not own the lease, status, cancel and close do nothing and answer
    exactly what they answer when there is no such lease. *)
Theorem foreign_lease_looks_absent t id req w :
  (∀ rec, records (ledger w) !! id = Some rec → tenant rec ≠ t) →
  let seen := (asked w, if (ext_ledger_up (outside w)).2 then not_found else fail_closed) in
  run_alone (status t id) w = seen ∧ run_alone (cancel cfg t id) w = seen ∧
  run_alone (close cfg t id req) w = seen.
Proof.
  intros Hf seen. unfold status, cancel, close, seen. rewrite !run_ledger_read. unfold Mem.get.
  destruct (ext_ledger_up (outside w)).2; [|done].
  destruct (records (ledger w) !! id) as [rec|] eqn:Hr; [|done].
  pose proof (Hf rec eq_refl). rewrite decide_False, !bool_decide_eq_false_2 by done. done.
Qed.

(** A lease ends once.  For a lease that is released, expired or crashed,
    a cancel is a success only for the released one, a close is refused, a
    status tells the state, and none of them changes anything. *)
Theorem ended_lease_answers t id req st rec w :
  records (ledger w) !! id = Some rec → tenant rec = t → state rec = Wire st → st ≠ Held →
  (ext_ledger_up (outside w)).2 = true →
  run_alone (status t id) w = (asked w, RStatus (lease_id rec) st) ∧
  run_alone (cancel cfg t id) w =
    (asked w, if decide (st = Released) then RReleased (lease_id rec) else RError Invalid) ∧
  run_alone (close cfg t id req) w = (asked w, RError Invalid).
Proof.
  intros Hr Ht Hst Hne Hup. unfold status, cancel, close. rewrite !run_ledger_read, Hup. unfold Mem.get. rewrite Hr.
  rewrite decide_True, !bool_decide_eq_true_2 by done. rewrite Hst. by destruct st.
Qed.

Lemma run_hook_op {A} id (f : Hook.Inner → Hook.Inner * A) h w :
  hooks (tables w) !! id = Some h →
  run_alone (hook_op id f) w = (set_tables (with_hook_store <[id := (f h).1]> (tables w)) w, Some (f h).2).
Proof. intros Hh. unfold hook_op. rewrite run_alone_atomic, Hh. by destruct (f h). Qed.

(** Draining a queue of the hook. *)
Lemma run_drain {A} id (next : Hook.Inner → Hook.Inner * option A) (items : Hook.Inner → list A) fuel acc h w :
  (∀ h, (next h).2 = head (items h) ∧ items (next h).1 = tail (items h)) →
  hooks (tables w) !! id = Some h → (length (items h) < fuel)%nat →
  ∃ w' h', run_alone (drain id next fuel acc) w = (w', acc ++ items h) ∧
    hooks (tables w') !! id = Some h' ∧ items h' = [].
Proof.
  intros Hn. revert acc h w. induction fuel as [|fuel IH]; intros acc h w Hh Hf; [lia|]. cbn [drain].
  rewrite run_alone_bind, (run_hook_op _ _ _ _ Hh).
  destruct (Hn h) as [Ha Ht]. destruct (next h) as [h1 o]. cbn [fst snd] in *. subst o.
  set (w1 := set_tables _ w). assert (hooks (tables w1) !! id = Some h1) as Hh1 by apply lookup_insert_eq.
  destruct (items h) as [|a l]; cbn [head tail] in *.
  - exists w1, h1. split; [by rewrite app_nil_r|done].
  - destruct (IH (acc ++ [a]) h1 w1 Hh1) as (w' & h' & Hrun & Hw'); [rewrite Ht; cbn in Hf; lia|].
    exists w', h'. cbn [fst snd]. rewrite Hrun, Ht, <-app_assoc. done.
Qed.

(** A poll hands over everything that is buffered.  For the owner, with the
    credential of the hook, a poll returns all buffered events in order and
    leaves the buffer empty, given fuel beyond the number of events. *)
Theorem poll_drains_everything fuel t id e h w :
  hook_registry (tables w) !! id = Some e → he_tenant e = t →
  hooks (tables w) !! id = Some h → Hook.subscribe (he_credential e) h = Ok () →
  (length (Hook.raw h) < fuel)%nat →
  ∃ w' h', run_alone (poll_events fuel t id) w = (w', REvents (b64_encode <$> Hook.raw h)) ∧
    hooks (tables w') !! id = Some h' ∧ Hook.raw h' = [].
Proof.
  intros He Ht Hh Hs Hf. unfold poll_events, subscribe, hook_entry. rewrite !run_alone_bind. unfold read.
  rewrite run_alone_atomic. cbn [fst snd]. rewrite He, bool_decide_eq_true_2 by done. cbn [negb].
  rewrite run_alone_bind, (run_hook_op _ _ _ _ Hh), Hs. cbn [fst snd].
  set (w1 := set_tables _ w). assert (hooks (tables w1) !! id = Some h) as Hh1 by apply lookup_insert_eq.
  destruct (run_drain id Hook.next_event Hook.raw fuel [] h w1) as (w' & h' & Hrun & Hw'); [done|done|done|].
  exists w', h'. split; [|exact Hw'].
  transitivity (run_alone (drain id Hook.next_event fuel [] ≫= λ evs, mret (REvents (b64_encode <$> evs))) w1); [reflexivity|].
  by rewrite run_alone_bind, Hrun.
Qed.
End requests.
