(* ===== verification/ServiceRuns.v ===== *)
(** * The lease service: runs

    A small world: a spawn Worker that keeps its containers in a map, lease ids
    that count up, a clock that stands still and one tenant with room for one
    lease.  The theorems about every run are applied to runs of this world. *)
From stdpp Require Import gmultiset.
From S2P Require Import Prelude Tenant Ledger LedgerSpec LedgerSafety Journal Text Lease Boxes BoxLaws BoxTheorems Caps Billing Scheduler Interference PgQueue Task ComputeMeter Envelope Attest Shard State Service ServiceLogic ServiceSpecs ServiceProofs Admission AdmissionProofs ServiceTheorems.

(** ** The world *)
Definition counted_id (n : nat) : string := Nat.iter n (String "a") "l".

Lemma counted_id_length n : String.length (counted_id n) = S n.
Proof. induction n as [|n IH]; [done|]. cbn. by f_equal. Qed.
Lemma counted_id_inj n m : counted_id n = counted_id m → n = m.
Proof. intros H. apply (f_equal String.length) in H. rewrite !counted_id_length in H. lia. Qed.
Lemma counted_id_plain n : plain_id (counted_id n).
Proof. induction n as [|n IH]; [done|]. exact IH. Qed.

Definition one_lease : TenantPlan := mkTenantPlan acme 1 60 ["repo:owner/repo"].

(** The outside counts the ids it has given out. *)
#[export] Instance small_world : External nat := {|
  ext_now n := (n, 1000);
  ext_mint_ready n := (n, true);
  ext_ledger_up n := (n, true);
  ext_task_panics n := (n, false);
  ext_suspended _ n := (n, false);
  ext_ac_lookup _ _ n := (n, AcMiss);
  ext_resolve_plan _ _ n := (n, PlanOk (Some one_lease));
  ext_plan_of _ n := (n, Some one_lease);
  ext_ceiling _ n := (n, 0);
  ext_lease_id n := (S n, counted_id n);
  ext_mint_jit _ n := (n, Some "jit");
  ext_mint_pat _ _ _ _ _ _ n := (n, None);
  ext_revoke_pat _ n := (n, true);
  ext_instant n := (n, 0);
  ext_queue_up n := (n, true);
  ext_queue_scan n := (n, (∅, λ _, 0));
|}.

#[export, program] Instance small_world_laws : ExternalLaws nat := {|
  issued n id := ∃ k, (k < n)%nat ∧ id = counted_id k;
|}.
Next Obligation.
  intros n. cbn. split_and!; [|apply counted_id_plain|].
  - intros (k & Hk & He%counted_id_inj). lia.
  - intros j. split.
    + intros (k & Hk & ->). destruct (decide (k = n)) as [->|]; [by right|]. left. exists k. split; [lia|done].
    + intros [(k & Hk & ->)| ->]; [exists k|exists n]; split; (lia || done).
Qed.
Solve Obligations with done.

#[export] Instance small_unicode : Unicode := λ s, s.
#[export] Instance small_json : EnvelopeJson := {|
  metrics_to_json _ := None;
  metrics_of_json _ := None;
  ingest_body_of_json _ := None;
  ingest_line_of_json _ := None;
|}.
#[export] Instance small_crypto : Crypto :=
  Build_Crypto (λ s, s) (λ k, k) (λ k m, m) (λ _, true) (λ _ m s, String.eqb m s) (λ s, s) Some.
#[export] Instance small_serde : SerdeJson := accept_json.
#[export] Instance small_codec : BindingCodec := quoted_codec.
#[export] Instance small_engine : CloudflareApi (gmap string (string * bool)) := toy_cloudflare.

Definition small_config (mode : AdmissionMode) : Config :=
  mkConfig None mode false false false None false None (λ id, id) (λ id, id) "key" false.
Definition pinned : string :=
  "img@sha256:0123456789abcdef0123456789abcdef0123456789abcdef0123456789abcdef".
Definition an_agent : AcquireRequest := mkAcquire pinned "" "/tmp/x" 60000 None None true None None.
Definition no_headers : ShardHeaders := mkHeaders None None.

Definition World : Type := AppState (Bound (gmap string (string * bool))) nat.
Definition small_start : World :=
  mkApp (mkInner ∅ ∅ ∅ ∅ ∅) meter_new [] ∅ no_tables [] (SHARD_UNKNOWN, 1)
    (Some (admission_queue_new 4)) ∅ toy_boxes 0%nat.
#[export] Instance small_codec_laws : BindingCodecLaws small_codec := quoted_codec_laws.

Lemma small_starts : starts small_start.
Proof. constructor; [done..|apply toy_boxes_ok|apply toy_boxes_fresh]. Qed.

(** ** Runs *)
Definition go (i n : nat) : list ServerEvent := replicate n (Runs i).
Definition an_acquire : Request := ReqAcquire acme "pat" no_headers an_agent.
Definition queue_mode : Config := small_config Queue.

(** The second request waits until the first lease is cancelled and a tick has
    given it its turn. *)
Definition wait_run : list ServerEvent :=
  [Arrive an_acquire] ++ go 0 100 ++ [Arrive an_acquire] ++ go 1 15 ++
  [Arrive (ReqCancel acme "l")] ++ go 2 100 ++ [Arrive (AdmissionTick 2000)] ++ go 3 200.
Definition served_run : list ServerEvent := wait_run ++ go 1 100.

Definition result_of (t : Task World Reply) : option Reply := match t with Now r => Some r | Later _ _ => None end.

Lemma slot_events_balance_witness :
  let w := (serve queue_mode served_run small_start).2 in
  slots_of (exported w) acme = held_of (ledger w) acme ∧ held_of (ledger w) acme = 1.
Proof.
  split.
  - apply (slot_events_balance queue_mode served_run small_start acme small_starts).
    vm_compute. repeat constructor.
  - vm_compute. reflexivity.
Defined.

Lemma every_box_has_a_lease_witness :
  let w := (serve queue_mode served_run small_start).2 in
  ∃ rec, records (ledger w) !! "al" = Some rec ∧ lease_id rec = "al" ∧ is_active rec.
Proof.
  apply (every_box_has_a_lease queue_mode served_run small_start "al" small_starts).
  exists "hugit-job-al", ("hugit-job-al", false). split_and!; vm_compute; reflexivity.
Defined.

Definition record_at (w : World) (id : string) : LeaseRecord :=
  default (pending_record acme id 0 0) (records (ledger w) !! id).
Definition first_lease : list ServerEvent := [Arrive an_acquire] ++ go 0 100.
Lemma given_out_lease_stays_witness :
  let w1 := (serve queue_mode first_lease small_start).2 in
  let w2 := (serve queue_mode (first_lease ++ [Arrive (ReqCancel acme "l")] ++ go 1 100) small_start).2 in
  (∃ rec', records (ledger w2) !! "l" = Some rec' ∧ state rec' ≠ Pending ∧ tenant rec' = tenant (record_at w1 "l")) ∧
  (¬ live (provisioner w1) "l" → ¬ live (provisioner w2) "l").
Proof.
  refine (given_out_lease_stays queue_mode first_lease ([Arrive (ReqCancel acme "l")] ++ go 1 100) small_start "l"
    (record_at (serve queue_mode first_lease small_start).2 "l") small_starts _ _); [vm_compute; reflexivity|vm_compute; discriminate].
Defined.

(** The engine has room for one box; the second tenant is admitted and refused
    a box, and its reservation stays. *)
Definition globex : TenantId := mkTenantId "globex".
Definition full_run : list ServerEvent :=
  first_lease ++ [Arrive (ReqAcquire globex "pat" no_headers an_agent)] ++ go 1 100.

Lemma capacity_degrade_is_dead_witness :
  provision_capacity_503 ∉ counted (serve queue_mode full_run small_start).2.
Proof. apply (capacity_degrade_is_dead queue_mode full_run small_start small_starts). Defined.

Lemma full_run_answer :
  let '(ts, w) := serve queue_mode full_run small_start in
  (result_of <$> ts) !! 1%nat = Some (Some (Answer fail_closed)) ∧
  (state <$> records (ledger w) !! "al") = Some Pending.
Proof. vm_compute. done. Qed.

Lemma queued_lease_waits_once_witness :
  let w := (serve queue_mode (first_lease ++ [Arrive an_acquire] ++ go 1 15) small_start).2 in
  work_id <$> queued_items (admission_queue w) = ["al"] ∧ records (ledger w) !! "al" = None.
Proof.
  intros w. split; [vm_compute; reflexivity|].
  destruct (queued_lease_waits_once queue_mode (first_lease ++ [Arrive an_acquire] ++ go 1 15) small_start small_starts)
    as (_ & Hq & _).
  apply (Hq (mkWork "al" acme 1000)). vm_compute. left.
Defined.

Definition served : World := (serve queue_mode served_run small_start).2.

Lemma foreign_lease_looks_absent_witness :
  run_alone (cancel queue_mode globex "al") served = (asked served, not_found).
Proof.
  refine (proj1 (proj2 (foreign_lease_looks_absent queue_mode globex "al" (mkClose "failed" None None) served _))).
  intros rec. vm_compute. by intros [= <-].
Defined.

Lemma ended_lease_answers_witness :
  run_alone (cancel queue_mode acme "l") served = (asked served, RReleased (lease_id (record_at served "l"))) ∧
  run_alone (close queue_mode acme "l" (mkClose "failed" None None)) served = (asked served, RError Invalid).
Proof.
  refine (proj2 (ended_lease_answers queue_mode acme "l" (mkClose "failed" None None) Released
    (record_at served "l") served _ _ _ _ _));
    [vm_compute; reflexivity|reflexivity|reflexivity|discriminate|reflexivity].
Defined.

(** A hook with two buffered events. *)
Definition polled : World :=
  let w := (serve queue_mode first_lease small_start).2 in
  set_tables (with_hook_store (alter (Hook.with_queues ["one"; "two"] []) "l") (tables w)) w.

Lemma poll_drains_everything_witness :
  ∃ w' h', run_alone (poll_events 3 acme "l") polled = (w', REvents ["one"; "two"]) ∧
    hooks (tables w') !! "l" = Some h' ∧ Hook.raw h' = [].
Proof.
  refine (poll_drains_everything 3 acme "l" (mkHookEntry acme "pat" ZERO_PRICE)
    (Hook.with_queues ["one"; "two"] [] (Hook.open 256 "pat" (Collector.new 0) 0)) polled _ _ _ _ _);
    vm_compute; try reflexivity.
Defined.

(** ** The park cap *)

Definition narrow_start : World := set_queue (Some (with_park_cap 1 (admission_queue_new 4))) small_start.
Definition park_race : list ServerEvent :=
  first_lease ++ [Arrive an_acquire] ++ go 1 15 ++ [Arrive an_acquire] ++ go 2 12 ++
  [Arrive (ReqCancel acme "l")] ++ go 3 100 ++ [Arrive (AdmissionTick 2000)] ++ go 4 200 ++ go 1 100 ++
  go 2 3 ++ [Arrive an_acquire] ++ go 5 15.

(** The park cap can be exceeded.  A request that has fetched its tenant's
    semaphore but not yet taken a permit is overtaken by the pruning of that
    semaphore; it then parks on the old one while the next request parks on a new
    one: in this run two requests of one tenant wait in a room whose park cap
    is one. *)
Theorem park_cap_can_be_exceeded :
  ∃ q, admission_queue (serve queue_mode park_race narrow_start).2 = Some q ∧ aq_park_cap q = 1%nat ∧
    q_tenant <$> map_values (aq_waiters q) = [acme; acme] ∧ aq_semaphores q = [0%nat; 0%nat].
Proof. eexists. vm_compute. done. Qed.

(** ** A skipped turn *)

(** A world with a shared admission queue; the second time this instance looks at
    its rows another transaction holds the row of the lease [al] locked. *)
Definition busy (o : nat * nat) : gset string := if decide (o.2 = 1%nat) then {["al"]} else ∅.
#[export] Instance busy_world : External (nat * nat) := {|
  ext_now o := (o, 1000);
  ext_mint_ready o := (o, true);
  ext_ledger_up o := (o, true);
  ext_task_panics o := (o, false);
  ext_suspended _ o := (o, false);
  ext_ac_lookup _ _ o := (o, AcMiss);
  ext_resolve_plan _ _ o := (o, PlanOk (Some one_lease));
  ext_plan_of _ o := (o, Some one_lease);
  ext_ceiling _ o := (o, 0);
  ext_lease_id o := ((S o.1, o.2), counted_id o.1);
  ext_mint_jit _ o := (o, None);
  ext_mint_pat _ _ _ _ _ _ o := (o, None);
  ext_revoke_pat _ o := (o, true);
  ext_instant o := (o, 0);
  ext_queue_up o := (o, true);
  ext_queue_scan o := ((o.1, S o.2), (busy o, λ _, 0));
|}.

Definition shared_start : AppState (Bound (gmap string (string * bool))) (nat * nat) :=
  mkApp (mkInner ∅ ∅ ∅ ∅ ∅) meter_new [] ∅ no_tables [] (SHARD_UNKNOWN, 1)
    (Some (with_durable_queue admission_tables_empty (admission_queue_new 4))) ∅ toy_boxes (0, 0)%nat.
Definition skipped_run : list ServerEvent :=
  first_lease ++ [Arrive an_acquire] ++ go 1 16 ++ [Arrive (ReqCancel acme "l")] ++ go 2 100 ++
  [Arrive (AdmissionTick 2000)] ++ go 3 200 ++ [Arrive (AdmissionTick 3000)] ++ go 4 200.

(** A skipped turn is lost.  The tenant has room, the request waits and its row
    is queued, but a tick took its turn and could not claim the row for a moment:
    the next tick, at which nothing is locked, does not select it any more. *)
Theorem skipped_turn_is_lost :
  let w := (serve queue_mode skipped_run shared_start).2 in
  ∃ q db, admission_queue w = Some q ∧ aq_durable q = Some db ∧
    held_of (ledger w) acme = 0 ∧ is_Some (aq_waiters q !! "al") ∧ is_Some (pg_admission_queue db !! "al") ∧
    queued_items (admission_queue w) = [] ∧ busy (outside w) = ∅.
Proof. do 2 eexists. vm_compute. split_and!; eauto. Qed.
