(* ===== verification/CloudService.v ===== *)
(** * The lease service on the cloud engines

    The whole stack: the handlers and sweeps over the hybrid provisioner, the
    provisioner over the Cloudflare and the Northflank client, the Cloudflare client
    over the routes of the spawn Worker, on any platform that treats containers as
    documented, and the Northflank client over any transport that behaves as the job
    API is documented to.  The containers and jobs at the providers are compared
    with the leases in the ledger. *)
From stdpp Require Import gmultiset.
From S2P Require Import Prelude Tenant Ledger LedgerSpec Journal Decimal Text Lease Boxes BoxLaws BoxTheorems Caps Billing Scheduler Interference PgQueue Task ComputeMeter Envelope Attest Engine CloudEngine CloudBoxes Worker Shard State Service ServiceLogic ServiceSpecs ServiceProofs Admission AdmissionProofs ServiceTheorems ServiceRuns.

Section cloud.
Context {HC HN O : Type} {hc : HttpTransport HC} {hn : HttpTransport HN} {jt : JsonText}.
Context (sha256 : string → string) (ccfg : CloudflareConfig) (ncfg : NorthflankConfig).
Context {worker : SpawnWorker HC ccfg} {job_api : JobApi HN ncfg}.
Context {codec : BindingCodec} {claws : BindingCodecLaws codec} {ext : External O} {xlaws : ExternalLaws O}.
Context {json : SerdeJson} {unicode : Unicode} {ejson : EnvelopeJson} {crypto : Crypto}.
Context (cfg : Config).

(** Runner and check-host leases on the Worker, plain checks as jobs. *)
Abbreviation Cloud := (Hybrid (Bound (Traced HC)) (Bound (Traced HN))).
Definition cloud_provisioner : BoxProvisioner Cloud :=
  HybridBoxProvisioner
    (runner := CloudflareBoxProvisioner (api := CloudflareEngineApi ccfg))
    (check := NorthflankBoxProvisioner (api := NorthflankEngineApi sha256 ncfg)).
#[local] Existing Instance cloud_provisioner.
#[local] Instance cloud_laws : BoxLaws Cloud :=
  HybridBoxLaws (rlaws := CloudflareBoxLaws (api := CloudflareEngineApi ccfg))
    (claws := NorthflankBoxLaws (api := NorthflankEngineApi sha256 ncfg)).

(** A server that starts on two providers, whatever runs there already. *)
Definition cloud_new (c : HC) (n : HN) : Cloud :=
  mkHybrid (mkBound (mkTraced c ∅) registry_new) (mkBound (mkTraced n ∅) registry_new) ∅.
Definition cold_server (c : HC) (n : HN) (slots : nat) (o : O) : AppState Cloud O :=
  mkApp (mkInner ∅ ∅ ∅ ∅ ∅) meter_new [] ∅ no_tables [] (SHARD_UNKNOWN, 1)
    (Some (admission_queue_new slots)) ∅ (cloud_new c n) o.

(** A container or a job is there that was started for the lease. *)
Definition box_at_provider (p : Cloud) (id : string) : Prop :=
  (∃ c, is_Some (worker_boxes (tr_http (engine (h_runner p))) !! c) ∧
        tr_owner (engine (h_runner p)) !! c = Some (container_name id)) ∨
  (∃ j, is_Some (jobs (tr_http (engine (h_check p))) !! j) ∧
        tr_owner (engine (h_check p)) !! j = Some (container_name id)).

Lemma box_at_provider_live p id : plain_id id → box_at_provider p id → live p id.
Proof.
  intros Hid [(c & [m Hm] & Ho)|(j & Hj & Ho)]; [left|right].
  - exists c, (container_name id, m). split_and!; [done| |done]. by apply attributed_lookup.
  - exists j, (container_name id). split_and!; [done| |done]. by apply job_owners_lookup.
Qed.

Lemma empty_bound {E X} (running : E → gmap string X) owner on_route e :
  running e = ∅ →
  bound_ok running owner on_route (mkBound e registry_new) ∧ ∀ id, bound_fresh running owner (mkBound e registry_new) id.
Proof.
  intros Hr. assert (∀ id, ¬ bound_live running owner (mkBound e registry_new) id) as Hl.
  { intros id (h & x & _ & Hh & _). cbn in Hh. by rewrite Hr, lookup_empty in Hh. }
  split; [constructor; cbn; intros *; [by rewrite lookup_empty|set_solver|by rewrite lookup_empty]|].
  intros id. split; [|done]. split_and!; [done|set_solver|done].
Qed.

Lemma cold_server_starts c n slots o : starts (cold_server c n slots o).
Proof.
  destruct (empty_bound (attributed worker_boxes) fst in_mode (mkTraced c ∅)) as [Hc Hfc].
  { apply map_empty. intros k. destruct (attributed worker_boxes (mkTraced c ∅) !! k) as [[? ?]|] eqn:E; [|done].
    apply attributed_lookup in E as [E _]. cbn in E. by rewrite lookup_empty in E. }
  destruct (empty_bound (job_owners ncfg) id any_route (mkTraced n ∅)) as [Hn Hfn].
  { apply map_empty. intros k. destruct (job_owners ncfg (mkTraced n ∅) !! k) as [?|] eqn:E; [|done].
    apply job_owners_lookup in E as [E _]. cbn in E. by rewrite lookup_empty in E. }
  constructor; [done..| |].
  - split; [exact Hc|]. split; [by split|]. intros id. split; [apply Hfc|apply Hfn].
  - intros id. split; [apply Hfc|apply Hfn].
Qed.

(** The lease is on the books as pending or held. *)
Definition leased {P : Type} (w : AppState P O) (id : string) : Prop :=
  ∃ rec, records (ledger w) !! id = Some rec ∧ lease_id rec = id ∧ is_active rec.

Lemma box_at_provider_leased es c n slots o id :
  plain_id id →
  let w := (serve cfg es (cold_server c n slots o)).2 in
  box_at_provider (provisioner w) id → leased w id.
Proof.
  intros Hid w Hb%box_at_provider_live; [|done].
  destruct (serve_inv cfg es _ (cold_server_starts c n slots o)) as (R & Hi & _). fold w in Hi.
  pose proof (inv_lease _ _ Hi id) as Hok. destruct (ok_live _ _ Hok Hb) as (rec & Hr & Ha). exists rec.
  by destruct (ok_rec _ _ Hok rec Hr).
Qed.
End cloud.

(** ** On the Worker *)
Section deployed.
Context {P HN O : Type} {plat : ContainerPlatform P} {plaws : PlatformLaws P} {hn : HttpTransport HN}.
Context {jt : JsonText} {js : JsJson} {agree : JsonAgrees}.
Context (env : WorkerEnv) (sha256 : string → string) (ccfg : CloudflareConfig) (ncfg : NorthflankConfig).
Context (Horigin : is_origin (spawn_worker_url ccfg) = true) {job_api : JobApi HN ncfg}.
Context {codec : BindingCodec} {claws : BindingCodecLaws codec} {ext : External O} {xlaws : ExternalLaws O}.
Context {json : SerdeJson} {unicode : Unicode} {ejson : EnvelopeJson} {crypto : Crypto}.
Context (cfg : Config).

(** The server whose Cloudflare client talks to the Worker. *)
Definition deployed_provisioner : BoxProvisioner (Hybrid (Bound (Traced (WorkerLink P))) (Bound (Traced HN))) :=
  cloud_provisioner (hc := link_http env) (worker := worker_implements env ccfg Horigin) sha256 ccfg ncfg.

(** C9: The end to end statement.  In every run of a server on the two providers,
    at every moment: a container that is up at Cloudflare, and that the Worker
    started on behalf of a lease, is one whose start the Worker has given up (it
    failed or timed out, and the Worker went on with another handle or answered
    with an error), or the lease is on the books as pending or held; and a job at
    Northflank that was created for a lease belongs to a lease that is on the books
    as pending or held.  Before a request the Worker's sweep of abandoned
    containers and the alarms of its runners may have run, and requests and answers
    may be lost; every start, destroy and storage operation may fail or hang.  What
    ran before the server started is left alone by the statement. *)
Theorem every_cloud_box_has_a_lease es (l : WorkerLink P) (n : HN) slots o id :
  plain_id id →
  let w := (serve (prov := deployed_provisioner) cfg es (cold_server l n slots o)).2 in
  let cloudflare := engine (h_runner (provisioner w)) in
  let northflank := engine (h_check (provisioner w)) in
  (∀ c ns answered,
     attempts (link_worker (tr_http cloudflare)) !! c = Some (ns, answered) →
     (ns, c) ∈ up (platform (link_worker (tr_http cloudflare))) →
     tr_owner cloudflare !! c = Some (container_name id) →
     answered = false ∨ leased w id) ∧
  (∀ j, is_Some (jobs (tr_http northflank) !! j) → tr_owner northflank !! j = Some (container_name id) → leased w id).
Proof.
  intros Hid w cloudflare northflank.
  pose proof (box_at_provider_leased (hc := link_http env) (worker := worker_implements env ccfg Horigin)
    sha256 ccfg ncfg cfg es l n slots o id Hid) as Hb.
  split.
  - intros c ns [] Ha Hu Ho; [right|by left]. apply Hb. left. exists c. split; [|done]. exists ns. by apply containers_lookup.
  - intros j Hj Ho. apply Hb. right. by exists j.
Qed.
End deployed.

(** ** A job whose run was refused *)
Section leak.
Context {H : Type} {http : HttpTransport H} {jt : JsonText} (sha256 : string → string) (cfg : NorthflankConfig).
Context {job_api : JobApi H cfg} {codec : BindingCodec}.
Abbreviation prov := (NorthflankBoxProvisioner (api := NorthflankEngineApi sha256 cfg)).

(** A lease without a handle is not cleaned up. *)
Lemma nf_pending_unbound id (p : Bound (Traced H)) :
  boxes (registry p) !! id = None →
  teardown_pending (BoxProvisioner := prov) id p = (p, Unconfirmed).
Proof.
  intros Hb. cbn. unfold nf_teardown_pending, Registry.resolve. by rewrite Hb.
Qed.

(** A job whose first run is refused is left behind.  [spawn] creates the job and
    then triggers its run; when the provider accepts the first request and refuses
    the second, the lease is not given a handle, so the job stays at the provider
    and the cleanup of the lease is never confirmed, however often it is retried. *)
Theorem refused_run_leaks_the_job id spec (p : Bound (Traced H)) h1 h2 r1 r2 d m :
  let j := northflank_job_name sha256 (spec_name spec) in
  let h := tr_http (engine p) in
  nf_floors cfg spec = Ok () → run_on_create spec = true →
  provider_domain cfg = Ok d → validate_domain d = Ok () →
  boxes (registry p) !! id = None →
  http_send (mkRequest Post (jobs_url cfg) (nf_token cfg) (Some (json_to_string (create_job_value cfg spec j)))) h = (h1, Ok r1) →
  is_success r1 = true →
  http_send (mkRequest Post (runs_url cfg j) (nf_token cfg) None) h1 = (h2, Ok r2) →
  is_success r2 = false → is_Some (jobs h2 !! j) →
  let p' := (provision (BoxProvisioner := prov) id spec p).1 in
  let q := Nat.iter m (λ q, (teardown_pending (BoxProvisioner := prov) id q).1) p' in
  (∃ e, (provision (BoxProvisioner := prov) id spec p).2 = Err e) ∧
  (teardown_pending (BoxProvisioner := prov) id q).2 = Unconfirmed ∧
  is_Some (jobs (tr_http (engine q)) !! j).
Proof.
  intros j h Hf Hrun Hd Hv Hb H1 Hs1 H2 Hs2 Hj p' q.
  assert (∃ e owner, provision (BoxProvisioner := prov) id spec p = (mkBound (mkTraced h2 owner) (registry p), Err e))
    as (e & owner & Hp).
  { cbn. unfold nf_provision, mbind, M_bind, get_state, lift, on_engine. cbn. rewrite Hd. cbn. rewrite Hv.
    unfold traced, northflank_spawn, nf_send_2xx, nf_send, transport, mbind, M_bind, mret, M_ret, lift, throw.
    fold j h. rewrite Hf, H1, Hs1, Hrun, H2, Hs2. destruct (nf_is_capacity_error _ _); by do 2 eexists. }
  assert (teardown_pending (BoxProvisioner := prov) id p' = (p', Unconfirmed)) as Hq.
  { apply nf_pending_unbound. subst p'. by rewrite Hp. }
  assert (q = p') as ->.
  { subst q. clear Hp. induction m as [|m IH]; [done|]. rewrite Nat.iter_succ, IH. by rewrite Hq. }
  rewrite Hq. subst p'. rewrite Hp. eauto.
Qed.
End leak.

(** ** Two small providers

    A body is reduced to its strings, written one after the other. *)
Fixpoint pack (a b : string) : string :=
  match a with "" => String "." b | String c a => String "-" (String c (pack a b)) end.
Fixpoint unpack (s : string) : string * string :=
  match s with
  | String "-" (String c s) => let '(a, b) := unpack s in (String c a, b)
  | String _ b => ("", b)
  | "" => ("", "")
  end.
Lemma unpack_pack a b : unpack (pack a b) = (a, b).
Proof. induction a as [|c a IH]; [done|]. cbn. by rewrite IH. Qed.

Definition string_fields (v : Value) : list (string * string) :=
  match v with JObject fields => omap (λ kv, (λ s, (kv.1, s)) <$> as_string kv.2) fields | _ => [] end.
Fixpoint write (l : list (string * string)) : string :=
  match l with [] => "" | (k, s) :: l => String "+" (pack k (pack s (write l))) end.
Fixpoint read_fields (n : nat) (text : string) : list (string * string) :=
  match n, text with
  | S n, String "+" r => let '(k, r) := unpack r in let '(s, r) := unpack r in (k, s) :: read_fields n r
  | _, _ => []
  end.
Definition read_object (text : string) : Value :=
  JObject ((λ kv, (kv.1, JString kv.2)) <$> read_fields (String.length text) text).

#[local] Instance short_json : JsonText := {|
  json_to_string v := write (string_fields v);
  json_of_string text := Some (read_object text);
|}.
#[local] Instance short_js : JsJson := {|
  js_parse text := Ok (read_object text);
  js_stringify v := write (string_fields v);
  js_nonzero text := negb (String.eqb text "0");
|}.

Lemma pack_length a b : (String.length b ≤ String.length (pack a b))%nat.
Proof. induction a; cbn; lia. Qed.
Lemma read_write l n : (String.length (write l) ≤ n)%nat → read_fields n (write l) = l.
Proof.
  revert n. induction l as [|[k s] l IH]; intros [|n]; cbn; try done; [lia|]. intros Hn. rewrite !unpack_pack.
  f_equal. apply IH. pose proof (pack_length k (pack s (write l))). pose proof (pack_length s (write l)). lia.
Qed.

Lemma get_strings fields k s :
  get (JObject ((λ kv, (kv.1, JString kv.2)) <$> string_fields (JObject fields))) k = Some (JString s) →
  NoDup fields.*1 → get (JObject fields) k = Some (JString s).
Proof.
  cbn. induction fields as [|[k' v] fields IH]; [done|]. cbn. intros Hg [Hk Hnd]%NoDup_cons. revert Hg.
  assert (assoc_get k ((λ kv, (kv.1, JString kv.2)) <$> omap (λ kv, (λ s, (kv.1, s)) <$> as_string kv.2) fields) = Some (JString s) →
    k ∈ fields.*1) as Hin.
  { clear. induction fields as [|[k' v] fields IH]; [done|]. cbn. rewrite elem_of_cons.
    destruct (as_string v); cbn; [case_decide|]; auto. }
  destruct (decide (k' = k)) as [<-|Hne].
  - destruct v; cbn; rewrite ?decide_True by done; try done; intros ?%Hin; done.
  - destruct (as_string v); cbn; [rewrite decide_False by done|]; auto.
Qed.
Lemma strings_get fields k s :
  get (JObject fields) k = Some (JString s) →
  get (JObject ((λ kv, (kv.1, JString kv.2)) <$> string_fields (JObject fields))) k = Some (JString s).
Proof.
  cbn. induction fields as [|[k' v] fields IH]; [done|]. cbn. destruct (decide (k' = k)) as [<-|Hne].
  - intros [= ->]. cbn. by rewrite decide_True.
  - intros Hg. destruct (as_string v); cbn; [rewrite decide_False by done|]; auto.
Qed.
Lemma read_object_same v : wf_body v → same_strings v (read_object (write (string_fields v))).
Proof.
  destruct v as [| | | | |fields]; try done. intros Hnd k s. unfold read_object. rewrite read_write by done.
  split; [by intros ?%get_strings|apply strings_get].
Qed.
#[local] Instance short_agrees : JsonAgrees.
Proof. constructor; intros v Hv; (eexists; split; [reflexivity|by apply read_object_same]). Qed.

Definition short_worker : CloudflareConfig := with_scoped_tokens "e" "l" (cloudflare_config_new "https://w" "s").
Definition short_env : WorkerEnv := mkWorkerEnv (Some "s") (Some "e") (Some "l") (Some "x") None false.

(** A platform whose starts return or hang as scripted; what hangs comes up when the
    Worker waits. *)
Record ToyPlatform : Type := mkToy {
  toy_up : gset (bool * string);
  toy_coming : gset (bool * string);
  toy_next : nat;
  toy_script : list bool;
}.
Definition toy_drawn (p : ToyPlatform) : gset string := list_to_set (counted_id <$> seq 0 (toy_next p)).

#[local] Instance toy_platform : ContainerPlatform ToyPlatform := {|
  random_uuid p := (mkToy (toy_up p) (toy_coming p) (S (toy_next p)) (toy_script p), counted_id (toy_next p));
  date_now p := (p, 0);
  wait_ms _ p := mkToy (toy_up p ∪ toy_coming p) ∅ (toy_next p) (toy_script p);
  object_name v := match v with JString s => Ok s | _ => Err (Threw "not a name") end;
  container_start ns c _ p :=
    match toy_script p with
    | true :: later => (mkToy ({[(ns, c)]} ∪ toy_up p) (toy_coming p ∖ {[(ns, c)]}) (toy_next p) later, Ok ())
    | _ => (mkToy (toy_up p) ({[(ns, c)]} ∪ toy_coming p) (toy_next p) (tail (toy_script p)), Err Hung)
    end;
  container_stop _ _ p := (p, Ok ());
  container_destroy ns c p :=
    (mkToy (toy_up p ∖ {[(ns, c)]}) (toy_coming p) (toy_next p) (toy_script p), Ok ());
  container_status ns c p := (p, Ok (if bool_decide ((ns, c) ∈ toy_up p) then "running" else "stopped"));
  set_denied_hosts _ _ _ p := (p, Ok ());
  super_alarm _ p := (p, Ok ());
  storage_get _ _ p := (p, Ok None);
  storage_put _ _ _ p := (p, Ok ());
  storage_delete _ _ p := (p, Ok ());
  kv_put _ _ _ p := (p, Ok ());
  kv_list _ p := (p, Ok []);
  kv_get _ p := (p, Ok None);
  kv_delete _ p := (p, Ok ());
|}.

Lemma toy_drawn_S u c n script : toy_drawn (mkToy u c (S n) script) = {[counted_id n]} ∪ toy_drawn (mkToy u c n script).
Proof. unfold toy_drawn. cbn [toy_next]. rewrite seq_S, fmap_app, list_to_set_app_L. cbn. set_solver. Qed.
Lemma toy_drawn_next p : counted_id (toy_next p) ∉ toy_drawn p.
Proof.
  unfold toy_drawn. rewrite elem_of_list_to_set, list_elem_of_fmap. intros (k & Hk%counted_id_inj & Hin%elem_of_seq). lia.
Qed.

#[local, program] Instance toy_laws : PlatformLaws ToyPlatform := {|
  up := toy_up; coming_up := toy_coming; drawn := toy_drawn;
|}.
Next Obligation.
  intros p. unfold random_uuid. cbn [toy_platform fst snd]. rewrite !toy_drawn_S. split_and!; [|apply toy_drawn_next|set_solver].
  constructor; [by auto..|]. rewrite toy_drawn_S. set_solver.
Qed.
Next Obligation.
  intros ns c vars p. cbn. destruct (toy_script p) as [|[] later]; cbn; (split; [|set_solver]);
    (constructor; cbn; [| |done]; intros x _ Hne; set_solver).
Qed.
Next Obligation. intros ns c p. cbn. split; [|set_solver]. constructor; cbn; [set_solver..|done]. Qed.
Next Obligation. done. Qed.
Next Obligation. intros p. by constructor; auto. Qed.
Next Obligation. intros ms p. constructor; cbn; [set_solver..|done]. Qed.
Solve Obligations with (intros; by constructor; auto).

Definition toy_worker (script : list bool) : WorkerState ToyPlatform := mkWorker (mkToy ∅ ∅ 0 script) ∅.
Lemma toy_worker_ok script : worker_ok (toy_worker script).
Proof. intros c ns k Hc. cbn in Hc. by rewrite lookup_empty in Hc. Qed.

Definition short_project : NorthflankConfig :=
  mkNorthflank "https://n" "p" "t" "plan" 1024 None (Some 8192) 60 10.

(** A job API that accepts jobs and runs none. *)
Abbreviation JobState := (gmap string unit).
Definition job_named (body : string) : string := default "" (get (read_object body) "name" ≫= as_string).

#[local] Instance short_job_http : HttpTransport JobState := λ rq h,
  match rq_method rq, json_body rq with
  | Post, Some body =>
    match h !! job_named body with
    | None => (<[job_named body := ()]> h, Ok (mkResponse 201 ""))
    | Some _ => (h, Ok (mkResponse 409 ""))
    end
  | Post, _ => (h, Ok (mkResponse 503 "no capacity"))
  | Delete, _ => (filter (λ kv, job_url short_project kv.1 ≠ rq_url rq) h, Ok (mkResponse 200 ""))
  | _, _ => (h, Ok (mkResponse 404 ""))
  end.

Lemma job_named_written v j : get v "name" = Some (JString j) → job_named (json_to_string v) = j.
Proof.
  destruct v as [| | | | |fields]; try done. intros Hg. unfold job_named, read_object. cbn [json_to_string short_json].
  rewrite read_write by done. by rewrite (strings_get _ _ _ Hg).
Qed.

#[local, program] Instance short_job_laws : JobApi JobState short_project := {| jobs h := h |}.
Next Obligation.
  intros v j token h h' x. unfold http_send, short_job_http. cbn [rq_method json_body]. intros Hx Hj.
  rewrite (job_named_written v j Hj) in Hx. destruct (h !! j) as [[]|] eqn:E; injection Hx as <- <-; [|done].
  split; [apply insert_unit_subseteq|]. by intros ? [= <-].
Qed.
Next Obligation. by intros j token h h' x [= <- <-]. Qed.
Next Obligation. by intros url token h h' x [= <- <-]. Qed.
Next Obligation.
  intros j token h h' x. unfold http_send, short_job_http. cbn [rq_method rq_url json_body]. intros Hx.
  apply pair_equal_spec in Hx as [<- <-]. split; [apply map_filter_subseteq|]. intros resp _ _.
  apply map_lookup_filter_None. right. cbn. intros [] _ Hne. by apply Hne.
Qed.

(** ** Runs *)

(** The first start at the Worker hangs, the second returns. *)
Definition cloud_link : WorkerLink ToyPlatform := mkLink (toy_worker [false; true]) [] (toy_worker_ok _).
Definition cloud_start : AppState (Hybrid (Bound (Traced (WorkerLink ToyPlatform))) (Bound (Traced JobState))) nat :=
  cold_server cloud_link {["old" := ()]} 4 0%nat.
Abbreviation short_cloud := (deployed_provisioner short_env (λ s, s) short_worker short_project eq_refl).

(** The lease of the first request has the container of the second start; the one of
    the first start has come up as well and was given up, and the job that was there
    before has no owner. *)
Lemma every_cloud_box_has_a_lease_witness :
  let w := (serve (prov := short_cloud) queue_mode first_lease cloud_start).2 in
  leased w "l" ∧
  toy_up (platform (link_worker (tr_http (engine (h_runner (provisioner w)))))) = {[(false, "l"); (false, "al")]} ∧
  attempts (link_worker (tr_http (engine (h_runner (provisioner w))))) !! "l" = Some (false, false).
Proof.
  split; [|split; vm_compute; reflexivity].
  destruct (every_cloud_box_has_a_lease short_env (λ s, s) short_worker short_project eq_refl queue_mode first_lease
    cloud_link {["old" := ()]} 4 0%nat "l" ltac:(vm_compute; reflexivity)) as [Hc _].
  destruct (Hc "al" false true) as [H|H]; [vm_compute; reflexivity| |vm_compute; reflexivity|discriminate H|exact H].
  apply (bool_decide_unpack _). vm_compute. exact I.
Defined.

Definition runner_spec : ContainerSpec := mkSpec (container_name "l1") pinned "/tmp/x" false true true [] [].
Definition nothing_bound : Bound (Traced JobState) := mkBound (mkTraced ∅ ∅) registry_new.

Lemma refused_run_leaks_the_job_witness :
  let prov := NorthflankBoxProvisioner (api := NorthflankEngineApi (λ s, s) short_project) in
  let p' := (provision (BoxProvisioner := prov) "l1" runner_spec nothing_bound).1 in
  let q := Nat.iter 3 (λ q, (teardown_pending (BoxProvisioner := prov) "l1" q).1) p' in
  (teardown_pending (BoxProvisioner := prov) "l1" q).2 = Unconfirmed ∧
  is_Some (jobs (tr_http (engine q)) !! northflank_job_name (λ s, s) (container_name "l1")).
Proof.
  set (j := northflank_job_name (λ s, s) (container_name "l1")).
  refine (proj2 (refused_run_leaks_the_job (λ s, s) short_project "l1" runner_spec nothing_bound {[j := ()]} {[j := ()]}
    (mkResponse 201 "") (mkResponse 503 "no capacity") "https://n/projects/p" 3 _ _ _ _ _ _ _ _ _ _));
    vm_compute; eauto.
Defined.
