(* ===== verification/Webhook.v ===== *)
(** * The autoscaler: [handlers/webhook.rs] and [ingest_token.rs]

    GitHub delivers [workflow_job] events; the handler checks the signature of the
    body, drops a delivery it has seen, acquires a runner lease for a queued job
    through the same [acquire] as every other client, and cancels it when the job
    is completed.  Which job has which lease is a table of its own beside
    [AppState]; the handlers reach both, so a delivery is a task over the two. *)
From S2P Require Import Prelude Tenant Ledger Journal Text Lease Boxes Task Envelope Attest CloudEngine Shard State Service Admission.

(** ** HMAC-SHA256 *)
Definition xor_byte (a b : ascii) : ascii := ascii_of_N (N.lxor (N_of_ascii a) (N_of_ascii b)).
Fixpoint xor_with (a : ascii) (s : string) : string :=
  match s with EmptyString => EmptyString | String b s => String (xor_byte a b) (xor_with a s) end.

(** [s] and zero bytes up to the length [n]. *)
Fixpoint zero_pad (n : nat) (s : string) : string :=
  match n, s with
  | O, _ => EmptyString
  | S n, EmptyString => String "000"%char (zero_pad n EmptyString)
  | S n, String c s => String c (zero_pad n s)
  end.

Definition BLOCK : nat := 64.
Definition hmac_sha256 {crypto : Crypto} (key msg : string) : string :=
  let k0 := zero_pad BLOCK (if bool_decide (BLOCK < String.length key)%nat then sha256 key else key) in
  sha256 (xor_with (ascii_of_nat 92) k0 +:+ sha256 (xor_with (ascii_of_nat 54) k0 +:+ msg)).

(** [constant_time_eq]: the differences OR-folded over the longer length. *)
Definition constant_time_eq (a b : string) : bool :=
  Z.eqb 0 (foldl (λ diff i, Z.lor diff (Z.lxor (Hook.byte_at a i) (Hook.byte_at b i)))
             (Z.lxor (Z.of_nat (String.length a)) (Z.of_nat (String.length b)))
             (seq 0 (Nat.max (String.length a) (String.length b)))).

(** [IngestSigner]. *)
Definition INGEST_TOKEN_DOMAIN : string := "envelope-ingest:v1:".
Definition signer_ingest_token {crypto : Crypto} (key lease_id : string) : string :=
  b64_encode (hmac_sha256 key (INGEST_TOKEN_DOMAIN +:+ lease_id)).
Definition verify_ingest_token {crypto : Crypto} (key lease_id presented : string) : bool :=
  constant_time_eq (signer_ingest_token key lease_id) presented.

(** ** The table of jobs *)
Inductive JobState : Type := JobProvisioning | JobCancelRequested | JobHeld (lease : string) | JobDone.
#[export] Instance JobState_eq_dec : EqDecision JobState.
Proof. solve_decision. Defined.

Inductive ClaimOutcome : Type := Fresh | AlreadyTracked.
Inductive RecordOutcome : Type := Track | RecordCancelNow (lease : string).
Inductive TakeOutcome : Type := TakeCancelNow (lease : string) | Noted.

(** [struct JobLeaseMap]; a job id is a [u64]. *)
Record JobLeaseMap : Type := mkJobs { job_map : gmap Z JobState; job_order : list Z; job_cap : nat }.
Definition jobs_new (cap : nat) : JobLeaseMap := mkJobs ∅ [] (Nat.max cap 1).
Definition set_job (j : Z) (st : JobState) (m : JobLeaseMap) : JobLeaseMap :=
  mkJobs (<[j := st]> (job_map m)) (job_order m) (job_cap m).
Definition push_job (j : Z) (st : JobState) (m : JobLeaseMap) : JobLeaseMap :=
  mkJobs (<[j := st]> (job_map m)) (job_order m ++ [j]) (job_cap m).

(** [evict_one]: the oldest tombstone, or else the oldest job. *)
Definition evict_one (m : JobLeaseMap) : JobLeaseMap :=
  if bool_decide (size (job_map m) < job_cap m)%nat then m
  else match list_find (λ j, job_map m !! j = Some JobDone) (job_order m) with
  | Some (pos, j) => mkJobs (delete j (job_map m)) (delete pos (job_order m)) (job_cap m)
  | None =>
    match job_order m with
    | j :: order => mkJobs (delete j (job_map m)) order (job_cap m)
    | [] => m
    end
  end.

Definition claim (j : Z) (m : JobLeaseMap) : JobLeaseMap * ClaimOutcome :=
  match job_map m !! j with
  | Some _ => (m, AlreadyTracked)
  | None => (push_job j JobProvisioning (evict_one m), Fresh)
  end.

Definition record_lease (j : Z) (lease : string) (m : JobLeaseMap) : JobLeaseMap * RecordOutcome :=
  match job_map m !! j with
  | Some JobProvisioning => (set_job j (JobHeld lease) m, Track)
  | Some JobCancelRequested => (set_job j JobDone m, RecordCancelNow lease)
  | None => (m, RecordCancelNow lease)
  | Some _ => (m, Track)
  end.

Definition provision_failed (j : Z) (m : JobLeaseMap) : JobLeaseMap :=
  match job_map m !! j with Some _ => set_job j JobDone m | None => m end.

Definition take_lease (j : Z) (m : JobLeaseMap) : JobLeaseMap * TakeOutcome :=
  match job_map m !! j with
  | Some (JobHeld lease) => (set_job j JobDone m, TakeCancelNow lease)
  | Some JobProvisioning => (set_job j JobCancelRequested m, Noted)
  | Some JobCancelRequested | Some JobDone => (m, Noted)
  | None => (push_job j JobDone (evict_one m), Noted)
  end.

(** ** The replay guard *)
Record SeenDeliveries : Type := mkSeen { seen_set : gset string; seen_order : list string; seen_cap : nat }.
Definition seen_new (cap : nat) : SeenDeliveries := mkSeen ∅ [] (Nat.max cap 1).

(** The loop of [check_and_record]: the oldest leave until there is room. *)
Fixpoint make_room (cap : nat) (order : list string) (set : gset string) : list string * gset string :=
  match order with
  | [] => ([], set)
  | old :: rest =>
    if bool_decide (cap ≤ length order)%nat then make_room cap rest (set ∖ {[old]}) else (order, set)
  end.
Definition check_and_record (guid : string) (s : SeenDeliveries) : SeenDeliveries * bool :=
  if bool_decide (guid ∈ seen_set s) then (s, false)
  else
    let '(order, set) := make_room (seen_cap s) (seen_order s) (seen_set s) in
    (mkSeen ({[guid]} ∪ set) (order ++ [guid]) (seen_cap s), true).

(** ** Configuration *)
Record AutoscalerConfig : Type := mkAutoscaler {
  as_pat : string;
  as_image_digest : string;
  managed_labels : list string;
  as_tmp_root : string;
  as_expiry_ms : Z;
  as_repo_allowlist : option (list (string * string));
  max_tracked_jobs : Z;
}.

Definition DEFAULT_MANAGED_LABEL : string := "corelink".
Definition DEFAULT_TMP_ROOT : string := "/tmp/runner".
Definition DEFAULT_EXPIRY_MS : Z := 2700000.
Definition DEFAULT_MAX_TRACKED_JOBS : Z := 4096.

Definition allowed_pair (pair : string) : option (string * string) :=
  p ← split_once "/"%char (trim pair);
  let owner := to_ascii_lowercase (trim p.1) in
  let repo := to_ascii_lowercase (trim p.2) in
  if String.eqb owner "" || String.eqb repo "" then None else Some (owner, repo).

(** [autoscaler_config_from_env]. *)
Definition autoscaler_config_from_env (get : string → option string) : option (string * AutoscalerConfig) :=
  let env k := v ← get k; nonempty (Some (trim v)) in
  secret ← env "FABRIC_AUTOSCALER_WEBHOOK_SECRET";
  pat ← env "FABRIC_AUTOSCALER_PAT";
  image ← env "FABRIC_AUTOSCALER_RUNNER_IMAGE";
  let labels := match env "FABRIC_AUTOSCALER_LABELS" with
                | Some csv => match filter (λ l, l ≠ "") (trim <$> split ","%char csv) with
                              | [] => [DEFAULT_MANAGED_LABEL]
                              | ls => ls
                              end
                | None => [DEFAULT_MANAGED_LABEL]
                end in
  let positive max k := n ← env k ≫= parse_unsigned max; if 0 <? n then Some n else None in
  Some (secret, mkAutoscaler pat image labels
    (default DEFAULT_TMP_ROOT (env "FABRIC_AUTOSCALER_TMP_ROOT"))
    (default DEFAULT_EXPIRY_MS (positive U64_MAX "FABRIC_AUTOSCALER_EXPIRY_MS"))
    ((λ csv, omap allowed_pair (split ","%char csv)) <$> env "FABRIC_AUTOSCALER_REPO_ALLOWLIST")
    (default DEFAULT_MAX_TRACKED_JOBS (positive U64_MAX "FABRIC_AUTOSCALER_MAX_TRACKED_JOBS"))).

(** ** Deliveries *)

(** The headers the handler reads, where they are text, and the raw body. *)
Record Delivery : Type := mkDelivery {
  dv_signature : option string;
  dv_guid : option string;
  dv_event : option string;
  dv_shard : ShardHeaders;
  dv_body : string;
}.

Record WorkflowJobEvent : Type := mkJobEvent {
  je_action : string;
  je_id : Z;
  je_labels : list string;
  je_repo : string;
  je_owner : string;
}.
(** serde_json on the payload, and the token store. *)
Class WebhookJson : Type := job_event_of_json : string → option WorkflowJobEvent.
Class TokenStore (O : Type) : Type := store_tenant_of : string → O → O * option TenantId.

Inductive WebhookReply : Type := NotMounted | BadSignature | Unparseable | Ack (detail : string).

(** What the handlers have done for which job; none of them reads it. *)
Inductive JobMark : Type :=
| Claimed (job : Z)
| Provisioned (job : Z) (lease : string)
| Completed (job : Z)
| CancelAsked (lease : string).
#[export] Instance JobMark_eq_dec : EqDecision JobMark.
Proof. solve_decision. Defined.

Record Autoscaler (P O : Type) : Type := mkAutoscaled {
  app : AppState P O;
  jobs : JobLeaseMap;
  seen_deliveries : SeenDeliveries;
  trail : list JobMark;
}.
Arguments mkAutoscaled {P O}.
Arguments app {P O}.
Arguments jobs {P O}.
Arguments seen_deliveries {P O}.
Arguments trail {P O}.

(** [hex_lower] is [lower_hex]. *)
Definition signature_valid {crypto : Crypto} (secret body : string) (header : option string) : bool :=
  match header ≫= strip_prefix "sha256=" with
  | None => false
  | Some hex => constant_time_eq (Attest.lower_hex (hmac_sha256 secret body)) hex
  end.

(** The gates of [handle_queued]. *)
Definition labels_managed (auto : AutoscalerConfig) (labels : list string) : bool :=
  negb (bool_decide (labels = [])) && forallb (λ l, bool_decide (l ∈ managed_labels auto)) labels.
Definition repo_allowed (auto : AutoscalerConfig) (owner repo : string) : bool :=
  match as_repo_allowlist auto with
  | None => true
  | Some allow => bool_decide ((to_ascii_lowercase owner, to_ascii_lowercase repo) ∈ allow)
  end.

Section handlers.
Context {P O : Type} {prov : BoxProvisioner P} {ext : External O}.
Context {json : SerdeJson} {codec : BindingCodec} {unicode : Unicode} {ejson : EnvelopeJson} {crypto : Crypto}.
Context {wjson : WebhookJson} {store : TokenStore O}.
Context (cfg : Config) (secret : option string) (auto : AutoscalerConfig).
Abbreviation W := (Autoscaler P O).
Implicit Types (w : W).

Definition set_app (a : AppState P O) w : W := mkAutoscaled a (jobs w) (seen_deliveries w) (trail w).
Definition set_jobs (m : JobLeaseMap) w : W := mkAutoscaled (app w) m (seen_deliveries w) (trail w).
Definition set_seen (s : SeenDeliveries) w : W := mkAutoscaled (app w) (jobs w) s (trail w).
Definition mark (x : JobMark) w : W := mkAutoscaled (app w) (jobs w) (seen_deliveries w) (trail w ++ [x]).

(** A step of the server's own. *)
Definition on_app {A} (t : Task (AppState P O) A) : Task W A := zoom app set_app t.

(** The critical sections on the table. *)
Definition claim_job (j : Z) : Task W ClaimOutcome :=
  atomic (λ w, let '(m, r) := claim j (jobs w) in
    (set_jobs m (match r with Fresh => mark (Claimed j) w | AlreadyTracked => w end), r)).
Definition record_job (j : Z) (lease : string) : Task W RecordOutcome :=
  atomic (λ w, let '(m, r) := record_lease j lease (jobs w) in (set_jobs m (mark (Provisioned j lease) w), r)).
Definition fail_job (j : Z) : Task W unit := update (λ w, set_jobs (provision_failed j (jobs w)) w).
Definition take_job (j : Z) : Task W TakeOutcome :=
  atomic (λ w, let '(m, r) := take_lease j (jobs w) in (set_jobs m (mark (Completed j) w), r)).

Definition resolve_tenant : Task W (option TenantId) := on_app (ask (store_tenant_of (as_pat auto))).

(** [provision_runner]. *)
Definition runner_request (owner repo : string) (labels : list string) : AcquireRequest :=
  mkAcquire (as_image_digest auto) "egress-runner" (as_tmp_root auto) (as_expiry_ms auto)
    (Some (mkScope (TargetRepo owner repo) labels)) None false None None.
Definition provision_runner (owner repo : string) (labels : list string) (headers : ShardHeaders) :
    Task W (option string) :=
  tenant ← resolve_tenant;
  match tenant with
  | None => mret None
  | Some t =>
    r ← on_app (acquire cfg (acquire_queued cfg) t (as_pat auto) headers (runner_request owner repo labels));
    mret (match r with RAcquired lease _ => Some (rl_lease_id lease) | _ => None end)
  end.

(** [cancel_lease]. *)
Definition cancel_lease (lease : string) : Task W unit :=
  update (mark (CancelAsked lease));;
  tenant ← resolve_tenant;
  match tenant with
  | None => mret ()
  | Some t => on_app (cancel cfg t lease);; mret ()
  end.

Definition handle_queued (e : WorkflowJobEvent) (headers : ShardHeaders) : Task W WebhookReply :=
  let j := je_id e in
  if negb (labels_managed auto (je_labels e)) then mret (Ack "ignored: job labels are not all managed")
  else if negb (repo_allowed auto (je_owner e) (je_repo e)) then mret (Ack "ignored: repo not in allowlist")
  else
    claimed ← claim_job j;
    match claimed with
    | AlreadyTracked => mret (Ack "deduped: job already tracked")
    | Fresh =>
      lease ← provision_runner (je_owner e) (je_repo e) (je_labels e) headers;
      match lease with
      | Some lease =>
        recorded ← record_job j lease;
        match recorded with
        | Track => mret (Ack ("provisioned lease " +:+ lease))
        | RecordCancelNow lid =>
          cancel_lease lid;;
          mret (Ack "provisioned then immediately cancelled (completed raced provision)")
        end
      | None =>
        fail_job j;;
        mret (Ack "deferred: could not provision (see server log)")
      end
    end.

Definition handle_completed (e : WorkflowJobEvent) : Task W WebhookReply :=
  taken ← take_job (je_id e);
  match taken with
  | TakeCancelNow lease => cancel_lease lease;; mret (Ack "cancelled the job's lease")
  | Noted => mret (Ack "noted: no live lease to cancel for this job")
  end.

(** [github_webhook]. *)
Definition github_webhook (d : Delivery) : Task W WebhookReply :=
  match secret with
  | None => mret NotMounted
  | Some secret =>
    if negb (signature_valid secret (dv_body d) (dv_signature d)) then mret BadSignature
    else
      fresh ← (match dv_guid d with
               | Some guid => atomic (λ w, let '(s, fresh) := check_and_record guid (seen_deliveries w) in
                                          (set_seen s w, fresh))
               | None => mret true
               end);
      if negb (fresh : bool) then mret (Ack "ignored: duplicate delivery (replay guard)")
      else match dv_event d with
      | Some "workflow_job" =>
        match job_event_of_json (dv_body d) with
        | None => mret Unparseable
        | Some e =>
          if String.eqb (je_action e) "queued" then handle_queued e (dv_shard d)
          else if String.eqb (je_action e) "completed" then handle_completed e
          else mret (Ack ("ignored: workflow_job action=" +:+ je_action e))
        end
      | Some "ping" => mret (Ack "pong")
      | _ => mret (Ack "ignored: not a workflow_job event")
      end
  end.
End handlers.
