(* ===== verification/WebhookProofs.v ===== *)
(** * The autoscaler: proofs

    The table of jobs follows the deliveries in every interleaving: while it has
    room, a job is provisioned for at most once, and once nothing is under way the
    lease of a job is tracked until the job is completed and handed to a
    cancellation after that.  Nothing is done without the signature of the secret.
    With deliveries and requests interleaved, the server keeps its books.  A table
    without room can lose a lease. *)
From stdpp Require Import gmultiset.
From S2P Require Import Prelude Tenant Ledger LedgerSpec Journal Text Lease Boxes BoxLaws Task Envelope EnvelopeProofs Attest CloudEngine Shard State Service ServiceLogic ServiceSpecs ServiceProofs Admission AdmissionProofs ServiceTheorems Webhook.

(** ** Comparisons and the replay guard *)
Lemma constant_time_eq_iff a b : constant_time_eq a b = true ↔ b = a.
Proof. apply credential_matches_iff. Qed.

(** The two messages that are hashed for a lease. *)
Definition inner_message {crypto : Crypto} (key lease_id : string) : string :=
  xor_with (ascii_of_nat 54) (zero_pad BLOCK (if bool_decide (BLOCK < String.length key)%nat then sha256 key else key)) +:+
  (INGEST_TOKEN_DOMAIN +:+ lease_id).
Definition outer_message {crypto : Crypto} (key lease_id : string) : string :=
  xor_with (ascii_of_nat 92) (zero_pad BLOCK (if bool_decide (BLOCK < String.length key)%nat then sha256 key else key)) +:+
  sha256 (inner_message key lease_id).

Lemma string_app_cancel p s t : p +:+ s = p +:+ t → s = t.
Proof. intros H%(f_equal (strip_prefix p)). rewrite !strip_prefix_app in H. by simplify_eq. Qed.

(** An ingest token opens one lease.  What is accepted for a lease is exactly the
    token minted for it; and a token that is accepted for two leases gives a
    collision of SHA-256, one of two pairs of messages that are written down here. *)
Theorem ingest_token_opens_one_lease {crypto : Crypto} key a b presented :
  (∀ s, b64_decode (b64_encode s) = Some s) →
  (verify_ingest_token key a presented = true ↔ presented = signer_ingest_token key a) ∧
  (verify_ingest_token key a presented = true → verify_ingest_token key b presented = true →
     a = b ∨
     (inner_message key a ≠ inner_message key b ∧ sha256 (inner_message key a) = sha256 (inner_message key b)) ∨
     (outer_message key a ≠ outer_message key b ∧ sha256 (outer_message key a) = sha256 (outer_message key b))).
Proof.
  intros Hb64. split; [apply constant_time_eq_iff|].
  unfold verify_ingest_token. rewrite !constant_time_eq_iff. intros -> Heq.
  apply (f_equal b64_decode) in Heq. unfold signer_ingest_token in Heq. rewrite !Hb64 in Heq. apply (inj Some) in Heq.
  change (sha256 (outer_message key a) = sha256 (outer_message key b)) in Heq.
  destruct (decide (outer_message key a = outer_message key b)) as [Ho|]; [|by right; right].
  apply string_app_cancel in Ho. destruct (decide (inner_message key a = inner_message key b)) as [Hi|]; [|by right; left].
  left. by apply string_app_cancel, string_app_cancel in Hi.
Qed.

Lemma make_room_spec cap order set :
  (1 ≤ cap)%nat → NoDup order → set = list_to_set order →
  let '(order', set') := make_room cap order set in
  ∃ n, order' = drop n order ∧ set' = list_to_set order' ∧ (length order' < cap)%nat ∧
    (n = length order - (cap - 1))%nat.
Proof.
  intros Hc. revert set. induction order as [|old rest IH]; intros set Hnd ->; cbn [make_room].
  { exists 0%nat. split_and!; try done; cbn; lia. }
  apply NoDup_cons in Hnd as [Hold Hnd]. case_bool_decide as Hfull; cbn [length] in *.
  - specialize (IH (list_to_set (old :: rest) ∖ {[old]}) Hnd).
    destruct (make_room cap rest _) as [order' set']. destruct IH as (n & -> & Hs & Hl & Hn).
    { apply set_eq. intros x. cbn. rewrite elem_of_difference, elem_of_union, elem_of_singleton, elem_of_list_to_set.
      split; [tauto|]. intros Hx. split; [tauto|]. intros ->. done. }
    exists (S n). split_and!; [done..|lia].
  - exists 0%nat. split_and!; [done..|cbn; lia|lia].
Qed.

(** What the guard holds are the last GUIDs it let through. *)
Definition guard_ok (cap : nat) (passed : list string) (s : SeenDeliveries) : Prop :=
  seen_cap s = cap ∧ seen_order s = drop (length passed - cap) passed ∧
  seen_set s = list_to_set (seen_order s) ∧ NoDup (seen_order s).

Lemma check_and_record_ok cap passed s guid :
  (1 ≤ cap)%nat → guard_ok cap passed s →
  let '(s', fresh) := check_and_record guid s in
  guard_ok cap (if fresh : bool then passed ++ [guid] else passed) s' ∧
  (fresh = true ↔ guid ∉ drop (length passed - cap) passed).
Proof.
  intros Hc (Hcap & Ho & Hs & Hnd). unfold check_and_record. rewrite Hs, <-Ho.
  case_bool_decide as Hin; rewrite elem_of_list_to_set in Hin; [by split; [|split]|].
  pose proof (make_room_spec (seen_cap s) (seen_order s) (list_to_set (seen_order s))) as Hm.
  destruct (make_room _ _ _) as [order set]. destruct Hm as (n & Hord & Hset & Hlen & Hn); [lia|done|done|].
  split; [|done]. unfold guard_ok. cbn [seen_cap seen_order seen_set]. split_and!; [done| | |].
  - rewrite Hord, Ho, drop_drop, length_app, Hn, Hcap, Ho, length_drop. cbn [length].
    rewrite drop_app_le by lia. do 2 f_equal. lia.
  - rewrite Hset, list_to_set_app_L. cbn. set_solver.
  - subst order. rewrite <-(take_drop n (seen_order s)) in Hnd, Hin. apply NoDup_app in Hnd as (_ & _ & Hnd).
    apply NoDup_app. split_and!; [done| |apply NoDup_singleton].
    intros x Hx ->%list_elem_of_singleton. apply Hin, elem_of_app. by right.
Qed.

Definition guard_step (st : SeenDeliveries * list string) (guid : string) : SeenDeliveries * list string :=
  let '(s, fresh) := check_and_record guid st.1 in (s, if fresh : bool then st.2 ++ [guid] else st.2).
Definition guard_run (cap : nat) (guids : list string) : SeenDeliveries * list string :=
  foldl guard_step (seen_new cap, []) guids.

Lemma guard_run_ok cap guids : (1 ≤ cap)%nat → guard_ok cap (guard_run cap guids).2 (guard_run cap guids).1.
Proof.
  intros Hc. unfold guard_run. induction guids as [|guid guids IH] using rev_ind.
  { unfold seen_new. rewrite Nat.max_l by lia. split_and!; cbn; [done..|constructor]. }
  rewrite foldl_snoc. destruct (foldl guard_step _ guids) as [s passed]. cbn [fst snd] in IH.
  unfold guard_step. cbn [fst snd]. pose proof (check_and_record_ok cap passed s guid Hc IH) as Hok.
  destruct (check_and_record guid s) as [s' fresh]. apply Hok.
Qed.

(** The replay guard is exact.  Of a sequence of GUIDs, the guard lets one through
    if and only if it is not among the last ones, as many as its capacity, that
    it has let through before. *)
Theorem replay_guard_is_exact cap guids guid :
  (1 ≤ cap)%nat → let '(s, passed) := guard_run cap guids in
  (check_and_record guid s).2 = true ↔ guid ∉ drop (length passed - cap) passed.
Proof.
  intros Hc. pose proof (guard_run_ok cap guids Hc) as Hok. destruct (guard_run cap guids) as [s passed].
  pose proof (check_and_record_ok cap passed s guid Hc Hok) as Hr.
  destruct (check_and_record guid s). apply Hr.
Qed.

(** ** Deliveries and requests *)
Inductive AutoEvent : Type := Delivers (d : Delivery) | Requests (r : Request) | AutoRuns (i : nat).

Section server.
Context {P O : Type} {prov : BoxProvisioner P} {ext : External O}.
Context {json : SerdeJson} {codec : BindingCodec} {unicode : Unicode} {ejson : EnvelopeJson} {crypto : Crypto}.
Context {wjson : WebhookJson} {store : TokenStore O}.
Context (cfg : Config) (secret : option string) (auto : AutoscalerConfig).
Abbreviation W := (Autoscaler P O).

Definition auto_handler (e : AutoEvent) : event W (WebhookReply + Reply) :=
  match e with
  | Delivers d => Spawn (a ← github_webhook cfg secret auto d; mret (inl a))
  | Requests r => Spawn (a ← on_app (handler cfg r); mret (inr a))
  | AutoRuns i => Sched i
  end.
Definition auto_serve (es : list AutoEvent) (w : W) : list (Task W (WebhookReply + Reply)) * W :=
  runtime (auto_handler <$> es) ([], w).
End server.

(** ** Who is served *)
Section signed.
Context {P O : Type} {prov : BoxProvisioner P} {ext : External O}.
Context {json : SerdeJson} {codec : BindingCodec} {unicode : Unicode} {ejson : EnvelopeJson} {crypto : Crypto}.
Context {wjson : WebhookJson} {store : TokenStore O}.
Context (cfg : Config) (secret : option string) (auto : AutoscalerConfig) (deliveries : list AutoEvent).
Abbreviation W := (Autoscaler P O).
Implicit Types (w : W).

(** One of the deliveries is signed with the secret and carries the event. *)
Definition signed_event (action : string) (e : WorkflowJobEvent) : Prop :=
  ∃ d s, Delivers d ∈ deliveries ∧ secret = Some s ∧
    dv_signature d = Some ("sha256=" +:+ Attest.lower_hex (hmac_sha256 s (dv_body d))) ∧
    dv_event d = Some "workflow_job" ∧ job_event_of_json (dv_body d) = Some e ∧ je_action e = action.

(** The job is one the operator serves. *)
Definition for_us (e : WorkflowJobEvent) : Prop :=
  je_labels e ≠ [] ∧ (∀ l, l ∈ je_labels e → l ∈ managed_labels auto) ∧
  (∀ allow, as_repo_allowlist auto = Some allow → (to_ascii_lowercase (je_owner e), to_ascii_lowercase (je_repo e)) ∈ allow).

Definition justified (x : JobMark) : Prop :=
  match x with
  | Claimed j => ∃ e, signed_event "queued" e ∧ je_id e = j ∧ for_us e
  | Completed j => ∃ e, signed_event "completed" e ∧ je_id e = j
  | _ => True
  end.
Abbreviation Tok := (gmultiset ()).
Definition trail_inv w (R : Tok) : Prop := Forall justified (trail w).
Definition no_rely w (R : Tok) w' (R' : Tok) : Prop := True.
Abbreviation keeps t := (quiet trail_inv no_rely (λ _, True) t).

Lemma keeps_bind {A B} (t : Task W A) (k : A → Task W B) : keeps t → (∀ a, keeps (k a)) → keeps (t ≫= k).
Proof. intros Ht Hk. eapply quiet_bind; [exact Ht|]. intros a _. apply Hk. Qed.
Lemma keeps_atom {A} (g : W → W * A) : (∀ w, Forall justified (trail w) → Forall justified (trail (g w).1)) → keeps (atomic g).
Proof. intros Hg. apply quiet_atom. intros w R w' a E Hi. split_and!; [|done|done]. specialize (Hg w Hi). by rewrite E in Hg. Qed.
Lemma keeps_app {A} (t : Task (AppState P O) A) : keeps (on_app t).
Proof. apply quiet_zoom. done. Qed.
Lemma keeps_ret {A} (a : A) : keeps (mret a : Task W A).
Proof. by apply quiet_ret. Qed.

Lemma keeps_mark x w : justified x → Forall justified (trail w) → Forall justified (trail (mark x w)).
Proof. intros Hx Hw. cbn. apply Forall_app. auto. Qed.

Lemma cancel_lease_keeps l : keeps (cancel_lease cfg auto l).
Proof.
  apply keeps_bind; [by apply keeps_atom; intros w; apply keeps_mark|]. intros _.
  apply keeps_bind; [apply keeps_app|]. intros [t|]; [|apply keeps_ret].
  apply keeps_bind; [apply keeps_app|]. intros _. apply keeps_ret.
Qed.

Lemma signature_valid_iff s body h :
  signature_valid s body h = true ↔ h = Some ("sha256=" +:+ Attest.lower_hex (hmac_sha256 s body)).
Proof.
  unfold signature_valid. destruct h as [h|]; cbn [mbind option_bind]; [|done]. destruct (strip_prefix "sha256=" h) as [hex|] eqn:E.
  - apply strip_prefix_Some in E as ->. rewrite constant_time_eq_iff. split; [by intros ->|].
    by intros Heq%(inj Some)%string_app_cancel.
  - split; [done|]. intros Heq%(inj Some). by rewrite Heq, strip_prefix_app in E.
Qed.

Lemma gates_iff e : labels_managed auto (je_labels e) = true → repo_allowed auto (je_owner e) (je_repo e) = true → for_us e.
Proof.
  unfold labels_managed, repo_allowed. rewrite andb_true_iff, negb_true_iff, bool_decide_eq_false, forallb_forall.
  intros [Hne Hall] Hrepo. split_and!; [done| |].
  - intros l Hl. eapply bool_decide_eq_true, Hall. by apply list_elem_of_In.
  - intros allow Ha. rewrite Ha in Hrepo. by apply bool_decide_eq_true in Hrepo.
Qed.

Lemma handle_queued_keeps e headers : signed_event "queued" e → keeps (handle_queued cfg auto e headers).
Proof.
  intros Hs. unfold handle_queued. destruct (labels_managed _ _) eqn:Hl; [|apply keeps_ret]. cbn [negb].
  destruct (repo_allowed _ _ _) eqn:Hr; [|apply keeps_ret]. cbn [negb].
  pose proof (gates_iff e Hl Hr) as Hus. apply keeps_bind.
  { apply keeps_atom. intros w Hw. destruct (claim (je_id e) (jobs w)) as [m []]; [|done].
    cbn. apply Forall_app. split; [done|]. constructor; [|done]. by exists e. }
  intros []; [|apply keeps_ret]. apply keeps_bind.
  { apply keeps_bind; [apply keeps_app|]. intros [t|]; [|apply keeps_ret]. apply keeps_bind; [apply keeps_app|].
    intros r. apply keeps_ret. }
  intros [l|]; (apply keeps_bind; [apply keeps_atom; intros w Hw|]).
  - destruct (record_lease _ _ _) as [m r]. cbn. apply Forall_app. split; [done|]. by constructor.
  - intros []; [apply keeps_ret|]. apply keeps_bind; [apply cancel_lease_keeps|]. intros _. apply keeps_ret.
  - done.
  - intros _. apply keeps_ret.
Qed.

Lemma handle_completed_keeps e : signed_event "completed" e → keeps (handle_completed cfg auto e).
Proof.
  intros Hs. apply keeps_bind.
  { apply keeps_atom. intros w Hw. destruct (take_lease _ _) as [m r]. cbn. apply Forall_app. split; [done|].
    constructor; [|done]. by exists e. }
  intros []; [|apply keeps_ret]. apply keeps_bind; [apply cancel_lease_keeps|]. intros _. apply keeps_ret.
Qed.

(** A delivery is handled by one of the two, if it is what it claims to be. *)
Lemma github_webhook_cases (φ : Task W WebhookReply → Prop) d :
  (∀ a, φ (mret a)) →
  (∀ (g : W → W * bool) k, (∀ w, ∃ s b, g w = (set_seen s w, b)) → (∀ b, φ (k b)) → φ (atomic g ≫= k)) →
  (∀ e s, secret = Some s → dv_signature d = Some ("sha256=" +:+ Attest.lower_hex (hmac_sha256 s (dv_body d))) →
     dv_event d = Some "workflow_job" → job_event_of_json (dv_body d) = Some e →
     (je_action e = "queued" → φ (handle_queued cfg auto e (dv_shard d))) ∧
     (je_action e = "completed" → φ (handle_completed cfg auto e))) →
  φ (github_webhook cfg secret auto d).
Proof.
  intros Hret Hguard Hev. unfold github_webhook. destruct secret as [s|] eqn:Hs; [|apply Hret].
  destruct (signature_valid s _ _) eqn:Hv; [|apply Hret]. apply signature_valid_iff in Hv. cbn [negb].
  assert (φ (match dv_event d with
      | Some "workflow_job" =>
        match job_event_of_json (dv_body d) with
        | None => mret Unparseable
        | Some e =>
          if String.eqb (je_action e) "queued" then handle_queued cfg auto e (dv_shard d)
          else if String.eqb (je_action e) "completed" then handle_completed cfg auto e
          else mret (Ack ("ignored: workflow_job action=" +:+ je_action e))
        end
      | Some "ping" => mret (Ack "pong")
      | _ => mret (Ack "ignored: not a workflow_job event")
      end)) as Hrest.
  { destruct (decide (dv_event d = Some "workflow_job")) as [Hd|Hd].
    - rewrite Hd. destruct (job_event_of_json (dv_body d)) as [e|] eqn:He; [|apply Hret].
      destruct (Hev e s eq_refl Hv Hd eq_refl) as [Hq Hc].
      destruct (String.eqb_spec (je_action e) "queued"); [by apply Hq|].
      destruct (String.eqb_spec (je_action e) "completed"); [by apply Hc|apply Hret].
    - destruct (dv_event d) as [ev|]; [|apply Hret].
      repeat match goal with |- context [match ?x with _ => _ end] => destruct x; try apply Hret end; done. }
  destruct (dv_guid d) as [guid|]; [|exact Hrest].
  apply Hguard.
  - intros w. destruct (check_and_record guid (seen_deliveries w)) as [s' b]. by exists s', b.
  - intros [|]; [exact Hrest|apply Hret].
Qed.

Lemma github_webhook_keeps d : Delivers d ∈ deliveries → keeps (github_webhook cfg secret auto d).
Proof.
  intros Hd. apply (github_webhook_cases (λ t, keeps t)).
  - intros a. apply keeps_ret.
  - intros g k Hg Hk. apply keeps_bind; [|done]. apply keeps_atom. intros w. by destruct (Hg w) as (s & b & ->).
  - intros e s Hs Hsig Hev He. split; intros Ha; [apply handle_queued_keeps|apply handle_completed_keeps]; by exists d, s.
Qed.

Lemma auto_handler_keeps es : (∀ e, e ∈ es → e ∈ deliveries) →
  Forall (handler_ok trail_inv no_rely (λ _, True)) (spawned_by (auto_handler cfg secret auto <$> es)).
Proof.
  assert (∀ (t : Task W (WebhookReply + Reply)), keeps t → handler_ok trail_inv no_rely (λ _, True) t) as Hk
    by (intros t; by apply safe_post).
  induction es as [|[d|r|i] es IH]; intros Hin; cbn; [constructor|..].
  - constructor; [|apply IH; set_solver]. apply Hk, keeps_bind; [apply github_webhook_keeps, Hin; left|]. intros a. apply keeps_ret.
  - constructor; [|apply IH; set_solver]. apply Hk, keeps_bind; [apply keeps_app|]. intros a. apply keeps_ret.
  - apply IH. set_solver.
Qed.
End signed.

Section served.
Context {P O : Type} {prov : BoxProvisioner P} {ext : External O}.
Context {json : SerdeJson} {codec : BindingCodec} {unicode : Unicode} {ejson : EnvelopeJson} {crypto : Crypto}.
Context {wjson : WebhookJson} {store : TokenStore O}.
Context (cfg : Config) (secret : option string) (auto : AutoscalerConfig).

(** C37: Only signed jobs are served.  In every run, whatever is delivered and requested:
    a job is claimed only if a delivery that bears the HMAC of its own body under
    the secret says that it is queued, all its labels are managed ones and its
    repository is allowed; and a job counts as completed only if such a
    delivery says so. *)
Theorem only_signed_jobs_are_served es (w : Autoscaler P O) :
  trail w = [] → let w' := (auto_serve cfg secret auto es w).2 in
  (∀ j, Claimed j ∈ trail w' → ∃ e, signed_event secret es "queued" e ∧ je_id e = j ∧ for_us auto e) ∧
  (∀ j, Completed j ∈ trail w' → ∃ e, signed_event secret es "completed" e ∧ je_id e = j).
Proof.
  intros Ht w'. destruct (runtime_invariant (W := Autoscaler P O) (trail_inv secret auto es) no_rely (λ _, True) (auto_handler cfg secret auto <$> es) w)
    as (R & Hi & _); [by apply auto_handler_keeps|by unfold trail_inv; rewrite Ht|].
  change (Forall (justified secret auto es) (trail w')) in Hi. rewrite Forall_forall in Hi.
  split; intros j Hj; exact (Hi _ Hj).
Qed.
End served.

(** ** A job and its lease *)

(** What a handler is in the middle of: it provisions for a job, or it has a lease
    to cancel. *)
Inductive JobTok : Type := InFlight (job : Z) | ToCancel (lease : string).
#[export] Instance JobTok_eq_dec : EqDecision JobTok.
Proof. solve_decision. Defined.
#[export] Instance JobTok_countable : Countable JobTok.
Proof.
  refine (inj_countable' (λ t, match t with InFlight j => inl j | ToCancel l => inr l end)
            (λ s, match s with inl j => InFlight j | inr l => ToCancel l end) _).
  by intros [].
Qed.
Abbreviation JobRes := (gmultiset JobTok).

(** What the marks say of a job, given its entry and the handlers under way for it. *)
Definition claims (j : Z) (tr : list JobMark) : nat := length (filter (λ x, x = Claimed j) tr).
Definition cancelled (tr : list JobMark) (R : JobRes) (l : string) : Prop := ToCancel l ∈ R ∨ CancelAsked l ∈ tr.
Definition unprovided (j : Z) (tr : list JobMark) : Prop := ∀ l, Provisioned j l ∉ tr.
Definition job_ok (j : Z) (tr : list JobMark) (R : JobRes) (st : option JobState) : Prop :=
  (claims j tr ≤ 1)%nat ∧ multiplicity (InFlight j) R = (match st with Some JobProvisioning | Some JobCancelRequested => 1 | _ => 0 end)%nat ∧
  match st with
  | None => claims j tr = 0%nat ∧ (Completed j ∉ tr) ∧ unprovided j tr
  | Some JobProvisioning => (Completed j ∉ tr) ∧ unprovided j tr
  | Some JobCancelRequested => Completed j ∈ tr ∧ unprovided j tr
  | Some (JobHeld l) => (Completed j ∉ tr) ∧ ∀ l', Provisioned j l' ∈ tr → l' = l
  | Some JobDone => ∀ l, Provisioned j l ∈ tr → Completed j ∈ tr ∧ cancelled tr R l
  end.

(** The job a mark is about. *)
Definition mark_job (x : JobMark) : option Z :=
  match x with Claimed j | Completed j | Provisioned j _ => Some j | CancelAsked _ => None end.

Lemma claims_app j tr tr' : claims j (tr ++ tr') = (claims j tr + claims j tr')%nat.
Proof. unfold claims. by rewrite filter_app, length_app. Qed.

Lemma claims_snoc j tr x : x ≠ Claimed j → claims j (tr ++ [x]) = claims j tr.
Proof. intros Hx. rewrite claims_app. unfold claims at 2. rewrite filter_cons_False by done. cbn. lia. Qed.

Lemma claims_other j xs : (∀ x, x ∈ xs → mark_job x ≠ Some j) → claims j xs = 0%nat.
Proof.
  intros Hx. unfold claims. destruct (filter _ xs) as [|x l] eqn:E; [done|].
  assert (x ∈ filter (λ x, x = Claimed j) xs) as [-> Hin]%list_elem_of_filter by (rewrite E; left).
  by destruct (Hx _ Hin).
Qed.

(** What happens to other jobs does not matter to a job. *)
Lemma job_ok_frame j tr R st xs R' :
  (∀ x, x ∈ xs → mark_job x ≠ Some j) → multiplicity (InFlight j) R' = multiplicity (InFlight j) R →
  (∀ l, cancelled tr R l → cancelled (tr ++ xs) R' l) →
  job_ok j tr R st → job_ok j (tr ++ xs) R' st.
Proof.
  intros Hx Hm Hc (Hcl & Hn & Hst).
  assert (claims j (tr ++ xs) = claims j tr) as Hclaims by (rewrite claims_app, (claims_other j xs Hx); lia).
  assert (∀ y, mark_job y = Some j → y ∈ tr ++ xs ↔ y ∈ tr) as Hin.
  { intros y Hy. rewrite elem_of_app. split; [|by left]. intros [?|Hy']; [done|]. by destruct (Hx _ Hy'). }
  unfold job_ok, unprovided in *. rewrite Hclaims, Hm. split_and!; [done..|].
  destruct st as [[| |l|]|]; repeat setoid_rewrite Hin; try done.
  intros l [? ?]%Hst. auto.
Qed.

Definition jobs_ok (D : gset Z) (m : JobLeaseMap) (tr : list JobMark) (R : JobRes) : Prop :=
  (size D ≤ job_cap m)%nat ∧ dom (job_map m) ⊆ D ∧ ∀ j, job_ok j tr R (job_map m !! j).

(** With room for all jobs nothing is evicted. *)
Lemma evict_one_room D m tr R j :
  jobs_ok D m tr R → j ∈ D → job_map m !! j = None → evict_one m = m.
Proof.
  intros (Hcap & Hdom & _) Hj Hn. unfold evict_one. rewrite bool_decide_true; [done|].
  rewrite <-size_dom. assert (size (dom (job_map m)) < size D)%nat; [|lia].
  apply subset_size. split; [done|]. intros Hs. apply not_elem_of_dom in Hn. auto.
Qed.

(** The entry of one job changes, and marks of that job are made. *)
Lemma jobs_ok_step D m m' tr R xs R' j st :
  jobs_ok D m tr R → j ∈ D → job_cap m' = job_cap m → job_map m' = <[j := st]> (job_map m) →
  (∀ x i, x ∈ xs → mark_job x = Some i → i = j) →
  (∀ i, i ≠ j → multiplicity (InFlight i) R' = multiplicity (InFlight i) R) →
  (∀ l, ToCancel l ∈ R → ToCancel l ∈ R') →
  job_ok j (tr ++ xs) R' (Some st) → jobs_ok D m' (tr ++ xs) R'.
Proof.
  intros (Hcap & Hdom & Hall) Hj Hc Hm Hx Hf Hcan Hok. split_and!; [lia| |].
  - rewrite Hm, dom_insert_L. set_solver.
  - intros i. rewrite Hm. destruct (decide (i = j)) as [->|Hne]; [by rewrite lookup_insert_eq|].
    rewrite lookup_insert_ne by done. apply (job_ok_frame _ _ R); [|by apply Hf| |done].
    + intros x Hin ?%Hx; done.
    + intros l [?|?]; [left; auto|right]. apply elem_of_app. by left.
Qed.

Section steps.
Context (D : gset Z).
Implicit Types (f R : JobRes).

Lemma in_flight_add i x f :
  multiplicity (InFlight i) ({[+ x +]} ⊎ f) = ((if decide (InFlight i = x) then 1 else 0) + multiplicity (InFlight i) f)%nat.
Proof. by rewrite multiplicity_disj_union, multiplicity_singleton. Qed.

Lemma snoc_fresh (y x : JobMark) tr : y ≠ x → y ∉ tr → y ∉ tr ++ [x].
Proof. intros ? ?. rewrite elem_of_app, list_elem_of_singleton. tauto. Qed.

Lemma claim_step j m m' r tr f :
  jobs_ok D m tr f → j ∈ D → claim j m = (m', r) →
  jobs_ok D m' (tr ++ (match r with Fresh => [Claimed j] | AlreadyTracked => [] end))
    ((match r with Fresh => {[+ InFlight j +]} | AlreadyTracked => ∅ end) ⊎ f).
Proof.
  intros Hok Hj. unfold claim. destruct (job_map m !! j) as [st|] eqn:Hst; intros [= <- <-].
  { by rewrite (left_id_L ∅ (⊎)), (right_id_L [] (++)). }
  rewrite (evict_one_room D m tr f j Hok Hj Hst).
  destruct (proj2 (proj2 Hok) j) as (Hc & Hn & Hs). rewrite Hst in Hn, Hs. destruct Hs as (Hc0 & Hco & Hp).
  eapply (jobs_ok_step D m _ tr f [Claimed j] _ j JobProvisioning); [done|done|done|done| | |multiset_solver|].
  - by intros x i ->%list_elem_of_singleton [= ->].
  - intros i Hi. rewrite in_flight_add, decide_False by congruence. done.
  - split_and!.
    + rewrite claims_app, Hc0. unfold claims. rewrite filter_cons_True by done. cbn. lia.
    + rewrite in_flight_add, decide_True by done. lia.
    + by apply snoc_fresh.
    + intros l. by apply snoc_fresh.
Qed.

(** While a handler provisions for a job, its entry says so. *)
Lemma in_flight_entry j m tr f :
  jobs_ok D m tr ({[+ InFlight j +]} ⊎ f) →
  j ∈ D ∧ multiplicity (InFlight j) f = 0%nat ∧
  (job_map m !! j = Some JobProvisioning ∨ job_map m !! j = Some JobCancelRequested).
Proof.
  intros (_ & Hdom & Hall). destruct (Hall j) as (_ & Hn & _). rewrite in_flight_add, decide_True in Hn by done.
  assert (job_map m !! j = Some JobProvisioning ∨ job_map m !! j = Some JobCancelRequested) as Hst.
  { destruct (job_map m !! j) as [[| |l|]|]; auto; lia. }
  split_and!; [|destruct Hst as [Hst|Hst]; rewrite Hst in Hn; lia|done].
  apply Hdom, elem_of_dom. destruct Hst as [-> | ->]; eauto.
Qed.

Lemma record_step j l m m' r tr f :
  jobs_ok D m tr ({[+ InFlight j +]} ⊎ f) → record_lease j l m = (m', r) →
  jobs_ok D m' (tr ++ [Provisioned j l])
    ((match r with Track => ∅ | RecordCancelNow l' => {[+ ToCancel l' +]} end) ⊎ f).
Proof.
  intros Hok Hr. destruct (in_flight_entry j m tr f Hok) as (Hj & Hf & Hst). pose proof Hok as (_ & _ & Hall).
  destruct (Hall j) as (Hc & _ & Hs). unfold record_lease in Hr.
  assert (claims j (tr ++ [Provisioned j l]) = claims j tr) as Hcl by by rewrite claims_snoc.
  assert (∀ i x, i ≠ j → (∀ k, x ≠ InFlight k) → multiplicity (InFlight i) ({[+ x +]} ⊎ f) = multiplicity (InFlight i) ({[+ InFlight j +]} ⊎ f)) as Hoth.
  { intros i x Hi Hx. rewrite !in_flight_add, !decide_False by (auto || congruence). done. }
  destruct Hst as [Hst|Hst]; rewrite Hst in Hr, Hs; injection Hr as <- <-; destruct Hs as [Hco Hp].
  - eapply (jobs_ok_step D m _ tr _ [Provisioned j l] _ j (JobHeld l)); [done|done|done|done| | | |].
    + by intros x i ->%list_elem_of_singleton [= ->].
    + intros i Hi. rewrite (left_id_L ∅ (⊎)), in_flight_add, decide_False by congruence. done.
    + multiset_solver.
    + split_and!; [lia|by rewrite (left_id_L ∅ (⊎))|by apply snoc_fresh|].
      intros l' [Hin|[= ->]%list_elem_of_singleton]%elem_of_app; [|done]. by destruct (Hp l').
  - eapply (jobs_ok_step D m _ tr _ [Provisioned j l] _ j JobDone); [done|done|done|done| | | |].
    + by intros x i ->%list_elem_of_singleton [= ->].
    + intros i Hi. by apply Hoth.
    + multiset_solver.
    + split_and!; [lia|by rewrite in_flight_add, decide_False by done|].
      intros l' [Hin|[= ->]%list_elem_of_singleton]%elem_of_app; [by destruct (Hp l')|].
      split; [apply elem_of_app; by left|]. left. multiset_solver.
Qed.

Lemma fail_step j m tr f :
  jobs_ok D m tr ({[+ InFlight j +]} ⊎ f) → jobs_ok D (provision_failed j m) tr f.
Proof.
  intros Hok. destruct (in_flight_entry j m tr f Hok) as (Hj & Hf & Hst). pose proof Hok as (_ & _ & Hall).
  destruct (Hall j) as (Hc & _ & Hs). rewrite <-(right_id_L [] (++) tr).
  assert (provision_failed j m = set_job j JobDone m) as -> by (unfold provision_failed; by destruct Hst as [-> | ->]).
  eapply (jobs_ok_step D m _ tr _ [] _ j JobDone); [done|done|done|done|by intros ? ? ?%elem_of_nil| |multiset_solver|].
  - intros i Hi. rewrite in_flight_add, decide_False by congruence. done.
  - rewrite (right_id_L [] (++)). split_and!; [done..|]. intros l Hl.
    assert (unprovided j tr) as Hp by (destruct Hst as [Hst|Hst]; rewrite Hst in Hs; apply Hs). by destruct (Hp l).
Qed.

Lemma take_step j m m' r tr f :
  jobs_ok D m tr f → j ∈ D → take_lease j m = (m', r) →
  jobs_ok D m' (tr ++ [Completed j]) ((match r with TakeCancelNow l => {[+ ToCancel l +]} | Noted => ∅ end) ⊎ f).
Proof.
  intros Hok Hj Ht. destruct (proj2 (proj2 Hok) j) as (Hc & Hn & Hs).
  assert (claims j (tr ++ [Completed j]) = claims j tr) as Hcl by by rewrite claims_snoc.
  assert (Completed j ∈ tr ++ [Completed j]) as Hin by (apply elem_of_app; right; left).
  assert (unprovided j tr → unprovided j (tr ++ [Completed j])) as Hup by (intros Hp l; by apply snoc_fresh).
  assert (∀ st m' R, job_cap m' = job_cap m → job_map m' = <[j := st]> (job_map m) →
    (∀ i, multiplicity (InFlight i) R = multiplicity (InFlight i) f) → (∀ l, ToCancel l ∈ f → ToCancel l ∈ R) →
    job_ok j (tr ++ [Completed j]) R (Some st) → jobs_ok D m' (tr ++ [Completed j]) R) as Hstep.
  { intros st m1 R Hcap Hm Hfl Hcan Hjob. eapply (jobs_ok_step D m); [done|done|done|done| |auto|done|done].
    by intros x i ->%list_elem_of_singleton [= ->]. }
  unfold take_lease in Ht. destruct (job_map m !! j) as [[| |l|]|] eqn:Hst; injection Ht as <- <-; rewrite ?(left_id_L ∅ (⊎)).
  - apply (Hstep JobCancelRequested); [done..|]. split_and!; [lia|done|done|]. apply Hup, Hs.
  - apply (Hstep JobCancelRequested); [done|by rewrite insert_id|done..|]. split_and!; [lia|done|done|]. apply Hup, Hs.
  - apply (Hstep JobDone); [done|done| |multiset_solver|].
    { intros i. by rewrite in_flight_add, decide_False by done. }
    split_and!; [lia|by rewrite in_flight_add, decide_False by done|].
    intros l' [Hl|Hl%list_elem_of_singleton]%elem_of_app; [|done]. split; [done|]. left.
    rewrite (proj2 Hs l' Hl). multiset_solver.
  - apply (Hstep JobDone); [done|by rewrite insert_id|done..|]. split_and!; [lia|done|].
    intros l [Hl|Hl%list_elem_of_singleton]%elem_of_app; [|done]. destruct (Hs l Hl) as [_ [?|?]]; (split; [done|]).
    { by left. } { right. apply elem_of_app. by left. }
  - rewrite (evict_one_room D m tr f j Hok Hj Hst). apply (Hstep JobDone); [done..|]. split_and!; [lia|done|].
    intros l [Hl|Hl%list_elem_of_singleton]%elem_of_app; [|done]. destruct Hs as (_ & _ & Hp). by destruct (Hp l).
Qed.

Lemma cancel_step l m tr f :
  jobs_ok D m tr ({[+ ToCancel l +]} ⊎ f) → jobs_ok D m (tr ++ [CancelAsked l]) f.
Proof.
  intros (Hcap & Hdom & Hall). split_and!; [done..|]. intros j.
  apply (job_ok_frame _ _ ({[+ ToCancel l +]} ⊎ f)); [by intros x ->%list_elem_of_singleton| | |done].
  - by rewrite in_flight_add, decide_False by done.
  - intros l' [Hl|Hl]; [|right; apply elem_of_app; by left].
    destruct (decide (l' = l)) as [->|Hne]; [right; apply elem_of_app; right; left|left; multiset_solver].
Qed.
End steps.

Section jobs.
Context {P O : Type} {prov : BoxProvisioner P} {ext : External O}.
Context {json : SerdeJson} {codec : BindingCodec} {unicode : Unicode} {ejson : EnvelopeJson} {crypto : Crypto}.
Context {wjson : WebhookJson} {store : TokenStore O}.
Context (cfg : Config) (secret : option string) (auto : AutoscalerConfig) (D : gset Z).
Abbreviation W := (Autoscaler P O).
Implicit Types (w : W).

Definition job_inv w (R : JobRes) : Prop := jobs_ok D (jobs w) (trail w) R.
Definition job_rely w (R : JobRes) w' (R' : JobRes) : Prop := True.
Abbreviation moves r t ρ := (triple job_inv job_rely nothing_left (λ _ _, True) r t ρ (λ _ _ _, True)).

Lemma moves_atom {A} r (g : W → W * A) ρ :
  (∀ w f w' a, g w = (w', a) → job_inv w (r ⊎ f) → job_inv w' (ρ a ⊎ f)) → moves r (atomic g) ρ.
Proof. intros Hg. apply (triple_atom _ _ _ _ _ _ _ (λ _ _ _, True)); [by intros ? ? ? ? ? ? ?|]. intros w f w' a E Hi _. split_and!; [by eapply Hg|done..]. Qed.

Lemma moves_bind {A B} r (t : Task W A) ρ (k : A → Task W B) ρ' :
  moves r t ρ → (∀ a, moves (ρ a) (k a) ρ') → moves r (t ≫= k) ρ'.
Proof.
  intros Ht Hk. eapply (triple_seq _ _ _ (λ _ _, True)); [done|exact Ht|done|]. intros a.
  eapply triple_conseq; [|done|apply Hk]. done.
Qed.

Lemma moves_ret {A} r (a : A) ρ : r = ρ a → moves r (mret a : Task W A) ρ.
Proof. intros Hr. apply (triple_ret _ _ _ _ _ _ _ (λ _ _ _, True)); done. Qed.

Lemma moves_app {A B} r (t : Task (AppState P O) A) (k : A → Task W B) ρ :
  (∀ a, moves r (k a) ρ) → moves r (on_app t ≫= k) ρ.
Proof. intros Hk. eapply (triple_quiet_bind _ _ _ (λ _ _, True)); [done|by apply quiet_zoom|]. intros a _. apply Hk. Qed.

Definition recorded_tokens (r : RecordOutcome) : JobRes :=
  match r with Track => ∅ | RecordCancelNow l => {[+ ToCancel l +]} end.
Definition taken_tokens (r : TakeOutcome) : JobRes :=
  match r with TakeCancelNow l => {[+ ToCancel l +]} | Noted => ∅ end.
Definition claimed_tokens (j : Z) (r : ClaimOutcome) : JobRes :=
  match r with Fresh => {[+ InFlight j +]} | AlreadyTracked => ∅ end.

Lemma claim_job_moves j : j ∈ D → moves ∅ (claim_job j) (claimed_tokens j).
Proof.
  intros Hj. apply moves_atom. intros w f w' r E Hi. rewrite (left_id_L ∅ (⊎)) in Hi. unfold job_inv in *.
  destruct (claim j (jobs w)) as [m r'] eqn:Hc. injection E as <- ->.
  pose proof (claim_step D j _ _ _ _ _ Hi Hj Hc) as Hok. destruct r; [done|].
  by rewrite (right_id_L [] (++)) in Hok.
Qed.

Lemma record_job_moves j l : moves {[+ InFlight j +]} (record_job j l) recorded_tokens.
Proof.
  apply moves_atom. intros w f w' r E Hi. unfold job_inv in *.
  destruct (record_lease j l (jobs w)) as [m r'] eqn:Hr. injection E as <- ->.
  exact (record_step D j l _ _ _ _ _ Hi Hr).
Qed.

Lemma fail_job_moves j : moves {[+ InFlight j +]} (fail_job j) (λ _, ∅).
Proof.
  apply moves_atom. intros w f w' r [= <- <-] Hi. rewrite (left_id_L ∅ (⊎)). exact (fail_step D j _ _ _ Hi).
Qed.

Lemma take_job_moves j : j ∈ D → moves ∅ (take_job j) taken_tokens.
Proof.
  intros Hj. apply moves_atom. intros w f w' r E Hi. rewrite (left_id_L ∅ (⊎)) in Hi. unfold job_inv in *.
  destruct (take_lease j (jobs w)) as [m r'] eqn:Ht. injection E as <- ->.
  exact (take_step D j _ _ _ _ _ Hi Hj Ht).
Qed.

Lemma cancel_lease_moves l : moves {[+ ToCancel l +]} (cancel_lease cfg auto l) (λ _, ∅).
Proof.
  eapply (moves_bind _ _ (λ _, ∅)).
  - apply moves_atom. intros w f w' r [= <- <-] Hi. rewrite (left_id_L ∅ (⊎)). exact (cancel_step D l _ _ _ Hi).
  - intros _. apply moves_app. intros [t|]; [|by apply moves_ret]. apply moves_app. intros _. by apply moves_ret.
Qed.

Lemma handle_queued_moves e headers : je_id e ∈ D → moves ∅ (handle_queued cfg auto e headers) (λ _, ∅).
Proof.
  intros Hj. unfold handle_queued. destruct (negb _); [by apply moves_ret|]. destruct (negb _); [by apply moves_ret|].
  eapply moves_bind; [by apply claim_job_moves|]. intros []; cbn [claimed_tokens]; [|by apply moves_ret].
  eapply (moves_bind _ _ (λ _, {[+ InFlight (je_id e) +]})).
  { apply moves_app. intros [t|]; [|by apply moves_ret]. apply moves_app. intros r. by apply moves_ret. }
  intros [l|].
  - eapply moves_bind; [apply record_job_moves|]. intros []; cbn [recorded_tokens]; [by apply moves_ret|].
    eapply moves_bind; [apply cancel_lease_moves|]. intros ?. by apply moves_ret.
  - eapply moves_bind; [apply fail_job_moves|]. intros ?. by apply moves_ret.
Qed.

Lemma handle_completed_moves e : je_id e ∈ D → moves ∅ (handle_completed cfg auto e) (λ _, ∅).
Proof.
  intros Hj. eapply moves_bind; [by apply take_job_moves|]. intros []; cbn [taken_tokens]; [|by apply moves_ret].
  eapply moves_bind; [apply cancel_lease_moves|]. intros ?. by apply moves_ret.
Qed.

(** All jobs that are delivered. *)
Definition job_of (e : AutoEvent) : option Z :=
  match e with Delivers d => je_id <$> job_event_of_json (dv_body d) | _ => None end.

Lemma github_webhook_moves d :
  (∀ j, job_of (Delivers d) = Some j → j ∈ D) → moves ∅ (github_webhook cfg secret auto d) (λ _, ∅).
Proof.
  intros Hj. apply (github_webhook_cases cfg secret auto (λ t, moves ∅ t (λ _, ∅))).
  - intros a. by apply moves_ret.
  - intros g k Hg Hk. eapply (moves_bind _ _ (λ _, ∅)); [|done]. apply moves_atom.
    intros w f w' b E Hi. destruct (Hg w) as (s & b' & Hgw). rewrite Hgw in E. by injection E as <- _.
  - intros e s _ _ _ He. split; intros _; [apply handle_queued_moves|apply handle_completed_moves];
      apply Hj; cbn; by rewrite He.
Qed.

Lemma auto_handler_moves es : (∀ e j, e ∈ es → job_of e = Some j → j ∈ D) →
  Forall (handler_ok job_inv job_rely nothing_left) (spawned_by (auto_handler cfg secret auto <$> es)).
Proof.
  induction es as [|[d|r|i] es IH]; intros Hin; cbn; [constructor|..].
  - constructor; [|apply IH; set_solver]. eapply triple_handler, moves_bind; [apply github_webhook_moves; intros j; apply Hin; left|].
    intros a. by apply moves_ret.
  - constructor; [|apply IH; set_solver]. eapply triple_handler, moves_app. intros a. by apply moves_ret.
  - apply IH. set_solver.
Qed.
End jobs.

Section followed.
Context {P O : Type} {prov : BoxProvisioner P} {ext : External O}.
Context {json : SerdeJson} {codec : BindingCodec} {unicode : Unicode} {ejson : EnvelopeJson} {crypto : Crypto}.
Context {wjson : WebhookJson} {store : TokenStore O}.
Context (cfg : Config) (secret : option string) (auto : AutoscalerConfig).

Definition delivered_jobs (es : list AutoEvent) : gset Z := list_to_set (omap job_of es).

(** C6: A lease follows its job.  Let the table have room for all jobs that are
    delivered.  Then in every interleaving of deliveries and requests a job is
    provisioned for at most once, however often and in whatever order its events
    arrive; and when all handlers have finished, a lease that was provisioned for a
    job has been handed to a cancellation if the job was completed, before, while
    or after it was provisioned, and is still bound to the job if it was not. *)
Theorem lease_follows_its_job es (a : AppState P O) seen cap :
  (size (delivered_jobs es) ≤ cap)%nat →
  let '(ts, w) := auto_serve cfg secret auto es (mkAutoscaled a (jobs_new cap) seen []) in
  (∀ j, (claims j (trail w) ≤ 1)%nat) ∧
  (quiescent ts → ∀ j l, Provisioned j l ∈ trail w →
     if decide (Completed j ∈ trail w) then CancelAsked l ∈ trail w
     else job_map (jobs w) !! j = Some (JobHeld l)).
Proof.
  intros Hcap. destruct (runtime_invariant (W := Autoscaler P O) (job_inv (delivered_jobs es)) job_rely nothing_left
    (auto_handler cfg secret auto <$> es) (mkAutoscaled a (jobs_new cap) seen [])) as (R & Hi & Hq).
  - apply auto_handler_moves. intros e j He Hj. apply elem_of_list_to_set, list_elem_of_omap. eauto.
  - split_and!; cbn; [lia|set_solver|]. intros j. rewrite lookup_empty. split_and!; cbn; try done; try lia.
    + by intros ?%elem_of_nil.
    + by intros l ?%elem_of_nil.
  - unfold auto_serve. destruct (runtime _ _) as [ts w]. cbn [fst snd] in *. destruct Hi as (_ & _ & Hall).
    split; [intros j; apply Hall|]. intros Hquiet j l Hl. rewrite (Hq Hquiet) in Hall.
    destruct (Hall j) as (_ & Hn & Hs). rewrite multiplicity_empty in Hn.
    destruct (job_map (jobs w) !! j) as [[| |l'|]|] eqn:Hst; [done|done|..].
    + destruct Hs as [Hco Hp]. rewrite decide_False by done. by rewrite (Hp l Hl).
    + destruct (Hs l Hl) as [Hco [?%gmultiset_elem_of_empty|?]]; [done|]. by rewrite decide_True.
    + destruct Hs as (_ & _ & Hp). by destruct (Hp l).
Qed.
End followed.

(** ** The books of the server *)

(** A look into the token store gives out no lease id. *)
Class TokenStoreLaws (O : Type) {ext : External O} {xlaws : ExternalLaws O} {store : TokenStore O} : Prop :=
  keep_tenant_of pat : keeps_issued (store_tenant_of pat).

Section books.
Context {P O : Type} {prov : BoxProvisioner P} {ext : External O}.
Context {json : SerdeJson} {codec : BindingCodec} {unicode : Unicode} {ejson : EnvelopeJson} {crypto : Crypto}.
Context {blaws : BoxLaws P} {xlaws : ExternalLaws O}.
Context {wjson : WebhookJson} {store : TokenStore O} {slaws : TokenStoreLaws O}.
Context (cfg : Config) (secret : option string) (auto : AutoscalerConfig).
Abbreviation W := (Autoscaler P O).
Implicit Types (w : W).

Definition app_inv w (R : Res) : Prop := inv (app w) R.
Definition app_rely w (R : Res) w' (R' : Res) : Prop := rely (app w) R (app w') R'.
Abbreviation behaves t := (triple app_inv app_rely droppable (λ _ _, True) ∅ t (λ _, ∅) (λ _ _ _, True)).

Lemma behaves_app {A} (t : Task (AppState P O) A) :
  triple inv rely droppable (λ _ _, True) ∅ t (λ _, ∅) (λ _ _ _, True) → behaves (on_app t).
Proof. intros Ht. exact (safe_zoom app set_app inv rely _ _ _ t (λ _ _, eq_refl) Ht). Qed.

Lemma behaves_ret {A} (a : A) : behaves (mret a : Task W A).
Proof. apply (triple_ret _ _ _ _ _ _ _ (λ _ _ _, True)); done. Qed.

Lemma behaves_bind {A B} (t : Task W A) (k : A → Task W B) : behaves t → (∀ a, behaves (k a)) → behaves (t ≫= k).
Proof.
  intros Ht Hk. eapply (triple_seq _ _ _ (λ _ _, True)); [done|exact Ht|done|]. intros a.
  eapply triple_conseq; [|done|apply Hk]. done.
Qed.

(** An access to what is not the server's. *)
Lemma behaves_beside {A} (g : W → W * A) : (∀ w, app (g w).1 = app w) → behaves (atomic g).
Proof.
  intros Hg. apply (triple_atom _ _ _ _ _ _ _ (λ _ _ _, True)); [by intros ? ? ? ? ? ? ?|].
  intros w f w' a E Hi _. specialize (Hg w). rewrite E in Hg. cbn in Hg. unfold app_inv, app_rely in *. rewrite Hg.
  destruct (core_keeps (app w) (app w) (∅ ⊎ f)) as [? ?]; [by constructor|done|]. by split_and!.
Qed.

Lemma resolve_tenant_behaves : behaves (resolve_tenant auto).
Proof. apply behaves_app, triple_last; [done|]. apply quiet_ask, keep_tenant_of. Qed.

Lemma cancel_lease_behaves l : behaves (cancel_lease cfg auto l).
Proof.
  apply behaves_bind; [by apply behaves_beside|]. intros _.
  apply behaves_bind; [apply resolve_tenant_behaves|]. intros [t|]; [|apply behaves_ret].
  apply behaves_bind; [apply behaves_app, cancel_ok|]. intros _. apply behaves_ret.
Qed.

Lemma handle_queued_behaves e headers : behaves (handle_queued cfg auto e headers).
Proof.
  unfold handle_queued. destruct (negb _); [apply behaves_ret|]. destruct (negb _); [apply behaves_ret|].
  apply behaves_bind; [apply behaves_beside; intros w; by destruct (claim _ _) as [m []]|].
  intros []; [|apply behaves_ret]. apply behaves_bind.
  { apply behaves_bind; [apply resolve_tenant_behaves|]. intros [t|]; [|apply behaves_ret].
    apply behaves_bind; [|intros r; apply behaves_ret]. apply behaves_app, acquire_ok. apply acquire_queued_ok. }
  intros [l|].
  - apply behaves_bind; [apply behaves_beside; intros w; by destruct (record_lease _ _ _)|].
    intros []; [apply behaves_ret|]. apply behaves_bind; [apply cancel_lease_behaves|]. intros _. apply behaves_ret.
  - apply behaves_bind; [by apply behaves_beside|]. intros _. apply behaves_ret.
Qed.

Lemma github_webhook_behaves d : behaves (github_webhook cfg secret auto d).
Proof.
  apply (github_webhook_cases cfg secret auto (λ t, behaves t)).
  - intros a. apply behaves_ret.
  - intros g k Hg Hk. apply behaves_bind; [|done]. apply behaves_beside. intros w. by destruct (Hg w) as (s & b & ->).
  - intros e s _ _ _ _. split; intros _; [apply handle_queued_behaves|]. apply behaves_bind.
    { apply behaves_beside. intros w. by destruct (take_lease _ _). }
    intros []; [|apply behaves_ret]. apply behaves_bind; [apply cancel_lease_behaves|]. intros _. apply behaves_ret.
Qed.

Lemma auto_handler_behaves es :
  Forall (handler_ok app_inv app_rely droppable) (spawned_by (auto_handler cfg secret auto <$> es)).
Proof.
  induction es as [|[d|r|i] es IH]; cbn; [constructor|..|exact IH]; (constructor; [|exact IH]).
  - eapply triple_handler, behaves_bind; [apply github_webhook_behaves|]. intros a. apply behaves_ret.
  - unfold handler_ok. eapply safe_bind.
    + exact (safe_zoom app set_app inv rely _ _ _ _ (λ _ _, eq_refl) (handler_safe cfg r)).
    + intros a r'. by apply safe_ret.
Qed.

(** C5: An autoscaled server keeps its books.  With deliveries of GitHub and requests
    of tenants interleaved in any way, every running box still belongs to a lease
    that is pending or held, and when all handlers have finished the slots of
    every tenant are the leases it holds. *)
Theorem autoscaled_server_keeps_its_books es w :
  starts (app w) → let '(ts, w') := auto_serve cfg secret auto es w in
  (∀ id, live (provisioner (app w')) id →
     ∃ rec, records (ledger (app w')) !! id = Some rec ∧ lease_id rec = id ∧ is_active rec) ∧
  (quiescent ts → ∀ t, slots_of (exported (app w')) t = held_of (ledger (app w')) t).
Proof.
  intros Hs. destruct (runtime_invariant app_inv app_rely droppable (auto_handler cfg secret auto <$> es) w)
    as (R & Hi & Hq); [apply auto_handler_behaves|by apply starts_inv|].
  unfold auto_serve. destruct (runtime _ _) as [ts w']. cbn [fst snd] in *. split.
  - intros id Hl. by apply (inv_box _ R).
  - intros Hquiet t. apply (inv_balance _ R); auto.
Qed.
End books.

(** ** A table without room *)

(** A full table can lose a lease.  Let the table be full of jobs that are under
    way, the oldest one still being provisioned for.  When another job is queued,
    the oldest is evicted; if it is completed then, it gets a tombstone; and the
    lease that its provisioning comes back with is neither cancelled nor bound to
    any job, so that no completion will ever cancel it. *)
Theorem full_table_loses_a_lease m j k l order :
  job_order m = j :: order → job_map m !! j = Some JobProvisioning → job_map m !! k = None →
  (job_cap m ≤ size (job_map m))%nat →
  (∀ i, job_map m !! i ≠ Some JobDone) → (∀ i, job_map m !! i ≠ Some (JobHeld l)) →
  let m1 := (claim k m).1 in
  let '(m2, taken) := take_lease j m1 in
  let '(m3, recorded) := record_lease j l m2 in
  taken = Noted ∧ recorded = Track ∧ ∀ i, job_map m3 !! i ≠ Some (JobHeld l).
Proof.
  intros Ho Hj Hk Hfull Hlive Hfresh. assert (j ≠ k) as Hjk by congruence.
  assert (∀ m', (∀ i, job_map m' !! i ≠ Some (JobHeld l)) → ∀ i, job_map (evict_one m') !! i ≠ Some (JobHeld l)) as Hev.
  { intros m' Hm' i. unfold evict_one. case_bool_decide; [apply Hm'|].
    destruct (list_find _ _) as [[pos d]|]; [|destruct (job_order m') as [|d ?]; [apply Hm'|]]; cbn; intros [_ ?]%lookup_delete_Some; by apply (Hm' i). }
  assert (∀ i st m', st ≠ JobHeld l → (∀ i, job_map m' !! i ≠ Some (JobHeld l)) → ∀ i', job_map (push_job i st m') !! i' ≠ Some (JobHeld l)) as Hpush.
  { intros i st m' Hst Hm' i'. cbn. intros [[_ ?]|[_ ?]]%lookup_insert_Some; [congruence|by apply (Hm' i')]. }
  unfold claim. rewrite Hk. cbn [fst]. set (m1 := push_job k JobProvisioning (evict_one m)).
  assert (job_map m1 !! j = None) as Hj1.
  { unfold m1, push_job, evict_one. rewrite bool_decide_false by lia.
    destruct (list_find _ _) as [[pos d]|] eqn:E; [apply list_find_Some in E as (_ & Hd & _); by destruct (Hlive d)|].
    rewrite Ho. cbn. by rewrite lookup_insert_ne, lookup_delete_eq. }
  unfold take_lease. rewrite Hj1. unfold record_lease. cbn [push_job job_map]. rewrite lookup_insert_eq.
  split_and!; [done..|]. apply Hpush; [done|]. apply Hev. unfold m1. by apply Hpush, Hev.
Qed.
