(* ===== verification/WebhookRuns.v ===== *)
(** * The autoscaler: runs

    One job in the small world of the service's runs, with deliveries signed under
    a secret: its completion arrives while its runner is being provisioned.  The
    theorems about every run are applied to this one. *)
From S2P Require Import Prelude Tenant Ledger LedgerSafety Journal Text Lease Boxes BoxLaws BoxTheorems Task Envelope Attest Shard State Service ServiceLogic ServiceTheorems ServiceRuns Webhook WebhookProofs.

#[export] Instance small_payloads : WebhookJson := λ body,
  match body with
  | "q" => Some (mkJobEvent "queued" 7 ["corelink"] "repo" "owner")
  | "c" => Some (mkJobEvent "completed" 7 ["corelink"] "repo" "owner")
  | _ => None
  end.
#[export] Instance small_store : TokenStore nat := λ _ n, (n, Some acme).
#[export] Instance small_store_laws : TokenStoreLaws nat.
Proof. done. Qed.

Definition small_autoscaler : AutoscalerConfig :=
  mkAutoscaler "pat" pinned ["corelink"] "/tmp/x" 60000 (Some [("owner", "repo")]) 8.
Definition broker_mode : Config := mkConfig None Reject true false false None false None (λ id, id) (λ id, id) "key" false.
Definition signed (guid body : string) : AutoEvent :=
  Delivers (mkDelivery (Some ("sha256=" +:+ Attest.lower_hex (hmac_sha256 "s" body))) (Some guid) (Some "workflow_job") no_headers body).
Definition forged (guid body : string) : AutoEvent :=
  Delivers (mkDelivery (Some ("sha256=" +:+ Attest.lower_hex (hmac_sha256 "t" body))) (Some guid) (Some "workflow_job") no_headers body).
Definition steps (i n : nat) : list AutoEvent := replicate n (AutoRuns i).

(** The job is queued, a forged copy is refused, a second delivery of it is
    deduplicated, and it is completed before its lease is known. *)
Definition raced_run : list AutoEvent :=
  [signed "1" "q"] ++ steps 0 6 ++ [forged "2" "q"; signed "3" "q"] ++ steps 2 10 ++
  [signed "4" "c"] ++ steps 3 10 ++ steps 0 200.
Definition auto_start : Autoscaler (Bound (gmap string (string * bool))) nat :=
  mkAutoscaled small_start (jobs_new 8) (seen_new 8) [].
Definition raced : list (Task (Autoscaler (Bound (gmap string (string * bool))) nat) (WebhookReply + Reply)) *
    Autoscaler (Bound (gmap string (string * bool))) nat :=
  auto_serve broker_mode (Some "s") small_autoscaler raced_run auto_start.

Lemma raced_eq : auto_serve broker_mode (Some "s") small_autoscaler raced_run auto_start = raced.
Proof. unfold raced. reflexivity. Qed.
Lemma raced_trail : trail raced.2 = [Claimed 7; Completed 7; Provisioned 7 "l"; CancelAsked "l"].
Proof. vm_compute. reflexivity. Qed.

(** All four handlers have finished; the copy and the forgery got their answers. *)
Definition reply_of (t : Task (Autoscaler (Bound (gmap string (string * bool))) nat) (WebhookReply + Reply)) :
    option (WebhookReply + Reply) := match t with Now r => Some r | Later _ _ => None end.
Lemma raced_replies :
  reply_of <$> raced.1 =
    [Some (inl (Ack "provisioned then immediately cancelled (completed raced provision)")); Some (inl BadSignature);
     Some (inl (Ack "deduped: job already tracked")); Some (inl (Ack "noted: no live lease to cancel for this job"))].
Proof. vm_compute. reflexivity. Qed.

Lemma only_signed_jobs_are_served_witness :
  ∃ e, signed_event (Some "s") raced_run "queued" e ∧ je_id e = 7 ∧ for_us small_autoscaler e.
Proof.
  pose proof (only_signed_jobs_are_served broker_mode (Some "s") small_autoscaler raced_run auto_start eq_refl) as H.
  cbv zeta in H. rewrite raced_eq, raced_trail in H. apply H. left.
Defined.

Lemma lease_follows_its_job_witness :
  (claims 7 (trail raced.2) ≤ 1)%nat ∧ CancelAsked "l" ∈ trail raced.2.
Proof.
  pose proof (lease_follows_its_job broker_mode (Some "s") small_autoscaler raced_run small_start (seen_new 8) 8) as H.
  fold auto_start in H. rewrite raced_eq in H.
  assert (size (delivered_jobs raced_run) ≤ 8)%nat as Hsize by (vm_compute; lia).
  specialize (H Hsize). rewrite (surjective_pairing raced) in H. destruct H as [Hc Hq]. split; [apply Hc|].
  assert (quiescent raced.1) as Hdone by (vm_compute; repeat constructor).
  specialize (Hq Hdone 7 "l"). rewrite raced_trail in Hq |- *. clear Hc Hdone.
  destruct (decide (Completed 7 ∈ _)) as [_|[]]; [apply Hq; do 2 right; left|right; left].
Defined.

Lemma autoscaled_server_keeps_its_books_witness :
  slots_of (exported (app raced.2)) acme = held_of (ledger (app raced.2)) acme ∧ held_of (ledger (app raced.2)) acme = 0.
Proof.
  split; [|vm_compute; reflexivity].
  pose proof (autoscaled_server_keeps_its_books broker_mode (Some "s") small_autoscaler raced_run auto_start small_starts) as H.
  rewrite raced_eq in H.
  rewrite (surjective_pairing raced) in H. apply H. vm_compute. repeat constructor.
Defined.

(** The box that was started for the job is gone again. *)
Lemma raced_box_gone : ¬ live (provisioner (app raced.2)) "l".
Proof. intros (h & b & H). revert H. vm_compute. naive_solver. Qed.

Lemma replay_guard_is_exact_witness :
  (check_and_record "a" (guard_run 2 ["a"; "b"]).1).2 = true ↔ "a" ∉ ["a"; "b"].
Proof. exact (replay_guard_is_exact 2 ["a"; "b"] "a" ltac:(lia)). Defined.

(** A table for two jobs, one of them with its lease, one still without. *)
Lemma full_table_loses_a_lease_witness :
  let m := mkJobs {[1 := JobProvisioning; 2 := JobHeld "k"]} [1; 2] 2 in
  let '(m2, taken) := take_lease 1 (claim 3 m).1 in
  let '(m3, recorded) := record_lease 1 "l" m2 in
  taken = Noted ∧ recorded = Track ∧ ∀ i, job_map m3 !! i ≠ Some (JobHeld "l").
Proof.
  refine (full_table_loses_a_lease (mkJobs {[1 := JobProvisioning; 2 := JobHeld "k"]} [1; 2] 2) 1 3 "l" [2] eq_refl eq_refl eq_refl _ _ _).
  - vm_compute. lia.
  - intros i. cbn. rewrite lookup_insert_Some, lookup_singleton_Some. naive_solver.
  - intros i. cbn. rewrite lookup_insert_Some, lookup_singleton_Some. naive_solver.
Defined.

Lemma ingest_token_opens_one_lease_witness :
  verify_ingest_token "k" "a" (signer_ingest_token "k" "a") = true ∧ verify_ingest_token "k" "b" (signer_ingest_token "k" "a") = false.
Proof.
  destruct (ingest_token_opens_one_lease "k" "a" "b" (signer_ingest_token "k" "a")) as [H _]; [done|].
  split; [by apply H|vm_compute; reflexivity].
Defined.
