(* ===== verification/Exec.v ===== *)
(** * Execution: [handlers/exec_handler.rs] and [handlers/agent_exec.rs]

    A check runs in the box of a held lease and its result is attested; a command
    of an agent lease is dispatched, and its outcome is polled.  The handlers read
    the ledger, the side tables and the clock one access at a time, so a lease can
    end while a check runs; the commands themselves go through the execution port
    of the provisioner. *)
From stdpp Require Import pretty.
From S2P Require Import Prelude Tenant Ledger Journal Text Lease Boxes Task Envelope Attest State Service.

(** [trait LeasedExec], and the ids of steps. *)
Class LeasedExec (P : Type) : Type := exec_captured_for : string → list string → P → P * option CmdOutput.
Class StepIds (O : Type) : Type := ext_step_id : O → O * string.

(** [struct AgentExecRequest]; the environment is a [BTreeMap], in its order. *)
Record AgentExecRequest : Type := mkAgentExec {
  ax_argv : list string;
  ax_workdir : string;
  ax_env : list (string * string);
  ax_timeout_ms : Z;
}.

Inductive ExecReply : Type :=
| ExecResponse (r : CheckResult) (attestation : AttestationChain) (sig sig_v2 key_id : string)
| ExecAck (lease step : string)
| ExecRunning (step : string)
| ExecResult (r : AgentExecResult)
| ExecError (e : ApiError)
| ExecPanicked.

(** ** Captured output *)
Definition CAPTURE_CEILING : nat := N.to_nat 262144.

(** [str::is_char_boundary] on a text longer than [i]: not a continuation byte. *)
Definition is_char_boundary (s : string) (i : nat) : bool :=
  match i, String.get i s with
  | O, _ => true
  | _, None => (i =? String.length s)%nat
  | _, Some c => negb (in_range 128 191 c)
  end.
Fixpoint boundary_below (s : string) (end_ : nat) : nat :=
  match end_ with
  | O => O
  | S n => if is_char_boundary s end_ then end_ else boundary_below s n
  end.
Definition truncate_capture (s : string) : string * bool :=
  if bool_decide (String.length s ≤ CAPTURE_CEILING)%nat then (s, false)
  else (String.substring 0 (boundary_below s CAPTURE_CEILING) s, true).

(** [wrapped_argv]. *)
Definition wrapped_argv (req : AgentExecRequest) : list string :=
  let secs := Z.max 1 ((ax_timeout_ms req + 999) `div` 1000) in
  (if String.eqb (ax_workdir req) "" && bool_decide (ax_env req = []) then []
   else "env" :: (if String.eqb (ax_workdir req) "" then [] else ["--chdir=" +:+ ax_workdir req]) ++
        ((λ kv, kv.1 +:+ "=" +:+ kv.2) <$> ax_env req)) ++
  ["timeout"; "-k"; "5"; pretty secs] ++ ax_argv req.

Section handlers.
Context {P O : Type} {prov : BoxProvisioner P} {ext : External O} {leased : LeasedExec P} {ids : StepIds O}.
Context {crypto : Crypto}.
Context (cfg : Config).
Abbreviation W := (AppState P O).

(** The lookup both handlers begin with: a held lease of the tenant. *)
Definition held_lease (t : TenantId) (id : string) : Task W (ExecReply + LeaseRecord) :=
  rec ← ledger_read (λ s, Mem.get s id);
  mret (match rec with
        | Err _ => inl (ExecError FailClosed)
        | Ok None => inl (ExecError NotFound)
        | Ok (Some r) =>
          if negb (bool_decide (tenant r = t)) then inl (ExecError NotFound)
          else match state r with
          | Pending => inl (ExecError NotFound)
          | Wire Held => inr r
          | Wire _ => inl (ExecError Invalid)
          end
        end).

(** [exec_captured_for] on the box of a lease. *)
Definition run_on_box (id : string) (argv : list string) : Task W (option CmdOutput) :=
  prov_op (exec_captured_for id argv).

(** [run_check] on the blocking pool: two reads of the clock around the run. *)
Definition run_check_task (id : string) (def : CheckDef) (tree runner : string) : Task W (option CheckResult) :=
  started ← now_ms;
  out ← run_on_box id ["sh"; "-lc"; d_command def];
  produced ← now_ms;
  mret (run_check (λ _ _, out) id def tree started produced runner).

(** The refusals between the lookup and the run. *)
Definition exec_gates (id : string) (def : CheckDef) (rec : LeaseRecord) : Task W (option ApiError) :=
  runner ← is_runner_lease id;
  if (runner : bool) then mret (Some Invalid)
  else
    agent ← is_agent_lease id;
    if (agent : bool) then mret (Some Invalid)
    else
      stored ← toolchain_digest_of id;
      if (match stored with Some d => negb (String.eqb (d_toolchain_ref def) d) | None => false end)
      then mret (Some Invalid)
      else match deadline_ms rec with
      | None => mret (Some FailClosed)
      | Some deadline =>
        now ← now_ms;
        if deadline <=? now then mret (Some Invalid)
        else
          image ← image_of id;
          mret (match image with None => Some FailClosed | Some _ => None end)
      end.

(** [build_attestation] and the two bindings. *)
Definition attest_exec (t : TenantId) (tree : string) (def : CheckDef) (r : CheckResult) :
    option (AttestationChain * string * string) :=
  chain ← chain_over (signer_key cfg) tree (d_def_digest def) (runner_ref r) ["tenant:" +:+ as_str t];
  v1 ← sign_result_binding (signer_key cfg) r;
  v2 ← sign_result_binding_v2 (signer_key cfg) r;
  Some (chain, v1, v2).

(** [exec]. *)
Definition exec (t : TenantId) (id tree : string) (def : CheckDef) : Task W ExecReply :=
  held ← held_lease t id;
  match held with
  | inl e => mret e
  | inr rec =>
    refused ← exec_gates id def rec;
    match refused with
    | Some e => mret (ExecError e)
    | None =>
      result ← run_check_task id def tree (box_ref rec);
      panicked ← ask ext_task_panics;
      match (if (panicked : bool) then None else result) with
      | None => mret (ExecError FailClosed)
      | Some r =>
        again ← ledger_read (λ s, Mem.get s id);
        match again with
        | Ok (Some rec') =>
          if bool_decide (tenant rec' = t) && bool_decide (state rec' = Wire Held) then
            mret (match attest_exec t tree def r with
                  | Some (chain, v1, v2) => ExecResponse r chain v1 v2 (key_id (signer_key cfg))
                  | None => ExecPanicked
                  end)
          else mret (ExecError FailClosed)
        | _ => mret (ExecError FailClosed)
        end
      end
    end
  end.

(** ** Agent steps *)

(** What a captured outcome becomes. *)
Definition step_outcome (step : string) (out : option CmdOutput) (duration : Z) : AgentStepState :=
  match out with
  | Some out =>
    match code out with
    | Some exit_code =>
      let '(so, so_cut) := truncate_capture (stdout out) in
      let '(se, se_cut) := truncate_capture (stderr out) in
      StepDone (mkExecResult step exit_code so se duration (so_cut || se_cut))
    | None => StepFailed
    end
  | None => StepFailed
  end.

(** Only a step that is still there is updated. *)
Definition update_step (step : string) (st : AgentStepState) : Task W unit :=
  on_tables (with_agent_steps (alter (λ e, mkStep (step_lease e) st) step)).

(** The dispatched work. *)
Definition agent_worker (id step : string) (argv : list string) : Task W unit :=
  started ← now_ms;
  out ← run_on_box id argv;
  finished ← now_ms;
  let st := step_outcome step out (finished -sat started) in
  incr (match st with StepDone _ => agent_exec_done | _ => agent_exec_failed end);;
  update_step step st.

(** [agent_exec]; the work goes on after the acknowledgement, which is sent when
    the step has been registered. *)
Definition agent_exec (t : TenantId) (id : string) (req : AgentExecRequest) : Task W ExecReply :=
  match ax_argv req with
  | [] => mret (ExecError Invalid)
  | _ =>
    held ← held_lease t id;
    match held with
    | inl e => mret e
    | inr rec =>
      agent ← is_agent_lease id;
      if negb (agent : bool) then mret (ExecError Invalid)
      else match deadline_ms rec with
      | None => mret (ExecError FailClosed)
      | Some deadline =>
        now ← now_ms;
        if deadline <=? now then mret (ExecError Invalid)
        else
          step ← ask ext_step_id;
          agent_step_begin step id;;
          incr agent_exec_started;;
          agent_worker id step (wrapped_argv req);;
          mret (ExecAck id step)
      end
    end
  end.

(** [agent_exec_poll]. *)
Definition agent_exec_poll (t : TenantId) (id step : string) : Task W ExecReply :=
  rec ← ledger_read (λ s, Mem.get s id);
  match rec with
  | Err _ => mret (ExecError FailClosed)
  | Ok None => mret (ExecError NotFound)
  | Ok (Some r) =>
    if negb (bool_decide (tenant r = t)) then mret (ExecError NotFound)
    else
      entry ← agent_step_get step;
      mret (match entry with
            | None => ExecError NotFound
            | Some e =>
              if negb (String.eqb (step_lease e) id) then ExecError NotFound
              else match step_state e with
              | StepRunning => ExecRunning step
              | StepDone r => ExecResult r
              | StepFailed => ExecError FailClosed
              end
            end)
  end.
End handlers.
