(* ===== verification/ExecProofs.v ===== *)
(** * Execution: proofs

    A check is attested only for a lease that was the tenant's and held both before
    and after it ran, and what is attested is what ran; a refused check runs nothing.
    Agent steps come to an end, with their output cut at the ceiling, and are read
    only by the tenant of their lease. *)
From stdpp Require Import gmultiset.
From S2P Require Import Prelude Tenant Ledger Journal Text Lease Boxes Task Envelope Attest AttestProofs State Service ServiceTheorems Exec.

(** ** Captured output *)
Lemma boundary_below_spec s n :
  (boundary_below s n ≤ n)%nat ∧ is_char_boundary s (boundary_below s n) = true ∧
  ∀ m, (m ≤ n)%nat → is_char_boundary s m = true → (m ≤ boundary_below s n)%nat.
Proof.
  induction n as [|n (IH1 & IH2 & IH3)]; cbn [boundary_below]; [split_and!; [lia|done|lia]|].
  destruct (is_char_boundary s (S n)) eqn:E; split_and!; try done; try lia.
  intros m Hm Hb. destruct (decide (m = S n)) as [->|]; [congruence|]. apply IH3; [lia|done].
Qed.

Lemma substring_prefix s n : (n ≤ String.length s)%nat →
  ∃ rest, s = String.substring 0 n s +:+ rest ∧ String.length (String.substring 0 n s) = n.
Proof.
  revert n. induction s as [|c s IH]; intros [|n] Hn; cbn in *; [by exists ""|lia|by exists (String c s)|].
  destruct (IH n) as (rest & Hs & Hl); [lia|]. exists rest. split; [|by rewrite Hl].
  change (String c (String.substring 0 n s) +:+ rest) with (String c (String.substring 0 n s +:+ rest)). by rewrite <-Hs.
Qed.

Lemma capture_bound s : (String.length (truncate_capture s).1 ≤ CAPTURE_CEILING)%nat.
Proof.
  unfold truncate_capture. generalize CAPTURE_CEILING. intros ceiling. case_bool_decide as Hl; [done|]. cbn [fst].
  destruct (boundary_below_spec s ceiling) as (H1 & _ & _).
  destruct (substring_prefix s (boundary_below s ceiling)) as (rest & _ & ->); lia.
Qed.

(** Captured output is cut at the ceiling and nowhere else.  What is kept is the
    beginning of the output, at most 256 KiB of it; the flag is set exactly if
    something was cut; and the cut is at the last place below the ceiling where no
    character is split. *)
Theorem capture_is_cut_at_the_ceiling s :
  let '(kept, cut) := truncate_capture s in
  (String.length kept ≤ CAPTURE_CEILING)%nat ∧ (∃ rest, s = kept +:+ rest ∧ (cut = false → rest = "")) ∧
  (cut = true ↔ CAPTURE_CEILING < String.length s)%nat ∧
  (cut = true → is_char_boundary s (String.length kept) = true ∧
     ∀ m, (m ≤ CAPTURE_CEILING)%nat → is_char_boundary s m = true → (m ≤ String.length kept)%nat).
Proof.
  unfold truncate_capture. generalize CAPTURE_CEILING. intros ceiling. case_bool_decide as Hl.
  - split_and!; [done| |split; [done|lia]|done]. exists "". split; [by rewrite string_app_nil_r|done].
  - destruct (boundary_below_spec s ceiling) as (H1 & H2 & H3).
    destruct (substring_prefix s (boundary_below s ceiling)) as (rest & Hs & Hlen); [lia|].
    rewrite Hlen. split_and!; [lia|by exists rest|split; [lia|done]|done].
Qed.

(** ** The server with the execution routes *)
Inductive ExecArrival : Type :=
| Check (t : TenantId) (id tree : string) (def : CheckDef)
| AgentRun (t : TenantId) (id : string) (req : AgentExecRequest)
| Poll (t : TenantId) (id step : string)
| Other (r : Request).
Inductive ExecEvent : Type := Arrives (x : ExecArrival) | ExecRuns (i : nat).
Definition arrivals (es : list ExecEvent) : list ExecArrival :=
  omap (λ e, match e with Arrives x => Some x | ExecRuns _ => None end) es.

Section server.
Context {P O : Type} {prov : BoxProvisioner P} {ext : External O} {leased : LeasedExec P} {ids : StepIds O}.
Context {json : SerdeJson} {codec : BindingCodec} {unicode : Unicode} {ejson : EnvelopeJson} {crypto : Crypto}.
Context (cfg : Config).
Abbreviation W := (AppState P O).
Implicit Types (w : W).

Definition exec_handler (x : ExecArrival) : Task W (ExecReply + Reply) :=
  match x with
  | Check t id tree def => a ← exec cfg t id tree def; mret (inl a)
  | AgentRun t id req => a ← agent_exec t id req; mret (inl a)
  | Poll t id step => a ← agent_exec_poll t id step; mret (inl a)
  | Other r => a ← handler cfg r; mret (inr a)
  end.
Definition exec_event (e : ExecEvent) : event W (ExecReply + Reply) :=
  match e with Arrives x => Spawn (exec_handler x) | ExecRuns i => Sched i end.
Definition exec_serve (es : list ExecEvent) w : list (Task W (ExecReply + Reply)) * W :=
  runtime (exec_event <$> es) ([], w).
Definition exec_states (es : list ExecEvent) w : list W := run_states (exec_event <$> es) ([], w).

Lemma arrivals_spawned es : spawned_by (exec_event <$> es) = exec_handler <$> arrivals es.
Proof. induction es as [|[x|i] es IH]; cbn; [done|by f_equal|done]. Qed.

Lemma answer_sees es w i x a :
  arrivals es !! i = Some x → (exec_serve es w).1 !! i = Some (Now a) →
  ∃ ws, sees (exec_handler x) ws a ∧ ws `sublist_of` exec_states es w.
Proof.
  intros Hx Ha. eapply runtime_sees; [|exact Ha]. cbn. by rewrite arrivals_spawned, list_lookup_fmap, Hx.
Qed.

(** ** What the accesses saw *)
Lemma sees_ask {A} (f : O → O * A) ws a : sees (ask f : Task W A) ws a → ∃ w, ws = [w] ∧ a = (f (outside w)).2.
Proof. intros (w & -> & ->)%sees_atomic. exists w. split; [done|]. unfold asks. by destruct (f (outside w)). Qed.

Lemma sees_read {A} (f : W → A) ws a : sees (read f) ws a → ∃ w, ws = [w] ∧ a = f w.
Proof. intros (w & -> & ->)%sees_atomic. by exists w. Qed.

Lemma sees_get id ws r :
  sees (ledger_read (λ s, Mem.get s id) : Task W _) ws r →
  ∃ w, ws = [w] ∧ (r = Err Poisoned ∨ r = Ok (records (ledger w) !! id)).
Proof.
  intros (w & -> & ->)%sees_atomic. exists w. split; [done|]. unfold calls_ledger, asks.
  destruct (ext_ledger_up (outside w)) as [o []]; [by right|by left].
Qed.

Lemma sees_box id argv ws out :
  sees (run_on_box id argv : Task W _) ws out → ∃ w, ws = [w] ∧ out = (exec_captured_for id argv (provisioner w)).2.
Proof.
  intros (w & -> & ->)%sees_atomic. exists w. split; [done|]. unfold calls_prov.
  by destruct (exec_captured_for id argv (provisioner w)).
Qed.

Lemma sees_held t id ws rec :
  sees (held_lease t id) ws (inr rec) →
  ∃ w, ws = [w] ∧ records (ledger w) !! id = Some rec ∧ tenant rec = t ∧ state rec = Wire Held.
Proof.
  intros (ws1 & ws2 & r & -> & (w & -> & Hr)%sees_get & [-> Ha]%sees_ret)%sees_bind. exists w. split; [done|].
  destruct Hr as [-> | ->]; [done|]. destruct (records (ledger w) !! id) as [rec'|]; [|done].
  case_bool_decide as Ht; [|done]. cbn [negb] in Ha. destruct (state rec') as [|[]] eqn:Hst; try done. by injection Ha as ->.
Qed.

Lemma sees_gates id def rec ws :
  sees (exec_gates id def rec) ws None →
  ∃ w1 w2 w3 w4 w5 d, ws = [w1; w2; w3; w4; w5] ∧ (id ∉ runner_leases (tables w1)) ∧ (id ∉ agent_leases (tables w2)) ∧
    (∀ dg, toolchain_digests (tables w3) !! id = Some dg → d_toolchain_ref def = dg) ∧
    deadline_ms rec = Some d ∧ (ext_now (outside w4)).2 < d.
Proof.
  unfold exec_gates. intros (? & ws1 & b & -> & (w1 & -> & ->)%sees_read & H)%sees_bind.
  case_bool_decide as Hr; [by apply sees_ret in H as [_ ?]|].
  apply sees_bind in H as (? & ws2 & b & -> & (w2 & -> & ->)%sees_read & H).
  case_bool_decide as Hg; [by apply sees_ret in H as [_ ?]|].
  apply sees_bind in H as (? & ws3 & stored & -> & (w3 & -> & ->)%sees_read & H).
  destruct (match _ with Some d => _ | None => false end) eqn:Ht; [by apply sees_ret in H as [_ ?]|].
  destruct (deadline_ms rec) as [d|]; [|by apply sees_ret in H as [_ ?]].
  apply sees_bind in H as (? & ws4 & now & -> & (w4 & -> & ->)%sees_ask & H).
  destruct (Z.leb_spec d (ext_now (outside w4)).2) as [|Hd]; [by apply sees_ret in H as [_ ?]|].
  apply sees_bind in H as (? & ws5 & image & -> & (w5 & -> & ->)%sees_read & [-> _]%sees_ret).
  exists w1, w2, w3, w4, w5, d. split_and!; [done..| |done|done].
  intros dg Hdg. rewrite Hdg in Ht. apply negb_false_iff in Ht. by apply String.eqb_eq in Ht.
Qed.

Lemma sees_check id def tree runner ws r :
  sees (run_check_task id def tree runner) ws (Some r) →
  ∃ w1 w2 w3 out, ws = [w1; w2; w3] ∧
    (exec_captured_for id ["sh"; "-lc"; d_command def] (provisioner w2)).2 = Some out ∧
    run_check (λ _ _, Some out) id def tree (ext_now (outside w1)).2 (ext_now (outside w3)).2 runner = Some r.
Proof.
  intros (? & ws1 & s & -> & (w1 & -> & ->)%sees_ask & H)%sees_bind.
  apply sees_bind in H as (? & ws2 & out & -> & (w2 & -> & ->)%sees_box & H).
  apply sees_bind in H as (? & ws3 & p & -> & (w3 & -> & ->)%sees_ask & [-> Hr]%sees_ret).
  destruct (exec_captured_for _ _ _).2 as [out|] eqn:Ho; [|done]. exists w1, w2, w3, out. by split_and!.
Qed.

Lemma run_check_fields id def tree started produced runner out r :
  run_check (λ _ _, Some out) id def tree started produced runner = Some r →
  code out = Some (exit r) ∧ stdout_ref r = content_ref (stdout out) ∧ stderr_ref r = content_ref (stderr out) ∧
  compute_memo_key tree (d_def_digest def) (d_toolchain_ref def) = Some (memo_key r) ∧
  tree_hash r = tree ∧ def_digest r = d_def_digest def ∧ runner_ref r = runner.
Proof.
  unfold run_check. cbn [mbind option_bind]. destruct (code out) as [c|]; [|done]. cbn [mbind option_bind].
  destruct (compute_memo_key _ _ _) as [memo|]; [|done]. cbn [mbind option_bind]. by intros [= <-].
Qed.

(** All that an attested check saw. *)
Lemma sees_exec t id tree def ws r chain v1 v2 kid :
  sees (exec cfg t id tree def) ws (ExecResponse r chain v1 v2 kid) →
  ∃ w1 w2 w3 w4 w5 w6 w7 rec rec' d out started produced,
    [w1; w2; w3; w4; w5; w6; w7] `sublist_of` ws ∧
    (records (ledger w1) !! id = Some rec ∧ tenant rec = t ∧ state rec = Wire Held ∧ deadline_ms rec = Some d) ∧
    (id ∉ runner_leases (tables w2)) ∧ (id ∉ agent_leases (tables w3)) ∧
    (∀ dg, toolchain_digests (tables w4) !! id = Some dg → d_toolchain_ref def = dg) ∧
    (ext_now (outside w5)).2 < d ∧
    (exec_captured_for id ["sh"; "-lc"; d_command def] (provisioner w6)).2 = Some out ∧
    run_check (λ _ _, Some out) id def tree started produced (box_ref rec) = Some r ∧
    (records (ledger w7) !! id = Some rec' ∧ tenant rec' = t ∧ state rec' = Wire Held) ∧
    attest_exec cfg t tree def r = Some (chain, v1, v2).
Proof.
  intros (? & ws1 & held & -> & Hheld & H)%sees_bind. destruct held as [e|rec].
  { apply sees_ret in H as [_ <-].
    apply sees_bind in Hheld as (? & ? & g & _ & _ & [_ Hg]%sees_ret).
    destruct g as [[rec|]|]; [|done|done]. case_bool_decide; [|done]. by destruct (state rec) as [|[]]. }
  apply sees_held in Hheld as (w1 & -> & Hrec & Ht & Hst).
  apply sees_bind in H as (? & ws2 & refused & -> & Hg & H). destruct refused as [e|]; [by apply sees_ret in H as [_ ?]|].
  apply sees_gates in Hg as (w2 & w3 & w4 & w5 & wi & d & -> & Hrun & Hag & Htc & Hd & Hnow).
  apply sees_bind in H as (? & ws3 & result & -> & Hres & H).
  apply sees_bind in H as (? & ws4 & panicked & -> & (wp & -> & ->)%sees_ask & H).
  destruct (ext_task_panics (outside wp)).2; [by apply sees_ret in H as [_ ?]|].
  destruct result as [r'|]; [|by apply sees_ret in H as [_ ?]].
  apply sees_check in Hres as (ws & w6 & we & out & -> & Hout & Hr).
  apply sees_bind in H as (? & ws5 & again & -> & (w7 & -> & Hag2)%sees_get & H).
  destruct Hag2 as [-> | ->]; [by apply sees_ret in H as [_ ?]|].
  destruct (records (ledger w7) !! id) as [rec'|] eqn:Hrec'; [|by apply sees_ret in H as [_ ?]].
  case_bool_decide as Ht'; [|by apply sees_ret in H as [_ ?]]. cbn [andb] in H.
  case_bool_decide as Hst'; [|by apply sees_ret in H as [_ ?]].
  apply sees_ret in H as [-> Ha]. destruct (attest_exec cfg t tree def r') as [[[chain' v1'] v2']|] eqn:Hat; [|done].
  injection Ha as -> -> -> -> _.
  exists w1, w2, w3, w4, w5, w6, w7, rec, rec', d, out, (ext_now (outside ws)).2, (ext_now (outside we)).2.
  split_and!; try done. cbn. repeat constructor.
Qed.
End server.

Section theorems.
Context {P O : Type} {prov : BoxProvisioner P} {ext : External O} {leased : LeasedExec P} {ids : StepIds O}.
Context {json : SerdeJson} {codec : BindingCodec} {unicode : Unicode} {ejson : EnvelopeJson} {crypto : Crypto}.
Context (cfg : Config).
Abbreviation W := (AppState P O).
Implicit Types (w : W) (es : list ExecEvent).

(** The lease is the tenant's and held. *)
Definition held_by w (id : string) (t : TenantId) (rec : LeaseRecord) : Prop :=
  records (ledger w) !! id = Some rec ∧ tenant rec = t ∧ state rec = Wire Held.

(** C7: A check is attested only for a lease that is held.  In every run of the server,
    whatever else goes on: if a check is answered with a result, the run went in
    this order through states in which the lease was the tenant's and held, was no
    runner's and no agent's lease and had the toolchain of the check, its deadline
    had not passed, its box ran the command of the check and gave the output and
    exit code of the result, and the lease was still the tenant's and held.  The
    result has the memo key of its own axes, names the box of the lease, and its
    chain and both bindings verify under the published key. *)
Theorem attested_only_while_held {laws : CryptoLaws crypto} es w i t id tree def r chain v1 v2 kid :
  arrivals es !! i = Some (Check t id tree def) →
  (exec_serve cfg es w).1 !! i = Some (Now (inl (ExecResponse r chain v1 v2 kid))) →
  (∃ w1 w2 w3 w4 w5 w6 w7 rec rec' d out, [w1; w2; w3; w4; w5; w6; w7] `sublist_of` exec_states cfg es w ∧
     held_by w1 id t rec ∧ (id ∉ runner_leases (tables w2)) ∧ (id ∉ agent_leases (tables w3)) ∧
     (∀ dg, toolchain_digests (tables w4) !! id = Some dg → d_toolchain_ref def = dg) ∧
     deadline_ms rec = Some d ∧ (ext_now (outside w5)).2 < d ∧
     (exec_captured_for id ["sh"; "-lc"; d_command def] (provisioner w6)).2 = Some out ∧
     code out = Some (exit r) ∧ stdout_ref r = content_ref (stdout out) ∧ stderr_ref r = content_ref (stderr out) ∧
     runner_ref r = box_ref rec ∧ held_by w7 id t rec') ∧
  compute_memo_key tree (d_def_digest def) (d_toolchain_ref def) = Some (memo_key r) ∧
  verify_execution chain v1 r (public_key_b64 (signer_key cfg)) = Some (Ok true) ∧
  verify_execution_v2 chain v2 r (public_key_b64 (signer_key cfg)) = Some (Ok true) ∧
  ch_tree chain = tree ∧ ch_principal chain = ["tenant:" +:+ as_str t].
Proof.
  intros Hx Ha. destruct (answer_sees cfg es w i _ _ Hx Ha) as (ws & Hs & Hsub). cbn [exec_handler] in Hs.
  apply sees_bind in Hs as (ws1 & ws2 & a & -> & Hs & [-> [= <-]]%sees_ret). rewrite (right_id_L [] (++)) in Hsub.
  apply sees_exec in Hs as (w1 & w2 & w3 & w4 & w5 & w6 & w7 & rec & rec' & d & out & started & produced & Hl &
    (Hr & Ht & Hst & Hd) & Hrun & Hag & Htc & Hnow & Hout & Hcheck & Hheld & Hatt).
  destruct (run_check_fields _ _ _ _ _ _ _ _ Hcheck) as (Hc & Hso & Hse & Hm & Htr & Hdf & Hrr).
  assert (attest_close_result (signer_key cfg) r ["tenant:" +:+ as_str t] = Some (chain, v1, v2)) as Hclose
    by (rewrite <-Hatt; unfold attest_exec, attest_close_result; by rewrite Htr, Hdf).
  destruct (attested_verifies _ _ _ _ _ _ Hclose) as (Hv1 & Hv2 & Hct & Hcp). rewrite Htr in Hct.
  split_and!; try done. exists w1, w2, w3, w4, w5, w6, w7, rec, rec', d, out.
  split_and!; try done. by etrans.
Qed.

(** A poll reads only the steps of the tenant's own lease.  If a poll is answered
    with a result, the lease was the tenant's, and after that the step was one of
    that lease and had that result. *)
Theorem poll_reads_own_steps es w i t id step r :
  arrivals es !! i = Some (Poll t id step) →
  (exec_serve cfg es w).1 !! i = Some (Now (inl (ExecResult r))) →
  ∃ w1 w2 rec e, [w1; w2] `sublist_of` exec_states cfg es w ∧
    records (ledger w1) !! id = Some rec ∧ tenant rec = t ∧
    agent_steps (tables w2) !! step = Some e ∧ step_lease e = id ∧ step_state e = StepDone r.
Proof.
  intros Hx Ha. destruct (answer_sees cfg es w i _ _ Hx Ha) as (ws & Hs & Hsub). cbn [exec_handler] in Hs.
  apply sees_bind in Hs as (ws1 & ws2 & a & -> & Hs & [-> [= <-]]%sees_ret). rewrite (right_id_L [] (++)) in Hsub.
  apply sees_bind in Hs as (? & ws2 & g & -> & (w1 & -> & Hg)%sees_get & H).
  destruct Hg as [-> | ->]; [by apply sees_ret in H as [_ ?]|].
  destruct (records (ledger w1) !! id) as [rec|] eqn:Hrec; [|by apply sees_ret in H as [_ ?]].
  case_bool_decide as Ht; [|by apply sees_ret in H as [_ ?]]. cbn [negb] in H.
  apply sees_bind in H as (? & ws3 & entry & -> & (w2 & -> & ->)%sees_read & [-> Hr]%sees_ret).
  destruct (agent_steps (tables w2) !! step) as [e|] eqn:He; [|done].
  destruct (String.eqb_spec (step_lease e) id) as [Hl|]; [|done]. cbn [negb] in Hr.
  destruct (step_state e) eqn:Hst; [done| |done]. injection Hr as ->. by exists w1, w2, rec, e.
Qed.

(** What a check needs before it runs; the clock is read after the ledger. *)
Definition executable w (t : TenantId) (id : string) (def : CheckDef) : Prop :=
  ∃ rec d, held_by w id t rec ∧ (id ∉ runner_leases (tables w)) ∧ (id ∉ agent_leases (tables w)) ∧
    (∀ dg, toolchain_digests (tables w) !! id = Some dg → d_toolchain_ref def = dg) ∧
    deadline_ms rec = Some d ∧ (ext_now (ext_ledger_up (outside w)).1).2 < d ∧ is_Some (images (tables w) !! id).

Lemma run_read {A B} (f : W → A) (k : A → Task W B) w : run_alone (read f ≫= k) w = run_alone (k (f w)) w.
Proof. by rewrite run_alone_bind; unfold read; rewrite run_alone_atomic. Qed.

Lemma run_gates id def rec w :
  ∃ o, run_alone (exec_gates id def rec) w = (set_outside o w, (run_alone (exec_gates id def rec) w).2) ∧
    ((run_alone (exec_gates id def rec) w).2 = None →
      (id ∉ runner_leases (tables w)) ∧ (id ∉ agent_leases (tables w)) ∧
      (∀ dg, toolchain_digests (tables w) !! id = Some dg → d_toolchain_ref def = dg) ∧
      (∃ d, deadline_ms rec = Some d ∧ (ext_now (outside w)).2 < d) ∧ is_Some (images (tables w) !! id)).
Proof.
  assert (set_outside (outside w) w = w) as Hid by by destruct w.
  unfold exec_gates, is_runner_lease, is_agent_lease, toolchain_digest_of. rewrite run_read.
  case_bool_decide as H1; [exists (outside w); rewrite Hid; by split|]. rewrite run_read.
  case_bool_decide as H2; [exists (outside w); rewrite Hid; by split|]. rewrite run_read.
  destruct (match _ with Some d => _ | None => false end) eqn:H3; [exists (outside w); rewrite Hid; by split|].
  destruct (deadline_ms rec) as [d|]; [|exists (outside w); rewrite Hid; by split].
  rewrite run_alone_bind. unfold now_ms, ask. rewrite run_alone_atomic. unfold asks.
  destruct (ext_now (outside w)) as [o now] eqn:Ho. cbn [fst snd]. exists o.
  destruct (Z.leb_spec d now) as [|Hd]; [by split|]. unfold image_of. rewrite run_read.
  change (images (tables (set_outside o w)) !! id) with (images (tables w) !! id). split; [done|].
  destruct (images (tables w) !! id) eqn:Hi; [intros _|done]. split_and!; [done..| |by exists d|by eexists].
  intros dg Hdg. rewrite Hdg in H3. apply negb_false_iff in H3. by apply String.eqb_eq in H3.
Qed.

(** A refused check runs nothing.  If the lease is not the tenant's and held, or is
    a runner's or an agent's lease, or has another toolchain, or its deadline has
    passed, or its image is unknown, the check is answered with an error and
    nothing but the outside, which was asked for the time, is touched. *)
Theorem refused_check_runs_nothing t id tree def w :
  ¬ executable w t id def →
  ∃ o e, run_alone (exec cfg t id tree def) w = (set_outside o w, ExecError e).
Proof.
  intros Hno. unfold exec, held_lease. rewrite run_alone_bind.
  rewrite run_ledger_read. unfold asked. set (w1 := set_outside _ w). cbn [run_alone fst snd mret Task_ret].
  destruct (ext_ledger_up (outside w)).2; [|by eexists _, _]. unfold Mem.get.
  destruct (records (ledger w) !! id) as [rec|] eqn:Hrec; [|by eexists _, _].
  case_bool_decide as Ht; [|by eexists _, _]. cbn [negb].
  destruct (state rec) as [|[]] eqn:Hst; try by eexists _, _.
  rewrite run_alone_bind. destruct (run_gates id def rec w1) as (o & Hrun & Hg). rewrite Hrun. cbn [fst snd].
  destruct (run_alone (exec_gates id def rec) w1).2 as [e|]; [by exists o, e|].
  destruct Hno. destruct Hg as (? & ? & ? & (d & ? & ?) & ?); [done|]. by exists rec, d.
Qed.
End theorems.

(** ** Agent steps *)

(** The requests that reach the table of steps: commands, polls, and the
    collection of what a lease leaves behind, with which every lease ends. *)
Inductive StepArrival : Type :=
| Commands (t : TenantId) (id : string) (req : AgentExecRequest)
| Polls (t : TenantId) (id step : string)
| Forgets (id : string).
Inductive StepEvent : Type := StepArrives (x : StepArrival) | StepRuns (i : nat).

Section steps.
Context {P O : Type} {prov : BoxProvisioner P} {ext : External O} {leased : LeasedExec P} {ids : StepIds O}.
Abbreviation W := (AppState P O).
Implicit Types (w : W).

Definition step_handler (x : StepArrival) : Task W (option ExecReply) :=
  match x with
  | Commands t id req => a ← agent_exec t id req; mret (Some a)
  | Polls t id step => a ← agent_exec_poll t id step; mret (Some a)
  | Forgets id => forget_lease id;; mret None
  end.
Definition step_event (e : StepEvent) : event W (option ExecReply) :=
  match e with StepArrives x => Spawn (step_handler x) | StepRuns i => Sched i end.
Definition step_serve (es : list StepEvent) w : list (Task W (option ExecReply)) * W :=
  runtime (step_event <$> es) ([], w).

(** A token is a step somebody works on. *)
Abbreviation Working := (gmultiset string).
Definition result_ok (step : string) (r : AgentExecResult) : Prop :=
  er_step_id r = step ∧ (String.length (er_stdout r) ≤ CAPTURE_CEILING)%nat ∧ (String.length (er_stderr r) ≤ CAPTURE_CEILING)%nat.
Definition step_ok (R : Working) (step : string) (e : AgentStepEntry) : Prop :=
  match step_state e with
  | StepRunning => step ∈ R
  | StepDone r => result_ok step r
  | StepFailed => True
  end.
Definition step_inv w (R : Working) : Prop := map_Forall (step_ok R) (agent_steps (tables w)).
Definition step_rely w (R : Working) w' (R' : Working) : Prop := True.
Abbreviation works r t ρ := (triple step_inv step_rely nothing_left (λ _ _, True) r t ρ (λ _ _ _, True)).

Lemma works_atom {A} r (g : W → W * A) ρ :
  (∀ w f w' a, g w = (w', a) → step_inv w (r ⊎ f) → step_inv w' (ρ a ⊎ f)) → works r (atomic g) ρ.
Proof.
  intros Hg. apply (triple_atom _ _ _ _ _ _ _ (λ _ _ _, True)); [by intros ? ? ? ? ? ? ?|].
  intros w f w' a E Hi _. split_and!; [by eapply Hg|done..].
Qed.
Lemma works_bind {A B} r (t : Task W A) ρ (k : A → Task W B) ρ' :
  works r t ρ → (∀ a, works (ρ a) (k a) ρ') → works r (t ≫= k) ρ'.
Proof.
  intros Ht Hk. eapply (triple_seq _ _ _ (λ _ _, True)); [done|exact Ht|done|]. intros a.
  eapply triple_conseq; [|done|apply Hk]. done.
Qed.
Lemma works_ret {A} r (a : A) ρ : r = ρ a → works r (mret a : Task W A) ρ.
Proof. intros Hr. apply (triple_ret _ _ _ _ _ _ _ (λ _ _ _, True)); done. Qed.

(** An access that leaves the steps alone, or only takes some away. *)
Lemma works_shrink {A} r (g : W → W * A) :
  (∀ w, agent_steps (tables (g w).1) ⊆ agent_steps (tables w)) → works r (atomic g) (λ _, r).
Proof.
  intros Hg. apply works_atom. intros w f w' a E Hi. specialize (Hg w). rewrite E in Hg. cbn in Hg.
  intros step e He. apply Hi. by eapply lookup_weaken.
Qed.
Lemma works_beside {A B} r (g : W → W * A) (k : A → Task W B) ρ :
  (∀ w, agent_steps (tables (g w).1) = agent_steps (tables w)) → (∀ a, works r (k a) ρ) → works r (atomic g ≫= k) ρ.
Proof. intros Hg Hk. eapply works_bind; [apply works_shrink; intros w; by rewrite Hg|done]. Qed.

Lemma ask_beside {A} (f : O → O * A) w : agent_steps (tables (asks f w).1) = agent_steps (tables w).
Proof. unfold asks. by destruct (f (outside w)). Qed.
Lemma prov_beside {A} (f : P → P * A) w : agent_steps (tables (calls_prov f w).1) = agent_steps (tables w).
Proof. unfold calls_prov. by destruct (f (provisioner w)). Qed.
Lemma get_beside {A} (g : InMemoryInner → A) w :
  agent_steps (tables (calls_ledger (λ s, (s, Ok (g s))) w).1) = agent_steps (tables w).
Proof. unfold calls_ledger, asks. by destruct (ext_ledger_up (outside w)) as [o []]. Qed.

Lemma held_lease_works {B} r t id (k : ExecReply + LeaseRecord → Task W B) ρ :
  (∀ a, works r (k a) ρ) → works r (held_lease t id ≫= k) ρ.
Proof.
  intros Hk. eapply (works_bind _ _ (λ _, r)); [|done]. apply works_beside; [apply get_beside|]. intros a. by apply works_ret.
Qed.

(** The outcome of a step is as it should be. *)
Lemma step_outcome_ok R step out d lease : step_ok R step (mkStep lease (step_outcome step out d)).
Proof.
  unfold step_outcome. destruct out as [out|]; [|done]. destruct (code out) as [c|]; [|done].
  pose proof (capture_bound (stdout out)) as Ho. pose proof (capture_bound (stderr out)) as He.
  destruct (truncate_capture (stdout out)) as [so b1], (truncate_capture (stderr out)) as [se b2]. by split_and!.
Qed.

Lemma begin_works step id : works ∅ (agent_step_begin step id) (λ _, {[+ step +]}).
Proof.
  apply works_atom. intros w f w' a [= <- <-] Hi. rewrite (left_id_L ∅ (⊎)) in Hi. intros step' e He.
  change (<[step := mkStep id StepRunning]> (agent_steps (tables w)) !! step' = Some e) in He.
  apply lookup_insert_Some in He as [[<- <-]|[Hne He]]; unfold step_ok; cbn [step_state]; [multiset_solver|].
  specialize (Hi step' e He). unfold step_ok in Hi. destruct (step_state e); [multiset_solver|done|done].
Qed.

Lemma update_works step out d :
  works {[+ step +]} (update_step step (step_outcome step out d)) (λ _, ∅).
Proof.
  apply works_atom. intros w f w' a [= <- <-] Hi step' e He.
  change (alter (λ e, mkStep (step_lease e) (step_outcome step out d)) step (agent_steps (tables w)) !! step' = Some e) in He.
  destruct (decide (step' = step)) as [->|Hne].
  - rewrite lookup_alter_eq in He. destruct (agent_steps (tables w) !! step) as [e'|]; [|done]. injection He as <-.
    apply step_outcome_ok.
  - rewrite lookup_alter_ne in He by done. specialize (Hi step' e He). unfold step_ok in *.
    destruct (step_state e); [|done|done]. multiset_solver.
Qed.

Lemma agent_exec_works t id req : works ∅ (agent_exec t id req) (λ _, ∅).
Proof.
  unfold agent_exec. destruct (ax_argv req); [by apply works_ret|]. apply held_lease_works.
  intros [a|rec]; [by apply works_ret|]. apply works_beside; [done|]. intros agent.
  destruct (negb agent); [by apply works_ret|]. destruct (deadline_ms rec) as [d|]; [|by apply works_ret].
  apply works_beside; [apply ask_beside|]. intros now. destruct (d <=? now); [by apply works_ret|].
  apply works_beside; [apply ask_beside|]. intros step. eapply works_bind; [apply begin_works|]. intros ?.
  apply works_beside; [done|]. intros ?. eapply (works_bind _ _ (λ _, ∅)); [|intros ?; by apply works_ret].
  apply works_beside; [apply ask_beside|]. intros started. apply works_beside; [apply prov_beside|]. intros out.
  apply works_beside; [apply ask_beside|]. intros fin. apply works_beside; [done|]. intros ?. apply update_works.
Qed.

Lemma forget_works id : works ∅ (forget_lease id) (λ _, ∅).
Proof.
  unfold forget_lease. apply works_beside; [apply prov_beside|]. intros ?.
  do 3 (apply works_beside; [done|]; intros ?).
  eapply works_bind; [apply works_shrink; intros w; apply map_filter_subseteq|]. intros ?.
  do 3 (apply works_beside; [done|]; intros ?). by apply works_shrink.
Qed.

Lemma step_handler_works x : handler_ok step_inv step_rely nothing_left (step_handler x).
Proof.
  eapply triple_handler. destruct x as [t id req|t id step|id]; cbn [step_handler].
  - eapply works_bind; [apply agent_exec_works|]. intros a. by apply works_ret.
  - eapply (works_bind _ _ (λ _, ∅)); [|intros a; by apply works_ret]. unfold agent_exec_poll.
    apply works_beside; [apply get_beside|]. intros [[rec|]|e]; try by apply works_ret.
    destruct (negb _); [by apply works_ret|]. apply works_beside; [done|]. intros entry. by apply works_ret.
  - eapply works_bind; [apply forget_works|]. intros a. by apply works_ret.
Qed.

(** Agent steps come to an end.  In every interleaving of commands, polls and
    collections: a step that is done has a result of its own, with at most 256 KiB
    of each stream, and when all handlers have finished no step is left running. *)
Theorem agent_steps_come_to_an_end es w :
  agent_steps (tables w) = ∅ → let '(ts, w') := step_serve es w in
  (∀ step e r, agent_steps (tables w') !! step = Some e → step_state e = StepDone r → result_ok step r) ∧
  (quiescent ts → ∀ step e, agent_steps (tables w') !! step = Some e → step_state e ≠ StepRunning).
Proof.
  intros Hw. destruct (runtime_invariant (W := W) step_inv step_rely nothing_left (step_event <$> es) w) as (R & Hi & Hq).
  - induction es as [|[x|i] es IH]; cbn; [constructor|constructor; [apply step_handler_works|done]|done].
  - unfold step_inv. rewrite Hw. apply map_Forall_empty.
  - unfold step_serve. destruct (runtime _ _) as [ts w']. cbn [fst snd] in *. split.
    + intros step e r He Hr. specialize (Hi step e He). unfold step_ok in Hi. by rewrite Hr in Hi.
    + intros Hquiet step e He Hr. specialize (Hi step e He). rewrite (Hq Hquiet) in Hi. unfold step_ok in Hi. rewrite Hr in Hi.
      by apply gmultiset_not_elem_of_empty in Hi.
Qed.
End steps.
