(* ===== verification/ExecRuns.v ===== *)
(** * Execution: runs

    A check and the commands of an agent lease in the small world of the service's
    runs, with a port that always answers.  The theorems about every run are applied
    to them, and one run shows a step that is registered after its lease has been
    cleaned up. *)
From S2P Require Import Prelude Tenant Ledger LedgerSafety Journal Text Lease Boxes BoxLaws BoxTheorems Task Envelope Attest AttestProofs Shard State Service ServiceLogic ServiceTheorems ServiceRuns Exec ExecProofs.

#[local] Instance run_crypto : Crypto :=
  Build_Crypto (λ s, s) (λ _, zeros 32) (λ _ _, zeros 64) (λ _, true) (λ _ _ sig, String.eqb sig (zeros 64)) (λ s, s) Some.
#[local] Instance run_crypto_laws : CryptoLaws run_crypto.
Proof. split; intros; reflexivity. Qed.
#[local] Instance run_port : LeasedExec (Bound (gmap string (string * bool))) := λ _ _ p, (p, Some (mkOut (Some 0) "out" "")).
#[local] Instance run_steps : StepIds nat := λ n, (n, "step").

Definition a_check : AcquireRequest := mkAcquire pinned "none" "/tmp/x" 60000 None None false None None.
Definition some_def : CheckDef := mkDef "true" "d" "c".
Definition turns (i n : nat) : list ExecEvent := replicate n (ExecRuns i).
Definition reject_mode : Config := small_config Reject.

(** A lease is acquired, a check runs in it. *)
Definition check_run : list ExecEvent :=
  [Arrives (Other (ReqAcquire acme "pat" no_headers a_check))] ++ turns 0 100 ++
  [Arrives (Check acme "l" "tree" some_def)] ++ turns 1 20.
Definition checked : list (Task World (ExecReply + Reply)) * World := exec_serve reject_mode check_run small_start.
Definition exec_reply_of (t : Task World (ExecReply + Reply)) : option (ExecReply + Reply) :=
  match t with Now r => Some r | Later _ _ => None end.

Lemma checked_eq : exec_serve reject_mode check_run small_start = checked.
Proof. unfold checked. reflexivity. Qed.

Lemma attested_only_while_held_witness :
  ∃ r chain v1 v2 kid, checked.1 !! 1%nat = Some (Now (inl (ExecResponse r chain v1 v2 kid))) ∧
    exit r = 0 ∧ verify_execution_v2 chain v2 r (public_key_b64 "key") = Some (Ok true) ∧
    ch_principal chain = ["tenant:acme"].
Proof.
  eexists _, _, _, _, _. split; [vm_compute; reflexivity|]. split; [reflexivity|].
  pose proof (attested_only_while_held reject_mode check_run small_start 1 acme "l" "tree" some_def) as H.
  rewrite checked_eq in H. specialize (H _ _ _ _ _ eq_refl ltac:(vm_compute; reflexivity)).
  destruct H as (_ & _ & _ & Hv & _ & Hp). split; [exact Hv|exact Hp].
Defined.

Lemma refused_check_runs_nothing_witness :
  ∃ o e, run_alone (exec reject_mode acme "l" "tree" some_def) small_start = (set_outside o small_start, ExecError e).
Proof.
  apply refused_check_runs_nothing. intros (rec & d & (Hr & _) & _). revert Hr. vm_compute. discriminate.
Defined.

(** ** Agent steps *)
Definition a_command : AgentExecRequest := mkAgentExec ["ls"] "/w" [("K", "V")] 1500.
Lemma a_command_argv : wrapped_argv a_command = ["env"; "--chdir=/w"; "K=V"; "timeout"; "-k"; "5"; "2"; "ls"].
Proof. vm_compute. reflexivity. Qed.

Definition agent_run : list ExecEvent :=
  [Arrives (Other an_acquire)] ++ turns 0 100 ++ [Arrives (AgentRun acme "l" a_command)] ++ turns 1 20 ++
  [Arrives (Poll acme "l" "step")] ++ turns 2 5.
Definition agent_ran : list (Task World (ExecReply + Reply)) * World := exec_serve reject_mode agent_run small_start.
Lemma agent_ran_eq : exec_serve reject_mode agent_run small_start = agent_ran.
Proof. unfold agent_ran. reflexivity. Qed.

Lemma poll_reads_own_steps_witness :
  ∃ w1 w2 rec e, [w1; w2] `sublist_of` exec_states reject_mode agent_run small_start ∧
    records (ledger w1) !! "l" = Some rec ∧ tenant rec = acme ∧
    agent_steps (tables w2) !! "step" = Some e ∧ step_lease e = "l" ∧
    step_state e = StepDone (mkExecResult "step" 0 "out" "" 0 false).
Proof.
  apply (poll_reads_own_steps reject_mode agent_run small_start 2); [reflexivity|].
  rewrite agent_ran_eq. vm_compute. reflexivity.
Defined.

Definition agent_world : World := (serve reject_mode first_lease small_start).2.
Definition step_run : list StepEvent :=
  [StepArrives (Commands acme "l" a_command)] ++ replicate 20 (StepRuns 0).
Lemma agent_steps_come_to_an_end_witness :
  ∀ step e, agent_steps (tables (step_serve step_run agent_world).2) !! step = Some e → step_state e ≠ StepRunning.
Proof.
  assert (agent_steps (tables agent_world) = ∅) as Hw by (vm_compute; reflexivity).
  pose proof (agent_steps_come_to_an_end step_run agent_world Hw) as H.
  assert (quiescent (step_serve step_run agent_world).1) as Hq by (vm_compute; repeat constructor).
  rewrite (surjective_pairing (step_serve step_run agent_world)) in H. exact (proj2 H Hq).
Defined.

(** A command passes its gates, its lease is cancelled, and then the step is
    registered. *)
Definition late_run : list ExecEvent :=
  [Arrives (Other an_acquire)] ++ turns 0 100 ++ [Arrives (AgentRun acme "l" a_command)] ++ turns 1 4 ++
  [Arrives (Other (ReqCancel acme "l"))] ++ turns 2 100 ++ turns 1 20 ++
  [Arrives (Other (ReqCancel acme "l")); Arrives (Other SweepReap); Arrives (Other SweepCrashes);
   Arrives (Other (SweepPending 0)); Arrives (Other (KillTenant acme))] ++
  turns 3 50 ++ turns 4 50 ++ turns 5 50 ++ turns 6 50 ++ turns 7 50.

(** A step can outlive its lease.  A command that passed its gates registers its
    step even if its lease has been released and cleaned up since; no later
    cancel and no sweep takes it off the table, although the table is meant to be
    bounded by the active leases. *)
Theorem step_can_outlive_its_lease :
  let '(ts, w) := exec_serve reject_mode late_run small_start in
  quiescent ts ∧ state <$> records (ledger w) !! "l" = Some (Wire Released) ∧
  agent_steps (tables w) !! "step" = Some (mkStep "l" (StepDone (mkExecResult "step" 0 "out" "" 0 false))).
Proof.
  assert (∀ c : list (Task World (ExecReply + Reply)) * World,
    quiescent c.1 ∧ state <$> records (ledger c.2) !! "l" = Some (Wire Released) ∧
    agent_steps (tables c.2) !! "step" = Some (mkStep "l" (StepDone (mkExecResult "step" 0 "out" "" 0 false))) →
    let '(ts, w) := c in
    quiescent ts ∧ state <$> records (ledger w) !! "l" = Some (Wire Released) ∧
    agent_steps (tables w) !! "step" = Some (mkStep "l" (StepDone (mkExecResult "step" 0 "out" "" 0 false)))) as Hc
    by (by intros [ts w]).
  apply Hc. split_and!; [vm_compute; repeat constructor|vm_compute; reflexivity..].
Qed.
