(* ===== verification/Enforcement.v ===== *)
(** * Enforcement: [handlers/enforcement.rs]

    The operator suspends a tenant: the suspension is recorded, and the leases the
    tenant holds are ended.  Only the start of an acquire looks at the suspension;
    what has passed it, and what waits in the admission queue, does not.  The lines
    the handlers log are left out. *)
From S2P Require Import Prelude Tenant Ledger LedgerSpec LedgerSafety Journal Text Lease Boxes BoxLaws BoxTheorems Task Envelope Attest Suspension Billing Scheduler Shard State Service ServiceLogic Admission ServiceTheorems ServiceRuns Webhook WebhookProofs.

Inductive EnforcementReply : Type :=
| NoSuchRoute | InvalidKey | InvalidTenant | PersistenceUnavailable
| TenantSuspended (tenant : string) (leases_killed : nat)
| TenantUnsuspended (tenant : string).

(** The durable suspension and its cache, where a server keeps them. *)
Class SuspensionStore (O : Type) : Type := {
  ext_suspend : TenantId → Z → O → O * result SuspensionError bool;
  ext_unsuspend : TenantId → O → O * result SuspensionError bool;
}.

(** [check_admin]: what stops a request, if anything does. *)
Definition check_admin (admin_key presented : option string) : option EnforcementReply :=
  match admin_key with
  | None => Some NoSuchRoute
  | Some key => if constant_time_eq key (default "" presented) then None else Some InvalidKey
  end.

Section handlers.
Context {P O : Type} {prov : BoxProvisioner P} {ext : External O} {susp : SuspensionStore O}.
Context {json : SerdeJson} {codec : BindingCodec} {ejson : EnvelopeJson}.
Context (cfg : Config) (admin_key : option string).
Abbreviation W := (AppState P O).

(** [suspend]. *)
Definition suspend (tenant : string) (presented : option string) : Task W EnforcementReply :=
  match check_admin admin_key presented with
  | Some r => mret r
  | None =>
    match tenant_new tenant with
    | Err _ => mret InvalidTenant
    | Ok t =>
      now ← now_ms;
      recorded ← ask (ext_suspend t now);
      match recorded with
      | Err _ => mret PersistenceUnavailable
      | Ok newly =>
        (if (newly : bool) then incr suspend_actions else mret ());;
        killed ← kill_tenant_leases cfg t;
        mret (TenantSuspended tenant killed)
      end
    end
  end.

(** [unsuspend]. *)
Definition unsuspend (tenant : string) (presented : option string) : Task W EnforcementReply :=
  match check_admin admin_key presented with
  | Some r => mret r
  | None =>
    match tenant_new tenant with
    | Err _ => mret InvalidTenant
    | Ok t =>
      lifted ← ask (ext_unsuspend t);
      mret (match lifted with Err _ => PersistenceUnavailable | Ok _ => TenantUnsuspended tenant end)
    end
  end.

(** Enforcement needs the key.  Without an operator key there are no such routes,
    and a request that does not present exactly that key is refused; either way
    the request makes no access at all. *)
Theorem enforcement_needs_the_key tenant presented :
  (∀ key, admin_key = Some key → default "" presented ≠ key) →
  ∃ r, (r = NoSuchRoute ∨ r = InvalidKey) ∧ suspend tenant presented = Now r ∧ unsuspend tenant presented = Now r.
Proof.
  intros Hk. unfold suspend, unsuspend, check_admin. destruct admin_key as [key|]; [|by exists NoSuchRoute; auto].
  destruct (constant_time_eq key (default "" presented)) eqn:E; [|by exists InvalidKey; auto].
  apply constant_time_eq_iff in E. by destruct (Hk key).
Qed.
End handlers.

(** The same outside with another answer to whether a tenant is suspended. *)
Definition with_suspensions {O} (f : TenantId → O → O * bool) (ext : External O) : External O := {|
  ext_now := @ext_now O ext;
  ext_mint_ready := @ext_mint_ready O ext;
  ext_ledger_up := @ext_ledger_up O ext;
  ext_task_panics := @ext_task_panics O ext;
  ext_suspended := f;
  ext_ac_lookup := @ext_ac_lookup O ext;
  ext_resolve_plan := @ext_resolve_plan O ext;
  ext_plan_of := @ext_plan_of O ext;
  ext_ceiling := @ext_ceiling O ext;
  ext_lease_id := @ext_lease_id O ext;
  ext_mint_jit := @ext_mint_jit O ext;
  ext_mint_pat := @ext_mint_pat O ext;
  ext_revoke_pat := @ext_revoke_pat O ext;
  ext_instant := @ext_instant O ext;
  ext_queue_up := @ext_queue_up O ext;
  ext_queue_scan := @ext_queue_scan O ext;
|}.

(** ** Runs *)

(** The small world with the suspension store beside it, on a single shard. *)
Definition Store : Type := (SuspensionTables * Instance_) * nat.
Definition beside {A} (f : nat → nat * A) (o : Store) : Store * A := let '(n, a) := f o.2 in ((o.1, n), a).
#[export] Instance store_world : External Store := {|
  ext_now := beside ext_now;
  ext_mint_ready := beside ext_mint_ready;
  ext_ledger_up := beside ext_ledger_up;
  ext_task_panics := beside ext_task_panics;
  ext_suspended t o := (o, is_tenant_suspended o.1.1 o.1.2 true (as_str t));
  ext_ac_lookup t d := beside (ext_ac_lookup t d);
  ext_resolve_plan t p := beside (ext_resolve_plan t p);
  ext_plan_of t := beside (ext_plan_of t);
  ext_ceiling t := beside (ext_ceiling t);
  ext_lease_id := beside ext_lease_id;
  ext_mint_jit s := beside (ext_mint_jit s);
  ext_mint_pat a b c d e f := beside (ext_mint_pat a b c d e f);
  ext_revoke_pat p := beside (ext_revoke_pat p);
  ext_instant := beside ext_instant;
  ext_queue_up := beside ext_queue_up;
  ext_queue_scan := beside ext_queue_scan;
|}.
#[export] Instance store_suspensions : SuspensionStore Store := {|
  ext_suspend t now o := let '(s, r) := suspend_tenant_with_event (as_str t) now o.1 in ((s, o.2), r);
  ext_unsuspend t o := let '(s, r) := unsuspend_tenant (as_str t) o.1 in ((s, o.2), r);
|}.

Inductive EnforcementEvent : Type :=
| Suspends (tenant : string) (presented : option string)
| Served (r : Request)
| EnforcementRuns (i : nat).
Definition StoreWorld : Type := AppState (Bound (gmap string (string * bool))) Store.
Definition enforcement_event (e : EnforcementEvent) : event StoreWorld (EnforcementReply + Reply) :=
  match e with
  | Suspends tenant presented => Spawn (a ← suspend queue_mode (Some "op") tenant presented; mret (inl a))
  | Served r => Spawn (a ← handler queue_mode r; mret (inr a))
  | EnforcementRuns i => Sched i
  end.
Definition store_start : StoreWorld :=
  mkApp (mkInner ∅ ∅ ∅ ∅ ∅) meter_new [] ∅ no_tables [] (SHARD_UNKNOWN, 1)
    (Some (admission_queue_new 4)) ∅ toy_boxes ((susp_empty, boot 1), 0%nat).

(** One lease is held and one request waits; the tenant is suspended; a tick of the
    admission queue runs. *)
Definition suspended_run : list EnforcementEvent :=
  let go i n := replicate n (EnforcementRuns i) in
  [Served an_acquire] ++ go 0%nat 100%nat ++ [Served an_acquire] ++ go 1%nat 15%nat ++
  [Suspends "acme" (Some "op")] ++ go 2%nat 100%nat ++
  [Served (AdmissionTick 2000)] ++ go 3%nat 200%nat ++ go 1%nat 100%nat.
Definition enforced : list (Task StoreWorld (EnforcementReply + Reply)) * StoreWorld :=
  runtime (enforcement_event <$> suspended_run) ([], store_start).
(** The moment before the tick. *)
Definition before_tick : list (Task StoreWorld (EnforcementReply + Reply)) * StoreWorld :=
  runtime (enforcement_event <$> take 218 suspended_run) ([], store_start).

(** What an acquire of a suspended tenant can answer, whatever runs in between. *)
Lemma suspended_acquire_refused {P O} {prov : BoxProvisioner P} {ext : External O} {json : SerdeJson}
    {codec : BindingCodec} {unicode : Unicode} {ejson : EnvelopeJson} {crypto : Crypto}
    cfg enqueue t pat headers req (ws : list (AppState P O)) a :
  sees (acquire (ext := with_suspensions (λ _ o, (o, true)) ext) cfg enqueue t pat headers req) ws a →
  a = RError OverCap ∨ a = fail_closed.
Proof.
  unfold acquire. intros (? & ? & ready & -> & _ & Hs)%sees_bind. destruct ready; cbn [negb] in Hs;
    [|apply sees_ret in Hs as [_ ->]; by right].
  apply sees_bind in Hs as (? & ? & now & -> & _ & Hs). apply sees_bind in Hs as (? & ? & [] & -> & _ & Hs).
  apply sees_bind in Hs as (? & ? & [k n] & -> & _ & Hs). apply sees_bind in Hs as (? & ? & stop & -> & Hg & Hs).
  assert (stop = Some (RError OverCap) ∨ stop = Some fail_closed) as Hstop.
  { revert Hg. unfold acquire_gates. destruct (_ && _); [intros [_ ->]%sees_ret; by right|].
    intros (? & ? & b & -> & (w & _ & Hb)%sees_atomic & Hg)%sees_bind.
    assert (b = true) as -> by by rewrite Hb. apply sees_bind in Hg as (? & ? & r & -> & Hr & [_ ->]%sees_ret). left. f_equal.
    unfold reject in Hr. apply sees_bind in Hr as (? & ? & [] & -> & _ & [_ ->]%sees_ret). done. }
  destruct Hstop as [-> | ->]; apply sees_ret in Hs as [_ ->]; auto.
Qed.

(** C39: A suspension closes the front door only.  The admission tick, and every
    other handler and sweep but an acquire, is the same program whatever tenants are
    suspended, while an acquire of a suspended tenant answers only with a refusal.
    A tenant that has requests in the waiting room is therefore still served, as the
    run shows: the tenant is suspended, its lease is ended and its request for
    another one waits; the tick that follows gives the waiting request the freed
    slot, and it is answered with a lease that is held while the tenant is
    suspended. *)
Theorem suspended_tenant_is_served_from_the_queue :
  (∀ P O (prov : BoxProvisioner P) (ext : External O) (json : SerdeJson) (codec : BindingCodec) (unicode : Unicode)
     (ejson : EnvelopeJson) (crypto : Crypto) (cfg : Config) f,
     (∀ r, match r with ReqAcquire _ _ _ _ => False | _ => True end →
        handler (ext := with_suspensions f ext) cfg r = handler (P := P) cfg r) ∧
     (∀ enqueue t pat headers req (ws : list (AppState P O)) a,
        sees (acquire (ext := with_suspensions (λ _ o, (o, true)) ext) cfg enqueue t pat headers req) ws a →
        a = RError OverCap ∨ a = fail_closed)) ∧
  (let w := before_tick.2 in
   is_tenant_suspended (outside w).1.1 (outside w).1.2 true "acme" = true ∧
   state <$> records (ledger w) !! "l" = Some (Wire Crashed) ∧
   q_tenant <$> (admission_queue w ≫= λ q, aq_waiters q !! "al") = Some acme ∧ records (ledger w) !! "al" = None) ∧
  (let w := enforced.2 in
   is_tenant_suspended (outside w).1.1 (outside w).1.2 true "acme" = true ∧
   state <$> records (ledger w) !! "al" = Some (Wire Held) ∧ held_of (ledger w) acme = 1 ∧
   ∃ lease token, enforced.1 !! 1%nat = Some (Now (inr (Answer (RAcquired lease token))))).
Proof.
  split; [|split; split_and!; try (vm_compute; reflexivity)].
  - intros. split; [by intros []|]. intros *. apply suspended_acquire_refused.
  - do 2 eexists. vm_compute. reflexivity.
Qed.

Lemma enforcement_needs_the_key_witness :
  ∃ r, (r = NoSuchRoute ∨ r = InvalidKey) ∧
    suspend (P := Bound (gmap string (string * bool))) (O := Store) queue_mode (Some "op") "acme" (Some "oq") = Now r.
Proof.
  destruct (enforcement_needs_the_key (P := Bound (gmap string (string * bool))) (O := Store) queue_mode (Some "op") "acme" (Some "oq"))
    as (r & Hr & Hs & _); [by intros key [= <-]|]. by exists r.
Defined.
