(* ===== verification/Onboarding.v ===== *)
(** * Onboarding: [handlers/admin.rs]

    The operator registers a tenant's plan in the registry that admission reads. *)
From S2P Require Import Prelude Tenant Text Lease Caps Task Envelope EnvelopeProofs Attest Webhook WebhookProofs.

(** serde_json on [OnboardTenantRequest]: tenant and plan. *)
Class OnboardJson : Type := onboard_of_json : string → option (string * string).

Inductive OnboardReply : Type :=
| OnboardNotFound | OnboardUnauthorized | OnboardBadRequest
| Onboarded (tenant tier : string) (max_concurrency rate_ceiling_per_min : Z).

(** [secret_matches] is [constant_time_eq], byte for byte. *)
Definition secret_matches (expected presented : string) : bool := constant_time_eq expected presented.

Definition parse_tier (s : string) : option PlanTier :=
  match to_ascii_lowercase (trim s) with
  | "starter" => Some Starter
  | "pro" => Some Pro
  | "team" => Some Team
  | "scale" => Some Scale
  | "max" => Some PlanMax
  | _ => None
  end.

(** The lower-cased [Debug] form of a tier. *)
Definition tier_name (tier : PlanTier) : string :=
  match tier with Starter => "starter" | Pro => "pro" | Team => "team" | Scale => "scale" | PlanMax => "max" end.

(** [LivePlanRegistry::plan_of]. *)
Definition live_plan_of (reg : PlanRegistry) (t : TenantId) : option TenantPlan :=
  let plan := tenant_plan reg t in
  if max_concurrency plan =? 0 then None else Some plan.

(** [onboard_tenant]. *)
Definition onboard_tenant {ojson : OnboardJson} (admin_key presented : option string) (body : string)
    (reg : PlanRegistry) : PlanRegistry * OnboardReply :=
  match admin_key with
  | None => (reg, OnboardNotFound)
  | Some key =>
    if negb (secret_matches key (default "" presented)) then (reg, OnboardUnauthorized)
    else match onboard_of_json body with
    | None => (reg, OnboardBadRequest)
    | Some (tenant, plan) =>
      if bool_decide (128 < String.length tenant)%nat then (reg, OnboardBadRequest)
      else match tenant_new tenant with
      | Err _ => (reg, OnboardBadRequest)
      | Ok t =>
        match parse_tier plan with
        | None => (reg, OnboardBadRequest)
        | Some tier =>
          let '(max_concurrency, rate) := plan_for tier in
          (set_plan reg t tier, Onboarded (as_str t) (tier_name tier) max_concurrency rate)
        end
      end
    end
  end.

Lemma tier_name_parses tier : parse_tier (tier_name tier) = Some tier.
Proof. by destruct tier; vm_compute. Qed.

Lemma plan_for_positive tier : 0 < (plan_for tier).1.
Proof. by destruct tier. Qed.

(** What is onboarded is in force.  A request that is answered with a plan had the
    key and a valid body, and from then on admission finds exactly that plan and
    the ceiling of that tier for the tenant, and for every other tenant what it
    found before; the tier in the answer names the plan when it is sent again.
    Any other answer leaves the registry as it was. *)
Theorem onboarded_plan_is_in_force {ojson : OnboardJson} admin_key presented body reg reg' r :
  onboard_tenant admin_key presented body reg = (reg', r) →
  match r with
  | Onboarded name tier_text cap rate =>
    ∃ t tier plan, admin_key = Some (default "" presented) ∧ onboard_of_json body = Some (name, plan) ∧
      tenant_new name = Ok t ∧ parse_tier plan = Some tier ∧ parse_tier tier_text = Some tier ∧
      live_plan_of reg' t = Some (mkTenantPlan t cap rate []) ∧ tenant_ceiling_vcpu_ms reg' t = ceiling_for tier ∧
      ∀ u, u ≠ t → live_plan_of reg' u = live_plan_of reg u ∧ tenant_ceiling_vcpu_ms reg' u = tenant_ceiling_vcpu_ms reg u
  | _ => reg' = reg
  end.
Proof.
  unfold onboard_tenant. destruct admin_key as [key|]; [|by intros [= <- <-]].
  destruct (secret_matches key _) eqn:Hk; cbn [negb]; [|by intros [= <- <-]].
  apply constant_time_eq_iff in Hk. destruct (onboard_of_json body) as [[name plan]|]; [|by intros [= <- <-]].
  case_bool_decide; [by intros [= <- <-]|]. destruct (tenant_new name) as [t|] eqn:Ht; [|by intros [= <- <-]].
  destruct (parse_tier plan) as [tier|] eqn:Hp; [|by intros [= <- <-]].
  destruct (plan_for tier) as [cap rate] eqn:Hc. intros [= <- <-].
  pose proof (plan_for_positive tier) as Hpos. rewrite Hc in Hpos. cbn in Hpos.
  apply tenant_new_ok in Ht as Hn. destruct Hn as [Hn _].
  subst t key. exists (mkTenantId name), tier, plan. cbn [as_str].
  split_and!; try done; [by rewrite tier_name_parses|..].
  - unfold live_plan_of, tenant_plan, set_plan, PlanRegistry. rewrite lookup_insert_eq, Hc. cbn.
    by rewrite (proj2 (Z.eqb_neq cap 0)) by lia.
  - unfold tenant_ceiling_vcpu_ms, set_plan, PlanRegistry. by rewrite lookup_insert_eq.
  - intros u Hu. unfold live_plan_of, tenant_plan, tenant_ceiling_vcpu_ms, set_plan, PlanRegistry. by rewrite lookup_insert_ne.
Qed.

#[local] Instance one_body : OnboardJson := λ _, Some ("acme", " PRO ").
Lemma onboarded_plan_is_in_force_witness :
  let '(reg, r) := onboard_tenant (Some "op") (Some "op") "" ∅ in
  r = Onboarded "acme" "pro" (plan_for Pro).1 (plan_for Pro).2 ∧
  live_plan_of reg (mkTenantId "acme") = Some (mkTenantPlan (mkTenantId "acme") (plan_for Pro).1 (plan_for Pro).2 []).
Proof.
  pose proof (onboarded_plan_is_in_force (Some "op") (Some "op") "" ∅ _ _ eq_refl) as H.
  split; [vm_compute; reflexivity|]. destruct H as (t & tier & plan & _ & _ & [= <-] & _ & _ & Hp & _). exact Hp.
Defined.
