(* ===== verification/CasCred.v ===== *)
(** * Credential tickets: [cred_ticket.rs], [handlers/cas_cred.rs], [handlers/test_mint.rs]

    The credential of a job is kept in the server; the box gets a ticket for it,
    which it redeems once.  [test_mint.rs] gives out a ticket without a job, for a
    test tenant. *)
From S2P Require Import Prelude Tenant Ledger LedgerSpec LedgerSafety Journal Text Lease Boxes BoxLaws BoxTheorems Billing Scheduler Task Envelope Attest Shard State Service ServiceLogic Admission ServiceTheorems ServiceRuns Webhook WebhookProofs Exec ExecProofs.

(** ** The ticket *)
Definition CRED_TICKET_DOMAIN : string := "corelink/cred-ticket/v1:".
Definition signer_cred_ticket {crypto : Crypto} (key lease_id : string) : string :=
  b64_encode (hmac_sha256 key (CRED_TICKET_DOMAIN +:+ lease_id)).
Definition verify_cred_ticket (ticket : string → string) (lease_id presented : string) : bool :=
  constant_time_eq (ticket lease_id) presented.

Inductive RedeemReply : Type :=
| RedeemBadBody | RedeemNotFound | RedeemUnauthorized | RedeemUnreadable | RedeemGone
| Redeemed (cas_pat clw_endpoint clw_tenant clw_ref_domain : string).

(** ** The test mint *)
Record TestMintConfig : Type := mkTestMint {
  tm_key : string;
  tm_tenants : list string;
  tm_fabric_endpoint : option string;
}.
Definition DEFAULT_TEST_MINT_TENANT : string := "00000000-0000-4000-8000-0000000f0005".
Definition TEST_MINT_LEASE_TTL_MS : Z := 600000.

(** [reject_weak_secret]: placeholders and what is shorter than sixteen bytes. *)
Definition DEV_SENTINEL_AUTH_KEYS : list string := ["dev"; "dev-default"; "changeme"; "test"; "placeholder"; "todo"].
Definition MIN_SECRET_LEN : nat := 16.
Definition reject_weak_secret (value : string) : bool :=
  let trimmed := trim value in
  existsb (λ s, String.eqb (to_ascii_lowercase s) (to_ascii_lowercase trimmed)) DEV_SENTINEL_AUTH_KEYS
  || bool_decide (String.length trimmed < MIN_SECRET_LEN)%nat.

(** [map(trim).filter(non-empty)]. *)
Definition present_value (v : option string) : option string :=
  v ← v; if bool_decide (trim v = EmptyString) then None else Some (trim v).

(** [TestMintConfig::from_env]; [None] refuses to boot. *)
Definition test_mint_from_env (get : string → option string) : option (option TestMintConfig) :=
  match present_value (get "FABRIC_TEST_MINT_KEY") with
  | None => Some None
  | Some key =>
    if reject_weak_secret key then None
    else
      let tenants :=
        match get "FABRIC_TEST_MINT_TENANTS" with
        | Some raw =>
          match filter (λ s, s ≠ EmptyString) (trim <$> split "," raw) with
          | [] => [DEFAULT_TEST_MINT_TENANT]
          | l => l
          end
        | None => [DEFAULT_TEST_MINT_TENANT]
        end in
      let endpoint :=
        v ← get "FABRIC_PUBLIC_BASE_URL";
        let v := trim_end_matches "/" (trim v) in
        if bool_decide (v = EmptyString) then None else Some v in
      Some (Some (mkTestMint key tenants endpoint))
  end.

Record TestMintRequest : Type := mkTestRequest {
  tq_tenant : option string;
  tq_repo_full_name : string;
  tq_installation_id : option string;
  tq_acquiring_pat : option string;
}.
Class TestMintJson : Type := test_request_of_json : string → option TestMintRequest.

(** The two headers a key can come in. *)
Record TestMintHeaders : Type := mkTestHeaders { th_test_mint_key : option string; th_authorization : option string }.
Definition presented_key (h : TestMintHeaders) : string :=
  match th_test_mint_key h with
  | Some v => v
  | None => default EmptyString (th_authorization h ≫= strip_prefix "Bearer ")
  end.

Inductive TestMintReply : Type :=
| TestNotFound | TestUnauthorized | TestBadRequest | TestUnavailable
| TestMinted (ticket lease_id fabric_endpoint : string).

Section handlers.
Context {P O : Type} {prov : BoxProvisioner P} {ext : External O} {tjson : TestMintJson}.
Context (cfg : Config) (test_mint : option TestMintConfig).
Abbreviation W := (AppState P O).

(** [redeem]; the ticket is [None] when the body could not be read. *)
Definition redeem (lease : string) (ticket : option string) : Task W RedeemReply :=
  match ticket with
  | None => mret RedeemBadBody
  | Some ticket =>
    if negb (has_cred_signer cfg) then mret RedeemNotFound
    else if negb (verify_cred_ticket (cred_ticket cfg) lease ticket) then mret RedeemUnauthorized
    else
      rec ← ledger_read (λ s, Mem.get s lease);
      match rec with
      | Err _ => mret RedeemUnreadable
      | Ok rec =>
        if negb (bool_decide (state <$> rec = Some (Wire Held))) then mret RedeemNotFound
        else
          cred ← take_cred lease;
          mret (match cred with
                | Some c => Redeemed (cred_token c) (cred_endpoint c) (cred_tenant c) "runner"
                | None => RedeemGone
                end)
      end
  end.

(** The rest of [mint_cred_ticket] once a test lease is held. *)
Definition mint_for_test (tcfg : TestMintConfig) (t : TenantId) (req : TestMintRequest) (lease : string) (now deadline : Z) :
    Task W TestMintReply :=
  minted ← ask (ext_mint_pat (tq_repo_full_name req) (tq_installation_id req) (default EmptyString (tq_acquiring_pat req)) lease deadline now);
  match minted with
  | None => ledger_op (Mem.remove lease);; mret TestUnavailable
  | Some m =>
    stash_cred lease (mkCred (pat_token m) (default EmptyString (clw_endpoint cfg)) (as_str t));;
    record_pat lease (pat_id m);;
    mret (TestMinted (cred_ticket cfg lease) lease (default EmptyString (tm_fabric_endpoint tcfg)))
  end.

(** [mint_cred_ticket]. *)
Definition mint_cred_ticket (headers : TestMintHeaders) (body : string) : Task W TestMintReply :=
  match test_mint with
  | None => mret TestNotFound
  | Some tcfg =>
    if negb (constant_time_eq (tm_key tcfg) (presented_key headers)) then mret TestUnauthorized
    else match test_request_of_json body with
    | None => mret TestBadRequest
    | Some req =>
      let tenant_str := default DEFAULT_TEST_MINT_TENANT (present_value (tq_tenant req)) in
      if negb (bool_decide (tenant_str ∈ tm_tenants tcfg)) then mret TestBadRequest
      else match tenant_new tenant_str with
      | Err _ => mret TestBadRequest
      | Ok t =>
        if negb (has_cred_signer cfg && has_cas_pat_mint cfg) then mret TestUnavailable
        else
          now ← now_ms;
          lease ← ask ext_lease_id;
          let deadline := now +sat TEST_MINT_LEASE_TTL_MS in
          admitted ← ledger_op (Mem.try_admit (mkLease lease t Pending ("box:" +:+ lease) now now (Some deadline) None) U32_MAX);
          match admitted with
          | Ok true =>
            moved ← ledger_op (Mem.transition lease Held now);
            match moved with
            | Err _ => ledger_op (Mem.remove lease);; mret TestUnavailable
            | Ok _ => mint_for_test tcfg t req lease now deadline
            end
          | _ => mret TestUnavailable
          end
      end
    end
  end.
End handlers.

(** ** Tickets and leases *)

(** The messages that are hashed for a lease, in either domain. *)
Definition keyed_message {crypto : Crypto} (pad : nat) (key msg : string) : string :=
  xor_with (ascii_of_nat pad) (zero_pad BLOCK (if bool_decide (BLOCK < String.length key)%nat then sha256 key else key)) +:+ msg.
Definition sha256_collision {crypto : Crypto} : Prop := ∃ m m', m ≠ m' ∧ sha256 m = sha256 m'.

Lemma hmac_collision {crypto : Crypto} key m m' : hmac_sha256 key m = hmac_sha256 key m' → m = m' ∨ sha256_collision.
Proof.
  intros H. change (sha256 (keyed_message 92 key (sha256 (keyed_message 54 key m))) =
                    sha256 (keyed_message 92 key (sha256 (keyed_message 54 key m')))) in H.
  destruct (decide (keyed_message 92 key (sha256 (keyed_message 54 key m)) = keyed_message 92 key (sha256 (keyed_message 54 key m'))))
    as [Ho|]; [|by right; eexists _, _].
  apply string_app_cancel in Ho. destruct (decide (keyed_message 54 key m = keyed_message 54 key m')) as [Hi|]; [|by right; eexists _, _].
  left. by apply string_app_cancel in Hi.
Qed.

(** A ticket is for one lease and nothing else.  What is accepted for a lease is
    exactly the ticket made for it.  Unless SHA-256 has a collision, it is accepted
    for no other lease, and it is no ingest token of any lease, even if the two
    secrets were the same. *)
Theorem ticket_is_for_one_lease {crypto : Crypto} key a b presented :
  (∀ s, b64_decode (b64_encode s) = Some s) →
  verify_cred_ticket (signer_cred_ticket key) a presented = true →
  presented = signer_cred_ticket key a ∧
  (verify_cred_ticket (signer_cred_ticket key) b presented = true → a = b ∨ sha256_collision) ∧
  (verify_ingest_token key b presented = true → sha256_collision).
Proof.
  intros Hb64 Ha%constant_time_eq_iff. subst presented. split; [done|].
  assert (∀ m m', b64_encode (hmac_sha256 key m) = b64_encode (hmac_sha256 key m') → m = m' ∨ sha256_collision) as H.
  { intros m m' He%(f_equal b64_decode). rewrite !Hb64 in He. simplify_eq. by eapply hmac_collision. }
  split; unfold verify_cred_ticket, verify_ingest_token; rewrite constant_time_eq_iff; intros [E|]%H; auto.
  - apply string_app_cancel in E. by left.
  - discriminate E.
Qed.

(** ** Redemptions in a running server *)
Inductive CredArrival : Type :=
| Redeems (lease : string) (ticket : option string)
| TestMints (headers : TestMintHeaders) (body : string)
| CredOther (r : Request).
Inductive CredEvent : Type := CredArrives (x : CredArrival) | CredRuns (i : nat).
Definition cred_arrivals (es : list CredEvent) : list CredArrival :=
  omap (λ e, match e with CredArrives x => Some x | CredRuns _ => None end) es.

Inductive CredAnswer : Type :=
| RedeemAnswer (lease : string) (r : RedeemReply)
| TestAnswer (r : TestMintReply)
| OtherAnswer (r : Reply).

Section server.
Context {P O : Type} {prov : BoxProvisioner P} {ext : External O} {tjson : TestMintJson}.
Context {json : SerdeJson} {codec : BindingCodec} {unicode : Unicode} {ejson : EnvelopeJson} {crypto : Crypto}.
Context (cfg : Config) (test_mint : option TestMintConfig).
Abbreviation W := (AppState P O).
Implicit Types (w : W).

Definition cred_handler (x : CredArrival) : Task W CredAnswer :=
  match x with
  | Redeems lease ticket => a ← redeem cfg lease ticket; mret (RedeemAnswer lease a)
  | TestMints headers body => a ← mint_cred_ticket cfg test_mint headers body; mret (TestAnswer a)
  | CredOther r => a ← handler cfg r; mret (OtherAnswer a)
  end.
Definition cred_event (e : CredEvent) : event W CredAnswer :=
  match e with CredArrives x => Spawn (cred_handler x) | CredRuns i => Sched i end.
Definition cred_serve (es : list CredEvent) w : list (Task W CredAnswer) * W := runtime (cred_event <$> es) ([], w).
Definition cred_states (es : list CredEvent) w : list W := run_states (cred_event <$> es) ([], w).

Lemma cred_spawned es : spawned_by (cred_event <$> es) = cred_handler <$> cred_arrivals es.
Proof. induction es as [|[x|i] es IH]; cbn; [done|by f_equal|done]. Qed.

Lemma cred_sees es w i x a :
  cred_arrivals es !! i = Some x → (cred_serve es w).1 !! i = Some (Now a) →
  ∃ ws, sees (cred_handler x) ws a ∧ ws `sublist_of` cred_states es w.
Proof.
  intros Hx Ha. eapply runtime_sees; [|exact Ha]. cbn. by rewrite cred_spawned, list_lookup_fmap, Hx.
Qed.

Definition stashed (lease : string) (w : W) : bool := bool_decide (is_Some (pending_cred (tables w) !! lease)).
(** The answer that hands out the credential of a lease. *)
Definition hands_out (lease : string) (a : CredAnswer) : bool :=
  match a with RedeemAnswer l (Redeemed _ _ _ _) => String.eqb l lease | _ => false end.

Lemma handlers_pay lease x : pays (stashed lease) (hands_out lease) (cred_handler x).
Proof.
  destruct x as [l ticket|h b|r]; cbn [cred_handler]; [|by apply pays_bind..].
  unfold redeem. destruct ticket as [ticket|]; [|done].
  destruct (negb (has_cred_signer cfg)); [done|]. destruct (negb _); [done|].
  unfold mbind, Task_bind, ledger_read, ledger_op, atomic. cbn. intros w. right.
  destruct (calls_ledger _ w) as [w' [rec|]]; [|done]. cbn. destruct (negb _); [done|].
  cbn. intros v. destruct (decide (l = lease)) as [->|Hne].
  - destruct (pending_cred (tables v) !! lease) eqn:E; [left|by right]. unfold stashed. cbn.
    rewrite E, lookup_delete_eq. split_and!; [done|done|by eexists].
  - right. destruct (pending_cred (tables v) !! l); [|done]. cbn. by apply String.eqb_neq.
Qed.

Lemma sees_redeem l ticket ws pat e t d :
  sees (redeem cfg l ticket : Task W _) ws (Redeemed pat e t d) →
  ticket = Some (cred_ticket cfg l) ∧ has_cred_signer cfg = true ∧
  ∃ w1 w2, ws = [w1; w2] ∧ state <$> records (ledger w1) !! l = Some (Wire Held) ∧
    pending_cred (tables w2) !! l = Some (mkCred pat e t).
Proof.
  unfold redeem. destruct ticket as [ticket|]; [|by intros [_ ?]%sees_ret].
  destruct (has_cred_signer cfg) eqn:Hs; cbn [negb]; [|by intros [_ ?]%sees_ret].
  destruct (verify_cred_ticket (cred_ticket cfg) l ticket) eqn:Hv; cbn [negb]; [|by intros [_ ?]%sees_ret].
  apply constant_time_eq_iff in Hv. subst ticket. intros (? & ? & r & -> & (w1 & -> & Hr)%sees_get & Hk)%sees_bind.
  destruct Hr as [-> | ->]; [by apply sees_ret in Hk as [_ ?]|].
  case_bool_decide as Hheld; cbn [negb] in Hk; [|by apply sees_ret in Hk as [_ ?]].
  apply sees_bind in Hk as (? & ? & c & -> & (w2 & -> & ->)%sees_atomic & [-> Ha]%sees_ret). cbn in Ha.
  split_and!; [done|done|]. exists w1, w2. split_and!; [done|done|].
  destruct (pending_cred (tables w2) !! l) as [[]|]; [|done]. by simplify_eq/=.
Qed.

(** C8: A credential is handed out once.  However redemptions, test mints and the
    requests of tenants interleave: a redemption is answered with a credential only
    if it presented the ticket of its lease, the lease was held at a moment of the
    run, and the credential was the one kept for the lease then or later; and the
    credential of a lease is handed out at most as often as one was put there. *)
Theorem credential_is_handed_out_once es w lease :
  (∀ i ticket pat e t d,
     cred_arrivals es !! i = Some (Redeems lease ticket) →
     (cred_serve es w).1 !! i = Some (Now (RedeemAnswer lease (Redeemed pat e t d))) →
     ticket = Some (cred_ticket cfg lease) ∧ has_cred_signer cfg = true ∧
     ∃ w1 w2, [w1; w2] `sublist_of` cred_states es w ∧ state <$> records (ledger w1) !! lease = Some (Wire Held) ∧
       pending_cred (tables w2) !! lease = Some (mkCred pat e t)) ∧
  (wins (hands_out lease) (cred_serve es w).1
     ≤ Nat.b2n (stashed lease w) + rises (stashed lease) (cred_event <$> es) ([], w))%nat.
Proof.
  split.
  - intros i ticket pat e t d Hx Ha. destruct (cred_sees es w i _ _ Hx Ha) as (ws & Hs & Hsub).
    apply sees_bind in Hs as (ws1 & ws2 & a & -> & Hr & [-> Ha']%sees_ret).
    injection Ha' as <-. apply sees_redeem in Hr as (-> & Hc & w1 & w2 & -> & H1 & H2).
    split_and!; [reflexivity|exact Hc|]. exists w1, w2. split_and!; [exact Hsub|exact H1|exact H2].
  - assert (Forall (pays (stashed lease) (hands_out lease)) (spawned_by (cred_event <$> es))) as Hp.
    { rewrite cred_spawned. apply Forall_fmap, Forall_true. apply handlers_pay. }
    pose proof (runtime_wins _ _ _ [] w ltac:(constructor) Hp) as H. change (wins (hands_out lease) []) with 0%nat in H.
    fold (cred_serve es w) in H. lia.
Qed.
End server.

(** ** Runs *)
Lemma ticket_is_for_one_lease_witness :
  verify_cred_ticket (signer_cred_ticket "k") "a" (signer_cred_ticket "k" "a") = true ∧
  (verify_ingest_token "k" "b" (signer_cred_ticket "k" "a") = true → sha256_collision).
Proof.
  destruct (ticket_is_for_one_lease "k" "a" "b" (signer_cred_ticket "k" "a")) as (_ & _ & H); [done|vm_compute; reflexivity|].
  split; [vm_compute; reflexivity|exact H].
Defined.

(** A world that mints credentials; its clock goes on when a lease id is drawn. *)
Record MintingWorld : Type := mkMinting { ids_drawn : nat }.
#[export] Instance minting_world : External MintingWorld := {|
  ext_now o := (o, if bool_decide (ids_drawn o = 0%nat) then 1000 else 2000000);
  ext_mint_ready o := (o, true);
  ext_ledger_up o := (o, true);
  ext_task_panics o := (o, false);
  ext_suspended _ o := (o, false);
  ext_ac_lookup _ _ o := (o, AcMiss);
  ext_resolve_plan _ _ o := (o, PlanOk (Some one_lease));
  ext_plan_of _ o := (o, Some one_lease);
  ext_ceiling _ o := (o, 0);
  ext_lease_id o := (mkMinting (S (ids_drawn o)), counted_id (ids_drawn o));
  ext_mint_jit _ o := (o, None);
  ext_mint_pat _ _ _ _ _ _ o := (o, Some (mkPat "secret" "p1" 600000));
  ext_revoke_pat _ o := (o, true);
  ext_instant o := (o, 0);
  ext_queue_up o := (o, true);
  ext_queue_scan o := (o, (∅, λ _, 0));
|}.
Definition minting_config : Config :=
  mkConfig None Reject false true true (Some "https://cas") false None (λ id, id) (λ id, "ticket-" +:+ id) "key" false.
#[export] Instance one_request : TestMintJson := λ _, Some (mkTestRequest (Some "acme") "owner/repo" None None).
Definition test_minting : option TestMintConfig := Some (mkTestMint "a-long-enough-key" ["acme"] None).
Definition with_key : TestMintHeaders := mkTestHeaders (Some "a-long-enough-key") None.
Definition minting_start : AppState (Bound (gmap string (string * bool))) MintingWorld :=
  mkApp (mkInner ∅ ∅ ∅ ∅ ∅) meter_new [] ∅ no_tables [] (SHARD_UNKNOWN, 1) None ∅ toy_boxes (mkMinting 0).

(** A ticket is minted for a test and redeemed twice; long after the deadline of its
    lease the sweeps run. *)
Definition minted_run : list CredEvent :=
  let go i n := replicate n (CredRuns i) in
  [CredArrives (TestMints with_key "")] ++ go 0%nat 20%nat ++
  [CredArrives (Redeems "l" (Some "ticket-l")); CredArrives (Redeems "l" (Some "ticket-l"))] ++ go 1%nat 5%nat ++ go 2%nat 5%nat ++
  [CredArrives (CredOther SweepReap)] ++ go 3%nat 40%nat ++ [CredArrives (CredOther SweepCrashes)] ++ go 4%nat 40%nat ++
  [CredArrives (CredOther (SweepPending 0))] ++ go 5%nat 40%nat.
Definition minted_result : list (Task (AppState (Bound (gmap string (string * bool))) MintingWorld) CredAnswer) *
    AppState (Bound (gmap string (string * bool))) MintingWorld :=
  cred_serve minting_config test_minting minted_run minting_start.

Definition answers {W A} (ts : list (Task W A)) : list (option A) :=
  (λ t, match t with Now a => Some a | Later _ _ => None end) <$> ts.

(** A test lease is never reclaimed.  A ticket minted for a test is redeemed once.
    The lease behind it has no box, so no teardown of it is ever confirmed: long
    after its deadline, all the sweeps find nothing to do, the lease still holds a
    slot of its tenant, and the credential is still on record, not revoked. *)
Theorem test_lease_is_never_reclaimed :
  answers minted_result.1 =
    [Some (TestAnswer (TestMinted "ticket-l" "l" "")); Some (RedeemAnswer "l" (Redeemed "secret" "https://cas" "acme" "runner"));
     Some (RedeemAnswer "l" RedeemGone); Some (OtherAnswer (Swept (Some 0%nat))); Some (OtherAnswer (Swept (Some 0%nat)));
     Some (OtherAnswer (Swept (Some 0%nat)))] ∧
  (λ r, (state r, deadline_ms r)) <$> records (ledger minted_result.2) !! "l" = Some (Wire Held, Some 601000) ∧
  (ext_now (outside minted_result.2)).2 = 2000000 ∧ held_of (ledger minted_result.2) acme = 1 ∧
  pat_ids (tables minted_result.2) !! "l" = Some "p1" ∧ counted minted_result.2 = [].
Proof. split_and!; vm_compute; reflexivity. Qed.
