(* ===== verification/Mint.v ===== *)
(** * Minted credentials: [runner_broker.rs] and [runner_cas_mint.rs]

    The two clients that mint what a box is started with: the registration of a
    runner at GitHub, through an App or with a token of the operator, and the
    credential of a job at the cache service.  What they send, in which order and
    with which credential, and which answers they take for a credential. *)
From stdpp Require Import pretty.
From S2P Require Import Prelude Ledger Journal Decimal Text Lease Boxes Task Attest CloudEngine State CasCred.

(** A field of a struct read from JSON: it occurs once under one of its names. *)
Definition only_field (names : list string) (fields : list (string * Value)) : option Value :=
  match filter (λ kv, kv.1 ∈ names) fields with
  | [kv] => Some kv.2
  | _ => None
  end.

(** ** GitHub: [runner_broker.rs] *)
Inductive MintLeg : Type := InstallationToken | JitConfig.
Inductive GitHubError : Type :=
| GhUnreachable | GhUnauthorized | GhBadStatus (leg : MintLeg) (status : Z) | GhBadResponse (leg : MintLeg) | GhSigningFailed.

Record GhRequest : Type := mkGh { gh_url : string; gh_auth : string; gh_body : string }.
(** The transport, and the eight random bytes of a runner name. *)
Class GitHubHttp (H : Type) : Type := {
  gh_post : GhRequest → H → H * option HttpResponse;
  gh_random : H → H * string;
}.
(** RSA over the signing input, and base64 for URLs. *)
Class JwtCrypto : Type := {
  rsa_sign : string → string → option string;
  b64url : string → string;
}.

Record AppJwtClaims : Type := mkClaims { jc_app_id : string; issued_at : Z; expires_at : Z }.
(** A quoted name in the text of a claim. *)
Definition quoted (s : string) : string := String (ascii_of_nat 34) (s +:+ String (ascii_of_nat 34) EmptyString).

(** [jwt_signing_input]. *)
Definition jwt_signing_input {jwt : JwtCrypto} (c : AppJwtClaims) : string :=
  let header := "{" +:+ quoted "alg" +:+ ":" +:+ quoted "RS256" +:+ "," +:+ quoted "typ" +:+ ":" +:+ quoted "JWT" +:+ "}" in
  let payload := "{" +:+ quoted "iss" +:+ ":" +:+ quoted (jc_app_id c) +:+ "," +:+ quoted "iat" +:+ ":" +:+ pretty (issued_at c)
                 +:+ "," +:+ quoted "exp" +:+ ":" +:+ pretty (expires_at c) +:+ "}" in
  b64url header +:+ "." +:+ b64url payload.
(** [RingRsaJwtSigner::sign]. *)
Definition sign_claims {jwt : JwtCrypto} (key : string) (c : AppJwtClaims) : option string :=
  sig ← rsa_sign key (jwt_signing_input c);
  Some (jwt_signing_input c +:+ "." +:+ b64url sig).

Record GitHubAppConfig : Type := mkAppConfig {
  api_base : string;
  app_id : string;
  installation_id : string;
  runner_name : string;
  runner_group_id : Z;
  work_folder : string;
  jwt_ttl_secs : Z;
}.

(** [check_status]. *)
Definition gh_check_status (status : Z) (leg : MintLeg) : option GitHubError :=
  if (200 <=? status) && (status <=? 299) then None
  else if (status =? 401) || (status =? 403) then Some GhUnauthorized
  else Some (GhBadStatus leg status).

(** The string a one-field struct is read from. *)
Definition string_body (name : string) (v : Value) : option string :=
  match v with
  | JObject fields => only_field [name] fields ≫= as_string
  | JArray [v] => as_string v
  | _ => None
  end.

Section github.
Context {H : Type} {http : GitHubHttp H} {jt : JsonText} {jwt : JwtCrypto}.
Abbreviation G A := (M H GitHubError A).

(** One authenticated request and its non-empty string answer. *)
Definition gh_exchange (leg : MintLeg) (field : string) (r : GhRequest) : G string := λ h,
  let '(h, resp) := gh_post r h in
  (h, match resp with
      | None => Err GhUnreachable
      | Some resp =>
        match gh_check_status (rs_status resp) leg with
        | Some e => Err e
        | None =>
          match json_of_string (rs_body resp) ≫= string_body field with
          | Some s => if bool_decide (s = EmptyString) then Err (GhBadResponse leg) else Ok s
          | None => Err (GhBadResponse leg)
          end
        end
      end).

Definition jitconfig_url (base : string) (scope : RunnerScope) : string :=
  let base := trim_end_matches "/" base in
  match scope_target scope with
  | TargetRepo owner repo => base +:+ "/repos/" +:+ owner +:+ "/" +:+ repo +:+ "/actions/runners/generate-jitconfig"
  | TargetOrg org => base +:+ "/orgs/" +:+ org +:+ "/actions/runners/generate-jitconfig"
  end.

(** [unique_runner_name]. *)
Definition unique_runner_name (base : string) : G string := λ h,
  let '(h, bytes) := gh_random h in (h, Ok (base +:+ "-" +:+ lower_hex bytes)).

(** The last leg, with any bearer token. *)
Definition generate_jitconfig (base name : string) (group : Z) (work token : string) (scope : RunnerScope) : G string :=
  name ← unique_runner_name name;
  gh_exchange JitConfig "encoded_jit_config"
    (mkGh (jitconfig_url base scope) ("Bearer " +:+ token)
       (json_to_string (JObject [("name", JString name); ("labels", JArray (JString <$> scope_labels scope));
                                 ("runner_group_id", jnum group); ("work_folder", JString work)]))).

(** [GitHubAppBroker]. *)
Definition installation_token (cfg : GitHubAppConfig) (key : string) (now : Z) : G string :=
  let ttl := Z.min (jwt_ttl_secs cfg) 600 in
  match sign_claims key (mkClaims (app_id cfg) (now -sat 60) (now +sat ttl)) with
  | None => throw GhSigningFailed
  | Some jwt =>
    gh_exchange InstallationToken "token"
      (mkGh (trim_end_matches "/" (api_base cfg) +:+ "/app/installations/" +:+ installation_id cfg +:+ "/access_tokens")
         ("Bearer " +:+ jwt) "{}")
  end.
Definition jit_config (cfg : GitHubAppConfig) (token : string) (scope : RunnerScope) : G string :=
  generate_jitconfig (api_base cfg) (runner_name cfg) (runner_group_id cfg) (work_folder cfg) token scope.
Definition app_mint_jit_config (cfg : GitHubAppConfig) (key : string) (now : Z) (scope : RunnerScope) : G string :=
  token ← installation_token cfg key now;
  jit_config cfg token scope.

(** [PatBroker]. *)
Record PatBrokerConfig : Type := mkPatConfig {
  pb_api_base : string;
  pb_runner_name : string;
  pb_runner_group_id : Z;
  pb_work_folder : string;
}.
Definition pat_mint_jit_config (cfg : PatBrokerConfig) (pat : string) (scope : RunnerScope) : G string :=
  generate_jitconfig (pb_api_base cfg) (pb_runner_name cfg) (pb_runner_group_id cfg) (pb_work_folder cfg) pat scope.
End github.

(** ** The broker from the environment *)
Inductive KeyParseError : Type := KeyEmpty | NotPkcs8 | KeyBase64.

(** [chars().filter(|c| !c.is_whitespace())]. *)
Fixpoint remove_ws (s : string) : string :=
  match s with
  | EmptyString => EmptyString
  | String a s1 =>
    if ws1 a then remove_ws s1
    else match s1 with
    | String b s2 =>
      if ws2 a b then remove_ws s2
      else match s2 with
      | String c s3 => if ws3 a b c then remove_ws s3 else String a (remove_ws s1)
      | EmptyString => String a (remove_ws s1)
      end
    | EmptyString => String a EmptyString
    end
  end.

(** [parse_pkcs8_pem]. *)
Definition parse_pkcs8_pem {crypto : Crypto} (pem : string) : result KeyParseError string :=
  let trimmed := trim pem in
  if bool_decide (trimmed = EmptyString) then Err KeyEmpty
  else if contains "BEGIN RSA PRIVATE KEY" trimmed then Err NotPkcs8
  else
    let body := remove_ws (join EmptyString (filter (λ l, starts_with "-----" l = false) (lines trimmed))) in
    if bool_decide (body = EmptyString) then Err KeyEmpty
    else match b64_decode body with Some der => Ok der | None => Err KeyBase64 end.

Inductive RunnerBroker : Type :=
| BrokerPat (cfg : PatBrokerConfig) (pat : string)
| BrokerApp (cfg : GitHubAppConfig) (key : string).

(** [runner_broker_from_env]; without a broker there are no runners. *)
Definition runner_broker_from_env {crypto : Crypto} (env : string → option string) : option RunnerBroker :=
  let nonempty k := present_value (env k) in
  let base := default "https://api.github.com" (nonempty "FABRIC_GITHUB_API_BASE") in
  let name := default "corelink-runner" (nonempty "FABRIC_GITHUB_RUNNER_NAME") in
  let group := default 1 (nonempty "FABRIC_GITHUB_RUNNER_GROUP_ID" ≫= parse_unsigned U64_MAX) in
  match nonempty "FABRIC_GITHUB_MINT_TOKEN" with
  | Some pat => if reject_weak_secret pat then None else Some (BrokerPat (mkPatConfig base name group "_work") pat)
  | None =>
    app ← nonempty "FABRIC_GITHUB_APP_ID";
    inst ← nonempty "FABRIC_GITHUB_APP_INSTALLATION_ID";
    pem ← match nonempty "FABRIC_GITHUB_APP_PRIVATE_KEY_B64" with
          | Some b64 => bytes ← b64_decode (remove_ws b64); if utf8_valid bytes then Some bytes else None
          | None => nonempty "FABRIC_GITHUB_APP_PRIVATE_KEY"
          end;
    match parse_pkcs8_pem pem with
    | Err _ => None
    | Ok key => Some (BrokerApp (mkAppConfig base app inst name group "_work" 600) key)
    end
  end.

(** The registration the lease handlers ask for. *)
Definition mint_jit_config {H : Type} {http : GitHubHttp H} {jt : JsonText} {jwt : JwtCrypto}
    (broker : RunnerBroker) (now : Z) (scope : RunnerScope) : M H GitHubError string :=
  match broker with
  | BrokerPat cfg pat => pat_mint_jit_config cfg pat scope
  | BrokerApp cfg key => app_mint_jit_config cfg key now scope
  end.

(** ** The cache service: [runner_cas_mint.rs] *)
Inductive MintError : Type :=
| MintUnreachable | MintUnauthorized | EdgeProxyForbidden | MintBadStatus (status : Z) | MintBadResponse
| TtlExceedsLease (expires_ms lease_deadline_ms : Z)
| LeaseTooShort (remaining_ms : Z).

Record CasRequest : Type := mkCas { cas_url : string; cas_internal_auth : string; cas_bearer : option string; cas_body : string }.
Class MintHttp (H : Type) : Type := cas_post : CasRequest → H → H * option HttpResponse.

Definition is_edge_proxy_forbidden (body : string) : bool :=
  let body := to_ascii_lowercase body in
  contains "cloudflare" body || contains "cf-access" body || contains "access denied" body || contains "<!doctype html" body.

(** [HttpCasPatMint::check_status]. *)
Definition cas_check_status (status : Z) (body : string) : option MintError :=
  if (200 <=? status) && (status <=? 299) then None
  else if status =? 401 then Some MintUnauthorized
  else if (status =? 403) && is_edge_proxy_forbidden body then Some EdgeProxyForbidden
  else if status =? 403 then Some MintUnauthorized
  else Some (MintBadStatus status).

(** [MintResponseBody]. *)
Definition mint_response (v : Value) : option MintedPat :=
  '(token, pat, expires) ←
    match v with
    | JObject fields =>
      token ← only_field ["token_plaintext"; "token"] fields;
      pat ← only_field ["pat_id"] fields;
      expires ← only_field ["expires_ms"] fields;
      Some (token, pat, expires)
    | JArray [token; pat; expires] => Some (token, pat, expires)
    | _ => None
    end;
  token ← as_string token; pat ← as_string pat; expires ← as_u64_view expires;
  Some (mkPat token pat expires).

Definition MINT_TTL_SKEW_MARGIN_MS : Z := 30000.

Record CasMintConfig : Type := mkCasMint { base_url : string; internal_token : string }.

Section cas.
Context {H : Type} {http : MintHttp H} {jt : JsonText} (cfg : CasMintConfig).
Abbreviation K A := (M H MintError A).

(** [MintRequestBody]. *)
Definition mint_request_body (job repo : string) (inst : option string) (ttl : Z) : Value :=
  JObject ([("job_id", JString job); ("repo_full_name", JString repo)] ++
           match inst with Some i => [("installation_id", JString i)] | None => [] end ++
           [("scope", JString "read-write"); ("ttl_seconds", jnum ttl)]).

Definition ttl_for (lease_deadline_ms now_ms : Z) : Z :=
  ((lease_deadline_ms -sat now_ms) -sat MINT_TTL_SKEW_MARGIN_MS) / 1000.

(** What an answer of the mint comes to. *)
Definition minted_of (lease_deadline_ms : Z) (resp : option HttpResponse) : result MintError MintedPat :=
  match resp with
  | None => Err MintUnreachable
  | Some resp =>
    match cas_check_status (rs_status resp) (rs_body resp) with
    | Some e => Err e
    | None =>
      match json_of_string (rs_body resp) ≫= mint_response with
      | None => Err MintBadResponse
      | Some m =>
        if bool_decide (pat_token m = EmptyString) || bool_decide (pat_id m = EmptyString) then Err MintBadResponse
        else if lease_deadline_ms <? pat_expires_ms m then Err (TtlExceedsLease (pat_expires_ms m) lease_deadline_ms)
        else Ok m
      end
    end
  end.

(** [HttpCasPatMint::mint]. *)
Definition cas_mint (repo : string) (inst : option string) (acquiring_pat job : string) (lease_deadline_ms now_ms : Z) : K MintedPat :=
  let ttl := ttl_for lease_deadline_ms now_ms in
  if ttl =? 0 then throw (LeaseTooShort (lease_deadline_ms -sat now_ms))
  else λ h,
    let '(h, resp) := cas_post (mkCas (base_url cfg +:+ "/internal/v1/runner/mint") (internal_token cfg) (Some acquiring_pat)
                                  (json_to_string (mint_request_body job repo inst ttl))) h in
    (h, minted_of lease_deadline_ms resp).

(** [HttpCasPatMint::revoke]. *)
Definition cas_revoke (pat : string) : K unit := λ h,
  let '(h, resp) := cas_post (mkCas (base_url cfg +:+ "/internal/v1/runner/revoke") (internal_token cfg) None
                                (json_to_string (JObject [("pat_id", JString pat)]))) h in
  (h, match resp with
      | Some resp => if (200 <=? rs_status resp) && (rs_status resp <=? 299) then Ok () else Err MintUnreachable
      | None => Err MintUnreachable
      end).
End cas.

(** [cas_pat_mint_from_env]; [None] refuses to boot. *)
Definition cas_pat_mint_from_env (env : string → option string) : option (option CasMintConfig) :=
  match present_value (env "CORELINK_RUNNER_MINT_AUTH_KEY"), present_value (env "CORELINK_RUNNER_MINT_URL") with
  | None, None => Some None
  | Some key, Some url => if reject_weak_secret key then None else Some (Some (mkCasMint (trim_end_matches "/" url) key))
  | _, _ => None
  end.

(** ** What is sent *)

(** The transports with a log of the requests. *)
Definition logged_github {H} (http : GitHubHttp H) : GitHubHttp (list GhRequest * H) := {|
  gh_post r lh := let '(h, x) := gh_post r lh.2 in ((lh.1 ++ [r], h), x);
  gh_random lh := let '(h, x) := gh_random lh.2 in ((lh.1, h), x);
|}.
Definition logged_mint {H} (http : MintHttp H) : MintHttp (list CasRequest * H) := λ r lh,
  let '(h, x) := cas_post r lh.2 in ((lh.1 ++ [r], h), x).

Lemma gh_exchange_spec {H} (http : GitHubHttp H) {jt : JsonText} leg field r lh lh' x :
  gh_exchange (http := logged_github http) leg field r lh = (lh', x) →
  lh'.1 = lh.1 ++ [r] ∧
  match x with
  | Ok s => s ≠ EmptyString ∧ ∃ resp v, (gh_post r lh.2).2 = Some resp ∧ 200 ≤ rs_status resp ≤ 299 ∧
      json_of_string (rs_body resp) = Some v ∧ string_body field v = Some s
  | Err _ => True
  end.
Proof.
  unfold gh_exchange. cbn. destruct (gh_post r lh.2) as [h [resp|]] eqn:E; cbn; intros [= <- <-]; cbn; (split; [done|]); [|done].
  unfold gh_check_status. destruct ((200 <=? rs_status resp) && (rs_status resp <=? 299)) eqn:Hs; [|by destruct (_ || _)].
  destruct (json_of_string (rs_body resp)) as [v|] eqn:Hv; cbn; [|done].
  destruct (string_body field v) as [s|] eqn:Hb; [|done]. case_bool_decide; [done|]. split; [done|]. exists resp, v.
  split_and!; (done || lia).
Qed.

(** A registration is minted in two legs.  Whatever GitHub answers, the App sends at
    most two requests.  The first goes to its installation, with a token signed
    over the App's id that was issued a minute ago and lasts at most ten minutes
    more; the second goes to the runners of exactly the target that was asked for,
    with the token GitHub answered to the first, and nothing else is ever sent with
    either.  A registration is returned only if both were answered with success
    and the second with that registration, which is not empty. *)
Theorem registration_takes_two_legs {H} (http : GitHubHttp H) {jt : JsonText} {jwt : JwtCrypto} cfg key now scope h log h' r :
  is_u64 now → 0 ≤ jwt_ttl_secs cfg → now + 600 ≤ U64_MAX →
  app_mint_jit_config (http := logged_github http) cfg key now scope ([], h) = ((log, h'), r) →
  ∃ c, jc_app_id c = app_id cfg ∧ now - 60 ≤ issued_at c ≤ now ∧ now ≤ expires_at c ≤ now + 600 ∧
    match sign_claims key c with
    | None => log = [] ∧ r = Err GhSigningFailed
    | Some token =>
      let first := mkGh (trim_end_matches "/" (api_base cfg) +:+ "/app/installations/" +:+ installation_id cfg +:+ "/access_tokens")
                     ("Bearer " +:+ token) "{}" in
      (log = [first] ∧ ∃ e, r = Err e) ∨
      ∃ resp v inst second, log = [first; second] ∧
        (gh_post first h).2 = Some resp ∧ 200 ≤ rs_status resp ≤ 299 ∧
        json_of_string (rs_body resp) = Some v ∧ string_body "token" v = Some inst ∧ inst ≠ EmptyString ∧
        gh_url second = jitconfig_url (api_base cfg) scope ∧ gh_auth second = "Bearer " +:+ inst ∧
        ∀ jit, r = Ok jit → jit ≠ EmptyString ∧ ∃ h1 resp v, (gh_post second h1).2 = Some resp ∧ 200 ≤ rs_status resp ≤ 299 ∧
          json_of_string (rs_body resp) = Some v ∧ string_body "encoded_jit_config" v = Some jit
    end.
Proof.
  intros Hn Ht Hmax Hrun. exists (mkClaims (app_id cfg) (now -sat 60) (now +sat Z.min (jwt_ttl_secs cfg) 600)).
  cbn [jc_app_id issued_at expires_at]. split; [done|]. split; [mlia|]. split; [mlia|].
  revert Hrun. unfold app_mint_jit_config, installation_token.
  destruct (sign_claims key _) as [token|] eqn:Es; [|by intros [= <- <- <-]].
  unfold mbind at 1, M_bind at 1. set (first := mkGh _ _ "{}").
  destruct (gh_exchange (http := logged_github http) _ _ first ([], h)) as [[l1 h1] [inst|e]] eqn:E1;
    pose proof (gh_exchange_spec http _ _ _ _ _ _ E1) as [Hl1 Hx1]; cbn in Hl1; subst l1.
  2: { intros [= <- <- <-]. left. split; [done|by eexists]. }
  destruct Hx1 as (Hne & resp & v & Hp & Hs & Hv & Hb). unfold jit_config, generate_jitconfig, unique_runner_name.
  unfold mbind, M_bind. cbn. destruct (gh_random h1) as [h2 bytes]. set (second := mkGh _ _ (json_to_string _)).
  destruct (gh_exchange (http := logged_github http) _ _ second _) as [[l2 h3] x] eqn:E2.
  apply gh_exchange_spec in E2 as [Hl2 Hx2]. cbn in Hl2. subst l2. intros [= <- <- <-]. right.
  exists resp, v, inst, second. split_and!; try done; try lia. intros jit ->. destruct Hx2 as [? Hx2]. split; [done|by exists h2].
Qed.

Lemma ttl_for_spec deadline now :
  is_u64 deadline → is_u64 now →
  (ttl_for deadline now = 0 ∧ deadline - now < 31000) ∨ (0 < ttl_for deadline now ∧ now + 1000 * ttl_for deadline now + 30000 ≤ deadline).
Proof. unfold ttl_for, MINT_TTL_SKEW_MARGIN_MS, sat_sub, is_u64. intros. Z.to_euclidean_division_equations. lia. Qed.

Lemma minted_of_spec {jt : JsonText} deadline resp m :
  minted_of deadline resp = Ok m → pat_token m ≠ EmptyString ∧ pat_id m ≠ EmptyString ∧ pat_expires_ms m ≤ deadline.
Proof.
  unfold minted_of. destruct resp as [resp|]; [|done]. destruct (cas_check_status _ _); [done|].
  destruct (json_of_string _ ≫= mint_response) as [m'|]; [|done].
  case_bool_decide; [done|]. case_bool_decide; [done|]. cbn [orb].
  destruct (Z.ltb_spec deadline (pat_expires_ms m')); [done|]. by intros [= <-].
Qed.

(** A credential dies with its lease.  What the mint returns names a credential that
    is over by the deadline of the lease.  It is asked for at most once, for a
    positive number of seconds that ends half a minute before the deadline, and
    not at all in the last half minute of a lease.  So if the clock of the service
    is less than that ahead, and it stamps no more than it was asked for, the
    credential is never refused for outliving the lease. *)
Theorem credential_dies_with_its_lease {H} (http : MintHttp H) {jt : JsonText} cfg repo inst pat job deadline now h log h' r :
  is_u64 deadline → is_u64 now →
  cas_mint (http := logged_mint http) cfg repo inst pat job deadline now ([], h) = ((log, h'), r) →
  (∀ m, r = Ok m → pat_token m ≠ EmptyString ∧ pat_id m ≠ EmptyString ∧ pat_expires_ms m ≤ deadline) ∧
  ((log = [] ∧ deadline - now < 31000 ∧ ∃ left, r = Err (LeaseTooShort left)) ∨
   ∃ ttl req, log = [req] ∧ cas_body req = json_to_string (mint_request_body job repo inst ttl) ∧
     cas_bearer req = Some pat ∧ 0 < ttl ∧ now + 1000 * ttl + 30000 ≤ deadline ∧
     ∀ e d, r = Err (TtlExceedsLease e d) → now + 30000 + 1000 * ttl < e).
Proof.
  intros Hd Hn. unfold cas_mint. destruct (ttl_for_spec deadline now Hd Hn) as [[-> Hs]|[Hp Hle]].
  { intros [= <- <- <-]. split; [done|]. left. split_and!; [done|done|by eexists]. }
  rewrite (proj2 (Z.eqb_neq _ 0)) by lia. set (req := mkCas _ _ _ _). unfold cas_post at 1, logged_mint. cbn.
  destruct (cas_post req h) as [h1 resp]. intros [= <- <- <-]. split; [by intros m ?%minted_of_spec|]. right.
  exists (ttl_for deadline now), req. split_and!; try done. intros e d. unfold minted_of.
  destruct resp as [resp|]; [|done]. destruct (cas_check_status _ _) eqn:Ec.
  { unfold cas_check_status in Ec. repeat case_match; by simplify_eq. }
  destruct (json_of_string _ ≫= mint_response) as [m|]; [|done]. destruct (_ || _); [done|].
  destruct (Z.ltb_spec deadline (pat_expires_ms m)); [|done]. intros [= <- <-]. lia.
Qed.

(** ** Runs *)

(** Texts that stand for the string they hold, under every name. *)
#[local] Instance bare_json : JsonText := {|
  json_to_string _ := "{}";
  json_of_string s := Some (JObject [("token", JString s); ("encoded_jit_config", JString s);
                                     ("pat_id", JString "p1"); ("expires_ms", jnum 90000)]);
|}.
#[local] Instance bare_jwt : JwtCrypto := {| rsa_sign key m := Some key; b64url s := s |}.
#[local] Instance echo_github : GitHubHttp unit := {|
  gh_post r h := (h, Some (mkResponse 201 (gh_auth r)));
  gh_random h := (h, "");
|}.
#[local] Instance echo_mint : MintHttp unit := λ r h, (h, Some (mkResponse 200 "secret")).

Definition an_app : GitHubAppConfig := mkAppConfig "https://api.github.com/" "7" "42" "runner" 1 "_work" 600.
Definition a_scope : RunnerScope := mkScope (TargetRepo "o" "r") ["x"].

Lemma registration_takes_two_legs_witness :
  ∃ first second, (app_mint_jit_config (http := logged_github echo_github) an_app "key" 1000 a_scope ([], ())).1.1 = [first; second] ∧
    gh_url second = "https://api.github.com/repos/o/r/actions/runners/generate-jitconfig".
Proof.
  destruct (app_mint_jit_config (http := logged_github echo_github) an_app "key" 1000 a_scope ([], ())) as [[log h'] r] eqn:E.
  destruct (registration_takes_two_legs echo_github an_app "key" 1000 a_scope () log h' r) as (c & _ & _ & _ & Hc);
    [by vm_compute|by vm_compute|by vm_compute|exact E|].
  destruct (sign_claims "key" c) as [token|] eqn:Es; [|discriminate Es]. cbn zeta in Hc.
  destruct Hc as [[-> [e ->]]|(resp & v & inst & second & -> & _ & _ & _ & _ & _ & Hu & _)]; [by vm_compute in E|].
  eexists _, second. split; [done|]. rewrite Hu. vm_compute. reflexivity.
Defined.

Lemma credential_dies_with_its_lease_witness :
  ∃ m, (cas_mint (http := logged_mint echo_mint) (mkCasMint "https://cas" "key") "o/r" None "pat" "job" 100000 1000 ([], ())).2 = Ok m ∧
    pat_expires_ms m ≤ 100000.
Proof.
  destruct (cas_mint (http := logged_mint echo_mint) (mkCasMint "https://cas" "key") "o/r" None "pat" "job" 100000 1000 ([], ()))
    as [[log h'] r] eqn:E.
  destruct (credential_dies_with_its_lease echo_mint (mkCasMint "https://cas" "key") "o/r" None "pat" "job" 100000 1000 () log h' r)
    as [Hm _]; [by vm_compute|by vm_compute|exact E|].
  destruct r as [m|e]; [|by vm_compute in E]. exists m. split; [done|]. by apply (Hm m).
Defined.

