(* ===== verification/Shim.v ===== *)
(** * The workflow shim: [crates/corelink-runner/src/shim]

    The shim reads a subset of GitHub workflow files with a parser of its own
    ([parser.rs]), line by line, and goes through the steps of the first job
    ([executor.rs]): conditions, supported actions, secrets resolved at a broker
    ([broker.rs]).  The commands themselves are not run.  What is outside the
    subset is to be reported ([report.rs]), never skipped. *)
From stdpp Require Import pretty.
From S2P Require Import Prelude Ledger Journal Text Lease CloudEngine Fence.

(** ** Reports *)
Record UnsupportedConstruct : Type := mkConstruct { construct_name : string; actionable_guidance : string }.
Record OutOfContractReport : Type := mkReport { construct : UnsupportedConstruct }.
Definition unsupported (name guidance : string) : OutOfContractReport := mkReport (mkConstruct name guidance).

Record ShimDiagnostic : Type := mkDiagnostic { diag_out_of_contract : list OutOfContractReport; fully_supported : bool }.
Definition from_reports (reports : list OutOfContractReport) : ShimDiagnostic :=
  mkDiagnostic reports (bool_decide (reports = [])).

(** ** The secrets broker *)
Inductive SecretResolution : Type :=
| Resolved (secret_name injection_token : string)
| Denied (secret_name reason : string).
Inductive BrokerError : Type :=
| BrokerSecretDenied (secret_name reason : string)
| BrokerUnavailable (msg : string).

Class Broker : Type := resolve_secret : string → FenceManifest → result BrokerError SecretResolution.
Definition NullBroker : Broker := λ secret_name _,
  Err (BrokerSecretDenied secret_name "NullBroker: no secrets are available in this environment").
Definition StubBroker (tokens : gmap string string) : Broker := λ secret_name _,
  match tokens !! secret_name with
  | Some token => Ok (Resolved secret_name token)
  | None => Err (BrokerSecretDenied secret_name "not configured in StubBroker (simulates missing secret)")
  end.

(** [s.split_once(pat)] at the first occurrence of a string: what [find] and the
    slices around it give. *)
Fixpoint split_at (pat s : string) : option (string * string) :=
  match strip_prefix pat s with
  | Some rest => Some (EmptyString, rest)
  | None =>
    match s with
    | EmptyString => None
    | String c s => (λ ab : string * string, (String c ab.1, ab.2)) <$> split_at pat s
    end
  end.

(** [extract_secret_refs]; each round takes at least three bytes. *)
Fixpoint secret_refs (fuel : nat) (s : string) : list string :=
  match fuel with
  | O => []
  | S fuel =>
    match split_at "${{" s with
    | None => []
    | Some (_, after) =>
      match split_at "}}" after with
      | None => []
      | Some (inside, rest) =>
        let here :=
          match strip_prefix "secrets." (trim inside) with
          | Some name => if bool_decide (trim name = EmptyString) then [] else [trim name]
          | None => []
          end in
        here ++ secret_refs fuel rest
      end
    end
  end.
Definition extract_secret_refs (s : string) : list string := secret_refs (String.length s) s.

(** ** Parsed workflows *)
Inductive WorkflowParseError : Type := EmptyInput | MissingOnKey | MissingJobsKey | Malformed (what : string).

Record Step : Type := mkStep {
  step_name : option string;
  step_run : option string;
  step_uses : option string;
  step_with : gmap string string;
  step_env : gmap string string;
  continue_on_error : bool;
  step_if : option string;
}.
Record Job : Type := mkJob {
  job_id : string;
  runs_on : string;
  job_env : gmap string string;
  job_if : option string;
  job_steps : list Step;
}.
Record ParsedWorkflow : Type := mkWorkflow {
  triggers : list string;
  jobs : list Job;
  wf_out_of_contract : list OutOfContractReport;
}.
Definition is_fully_supported (w : ParsedWorkflow) : bool := bool_decide (wf_out_of_contract w = []).

(** ** The parser *)
Definition QUOTE : ascii := ascii_of_nat 34.
Definition TAB : string := String (ascii_of_nat 9) EmptyString.

(** [split_kv]. *)
Definition split_kv (s : string) : string * string :=
  match split_once ":" s with
  | Some (k, v) => (trim k, trim_matches "'" (trim_matches QUOTE (trim v)))
  | None => (s, EmptyString)
  end.

Definition supported_actions : list string := ["actions/upload-artifact@v3"; "actions/download-artifact@v3"].
Definition action_supported (uses : string) : bool := existsb (λ a, starts_with a uses) supported_actions.

(** [!line.starts_with(' ') && !line.starts_with('\t')]. *)
Definition at_margin (line : string) : bool := negb (starts_with " " line) && negb (starts_with TAB line).

(** One event of an inline list. *)
Definition inline_event (ev : string) : string := trim_matches "]" (trim_matches "[" (trim ev)).

(** The lines of [parse_triggers] after [on:]; the flag is [in_on]. *)
Definition trigger_line (st : bool * list string) (line : string) : bool * list string :=
  let '(in_on, triggers) := st in
  match strip_prefix "on:" line with
  | Some rest =>
    let rest := trim rest in
    (true, triggers ++
      (if bool_decide (rest = EmptyString) then []
       else if bool_decide (rest ∈ ["push"; "pull_request"; "workflow_dispatch"]) then [rest]
       else filter (λ ev, ev ≠ EmptyString) (inline_event <$> split "," rest)))
  | None =>
    if in_on then
      if starts_with "jobs:" line || at_margin line then (false, triggers)
      else
        let trimmed := trim_end_matches ":" (trim line) in
        (true, triggers ++
          (if bool_decide (trimmed = EmptyString) || starts_with "#" trimmed then [] else [trimmed]))
    else (in_on, triggers)
  end.
Definition parse_triggers (lines : list string) : list string :=
  match (foldl trigger_line (false, []) lines).2 with
  | [] => ["push"]
  | triggers => triggers
  end.

(** The variables of [parse_step]: the step so far, its reports, and where in the
    step a line is read. *)
Record StepScan : Type := mkScan {
  sc_step : Step;
  sc_reports : list OutOfContractReport;
  run_lines : list string;
  in_run_multiline : bool;
  in_with : bool;
  in_step_env : bool;
}.
Definition scan_start : StepScan := mkScan (mkStep None None None ∅ ∅ false None) [] [] false false false.

Definition at_step (f : Step → Step) (p : StepScan) : StepScan :=
  mkScan (f (sc_step p)) (sc_reports p) (run_lines p) (in_run_multiline p) (in_with p) (in_step_env p).
Definition at_key (p : StepScan) : StepScan :=
  mkScan (sc_step p) (sc_reports p) (run_lines p) (in_run_multiline p) false false.
Definition reporting (r : OutOfContractReport) (p : StepScan) : StepScan :=
  mkScan (sc_step p) (sc_reports p ++ [r]) (run_lines p) (in_run_multiline p) (in_with p) (in_step_env p).
Definition push_line (l : string) (p : StepScan) : StepScan :=
  mkScan (sc_step p) (sc_reports p) (run_lines p ++ [l]) (in_run_multiline p) (in_with p) (in_step_env p).

Definition set_name (v : string) (s : Step) : Step :=
  mkStep (Some v) (step_run s) (step_uses s) (step_with s) (step_env s) (continue_on_error s) (step_if s).
Definition set_run (v : string) (s : Step) : Step :=
  mkStep (step_name s) (Some v) (step_uses s) (step_with s) (step_env s) (continue_on_error s) (step_if s).
Definition set_uses (v : string) (s : Step) : Step :=
  mkStep (step_name s) (step_run s) (Some v) (step_with s) (step_env s) (continue_on_error s) (step_if s).
Definition set_continue (b : bool) (s : Step) : Step :=
  mkStep (step_name s) (step_run s) (step_uses s) (step_with s) (step_env s) b (step_if s).
Definition set_if (v : string) (s : Step) : Step :=
  mkStep (step_name s) (step_run s) (step_uses s) (step_with s) (step_env s) (continue_on_error s) (Some v).
Definition add_with (kv : string * string) (s : Step) : Step :=
  mkStep (step_name s) (step_run s) (step_uses s) (<[kv.1 := kv.2]> (step_with s)) (step_env s) (continue_on_error s) (step_if s).
Definition add_env (kv : string * string) (s : Step) : Step :=
  mkStep (step_name s) (step_run s) (step_uses s) (step_with s) (<[kv.1 := kv.2]> (step_env s)) (continue_on_error s) (step_if s).

(** [run:], on one line or as a block. *)
Definition run_key (val : string) (p : StepScan) : StepScan :=
  let r := trim val in
  if bool_decide (r ∈ ["|"; "|-"]) then mkScan (sc_step p) (sc_reports p) [] true (in_with p) (in_step_env p)
  else if bool_decide (r = EmptyString) then p
  else at_step (set_run r) p.

Definition LF_ : string := String (ascii_of_nat 10) EmptyString.
Definition end_multiline (p : StepScan) : StepScan :=
  mkScan (set_run (join LF_ (run_lines p)) (sc_step p)) (sc_reports p) (run_lines p) false (in_with p) (in_step_env p).

(** What follows the dash. *)
Definition first_key (first_line : string) : StepScan :=
  let rest := trim (trim_start_matches "-" (trim first_line)) in
  match strip_prefix "name:" rest with
  | Some v => at_step (set_name (trim v)) scan_start
  | None =>
  match strip_prefix "run:" rest with
  | Some v => run_key v scan_start
  | None =>
  match strip_prefix "uses:" rest with
  | Some v => at_step (set_uses (trim v)) scan_start
  | None => scan_start
  end end end.

(** A line of the step outside a block. *)
Definition step_key (trimmed : string) (p : StepScan) : StepScan :=
  match strip_prefix "name:" trimmed with
  | Some v => at_key (at_step (set_name (trim v)) p)
  | None =>
  match strip_prefix "run:" trimmed with
  | Some v => at_key (run_key v p)
  | None =>
  match strip_prefix "uses:" trimmed with
  | Some v => at_key (at_step (set_uses (trim v)) p)
  | None =>
  match strip_prefix "continue-on-error:" trimmed with
  | Some v => at_key (at_step (set_continue (bool_decide (trim v = "true"))) p)
  | None =>
  match strip_prefix "if:" trimmed with
  | Some v => at_key (at_step (set_if (trim v)) p)
  | None =>
    if starts_with "with:" trimmed
    then mkScan (sc_step p) (sc_reports p) (run_lines p) (in_run_multiline p) true false
    else if starts_with "env:" trimmed
    then mkScan (sc_step p) (sc_reports p) (run_lines p) (in_run_multiline p) false true
    else if in_with p && has_byte ":" trimmed then at_step (add_with (split_kv trimmed)) p
    else if in_step_env p && has_byte ":" trimmed then at_step (add_env (split_kv trimmed)) p
    else if starts_with "timeout-minutes:" trimmed
    then reporting (unsupported "step `timeout-minutes:`" "Per-step timeout-minutes is not in the shim's supported subset (v0). See docs/shim/supported-subset.md.") p
    else if starts_with "retry-on:" trimmed || starts_with "retry:" trimmed
    then reporting (unsupported "step `retry:`" "Step retry is not in the shim's supported subset (v0). See docs/shim/supported-subset.md.") p
    else p
  end end end end end.

(** The loop of [parse_step]. *)
Fixpoint scan_step (p : StepScan) (lines : list string) : StepScan :=
  match lines with
  | [] => p
  | line :: lines =>
    let trimmed := trim line in
    let deep := starts_with "          " line || starts_with "        " line in
    if starts_with "- " trimmed || starts_with "- name:" trimmed then p
    else if negb deep && negb (bool_decide (line = EmptyString)) then p
    else if in_run_multiline p then
      if bool_decide (trimmed = EmptyString) then scan_step (step_key trimmed (push_line EmptyString p)) lines
      else if deep then scan_step (push_line trimmed p) lines
      else scan_step (step_key trimmed (end_multiline p)) lines
    else scan_step (step_key trimmed p) lines
  end.

Definition uses_report (uses : string) : list OutOfContractReport :=
  if action_supported uses then []
  else [unsupported ("uses: " +:+ uses)
          ("Action `" +:+ uses +:+ "` is not in the shim's supported subset. Supported actions: "
           +:+ join ", " supported_actions +:+ ". See docs/shim/supported-subset.md.")].

(** [parse_step]: the line of the dash and the lines after it. *)
Definition parse_step (first_line : string) (lines : list string) : Step * list OutOfContractReport :=
  let p := scan_step (first_key first_line) lines in
  let s := if in_run_multiline p && negb (bool_decide (run_lines p = []))
           then set_run (join LF_ (run_lines p)) (sc_step p) else sc_step p in
  (s, sc_reports p ++ match step_uses s with Some u => uses_report u | None => [] end).

(** The variables of [parse_single_job]. *)
Record JobScan : Type := mkJobScan {
  sc_job : Job;
  jc_reports : list OutOfContractReport;
  in_steps : bool;
  in_job_env : bool;
}.
Definition in_job (f : Job → Job) (steps env : bool) (p : JobScan) : JobScan :=
  mkJobScan (f (sc_job p)) (jc_reports p) steps env.
Definition job_reports (rs : list OutOfContractReport) (p : JobScan) : JobScan :=
  mkJobScan (sc_job p) (jc_reports p ++ rs) (in_steps p) (in_job_env p).
Definition set_runs_on (v : string) (j : Job) : Job := mkJob (job_id j) v (job_env j) (job_if j) (job_steps j).
Definition set_job_if (v : string) (j : Job) : Job := mkJob (job_id j) (runs_on j) (job_env j) (Some v) (job_steps j).
Definition add_job_env (kv : string * string) (j : Job) : Job :=
  mkJob (job_id j) (runs_on j) (<[kv.1 := kv.2]> (job_env j)) (job_if j) (job_steps j).
Definition add_step (s : Step) (j : Job) : Job :=
  mkJob (job_id j) (runs_on j) (job_env j) (job_if j) (job_steps j ++ [s]).

Definition runs_on_report (v : string) : list OutOfContractReport :=
  if bool_decide (v ∈ ["ubuntu-latest"; "ubuntu-22.04"; "ubuntu-20.04"]) then []
  else [unsupported ("runs-on: " +:+ v) "Only `ubuntu-latest`, `ubuntu-22.04`, and `ubuntu-20.04` are in the supported subset. See docs/shim/supported-subset.md."].

(** A line of the job, with the lines after it. *)
Definition job_line (line : string) (lines : list string) (p : JobScan) : JobScan :=
  let trimmed := trim line in
  match strip_prefix "runs-on:" trimmed with
  | Some v => job_reports (runs_on_report (trim v)) (in_job (set_runs_on (trim v)) false false p)
  | None =>
  match strip_prefix "if:" trimmed with
  | Some v => in_job (set_job_if (trim v)) false false p
  | None =>
    if starts_with "env:" trimmed then in_job (λ j, j) false true p
    else if bool_decide (trimmed = "steps:") then in_job (λ j, j) true false p
    else if in_job_env p && has_byte ":" trimmed && negb (starts_with "-" trimmed)
    then in_job (add_job_env (split_kv trimmed)) (in_steps p) (in_job_env p) p
    else if starts_with "strategy:" trimmed
    then job_reports [unsupported "job `strategy:` (matrix)" "Matrix/strategy builds are not in the shim's supported subset (v0). Use a single-job workflow. See docs/shim/supported-subset.md."] p
    else if starts_with "services:" trimmed
    then job_reports [unsupported "job `services:`" "Service containers are not in the shim's supported subset (v0). See docs/shim/supported-subset.md."] p
    else if starts_with "container:" trimmed
    then job_reports [unsupported "job `container:`" "Container jobs are not in the shim's supported subset (v0). See docs/shim/supported-subset.md."] p
    else if starts_with "timeout-minutes:" trimmed
    then job_reports [unsupported "job `timeout-minutes:`" "timeout-minutes is not in the shim's supported subset (v0). See docs/shim/supported-subset.md."] p
    else if in_steps p && starts_with "- " trimmed
    then let '(s, rs) := parse_step line lines in job_reports rs (in_job (add_step s) (in_steps p) (in_job_env p) p)
    else p
  end end.

(** A line that starts a job: two spaces and a colon at the end. *)
Definition starts_job (line : string) : bool :=
  starts_with "  " line && negb (starts_with "    " line) && ends_with ":" (trim_end line).

Fixpoint scan_job (p : JobScan) (lines : list string) : JobScan :=
  match lines with
  | [] => p
  | line :: lines =>
    if negb (starts_with "    " line) && negb (starts_with "  " line) then p
    else if starts_job line then p
    else scan_job (job_line line lines p) lines
  end.

(** [parse_single_job]. *)
Definition parse_single_job (id : string) (lines : list string) : Job * list OutOfContractReport :=
  let p := scan_job (mkJobScan (mkJob id "ubuntu-latest" ∅ None []) [] false false) lines in
  (sc_job p, jc_reports p).

Definition known_top_level : list string := ["on:"; "jobs:"; "name:"; "env:"; "#"; "permissions:"].
Definition unsupported_keys : list string :=
  ["concurrency:"; "defaults:"; "strategy:"; "matrix:"; "services:"; "container:"; "timeout-minutes:"].
(** The reports on one line at the margin. *)
Definition top_level_reports (line : string) : list OutOfContractReport :=
  if at_margin line && negb (bool_decide (trim line = EmptyString))
     && negb (existsb (λ k, starts_with k line) known_top_level)
     && negb (bool_decide (trim (default EmptyString (head (split ":" line))) = EmptyString))
  then (λ uk, unsupported ("top-level `" +:+ trim_end_matches ":" uk +:+ "` key")
                ("The `" +:+ uk +:+ "` construct is not in the shim's supported subset. See docs/shim/supported-subset.md for the complete list."))
       <$> filter (λ uk, starts_with uk line = true) unsupported_keys
  else [].

(** The loop of [parse_jobs]; the flag is [in_jobs]. *)
Fixpoint scan_jobs (in_jobs : bool) (lines : list string) : list (Job * list OutOfContractReport) :=
  match lines with
  | [] => []
  | line :: lines =>
    if starts_with "jobs:" line then scan_jobs true lines
    else if in_jobs then
      if starts_job line
      then parse_single_job (trim_end_matches ":" (trim line)) lines :: scan_jobs true lines
      else if at_margin line && negb (bool_decide (trim line = EmptyString)) then scan_jobs false lines
      else scan_jobs true lines
    else scan_jobs false lines
  end.

Definition parse_jobs (lines : list string) : list Job * list OutOfContractReport :=
  let parsed := scan_jobs false lines in
  (parsed.*1, (lines ≫= top_level_reports) ++ concat parsed.*2).

(** [parse_workflow]. *)
Definition parse_workflow (yaml : string) : result WorkflowParseError ParsedWorkflow :=
  if bool_decide (trim yaml = EmptyString) then Err EmptyInput
  else
    let lines := Journal.lines yaml in
    if negb (existsb (λ l, starts_with "on:" l || bool_decide (trim l = "on:")) lines) then Err MissingOnKey
    else if negb (existsb (starts_with "jobs:") lines) then Err MissingJobsKey
    else let '(jobs, reports) := parse_jobs lines in Ok (mkWorkflow (parse_triggers lines) jobs reports).

(** ** The executor *)
Inductive StepOutcome : Type :=
| Success (name : option string) (stdout_digest : string)
| Failure (name : option string) (exit_code : Z)
| SecretDenied (name : option string) (secret_name : string)
| Skipped (name : option string)
| ContinuedOnError (name : option string) (exit_code : Z)
| OutOfContract (name : option string) (report : OutOfContractReport).

Record ExecutionResult : Type := mkExecution {
  step_outcomes : list StepOutcome;
  job_success : bool;
  ex_out_of_contract : list OutOfContractReport;
}.

(** [str::ends_with] of a string. *)
Definition ends_with_str (p s : string) : bool := starts_with (rev_string p) (rev_string s).

(** [chars().take(n)]: a character is a byte with its continuation bytes. *)
Fixpoint take_chars (n : nat) (s : string) : string :=
  match s with
  | EmptyString => EmptyString
  | String c s' =>
    if is_cont c then String c (take_chars n s')
    else match n with O => EmptyString | S n => String c (take_chars n s') end
  end.

Definition simulate_run_digest (cmd : string) : string :=
  "digest-len-" +:+ pretty (String.length cmd) +:+ "-cmd-" +:+ take_chars 16 cmd.

(** The order in which a [HashMap] gives its values is left open. *)
Class HashOrder : Type := {
  values : gmap string string → list string;
  values_perm m : values m ≡ₚ (map_to_list m).*2;
}.

Section executor.
Context {broker : Broker} {order : HashOrder} (manifest : FenceManifest).

(** The secrets of one text: the environment with their tokens, or the first that
    is refused. *)
Fixpoint resolve_refs (refs : list string) (env : gmap string string) : result string (gmap string string) :=
  match refs with
  | [] => Ok env
  | secret_name :: refs =>
    match resolve_secret secret_name manifest with
    | Ok (Resolved _ injection_token) => resolve_refs refs (<["__SHIM_SECRET_" +:+ secret_name := injection_token]> env)
    | Ok (Denied sn _) | Err (BrokerSecretDenied sn _) => Err sn
    | Err (BrokerUnavailable _) => Err secret_name
    end
  end.

(** The texts of a step that are scanned, in turn. *)
Fixpoint resolve_texts (texts : list string) (env : gmap string string) : result string (gmap string string) :=
  match texts with
  | [] => Ok env
  | t :: texts =>
    match resolve_refs (extract_secret_refs t) env with
    | Ok env => resolve_texts texts env
    | Err sn => Err sn
    end
  end.

(** The gate on [if:]: only what is recognised as true opens it. *)
Definition condition_holds (s : Step) : bool :=
  match step_if s with
  | Some cond => contains "always()" (trim cond) || bool_decide (trim cond = "true")
  | None => true
  end.

(** [execute_step]. *)
Definition execute_step (s : Step) (env : gmap string string) : StepOutcome :=
  if negb (condition_holds s) then Skipped (step_name s)
  else
    let refused := match step_uses s with Some u => negb (action_supported u) | None => false end in
    if refused then
      let u := default EmptyString (step_uses s) in
      OutOfContract (step_name s)
        (unsupported ("uses: " +:+ u)
           ("Action `" +:+ u +:+ "` is not in the supported subset. Supported: " +:+ join ", " supported_actions
            +:+ ". See docs/shim/supported-subset.md."))
    else
      let merged_env := step_env s ∪ env in
      match resolve_texts (option_list (step_run s) ++ values (step_env s)) merged_env with
      | Err sn => SecretDenied (step_name s) sn
      | Ok _ =>
        match step_run s, step_uses s with
        | Some run_cmd, _ => Success (step_name s) (simulate_run_digest run_cmd)
        | None, Some _ => Success (step_name s) "artifact-action-ok"
        | None, None => Success (step_name s) "no-op"
        end
      end.

Definition denied_report (secret_name : string) : OutOfContractReport :=
  unsupported ("secret `" +:+ secret_name +:+ "` (fail-CLOSED)")
    ("Secret `" +:+ secret_name +:+ "` was denied by the broker. Ensure the secret is provisioned and accessible via the C5 secrets broker. Raw material is NOT in this report.").

(** The loop of [execute]. *)
Fixpoint execute_steps (steps : list Step) (env : gmap string string) (r : ExecutionResult) : ExecutionResult :=
  match steps with
  | [] => r
  | s :: steps =>
    let outcome := execute_step s env in
    let done_ := step_outcomes r in
    match outcome with
    | Failure _ _ =>
      if negb (continue_on_error s) then mkExecution (done_ ++ [outcome]) false (ex_out_of_contract r)
      else execute_steps steps env
             (mkExecution (done_ ++ [ContinuedOnError (step_name s) 1]) (job_success r) (ex_out_of_contract r))
    | SecretDenied _ sn => mkExecution (done_ ++ [outcome]) false (ex_out_of_contract r ++ [denied_report sn])
    | OutOfContract _ report => mkExecution (done_ ++ [outcome]) false (ex_out_of_contract r ++ [report])
    | _ => execute_steps steps env (mkExecution (done_ ++ [outcome]) (job_success r) (ex_out_of_contract r))
    end
  end.

(** [ShimExecutor::execute]: the steps of the first job. *)
Definition execute (w : ParsedWorkflow) : ExecutionResult :=
  match jobs w with
  | [] => mkExecution [] false (wf_out_of_contract w)
  | job :: _ => execute_steps (job_steps job) (job_env job) (mkExecution [] true (wf_out_of_contract w))
  end.

(** ** The equivalence harness *)
Inductive DeterminismCheck : Type := Satisfied | NotSatisfied (reasons : list string).

Definition floating (uses : string) : bool :=
  ends_with_str "@latest" uses || ends_with_str "@main" uses || ends_with_str "@master" uses.
Definition nondeterministic (v : string) : bool :=
  contains "github.run_number" v || contains "github.sha" v || contains "github.run_id" v.

Definition step_reasons (j : Job) (s : Step) : list string :=
  match step_uses s with
  | Some u => if floating u then ["floating action ref `" +:+ u +:+ "` (pinned toolchain precondition violated)"] else []
  | None => []
  end ++
  ((λ v, "nondeterministic env value `" +:+ v +:+ "` (no_nondeterminism precondition violated)")
     <$> filter (λ v, nondeterministic v = true) (values (step_env s))) ++
  ((λ v, "nondeterministic job env value `" +:+ v +:+ "` (no_nondeterminism precondition violated)")
     <$> filter (λ v, nondeterministic v = true) (values (job_env j))).

Definition check_determinism_precondition (w : ParsedWorkflow) : DeterminismCheck :=
  let reasons :=
    (if bool_decide (1 < length (jobs w))%nat then ["multiple jobs: non-deterministic ordering across parallel jobs"] else []) ++
    (jobs w ≫= λ j, job_steps j ≫= step_reasons j) in
  if bool_decide (reasons = []) then Satisfied else NotSatisfied reasons.

Record ObservableOutcomes : Type := mkObservable {
  steps_run : list (option string);
  step_exit_states : list bool;
  artifacts_produced : list string;
  env_snapshot : gmap string string;
}.
Inductive EquivalenceOutcome : Type :=
| Equivalent (steps_match env_match artifacts_match exit_states_match : bool)
| Diverged (divergences : list string) (shim_outcomes actions_outcomes : ObservableOutcomes)
| Partial (reason : string).

Definition outcome_name (o : StepOutcome) : option string :=
  match o with
  | Success n _ | Failure n _ | SecretDenied n _ | Skipped n | ContinuedOnError n _ | OutOfContract n _ => n
  end.
Definition outcome_passes (o : StepOutcome) : bool :=
  match o with Success _ _ | ContinuedOnError _ _ | Skipped _ => true | _ => false end.
Definition to_observable (r : ExecutionResult) : ObservableOutcomes :=
  mkObservable (outcome_name <$> step_outcomes r) (outcome_passes <$> step_outcomes r) [] ∅.

Definition compare_outcomes (shim actions : ObservableOutcomes) : EquivalenceOutcome :=
  let differs b (what : string) := if negb b then [what] else [] in
  let divergences :=
    differs (bool_decide (steps_run shim = steps_run actions)) "steps_run differ" ++
    differs (bool_decide (step_exit_states shim = step_exit_states actions)) "step_exit_states differ" ++
    differs (bool_decide (artifacts_produced shim = artifacts_produced actions)) "artifacts_produced differ" ++
    differs (bool_decide (env_snapshot shim = env_snapshot actions)) "env_snapshot differs" in
  if bool_decide (divergences = []) then Equivalent true true true true else Diverged divergences shim actions.

(** [EquivalenceHarness::compare]: the lane of GitHub is never there. *)
Definition compare (w : ParsedWorkflow) : EquivalenceOutcome :=
  match check_determinism_precondition w with
  | NotSatisfied reasons => Partial ("determinism precondition not satisfied: " +:+ join "; " reasons)
  | Satisfied =>
    let shim_outcomes := to_observable (execute w) in
    let actions_outcomes : option ObservableOutcomes := None in
    match actions_outcomes with
    | None => Partial "live GitHub Actions lane not available (HUGIT_GH_TEST_REPO set but GH_TOKEN not provisioned via broker, or network unavailable); shim lane ran successfully"
    | Some ao => compare_outcomes shim_outcomes ao
    end
  end.
End executor.
