(* ===== verification/ShimProofs.v ===== *)
(** * Properties of the workflow shim

    Nothing runs past a refused secret or action; a workflow in the plain layout is
    understood as it is written; layouts in which steps are lost without a report. *)
From S2P Require Import Prelude Ledger Journal Text Lease CloudEngine Fence FenceProofs Shim.

(** ** Secret references *)
Lemma split_at_shorter pat s a b :
  split_at pat s = Some (a, b) → (String.length b + String.length pat ≤ String.length s)%nat.
Proof.
  revert a. induction s as [|c s IH]; intros a; cbn [split_at].
  - destruct (strip_prefix pat EmptyString) as [t|] eqn:E; [|done]. intros [= <- <-].
    apply strip_prefix_Some in E. destruct pat; [|done]. autorewrite with strings in E. by rewrite <- E.
  - destruct (strip_prefix pat (String c s)) as [t|] eqn:E.
    + intros [= <- <-]. apply strip_prefix_Some in E. rewrite E. rewrite string_length_app. lia.
    + destruct (split_at pat s) as [[a' b']|] eqn:Es; [|done]. intros [= <- <-].
      specialize (IH a' eq_refl). cbn. lia.
Qed.

Lemma secret_refs_fuel n m s :
  (String.length s ≤ n)%nat → (String.length s ≤ m)%nat → secret_refs n s = secret_refs m s.
Proof.
  revert m s. induction n as [|n IH]; intros [|m] s Hn Hm.
  - done.
  - destruct s; [done|cbn in Hn; lia].
  - destruct s; [done|cbn in Hm; lia].
  - cbn [secret_refs]. destruct (split_at "${{" s) as [[a after]|] eqn:E1; [|done].
    destruct (split_at "}}" after) as [[inside rest]|] eqn:E2; [|done].
    apply split_at_shorter in E1, E2. cbn in E1, E2. f_equal. apply IH; lia.
Qed.

(** The loop of [extract_secret_refs], without its fuel. *)
Lemma extract_secret_refs_eq s :
  extract_secret_refs s =
  match split_at "${{" s with
  | None => []
  | Some (_, after) =>
    match split_at "}}" after with
    | None => []
    | Some (inside, rest) =>
      match strip_prefix "secrets." (trim inside) with
      | Some name => if bool_decide (trim name = EmptyString) then [] else [trim name]
      | None => []
      end ++ extract_secret_refs rest
    end
  end.
Proof.
  unfold extract_secret_refs. rewrite (secret_refs_fuel _ (S (String.length s))) by lia. cbn [secret_refs].
  destruct (split_at "${{" s) as [[a after]|] eqn:E1; [|done].
  destruct (split_at "}}" after) as [[inside rest]|] eqn:E2; [|done].
  apply split_at_shorter in E1, E2. cbn in E1, E2. f_equal. apply secret_refs_fuel; lia.
Qed.

(** ** Execution *)
Section execution.
Context {broker : Broker} {order : HashOrder} (manifest : FenceManifest).

Definition resolved (n : string) : Prop := ∃ a b, resolve_secret n manifest = Ok (Resolved a b).
Definition refs_resolved (text : string) : Prop := ∀ n, n ∈ extract_secret_refs text → resolved n.
(** The texts of a step that can name a secret. *)
Definition scanned (s : Step) (text : string) : Prop :=
  step_run s = Some text ∨ ∃ k, step_env s !! k = Some text.
Definition action_known (s : Step) : Prop := ∀ u, step_uses s = Some u → action_supported u = true.

(** A step that has run, and a step that was passed over. *)
Definition passed (s : Step) (o : StepOutcome) : Prop :=
  match o with
  | Success n _ => n = step_name s ∧ condition_holds s = true ∧ action_known s ∧ ∀ text, scanned s text → refs_resolved text
  | Skipped n => n = step_name s ∧ condition_holds s = false
  | _ => False
  end.
(** A step that was refused, with the report on it. *)
Definition refused (s : Step) (o : StepOutcome) (report : OutOfContractReport) : Prop :=
  condition_holds s = true ∧
  match o with
  | OutOfContract n r => n = step_name s ∧ r = report ∧ ¬ action_known s
  | SecretDenied n sn => n = step_name s ∧ report = denied_report sn ∧ action_known s ∧ ∃ text, scanned s text ∧ ¬ refs_resolved text
  | _ => False
  end.

Lemma elem_of_values (m : gmap string string) v : v ∈ values m ↔ ∃ k, m !! k = Some v.
Proof.
  rewrite (values_perm m), list_elem_of_fmap. split.
  - intros ([k v'] & -> & H%elem_of_map_to_list). by exists k.
  - intros [k H]. exists (k, v). by rewrite elem_of_map_to_list.
Qed.

Lemma resolve_refs_spec refs env :
  match resolve_refs manifest refs env with
  | Ok _ => ∀ n, n ∈ refs → resolved n
  | Err _ => ∃ n, n ∈ refs ∧ ¬ resolved n
  end.
Proof.
  revert env. induction refs as [|n refs IH]; intros env; cbn [resolve_refs]; [by intros ? ?%not_elem_of_nil|].
  assert (∀ x, resolve_secret n manifest = x → (∀ a b, x ≠ Ok (Resolved a b)) → ∃ m, m ∈ n :: refs ∧ ¬ resolved m) as Hno.
  { intros x Hx Hn. exists n. split; [set_solver|]. intros (a & b & H). by destruct (Hn a b); congruence. }
  destruct (resolve_secret n manifest) as [[a b|sn w]|[sn w|w]] eqn:E; try by apply (Hno _ eq_refl).
  specialize (IH (<["__SHIM_SECRET_" +:+ n := b]> env)). destruct (resolve_refs _ _ _).
  - intros m [->|Hm]%elem_of_cons; [by exists a, b|auto].
  - destruct IH as (m & Hm & Hr). exists m. split; [set_solver|done].
Qed.

Lemma resolve_texts_spec texts env :
  match resolve_texts manifest texts env with
  | Ok _ => ∀ t, t ∈ texts → refs_resolved t
  | Err _ => ∃ t, t ∈ texts ∧ ¬ refs_resolved t
  end.
Proof.
  revert env. induction texts as [|t texts IH]; intros env; cbn [resolve_texts]; [by intros ? ?%not_elem_of_nil|].
  pose proof (resolve_refs_spec (extract_secret_refs t) env) as Ht.
  destruct (resolve_refs _ _ _) as [env'|]; [|by destruct Ht as (n & Hn & Hr); exists t; split; [set_solver|auto]].
  specialize (IH env'). destruct (resolve_texts _ _ _).
  - intros u [->|Hu]%elem_of_cons; [done|auto].
  - destruct IH as (u & Hu & Hr). exists u. split; [set_solver|done].
Qed.

Lemma execute_step_spec s env :
  let o := execute_step manifest s env in
  match o with
  | SecretDenied _ sn => refused s o (denied_report sn)
  | OutOfContract _ r => refused s o r
  | _ => passed s o
  end.
Proof.
  unfold execute_step. cbn zeta. destruct (condition_holds s) eqn:Hc; cbn [negb]; [|by split].
  assert (∀ t, t ∈ option_list (step_run s) ++ values (step_env s) ↔ scanned s t) as Hs.
  { intros t. rewrite elem_of_app, elem_of_values. unfold scanned. destruct (step_run s); set_solver. }
  destruct (match step_uses s with Some u => negb (action_supported u) | None => false end) eqn:Hu.
  { split_and!; try done. destruct (step_uses s) as [u|] eqn:E; [|done]. intros Hk.
    specialize (Hk u E). by rewrite Hk in Hu. }
  assert (action_known s) as Hk.
  { intros u E. rewrite E in Hu. by destruct (action_supported u). }
  pose proof (resolve_texts_spec (option_list (step_run s) ++ values (step_env s)) (step_env s ∪ env)) as Ht.
  destruct (resolve_texts _ _ _).
  - assert (∀ t, scanned s t → refs_resolved t) by (intros t H%Hs; auto).
    destruct (step_run s), (step_uses s); by split_and!.
  - destruct Ht as (t & Hin%Hs & Hr). split_and!; try done. by exists t.
Qed.

Lemma execute_steps_spec steps env r :
  ∃ passed_steps rest outs, steps = passed_steps ++ rest ∧ Forall2 passed passed_steps outs ∧
    match rest with
    | [] => execute_steps manifest steps env r = mkExecution (step_outcomes r ++ outs) (job_success r) (ex_out_of_contract r)
    | s :: _ => ∃ o report, refused s o report ∧
        execute_steps manifest steps env r = mkExecution (step_outcomes r ++ outs ++ [o]) false (ex_out_of_contract r ++ [report])
    end.
Proof.
  revert r. induction steps as [|s steps IH]; intros r.
  { exists [], [], []. split_and!; [done|constructor|]. rewrite app_nil_r. by destruct r. }
  pose proof (execute_step_spec s env) as Ho. cbn zeta in Ho. cbn [execute_steps].
  destruct (execute_step manifest s env) as [n d|n c|n sn|n|n c|n rep] eqn:E; try done.
  2: { exists [], (s :: steps), []. split_and!; [done|constructor|]. by exists (SecretDenied n sn), (denied_report sn). }
  3: { exists [], (s :: steps), []. split_and!; [done|constructor|]. by exists (OutOfContract n rep), rep. }
  all: match type of Ho with passed _ ?o =>
    destruct (IH (mkExecution (step_outcomes r ++ [o]) (job_success r) (ex_out_of_contract r))) as (ps & rest & outs & -> & Hf & Hr);
    exists (s :: ps), rest, (o :: outs); split_and!; [done|by constructor|] end;
    cbn [step_outcomes job_success ex_out_of_contract] in Hr; destruct rest as [|t rest];
    [by rewrite Hr, <- app_assoc|]; destruct Hr as (o' & rep & Hrf & Hr); exists o', rep; split; [done|];
    rewrite Hr, <- app_assoc; done.
Qed.

(** Secrets fail closed.  The steps of the job are gone through in order.  A step
    that succeeds had an open condition and a known action, and every secret named
    in its command or in its environment was resolved by the broker; a step is
    skipped only if its condition is not recognised as true.  The job succeeds
    exactly if all its steps are of these two kinds; otherwise the first step that
    has an unresolved secret or an unknown action is the last in the result, with
    a report on it, and nothing after it has run. *)
Theorem secrets_fail_closed w j js :
  jobs w = j :: js →
  let r := execute manifest w in
  ∃ passed_steps rest outs, job_steps j = passed_steps ++ rest ∧ Forall2 passed passed_steps outs ∧
    match rest with
    | [] => r = mkExecution outs true (wf_out_of_contract w)
    | s :: _ => ∃ o report, refused s o report ∧ r = mkExecution (outs ++ [o]) false (wf_out_of_contract w ++ [report])
    end.
Proof.
  intros Hj. unfold execute. rewrite Hj.
  exact (execute_steps_spec (job_steps j) (job_env j) (mkExecution [] true (wf_out_of_contract w))).
Qed.
End execution.

(** ** Plain text *)
Definition edge (s : string) : Prop := ∃ c t, s = String c t ∧ in_range 33 126 c = true.
(** No white space at either end, and one line. *)
Definition clean (s : string) : Prop := edge s ∧ edge (rev_string s) ∧ has_byte LF s = false.

Lemma rev_string_app a b : rev_string (a +:+ b) = rev_string b +:+ rev_string a.
Proof.
  induction a as [|c a IH]; autorewrite with strings; [by rewrite string_app_nil_r|].
  by rewrite !rev_string_cons, IH, string_app_assoc.
Qed.

Lemma edge_app p s : edge p → edge (p +:+ s).
Proof. intros (c & t & -> & Hc). by exists c, (t +:+ s). Qed.

Lemma clean_app p s : edge p → has_byte LF p = false → clean s → clean (p +:+ s).
Proof.
  intros Hp Hl (He & Hr & Hs). split_and!; [by apply edge_app|rewrite rev_string_app; by apply edge_app|].
  by rewrite has_byte_app, Hl, Hs.
Qed.

Lemma plain_not_ws c : in_range 33 126 c = true →
  ws1 c = false ∧ (∀ b, ws2 c b = false ∧ ws2 b c = false) ∧ ∀ a b, ws3 c a b = false ∧ ws3 a b c = false.
Proof. unfold ws1, ws2, ws3, in_range. intros H. split_and!; [lia|intros b; split; lia|intros a b; split; lia]. Qed.

Lemma drop_ws_edge f s : edge s → drop_ws f s = s.
Proof.
  intros (c & t & -> & (H1 & H2 & H3)%plain_not_ws). cbn [drop_ws]. rewrite H1.
  destruct t as [|d t]; [done|]. destruct (H2 d) as [-> ->].
  destruct t as [|e t]; [by destruct f|]. destruct (H3 d e) as [-> _], (H3 e d) as [_ ->]. by destruct f.
Qed.

Lemma drop_ws_kept f s c : in_range 33 126 c = true → drop_ws f (s +:+ String c EmptyString) ≠ EmptyString.
Proof.
  intros Hc. destruct (plain_not_ws c Hc) as (H1 & H2 & H3). remember (String.length s) as n eqn:Hn. revert s Hn.
  induction n as [n IH] using lt_wf_ind. intros s ->.
  destruct s as [|a s]; autorewrite with strings; [by rewrite drop_ws_edge; [|exists c, EmptyString]|].
  cbn [drop_ws]. destruct (ws1 a); [by eapply IH; [|done]; cbn; lia|].
  destruct s as [|b s]; autorewrite with strings.
  { destruct (H2 a) as [-> ->]. by destruct f. }
  destruct (if f then ws2 b a else ws2 a b); [by eapply IH; [|done]; cbn; lia|].
  destruct s as [|d s]; autorewrite with strings.
  { destruct (H3 b a) as [-> _], (H3 a b) as [_ ->]. by destruct f. }
  destruct (if f then ws3 d b a else ws3 a b d); [by eapply IH; [|done]; cbn; lia|done].
Qed.

Lemma trim_clean s : clean s → trim s = s.
Proof.
  intros (He & Hr & _). unfold trim, trim_start, trim_end. rewrite (drop_ws_edge false s), (drop_ws_edge true) by done. apply rev_string_twice.
Qed.

Lemma trim_pad s : clean s →
  trim ("  " +:+ s) = s ∧ trim ("    " +:+ s) = s ∧ trim ("      " +:+ s) = s ∧ trim ("        " +:+ s) = s ∧ trim (" " +:+ s) = s.
Proof. intros H%trim_clean. split_and!; exact H. Qed.

Lemma strip_cr_clean s : edge (rev_string s) → strip_cr s = s.
Proof.
  intros (c & t & Hs & Hc). apply (f_equal rev_string) in Hs. rewrite rev_string_twice, rev_string_cons in Hs. subst s.
  induction (rev_string t) as [|d u IH]; autorewrite with strings; cbn [strip_cr].
  - rewrite decide_False; [done|]. intros ->. done.
  - rewrite IH. by destruct (u +:+ String c EmptyString) eqn:E; [destruct u|].
Qed.

(** The lines of a text, each ended by a line feed. *)
Fixpoint text (ls : list string) : string :=
  match ls with [] => EmptyString | l :: ls => l +:+ LFs +:+ text ls end.

Lemma lines_text ls : Forall (λ l, edge (rev_string l) ∧ has_byte LF l = false) ls → lines (text ls) = ls.
Proof.
  unfold lines. induction 1 as [|l ls [He Hl] _ IH]; [done|]. cbn [text].
  rewrite raw_lines_terminated by done. cbn [fmap list_fmap fst snd]. by rewrite strip_cr_clean, IH.
Qed.

(** ** The plain layout *)

(** The keys of a step, one to a line. *)
Inductive PlainKey : Type := KName (v : string) | KRun (v : string) | KUses (v : string) | KContinue.
Definition key_text (k : PlainKey) : string :=
  match k with
  | KName v => "name: " +:+ v
  | KRun v => "run: " +:+ v
  | KUses v => "uses: " +:+ v
  | KContinue => "continue-on-error: true"
  end.
Definition key_ok (k : PlainKey) : Prop :=
  match k with
  | KName v | KUses v => clean v
  | KRun v => clean v ∧ v ∉ ["|"; "|-"]
  | KContinue => True
  end.
Definition key_step (s : Step) (k : PlainKey) : Step :=
  match k with
  | KName v => set_name v s
  | KRun v => set_run v s
  | KUses v => set_uses v s
  | KContinue => set_continue true s
  end.

(** A step: a name, a command or an action behind the dash, and more keys. *)
Definition PlainStep : Type := PlainKey * list PlainKey.
Definition plain_step_ok (ks : PlainStep) : Prop := ks.1 ≠ KContinue ∧ key_ok ks.1 ∧ Forall key_ok ks.2.
Definition plain_step_lines (ks : PlainStep) : list string :=
  ("      - " +:+ key_text ks.1) :: ((λ k, "        " +:+ key_text k) <$> ks.2).
Definition step_of (ks : PlainStep) : Step := foldl key_step (mkStep None None None ∅ ∅ false None) (ks.1 :: ks.2).
Definition step_reports (ks : PlainStep) : list OutOfContractReport :=
  match step_uses (step_of ks) with Some u => uses_report u | None => [] end.

Record PlainJob : Type := mkPlain { pj_id : string; pj_runs_on : string; pj_steps : list PlainStep }.
Definition plain_job_ok (j : PlainJob) : Prop :=
  clean (pj_id j) ∧ ends_with ":" (pj_id j) = false ∧ clean (pj_runs_on j) ∧ Forall plain_step_ok (pj_steps j).
Definition plain_job_body (j : PlainJob) : list string :=
  ("    runs-on: " +:+ pj_runs_on j) :: "    steps:" :: (pj_steps j ≫= plain_step_lines).
Definition plain_job_lines (j : PlainJob) : list string := ("  " +:+ pj_id j +:+ ":") :: plain_job_body j.
Definition job_of (j : PlainJob) : Job := mkJob (pj_id j) (pj_runs_on j) ∅ None (step_of <$> pj_steps j).
Definition job_reports_of (j : PlainJob) : list OutOfContractReport :=
  runs_on_report (pj_runs_on j) ++ (pj_steps j ≫= step_reports).

Definition plain_lines (trigger : string) (js : list PlainJob) : list string :=
  ("on: " +:+ trigger) :: "jobs:" :: (js ≫= plain_job_lines).

Lemma key_text_clean k : key_ok k → clean (key_text k).
Proof.
  destruct k; cbn [key_ok key_text]; [| intros [? _] | |]; intros;
    try (apply clean_app; [by eexists _, _|done|done]).
  by split_and!; [eexists _, _|eexists _, _|].
Qed.

Lemma clean_not_empty s : clean s → s ≠ EmptyString.
Proof. intros ((c & t & -> & _) & _). done. Qed.

Lemma run_key_text v p : key_ok (KRun v) → run_key (" " +:+ v) p = at_step (set_run v) p.
Proof.
  intros [Hc Hn]. unfold run_key. destruct (trim_pad v Hc) as (_ & _ & _ & _ & ->).
  rewrite bool_decide_false by done. by rewrite bool_decide_false by (by apply clean_not_empty).
Qed.

Lemma step_key_text k p : key_ok k → step_key (key_text k) p = at_key (at_step (λ s, key_step s k) p).
Proof.
  destruct k as [v|v|v|]; intros Hk; unfold step_key.
  1: change (strip_prefix "name:" (key_text (KName v))) with (Some (" " +:+ v)).
  2: change (strip_prefix "name:" (key_text (KRun v))) with (@None string);
     change (strip_prefix "run:" (key_text (KRun v))) with (Some (" " +:+ v)).
  3: change (strip_prefix "name:" (key_text (KUses v))) with (@None string);
     change (strip_prefix "run:" (key_text (KUses v))) with (@None string);
     change (strip_prefix "uses:" (key_text (KUses v))) with (Some (" " +:+ v)).
  4: done.
  1,3: by destruct (trim_pad v Hk) as (_ & _ & _ & _ & ->).
  exact (f_equal at_key (run_key_text v p Hk)).
Qed.

Lemma dash_line k : key_ok k → trim ("      - " +:+ key_text k) = "- " +:+ key_text k.
Proof.
  intros Hk%key_text_clean. apply (trim_pad ("- " +:+ key_text k)).
  by apply clean_app; [eexists _, _| |].
Qed.

Lemma first_key_text k : k ≠ KContinue → key_ok k →
  first_key ("      - " +:+ key_text k) = at_step (λ s, key_step s k) scan_start.
Proof.
  intros Hn Hk. unfold first_key. rewrite dash_line by done.
  change (trim_start_matches "-" ("- " +:+ key_text k)) with (" " +:+ key_text k).
  destruct (trim_pad (key_text k) (key_text_clean k Hk)) as (_ & _ & _ & _ & ->).
  destruct k as [v|v|v|]; [| | |done].
  - change (strip_prefix "name:" (key_text (KName v))) with (Some (" " +:+ v)).
    by destruct (trim_pad v Hk) as (_ & _ & _ & _ & ->).
  - exact (run_key_text v scan_start Hk).
  - change (strip_prefix "uses:" (key_text (KUses v))) with (Some (" " +:+ v)).
    by destruct (trim_pad v Hk) as (_ & _ & _ & _ & ->).
Qed.

(** Where a step ends: at the next dash or at a line that is less indented. *)
Definition ends_step (rest : list string) : Prop :=
  match rest with
  | [] => True
  | l :: _ => starts_with "- " (trim l) = true ∨
      (starts_with "          " l || starts_with "        " l = false) ∧ l ≠ EmptyString
  end.

Lemma scan_step_ends p rest : ends_step rest → scan_step p rest = p.
Proof.
  destruct rest as [|l rest]; [done|]. cbn [ends_step scan_step]. intros [->|[-> Hl]]; [done|].
  destruct (_ || _); [done|]. by rewrite bool_decide_false.
Qed.

Definition after_keys (p : StepScan) (ks : list PlainKey) : StepScan :=
  foldl (λ p k, at_key (at_step (λ s, key_step s k) p)) p ks.

Lemma scan_step_keys p ks rest :
  in_run_multiline p = false → Forall key_ok ks → ends_step rest →
  scan_step p (((λ k, "        " +:+ key_text k) <$> ks) ++ rest) = after_keys p ks.
Proof.
  intros Hp Hks Hr. revert p Hp. induction Hks as [|k ks Hk _ IH]; intros p Hp; [by apply scan_step_ends|].
  cbn [fmap list_fmap app scan_step after_keys foldl].
  destruct (trim_pad (key_text k) (key_text_clean k Hk)) as (_ & _ & _ & -> & _).
  assert (starts_with "- " (key_text k) || starts_with "- name:" (key_text k) = false) as -> by by destruct k.
  assert (starts_with "          " ("        " +:+ key_text k) || starts_with "        " ("        " +:+ key_text k) = true) as ->
    by by destruct k.
  cbn [negb andb]. rewrite Hp, step_key_text by done. by apply IH.
Qed.

Lemma after_keys_spec p ks :
  sc_step (after_keys p ks) = foldl key_step (sc_step p) ks ∧ sc_reports (after_keys p ks) = sc_reports p ∧
  in_run_multiline (after_keys p ks) = in_run_multiline p.
Proof.
  unfold after_keys. revert p. induction ks as [|k ks IH]; intros p; [done|].
  cbn [foldl]. by destruct (IH (at_key (at_step (λ s, key_step s k) p))) as (-> & -> & ->).
Qed.

Lemma parse_plain_step ks rest :
  plain_step_ok ks → ends_step rest →
  parse_step ("      - " +:+ key_text ks.1) (((λ k, "        " +:+ key_text k) <$> ks.2) ++ rest) = (step_of ks, step_reports ks).
Proof.
  intros (Hn & Hk & Hks) Hr. unfold parse_step.
  rewrite first_key_text, scan_step_keys by done.
  destruct (after_keys_spec (at_step (λ s, key_step s ks.1) scan_start) ks.2) as (-> & -> & ->). done.
Qed.

Definition ends_job (rest : list string) : Prop :=
  match rest with
  | [] => True
  | l :: _ => starts_job l = true ∧ (starts_with "          " l || starts_with "        " l = false) ∧ l ≠ EmptyString
  end.

Lemma steps_end_step steps rest : Forall plain_step_ok steps → ends_job rest → ends_step ((steps ≫= plain_step_lines) ++ rest).
Proof.
  intros Hs Hr. destruct Hs as [|ks steps (_ & Hk & _) _].
  - destruct rest; [done|]. right. apply Hr.
  - left. cbn [mbind list_bind plain_step_lines app]. by rewrite dash_line.
Qed.

Lemma job_line_dash k rest p :
  key_ok k → in_steps p = true → in_job_env p = false →
  job_line ("      - " +:+ key_text k) rest p =
  let '(s, rs) := parse_step ("      - " +:+ key_text k) rest in
  job_reports rs (in_job (add_step s) true false p).
Proof. intros Hk Hs He. unfold job_line. rewrite dash_line, Hs, He by done. by destruct k. Qed.

Lemma job_line_key k rest p :
  key_ok k → in_job_env p = false → job_line ("        " +:+ key_text k) rest p = p.
Proof.
  intros Hk He. unfold job_line. destruct (trim_pad (key_text k) (key_text_clean k Hk)) as (_ & _ & _ & -> & _).
  rewrite He. destruct k; cbn; by rewrite ?andb_false_r.
Qed.

Lemma scan_job_keys p ks rest :
  Forall key_ok ks → in_job_env p = false →
  scan_job p (((λ k, "        " +:+ key_text k) <$> ks) ++ rest) = scan_job p rest.
Proof.
  intros Hks He. induction Hks as [|k ks Hk _ IH]; [done|]. cbn [fmap list_fmap app scan_job].
  assert (starts_job ("        " +:+ key_text k) = false) as -> by by destruct k.
  assert (starts_with "    " ("        " +:+ key_text k) = true) as -> by by destruct k.
  cbn [negb andb]. by rewrite job_line_key, IH.
Qed.

Definition with_step (p : JobScan) (ks : PlainStep) : JobScan :=
  job_reports (step_reports ks) (in_job (add_step (step_of ks)) true false p).

Lemma scan_job_steps p steps rest :
  Forall plain_step_ok steps → ends_job rest → in_steps p = true → in_job_env p = false →
  scan_job p ((steps ≫= plain_step_lines) ++ rest) = scan_job (foldl with_step p steps) rest.
Proof.
  intros Hs Hr. revert p. induction Hs as [|ks steps Hk Hs IH]; intros p H1 H2; [done|].
  pose proof (steps_end_step steps rest Hs Hr) as He. pose proof Hk as (_ & Hk1 & Hk2).
  cbn [mbind list_bind plain_step_lines app scan_job foldl]. rewrite <- app_assoc.
  assert (starts_job ("      - " +:+ key_text ks.1) = false) as -> by by destruct ks.1.
  assert (starts_with "    " ("      - " +:+ key_text ks.1) = true) as -> by by destruct ks.1.
  cbn [negb andb]. rewrite job_line_dash, parse_plain_step by done.
  rewrite scan_job_keys by done. by apply IH.
Qed.

Lemma with_steps_spec p steps :
  in_steps p = true → in_job_env p = false →
  foldl with_step p steps =
  mkJobScan (mkJob (job_id (sc_job p)) (runs_on (sc_job p)) (job_env (sc_job p)) (job_if (sc_job p))
               (job_steps (sc_job p) ++ (step_of <$> steps)))
    (jc_reports p ++ (steps ≫= step_reports)) true false.
Proof.
  revert p. induction steps as [|ks steps IH]; intros p H1 H2; cbn [foldl].
  - destruct p as [[]]. cbn in *. by rewrite !app_nil_r, H1, H2.
  - rewrite IH by done. cbn. by rewrite <- !app_assoc.
Qed.

Lemma job_line_runs_on v rest p :
  clean v → job_line ("    runs-on: " +:+ v) rest p = job_reports (runs_on_report v) (in_job (set_runs_on v) false false p).
Proof.
  intros Hv. unfold job_line. assert (clean ("runs-on: " +:+ v)) as Hc by (by apply clean_app; [eexists _, _| |]).
  change ("    runs-on: " +:+ v) with ("    " +:+ ("runs-on: " +:+ v)). destruct (trim_pad _ Hc) as (_ & -> & _).
  change (strip_prefix "runs-on:" ("runs-on: " +:+ v)) with (Some (" " +:+ v)).
  by destruct (trim_pad _ Hv) as (_ & _ & _ & _ & ->).
Qed.

Lemma parse_plain_job j rest :
  plain_job_ok j → ends_job rest →
  parse_single_job (pj_id j) (plain_job_body j ++ rest) = (job_of j, job_reports_of j).
Proof.
  intros (_ & _ & Hr & Hs) He. unfold parse_single_job, plain_job_body.
  set (p0 := mkJobScan _ _ _ _). cbn [app].
  assert (scan_job p0 (("    runs-on: " +:+ pj_runs_on j) :: "    steps:" :: (pj_steps j ≫= plain_step_lines) ++ rest) =
    scan_job (mkJobScan (mkJob (pj_id j) (pj_runs_on j) ∅ None []) (runs_on_report (pj_runs_on j)) true false)
      ((pj_steps j ≫= plain_step_lines) ++ rest)) as ->.
  { cbn [scan_job]. by rewrite (job_line_runs_on (pj_runs_on j)). }
  rewrite scan_job_steps, with_steps_spec by done.
  destruct rest as [|l rest]; [done|]. destruct He as (Hj & _). cbn [scan_job]. rewrite Hj.
  by destruct (_ && _).
Qed.

Lemma ends_with_snoc c d s : ends_with c (s +:+ String d EmptyString) = bool_decide (d = c).
Proof.
  induction s as [|e s IH]; autorewrite with strings; cbn [ends_with]; [done|].
  by destruct (s +:+ String d EmptyString) eqn:E; [destruct s|].
Qed.

Lemma trim_last c s : ends_with c s = false → trim_end_matches c (s +:+ String c EmptyString) = s.
Proof.
  intros Hs. unfold trim_end_matches. rewrite rev_string_snoc. cbn [drop_leading]. rewrite bool_decide_true by done.
  destruct (rev_string s) as [|d r] eqn:E; [by rewrite <- (rev_string_twice s), E|].
  assert (s = rev_string r +:+ String d EmptyString) as H by (by rewrite <- (rev_string_twice s), E, rev_string_cons).
  rewrite H, ends_with_snoc in Hs. cbn [drop_leading]. by rewrite Hs, rev_string_cons.
Qed.

Lemma clean_colon s : clean s → clean (s +:+ ":").
Proof.
  intros (He & _ & Hl). split_and!; [by apply edge_app|rewrite rev_string_app; by eexists _, _|].
  by rewrite has_byte_app, Hl.
Qed.

Lemma job_head id : clean id →
  let l := "  " +:+ id +:+ ":" in
  starts_with "jobs:" l = false ∧ trim l = id +:+ ":" ∧
  starts_job l = true ∧ (starts_with "          " l || starts_with "        " l = false) ∧ l ≠ EmptyString.
Proof.
  intros Hid l. pose proof (clean_colon id Hid) as Hc.
  split; [done|]. split; [by apply trim_pad|].
  assert (starts_with "    " l = false ∧ starts_with "          " l = false ∧ starts_with "        " l = false) as (H1 & H2 & H3).
  { subst l. destruct Hid as ((c & t & -> & Hp) & _). unfold starts_with. autorewrite with strings.
    cbn [strip_prefix]. by destruct (decide (" "%char = c)) as [<-|]. }
  split_and!; [|by rewrite H2, H3|done]. unfold starts_job. rewrite H1. change (starts_with "  " l) with true. cbn [andb negb].
  unfold trim_end. rewrite drop_ws_edge.
  - rewrite rev_string_twice. subst l. rewrite <- string_app_assoc. by rewrite ends_with_snoc.
  - subst l. rewrite rev_string_app. apply edge_app, Hc.
Qed.

Lemma jobs_end_job js : Forall plain_job_ok js → ends_job (js ≫= plain_job_lines).
Proof. intros [|j js' [Hid _] _]; [done|]. apply (job_head (pj_id j) Hid). Qed.

(** A line inside a job. *)
Definition inner (l : string) : Prop := ∃ x, l = "    " +:+ x.
Lemma body_inner j : Forall inner (plain_job_body j).
Proof.
  constructor; [by eexists|]. constructor; [by eexists|]. apply Forall_bind, Forall_true. intros ks.
  constructor; [by exists ("  - " +:+ key_text ks.1)|]. apply Forall_fmap, Forall_true. intros k.
  by exists ("    " +:+ key_text k).
Qed.

Lemma scan_jobs_inner ls rest : Forall inner ls → scan_jobs true (ls ++ rest) = scan_jobs true rest.
Proof. by induction 1 as [|l ls [x ->] _ IH]; [|cbn [app scan_jobs]]. Qed.

Lemma scan_plain_jobs js :
  Forall plain_job_ok js → scan_jobs true (js ≫= plain_job_lines) = (λ j, (job_of j, job_reports_of j)) <$> js.
Proof.
  induction 1 as [|j js Hj Hjs IH]; [done|]. cbn [mbind list_bind plain_job_lines app scan_jobs fmap list_fmap].
  destruct (job_head (pj_id j) (proj1 Hj)) as (-> & -> & -> & _). pose proof Hj as (_ & Hend & _).
  rewrite (trim_last _ _ Hend).
  rewrite parse_plain_job by (done || by apply jobs_end_job).
  by rewrite scan_jobs_inner, IH by apply body_inner.
Qed.

(** A line of a job adds no report of the top level, no trigger and no [on:]. *)
Definition indented (l : string) : Prop := ∃ x, l = "  " +:+ x.
Lemma jobs_indented js : Forall indented (js ≫= plain_job_lines).
Proof.
  apply Forall_bind, Forall_true. intros j. constructor; [by eexists|].
  eapply Forall_impl; [apply body_inner|]. intros l [x ->]. by exists ("  " +:+ x).
Qed.
Lemma indented_silent ls : Forall indented ls → ls ≫= top_level_reports = [].
Proof. by induction 1 as [|l ls [x ->] _ IH]; [|cbn [mbind list_bind]]. Qed.
Lemma known_silent l : existsb (λ k, starts_with k l) known_top_level = true → top_level_reports l = [].
Proof. intros H. unfold top_level_reports. rewrite H. cbn [negb]. by rewrite andb_false_r. Qed.
Lemma indented_triggers ls ts : Forall indented ls → foldl trigger_line (false, ts) ls = (false, ts).
Proof. by induction 1 as [|l ls [x ->] _ IH]; [|cbn [foldl]]. Qed.

Lemma plain_lines_one_line trigger js :
  clean trigger → Forall plain_job_ok js →
  Forall (λ l, edge (rev_string l) ∧ has_byte LF l = false) (plain_lines trigger js).
Proof.
  assert (∀ p s, has_byte LF p = false → clean s → edge (rev_string (p +:+ s)) ∧ has_byte LF (p +:+ s) = false) as Hl.
  { intros p s Hp (_ & Hr & Hs). rewrite rev_string_app, has_byte_app, Hp, Hs. split; [by apply edge_app|done]. }
  intros Ht Hjs. constructor; [by apply Hl|]. constructor; [by split; [eexists _, _|]|].
  apply Forall_bind. eapply Forall_impl; [exact Hjs|]. intros j (Hid & _ & Hr & Hs).
  constructor; [by apply Hl, clean_colon|]. constructor; [by apply Hl|]. constructor; [by split; [eexists _, _|]|].
  apply Forall_bind. eapply Forall_impl; [exact Hs|]. intros ks (_ & Hk & Hks).
  constructor; [by apply Hl, key_text_clean|]. apply Forall_fmap. eapply Forall_impl; [exact Hks|].
  intros k Hk'. by apply Hl, key_text_clean.
Qed.

Lemma trigger_cases t :
  t ∈ ["push"; "pull_request"; "workflow_dispatch"] → t = "push" ∨ t = "pull_request" ∨ t = "workflow_dispatch".
Proof. set_solver. Qed.

Lemma parse_plain_triggers t ls :
  t ∈ ["push"; "pull_request"; "workflow_dispatch"] → Forall indented ls →
  parse_triggers (("on: " +:+ t) :: "jobs:" :: ls) = [t].
Proof.
  intros Ht Hls. unfold parse_triggers.
  assert (foldl trigger_line (false, []) (("on: " +:+ t) :: "jobs:" :: ls) = foldl trigger_line (false, [t]) ls) as ->.
  { by destruct (trigger_cases t Ht) as [->|[->| ->]]. }
  by rewrite indented_triggers.
Qed.

Lemma parse_plain_workflow trigger js :
  trigger ∈ ["push"; "pull_request"; "workflow_dispatch"] → Forall plain_job_ok js →
  parse_workflow (text (plain_lines trigger js)) =
  Ok (mkWorkflow [trigger] (job_of <$> js) (js ≫= job_reports_of)).
Proof.
  intros Ht Hjs. assert (clean trigger) as Hc.
  { by destruct (trigger_cases trigger Ht) as [->|[->| ->]]; (split_and!; [eexists _, _|eexists _, _|]). }
  pose proof (jobs_indented js) as Hin. unfold parse_workflow. rewrite bool_decide_false.
  2: { unfold trim, trim_start. cbn [text plain_lines]. rewrite drop_ws_edge by (by eexists _, _).
       unfold trim_end. intros H%(f_equal rev_string). rewrite rev_string_twice in H. revert H.
       change (rev_string EmptyString) with EmptyString. autorewrite with strings.
       rewrite rev_string_cons. by apply drop_ws_kept. }
  rewrite lines_text by (by apply plain_lines_one_line). unfold plain_lines, parse_jobs.
  cbn [existsb starts_with]. change (starts_with "on:" ("on: " +:+ trigger)) with true.
  change (starts_with "jobs:" ("on: " +:+ trigger)) with false. change (starts_with "jobs:" "jobs:") with true. cbn [orb negb].
  change (scan_jobs false (("on: " +:+ trigger) :: "jobs:" :: (js ≫= plain_job_lines))) with (scan_jobs true (js ≫= plain_job_lines)).
  rewrite scan_plain_jobs by done. f_equal. f_equal.
  - by rewrite parse_plain_triggers.
  - by rewrite <- list_fmap_compose.
  - cbn [mbind list_bind]. rewrite !known_silent, indented_silent by done. rewrite <- list_fmap_compose. clear.
    induction js as [|j js IH]; [done|]. cbn. by rewrite <- IH.
Qed.

(** The step that was written: of each key the last value. *)
Definition written_step (ks : PlainStep) : Step :=
  let keys := ks.1 :: ks.2 in
  mkStep (last (omap (λ k, match k with KName v => Some v | _ => None end) keys))
    (last (omap (λ k, match k with KRun v => Some v | _ => None end) keys))
    (last (omap (λ k, match k with KUses v => Some v | _ => None end) keys))
    ∅ ∅ (existsb (λ k, match k with KContinue => true | _ => false end) keys) None.

Lemma step_of_written ks : step_of ks = written_step ks.
Proof.
  unfold step_of, written_step. generalize (ks.1 :: ks.2). clear ks. intros keys.
  induction keys as [|k keys IH] using rev_ind; [done|]. rewrite foldl_app, IH. cbn [foldl].
  rewrite !omap_app, existsb_app. destruct k; cbn; by rewrite ?app_nil_r, ?last_snoc, ?orb_false_r, ?orb_true_r.
Qed.

(** What is to be reported: every image but the three, and every action whose name
    does not start with one of the two. *)
Definition image_to_report (image : string) : list string :=
  if decide (image ∈ ["ubuntu-latest"; "ubuntu-22.04"; "ubuntu-20.04"]) then [] else ["runs-on: " +:+ image].
Definition action_to_report (uses : option string) : list string :=
  match uses with
  | Some u =>
    if starts_with "actions/upload-artifact@v3" u || starts_with "actions/download-artifact@v3" u then [] else ["uses: " +:+ u]
  | None => []
  end.
Definition to_report (j : PlainJob) : list string :=
  image_to_report (pj_runs_on j) ++ (pj_steps j ≫= λ ks, action_to_report (step_uses (written_step ks))).

Lemma job_reports_named j : construct_name ∘ construct <$> job_reports_of j = to_report j.
Proof.
  unfold job_reports_of, to_report. rewrite fmap_app. f_equal.
  - unfold runs_on_report, image_to_report. rewrite bool_decide_decide. by case_decide.
  - induction (pj_steps j) as [|ks kss IH]; [done|]. cbn [mbind list_bind]. rewrite fmap_app. setoid_rewrite IH. f_equal.
    unfold step_reports. rewrite step_of_written. unfold action_to_report. destruct (step_uses _) as [u|]; [|done].
    unfold uses_report, action_supported. cbn [existsb supported_actions]. rewrite orb_false_r. by destruct (_ || _).
Qed.

Lemma reports_named js : construct_name ∘ construct <$> (js ≫= job_reports_of) = js ≫= to_report.
Proof.
  induction js as [|j js IH]; [done|]. cbn [mbind list_bind]. rewrite fmap_app. setoid_rewrite IH. f_equal.
  apply job_reports_named.
Qed.

(** C31: A plain workflow is understood.  A file with one of the three triggers and any
    jobs whose steps have names, one-line commands, actions and
    [continue-on-error], in the usual layout, is parsed to exactly these jobs and
    steps, whatever the texts.  Reported are exactly the images that are not one of
    three of Ubuntu and the actions whose name does not start with one of the two
    for artifacts, in the order in which they are written, and nothing else: that
    there is more than one job is not reported. *)
Theorem plain_workflow_is_understood trigger js :
  trigger ∈ ["push"; "pull_request"; "workflow_dispatch"] → Forall plain_job_ok js →
  ∃ reports,
    parse_workflow (text (plain_lines trigger js)) =
      Ok (mkWorkflow [trigger] ((λ j, mkJob (pj_id j) (pj_runs_on j) ∅ None (written_step <$> pj_steps j)) <$> js) reports) ∧
    construct_name ∘ construct <$> reports = js ≫= to_report.
Proof.
  intros Ht Hjs. exists (js ≫= job_reports_of). rewrite parse_plain_workflow by done. split.
  - do 2 f_equal. apply list_fmap_ext. intros _ j _. unfold job_of. f_equal. apply list_fmap_ext. intros _ ks _. apply step_of_written.
  - apply reports_named.
Qed.

(** All jobs but the first are lost.  A file with several plain jobs, in which all
    images and actions are supported, is said to be fully supported, and executing
    it gives what its first job alone gives. *)
Theorem later_jobs_are_lost `{HashOrder, broker : Broker} manifest trigger j js :
  trigger ∈ ["push"; "pull_request"; "workflow_dispatch"] → Forall plain_job_ok (j :: js) →
  (j :: js) ≫= to_report = [] →
  ∃ w, parse_workflow (text (plain_lines trigger (j :: js))) = Ok w ∧
    length (jobs w) = S (length js) ∧ is_fully_supported w = true ∧
    execute manifest w = execute manifest (mkWorkflow [trigger] [job_of j] []).
Proof.
  intros Ht Hjs Hnone. eexists. split; [by apply parse_plain_workflow|].
  assert ((j :: js) ≫= job_reports_of = []) as ->.
  { apply (fmap_nil_inv (construct_name ∘ construct)). by rewrite reports_named. }
  split_and!; [cbn; by rewrite length_fmap|done|done].
Qed.

(** ** Runs *)
Definition no_paths : FenceManifest := mkFence [] true [].
#[export] Instance sorted_values : HashOrder := {| values m := (map_to_list m).*2; values_perm m := reflexivity _ |}.

Definition a_job : PlainJob :=
  mkPlain "build" "ubuntu-latest"
    [(KName "compile", [KRun "cargo build"; KContinue]); (KRun "curl -H ${{ secrets.TOKEN }} x", []); (KUses "actions/cache@v3", [])].

Lemma plain_workflow_is_understood_witness :
  ∃ reports,
    parse_workflow (text (plain_lines "push" [a_job])) =
      Ok (mkWorkflow ["push"] [mkJob "build" "ubuntu-latest" ∅ None (written_step <$> pj_steps a_job)] reports) ∧
    construct_name ∘ construct <$> reports = ["uses: actions/cache@v3"].
Proof.
  refine (plain_workflow_is_understood "push" [a_job] _ _); [by apply elem_of_cons; left|].
  repeat constructor; try done; try (by eexists _, _); by apply not_elem_of_cons; split; [|apply not_elem_of_cons; split; [|apply not_elem_of_nil]].
Defined.

Lemma secrets_fail_closed_witness :
  ∃ outs o, step_outcomes (execute (broker := NullBroker) no_paths (mkWorkflow ["push"] [job_of a_job] [])) = outs ++ [o] ∧
    o = SecretDenied None "TOKEN" ∧ length outs = 1%nat.
Proof.
  destruct (secrets_fail_closed (broker := NullBroker) no_paths (mkWorkflow ["push"] [job_of a_job] []) (job_of a_job) [] eq_refl)
    as (ps & rest & outs & Hs & Hf & Hr).
  destruct rest as [|s rest]; [discriminate Hr|]. destruct Hr as (o & rep & _ & Hr).
  exists outs, o. rewrite Hr. split; [done|].
  assert (outs ++ [o] = [Success (Some "compile") (simulate_run_digest "cargo build")] ++ [SecretDenied None "TOKEN"]) as Ho.
  { by injection Hr. }
  apply app_inj_2 in Ho as [-> [= ->]]; done.
Defined.

(** Three ways to write two steps. *)
Definition blank_between : string := text
  ["on: push"; "jobs:"; "  build:"; "    runs-on: ubuntu-latest"; "    steps:"; "      - run: cargo build"; "";
   "      - uses: actions/cache@v3"].
Definition env_in_step : string := text
  ["on: push"; "jobs:"; "  build:"; "    runs-on: ubuntu-latest"; "    steps:"; "      - run: cargo build"; "        env:";
   "          MODE: fast"; "      - uses: actions/cache@v3"].
Definition if_in_step : string := text
  ["on: push"; "jobs:"; "  build:"; "    runs-on: ubuntu-latest"; "    steps:"; "      - run: cargo build"; "        if: always()";
   "      - uses: actions/cache@v3"].

Definition one_step_and_green (yaml : string) : bool :=
  match parse_workflow yaml with
  | Ok w => is_fully_supported w && bool_decide ((λ j, length (job_steps j)) <$> jobs w = [1%nat])
            && job_success (execute (broker := NullBroker) no_paths w)
  | Err _ => false
  end.

(** Steps are lost without a report.  Two steps with a blank line between them, two
    steps of which the first has an environment, and two of which the first has a
    condition: each of these files is parsed to a job with its first step alone,
    is said to be fully supported, and succeeds, although the second step uses an
    action that is not supported. *)
Theorem steps_are_lost_without_report :
  forallb one_step_and_green [blank_between; env_in_step; if_in_step] = true.
Proof. vm_compute. reflexivity. Qed.

(** The environment of a job with a secret in it, and a job that is switched off. *)
Definition secret_in_job_env : string := text
  ["on: push"; "jobs:"; "  build:"; "    env:"; "      TOKEN: ${{ secrets.TOKEN }}"; "    if: false"; "    steps:"; "      - run: deploy"].

(** The secrets of a job's environment are not resolved.  The broker refuses every
    secret, and the condition of the job is false: the step runs with the reference
    in its environment, and the job succeeds. *)
Theorem job_env_secret_is_not_resolved :
  match parse_workflow secret_in_job_env with
  | Ok w =>
    (λ j, (job_env j !! "TOKEN", job_if j)) <$> jobs w = [(Some "${{ secrets.TOKEN }}", Some "false")] ∧
    extract_secret_refs "${{ secrets.TOKEN }}" = ["TOKEN"] ∧ is_fully_supported w = true ∧
    step_outcomes (execute (broker := NullBroker) no_paths w) = [Success None (simulate_run_digest "deploy")] ∧
    job_success (execute (broker := NullBroker) no_paths w) = true
  | Err _ => False
  end.
Proof. vm_compute. split_and!; reflexivity. Qed.
