(* ===== verification/Slots.v ===== *)
(** * The authorities of the spawn Worker: [deploy/cloudflare/src/lib]

    A durable object of the Worker keeps the concurrency slots that are sold to
    tenants ([concurrency_authority.ts] with [decideSlotAcquire] of [lib.ts]), the
    budget for admissions without a slot ([admission_budget.ts]) and the count of
    retries ([retry_epoch_authority.ts]).  Each operation is one transaction on the
    storage of the object: it commits, or it throws and changes nothing; a commit whose
    acknowledgement is lost is a call that loses its answer.  The
    storage maps keys to values of the kinds the authorities write.  A number that
    must be a safe integer is an integer here, and strings are their UTF-8 bytes. *)
From stdpp Require Import pretty.
From S2P Require Import Prelude Ledger Journal Text.

(** ** The language *)
Definition MAX_SAFE_INTEGER : Z := 2 ^ 53 - 1.
Definition is_safe (z : Z) : bool := (- MAX_SAFE_INTEGER <=? z) && (z <=? MAX_SAFE_INTEGER).

(** [s.length]: UTF-16 units. *)
Fixpoint js_length (s : string) : nat :=
  match s with
  | EmptyString => 0
  | String c s => (if is_cont c then 0 else if (240 <=? byte c)%Z then 2 else 1) + js_length s
  end%nat.

(** [encodeURIComponent]: all bytes but letters, digits and nine marks as a percent
    sign and two hexadecimal digits. *)
Definition upper_hex_digit (n : nat) : ascii := ascii_of_nat (if (n <? 10)%nat then 48 + n else 55 + n).
Definition unescaped (c : ascii) : bool := is_ascii_alphanumeric c || one_of "-_.!~*'()" c.
Fixpoint encodeURIComponent (s : string) : string :=
  match s with
  | EmptyString => EmptyString
  | String c s =>
    if unescaped c then String c (encodeURIComponent s)
    else String "%" (String (upper_hex_digit (nat_of_ascii c / 16))
                       (String (upper_hex_digit (nat_of_ascii c mod 16)) (encodeURIComponent s)))
  end.

(** ** What is stored *)
Record SlotRecord : Type := mkSlot { sl_key : string; sl_jobId : string; expiresMs : Z }.
Record SlotRefusal : Type := mkRefusal { rf_job_id : string; rf_reason : string; rf_recorded_at_ms : Z }.
Record SlotHolders : Type := mkHolders { ho_key : string; holders : list string; legacy : bool }.
Record AdmissionBudgetRecord : Type := mkBudget { spends_ms : list Z; last_observed_ms : Z }.
#[export] Instance SlotRecord_eq_dec : EqDecision SlotRecord.
Proof. solve_decision. Defined.

Inductive Stored : Type :=
| StSlots (slots : list SlotRecord)
| StRefusal (r : SlotRefusal)
| StHolders (h : SlotHolders)
| StBudget (b : AdmissionBudgetRecord)
| StCount (n : Z)
| StEpoch (jobId epochId : string).
Notation Storage := (gmap string Stored).

(** A transaction that reads, decides and writes.  It can lose the storage before it
    has read anything, or when it commits. *)
Inductive Fault : Type := NoFault | ReadFault | CommitFault.
Inductive Thrown : Type := Invalid_ (what : string) | StorageFailed.

(** ** [concurrency_authority.ts] *)
Record SlotAcquireDecision : Type := mkDecision {
  admitted : bool;
  reason : option string;
  slots : list SlotRecord;
}.

Definition live_at (nowMs : Z) (s : SlotRecord) : bool := nowMs <? expiresMs s.

Definition decideSlotAcquire (sls : list SlotRecord) (key jobId : string) (perKeyCap fleetCap nowMs ttlMs : Z) : SlotAcquireDecision :=
  let live := filter (λ s, live_at nowMs s = true) sls in
  if existsb (λ s, String.eqb (sl_jobId s) jobId) live then mkDecision true None live
  else
    let perKey := length (filter (λ s, sl_key s = key) live) in
    if perKeyCap <=? Z.of_nat perKey then mkDecision false (Some "over_key_cap") live
    else if fleetCap <=? Z.of_nat (length live) then mkDecision false (Some "over_fleet_cap") live
    else mkDecision true None (live ++ [mkSlot key jobId (nowMs + ttlMs)]).

Module ConcurrencyAuthority.
Definition SLOTS_KEY : string := "slots".
Definition MAX_HOLDERS : nat := 64.
Definition refusalKey (jobId : string) : string := "slot-refusal:v1:" +:+ encodeURIComponent jobId.
Definition holdersKey (jobId : string) : string := "slot-holders:v1:" +:+ encodeURIComponent jobId.

Definition text_ok (s : string) : bool := negb (bool_decide (s = EmptyString)).
Definition number_ok (z : Z) : bool := is_safe z && (0 <=? z).
Definition validateInputs (key jobId : string) (perKeyCap fleetCap nowMs ttlMs : Z) : bool :=
  text_ok key && text_ok jobId && number_ok perKeyCap && number_ok fleetCap && number_ok nowMs && number_ok ttlMs
  && is_safe (nowMs + ttlMs).
Definition validatePreparationId (p : option string) : bool :=
  match p with Some p => text_ok p && bool_decide (js_length p ≤ 256)%nat | None => true end.

(** The values read back; [None] is a value that is refused. *)
Definition slotsValue (v : option Stored) : option (list SlotRecord) :=
  match v with
  | None => Some []
  | Some (StSlots sls) =>
    if forallb (λ s, text_ok (sl_key s) && text_ok (sl_jobId s) && number_ok (expiresMs s)) sls
       && bool_decide (NoDup (sl_jobId <$> sls))
    then Some sls else None
  | Some _ => None
  end.
Definition refusalValue (v : option Stored) (jobId : string) : option (option SlotRefusal) :=
  match v with
  | None => Some None
  | Some (StRefusal r) => if String.eqb (rf_job_id r) jobId && number_ok (rf_recorded_at_ms r) then Some (Some r) else None
  | Some _ => None
  end.
Definition holdersValue (v : option Stored) : option (option SlotHolders) :=
  match v with
  | None => Some None
  | Some (StHolders h) =>
    if text_ok (ho_key h) && forallb (λ p, text_ok p && bool_decide (js_length p ≤ 256)%nat) (holders h)
       && bool_decide (length (holders h) ≤ MAX_HOLDERS)%nat && bool_decide (NoDup (holders h))
    then Some (Some h) else None
  | Some _ => None
  end.

Definition drop_holders (jobs : list string) (st : Storage) : Storage := foldl (λ st j, delete (holdersKey j) st) st jobs.
Definition expired_jobs (nowMs : Z) (sls : list SlotRecord) : list string :=
  sl_jobId <$> filter (λ s, live_at nowMs s = false) sls.

(** The holders of an admitted job, unless there are too many. *)
Definition next_holders (key : string) (held : bool) (old : option SlotHolders) (p : option string) : option SlotHolders :=
  let h := default (mkHolders key [] (held || bool_decide (p = None))) old in
  match p with
  | None => Some (mkHolders (ho_key h) (holders h) true)
  | Some p =>
    if bool_decide (p ∈ holders h) then Some h
    else if bool_decide (MAX_HOLDERS ≤ length (holders h))%nat then None
    else Some (mkHolders (ho_key h) (holders h ++ [p]) (legacy h))
  end.

Definition Answer : Type := Thrown + (bool * option string).
Definition found (jobId : string) (sls : list SlotRecord) : option SlotRecord :=
  head (filter (λ s, sl_jobId s = jobId) sls).

(** What the transaction of [acquire] returns or throws, with the storage it commits. *)
Definition record_refusal (jobId : string) (why : option string) (nowMs : Z) (st : Storage) : option Storage :=
  match refusalValue (st !! refusalKey jobId) jobId with
  | None => None
  | Some (Some _) => Some st
  | Some None => Some (<[refusalKey jobId := StRefusal (mkRefusal jobId (default "refused_at_ceiling" why) nowMs)]> st)
  end.

Definition acquire (key jobId : string) (perKeyCap fleetCap nowMs ttlMs : Z) (p : option string) (f : Fault) (st : Storage)
  : Storage * Answer :=
  if negb (validateInputs key jobId perKeyCap fleetCap nowMs ttlMs && validatePreparationId p) then (st, inl (Invalid_ "input"))
  else match f, slotsValue (st !! SLOTS_KEY) with
  | ReadFault, _ => (st, inl StorageFailed)
  | _, None => (st, inl (Invalid_ "stored slots"))
  | _, Some sls =>
    let existing := found jobId (filter (λ s, live_at nowMs s = true) sls) in
    let conflict := (st, match f with CommitFault => inl StorageFailed | _ => inr (false, Some "job_id_key_conflict") end) in
    if match existing with Some s => negb (String.eqb (sl_key s) key) | None => false end then conflict
    else match (if existing is Some _ then holdersValue (st !! holdersKey jobId) else Some None) with
    | None => (st, inl (Invalid_ "stored slot holders"))
    | Some old =>
      if match old with Some h => negb (String.eqb (ho_key h) key) | None => false end then conflict
      else
        let d := decideSlotAcquire sls key jobId perKeyCap fleetCap nowMs ttlMs in
        let expired := expired_jobs nowMs sls in
        if admitted d then
          match next_holders key (bool_decide (is_Some existing)) old p with
          | None => (st, match f with CommitFault => inl StorageFailed | _ => inr (false, Some "preparation_holder_limit") end)
          | Some h =>
            match f with
            | CommitFault => (st, inl StorageFailed)
            | _ => (<[holdersKey jobId := StHolders h]> (<[SLOTS_KEY := StSlots (slots d)]> (drop_holders expired st)),
                    inr (true, reason d))
            end
          end
        else match f, record_refusal jobId (reason d) nowMs st with
          | CommitFault, _ | _, None => (st, inr (false, Some "slot_refusal_unavailable"))
          | _, Some st' => (<[SLOTS_KEY := StSlots (slots d)]> (drop_holders expired st'), inr (false, reason d))
          end
    end
  end.

Definition release (jobId : string) (nowMs : Z) (f : Fault) (st : Storage) : Storage * (Thrown + unit) :=
  if negb (text_ok jobId && number_ok nowMs) then (st, inl (Invalid_ "input"))
  else match f, slotsValue (st !! SLOTS_KEY) with
  | NoFault, Some sls =>
    (delete (holdersKey jobId) (drop_holders (expired_jobs nowMs sls)
       (<[SLOTS_KEY := StSlots (filter (λ s, live_at nowMs s = true ∧ sl_jobId s ≠ jobId) sls)]> st)), inr tt)
  | NoFault, None => (st, inl (Invalid_ "stored slots"))
  | _, _ => (st, inl StorageFailed)
  end.

Definition releasePreparation (jobId p : string) (f : Fault) (st : Storage) : Storage * (Thrown + bool) :=
  if negb (text_ok jobId && text_ok p && validatePreparationId (Some p)) then (st, inl (Invalid_ "input"))
  else match f, holdersValue (st !! holdersKey jobId) with
  | NoFault, None => (st, inl (Invalid_ "stored slot holders"))
  | NoFault, Some None => (st, inr false)
  | NoFault, Some (Some h) =>
    if bool_decide (p ∉ holders h) then (st, inr false)
    else match slotsValue (st !! SLOTS_KEY) with
    | None => (st, inl (Invalid_ "stored slots"))
    | Some sls =>
      match found jobId sls with
      | None => (st, inr false)
      | Some s =>
        if negb (String.eqb (sl_key s) (ho_key h)) then (st, inl (Invalid_ "slot holder key mismatch"))
        else
          let remaining := filter (λ q, q ≠ p) (holders h) in
          if bool_decide (remaining ≠ []) || legacy h then
            (<[holdersKey jobId := StHolders (mkHolders (ho_key h) remaining (legacy h))]> st, inr true)
          else (delete (holdersKey jobId) (<[SLOTS_KEY := StSlots (filter (λ s, sl_jobId s ≠ jobId) sls)]> st), inr true)
      end
    end
  | _, _ => (st, inl StorageFailed)
  end.

Definition prune (nowMs : Z) (f : Fault) (st : Storage) : Storage * (Thrown + nat) :=
  if negb (number_ok nowMs) then (st, inl (Invalid_ "nowMs"))
  else match f, slotsValue (st !! SLOTS_KEY) with
  | NoFault, Some sls =>
    let live := filter (λ s, live_at nowMs s = true) sls in
    (drop_holders (expired_jobs nowMs sls) (<[SLOTS_KEY := StSlots live]> st), inr (length sls - length live)%nat)
  | NoFault, None => (st, inl (Invalid_ "stored slots"))
  | _, _ => (st, inl StorageFailed)
  end.

Definition renew_slot (jobId : string) (until : Z) (s : SlotRecord) : SlotRecord :=
  if String.eqb (sl_jobId s) jobId then mkSlot (sl_key s) (sl_jobId s) (Z.max (expiresMs s) until) else s.

(** [findIndex] names one slot: a job has one. *)
Definition renew (jobId : string) (nowMs ttlMs : Z) (f : Fault) (st : Storage) : Storage * (Thrown + bool) :=
  if negb (text_ok jobId && number_ok nowMs && number_ok ttlMs && is_safe (nowMs + ttlMs)) then (st, inl (Invalid_ "input"))
  else match f, slotsValue (st !! SLOTS_KEY) with
  | NoFault, Some sls =>
    match found jobId sls with
    | None => (st, inr false)
    | Some _ => (<[SLOTS_KEY := StSlots (renew_slot jobId (nowMs + ttlMs) <$> sls)]> st, inr true)
    end
  | NoFault, None => (st, inl (Invalid_ "stored slots"))
  | _, _ => (st, inl StorageFailed)
  end.

Definition getRefusal (jobId : string) (st : Storage) : Thrown + option SlotRefusal :=
  if negb (text_ok jobId) then inl (Invalid_ "jobId")
  else match refusalValue (st !! refusalKey jobId) jobId with None => inl (Invalid_ "stored refusal") | Some r => inr r end.
End ConcurrencyAuthority.

(** ** [admission_budget.ts] *)
Definition ADMISSION_BUDGET_KEY : string := "admission-budget:v1".
Definition ADMISSION_BUDGET_WINDOW_MS : Z := 60000.
Definition ADMISSION_BUDGET_MAX_SPENDS : nat := 5.

Fixpoint spends_ok (nowMs last previous : Z) (ts : list Z) : bool :=
  match ts with
  | [] => true
  | t :: ts =>
    is_safe t && (0 <=? t) && (t <=? nowMs) && (t <=? last) && (previous <=? t) && spends_ok nowMs last t ts
  end.
(** The first timestamp is compared with minus infinity: any number below zero does. *)
Definition budget_ok (nowMs : Z) (b : AdmissionBudgetRecord) : bool :=
  bool_decide (length (spends_ms b) ≤ ADMISSION_BUDGET_MAX_SPENDS)%nat
  && is_safe (last_observed_ms b) && (0 <=? last_observed_ms b) && (last_observed_ms b <=? nowMs)
  && spends_ok nowMs (last_observed_ms b) (-1) (spends_ms b).

Inductive AdmissionBudgetVerdict : Type := BudgetAdmitted | BudgetExhausted | BudgetUnreadable.

Definition spendAdmissionBudget (nowMs : Z) (f : Fault) (st : Storage) : Storage * AdmissionBudgetVerdict :=
  if negb (is_safe nowMs && (0 <=? nowMs)) then (st, BudgetUnreadable)
  else
    match f, match st !! ADMISSION_BUDGET_KEY with
             | None => Some []
             | Some (StBudget b) => if budget_ok nowMs b then Some (spends_ms b) else None
             | Some _ => None
             end with
    | ReadFault, _ | _, None => (st, BudgetUnreadable)
    | _, Some prior =>
      let active := filter (λ t, nowMs - ADMISSION_BUDGET_WINDOW_MS < t) prior in
      if bool_decide (ADMISSION_BUDGET_MAX_SPENDS ≤ length active)%nat then
        (st, match f with CommitFault => BudgetUnreadable | _ => BudgetExhausted end)
      else match f with
        | CommitFault => (st, BudgetUnreadable)
        | _ => (<[ADMISSION_BUDGET_KEY := StBudget (mkBudget (active ++ [nowMs]) nowMs)]> st, BudgetAdmitted)
        end
    end.

(** ** [retry_epoch_authority.ts] *)
Module RetryEpochAuthority.
Definition countKey (jobId : string) : string := "retry-count:v1:" +:+ encodeURIComponent jobId.
Definition epochKey (jobId epochId : string) : string :=
  "retry-epoch:v1:" +:+ encodeURIComponent jobId +:+ ":" +:+ encodeURIComponent epochId.
Definition validateId (s : string) : bool := ConcurrencyAuthority.text_ok s && bool_decide (js_length s ≤ 256)%nat.
Definition validateCount (v : Stored) : option Z :=
  match v with StCount n => if is_safe n && (0 <=? n) then Some n else None | _ => None end.
Definition validateRecord (jobId epochId : string) (v : Stored) : bool :=
  match v with
  | StEpoch j e => String.eqb j jobId && String.eqb e epochId && validateId j && validateId e
  | _ => false
  end.

Definition record (jobId epochId : string) (legacyFloor : Z) (f : Fault) (st : Storage) : Storage * (Thrown + (Z * bool)) :=
  if negb (validateId jobId && validateId epochId && is_safe legacyFloor && (0 <=? legacyFloor)) then (st, inl (Invalid_ "input"))
  else match f with
  | NoFault =>
    let rawCount := st !! countKey jobId in
    match (match rawCount with None => Some 0 | Some v => validateCount v end) with
    | None => (st, inl (Invalid_ "malformed retry count"))
    | Some storedCount =>
      let count := Z.max storedCount legacyFloor in
      match st !! epochKey jobId epochId with
      | Some v =>
        if negb (validateRecord jobId epochId v) then (st, inl (Invalid_ "malformed retry epoch record"))
        else if bool_decide (rawCount = None) then (st, inl (Invalid_ "retry epoch count missing"))
        else (if storedCount <? count then <[countKey jobId := StCount count]> st else st, inr (count, false))
      | None =>
        if MAX_SAFE_INTEGER <=? count then (st, inl (Invalid_ "retry count overflow"))
        else (<[epochKey jobId epochId := StEpoch jobId epochId]> (<[countKey jobId := StCount (count + 1)]> st), inr (count + 1, true))
      end
    end
  | _ => (st, inl StorageFailed)
  end.

Definition read (jobId : string) (st : Storage) : Thrown + Z :=
  if negb (validateId jobId) then inl (Invalid_ "job identity")
  else match st !! countKey jobId with
  | None => inr 0
  | Some v => match validateCount v with Some n => inr n | None => inl (Invalid_ "malformed retry count") end
  end.
End RetryEpochAuthority.

(** ** [acquireConcurrencySlot] and its durable objects ([index.ts])

    The slots and the retries live in the storage of [ConcurrencySlotsDO], the budget in
    that of [ContainmentDO].  A call to an object can fail although it committed: its
    answer is lost. *)
Definition FLEET_MAX_CONCURRENCY : Z := 250.
Definition COLD_REPO_CAP : Z := 40.
Definition SLOT_TTL_S : Z := 2700.

Record Objects : Type := mkObjects { slots_do : Storage; containment_do : Storage }.
Record Call : Type := mkCall { at_ms : Z; fault : Fault; answer_lost : bool }.

Definition slot_key (tenant : option string) (maxConcurrency : option Z) (repo : string) : string * Z :=
  match tenant, maxConcurrency with
  | Some t, Some m => (t, Z.min m FLEET_MAX_CONCURRENCY)
  | _, _ => ("repo:" +:+ repo, COLD_REPO_CAP)
  end.

(** The second component of the result is the budget call that admitted the job, if one did. *)
Definition acquireConcurrencySlot (bound : bool) (jobId : string) (tenant : option string) (maxConcurrency : option Z)
    (repo : string) (p : option string) (slot_call budget_call : Call) (w : Objects) : Objects * bool * option Z :=
  let '(key, perKeyCap) := slot_key tenant maxConcurrency repo in
  let '(st, a) := ConcurrencyAuthority.acquire key jobId perKeyCap FLEET_MAX_CONCURRENCY (at_ms slot_call)
                    (SLOT_TTL_S * 1000) p (fault slot_call) (slots_do w) in
  let w := mkObjects st (containment_do w) in
  match answer_lost slot_call, a with
  | false, inr (ok, _) => (w, ok, None)
  | _, _ =>
    if bound then
      let '(ct, v) := spendAdmissionBudget (at_ms budget_call) (fault budget_call) (containment_do w) in
      let w := mkObjects (slots_do w) ct in
      match answer_lost budget_call, v with
      | false, BudgetAdmitted => (w, true, Some (at_ms budget_call))
      | _, _ => (w, false, None)
      end
    else (w, false, None)
  end.

(** ** The requests that reach the objects, in the order they are served *)
Inductive Request : Type :=
| RqAcquire (bound : bool) (jobId : string) (tenant : option string) (maxConcurrency : option Z) (repo : string)
    (p : option string) (slot_call budget_call : Call)
| RqRelease (jobId : string) (nowMs : Z) (f : Fault)
| RqReleasePreparation (jobId p : string) (f : Fault)
| RqPrune (nowMs : Z) (f : Fault)
| RqRenew (jobId : string) (nowMs ttlMs : Z) (f : Fault)
| RqRecordRetry (jobId epochId : string) (legacyFloor : Z) (f : Fault).

Definition on_slots {A} (r : Storage * A) (w : Objects) : Objects := mkObjects r.1 (containment_do w).
Definition serve (rq : Request) (w : Objects) : Objects * option Z :=
  match rq with
  | RqAcquire b j t m repo p c1 c2 => let '(w, _, spent) := acquireConcurrencySlot b j t m repo p c1 c2 w in (w, spent)
  | RqRelease j now f => (on_slots (ConcurrencyAuthority.release j now f (slots_do w)) w, None)
  | RqReleasePreparation j p f => (on_slots (ConcurrencyAuthority.releasePreparation j p f (slots_do w)) w, None)
  | RqPrune now f => (on_slots (ConcurrencyAuthority.prune now f (slots_do w)) w, None)
  | RqRenew j now ttl f => (on_slots (ConcurrencyAuthority.renew j now ttl f (slots_do w)) w, None)
  | RqRecordRetry j e fl f => (on_slots (RetryEpochAuthority.record j e fl f (slots_do w)) w, None)
  end.

(** The objects after the requests, and when each admission on the budget was made. *)
Fixpoint serve_all (rqs : list Request) (w : Objects) : Objects * list Z :=
  match rqs with
  | [] => (w, [])
  | rq :: rqs =>
    let '(w1, spent) := serve rq w in
    let '(w2, ts) := serve_all rqs w1 in
    (w2, from_option (λ t, [t]) [] spent ++ ts)
  end.
Definition fresh_objects : Objects := mkObjects ∅ ∅.
