(* ===== verification/SlotsProofs.v ===== *)
(** * The Worker's admissions are bounded: proofs about [Slots]

    The keys of the storage do not clash; the stored slots always read back and stay
    within the caps, whatever the clocks of the calls; the budget admits five in any
    minute; a held slot stays; a retry is counted once. *)
From S2P Require Import Prelude Ledger Journal Text Slots.

(** ** Keys *)
Lemma upper_hex_digit_inj n m : (n < 16)%nat → (m < 16)%nat → upper_hex_digit n = upper_hex_digit m → n = m.
Proof.
  unfold upper_hex_digit. intros Hn Hm H%(f_equal nat_of_ascii).
  rewrite !nat_ascii_embedding in H by (repeat case_match; lia).
  destruct (Nat.ltb_spec n 10), (Nat.ltb_spec m 10); lia.
Qed.

Lemma escaped_inj c d :
  upper_hex_digit (nat_of_ascii c / 16) = upper_hex_digit (nat_of_ascii d / 16) →
  upper_hex_digit (nat_of_ascii c mod 16) = upper_hex_digit (nat_of_ascii d mod 16) → c = d.
Proof.
  pose proof (nat_ascii_bounded c). pose proof (nat_ascii_bounded d). intros H1 H2.
  apply upper_hex_digit_inj in H1; [|apply Nat.Div0.div_lt_upper_bound; lia..].
  apply upper_hex_digit_inj in H2; [|apply Nat.mod_upper_bound; lia..].
  rewrite <-(ascii_nat_embedding c), <-(ascii_nat_embedding d). f_equal.
  rewrite (Nat.div_mod_eq (nat_of_ascii c) 16), (Nat.div_mod_eq (nat_of_ascii d) 16). lia.
Qed.

(** What may follow an encoded name in a key: nothing, or a colon. *)
Definition stops (r : string) : Prop := match r with EmptyString => True | String c _ => c = ":"%char end.

Lemma encode_head c s r : stops (encodeURIComponent (String c s) +:+ r) → False.
Proof.
  cbn [encodeURIComponent]. destruct (unescaped c) eqn:Hc; rewrite string_app_cons; cbn; [|done].
  intros ->. by vm_compute in Hc.
Qed.

Lemma encode_app_inj s1 s2 r1 r2 :
  stops r1 → stops r2 → encodeURIComponent s1 +:+ r1 = encodeURIComponent s2 +:+ r2 → s1 = s2 ∧ r1 = r2.
Proof.
  intros Hr1 Hr2. revert s2. induction s1 as [|c s1 IH]; intros [|d s2] H.
  - done.
  - change (r1 = encodeURIComponent (String d s2) +:+ r2) in H. subst r1. by apply encode_head in Hr1.
  - change (encodeURIComponent (String c s1) +:+ r1 = r2) in H. subst r2. by apply encode_head in Hr2.
  - cbn [encodeURIComponent] in H.
    destruct (unescaped c) eqn:Hc, (unescaped d) eqn:Hd; rewrite !string_app_cons in H.
    + injection H as -> H. by destruct (IH s2 H) as [-> ->].
    + injection H as -> _. by vm_compute in Hc.
    + injection H as <- _. by vm_compute in Hd.
    + injection H as H1 H2 H. destruct (IH s2 H) as [-> ->]. by rewrite (escaped_inj c d).
Qed.

Lemma encode_inj s1 s2 : encodeURIComponent s1 = encodeURIComponent s2 → s1 = s2.
Proof.
  intros H. apply (encode_app_inj s1 s2 "" ""); [done..|].
  by rewrite H.
Qed.

Import ConcurrencyAuthority.

Lemma prefixed_inj pre s1 s2 : pre +:+ encodeURIComponent s1 = pre +:+ encodeURIComponent s2 → s1 = s2.
Proof. intros H. by apply encode_inj, (inj (String.append pre)). Qed.
#[export] Instance holdersKey_inj : Inj (=) (=) holdersKey.
Proof. intros j1 j2. apply prefixed_inj. Qed.
#[export] Instance countKey_inj : Inj (=) (=) RetryEpochAuthority.countKey.
Proof. intros j1 j2. apply prefixed_inj. Qed.
#[export] Instance epochKey_inj : Inj2 (=) (=) (=) RetryEpochAuthority.epochKey.
Proof.
  unfold RetryEpochAuthority.epochKey. intros j1 e1 j2 e2 H. apply (inj (String.append _)) in H.
  apply encode_app_inj in H as [-> H]; [|done..]. split; [done|].
  by apply encode_inj, (inj (String.append ":")).
Qed.

(** The authorities write under keys that tell what is stored. *)
Lemma holders_not_slots j : holdersKey j ≠ SLOTS_KEY.
Proof. done. Qed.
Lemma holders_not_refusal j i : holdersKey j ≠ refusalKey i.
Proof. done. Qed.
Lemma refusal_not_slots j : refusalKey j ≠ SLOTS_KEY.
Proof. done. Qed.
Lemma count_not_slots j : RetryEpochAuthority.countKey j ≠ SLOTS_KEY.
Proof. done. Qed.
Lemma epoch_not_slots j e : RetryEpochAuthority.epochKey j e ≠ SLOTS_KEY.
Proof. done. Qed.
Lemma count_not_holders j i : RetryEpochAuthority.countKey j ≠ holdersKey i.
Proof. done. Qed.
Lemma epoch_not_holders j e i : RetryEpochAuthority.epochKey j e ≠ holdersKey i.
Proof. done. Qed.
Lemma epoch_not_count j e i : RetryEpochAuthority.epochKey j e ≠ RetryEpochAuthority.countKey i.
Proof. done. Qed.
Create HintDb slot_keys.
#[export] Hint Resolve holders_not_slots holders_not_refusal refusal_not_slots count_not_slots epoch_not_slots
  count_not_holders epoch_not_holders epoch_not_count not_eq_sym : slot_keys.

(** ** The slots that are stored *)
Definition slot_ok (s : SlotRecord) : bool := text_ok (sl_key s) && text_ok (sl_jobId s) && number_ok (expiresMs s).
Definition slots_ok (l : list SlotRecord) : Prop := Forall (λ s, slot_ok s = true) l ∧ NoDup (sl_jobId <$> l).

Lemma slotsValue_ok v l : slotsValue v = Some l → slots_ok l.
Proof.
  destruct v as [[]|]; cbn; intros H; simplify_eq; [|by repeat constructor].
  destruct (forallb _ _ && _) eqn:E; simplify_eq. apply andb_true_iff in E as [E1 E2%bool_decide_eq_true].
  split; [|done]. apply Forall_forall. intros s Hs%list_elem_of_In. by apply (proj1 (forallb_forall _ _) E1).
Qed.

Lemma slotsValue_some l : slots_ok l → slotsValue (Some (StSlots l)) = Some l.
Proof.
  intros [H1 H2]. cbn. rewrite bool_decide_eq_true_2 by done.
  replace (forallb _ l) with true; [done|]. symmetry. apply forallb_forall. intros s Hs%list_elem_of_In.
  by apply (proj1 (Forall_forall _ _) H1).
Qed.

Lemma slots_ok_filter (P : SlotRecord → Prop) `{!∀ s, Decision (P s)} l : slots_ok l → slots_ok (filter P l).
Proof.
  intros [H1 H2]. split; [apply Forall_forall; intros s [_ Hs]%list_elem_of_filter; by apply (proj1 (Forall_forall _ _) H1)|].
  eapply sublist_NoDup; [exact H2|apply fmap_sublist, sublist_filter].
Qed.

Lemma slots_ok_one l s t : slots_ok l → s ∈ l → t ∈ l → sl_jobId s = sl_jobId t → s = t.
Proof.
  intros [_ H] [i Hi]%list_elem_of_lookup [k Hk]%list_elem_of_lookup E.
  assert (i = k) as ->; [|by simplify_eq].
  eapply (NoDup_lookup _ i k); [exact H| |]; rewrite list_lookup_fmap, ?Hi, ?Hk; cbn; by rewrite ?E.
Qed.

Lemma slots_ok_snoc l s :
  slots_ok l → slot_ok s = true → (∀ t, t ∈ l → sl_jobId t ≠ sl_jobId s) → slots_ok (l ++ [s]).
Proof.
  intros [H1 H2] Hs Hf. split; [by apply Forall_app; split; [|constructor]|].
  rewrite fmap_app. apply NoDup_app. split_and!; [done| |apply NoDup_singleton].
  intros j (t & -> & Ht)%list_elem_of_fmap Hj%list_elem_of_singleton. by apply (Hf t).
Qed.

Lemma found_some j l s : found j l = Some s → s ∈ l ∧ sl_jobId s = j.
Proof.
  unfold found. intros H. assert (s ∈ filter (λ s, sl_jobId s = j) l) as []%list_elem_of_filter; [|done].
  destruct (filter _ l); simplify_eq/=. by left.
Qed.

Lemma found_none j l : found j l = None → ∀ s, s ∈ l → sl_jobId s ≠ j.
Proof.
  unfold found. intros H s Hs E. assert (s ∈ filter (λ s, sl_jobId s = j) l) as Hin by by apply list_elem_of_filter.
  destruct (filter _ l); simplify_eq/=. by apply not_elem_of_nil in Hin.
Qed.

Lemma found_ok l s : slots_ok l → s ∈ l → found (sl_jobId s) l = Some s.
Proof.
  intros Hok Hs. destruct (found (sl_jobId s) l) as [t|] eqn:E; [|by destruct (found_none _ _ E s Hs)].
  apply found_some in E as [Ht E]. by rewrite (slots_ok_one l t s).
Qed.

Lemma lookup_drop_holders jobs st k :
  drop_holders jobs st !! k = if bool_decide (k ∈ holdersKey <$> jobs) then None else st !! k.
Proof.
  unfold drop_holders. revert st. induction jobs as [|j jobs IH]; intros st; cbn; [done|]. rewrite IH.
  destruct (decide (k = holdersKey j)) as [->|Hne].
  - rewrite lookup_delete_eq, (bool_decide_eq_true_2 (_ ∈ _ :: _)) by by left. by case_bool_decide.
  - rewrite lookup_delete_ne by done. repeat case_bool_decide; set_solver.
Qed.

(** ** What an acquire does *)
Definition live_slots (now : Z) (l : list SlotRecord) : list SlotRecord := filter (λ s, live_at now s = true) l.
Definition slots_for (key : string) (l : list SlotRecord) : nat := length (filter (λ s, sl_key s = key) l).

Inductive acquired (key job : string) (cap fleet now ttl : Z) (p : option string) (st : Storage) : Storage → Answer → Prop :=
| acq_unchanged a : (∀ r, a ≠ inr (true, r)) → acquired key job cap fleet now ttl p st st a
| acq_refused l st0 r :
    slotsValue (st !! SLOTS_KEY) = Some l →
    (∀ k, k ≠ refusalKey job → st0 !! k = st !! k) →
    acquired key job cap fleet now ttl p st
      (<[SLOTS_KEY := StSlots (live_slots now l)]> (drop_holders (expired_jobs now l) st0)) (inr (false, r))
| acq_again l s old h r :
    slotsValue (st !! SLOTS_KEY) = Some l →
    s ∈ live_slots now l → sl_jobId s = job → sl_key s = key →
    holdersValue (st !! holdersKey job) = Some old → from_option ho_key key old = key →
    next_holders key true old p = Some h → validatePreparationId p = true →
    acquired key job cap fleet now ttl p st
      (<[holdersKey job := StHolders h]> (<[SLOTS_KEY := StSlots (live_slots now l)]> (drop_holders (expired_jobs now l) st)))
      (inr (true, r))
| acq_new l h r :
    slotsValue (st !! SLOTS_KEY) = Some l →
    (∀ s, s ∈ live_slots now l → sl_jobId s ≠ job) →
    slot_ok (mkSlot key job (now + ttl)) = true →
    Z.of_nat (slots_for key (live_slots now l)) < cap → Z.of_nat (length (live_slots now l)) < fleet →
    next_holders key false None p = Some h → validatePreparationId p = true →
    acquired key job cap fleet now ttl p st
      (<[holdersKey job := StHolders h]>
        (<[SLOTS_KEY := StSlots (live_slots now l ++ [mkSlot key job (now + ttl)])]> (drop_holders (expired_jobs now l) st)))
      (inr (true, r)).

Lemma validated_slot key job cap fleet now ttl :
  validateInputs key job cap fleet now ttl = true → slot_ok (mkSlot key job (now + ttl)) = true.
Proof.
  unfold validateInputs, slot_ok, number_ok. cbn. rewrite !andb_true_iff, !Z.leb_le.
  intros. destruct_and!. split_and!; try done. lia.
Qed.

Lemma decide_found l key job cap fleet now ttl s :
  found job (live_slots now l) = Some s →
  decideSlotAcquire l key job cap fleet now ttl = mkDecision true None (live_slots now l).
Proof.
  intros [Hs Hj]%found_some. unfold decideSlotAcquire. fold (live_slots now l).
  replace (existsb _ _) with true; [done|]. symmetry. apply existsb_exists. exists s.
  split; [by apply list_elem_of_In|]. by apply String.eqb_eq.
Qed.

Lemma decide_absent l key job cap fleet now ttl :
  found job (live_slots now l) = None →
  (∃ r, decideSlotAcquire l key job cap fleet now ttl = mkDecision false (Some r) (live_slots now l))
  ∨ decideSlotAcquire l key job cap fleet now ttl = mkDecision true None (live_slots now l ++ [mkSlot key job (now + ttl)])
    ∧ Z.of_nat (slots_for key (live_slots now l)) < cap ∧ Z.of_nat (length (live_slots now l)) < fleet.
Proof.
  intros Hf. unfold decideSlotAcquire. fold (live_slots now l). fold (slots_for key (live_slots now l)).
  destruct (existsb _ _) eqn:E.
  { apply existsb_exists in E as (s & Hs%list_elem_of_In & Hj%String.eqb_eq). by destruct (found_none _ _ Hf s). }
  destruct (Z.leb_spec cap (Z.of_nat (slots_for key (live_slots now l)))); [by left; eexists|].
  destruct (Z.leb_spec fleet (Z.of_nat (length (live_slots now l)))); [by left; eexists|]. by right.
Qed.

Lemma record_refusal_keeps job why now st st0 :
  record_refusal job why now st = Some st0 → ∀ k, k ≠ refusalKey job → st0 !! k = st !! k.
Proof.
  unfold record_refusal. intros H k Hk. destruct (refusalValue _ _) as [[]|]; simplify_eq; [done|].
  by rewrite lookup_insert_ne.
Qed.

Lemma acquire_cases key job cap fleet now ttl p f st :
  let '(st', a) := acquire key job cap fleet now ttl p f st in acquired key job cap fleet now ttl p st st' a.
Proof.
  unfold acquire. destruct (validateInputs _ _ _ _ _ _) eqn:Hi, (validatePreparationId p) eqn:Hp; cbn [andb negb];
    try by apply acq_unchanged.
  destruct (slotsValue _) as [l|] eqn:Hl; [|by destruct f; apply acq_unchanged].
  fold (live_slots now l). destruct f; [|by apply acq_unchanged|].
  all: destruct (found job (live_slots now l)) as [s|] eqn:Hf.
  all: try (destruct (String.eqb (sl_key s) key) eqn:Hk; cbn [negb]; [|by apply acq_unchanged];
    apply String.eqb_eq in Hk; rewrite (decide_found _ _ _ _ _ _ _ _ Hf); cbn [admitted];
    rewrite bool_decide_eq_true_2 by done).
  all: try destruct (decide_absent l key job cap fleet now ttl Hf) as [[r ->]|(-> & Hc & Hfl)]; cbn [admitted slots reason].
  all: try (destruct (holdersValue _) as [old|] eqn:Ho; [|by apply acq_unchanged];
    destruct (match old with Some h => _ | None => _ end) eqn:Hko; [by apply acq_unchanged|]).
  all: try by (destruct (next_holders _ _ _ _); apply acq_unchanged).
  all: try by apply acq_unchanged.
  - destruct (next_holders key true old p) as [h|] eqn:Hn; [|by apply acq_unchanged].
    apply found_some in Hf as [Hs Hj]. apply (acq_again key job cap fleet now ttl p st l s old h); try done.
    destruct old as [h0|]; [|done]. by apply negb_false_iff, String.eqb_eq in Hko.
  - destruct (record_refusal _ _ _ _) as [st0|] eqn:Hr; [|by apply acq_unchanged].
    apply (acq_refused key job cap fleet now ttl p st l st0); [done|]. by eapply record_refusal_keeps.
  - rewrite bool_decide_eq_false_2 by (by intros []).
    destruct (next_holders key false None p) as [h|] eqn:Hn; [|by apply acq_unchanged].
    apply (acq_new key job cap fleet now ttl p st l h); try done; [by apply found_none|].
    by eapply validated_slot.
Qed.

(** ** The storage stays readable, and every record of holders belongs to a slot *)
Definition holders_ok (h : SlotHolders) : Prop := holdersValue (Some (StHolders h)) = Some (Some h).
Definition held_for (l : list SlotRecord) (j : string) (v : Stored) : Prop :=
  ∃ h s, v = StHolders h ∧ holders_ok h ∧ s ∈ l ∧ sl_jobId s = j ∧ sl_key s = ho_key h
       ∧ (holders h ≠ [] ∨ legacy h = true).
Definition wf (st : Storage) : Prop :=
  ∃ l, slotsValue (st !! SLOTS_KEY) = Some l ∧ ∀ j v, st !! holdersKey j = Some v → held_for l j v.

Lemma holders_ok_iff h :
  holders_ok h ↔ text_ok (ho_key h) = true ∧ Forall (λ p, validatePreparationId (Some p) = true) (holders h)
                 ∧ (length (holders h) ≤ MAX_HOLDERS)%nat ∧ NoDup (holders h).
Proof.
  unfold holders_ok, holdersValue. split.
  - destruct (text_ok _ && _ && _ && _) eqn:E; [|done]. intros _.
    rewrite !andb_true_iff, !bool_decide_eq_true in E. destruct E as [[[? Hf] ?] ?]. split_and!; try done.
    apply Forall_forall. intros p Hp%list_elem_of_In. by apply (proj1 (forallb_forall _ _) Hf).
  - intros (-> & Hf & ? & ?). rewrite !bool_decide_eq_true_2 by done.
    replace (forallb _ _) with true; [done|]. symmetry. apply forallb_forall. intros p Hp%list_elem_of_In.
    by apply (proj1 (Forall_forall _ _) Hf).
Qed.

Lemma holdersValue_some v h : holdersValue v = Some (Some h) → v = Some (StHolders h) ∧ holders_ok h.
Proof.
  destruct v as [[]|]; cbn; intros H; simplify_eq. destruct (_ && _) eqn:E; simplify_eq.
  split; [done|]. unfold holders_ok, holdersValue. by rewrite E.
Qed.

Lemma next_holders_ok key held old p h :
  text_ok key = true → validatePreparationId p = true → (∀ o, old = Some o → holders_ok o) →
  from_option ho_key key old = key → next_holders key held old p = Some h →
  holders_ok h ∧ ho_key h = key ∧ (holders h ≠ [] ∨ legacy h = true)
  ∧ (∀ q, p = Some q → q ∈ holders h) ∧ (∀ o q, old = Some o → q ∈ holders o → q ∈ holders h).
Proof.
  intros Hkey Hp Hold Hk. unfold next_holders. set (h0 := default _ old). intros Hn.
  assert (holders_ok h0 ∧ ho_key h0 = key ∧ ∀ o, old = Some o → o = h0) as (H0 & Hk0 & Ho).
  { subst h0. destruct old as [o|]; cbn in *.
    - split_and!; [by apply Hold|done|]. by intros ? [= ->].
    - split_and!; [|done|done]. apply holders_ok_iff. cbn. split_and!; [done|constructor|unfold MAX_HOLDERS; lia|constructor]. }
  clearbody h0. pose proof (proj1 (holders_ok_iff h0) H0) as (Ht & Hf & Hl & Hnd). destruct p as [q|]; simplify_eq.
  2:{ split_and!; [by apply holders_ok_iff|done|by right|done|]. by intros o ? ->%Ho. }
  destruct (bool_decide (q ∈ holders h0)) eqn:E; simplify_eq.
  - apply bool_decide_eq_true in E. split_and!; [done|done| |by intros ? [= <-]|by intros o ? ->%Ho].
    left. intros Hnil. rewrite Hnil in E. by apply not_elem_of_nil in E.
  - apply bool_decide_eq_false in E. case_bool_decide; simplify_eq. split_and!; cbn; [|done| | |].
    + apply holders_ok_iff. cbn. rewrite length_app. cbn.
      split_and!; [done|by apply Forall_app; split; [|constructor]|lia|].
      apply NoDup_app. split_and!; [done| |apply NoDup_singleton]. intros x Hx ->%list_elem_of_singleton. done.
    + left. by intros []%app_nil.
    + intros ? [= <-]. set_solver.
    + intros o ? ->%Ho. set_solver.
Qed.

Lemma held_for_mono l l' j v :
  held_for l j v → (∀ s, s ∈ l → sl_jobId s = j → ∃ t, t ∈ l' ∧ sl_jobId t = j ∧ sl_key t = sl_key s) → held_for l' j v.
Proof.
  intros (h & s & ? & ? & Hs & Hj & Hk & ?) Hsub. destruct (Hsub s Hs Hj) as (t & ? & ? & Ht).
  exists h, t. split_and!; try done. congruence.
Qed.

(** A record that survives the expired ones is that of a live slot. *)
Lemma survivor now l st j v :
  drop_holders (expired_jobs now l) st !! holdersKey j = Some v →
  st !! holdersKey j = Some v ∧ ∀ s, s ∈ l → sl_jobId s = j → s ∈ live_slots now l.
Proof.
  rewrite lookup_drop_holders. case_bool_decide as Hin; [done|]. intros Hv. split; [done|].
  intros s Hs Hj. apply list_elem_of_filter. split; [|done]. destruct (live_at now s) eqn:E; [done|].
  destruct Hin. apply list_elem_of_fmap_2, list_elem_of_fmap. exists s.
  split; [done|]. by apply list_elem_of_filter.
Qed.

Lemma wf_slots st l : slots_ok l → st !! SLOTS_KEY = Some (StSlots l) → (∀ j v, st !! holdersKey j = Some v → held_for l j v) → wf st.
Proof. intros ? E ?. exists l. rewrite E. split; [by apply slotsValue_some|done]. Qed.

Lemma survivor_held now l l' st j v :
  (∀ j v, st !! holdersKey j = Some v → held_for l j v) → (∀ s, s ∈ live_slots now l → s ∈ l') →
  drop_holders (expired_jobs now l) st !! holdersKey j = Some v → held_for l' j v.
Proof.
  intros Hh Hsub [Hv Hs]%survivor. apply (held_for_mono l); [by apply Hh|]. intros s ? ?. exists s. eauto.
Qed.

Lemma lookup_drop_slots jobs st : drop_holders jobs st !! SLOTS_KEY = st !! SLOTS_KEY.
Proof.
  rewrite lookup_drop_holders, bool_decide_eq_false_2; [done|]. by intros (j & ? & _)%list_elem_of_fmap.
Qed.

Lemma slot_ok_key s : slot_ok s = true → text_ok (sl_key s) = true.
Proof. unfold slot_ok. rewrite !andb_true_iff. tauto. Qed.

Lemma wf_insert_holders st l j h s :
  slots_ok l → st !! SLOTS_KEY = Some (StSlots l) → s ∈ l → sl_jobId s = j → sl_key s = ho_key h → holders_ok h →
  holders h ≠ [] ∨ legacy h = true →
  (∀ i v, i ≠ j → st !! holdersKey i = Some v → held_for l i v) → wf (<[holdersKey j := StHolders h]> st).
Proof.
  intros Hok Hl Hs Hj Hk Hh Hne Hrest. apply (wf_slots _ l); [done|by rewrite lookup_insert_ne by eauto with slot_keys|].
  intros i v. destruct (decide (i = j)) as [->|Hij].
  - rewrite lookup_insert_eq. intros [= <-]. by exists h, s.
  - rewrite lookup_insert_ne by (intros ?%(inj holdersKey); congruence). by apply Hrest.
Qed.

Lemma acquired_wf key job cap fleet now ttl p st st' a :
  acquired key job cap fleet now ttl p st st' a → wf st → wf st'.
Proof.
  intros Hacq (l0 & Hl0 & Hh). pose proof (slotsValue_ok _ _ Hl0) as Hok0.
  destruct Hacq as [a Ha|l st0 r Hl Hst0|l s old h r Hl Hs Hj Hk Ho Hko Hn Hp|l h r Hl Hf Hsl Hc Hfl Hn Hp];
    [by exists l0|..]; rewrite Hl0 in Hl; simplify_eq; pose proof (slots_ok_filter (λ s, live_at now s = true) l Hok0) as Hok.
  - apply (wf_slots _ (live_slots now l)); [done|by rewrite lookup_insert_eq|].
    intros j v. rewrite lookup_insert_ne by eauto with slot_keys.
    apply survivor_held; [|done]. intros i w. rewrite Hst0 by eauto with slot_keys. apply Hh.
  - assert (s ∈ l) as Hsl by by apply list_elem_of_filter in Hs as [].
    destruct (next_holders_ok (sl_key s) true old p h) as (Hho & Hhk & Hne & _); try done.
    { apply slot_ok_key. by apply (proj1 (Forall_forall _ _) (proj1 Hok0)). }
    { intros o ->. by apply holdersValue_some in Ho as []. }
    apply (wf_insert_holders _ (live_slots now l) _ _ s); try done; [by rewrite lookup_insert_eq|].
    intros i v _. rewrite lookup_insert_ne by eauto with slot_keys. by apply survivor_held.
  - destruct (next_holders_ok key false None p h) as (Hho & Hhk & Hne & _); try done; [by apply slot_ok_key in Hsl|].
    apply (wf_insert_holders _ (live_slots now l ++ [mkSlot key job (now + ttl)]) _ _ (mkSlot key job (now + ttl)));
      try done; [by apply slots_ok_snoc|by rewrite lookup_insert_eq|set_solver|].
    intros i v _. rewrite lookup_insert_ne by eauto with slot_keys. apply survivor_held; [done|set_solver].
Qed.

(** ** The other operations never add a slot *)
Definition slots_of (st : Storage) : list SlotRecord := default [] (slotsValue (st !! SLOTS_KEY)).
Definition shrinks (st st' : Storage) : Prop :=
  wf st' ∧ (sl_key <$> slots_of st') `sublist_of` (sl_key <$> slots_of st).

Lemma slots_of_read st l : slotsValue (st !! SLOTS_KEY) = Some l → slots_of st = l.
Proof. unfold slots_of. by intros ->. Qed.

Lemma slots_of_written st l : slots_ok l → st !! SLOTS_KEY = Some (StSlots l) → slots_of st = l.
Proof. intros Hok E. apply slots_of_read. rewrite E. by apply slotsValue_some. Qed.

Lemma shrinks_refl st : wf st → shrinks st st.
Proof. by split. Qed.
#[export] Hint Resolve shrinks_refl : slot_keys.

Lemma shrinks_intro st st' l l' :
  slotsValue (st !! SLOTS_KEY) = Some l → slots_ok l' → st' !! SLOTS_KEY = Some (StSlots l') →
  (∀ j v, st' !! holdersKey j = Some v → held_for l' j v) →
  (sl_key <$> l') `sublist_of` (sl_key <$> l) → shrinks st st'.
Proof.
  intros Hl Hok Hl' Hh Hsub. split; [by apply (wf_slots _ l')|].
  by rewrite (slots_of_read _ _ Hl), (slots_of_written _ _ Hok Hl').
Qed.

(** Storage that differs in other keys only. *)
Lemma shrinks_elsewhere st st' :
  wf st → st' !! SLOTS_KEY = st !! SLOTS_KEY → (∀ j, st' !! holdersKey j = st !! holdersKey j) → shrinks st st'.
Proof.
  intros (l & Hl & Hh) Es Eh. unfold shrinks, wf, slots_of. rewrite Es. split; [|done].
  exists l. split; [done|]. intros j v. rewrite Eh. apply Hh.
Qed.

Lemma release_shrinks j now f st : wf st → shrinks st (release j now f st).1.
Proof.
  intros Hwf. unfold release. destruct (negb _); [by eauto with slot_keys|].
  pose proof Hwf as (l & Hl & Hh). pose proof (slotsValue_ok _ _ Hl) as Hok. rewrite Hl.
  destruct f; cbn [fst]; [|by eauto with slot_keys..].
  apply (shrinks_intro _ _ l (filter (λ s, live_at now s = true ∧ sl_jobId s ≠ j) l)); [done|by apply slots_ok_filter| | |apply fmap_sublist, sublist_filter].
  { by rewrite lookup_delete_ne, lookup_drop_slots, lookup_insert_eq by eauto with slot_keys. }
  intros i v. rewrite lookup_delete_Some. intros [Hij [Hv Hlive]%survivor].
  rewrite lookup_insert_ne in Hv by eauto with slot_keys. apply (held_for_mono l); [by apply Hh|].
  intros s Hs Hsj. exists s. split; [|done]. specialize (Hlive s Hs Hsj). apply list_elem_of_filter in Hlive as [? ?].
  apply list_elem_of_filter. split_and!; try done. congruence.
Qed.

Lemma prune_shrinks now f st : wf st → shrinks st (prune now f st).1.
Proof.
  intros Hwf. unfold prune. destruct (negb _); [by eauto with slot_keys|].
  pose proof Hwf as (l & Hl & Hh). pose proof (slotsValue_ok _ _ Hl) as Hok. rewrite Hl.
  destruct f; cbn [fst]; [|by eauto with slot_keys..].
  apply (shrinks_intro _ _ l (live_slots now l)); [done|by apply slots_ok_filter| | |apply fmap_sublist, sublist_filter].
  { by rewrite lookup_drop_slots, lookup_insert_eq. }
  intros i v. apply survivor_held; [|done]. intros k w. rewrite lookup_insert_ne by eauto with slot_keys. apply Hh.
Qed.

Lemma renew_slot_same j until s : sl_jobId (renew_slot j until s) = sl_jobId s ∧ sl_key (renew_slot j until s) = sl_key s.
Proof. unfold renew_slot. by case_match. Qed.

Lemma renew_slots_ok j now ttl l :
  number_ok now = true → number_ok ttl = true → is_safe (now + ttl) = true → slots_ok l →
  slots_ok (renew_slot j (now + ttl) <$> l).
Proof.
  intros Hn Ht Hs [H1 H2]. split.
  - apply Forall_fmap. eapply Forall_impl; [exact H1|]. intros s Hok. cbn. unfold renew_slot. case_match; [|done].
    revert Hn Ht Hs Hok. unfold slot_ok, number_ok, is_safe. cbn. rewrite !andb_true_iff, !Z.leb_le.
    intros. destruct_and!. split_and!; done || lia.
  - rewrite <-list_fmap_compose. erewrite list_fmap_ext; [exact H2|]. intros. apply renew_slot_same.
Qed.

Lemma renew_shrinks j now ttl f st : wf st → shrinks st (renew j now ttl f st).1.
Proof.
  intros Hwf. unfold renew. destruct (negb _) eqn:E; [by eauto with slot_keys|].
  apply negb_false_iff in E. rewrite !andb_true_iff in E. destruct E as [[[_ ?] ?] ?].
  pose proof Hwf as (l & Hl & Hh). pose proof (slotsValue_ok _ _ Hl) as Hok. rewrite Hl.
  destruct f; cbn [fst]; [|by eauto with slot_keys..]. destruct (found j l); cbn [fst]; [|by eauto with slot_keys].
  apply (shrinks_intro _ _ l (renew_slot j (now + ttl) <$> l)); [done|by apply renew_slots_ok|by rewrite lookup_insert_eq| |].
  - intros i v. rewrite lookup_insert_ne by eauto with slot_keys. intros Hv. apply (held_for_mono l); [by apply Hh|].
    intros t Ht Htj. exists (renew_slot j (now + ttl) t). pose proof (renew_slot_same j (now + ttl) t) as [-> ->].
    split; [by apply list_elem_of_fmap_2|done].
  - rewrite <-list_fmap_compose. erewrite list_fmap_ext; [done|]. intros. apply renew_slot_same.
Qed.

Lemma remaining_ok h p : holders_ok h → holders_ok (mkHolders (ho_key h) (filter (λ q, q ≠ p) (holders h)) (legacy h)).
Proof.
  intros (? & Hf & ? & ?)%holders_ok_iff. apply holders_ok_iff. cbn. split_and!; [done| | |by apply NoDup_filter].
  - apply Forall_forall. intros q [_ Hq]%list_elem_of_filter. by apply (proj1 (Forall_forall _ _) Hf).
  - etrans; [|done]. apply length_filter.
Qed.

Lemma releasePreparation_shrinks j p f st : wf st → shrinks st (releasePreparation j p f st).1.
Proof.
  intros Hwf. unfold releasePreparation. destruct (negb _); [by eauto with slot_keys|].
  pose proof Hwf as (l & Hl & Hh). pose proof (slotsValue_ok _ _ Hl) as Hok. rewrite Hl.
  destruct f; cbn [fst]; [|by eauto with slot_keys..].
  destruct (holdersValue _) as [[h|]|] eqn:Ho; cbn [fst]; try by eauto with slot_keys.
  apply holdersValue_some in Ho as [Ho Hho]. case_bool_decide; [by eauto with slot_keys|].
  destruct (found j l) as [s|] eqn:Hf; [|by eauto with slot_keys]. apply found_some in Hf as [Hs Hj].
  destruct (negb _) eqn:Hk; [by eauto with slot_keys|]. apply negb_false_iff, String.eqb_eq in Hk.
  destruct (bool_decide _ || legacy h) eqn:Hr; cbn [fst].
  - assert (st !! SLOTS_KEY = Some (StSlots l)) as El.
    { destruct (st !! SLOTS_KEY) as [[]|] eqn:E; cbn in Hl; simplify_eq; [by case_match; simplify_eq|].
      by apply not_elem_of_nil in Hs. }
    apply orb_true_iff in Hr. rewrite bool_decide_eq_true in Hr.
    assert (wf (<[holdersKey j := StHolders (mkHolders (ho_key h) (filter (λ q, q ≠ p) (holders h)) (legacy h))]> st)).
    { apply (wf_insert_holders _ l _ _ s); try done; [by apply remaining_ok|]. intros i v _. apply Hh. }
    split; [done|]. unfold slots_of. by rewrite lookup_insert_ne by eauto with slot_keys.
  - apply (shrinks_intro _ _ l (filter (λ s, sl_jobId s ≠ j) l));
      [done|by apply slots_ok_filter| | |apply fmap_sublist, sublist_filter].
    { by rewrite lookup_delete_ne, lookup_insert_eq by eauto with slot_keys. }
    intros i v. rewrite lookup_delete_Some, lookup_insert_ne by eauto with slot_keys. intros [Hij Hv].
    apply (held_for_mono l); [by apply Hh|]. intros t Ht Htj. exists t. split; [|done].
    apply list_elem_of_filter. split; [congruence|done].
Qed.

Lemma record_shrinks j e fl f st : wf st → shrinks st (RetryEpochAuthority.record j e fl f st).1.
Proof.
  intros Hwf. unfold RetryEpochAuthority.record.
  repeat case_match; cbn [fst]; try (by eauto with slot_keys);
    (apply shrinks_elsewhere; [done|..]; intros; rewrite ?lookup_insert_ne by eauto with slot_keys; done).
Qed.

(** ** The caps *)
Definition within (B : string → Z) (F : Z) (st : Storage) : Prop :=
  (∀ key, Z.of_nat (slots_for key (slots_of st)) ≤ B key) ∧ Z.of_nat (length (slots_of st)) ≤ F.

Lemma slots_for_keys key l : slots_for key l = length (filter (λ k, k = key) (sl_key <$> l)).
Proof.
  unfold slots_for. induction l as [|s l IH]; [done|]. cbn [fmap list_fmap]. rewrite !filter_cons.
  repeat case_decide; cbn; by rewrite IH.
Qed.

Lemma filter_sublist_mono {A} (P : A → Prop) `{!∀ x, Decision (P x)} l k :
  l `sublist_of` k → filter P l `sublist_of` filter P k.
Proof.
  induction 1; rewrite ?filter_cons; repeat case_decide; by (constructor || done).
Qed.

Lemma shrinks_within B F st st' : shrinks st st' → within B F st → within B F st'.
Proof.
  intros [_ Hsub] [HB HF]. split.
  - intros key. specialize (HB key). rewrite slots_for_keys in *.
    pose proof (sublist_length _ _ (filter_sublist_mono (λ k, k = key) _ _ Hsub)). lia.
  - apply sublist_length in Hsub. rewrite !length_fmap in Hsub. lia.
Qed.

Lemma live_within B F now l :
  (∀ key, Z.of_nat (slots_for key l) ≤ B key) ∧ Z.of_nat (length l) ≤ F →
  (∀ key, Z.of_nat (slots_for key (live_slots now l)) ≤ B key) ∧ Z.of_nat (length (live_slots now l)) ≤ F.
Proof.
  intros [HB HF]. pose proof (sublist_filter (λ s, live_at now s = true) l) as Hsub. split.
  - intros key. specialize (HB key). pose proof (sublist_length _ _ (filter_sublist_mono (λ s, sl_key s = key) _ _ Hsub)).
    unfold slots_for, live_slots in *. lia.
  - apply sublist_length in Hsub. unfold live_slots. lia.
Qed.

(** The slots stored after an acquire. *)
Lemma acquired_slots key job cap fleet now ttl p st st' a l :
  slotsValue (st !! SLOTS_KEY) = Some l → acquired key job cap fleet now ttl p st st' a →
  slots_of st' = l ∨ slots_of st' = live_slots now l
  ∨ slots_of st' = live_slots now l ++ [mkSlot key job (now + ttl)]
    ∧ Z.of_nat (slots_for key (live_slots now l)) < cap ∧ Z.of_nat (length (live_slots now l)) < fleet.
Proof.
  intros Hl Hacq. pose proof (slotsValue_ok _ _ Hl) as Hok.
  pose proof (slots_ok_filter (λ s, live_at now s = true) l Hok) as Hlive.
  destruct Hacq as [|l1 ? ? Hl1|l1 ? ? ? ? Hl1|l1 ? ? Hl1]; [left; by apply slots_of_read|..];
    rewrite Hl in Hl1; simplify_eq; right; [left|left|right].
  - apply slots_of_written; [done|by rewrite lookup_insert_eq].
  - apply slots_of_written; [done|by rewrite lookup_insert_ne, lookup_insert_eq by eauto with slot_keys].
  - split_and!; [|done..]. apply slots_of_written; [by apply slots_ok_snoc|].
    by rewrite lookup_insert_ne, lookup_insert_eq by eauto with slot_keys.
Qed.

Lemma acquired_within B F key job cap fleet now ttl p st st' a :
  wf st → cap ≤ B key → fleet ≤ F → acquired key job cap fleet now ttl p st st' a → within B F st → within B F st'.
Proof.
  intros (l & Hl & _) HcB HfF Hacq Hw. unfold within in Hw. rewrite (slots_of_read _ _ Hl) in Hw. unfold within.
  destruct (acquired_slots _ _ _ _ _ _ _ _ _ _ _ Hl Hacq) as [->|[->|(-> & Hc & Hf)]]; [done|by apply live_within|].
  pose proof (live_within B F now l Hw) as [HB HF]. split.
  - intros k. specialize (HB k). unfold slots_for in *. rewrite filter_app, length_app, filter_cons, filter_nil.
    case_decide as E; cbn in *; [subst k|]; lia.
  - rewrite length_app. cbn. lia.
Qed.

(** ** The budget: five spends in any window *)
Definition in_window (u t : Z) : Prop := u - ADMISSION_BUDGET_WINDOW_MS < t ≤ u.
#[export] Instance in_window_dec u t : Decision (in_window u t).
Proof. unfold in_window. apply _. Defined.

Definition spends_bounded (hs : list Z) : Prop :=
  ∀ u, (length (filter (in_window u) hs) ≤ ADMISSION_BUDGET_MAX_SPENDS)%nat.
Definition budget_inv (st : Storage) (hs : list Z) : Prop :=
  spends_bounded hs ∧
  match st !! ADMISSION_BUDGET_KEY with
  | None => hs = []
  | Some (StBudget b) =>
    Forall (λ t, t ≤ last_observed_ms b) hs
    ∧ filter (λ t, last_observed_ms b - ADMISSION_BUDGET_WINDOW_MS < t) hs `sublist_of` spends_ms b
  | Some _ => False
  end.

Lemma filter_narrow {A} (P Q : A → Prop) `{!∀ x, Decision (P x), !∀ x, Decision (Q x)} l k :
  (∀ x, P x → Q x) → filter Q l `sublist_of` k → filter P l `sublist_of` filter P k.
Proof.
  intros HPQ Hsub. replace (filter P l) with (filter P (filter Q l)); [by apply filter_sublist_mono|].
  rewrite list_filter_filter. apply list_filter_iff. naive_solver.
Qed.

(** One more spend, when fewer than five are in the window that ends now. *)
Lemma spends_bounded_snoc now hs active :
  spends_bounded hs → filter (λ t, now - ADMISSION_BUDGET_WINDOW_MS < t) hs `sublist_of` active →
  (length active < ADMISSION_BUDGET_MAX_SPENDS)%nat → spends_bounded (hs ++ [now]).
Proof.
  intros Hb Hsub Hlen u. rewrite filter_app, length_app, filter_cons, filter_nil. case_decide as E; cbn.
  - assert (filter (in_window u) hs `sublist_of` filter (in_window u) active) as Hs%sublist_length.
    { eapply filter_narrow; [|exact Hsub]. unfold in_window in *. cbn. lia. }
    pose proof (length_filter (in_window u) active). lia.
  - specialize (Hb u). lia.
Qed.

(** What is known of the spends that are read back. *)
Lemma budget_read st hs now prior :
  budget_inv st hs →
  match st !! ADMISSION_BUDGET_KEY with
  | None => Some []
  | Some (StBudget b) => if budget_ok now b then Some (spends_ms b) else None
  | Some _ => None
  end = Some prior →
  Forall (λ t, t ≤ now) hs
  ∧ filter (λ t, now - ADMISSION_BUDGET_WINDOW_MS < t) hs
      `sublist_of` filter (λ t, now - ADMISSION_BUDGET_WINDOW_MS < t) prior.
Proof.
  intros [_ Hinv]. destruct (st !! _) as [[| | |b| |]|]; intros Hr; simplify_eq; [|by repeat constructor].
  destruct (budget_ok now b) eqn:Hok; simplify_eq. destruct Hinv as [Hle Hsub].
  unfold budget_ok in Hok. rewrite !andb_true_iff, !Z.leb_le in Hok. destruct Hok as [[_ Hlast] _]. split.
  - eapply Forall_impl; [exact Hle|]. cbn. lia.
  - eapply filter_narrow; [|exact Hsub]. cbn. lia.
Qed.

Lemma budget_written now active hs st :
  spends_bounded hs → Forall (λ t, t ≤ now) hs →
  filter (λ t, now - ADMISSION_BUDGET_WINDOW_MS < t) hs `sublist_of` active →
  budget_inv (<[ADMISSION_BUDGET_KEY := StBudget (mkBudget active now)]> st) hs.
Proof. intros Hb Hle Hsub. split; [done|]. by rewrite lookup_insert_eq. Qed.

Lemma spend_inv now f st hs :
  budget_inv st hs →
  let '(st', v) := spendAdmissionBudget now f st in
  budget_inv st' hs ∧ (v = BudgetAdmitted → budget_inv st' (hs ++ [now])).
Proof.
  intros Hinv. unfold spendAdmissionBudget. destruct (negb _); [done|].
  destruct (match st !! _ with None => _ | Some _ => _ end) as [prior|] eqn:Hr; [|by destruct f].
  destruct (budget_read _ _ _ _ Hinv Hr) as [Hle Hsub]. destruct Hinv as [Hb Hst].
  case_bool_decide as Hfull; destruct f; try done. split.
  - apply budget_written; [done..|]. etrans; [exact Hsub|]. by apply sublist_inserts_r.
  - intros _. apply budget_written.
    + eapply spends_bounded_snoc; [done|exact Hsub|lia].
    + apply Forall_app. split; [done|]. by constructor.
    + rewrite filter_app, filter_cons, filter_nil. apply sublist_app; [exact Hsub|]. by case_decide; repeat constructor.
Qed.

(** ** All requests *)
Definition asks (rq : Request) : option (string * Z) :=
  match rq with RqAcquire _ _ t m repo _ _ _ => Some (slot_key t m repo) | _ => None end.
(** The largest cap that a slot was asked for under the key. *)
Fixpoint sold (key : string) (rqs : list Request) : Z :=
  match rqs with
  | [] => 0
  | rq :: rqs =>
    match asks rq with
    | Some (k, cap) => if String.eqb k key then Z.max cap (sold key rqs) else sold key rqs
    | None => sold key rqs
    end
  end.

Definition sound (B : string → Z) (w : Objects) (hs : list Z) : Prop :=
  wf (slots_do w) ∧ within B FLEET_MAX_CONCURRENCY (slots_do w) ∧ budget_inv (containment_do w) hs.

Lemma shrinks_sound B w hs st : shrinks (slots_do w) st → sound B w hs → sound B (mkObjects st (containment_do w)) hs.
Proof.
  intros Hsh (_ & Hwi & Hb). split_and!; [by destruct Hsh|by apply (shrinks_within _ _ (slots_do w))|done].
Qed.

Lemma acquireConcurrencySlot_sound B b j t m repo p c1 c2 w hs :
  (slot_key t m repo).2 ≤ B (slot_key t m repo).1 → sound B w hs →
  let '(w', _, spent) := acquireConcurrencySlot b j t m repo p c1 c2 w in
  sound B w' (hs ++ from_option (λ t, [t]) [] spent).
Proof.
  intros HB (Hwf & Hwi & Hbu). unfold acquireConcurrencySlot. destruct (slot_key t m repo) as [key cap].
  pose proof (acquire_cases key j cap FLEET_MAX_CONCURRENCY (at_ms c1) (SLOT_TTL_S * 1000) p (fault c1) (slots_do w)) as Hacq.
  destruct (acquire _ _ _ _ _ _ _ _ _) as [st a]. cbn [slots_do containment_do fst snd] in *.
  pose proof (acquired_wf _ _ _ _ _ _ _ _ _ _ Hacq Hwf) as Hwf'.
  pose proof (acquired_within B _ _ _ _ _ _ _ _ _ _ _ Hwf HB (Z.le_refl _) Hacq Hwi) as Hwi'.
  pose proof (spend_inv (at_ms c2) (fault c2) (containment_do w) hs Hbu) as Hsp.
  destruct (spendAdmissionBudget _ _ _) as [ct v]. destruct Hsp as [Hsp Hsp'].
  destruct (answer_lost c1), a as [|[]], b, (answer_lost c2), v; cbn; rewrite ?app_nil_r; split_and!; auto.
Qed.

Lemma serve_sound B rq w hs :
  (∀ key cap, asks rq = Some (key, cap) → cap ≤ B key) → sound B w hs →
  sound B (serve rq w).1 (hs ++ from_option (λ t, [t]) [] (serve rq w).2).
Proof.
  intros HB Hs. pose proof Hs as (Hwf & _). destruct rq as [b j t m repo p c1 c2|j now f|j p f|now f|j now ttl f|j e fl f];
    cbn [serve fst snd from_option]; [|rewrite app_nil_r; apply shrinks_sound; [|done]..].
  - pose proof (acquireConcurrencySlot_sound B b j t m repo p c1 c2 w hs) as H.
    destruct (acquireConcurrencySlot _ _ _ _ _ _ _ _ _) as [[w' ok] spent]. apply H; [|done].
    apply HB. cbn. by destruct (slot_key t m repo).
  - by apply release_shrinks.
  - by apply releasePreparation_shrinks.
  - by apply prune_shrinks.
  - by apply renew_shrinks.
  - by apply record_shrinks.
Qed.

Lemma serve_all_sound B rqs w hs :
  (∀ rq key cap, rq ∈ rqs → asks rq = Some (key, cap) → cap ≤ B key) → sound B w hs →
  sound B (serve_all rqs w).1 (hs ++ (serve_all rqs w).2).
Proof.
  revert w hs. induction rqs as [|rq rqs IH]; intros w hs HB Hs; cbn; [by rewrite app_nil_r|].
  pose proof (serve_sound B rq w hs (λ key cap, HB rq key cap (list_elem_of_here _ _)) Hs) as H1.
  destruct (serve rq w) as [w1 spent]. cbn in H1.
  specialize (IH w1 _ (λ rq' key cap H, HB rq' key cap (list_elem_of_further _ _ _ H)) H1).
  destruct (serve_all rqs w1) as [w2 ts]. cbn in *. by rewrite app_assoc.
Qed.

Lemma sold_covers rqs rq key cap : rq ∈ rqs → asks rq = Some (key, cap) → cap ≤ sold key rqs.
Proof.
  intros Hin E. induction rqs as [|rq' rqs IH]; [by apply not_elem_of_nil in Hin|].
  cbn. apply elem_of_cons in Hin as [<-|Hin]; [rewrite E, String.eqb_refl; lia|]. specialize (IH Hin). destruct (asks rq') as [[k c]|]; [|done]. case_match; lia.
Qed.

Lemma sold_nonneg key rqs : 0 ≤ sold key rqs.
Proof. induction rqs as [|rq rqs IH]; cbn; [done|]. destruct (asks rq) as [[]|]; [case_match|]; lia. Qed.

Lemma fresh_sound B : (∀ key, 0 ≤ B key) → sound B fresh_objects [].
Proof.
  intros HB. split_and!.
  - exists []. split; [done|]. intros j v. cbn. by rewrite lookup_empty.
  - by split; [intros key; apply HB|].
  - split; [|done]. intros u. cbn. unfold ADMISSION_BUDGET_MAX_SPENDS. lia.
Qed.

(** C14: The Worker's admissions are bounded.  However the requests come, whatever their
    clocks say and whichever calls fail or lose their answer, the stored slots read back,
    no job has two, a key never has more than the largest cap asked for under it, all
    together are at most [FLEET_MAX_CONCURRENCY], and admissions without a slot are at
    most five in any minute. *)
Theorem worker_admissions_are_bounded (rqs : list Request) :
  let '(w, spent) := serve_all rqs fresh_objects in
  ∃ l, slotsValue (slots_do w !! SLOTS_KEY) = Some l
       ∧ NoDup (sl_jobId <$> l)
       ∧ (∀ key, Z.of_nat (length (filter (λ s, sl_key s = key) l)) ≤ sold key rqs)
       ∧ Z.of_nat (length l) ≤ FLEET_MAX_CONCURRENCY
       ∧ ∀ u, (length (filter (λ t, (u - ADMISSION_BUDGET_WINDOW_MS < t ≤ u)%Z) spent) ≤ ADMISSION_BUDGET_MAX_SPENDS)%nat.
Proof.
  pose proof (serve_all_sound (λ key, sold key rqs) rqs fresh_objects [] (λ rq key cap, sold_covers rqs rq key cap)
                (fresh_sound _ (λ key, sold_nonneg key rqs))) as ((l & Hl & _) & [HB HF] & [Hb _]).
  destruct (serve_all rqs fresh_objects) as [w spent]. cbn [fst snd app] in *. exists l.
  rewrite (slots_of_read _ _ Hl) in HB, HF. split_and!; [done|by apply slotsValue_ok in Hl as []|done|done|]. intros u.
  rewrite <-(Hb u). apply Nat.eq_le_incl, f_equal. by apply list_filter_iff.
Qed.

(** ** A slot stays while a preparation holds it *)
Definition kept (j key p : string) (e : Z) (st : Storage) : Prop :=
  ∃ s h, s ∈ slots_of st ∧ sl_jobId s = j ∧ sl_key s = key ∧ e ≤ expiresMs s
       ∧ st !! holdersKey j = Some (StHolders h) ∧ p ∈ holders h.

(** Requests that do not give the job or the preparation up, and come before [e]. *)
Definition spares (j p : string) (e : Z) (rq : Request) : Prop :=
  match rq with
  | RqAcquire _ _ _ _ _ _ c _ => at_ms c < e
  | RqRelease i now _ => i ≠ j ∧ now < e
  | RqReleasePreparation i q _ => i ≠ j ∨ q ≠ p
  | RqPrune now _ => now < e
  | RqRenew _ _ _ _ | RqRecordRetry _ _ _ _ => True
  end.

Lemma live_intro now e l s : s ∈ l → now < e → e ≤ expiresMs s → s ∈ live_slots now l.
Proof. intros. apply list_elem_of_filter. split; [|done]. unfold live_at. apply Z.ltb_lt. lia. Qed.

Lemma drop_spares now l st s :
  slots_ok l → s ∈ live_slots now l →
  drop_holders (expired_jobs now l) st !! holdersKey (sl_jobId s) = st !! holdersKey (sl_jobId s).
Proof.
  intros Hok [Hlive Hs]%list_elem_of_filter. rewrite lookup_drop_holders, bool_decide_eq_false_2; [done|].
  intros (j & E%(inj holdersKey) & (t & Et & [Hdead Ht]%list_elem_of_filter)%list_elem_of_fmap)%list_elem_of_fmap.
  assert (s = t) as -> by (apply (slots_ok_one l); congruence). congruence.
Qed.

Lemma kept_elsewhere j key p e st st' :
  st' !! SLOTS_KEY = st !! SLOTS_KEY → st' !! holdersKey j = st !! holdersKey j → kept j key p e st → kept j key p e st'.
Proof. intros Es Eh. unfold kept, slots_of. by rewrite Es, Eh. Qed.

Lemma acquired_kept key job cap fleet now ttl q st st' a j k p e :
  wf st → now < e → acquired key job cap fleet now ttl q st st' a → kept j k p e st → kept j k p e st'.
Proof.
  intros (l0 & Hl0 & Hh) Hnow Hacq (s & h & Hs & <- & <- & He & Hhs & Hp).
  rewrite (slots_of_read _ _ Hl0) in Hs. pose proof (slotsValue_ok _ _ Hl0) as Hok.
  pose proof (live_intro _ _ _ _ Hs Hnow He) as Hlive.
  pose proof (acquired_slots _ _ _ _ _ _ _ _ _ _ _ Hl0 Hacq) as Hsl.
  assert (s ∈ slots_of st') as Hs' by (destruct Hsl as [->|[->|[-> _]]]; set_solver).
  assert (∃ h', st' !! holdersKey (sl_jobId s) = Some (StHolders h') ∧ p ∈ holders h') as (h' & ? & ?);
    [|by exists s, h'].
  destruct Hacq as [a Ha|l st0 r Hl Hst0|l t old h1 r Hl Ht Hj Hk Ho Hko Hn Hv|l h1 r Hl Hf Hslot Hc Hfl Hn Hv];
    [by exists h|..]; rewrite Hl0 in Hl; simplify_eq.
  - exists h. rewrite lookup_insert_ne, drop_spares, Hst0 by eauto with slot_keys. done.
  - destruct (decide (sl_jobId t = sl_jobId s)) as [E|E].
    + rewrite E, Hhs in Ho. rewrite E, lookup_insert_eq. exists h1. split; [done|].
      destruct (Hh _ _ Hhs) as (h2 & ? & ? & Hho & _). simplify_eq. rewrite Hho in Ho. simplify_eq.
      assert (t ∈ l) as Htl by by apply list_elem_of_filter in Ht as [].
      eapply (next_holders_ok (sl_key t) true); try done;
        [apply slot_ok_key; by apply (proj1 (Forall_forall _ _) (proj1 Hok))|by intros ? [= <-]].
    + exists h. rewrite !lookup_insert_ne, drop_spares
        by (first [by eauto with slot_keys | by intros ?%(inj holdersKey)]). done.
  - exists h. rewrite !lookup_insert_ne, drop_spares
      by (first [by eauto with slot_keys | by intros E%(inj holdersKey); apply (Hf s)]). done.
Qed.

(** The holders stay and the slot is still among those written. *)
Lemma kept_written j key p e (st st' : Storage) l s h :
  slots_ok l → st' !! SLOTS_KEY = Some (StSlots l) → s ∈ l → sl_jobId s = j → sl_key s = key → e ≤ expiresMs s →
  st' !! holdersKey j = st !! holdersKey j → st !! holdersKey j = Some (StHolders h) → p ∈ holders h → kept j key p e st'.
Proof. intros Hok Hl ? ? ? ? E ? ?. exists s, h. rewrite (slots_of_written _ _ Hok Hl), E. done. Qed.

Lemma release_kept i now f st j key p e : wf st → i ≠ j → now < e → kept j key p e st → kept j key p e (release i now f st).1.
Proof.
  intros (l & Hl & _) Hij Hnow Hk. unfold release. destruct (negb _); [done|]. rewrite Hl.
  destruct f; cbn [fst]; try done. pose proof (slotsValue_ok _ _ Hl) as Hok.
  destruct Hk as (s & h & Hs & Hj & ? & He & Hh & ?). rewrite (slots_of_read _ _ Hl) in Hs.
  pose proof (live_intro _ _ _ _ Hs Hnow He) as Hlive.
  eapply (kept_written _ _ _ _ st _ (filter (λ s, live_at now s = true ∧ sl_jobId s ≠ i) l) s h); try done.
  - by apply slots_ok_filter.
  - by rewrite lookup_delete_ne, lookup_drop_slots, lookup_insert_eq by eauto with slot_keys.
  - apply list_elem_of_filter in Hlive as [? ?]. apply list_elem_of_filter. split_and!; [done|congruence|done].
  - rewrite lookup_delete_ne by (by intros ?%(inj holdersKey)). subst j.
    by rewrite drop_spares, lookup_insert_ne by eauto with slot_keys.
Qed.

Lemma prune_kept now f st j key p e : wf st → now < e → kept j key p e st → kept j key p e (prune now f st).1.
Proof.
  intros (l & Hl & _) Hnow Hk. unfold prune. destruct (negb _); [done|]. rewrite Hl.
  destruct f; cbn [fst]; try done. pose proof (slotsValue_ok _ _ Hl) as Hok.
  destruct Hk as (s & h & Hs & Hj & ? & He & Hh & ?). rewrite (slots_of_read _ _ Hl) in Hs.
  pose proof (live_intro _ _ _ _ Hs Hnow He) as Hlive.
  eapply (kept_written _ _ _ _ st _ (live_slots now l) s h); try done.
  - by apply slots_ok_filter.
  - by rewrite lookup_drop_slots, lookup_insert_eq.
  - subst j. by rewrite drop_spares, lookup_insert_ne by eauto with slot_keys.
Qed.

Lemma renew_kept i now ttl f st j key p e : wf st → kept j key p e st → kept j key p e (renew i now ttl f st).1.
Proof.
  intros (l & Hl & _) Hk. unfold renew. destruct (negb _) eqn:E; [done|].
  apply negb_false_iff in E. rewrite !andb_true_iff in E. destruct E as [[[_ ?] ?] ?]. rewrite Hl.
  destruct f; cbn [fst]; try done. destruct (found i l) as [t|]; [|done]. cbn [fst]. pose proof (slotsValue_ok _ _ Hl) as Hok.
  destruct Hk as (s & h & Hs & Hj & ? & He & Hh & ?). rewrite (slots_of_read _ _ Hl) in Hs.
  pose proof (renew_slot_same i (now + ttl) s) as [Ej Ek].
  eapply (kept_written _ _ _ _ st _ (renew_slot i (now + ttl) <$> l) (renew_slot i (now + ttl) s) h); try done.
  - by apply renew_slots_ok.
  - by rewrite lookup_insert_eq.
  - by apply list_elem_of_fmap_2.
  - congruence.
  - congruence.
  - unfold renew_slot. case_match; cbn; lia.
  - by rewrite lookup_insert_ne by eauto with slot_keys.
Qed.

Lemma releasePreparation_kept i q f st j key p e :
  wf st → i ≠ j ∨ q ≠ p → kept j key p e st → kept j key p e (releasePreparation i q f st).1.
Proof.
  intros (l & Hl & _) Hne Hk. unfold releasePreparation. destruct (negb _); [done|]. destruct f; cbn [fst]; try done.
  destruct (holdersValue _) as [[h0|]|] eqn:Ho; cbn [fst]; try done. apply holdersValue_some in Ho as [Ho _].
  case_bool_decide; [done|]. rewrite Hl. destruct (found i l) as [t|]; [|done]. destruct (negb _); [done|].
  pose proof (slotsValue_ok _ _ Hl) as Hok. destruct (decide (i = j)) as [->|Hij].
  - destruct Hne as [|Hqp]; [done|]. destruct Hk as (s & h & Hs & ? & ? & ? & Hh & Hp). rewrite Ho in Hh. simplify_eq.
    assert (p ∈ filter (λ q', q' ≠ q) (holders h)) as Hp' by by apply list_elem_of_filter.
    rewrite bool_decide_eq_true_2 by (intros E; rewrite E in Hp'; by apply not_elem_of_nil in Hp'). cbn [orb fst].
    eexists s, _. unfold slots_of in *. rewrite lookup_insert_ne, lookup_insert_eq by eauto with slot_keys. done.
  - assert (holdersKey i ≠ holdersKey j) by (by intros ?%(inj holdersKey)). destruct (bool_decide _ || _); cbn [fst].
    + revert Hk. apply kept_elsewhere; by rewrite lookup_insert_ne by eauto with slot_keys.
    + destruct Hk as (s & h & Hs & ? & ? & ? & Hh & ?). rewrite (slots_of_read _ _ Hl) in Hs.
      eapply (kept_written _ _ _ _ st _ (filter (λ s, sl_jobId s ≠ i) l) s h); try done.
      * by apply slots_ok_filter.
      * by rewrite lookup_delete_ne, lookup_insert_eq by eauto with slot_keys.
      * apply list_elem_of_filter. split; [congruence|done].
      * by rewrite lookup_delete_ne, lookup_insert_ne by eauto with slot_keys.
Qed.

Lemma record_kept i ep fl f st j key p e : kept j key p e st → kept j key p e (RetryEpochAuthority.record i ep fl f st).1.
Proof.
  intros Hk. unfold RetryEpochAuthority.record. repeat case_match; cbn [fst]; try done;
    (revert Hk; apply kept_elsewhere; rewrite ?lookup_insert_ne by eauto with slot_keys; done).
Qed.

Lemma serve_kept rq w j key p e :
  wf (slots_do w) → spares j p e rq → kept j key p e (slots_do w) →
  wf (slots_do (serve rq w).1) ∧ kept j key p e (slots_do (serve rq w).1).
Proof.
  intros Hwf Hsp Hk. destruct rq as [b i t m repo q c1 c2|i now f|i q f|now f|i now ttl f|i ep fl f]; cbn in Hsp |- *.
  - unfold acquireConcurrencySlot. destruct (slot_key t m repo) as [k cap].
    pose proof (acquire_cases k i cap FLEET_MAX_CONCURRENCY (at_ms c1) (SLOT_TTL_S * 1000) q (fault c1) (slots_do w)) as Hacq.
    destruct (acquire _ _ _ _ _ _ _ _ _) as [st a].
    pose proof (acquired_wf _ _ _ _ _ _ _ _ _ _ Hacq Hwf).
    pose proof (acquired_kept _ _ _ _ _ _ _ _ _ _ _ _ _ _ Hwf Hsp Hacq Hk).
    repeat case_match; simplify_eq; done.
  - destruct Hsp. split; [by apply release_shrinks|by apply release_kept].
  - split; [by apply releasePreparation_shrinks|by apply releasePreparation_kept].
  - split; [by apply prune_shrinks|by apply prune_kept].
  - split; [by apply renew_shrinks|by apply renew_kept].
  - split; [by apply record_shrinks|by apply record_kept].
Qed.

Lemma serve_all_kept rqs w j key p e :
  wf (slots_do w) → Forall (spares j p e) rqs → kept j key p e (slots_do w) → kept j key p e (slots_do (serve_all rqs w).1).
Proof.
  intros Hwf Hsp. revert w Hwf. induction Hsp as [|rq rqs Hrq _ IH]; intros w Hwf Hk; [done|]. cbn.
  destruct (serve_kept rq w j key p e Hwf Hrq Hk) as [Hwf1 Hk1]. destruct (serve rq w) as [w1 spent].
  specialize (IH w1 Hwf1 Hk1). by destruct (serve_all rqs w1).
Qed.

(** The storage an admission writes keeps the slot it admits on. *)
Lemma kept_admitted st l s h p :
  slots_ok l → s ∈ l → p ∈ holders h →
  let st' := <[holdersKey (sl_jobId s) := StHolders h]> (<[SLOTS_KEY := StSlots l]> st) in
  s ∈ slots_of st' ∧ kept (sl_jobId s) (sl_key s) p (expiresMs s) st'.
Proof.
  intros Hok Hs Hp st'. assert (slots_of st' = l) as E.
  { apply slots_of_written; [done|]. by unfold st'; rewrite lookup_insert_ne, lookup_insert_eq by eauto with slot_keys. }
  unfold kept. rewrite E. split; [done|]. exists s, h. unfold st'. by rewrite lookup_insert_eq.
Qed.

Lemma acquired_keeps key job cap fleet now ttl p st st' r :
  wf st → 0 < ttl → acquired key job cap fleet now ttl (Some p) st st' (inr (true, r)) →
  ∃ s, s ∈ slots_of st' ∧ sl_jobId s = job ∧ sl_key s = key ∧ now < expiresMs s ∧ kept job key p (expiresMs s) st'.
Proof.
  intros (l0 & Hl0 & Hh) Httl Hacq. pose proof (slotsValue_ok _ _ Hl0) as Hok0.
  inversion Hacq as [a Ha| |l s old h r' Hl Hs Hj Hk Ho Hko Hn Hp|l h r' Hl Hf Hsl Hc Hfl Hn Hp]; subst; [by destruct (Ha r)|..];
    rewrite Hl0 in Hl; simplify_eq; pose proof (slots_ok_filter (λ s, live_at now s = true) l Hok0) as Hok.
  - pose proof Hs as [Hlive%Z.ltb_lt Hsl]%list_elem_of_filter.
    destruct (next_holders_ok (sl_key s) true old (Some p) h) as (_ & _ & _ & Hin & _); try done.
    { apply slot_ok_key. by apply (proj1 (Forall_forall _ _) (proj1 Hok0)). }
    { intros o ->. by apply holdersValue_some in Ho as []. }
    exists s. destruct (kept_admitted (drop_holders (expired_jobs now l) st) _ s h p Hok Hs (Hin p eq_refl)). done.
  - destruct (next_holders_ok key false None (Some p) h) as (_ & _ & _ & Hin & _); try done; [by apply slot_ok_key in Hsl|].
    pose proof (slots_ok_snoc _ _ Hok Hsl Hf) as Hok'. set (s := mkSlot key job (now + ttl)) in *. exists s.
    destruct (kept_admitted (drop_holders (expired_jobs now l) st) _ s h p Hok') as [? ?]; [set_solver|by apply Hin|].
    split_and!; try done. cbn. lia.
Qed.

(** C11: A slot that was given to a preparation is there while it is needed.  When the Worker
    admits a job for a preparation on a slot, the job has a slot under its key that has
    not expired; and after any further requests that come before this expiry and release
    neither the job nor this preparation, the job still has a slot under the key, which
    expires no earlier. *)
Theorem held_slot_is_kept (before after : list Request) b j t m repo p c1 c2 w :
  acquireConcurrencySlot b j t m repo (Some p) c1 c2 (serve_all before fresh_objects).1 = (w, true, None) →
  ∃ s, s ∈ slots_of (slots_do w) ∧ sl_jobId s = j ∧ sl_key s = (slot_key t m repo).1 ∧ at_ms c1 < expiresMs s
       ∧ (Forall (spares j p (expiresMs s)) after →
          ∃ s', s' ∈ slots_of (slots_do (serve_all after w).1) ∧ sl_jobId s' = j ∧ sl_key s' = sl_key s
                ∧ expiresMs s ≤ expiresMs s').
Proof.
  pose proof (serve_all_sound (λ key, sold key before) before fresh_objects [] (λ rq key cap, sold_covers before rq key cap)
                (fresh_sound _ (λ key, sold_nonneg key before))) as (Hwf & _).
  set (w0 := (serve_all before fresh_objects).1) in *. unfold acquireConcurrencySlot.
  destruct (slot_key t m repo) as [key cap].
  pose proof (acquire_cases key j cap FLEET_MAX_CONCURRENCY (at_ms c1) (SLOT_TTL_S * 1000) (Some p) (fault c1) (slots_do w0)) as Hacq.
  destruct (acquire _ _ _ _ _ _ _ _ _) as [st a]. pose proof (acquired_wf _ _ _ _ _ _ _ _ _ _ Hacq Hwf) as Hwf'.
  intros H. assert (w = mkObjects st (containment_do w0) ∧ ∃ r, a = inr (true, r)) as (-> & r & ->)
    by (repeat case_match; simplify_eq; eauto).
  assert (0 < SLOT_TTL_S * 1000) as Httl by done.
  destruct (acquired_keeps _ _ _ _ _ _ _ _ _ _ Hwf Httl Hacq) as (s & Hs & Hj & Hk & Hnow & Hkept).
  exists s. split_and!; try done. intros Hsp.
  destruct (serve_all_kept after (mkObjects st (containment_do w0)) j key p (expiresMs s) Hwf' Hsp Hkept)
    as (s' & h & ? & ? & ? & ? & _). exists s'. split_and!; congruence.
Qed.

Lemma held_slot_is_kept_witness :
  ∃ w, acquireConcurrencySlot true "7" (Some "acme") (Some 1) "acme/app" (Some "p1")
         (mkCall 1000 NoFault false) (mkCall 1000 NoFault false) (serve_all [] fresh_objects).1 = (w, true, None)
  ∧ ∃ s, s ∈ slots_of (slots_do w) ∧ sl_jobId s = "7" ∧ sl_key s = "acme" ∧ 1000 < expiresMs s
       ∧ (Forall (spares "7" "p1" (expiresMs s)) [RqPrune 5000 NoFault; RqReleasePreparation "7" "p2" NoFault] →
          ∃ s', s' ∈ slots_of (slots_do (serve_all [RqPrune 5000 NoFault; RqReleasePreparation "7" "p2" NoFault] w).1)
                ∧ sl_jobId s' = "7" ∧ sl_key s' = sl_key s ∧ expiresMs s ≤ expiresMs s').
Proof.
  eexists. split; [vm_compute; reflexivity|].
  apply (held_slot_is_kept [] [RqPrune 5000 NoFault; RqReleasePreparation "7" "p2" NoFault] true "7" (Some "acme") (Some 1)
           "acme/app" "p1" (mkCall 1000 NoFault false) (mkCall 1000 NoFault false)).
  vm_compute. reflexivity.
Defined.

(** ** Retries *)
Definition retry_counted (j e : string) (n : Z) (st : Storage) : Prop :=
  st !! RetryEpochAuthority.epochKey j e = Some (StEpoch j e) ∧
  ∃ c, st !! RetryEpochAuthority.countKey j = Some (StCount c) ∧ n ≤ c.

(** Keys the slot authority does not write. *)
Definition foreign (k : string) : Prop := k ≠ SLOTS_KEY ∧ (∀ j, k ≠ holdersKey j) ∧ ∀ j, k ≠ refusalKey j.
Lemma count_foreign j : foreign (RetryEpochAuthority.countKey j).
Proof. done. Qed.
Lemma epoch_foreign j e : foreign (RetryEpochAuthority.epochKey j e).
Proof. done. Qed.
#[export] Hint Resolve count_foreign epoch_foreign : slot_keys.

Lemma lookup_drop_foreign k jobs st : foreign k → drop_holders jobs st !! k = st !! k.
Proof.
  intros (_ & Hk & _). rewrite lookup_drop_holders, bool_decide_eq_false_2; [done|].
  intros (j & E & _)%list_elem_of_fmap. by apply (Hk j).
Qed.

Lemma acquired_foreign key job cap fleet now ttl p st st' a k :
  foreign k → acquired key job cap fleet now ttl p st st' a → st' !! k = st !! k.
Proof.
  intros Hk. pose proof Hk as (Hs & Hh & Hr). destruct 1 as [|l st0 r _ Hst0| |]; [done|..];
    rewrite ?lookup_insert_ne by done; rewrite lookup_drop_foreign by done; [by apply Hst0|done..].
Qed.

Lemma serve_foreign rq w k :
  foreign k → (∀ j e fl f, rq ≠ RqRecordRetry j e fl f) → slots_do (serve rq w).1 !! k = slots_do w !! k.
Proof.
  intros Hk Hrq. pose proof Hk as (Hs & Hh & _).
  destruct rq as [b i t m repo q c1 c2|i now f|i q f|now f|i now ttl f|i ep fl f]; cbn.
  - unfold acquireConcurrencySlot. destruct (slot_key t m repo) as [key cap].
    pose proof (acquire_cases key i cap FLEET_MAX_CONCURRENCY (at_ms c1) (SLOT_TTL_S * 1000) q (fault c1) (slots_do w)) as Hacq.
    destruct (acquire _ _ _ _ _ _ _ _ _) as [st a]. pose proof (acquired_foreign _ _ _ _ _ _ _ _ _ _ _ Hk Hacq).
    repeat case_match; simplify_eq; done.
  - unfold release. repeat case_match; cbn [fst]; try done.
    by rewrite lookup_delete_ne, lookup_drop_foreign, lookup_insert_ne.
  - unfold releasePreparation. repeat case_match; cbn [fst]; try done; by rewrite ?lookup_delete_ne, lookup_insert_ne.
  - unfold prune. repeat case_match; cbn [fst]; try done. by rewrite lookup_drop_foreign, lookup_insert_ne.
  - unfold renew. repeat case_match; cbn [fst]; try done; by rewrite lookup_insert_ne.
  - by destruct (Hrq i ep fl f).
Qed.

Lemma validateCount_some v c : RetryEpochAuthority.validateCount v = Some c → v = StCount c.
Proof. destruct v; cbn; [done..| |done]. by case_match; intros [= ->]. Qed.

(** What a record that answers does to any job and epoch. *)
Lemma record_counted i ep fl f st j e n :
  retry_counted j e n st → retry_counted j e n (RetryEpochAuthority.record i ep fl f st).1.
Proof.
  intros Hrc. pose proof Hrc as (He & c & Hc & Hn). unfold RetryEpochAuthority.record. destruct (negb _); [done|]. destruct f; try done.
  destruct (match _ !! RetryEpochAuthority.countKey i with Some _ => _ | None => _ end) as [sc|] eqn:Hsc; [|done].
  assert (i = j → sc = c) as Hij.
  { intros ->. rewrite Hc in Hsc. by apply validateCount_some in Hsc as [= ->]. }
  assert (∀ d st', sc ≤ d → st' !! RetryEpochAuthority.epochKey j e = Some (StEpoch j e) →
    st' !! RetryEpochAuthority.countKey j = (<[RetryEpochAuthority.countKey i := StCount d]> st) !! RetryEpochAuthority.countKey j →
    retry_counted j e n st') as Hput.
  { intros d st' Hd He' Hc'. split; [done|]. rewrite Hc'. destruct (decide (i = j)) as [E|E].
    - exists d. rewrite E, lookup_insert_eq. rewrite (Hij E) in Hd. split; [done|lia].
    - exists c. by rewrite lookup_insert_ne by (by intros ?%(inj RetryEpochAuthority.countKey)). }
  clear Hsc. destruct (st !! RetryEpochAuthority.epochKey i ep) eqn:Hep.
  - destruct (negb _); [done|]. case_bool_decide; [done|]. case_match; [|done]. cbn [fst].
    apply (Hput (Z.max sc fl)); [lia|by rewrite lookup_insert_ne by eauto with slot_keys|done].
  - assert (RetryEpochAuthority.epochKey i ep ≠ RetryEpochAuthority.epochKey j e) by congruence. case_match; [done|]. cbn [fst].
    apply (Hput (Z.max sc fl + 1)); [lia| |by rewrite lookup_insert_ne by eauto with slot_keys].
    by rewrite !lookup_insert_ne by eauto with slot_keys.
Qed.

Lemma serve_all_counted rqs w j e n :
  retry_counted j e n (slots_do w) → retry_counted j e n (slots_do (serve_all rqs w).1).
Proof.
  revert w. induction rqs as [|rq rqs IH]; intros w Hc; [done|]. cbn.
  assert (retry_counted j e n (slots_do (serve rq w).1)) as H1.
  { destruct rq as [| | | | |i ep fl f] eqn:E; [..|by apply record_counted];
      (unfold retry_counted; rewrite !serve_foreign by (done || eauto with slot_keys); done). }
  destruct (serve rq w) as [w1 spent]. specialize (IH w1 H1). by destruct (serve_all rqs w1).
Qed.

(** A retry that is answered is on record, with the count of the answer. *)
Lemma record_answered j e fl f st st' n r :
  RetryEpochAuthority.record j e fl f st = (st', inr (n, r)) → retry_counted j e n st'.
Proof.
  unfold RetryEpochAuthority.record. destruct (negb _); [done|]. destruct f; try done.
  destruct (st !! RetryEpochAuthority.countKey j) as [v|] eqn:Hc.
  1: destruct (RetryEpochAuthority.validateCount v) as [sc|] eqn:Hv; [apply validateCount_some in Hv as ->|done].
  all: destruct (st !! RetryEpochAuthority.epochKey j e) as [u|] eqn:He.
  all: try (destruct (RetryEpochAuthority.validateRecord j e u) eqn:Hr; [|done]; cbn [negb];
    case_bool_decide; [done|]).
  all: repeat case_match; intros; simplify_eq.
  all: try (assert (u = StEpoch j e) as -> by
    (destruct u; cbn in Hr; try done; rewrite !andb_true_iff, !String.eqb_eq in Hr; destruct_and!; congruence)).
  all: unfold retry_counted; rewrite ?lookup_insert_eq, ?He, ?Hc;
    repeat first [rewrite lookup_insert_ne by eauto with slot_keys | rewrite lookup_insert_eq].
  all: split; [done|eexists; split; [done|lia]].
Qed.

(** A retry is counted once.  When the authority has answered for an epoch of a job,
    any later answer for this epoch, whatever was served in between, says that it was
    recorded before, and gives a count that has not gone down. *)
Theorem retry_is_counted_once (after : list Request) j e fl f fl' f' w st n r st' n' r' :
  RetryEpochAuthority.record j e fl f (slots_do w) = (st, inr (n, r)) →
  RetryEpochAuthority.record j e fl' f' (slots_do (serve_all after (mkObjects st (containment_do w))).1) = (st', inr (n', r')) →
  r' = false ∧ n ≤ n'.
Proof.
  intros H1%record_answered H2. pose proof (serve_all_counted after (mkObjects st (containment_do w)) j e n H1) as (He & c & Hc & Hn).
  revert H2. unfold RetryEpochAuthority.record. destruct (negb _); [done|]. destruct f'; try done. rewrite Hc, He.
  destruct (RetryEpochAuthority.validateCount _) as [sc|] eqn:Hv; [|done]. apply validateCount_some in Hv as [= ->].
  repeat case_match; intros; simplify_eq; lia || (split; [done|lia]).
Qed.

Lemma retry_is_counted_once_witness :
  let first := RetryEpochAuthority.record "7" "run-1" 0 NoFault (slots_do fresh_objects) in
  let w := (serve_all [RqRecordRetry "7" "run-2" 0 NoFault] (mkObjects first.1 ∅)).1 in
  let again := RetryEpochAuthority.record "7" "run-1" 0 NoFault (slots_do w) in
  first.2 = inr (1, true) ∧ again.2 = inr (2, false) ∧ false = false ∧ 1 ≤ 2.
Proof.
  intros first w again. split; [vm_compute; reflexivity|]. split; [vm_compute; reflexivity|].
  apply (retry_is_counted_once [RqRecordRetry "7" "run-2" 0 NoFault] "7" "run-1" 0 NoFault 0 NoFault fresh_objects
           first.1 1 true again.1 2 false); vm_compute; reflexivity.
Defined.
